(* ===== verification/_CoqProject ===== *)
-Q . S2P
Prelude.v
Errors.v
Floats.v
Chrono.v
Gregorian.v
TimePartition.v
Schema.v
Object.v
Zstd.v
ChunkReader.v
Decoder.v
Fs.v
Local.v
Store.v
S3.v
S3Store.v
S3Memory.v
Listing.v
Arrow.v
Erlang.v
ArrayData.v
DatumRows.v
Values.v
BatchDecode.v
BatchEncode.v
Predicate.v
ReaderState.v
ReaderOpen.v
ReaderQuery.v
ReaderMemory.v
Sink.v
Writer.v
ParquetWriter.v
RoundTrip.v
WriterMemory.v
RoundTripMemory.v
Nif.v
