(* ===== verification/Prelude.v ===== *)
(** * A verification of Parquex's native library

    Parquex reads and writes Parquet files from Elixir; its work is done by a
    Rust library of native functions (the crate [parquex_nif], under
    [src/native/parquex_nif/src]).  This development models that library file
    by file, as executable definitions, and proves the properties that make
    its parts correct.

    ** The program and its parts

    An entry point ([lib.rs]) decodes its arguments, runs a piece of work inside
    [guarded], and encodes the value or the [NativeFailure] ([error.rs]).  A
    reader ([reader.rs]) is opened on an object of a store: it looks at the
    footer, plans which columns and row groups to decode, and then hands out
    record batches from a prefetch queue; the Parquet decoder reads the object
    back through a chunk reader with bounded ranges.  A store ([store.rs]) is a
    local directory ([local.rs]) or an S3 namespace ([s3.rs]); writers stage an
    object and publish it at the end.  A Parquet writer ([writer.rs]) converts
    schemas and rows to Arrow and feeds the encoder into a staged write.
    One-shot compression ([zstd.rs]) and time partitions
    ([time_partition.rs]) stand on their own.

    ** The files, in the order they build on each other

    - [Prelude] (this file): the error monad [result], computations that may
      panic ([run], [try_bind]), machine integers as [Z] with their bounds and
      wrap-around written out, Rust's string and list operations, the tactics
      [inv_result] and [int_bounds], the rewrite base [parquex].
    - [Errors]: [error.rs] and the containment of [lib.rs].  [Floats]: [f32]
      and [f64] as canonical [spec_float]s, [f64::from], and the exact
      comparison of numbers that the program's comparisons are held against.
    - [Chrono], [Gregorian]: what is used of the [chrono] crate as a class with
      laws, and the proleptic Gregorian calendar as its instance.
      [TimePartition]: [time_partition.rs], every function; a planning loop
      takes fuel [limit + 1].
    - [Schema]: Arrow's types and the descriptors exchanged with the caller,
      [native_field] of [reader.rs] and [arrow_field] of [writer.rs].
    - [Object]: [object.rs]; the token's [cancel] and its [async] [cancelled]
      interleave as a step relation over [tokio::sync::Notify], a class.
    - [Zstd]: [zstd.rs] over the [zstd] crate, a class with laws.
    - [ChunkReader]: the chunk reader of [reader.rs] over the class
      [RangeStore]; [honest] is what it relies on of a store, [reliable] that
      reads are answered, [frugal] that no more is returned than asked for.
      [Decoder]: what a Parquet decoder does to a chunk reader is a tree of
      reads ([reading]), run against it by [play_reads] (which threads the
      counters, the token and the state of the store) and on plain bytes by
      [view]; on an honest store the two agree up to the first failed read.
    - [Fs]: [std::path] and [std::fs] as [local.rs] uses them: a finite map of
      nodes, symbolic links followed at most 40 times, and a list of faults
      that any system call may meet.  [Local]: [local.rs] without listing, as
      transformers of [Process] (file system and counters).
    - [Store]: [store.rs] without listing, over [Local] and the class [S3] of the
      operations it calls of [s3.rs]; its backends are an instance of
      [RangeStore].  [S3]: [s3.rs] over the [object_store] crate, a class whose
      requests are futures that complete or are dropped half-way; [RemoteState]
      holds the network, the counters and an oracle that says which awaits a
      cancellation interrupts.  [S3Store]: its theorems.  [S3Memory]: buckets
      in memory, an instance of the crate and its laws, and the witnesses.
      [Listing]: the listings of [local.rs] and [store.rs]; the walk takes
      fuel, one unit per level of directories, and [listing_fuel] (more than
      the longest path) is enough.
    - [Arrow]: Arrow's arrays and batches as a class, its laws in terms of
      rows, and an in-memory instance.  [Erlang]: terms and their conversions,
      a class with laws.  [ArrayData]: Arrow's builders and arrays value by
      value, likewise; [DatumRows] reads its instance across, as rows.
      [Values]: [decode_batch] of [writer.rs] and
      [encode_batch] of [reader.rs] with all they call; [BatchDecode] and
      [BatchEncode] show what they do.
    - [Predicate]: predicates and pruning.  [ReaderState]: the prefetch queue
      and the resource around it; the loop of [next_batch] takes fuel, one unit
      per turn.  [ReaderOpen]: [open_store] and [open_backend].  [ReaderQuery]:
      what an opened reader delivers of a file that is [healthy].
      [ReaderMemory]: a decoder of tables and the witnesses.
    - [Sink]: the contract between a store and the Parquet writer, a class
      that both backends are shown to satisfy.  [Writer]: the state of
      [writer.rs] and its resource; what the Parquet encoder does to its output
      is an interaction tree, run against a store writer by [play].
      [ParquetWriter]: its theorems, against the contract.  [RoundTrip]: the
      writer and the reader composed on one store.  [WriterMemory] and
      [RoundTripMemory]: an encoder in memory with the decoder of its files,
      and the witnesses.
    - [Nif]: the entry points of [lib.rs] and the resource of store writers.

    State is passed explicitly; a Rust [Result] is a [result], a panic is
    [Panicked], [usize] is 64 bits wide and its additions wrap as in a release
    build.  Crates outside the repository are classes, their documented
    behaviour the laws of a second class; each has an instance in the
    development, used by the witnesses.

    ** What the theorems show

    - Writing and reading: [written_then_read] composes everything below: on a
      store that answers every read, a file written and closed is opened, with
      the columns and options it was written with, and read as the query over
      the rows of the accepted batches.  [read_was_written]: on any store, with
      the token cancelled at any time, what is read is a prefix of that.  Of
      the Parquet crate they assume [ParquetInterop] (its reader reads what
      its writer wrote), of the store [Dependable], which holds of a local
      store without faults ([local_dependable]).
    - Reading: [open_then_read_all] and [reads_are_prefix] compose the reader:
      what a caller receives is the query over the rows of the file, in columns
      of the described types, or a prefix of it before a failure.  Behind them are
      [select_row_groups_sound] (pruning loses no matching row, and
      [integer_statistics_skip_exact] is as sharp as possible) and
      [apply_predicate_and_projection_rows] (integers, exact numbers, bytes of
      strings are compared, whatever the width of a column); [open_store_returns] excludes panics.
      [next_batch_refines] shows the queue implements the list of batches still
      owed, and bounds the loop by two turns more than the decoder has batches;
      [reader_steps_invariant] (the bounds on ranges, queue and bytes, from the
      opening on, over a frugal store such as the local one, [local_frugal])
      and [poisoned_reader] cover every order of operations, panics included.
      Ranges: [get_bytes_exact], [cursor_reads_rest].
    - Writing: [close_publishes] composes the writer: a successful [close] makes
      the object a Parquet file of exactly the accepted batches, which can be
      read back.  [parquet_writer_whole] (all or nothing in every reachable
      state), [abandoned_parquet_writer], [open_failure_restores] and
      [unmonitored_writer_restored] (no trace is left),
      [ended_parquet_writer] (an ended writer stays ended) and
      [parquet_writer_counts] cover every order of operations, with the token
      cancelled at any time and panics included.  [store_writer_whole]: the
      same for the writers of bytes; after a failed write a local object gets
      the acknowledged data and at most a prefix of the failed one's, while
      what a multipart upload makes of a failed part is the service's.
    - Values: [decode_batch_exact] (the builders compute the conversion of a
      term, with its errors in its order, and do not panic within the offsets), [decoded_batch_typed] and
      [batch_roundtrip].  Schemas:
      [describe_rebuild], [rebuild_describe].
    - Local objects: [publish_atomic], [abandoned_writer], [read_range_exact],
      [delete_confined], under any system-call fault; [windows_publish_loses]
      is what remains of the first where files cannot be replaced.  Through the store
      front: [local_store_roundtrip] (what was published is read back) and
      [local_store_honest], which discharges for the local backend what the
      theorems on ranges and readers assume.  [list_exact]: what a listing
      returns, and when.
    - S3 objects, whatever request fails or is interrupted:
      [multipart_atomic], [s3_store_honest], [s3_list_exact] and
      [s3_counters_balanced].
    - Time partitions: they tile the time line ([partition_for_tiles]), their
      paths round-trip and are canonical ([parse_partition_for],
      [parse_canonical]), and a plan is exactly the partitions of a range
      ([plan_exact]).  Compression: [decompress_exact],
      [decompress_compress].  Cancellation: the lost wake-up
      [cancelled_can_wait_forever].

    ** What is not modelled

    Argument decoding and the encoding of structs in the entry points are
    [rustler]'s; the Elixir code only validates options before calling them.
    The bytes of the Parquet format are the crate's: what a file contains is
    said by [healthy] and [parquet_file].  The metadata map of an Arrow field,
    which the program neither reads nor sets, is left out.  File names are
    UTF-8, as keys are: [to_string_lossy] replaces nothing.  On Windows only the replacement of
    a file is modelled apart, over the same file system.
    Concurrency inside an operation is modelled for the token: its [async]
    wait, the interruption of S3 requests, and the cancellation of a Parquet
    writer between any two writes of its encoder; resources are otherwise used
    under their mutex, so their operations are atomic steps. *)
From Stdlib Require Import DecimalString DecimalZ DecimalPos DecimalFacts.
From stdpp Require Export base tactics option list strings gmap numbers sorting.

From Stdlib Require Ascii.
Export Ascii.AsciiSyntax.
Delimit Scope char_scope with char.
#[global] Open Scope Z_scope.

(** ** [Result<T, E>]: the error monad of the program *)

Inductive result (E A : Type) : Type :=
  | Ok (a : A)
  | Err (e : E).
Arguments Ok {E A} a.
Arguments Err {E A} e.

(** [?] is the monadic bind: [x ← m; k] runs [k] on the value and returns the
    first error unchanged. *)
#[export] Instance result_ret E : MRet (result E) := λ A, Ok.
#[export] Instance result_bind E : MBind (result E) := λ A B f m,
  match m with Ok a => f a | Err e => Err e end.
#[export] Instance result_fmap E : FMap (result E) := λ A B f m,
  match m with Ok a => Ok (f a) | Err e => Err e end.

(** [Result::map_err]. *)
Definition map_err {E F A} (f : E → F) (m : result E A) : result F A :=
  match m with Ok a => Ok a | Err e => Err (f e) end.

(** [Option::ok_or] and [Option::ok_or_else]. *)
Definition ok_or {E A} (o : option A) (e : E) : result E A :=
  match o with Some a => Ok a | None => Err e end.

(** [iter().map(f).collect::<Result<Vec<_>, _>>()]: the first error wins. *)
Definition collect {E A B} (f : A → result E B) : list A → result E (list B) :=
  fix go l :=
    match l with
    | [] => Ok []
    | x :: l => y ← f x; ys ← go l; Ok (y :: ys)
    end.

(** A computation that may panic (unwinding is what [catch_unwind] sees). *)
Inductive run (A : Type) : Type :=
  | Returned (a : A)
  | Panicked.
Arguments Returned {A} a.
Arguments Panicked {A}.

#[export] Instance run_ret : MRet run := λ A, Returned.
#[export] Instance run_bind : MBind run := λ A B f m,
  match m with Returned a => f a | Panicked => Panicked end.
#[export] Instance run_fmap : FMap run := λ A B f m,
  match m with Returned a => Returned (f a) | Panicked => Panicked end.

(** [?] inside a function that may also panic: [x ←? m; k]. *)
Definition try_bind {E A B} (f : A → run (result E B)) (m : run (result E A)) : run (result E B) :=
  match m with
  | Returned (Ok a) => f a
  | Returned (Err e) => Returned (Err e)
  | Panicked => Panicked
  end.
Notation "x ←? m ; k" := (try_bind (λ x, k) m)
  (at level 20, m at level 100, k at level 200, only parsing).

(** [iter().map(f).collect::<Result<Vec<_>, _>>()] for such an [f]. *)
Definition try_collect {E A B} (f : A → run (result E B)) : list A → run (result E (list B)) :=
  fix go l :=
    match l with
    | [] => Returned (Ok [])
    | x :: l => y ←? f x; ys ←? go l; Returned (Ok (y :: ys))
    end.

(** [Option::expect]. *)
Definition expect {A} (o : option A) : run A :=
  match o with Some a => Returned a | None => Panicked end.

(** [slice[i]] panics out of range. *)
Definition index {A} (l : list A) (i : nat) : run A :=
  match l !! i with Some a => Returned a | None => Panicked end.

(** ** Machine integers as [Z] with their ranges written out *)

Definition u32_max : Z := 2 ^ 32 - 1.
Definition u64_max : Z := 2 ^ 64 - 1.
(** All supported targets are 64-bit, so [usize] is a [u64]. *)
Definition usize_max : Z := u64_max.
Definition usize_bits : Z := 64.
Definition i32_min : Z := - 2 ^ 31.
Definition i32_max : Z := 2 ^ 31 - 1.
Definition i64_min : Z := - 2 ^ 63.
Definition i64_max : Z := 2 ^ 63 - 1.
Definition isize_max : Z := i64_max.
Definition i128_min : Z := - 2 ^ 127.
Definition i128_max : Z := 2 ^ 127 - 1.
Definition i256_min : Z := - 2 ^ 255.
Definition i256_max : Z := 2 ^ 255 - 1.

(** [T::try_from(z)] for an integer type with bounds [lo..=hi]; the checked
    operations are the exact operation followed by this test. *)
Definition try_from (lo hi z : Z) : option Z :=
  if (lo <=? z) && (z <=? hi) then Some z else None.
Definition i32_try_from : Z → option Z := try_from i32_min i32_max.
Definition u32_try_from : Z → option Z := try_from 0 u32_max.
Definition i64_try_from : Z → option Z := try_from i64_min i64_max.
Definition u64_try_from : Z → option Z := try_from 0 u64_max.
Definition usize_try_from : Z → option Z := try_from 0 usize_max.
Definition u64_checked_add (a b : Z) : option Z := u64_try_from (a + b).
Definition i128_checked_mul (a b : Z) : option Z := try_from i128_min i128_max (a * b).
(** The operators [+] and [-] and the atomic read-modify-write operations wrap
    around (release builds). *)
Definition usize_wrap (z : Z) : Z := z mod 2 ^ 64.
Definition usize_saturating_add (a b : Z) : Z := Z.min usize_max (a + b).
Definition usize_saturating_mul (a b : Z) : Z := Z.min usize_max (a * b).
Definition usize_saturating_sub (a b : Z) : Z := Z.max 0 (a - b).

(** [VecDeque::with_capacity(n)] panics when the allocation would exceed
    [isize::MAX] bytes. *)
Definition with_capacity {A} (n element_size : Z) : run (list A) :=
  if isize_max <? n * element_size then Panicked else Returned [].

(** ** Bytes and lengths *)

From Stdlib Require Export Strings.Byte.
Abbreviation bytes := (list byte).

(** [Vec::len] and [slice::len]. *)
Definition len {A} (l : list A) : Z := Z.of_nat (length l).

(** [slice[a..]] and [slice[..n]] for in-range indices. *)
Definition skip_bytes {A} (n : Z) (l : list A) : list A := drop (Z.to_nat n) l.
Definition take_bytes {A} (n : Z) (l : list A) : list A := take (Z.to_nat n) l.

(** ** [str] operations: a string is its sequence of bytes *)

(** [str::split(sep)]: always at least one piece. *)
Fixpoint split (sep : Ascii.ascii) (s : string) : list string :=
  match s with
  | EmptyString => [""%string]
  | String c s' =>
      if Ascii.eqb c sep then ""%string :: split sep s'
      else match split sep s' with
           | p :: ps => String c p :: ps
           | [] => [String c ""]%string
           end
  end.

(** [str::split_once(sep)]: cut at the first occurrence. *)
Fixpoint split_once (sep : Ascii.ascii) (s : string) : option (string * string) :=
  match s with
  | EmptyString => None
  | String c s' =>
      if Ascii.eqb c sep then Some (""%string, s')
      else '(a, b) ← split_once sep s'; Some (String c a, b)
  end.

Fixpoint join (sep : string) (ps : list string) : string :=
  match ps with
  | [] => ""
  | [p] => p
  | p :: ps => p +:+ sep +:+ join sep ps
  end.

Fixpoint mem_char (c : Ascii.ascii) (s : string) : bool :=
  match s with
  | EmptyString => false
  | String d s' => Ascii.eqb d c || mem_char c s'
  end.

(** [ToString for i64/i32/u32]: minimal decimal digits, with a leading minus
    for negative numbers. *)
Definition to_string (z : Z) : string := NilZero.string_of_int (Z.to_int z).

(** [str::parse::<T>()] for a signed integer type with bounds [lo..=hi]: an
    optional sign, at least one decimal digit, and a value in range. *)
Definition parse_signed (lo hi : Z) (s : string) : option Z :=
  d ← match s with
      | String "+"%char s' => Decimal.Pos <$> NilZero.uint_of_string s'
      | String "-"%char s' => Decimal.Neg <$> NilZero.uint_of_string s'
      | _ => Decimal.Pos <$> NilZero.uint_of_string s
      end;
  try_from lo hi (Z.of_int d).

Definition parse_i64 : string → option Z := parse_signed i64_min i64_max.

(** [iter().position(p)]. *)
Fixpoint position {A} (p : A → bool) (l : list A) : option nat :=
  match l with
  | [] => None
  | x :: l => if p x then Some 0%nat else S <$> position p l
  end.

(** [sort_unstable()] on [usize]s. *)
Definition sort_unstable (l : list nat) : list nat := merge_sort Nat.le l.

(** [sort_unstable()] and [dedup()] on strings. *)
Definition sort_strings (l : list string) : list string := merge_sort (λ a b, String.leb a b) l.

Fixpoint dedup (l : list string) : list string :=
  match l with
  | [] => []
  | x :: l' =>
      match l' with
      | y :: _ => if bool_decide (x = y) then dedup l' else x :: dedup l'
      | [] => [x]
      end
  end.

(** [str::starts_with]. *)
Definition starts_with (prefix s : string) : bool := String.prefix prefix s.

(** ** Lemmas: the error monad *)

Lemma bind_Ok {E A B} (m : result E A) (f : A → result E B) b :
  m ≫= f = Ok b ↔ ∃ a, m = Ok a ∧ f a = Ok b.
Proof. destruct m; simpl; naive_solver. Qed.

Lemma bind_Err {E A B} (m : result E A) (f : A → result E B) e :
  m ≫= f = Err e ↔ m = Err e ∨ ∃ a, m = Ok a ∧ f a = Err e.
Proof. destruct m; simpl; naive_solver. Qed.

Lemma bind_Returned {A B} (m : run A) (f : A → run B) b :
  m ≫= f = Returned b ↔ ∃ a, m = Returned a ∧ f a = Returned b.
Proof. destruct m; simpl; naive_solver. Qed.

Lemma map_err_Ok {E F A} (f : E → F) (m : result E A) a :
  map_err f m = Ok a ↔ m = Ok a.
Proof. destruct m; simpl; naive_solver. Qed.

Lemma ok_or_Ok {E A} (o : option A) (e : E) a : ok_or o e = Ok a ↔ o = Some a.
Proof. destruct o; simpl; naive_solver. Qed.

Lemma ok_or_Err {E A} (o : option A) (e e' : E) : ok_or o e = Err e' ↔ o = None ∧ e = e'.
Proof. destruct o; simpl; naive_solver. Qed.

Lemma try_bind_Ok {E A B} (m : run (result E A)) (f : A → run (result E B)) b :
  try_bind f m = Returned (Ok b) ↔ ∃ a, m = Returned (Ok a) ∧ f a = Returned (Ok b).
Proof. destruct m as [[]|]; simpl; naive_solver. Qed.

Lemma try_bind_Returned {E A B} (m : run (result E A)) (f : A → run (result E B)) :
  (∃ r, m = Returned r) → (∀ a, m = Returned (Ok a) → ∃ r, f a = Returned r) →
  ∃ r, try_bind f m = Returned r.
Proof. intros [[a|e] ->] Hf; simpl; eauto. Qed.

Lemma try_collect_cons {E A B} (f : A → run (result E B)) x l :
  try_collect f (x :: l) = (y ←? f x; ys ←? try_collect f l; Returned (Ok (y :: ys))).
Proof. done. Qed.

(** [collect] succeeds exactly when every element does. *)
Lemma collect_Ok {E A B} (f : A → result E B) l k :
  collect f l = Ok k ↔ Forall2 (λ x y, f x = Ok y) l k.
Proof.
  revert k. induction l as [|x l IH]; intros k; simpl.
  - split; [intros [= <-]; constructor | by inversion 1].
  - rewrite bind_Ok. split.
    + intros (y & Hy & (ys & Hys & [= <-])%bind_Ok). constructor; [done|by apply IH].
    + inversion 1 as [|? y ? ys Hy Hys]; subst. exists y. split; [done|].
      apply bind_Ok. exists ys. split; [by apply IH|done].
Qed.

Ltac inv_result :=
  repeat match goal with
  | H : _ ≫= _ = Ok _ |- _ => apply bind_Ok in H as (? & ? & ?)
  | H : _ ≫= _ = Returned _ |- _ => apply bind_Returned in H as (? & ? & ?)
  | H : ok_or _ _ = Ok _ |- _ => apply ok_or_Ok in H
  | H : map_err _ _ = Ok _ |- _ => apply map_err_Ok in H
  | H : Ok _ = Ok _ |- _ => injection H as H
  | H : Returned _ = Returned _ |- _ => injection H as H
  | H : Err _ = Ok _ |- _ => discriminate H
  | H : Ok _ = Err _ |- _ => discriminate H
  | H : Panicked = Returned _ |- _ => discriminate H
  end.

(** ** Lemmas: machine integers *)

Lemma try_from_Some lo hi z w : try_from lo hi z = Some w ↔ w = z ∧ lo ≤ z ≤ hi.
Proof.
  unfold try_from. destruct (Z.leb_spec lo z), (Z.leb_spec z hi); simpl;
    split; intros; simplify_eq; naive_solver lia.
Qed.

Lemma try_from_None lo hi z : try_from lo hi z = None ↔ ¬ (lo ≤ z ≤ hi).
Proof.
  unfold try_from. destruct (Z.leb_spec lo z), (Z.leb_spec z hi); simpl;
    split; intros; naive_solver lia.
Qed.

Lemma try_from_in lo hi z : lo ≤ z ≤ hi → try_from lo hi z = Some z.
Proof. intros. by apply try_from_Some. Qed.

(** Unfold the width constants, then decide linear arithmetic. *)
Ltac int_bounds :=
  unfold i32_try_from, u32_try_from, i64_try_from, u64_try_from, usize_try_from,
    u64_checked_add, i128_checked_mul, usize_saturating_add, usize_saturating_mul,
    usize_saturating_sub, i128_min, i128_max, i64_min, i64_max, i32_min, i32_max,
    isize_max, usize_max, u32_max, u64_max, usize_bits, usize_wrap in *.

(** ** Lemmas: strings *)

Lemma append_nil (b : string) : "" +:+ b = b.
Proof. done. Qed.

Lemma append_cons x (a b : string) : String x a +:+ b = String x (a +:+ b).
Proof. done. Qed.

Create HintDb parquex.
Create Rewrite HintDb parquex.
#[export] Hint Rewrite append_nil append_cons : parquex.

Lemma append_assoc (a b c : string) : (a +:+ b) +:+ c = a +:+ (b +:+ c).
Proof. induction a as [|x a IH]; autorewrite with parquex; congruence. Qed.

Lemma mem_char_app c a b : mem_char c (a +:+ b) = mem_char c a || mem_char c b.
Proof.
  induction a as [|x a IH]; autorewrite with parquex; simpl; [done|].
  by rewrite IH, orb_assoc.
Qed.

Lemma split_no_sep sep s : mem_char sep s = false → split sep s = [s].
Proof.
  induction s as [|c s IH]; simpl; [done|]. intros [Hc Hs]%orb_false_elim.
  by rewrite Hc, IH.
Qed.

Lemma split_app sep a b :
  mem_char sep a = false → split sep (a +:+ String sep b) = a :: split sep b.
Proof.
  induction a as [|c a IH]; autorewrite with parquex; simpl.
  - by rewrite Ascii.eqb_refl.
  - intros [Hc Ha]%orb_false_elim. by rewrite Hc, IH.
Qed.

(** Splitting a joined path gives its pieces back. *)
Lemma split_join sep ps :
  ps ≠ [] → Forall (λ p, mem_char sep p = false) ps →
  split sep (join (String sep EmptyString) ps) = ps.
Proof.
  intros Hne Hall. induction Hall as [|p ps Hp Hall IH]; [done|].
  destruct ps as [|q ps]; cbn [join]; [by apply split_no_sep|].
  rewrite append_cons, append_nil, split_app by done. f_equal. by apply IH.
Qed.

Lemma split_nonempty sep s : split sep s ≠ [].
Proof. destruct s; simpl; repeat case_match; done. Qed.

(** Splitting two strings around a separator. *)
Lemma split_cat sep a b : split sep (a +:+ String sep b) = split sep a ++ split sep b.
Proof.
  induction a as [|c a IH]; autorewrite with parquex; cbn [split].
  - by rewrite Ascii.eqb_refl.
  - rewrite IH. destruct (Ascii.eqb_spec c sep); [done|].
    pose proof (split_nonempty sep a). by destruct (split sep a).
Qed.

Lemma filter_all {A} (P : A → Prop) `{!∀ x, Decision (P x)} l : Forall P l → filter P l = l.
Proof. induction 1 as [|x l Hx _ IH]; [done|]. by rewrite filter_cons_True, IH. Qed.

(** ... and joining the pieces of a split gives the path back. *)
Lemma join_split sep s : join (String sep EmptyString) (split sep s) = s.
Proof.
  induction s as [|c s IH]; simpl; [done|].
  pose proof (split_nonempty sep s) as Hne.
  destruct (Ascii.eqb_spec c sep) as [->|Hc], (split sep s) as [|p [|q ps]];
    try done; cbn [join] in *; autorewrite with parquex in *;
    congruence.
Qed.

Lemma split_once_app sep a b :
  mem_char sep a = false → split_once sep (a +:+ String sep b) = Some (a, b).
Proof.
  induction a as [|c a IH]; autorewrite with parquex; simpl.
  - by rewrite Ascii.eqb_refl.
  - intros [Hc Ha]%orb_false_elim. by rewrite Hc, IH.
Qed.

Lemma split_once_Some sep s a b :
  split_once sep s = Some (a, b) → s = a +:+ String sep b.
Proof.
  revert a. induction s as [|c s IH]; intros a; simpl; [done|].
  destruct (Ascii.eqb_spec c sep) as [->|].
  - by intros [= <- ->].
  - destruct (split_once sep s) as [[a' b']|]; simpl; [|done].
    intros [= <- ->]. autorewrite with parquex. f_equal. by apply IH.
Qed.

(** Decimal digits: what [to_string] can contain. *)
Lemma string_of_uint_mem c d :
  c ∉ ["0"; "1"; "2"; "3"; "4"; "5"; "6"; "7"; "8"; "9"]%char →
  mem_char c (NilEmpty.string_of_uint d) = false.
Proof.
  intros Hc. rewrite !not_elem_of_cons in Hc. destruct_and! Hc.
  induction d; cbn [mem_char NilEmpty.string_of_uint]; rewrite ?IHd, ?orb_false_r; [done|..];
    by apply Ascii.eqb_neq, not_eq_sym.
Qed.

Lemma to_string_mem c z :
  c ∉ ["-"; "0"; "1"; "2"; "3"; "4"; "5"; "6"; "7"; "8"; "9"]%char →
  mem_char c (to_string z) = false.
Proof.
  intros [Hm Hc]%not_elem_of_cons. unfold to_string, NilZero.string_of_int, NilZero.string_of_uint.
  assert (mem_char c "0" = false) as H0.
  { cbn [mem_char]. rewrite orb_false_r. apply Ascii.eqb_neq. set_solver. }
  destruct (Z.to_int z) as [[]|[]]; try done; try (by apply string_of_uint_mem);
    cbn [mem_char]; apply orb_false_intro; try done;
    (by apply Ascii.eqb_neq, not_eq_sym) || (by apply string_of_uint_mem).
Qed.

Lemma to_uint_nonnil p : Pos.to_uint p ≠ Decimal.Nil.
Proof. apply DecimalPos.Unsigned.to_uint_nonnil. Qed.

(** A printed number parses back to itself, when it is in range. *)
Lemma parse_signed_to_string lo hi z :
  lo ≤ z ≤ hi → parse_signed lo hi (to_string z) = Some z.
Proof.
  intros Hz. unfold parse_signed, to_string.
  assert (Hof := DecimalZ.of_to z). revert Hof.
  destruct z as [|p|p]; cbn [Z.to_int]; intros Hof.
  - by apply try_from_in.
  - assert (NilZero.uint_of_string (NilZero.string_of_int (Decimal.Pos (Pos.to_uint p)))
      = Some (Pos.to_uint p)) as Hu by (apply NilZero.usu, to_uint_nonnil).
    assert (∃ c s, NilZero.string_of_int (Decimal.Pos (Pos.to_uint p)) = String c s
      ∧ c ≠ "+"%char ∧ c ≠ "-"%char) as (c & s & Hs & Hp & Hm).
    { unfold NilZero.string_of_int, NilZero.string_of_uint.
      destruct (Pos.to_uint p); simpl; by eauto. }
    rewrite Hs in *. destruct c as [[] [] [] [] [] [] [] []]; try done; rewrite Hu;
      cbn [fmap option_fmap option_map mbind option_bind]; rewrite Hof; by apply try_from_in.
  - cbn [NilZero.string_of_int]. rewrite NilZero.usu by apply to_uint_nonnil.
    cbn [fmap option_fmap option_map mbind option_bind]. rewrite Hof. by apply try_from_in.
Qed.

Lemma parse_signed_range lo hi s z : parse_signed lo hi s = Some z → lo ≤ z ≤ hi.
Proof.
  unfold parse_signed.
  match goal with |- context [mbind _ ?o] => destruct o as [d|] end; simpl; [|done].
  by intros [-> ?]%try_from_Some.
Qed.

Lemma parse_to_string z :
  i64_min ≤ z ≤ i64_max → parse_i64 (to_string z) = Some z.
Proof. apply parse_signed_to_string. Qed.

Lemma to_string_inj z w :
  i64_min ≤ z ≤ i64_max → i64_min ≤ w ≤ i64_max → to_string z = to_string w → z = w.
Proof. intros Hz Hw Heq. apply parse_to_string in Hz, Hw. congruence. Qed.

(** ** Lemmas: lists *)

Lemma position_Some {A} (p : A → bool) l i :
  position p l = Some i ↔
  ∃ x, l !! i = Some x ∧ p x = true ∧ ∀ j y, (j < i)%nat → l !! j = Some y → p y = false.
Proof.
  revert i. induction l as [|x l IH]; intros i; simpl.
  - split; [done|]. by intros (x & Hx & _).
  - destruct (p x) eqn:Hp; [|rewrite fmap_Some; split].
    + split; [intros [= <-]; exists x; split_and!; naive_solver lia|].
      destruct i as [|i]; [done|]. intros (y & Hy & Hpy & Hfst).
      specialize (Hfst 0%nat x ltac:(lia) eq_refl). congruence.
    + intros (i' & (y & Hy & Hpy & Hfst)%IH & ->). exists y. split_and!; [done..|].
      intros [|j] z Hj; simpl; [by intros [= <-]|]. apply Hfst; lia.
    + destruct i as [|i]; intros (y & Hy & Hpy & Hfst); simpl in *; [congruence|].
      exists i. split; [|done]. apply IH. exists y. split_and!; [done..|].
      intros j z Hj. apply (Hfst (S j)); lia.
Qed.

Lemma position_None {A} (p : A → bool) l :
  position p l = None ↔ Forall (λ x, p x = false) l.
Proof.
  induction l as [|x l IH]; simpl; [by split|].
  rewrite Forall_cons. destruct (p x); [naive_solver|]. rewrite fmap_None, IH. naive_solver.
Qed.

Lemma sort_unstable_Permutation l : sort_unstable l ≡ₚ l.
Proof. apply merge_sort_Permutation. Qed.

Lemma sort_unstable_Sorted l : StronglySorted Nat.le (sort_unstable l).
Proof. apply StronglySorted_merge_sort; [intros ???; lia|intros ??; lia]. Qed.

Lemma len_nonneg {A} (l : list A) : 0 ≤ len l.
Proof. unfold len. lia. Qed.

Lemma len_nil {A} : len (A := A) [] = 0.
Proof. done. Qed.

Lemma len_app {A} (l k : list A) : len (l ++ k) = len l + len k.
Proof. unfold len. rewrite length_app. lia. Qed.

Lemma len_cons {A} (x : A) l : len (x :: l) = 1 + len l.
Proof. unfold len. simpl. lia. Qed.

Lemma len_take_bytes {A} n (l : list A) : 0 ≤ n → len (take_bytes n l) = Z.min n (len l).
Proof. intros. unfold len, take_bytes. rewrite length_take. lia. Qed.

Lemma len_skip_bytes {A} n (l : list A) : 0 ≤ n → len (skip_bytes n l) = Z.max 0 (len l - n).
Proof. intros. unfold len, skip_bytes. rewrite length_drop. lia. Qed.

Lemma take_skip_bytes {A} n (l : list A) : take_bytes n l ++ skip_bytes n l = l.
Proof. apply take_drop. Qed.

Lemma take_bytes_ge {A} n (l : list A) : len l ≤ n → take_bytes n l = l.
Proof. intros. unfold take_bytes. apply take_ge. unfold len in *. lia. Qed.

Lemma skip_skip_bytes {A} a b (l : list A) :
  0 ≤ a → 0 ≤ b → skip_bytes a (skip_bytes b l) = skip_bytes (b + a) l.
Proof.
  intros. unfold skip_bytes. rewrite drop_drop. f_equal. lia.
Qed.

#[export] Hint Rewrite @len_app @len_cons @len_nil : parquex.

(** ** Lemmas: sorted strings *)

Lemma usize_wrap_in z : 0 ≤ z ≤ usize_max → usize_wrap z = z.
Proof. intros. unfold usize_wrap. apply Z.mod_small. int_bounds. lia. Qed.

#[export] Instance string_leb_total : Total (λ a b, String.leb a b).
Proof.
  intros a b. unfold String.leb. rewrite (String.compare_antisym b a).
  destruct (String.compare a b); simpl; auto.
Qed.

Lemma ascii_compare_N c d : Ascii.compare c d = N.compare (Ascii.N_of_ascii c) (Ascii.N_of_ascii d).
Proof. done. Qed.

#[export] Instance string_leb_trans : Transitive (λ a b, Is_true (String.leb a b)).
Proof.
  intros a b c. unfold String.leb. revert b c.
  induction a as [|x a IH]; intros [|y b] [|z c]; simpl; try done.
  rewrite !ascii_compare_N. specialize (IH b c).
  generalize (Ascii.N_of_ascii x), (Ascii.N_of_ascii y), (Ascii.N_of_ascii z). intros i j k.
  destruct (N.compare_spec i j), (N.compare_spec j k), (N.compare_spec i k); subst; try done; lia.
Qed.
