(* ===== verification/Errors.v ===== *)
(** * Errors: operations, error categories and the boundary of the native calls

    Models [error.rs] and the parts of [lib.rs] every exported function goes
    through: the [Operation] and [Category] enumerations with the atoms they
    are sent as, [NativeFailure] with its constructors, the classification of
    [std::io::Error]s, the error payload, and the containment of panics
    ([guarded], [encode_guarded], [encode_binary_guarded]).  An atom is its
    name. *)
From S2P Require Import Prelude.

Abbreviation atom := string (only parsing).

(** ** Categories and operations *)

Inductive Category : Set :=
  | Cancelled | Conflict | InvalidArgument | MalformedData | NativeFailureCategory
  | NotFound | PermissionDenied | Timeout | Unsupported.

#[export] Instance Category_eq_dec : EqDecision Category.
Proof. solve_decision. Defined.

Definition Category_atom (c : Category) : atom :=
  match c with
  | Cancelled => "cancelled"
  | Conflict => "conflict"
  | InvalidArgument => "invalid_argument"
  | MalformedData => "malformed_data"
  | NativeFailureCategory => "native_failure"
  | NotFound => "not_found"
  | PermissionDenied => "permission_denied"
  | Timeout => "timeout"
  | Unsupported => "unsupported"
  end.

Inductive Operation : Set :=
  | Smoke | SmokeError | Head | ReadRange | List | Delete
  | WriterOpen | WriterWrite | WriterPublish | WriterAbort | ResourceSnapshot
  | ReaderOpen | ReaderNext | ReaderClose | ReaderStats
  | ParquetWriterOpen | ParquetWriterWrite | ParquetWriterClose
  | ParquetWriterAbort | ParquetWriterStats
  | ZstdCompress | ZstdDecompress
  | S3Head | S3List | S3Delete | S3WriterOpen | S3WriterWrite
  | S3WriterPublish | S3WriterAbort
  | StoreOpen | StoreIdentity | StoreHead | StoreReadRange | StoreList | StoreDelete
  | StoreWriterOpen | StoreWriterWrite | StoreWriterPublish | StoreWriterAbort
  | TimePartition.

#[export] Instance Operation_eq_dec : EqDecision Operation.
Proof. solve_decision. Defined.

Definition Operation_atom (o : Operation) : atom :=
  match o with
  | Smoke => "native_smoke"
  | SmokeError => "native_smoke_error"
  | Head => "local_head"
  | ReadRange => "local_read_range"
  | List => "local_list"
  | Delete => "local_delete"
  | WriterOpen => "local_writer_open"
  | WriterWrite => "local_writer_write"
  | WriterPublish => "local_writer_publish"
  | WriterAbort => "local_writer_abort"
  | ResourceSnapshot => "resource_snapshot"
  | ReaderOpen => "reader_open"
  | ReaderNext => "reader_next"
  | ReaderClose => "reader_close"
  | ReaderStats => "reader_stats"
  | ParquetWriterOpen => "parquet_writer_open"
  | ParquetWriterWrite => "parquet_writer_write"
  | ParquetWriterClose => "parquet_writer_close"
  | ParquetWriterAbort => "parquet_writer_abort"
  | ParquetWriterStats => "parquet_writer_stats"
  | ZstdCompress => "zstd_compress"
  | ZstdDecompress => "zstd_decompress"
  | S3Head => "s3_head"
  | S3List => "s3_list"
  | S3Delete => "s3_delete"
  | S3WriterOpen => "s3_writer_open"
  | S3WriterWrite => "s3_writer_write"
  | S3WriterPublish => "s3_writer_publish"
  | S3WriterAbort => "s3_writer_abort"
  | StoreOpen => "store_open"
  | StoreIdentity => "store_identity"
  | StoreHead => "store_head"
  | StoreReadRange => "store_read_range"
  | StoreList => "store_list"
  | StoreDelete => "store_delete"
  | StoreWriterOpen => "store_writer_open"
  | StoreWriterWrite => "store_writer_write"
  | StoreWriterPublish => "store_writer_publish"
  | StoreWriterAbort => "store_writer_abort"
  | TimePartition => "time_partition"
  end.

(** ** Failures *)

Record NativeFailure : Set := {
  category : Category;
  operation : Operation;
  message : string;
  retryable : bool;
}.

#[export] Instance NativeFailure_eq_dec : EqDecision NativeFailure.
Proof. solve_decision. Defined.

Definition NativeFailure_new (c : Category) (o : Operation) (m : string) : NativeFailure :=
  {| category := c; operation := o; message := m; retryable := false |}.

Definition NativeFailure_expected (o : Operation) (m : string) : NativeFailure :=
  NativeFailure_new NativeFailureCategory o m.

Definition NativeFailure_invalid (o : Operation) (m : string) : NativeFailure :=
  NativeFailure_new InvalidArgument o m.

Definition NativeFailure_cancelled (o : Operation) : NativeFailure :=
  NativeFailure_new Cancelled o "operation was cancelled".

Definition NativeFailure_panic (o : Operation) : NativeFailure :=
  NativeFailure_new NativeFailureCategory o "native operation failed safely".

(** [NativeFailure { operation, ..error }]. *)
Definition with_operation (o : Operation) (e : NativeFailure) : NativeFailure :=
  {| category := category e; operation := o;
     message := message e; retryable := retryable e |}.

(** [std::io::ErrorKind]: the kinds the program distinguishes, and every other
    kind the standard library has or will have. *)
Module io.
Inductive ErrorKind : Set :=
  | NotFound | PermissionDenied | AlreadyExists | InvalidInput | InvalidData
  | TimedOut | Unsupported | Uncategorized (n : nat).
#[export] Instance ErrorKind_eq_dec : EqDecision ErrorKind.
Proof. solve_decision. Defined.
End io.

Definition from_io (o : Operation) (kind : io.ErrorKind) : NativeFailure :=
  let '(c, m, r) :=
    match kind with
    | io.NotFound => (NotFound, "object not found", false)
    | io.PermissionDenied => (PermissionDenied, "object access was denied", false)
    | io.AlreadyExists => (Conflict, "destination already exists", false)
    | io.InvalidInput | io.InvalidData => (InvalidArgument, "object request is invalid", false)
    | io.TimedOut => (Timeout, "object operation timed out", true)
    | io.Unsupported => (Unsupported, "object operation is unsupported", false)
    | _ => (NativeFailureCategory, "local object operation failed", false)
    end%string in
  {| category := c; operation := o; message := m; retryable := r |}.

(** The map sent to the caller. *)
Record NativeErrorPayload : Set := {
  payload_category : atom;
  payload_operation : atom;
  payload_message : string;
  payload_retryable : bool;
}.

Definition payload (f : NativeFailure) : NativeErrorPayload :=
  {| payload_category := Category_atom (category f);
     payload_operation := Operation_atom (operation f);
     payload_message := message f;
     payload_retryable := retryable f |}.

(** ** The exported entry points *)

(** [catch_unwind]: a panic becomes an ordinary failure. *)
Definition guarded {T} (o : Operation) (work : run (result NativeFailure T)) :
    result NativeFailure T :=
  match work with
  | Returned r => r
  | Panicked => Err (NativeFailure_panic o)
  end.

(** The term an entry point returns: [{:ok, value}] or [{:error, payload}]. *)
Inductive reply (T : Type) : Type :=
  | reply_ok (value : T)
  | reply_error (p : NativeErrorPayload).
Arguments reply_ok {T} value.
Arguments reply_error {T} p.

Definition encode_guarded {T} (o : Operation) (work : run (result NativeFailure T)) : reply T :=
  match guarded o work with
  | Ok value => reply_ok value
  | Err failure => reply_error (payload failure)
  end.

(** [OwnedBinary::new] may fail to allocate: [alloc] says for which sizes it
    succeeds. *)
Definition encode_binary_guarded (alloc : nat → bool) (o : Operation)
    (work : run (result NativeFailure (list Byte.byte))) : reply (list Byte.byte) :=
  match guarded o work with
  | Ok bytes =>
      if alloc (length bytes) then reply_ok bytes
      else reply_error (payload (NativeFailure_expected o "binary allocation failed"))
  | Err failure => reply_error (payload failure)
  end.

(** ** Lemmas *)

Ltac by_cases x := destruct x; (done || (let H := fresh in intros H; discriminate H)).

#[export] Instance Category_atom_inj : Inj (=) (=) Category_atom.
Proof. intros c c'. destruct c; by_cases c'. Qed.

(** [Operation::atom] has a left inverse, found by looking the atom up. *)
Definition operations : list Operation :=
  [Smoke; SmokeError; Head; ReadRange; List; Delete; WriterOpen; WriterWrite;
   WriterPublish; WriterAbort; ResourceSnapshot; ReaderOpen; ReaderNext;
   ReaderClose; ReaderStats; ParquetWriterOpen; ParquetWriterWrite;
   ParquetWriterClose; ParquetWriterAbort; ParquetWriterStats; ZstdCompress;
   ZstdDecompress; S3Head; S3List; S3Delete; S3WriterOpen; S3WriterWrite;
   S3WriterPublish; S3WriterAbort; StoreOpen; StoreIdentity; StoreHead;
   StoreReadRange; StoreList; StoreDelete; StoreWriterOpen; StoreWriterWrite;
   StoreWriterPublish; StoreWriterAbort; TimePartition].

Definition operation_of_atom (a : atom) : option Operation :=
  i ← position (λ o, bool_decide (Operation_atom o = a)) operations; operations !! i.

Lemma operation_of_atom_spec o : operation_of_atom (Operation_atom o) = Some o.
Proof. destruct o; vm_compute; reflexivity. Qed.

#[export] Instance Operation_atom_inj : Inj (=) (=) Operation_atom.
Proof.
  intros o o' H. assert (Some o = Some o') as [= ->]; [|done].
  by rewrite <-!operation_of_atom_spec, H.
Qed.

(** ** Properties *)

(** Nothing is lost at the boundary: a failure can be read back from the
    payload its entry point sends, so two different failures (category,
    operation, message or retry flag) are never sent as the same payload. *)
Theorem payload_injective (f g : NativeFailure) : payload f = payload g → f = g.
Proof.
  destruct f, g. unfold payload; simpl.
  intros [= ?%(inj Category_atom) ?%(inj Operation_atom) ? ?]. by subst.
Qed.

Lemma payload_injective_witness :
  payload (from_io StoreHead io.TimedOut) =
    payload {| category := Timeout; operation := StoreHead;
               message := "object operation timed out"; retryable := true |} ∧
  from_io StoreHead io.TimedOut =
    {| category := Timeout; operation := StoreHead;
       message := "object operation timed out"; retryable := true |}.
Proof. split; [reflexivity|]. apply (payload_injective _ _). reflexivity. Defined.
