(* ===== verification/Floats.v ===== *)
(** * Floats: the program's [f32] and [f64]

    A float of a binary format is a [spec_float] in the canonical form of the
    format.  [f64::from] widens an [f32]: the same number, with the mantissa
    moved to the canonical exponent of the wider format.  [number_compare]
    compares two numbers exactly, whatever their formats; the IEEE comparison
    of two numbers of one format agrees with it, and widening does not change
    its outcome. *)
From Stdlib Require Export Floats.SpecFloat.
From S2P Require Import Prelude Errors.

(** ** Data *)

Record float (prec emax : Z) : Set := mkFloat {
  number : spec_float;
  number_valid : valid_binary prec emax number = true;
}.
Arguments mkFloat {prec emax} number number_valid.
Arguments number {prec emax} f.
Arguments number_valid {prec emax} f.

Abbreviation f32 := (float 24 128).
Abbreviation f64 := (float 53 1024).

#[export] Instance spec_float_eq_dec : EqDecision spec_float.
Proof. solve_decision. Defined.

Lemma float_eq {prec emax} (f g : float prec emax) : number f = number g → f = g.
Proof. destruct f as [f Hf], g as [g Hg]. simpl. intros <-. f_equal. apply proof_irrel. Qed.

#[export] Instance float_eq_dec prec emax : EqDecision (float prec emax).
Proof.
  refine (λ f g, cast_if (decide (number f = number g))); [by apply float_eq|by intros ->].
Defined.

(** A proof of a boolean that evaluates to [eq_refl]. *)
Definition checked {b : bool} : b = true → b = true :=
  match b return b = true → b = true with true => λ _, eq_refl | false => λ H, H end.

(** The float of a number, if the format has it in this form. *)
Definition float_of (prec emax : Z) (f : spec_float) : option (float prec emax) :=
  match valid_binary prec emax f as b return valid_binary prec emax f = b → option (float prec emax) with
  | true => λ H, Some (mkFloat f H)
  | false => λ _, None
  end eq_refl.

(** [is_finite]. *)
Definition is_finite (f : spec_float) : bool :=
  match f with S754_zero _ | S754_finite _ _ _ => true | _ => false end.

(** The finite numbers of a binary format. *)
Definition finite_in (prec emax : Z) (f : spec_float) : bool :=
  is_finite f && valid_binary prec emax f.

(** ** Exact comparison of numbers *)

Definition mantissa (f : spec_float) : Z :=
  match f with S754_finite s m _ => if s then Z.neg m else Z.pos m | _ => 0 end.

Definition exponent (f : spec_float) : Z :=
  match f with S754_finite _ _ e => e | _ => 0 end.

(** [mantissa * 2 ^ exponent] in units of [2 ^ e]. *)
Definition in_units (e : Z) (f : spec_float) : Z := mantissa f * 2 ^ (exponent f - e).

(** A NaN compares to nothing; an infinity is beyond every finite number, and
    finite numbers compare in units fine enough for both. *)
Definition number_compare (f g : spec_float) : option comparison :=
  match f, g with
  | S754_nan, _ | _, S754_nan => None
  | S754_infinity s, S754_infinity s' => Some (if Bool.eqb s s' then Eq else if s then Lt else Gt)
  | S754_infinity s, _ => Some (if s then Lt else Gt)
  | _, S754_infinity s => Some (if s then Gt else Lt)
  | _, _ => let e := Z.min (exponent f) (exponent g) in Some (in_units e f ?= in_units e g)
  end.

(** ** Widening *)

(** The mantissa [m] moved down to the canonical exponent of a format. *)
Definition widened (prec emax : Z) (f : spec_float) : spec_float :=
  match f with
  | S754_finite s m e =>
      let '(m, e) := shl_align m e (fexp prec emax (Z.pos (digits2_pos m) + e)) in S754_finite s m e
  | f => f
  end.

(** ** Lemmas *)

Lemma float_of_Some prec emax f (v : float prec emax) : float_of prec emax f = Some v ↔ number v = f.
Proof.
  unfold float_of. generalize (@eq_refl bool (valid_binary prec emax f)).
  generalize (valid_binary prec emax f) at 2 3. intros [] H; split; try discriminate.
  - by intros [= <-].
  - intros <-. f_equal. by apply float_eq.
  - intros <-. pose proof (number_valid v). congruence.
Qed.

Lemma float_of_number {prec emax} (f : float prec emax) : float_of prec emax (number f) = Some f.
Proof. by apply float_of_Some. Qed.

Lemma float_of_valid prec emax f : valid_binary prec emax f = true → ∃ v, float_of prec emax f = Some v ∧ number v = f.
Proof. intros H. exists (mkFloat f H). split; [by apply float_of_Some|done]. Qed.

Lemma from_float_of {A} prec emax f (k : spec_float → A) (d : A) :
  from_option (k ∘ number) d (float_of prec emax f) = if valid_binary prec emax f then k f else d.
Proof.
  destruct (valid_binary prec emax f) eqn:Hf.
  - by destruct (float_of_valid prec emax f Hf) as (v & -> & <-).
  - destruct (float_of prec emax f) as [v|] eqn:Hv; [|done]. apply float_of_Some in Hv as <-.
    by rewrite number_valid in Hf.
Qed.

Lemma finite_in_number {prec emax} (f : float prec emax) : finite_in prec emax (number f) = is_finite (number f).
Proof. unfold finite_in. by rewrite number_valid, andb_true_r. Qed.

Lemma digits2_bounds m : 2 ^ (Z.pos (digits2_pos m) - 1) ≤ Z.pos m < 2 ^ Z.pos (digits2_pos m).
Proof.
  induction m as [m IH|m IH|]; [| |done]; cbn [digits2_pos]; rewrite Pos2Z.inj_succ;
    replace (Z.succ (Z.pos (digits2_pos m)) - 1) with (Z.succ (Z.pos (digits2_pos m) - 1)) by lia;
    rewrite !Z.pow_succ_r by lia; lia.
Qed.

Lemma digits2_unique m d : 0 < d → 2 ^ (d - 1) ≤ Z.pos m < 2 ^ d → Z.pos (digits2_pos m) = d.
Proof.
  intros Hd [Hlo Hhi]. pose proof (digits2_bounds m) as [Hlo' Hhi'].
  pose proof (Z.pow_lt_mono_r_iff 2 (d - 1) (Z.pos (digits2_pos m)) ltac:(lia) ltac:(lia)).
  pose proof (Z.pow_lt_mono_r_iff 2 (Z.pos (digits2_pos m) - 1) d ltac:(lia) ltac:(lia)). lia.
Qed.

(** Canonical numbers have at most [prec] bits, and exactly [prec] unless
    their exponent is the smallest one. *)
Lemma bounded_mantissa prec emax m e : 0 < prec → bounded prec emax m e = true →
  Z.pos m < 2 ^ prec ∧ emin prec emax ≤ e ≤ emax - prec ∧ (emin prec emax < e → 2 ^ (prec - 1) ≤ Z.pos m).
Proof.
  intros Hp [Hc%Z.eqb_eq He%Z.leb_le]%andb_prop. unfold fexp in Hc.
  pose proof (digits2_bounds m) as [Hlo Hhi]. split_and!; [|lia|done|].
  - eapply Z.lt_le_trans; [done|]. apply Z.pow_le_mono_r; lia.
  - intros Hlt. etrans; [|exact Hlo]. apply Z.pow_le_mono_r; lia.
Qed.

(** Comparing in finer units does not change the outcome. *)
Lemma in_units_finer c e f : c ≤ e ≤ exponent f → in_units c f = in_units e f * 2 ^ (e - c).
Proof.
  intros He. unfold in_units. rewrite <-Z.mul_assoc, <-Z.pow_add_r by lia. do 2 f_equal. lia.
Qed.

Lemma compare_units c e f g : c ≤ e → e ≤ exponent f → e ≤ exponent g →
  (in_units c f ?= in_units c g) = (in_units e f ?= in_units e g).
Proof.
  intros Hc Hf Hg. rewrite !(in_units_finer c e) by lia. symmetry. apply Zmult_compare_compat_r.
  apply Z.lt_gt, Z.pow_pos_nonneg; lia.
Qed.

Lemma units_positive c m e : c ≤ e → 0 < Z.pos m * 2 ^ (e - c).
Proof. intros Hc. apply Z.mul_pos_pos; [done|]. apply Z.pow_pos_nonneg; lia. Qed.

(** In one format the larger exponent is the larger number. *)
Lemma larger_exponent prec emax m e m' e' : 0 < prec →
  bounded prec emax m e = true → bounded prec emax m' e' = true → e < e' →
  Z.pos m < Z.pos m' * 2 ^ (e' - e).
Proof.
  intros Hp (Hm & He & _)%bounded_mantissa (_ & _ & Hm')%bounded_mantissa Hlt; [|done..].
  specialize (Hm' ltac:(lia)).
  replace prec with (Z.succ (prec - 1)) in Hm by lia. rewrite Z.pow_succ_r in Hm by lia.
  assert (2 ^ 1 ≤ 2 ^ (e' - e)) by (apply Z.pow_le_mono_r; lia). nia.
Qed.

Lemma magnitude_compare prec emax m e m' e' : 0 < prec →
  bounded prec emax m e = true → bounded prec emax m' e' = true →
  (Z.pos m * 2 ^ (e - Z.min e e') ?= Z.pos m' * 2 ^ (e' - Z.min e e')) =
  match e ?= e' with Lt => Lt | Gt => Gt | Eq => (m ?= m')%positive end.
Proof.
  intros Hp Hm Hm'. destruct (Z.compare_spec e e') as [->|He|He].
  - by rewrite Z.min_id, Z.sub_diag, !Z.mul_1_r.
  - rewrite Z.min_l, Z.sub_diag, Z.mul_1_r by lia.
    by apply Z.compare_lt_iff, (larger_exponent prec emax m e m' e').
  - rewrite Z.min_r, Z.sub_diag, Z.mul_1_r by lia.
    by apply Z.compare_gt_iff, (larger_exponent prec emax m' e' m e).
Qed.

(** The IEEE comparison of two floats of a format is that of their numbers. *)
Lemma SFcompare_number {prec emax} (f g : float prec emax) : 0 < prec →
  SFcompare (number f) (number g) = number_compare (number f) (number g).
Proof.
  intros Hp. destruct f as [f Hf], g as [g Hg]. cbn [number].
  destruct f as [s|s| |s m e], g as [s'|s'| |s' m' e']; try done; try (by destruct s, s').
  - unfold number_compare, in_units. cbn [exponent mantissa SFcompare]. f_equal.
    pose proof (units_positive (Z.min 0 e') m' e' ltac:(lia)). destruct s'; symmetry.
    + apply Z.compare_gt_iff. rewrite <-Pos2Z.opp_pos. lia.
    + apply Z.compare_lt_iff. lia.
  - unfold number_compare, in_units. cbn [exponent mantissa SFcompare]. f_equal.
    pose proof (units_positive (Z.min e 0) m e ltac:(lia)). destruct s; symmetry.
    + apply Z.compare_lt_iff. rewrite <-Pos2Z.opp_pos. lia.
    + apply Z.compare_gt_iff. lia.
  - unfold number_compare, in_units. cbn [exponent mantissa SFcompare valid_binary] in *. f_equal.
    pose proof (magnitude_compare prec emax m e m' e' Hp Hf Hg) as Hc.
    pose proof (units_positive (Z.min e e') m e ltac:(lia)).
    pose proof (units_positive (Z.min e e') m' e' ltac:(lia)).
    destruct s, s'; rewrite <-?Pos2Z.opp_pos, ?Z.mul_opp_l; symmetry.
    + rewrite Z.compare_opp, Z.compare_antisym, Hc.
      change (Pos.compare_cont Eq m m') with (m ?= m')%positive. by destruct (e ?= e').
    + apply Z.compare_lt_iff. lia.
    + apply Z.compare_gt_iff. lia.
    + done.
Qed.

(** ** Widening a float *)

Lemma shl_align_spec m e e' m1 e1 : e' ≤ e → shl_align m e e' = (m1, e1) →
  e1 = e' ∧ Z.pos m1 = Z.pos m * 2 ^ (e - e').
Proof.
  unfold shl_align. intros He. destruct (e' - e) as [|d|d] eqn:Hd; intros [= <- <-]; [split; [lia|]|lia|split; [done|]].
  - replace (e - e') with 0 by lia. lia.
  - replace (e - e') with (Z.pos d) by lia. clear. induction d as [|d IH] using Pos.peano_ind; [simpl; lia|].
    rewrite Pos.iter_succ, Pos2Z.inj_succ, Z.pow_succ_r by lia. lia.
Qed.

Lemma digits2_shift m m1 k : 0 ≤ k → Z.pos m1 = Z.pos m * 2 ^ k →
  Z.pos (digits2_pos m1) = Z.pos (digits2_pos m) + k.
Proof.
  intros Hk Hm. pose proof (digits2_bounds m) as [Hlo Hhi]. apply digits2_unique; [lia|]. rewrite Hm.
  replace (Z.pos (digits2_pos m) + k - 1) with (Z.pos (digits2_pos m) - 1 + k) by lia.
  rewrite !Z.pow_add_r by lia. assert (0 < 2 ^ k) by (apply Z.pow_pos_nonneg; lia). nia.
Qed.

Lemma widened_finite s m e : bounded 24 128 m e = true →
  ∃ m1 e1, widened 53 1024 (S754_finite s m e) = S754_finite s m1 e1 ∧ e1 ≤ e ∧
    Z.pos m1 = Z.pos m * 2 ^ (e - e1) ∧ bounded 53 1024 m1 e1 = true.
Proof.
  intros Hb. pose proof (bounded_mantissa 24 128 m e ltac:(done) Hb) as (Hm & He & _).
  unfold emin in He. pose proof (digits2_bounds m) as [Hlo _].
  pose proof (Z.pow_lt_mono_r_iff 2 (Z.pos (digits2_pos m) - 1) 24 ltac:(lia) ltac:(lia)).
  unfold widened. destruct (shl_align m e _) as [m1 e1] eqn:Hs. exists m1, e1.
  apply shl_align_spec in Hs as [He1 Hm1]; [|unfold fexp, emin; lia].
  assert (e1 ≤ e) by (rewrite He1; unfold fexp, emin; lia). rewrite <-He1 in Hm1. split_and!; [done..|].
  unfold bounded, canonical_mantissa. rewrite (digits2_shift m m1 (e - e1)) by (done || lia).
  replace (Z.pos (digits2_pos m) + (e - e1) + e1) with (Z.pos (digits2_pos m) + e) by lia.
  rewrite <-He1, Z.eqb_refl. apply Z.leb_le. lia.
Qed.

Lemma widened_valid f : valid_binary 24 128 f = true → valid_binary 53 1024 (widened 53 1024 f) = true.
Proof. destruct f as [| | |s m e]; [done..|]. intros (m1 & e1 & -> & _ & _ & Hb)%(widened_finite s). exact Hb. Qed.

(** [f64::from], for the two types it is used on. *)
Class IntoF64 (T : Set) := f64_from : T → f64.

#[export] Instance f32_into_f64 : IntoF64 f32 := λ f,
  mkFloat (widened 53 1024 (number f)) (checked (widened_valid (number f) (number_valid f))).

#[export] Instance f64_into_f64 : IntoF64 f64 := λ f, f.

(** Finite numbers compare in any units fine enough for both. *)
Lemma number_compare_units c f g : is_finite f = true → is_finite g = true →
  c ≤ exponent f → c ≤ exponent g → number_compare f g = Some (in_units c f ?= in_units c g).
Proof.
  intros Hf Hg Hc Hc'. rewrite (compare_units c (Z.min (exponent f) (exponent g))) by lia.
  by destruct f, g.
Qed.

Lemma widened_units f : valid_binary 24 128 f = true →
  is_finite (widened 53 1024 f) = is_finite f ∧ exponent (widened 53 1024 f) ≤ exponent f ∧
  ∀ c, c ≤ exponent (widened 53 1024 f) → in_units c (widened 53 1024 f) = in_units c f.
Proof.
  destruct f as [| | |s m e]; [done..|]. intros (m1 & e1 & -> & He & Hm & _)%(widened_finite s).
  split_and!; [done..|]. intros c Hc. unfold in_units. cbn [exponent mantissa] in *.
  replace (e - c) with ((e - e1) + (e1 - c)) by lia. rewrite Z.pow_add_r by lia.
  rewrite <-!Pos2Z.opp_pos. destruct s; lia.
Qed.

(** Widening does not change the number. *)
Lemma number_compare_f64_from (f : f32) g :
  number_compare (number (f64_from f)) g = number_compare (number f) g.
Proof.
  destruct f as [f Hf]. cbn [f64_from f32_into_f64 number]. destruct (is_finite f) eqn:Hfin.
  2: { by destruct f. }
  destruct (is_finite g) eqn:Hg.
  2: { destruct (widened_units f Hf) as (Hw & _). rewrite Hfin in Hw. by destruct g, f, (widened 53 1024 _). }
  destruct (widened_units f Hf) as (Hw & He & Hu). rewrite Hfin in Hw.
  set (c := Z.min (exponent (widened 53 1024 f)) (exponent g)).
  rewrite !(number_compare_units c) by (done || lia). by rewrite (Hu c) by lia.
Qed.

Lemma number_compare_f64 (f : f64) g : number_compare (number (f64_from f)) g = number_compare (number f) g.
Proof. done. Qed.

(** ** Narrowing: the [f32] an [f64] is the widening of, if there is one *)

Definition narrowed (f : spec_float) : spec_float :=
  match f with
  | S754_finite s m e =>
      let e' := fexp 24 128 (Z.pos (digits2_pos m) + e) in
      S754_finite s (Z.to_pos (Z.pos m / 2 ^ (e' - e))) e'
  | f => f
  end.

Definition narrow (f : f64) : option f32 :=
  g ← float_of 24 128 (narrowed (number f));
  if bool_decide (f64_from g = f) then Some g else None.

Lemma narrow_f64_from f : narrow (f64_from f) = Some f.
Proof.
  assert (narrowed (number (f64_from f)) = number f) as Hn.
  { destruct f as [f Hf]. cbn [f64_from f32_into_f64 number]. destruct f as [| | |s m e]; [done..|].
    destruct (widened_finite s m e Hf) as (m1 & e1 & -> & He & Hm & _).
    cbn [narrowed]. rewrite (digits2_shift m m1 (e - e1)) by (done || lia).
    replace (Z.pos (digits2_pos m) + (e - e1) + e1) with (Z.pos (digits2_pos m) + e) by lia.
    pose proof Hf as [Hc%Z.eqb_eq _]%andb_prop. rewrite Hc, Hm, Z.div_mul; [done|].
    apply Z.pow_nonzero; lia. }
  unfold narrow. rewrite Hn, float_of_number. cbn [mbind option_bind]. by rewrite bool_decide_eq_true_2.
Qed.

(** The [f32] 1.0 is the number 1.0, in another form. *)
Example widen_one :
  number <$> (f64_from <$> float_of 24 128 (S754_finite false 8388608 (-23))) =
  Some (S754_finite false 4503599627370496 (-52)).
Proof. reflexivity. Qed.
