(* ===== verification/Chrono.v ===== *)
(** * Chrono: the calendar interface the time partitions are computed with

    The [chrono] crate is not part of the repository.  [Chrono] lists the
    functions [time_partition.rs] calls, [ChronoLaws] the documented facts
    about them the proofs rely on, stated with the documented observations
    [num_days_from_ce] (day 1 is 1 January of year 1, a Monday), [timestamp]
    and [timestamp_subsec_nanos].  [Gregorian.v] gives an instance. *)
From S2P Require Import Prelude.

Inductive Weekday : Set := Mon | Tue | Wed | Thu | Fri | Sat | Sun.

#[export] Instance Weekday_eq_dec : EqDecision Weekday.
Proof. solve_decision. Defined.

Class Chrono := {
  NaiveDate : Type;
  NaiveDateTime : Type;
  DateTime : Type; (* [DateTime<Utc>] *)
  Duration : Type;
  (* Datelike for NaiveDate *)
  date_year : NaiveDate → Z;
  date_month : NaiveDate → Z;
  date_day : NaiveDate → Z;
  weekday : NaiveDate → Weekday;
  num_days_from_monday : Weekday → Z;
  num_days_from_ce : NaiveDate → Z;
  iso_year : NaiveDate → Z;
  iso_week : NaiveDate → Z;
  (* NaiveDate *)
  checked_sub_days : NaiveDate → Z → option NaiveDate;
  from_ymd_opt : Z → Z → Z → option NaiveDate;
  from_isoywd_opt : Z → Z → Weekday → option NaiveDate;
  and_hms_opt : NaiveDate → Z → Z → Z → option NaiveDateTime;
  (* DateTime<Utc> *)
  from_utc_datetime : NaiveDateTime → DateTime;
  from_timestamp : Z → Z → option DateTime;
  timestamp : DateTime → Z;
  timestamp_subsec_nanos : DateTime → Z;
  date_naive : DateTime → NaiveDate;
  year : DateTime → Z;
  month : DateTime → Z;
  day : DateTime → Z;
  hour : DateTime → Z;
  minute : DateTime → Z;
  second : DateTime → Z;
  iso_week_year : DateTime → Z; (* [dt.iso_week().year()] *)
  iso_week_week : DateTime → Z; (* [dt.iso_week().week()] *)
  datetime_cmp : DateTime → DateTime → comparison;
  checked_add_signed : DateTime → Duration → option DateTime;
  checked_add_months : DateTime → Z → option DateTime;
  (* Duration *)
  duration_minutes : Z → Duration;
  duration_hours : Z → Duration;
  duration_days : Z → Duration;
  duration_weeks : Z → Duration;
}.

(** The length in seconds of the durations the program builds. *)
Inductive duration_seconds {C : Chrono} : Duration → Z → Prop :=
  | seconds_of_minutes n : duration_seconds (duration_minutes n) (60 * n)
  | seconds_of_hours n : duration_seconds (duration_hours n) (3600 * n)
  | seconds_of_days n : duration_seconds (duration_days n) (86400 * n)
  | seconds_of_weeks n : duration_seconds (duration_weeks n) (604800 * n).

(** Days from 1 January of year 1 (day 1) to 1 January 1970. *)
Definition unix_epoch_day : Z := 719163.
Definition seconds_per_day : Z := 86400.
Definition nanos_per_second : Z := 1000000000.

(** Lexicographic order on pairs of integers. *)
Definition lex_compare (a b : Z * Z) : comparison :=
  match Z.compare a.1 b.1 with Eq => Z.compare a.2 b.2 | c => c end.

Class ChronoLaws (C : Chrono) : Prop := {
  (* the calendar fields of a date identify it, and are in range *)
  date_fields_range d :
    i32_min ≤ date_year d ≤ i32_max ∧ 1 ≤ date_month d ≤ 12 ∧ 1 ≤ date_day d ≤ 31;
  from_ymd_opt_spec y m d date :
    from_ymd_opt y m d = Some date ↔
      date_year date = y ∧ date_month date = m ∧ date_day date = d;
  iso_fields_range d : i32_min ≤ iso_year d ≤ i32_max ∧ 1 ≤ iso_week d ≤ 53;
  from_isoywd_opt_spec y w wd date :
    from_isoywd_opt y w wd = Some date ↔
      iso_year date = y ∧ iso_week date = w ∧ weekday date = wd;
  (* dates are ordered by year, month and day, which is the order of days *)
  num_days_order d d' :
    num_days_from_ce d < num_days_from_ce d' ↔
      date_year d < date_year d' ∨
      date_year d = date_year d' ∧
        (date_month d < date_month d' ∨
         date_month d = date_month d' ∧ date_day d < date_day d');
  weekday_spec d : num_days_from_monday (weekday d) = (num_days_from_ce d - 1) mod 7;
  num_days_from_monday_Mon wd : num_days_from_monday wd = 0 ↔ wd = Mon;
  checked_sub_days_spec d n d' :
    0 ≤ n →
    checked_sub_days d n = Some d' ↔ num_days_from_ce d' = num_days_from_ce d - n;
  (* an instant: its date, time of day and position on the time line *)
  datelike_datetime t :
    year t = date_year (date_naive t) ∧ month t = date_month (date_naive t) ∧
    day t = date_day (date_naive t) ∧ iso_week_year t = iso_year (date_naive t) ∧
    iso_week_week t = iso_week (date_naive t);
  time_fields_range t :
    0 ≤ hour t < 24 ∧ 0 ≤ minute t < 60 ∧ 0 ≤ second t < 60 ∧
    0 ≤ timestamp_subsec_nanos t;
  timestamp_spec t :
    timestamp t = (num_days_from_ce (date_naive t) - unix_epoch_day) * seconds_per_day
      + hour t * 3600 + minute t * 60 + second t;
  from_timestamp_spec s n t :
    from_timestamp s n = Some t → timestamp t = s ∧ timestamp_subsec_nanos t = n;
  from_timestamp_timestamp t : (* instants outside a leap second *)
    timestamp_subsec_nanos t < nanos_per_second →
    from_timestamp (timestamp t) (timestamp_subsec_nanos t) = Some t;
  datetime_cmp_spec a b :
    datetime_cmp a b =
      lex_compare (timestamp a, timestamp_subsec_nanos a)
        (timestamp b, timestamp_subsec_nanos b);
  (* midnight-based times *)
  and_hms_opt_spec d h m s ndt :
    and_hms_opt d h m s = Some ndt →
    let t := from_utc_datetime ndt in
    date_naive t = d ∧ hour t = h ∧ minute t = m ∧ second t = s ∧
    timestamp_subsec_nanos t = 0;
  and_hms_opt_None d h m s :
    0 ≤ h → 0 ≤ m → 0 ≤ s →
    and_hms_opt d h m s = None ↔ 24 ≤ h ∨ 60 ≤ m ∨ 60 ≤ s;
  (* arithmetic *)
  checked_add_signed_spec t delta s t' :
    duration_seconds delta s →
    checked_add_signed t delta = Some t' → timestamp_subsec_nanos t = 0 →
    timestamp t' = timestamp t + s ∧ timestamp_subsec_nanos t' = 0;
  checked_add_months_spec t t' :
    checked_add_months t 1 = Some t' → day t = 1 →
    12 * year t' + month t' = 12 * year t + month t + 1 ∧ day t' = 1 ∧
    hour t' = hour t ∧ minute t' = minute t ∧ second t' = second t ∧
    timestamp_subsec_nanos t' = timestamp_subsec_nanos t;
}.

(** ** Consequences *)

Section laws.
  Context {C : Chrono} {L : ChronoLaws C}.

Lemma num_days_inj d d' : num_days_from_ce d = num_days_from_ce d' → d = d'.
Proof.
  intros Hn.
  assert (¬ num_days_from_ce d < num_days_from_ce d') as H1 by lia.
  assert (¬ num_days_from_ce d' < num_days_from_ce d) as H2 by lia.
  rewrite num_days_order in H1, H2.
  assert (from_ymd_opt (date_year d) (date_month d) (date_day d) = Some d) as Hd
    by (by apply from_ymd_opt_spec).
  assert (from_ymd_opt (date_year d) (date_month d) (date_day d) = Some d') as Hd'
    by (apply from_ymd_opt_spec; lia).
  congruence.
Qed.

Lemma datetime_ext t t' :
  timestamp t = timestamp t' →
  timestamp_subsec_nanos t = timestamp_subsec_nanos t' →
  timestamp_subsec_nanos t < nanos_per_second → t = t'.
Proof.
  intros Hs Hn Hlt. assert (Ht := from_timestamp_timestamp t Hlt). rewrite Hs, Hn in Ht.
  rewrite from_timestamp_timestamp in Ht by lia. congruence.
Qed.

Lemma from_ymd_opt_fields d :
  from_ymd_opt (date_year d) (date_month d) (date_day d) = Some d.
Proof. by apply from_ymd_opt_spec. Qed.

(** The instant of [and_hms_opt] always exists for a time of day. *)
Lemma and_hms_opt_Some d h m s :
  0 ≤ h < 24 → 0 ≤ m < 60 → 0 ≤ s < 60 → ∃ ndt, and_hms_opt d h m s = Some ndt.
Proof.
  intros Hh Hm Hs. destruct (and_hms_opt d h m s) as [ndt|] eqn:H; [by eauto|].
  apply and_hms_opt_None in H; lia.
Qed.
End laws.
