(* ===== verification/Gregorian.v ===== *)
(** * Gregorian: a calendar that satisfies the [chrono] interface

    The proleptic Gregorian calendar with ISO weeks over the years -262143 to
    262142, computed from day numbers.  It instantiates [Chrono] and proves
    [ChronoLaws], so the hypotheses of the time partition theorems can hold,
    and their witnesses evaluate on real dates. *)
From S2P Require Import Prelude Chrono.

(** ** Day numbers *)

(** Days before 1 January of a year (day 1 is 1 January of year 1). *)
Definition days_before_year (y : Z) : Z :=
  365 * (y - 1) + (y - 1) / 4 - (y - 1) / 100 + (y - 1) / 400.

Definition year_of (n : Z) : Z :=
  let q := (n - 1) * 400 / 146097 in
  if days_before_year (q + 2) <? n then q + 2 else q + 1.

Definition leap (y : Z) : Z := days_before_year (y + 1) - days_before_year y - 365.

Definition days_before_month (l m : Z) : Z :=
  if m <=? 2 then 31 * (m - 1) else (153 * (m - 3) + 2) / 5 + 59 + l.

Definition month_of (l doy : Z) : Z :=
  if doy <=? 31 then 1
  else if doy <=? 59 + l then 2
  else (5 * (doy - 60 - l) + 2) / 153 + 3.

Definition day_of_year (n : Z) : Z := n - days_before_year (year_of n).
Definition month_num (n : Z) : Z := month_of (leap (year_of n)) (day_of_year n).
Definition day_num (n : Z) : Z :=
  day_of_year n - days_before_month (leap (year_of n)) (month_num n).

Definition weekday_num (n : Z) : Z := (n - 1) mod 7.
(** The Thursday of the week of day [n] decides its ISO year. *)
Definition thursday (n : Z) : Z := n - weekday_num n + 3.
Definition iso_year_num (n : Z) : Z := year_of (thursday n).
Definition iso_week_num (n : Z) : Z :=
  (thursday n - days_before_year (iso_year_num n) - 1) / 7 + 1.
(** The Monday of week 1, the week of 4 January. *)
Definition iso_monday (y : Z) : Z := days_before_year y + 4 - weekday_num (days_before_year y + 4).

(** ** Representable dates and instants *)

Definition min_day : Z := Eval vm_compute in days_before_year (-262143) + 1.
Definition max_day : Z := Eval vm_compute in days_before_year 262143.

Definition day_in_range (n : Z) : bool := (min_day <=? n) && (n <=? max_day).

Record gdate := { gday : Z; gday_ok : day_in_range gday = true }.

Definition mk_date (n : Z) : option gdate :=
  match decide (day_in_range n = true) with
  | left H => Some {| gday := n; gday_ok := H |}
  | right _ => None
  end.

Definition time_in_range (sod nanos : Z) : bool :=
  (0 <=? sod) && (sod <? seconds_per_day) && (0 <=? nanos) && (nanos <? nanos_per_second).

Record gtime := {
  gdate_of : gdate; gsod : Z; gnanos : Z;
  gtime_ok : time_in_range gsod gnanos = true }.

Definition mk_time (d : gdate) (sod nanos : Z) : option gtime :=
  match decide (time_in_range sod nanos = true) with
  | left H => Some {| gdate_of := d; gsod := sod; gnanos := nanos; gtime_ok := H |}
  | right _ => None
  end.

Definition weekday_of_num (k : Z) : Weekday :=
  match k with 0 => Mon | 1 => Tue | 2 => Wed | 3 => Thu | 4 => Fri | 5 => Sat | _ => Sun end.
Definition weekday_to_num (w : Weekday) : Z :=
  match w with Mon => 0 | Tue => 1 | Wed => 2 | Thu => 3 | Fri => 4 | Sat => 5 | Sun => 6 end.

Definition g_from_ymd (y m d : Z) : option gdate :=
  if (1 <=? m) && (m <=? 12) && (1 <=? d)
     && (d <=? days_before_month (leap y) (m + 1) - days_before_month (leap y) m)
  then mk_date (days_before_year y + days_before_month (leap y) m + d)
  else None.

Definition g_from_isoywd (y w : Z) (wd : Weekday) : option gdate :=
  d ← mk_date (iso_monday y + 7 * (w - 1) + weekday_to_num wd);
  if (iso_year_num (gday d) =? y) && (iso_week_num (gday d) =? w) then Some d else None.

Definition g_and_hms (d : gdate) (h m s : Z) : option gtime :=
  if (0 <=? h) && (h <? 24) && (0 <=? m) && (m <? 60) && (0 <=? s) && (s <? 60)
  then mk_time d (h * 3600 + m * 60 + s) 0 else None.

Definition g_timestamp (t : gtime) : Z :=
  (gday (gdate_of t) - unix_epoch_day) * seconds_per_day + gsod t.

Definition g_from_timestamp (s n : Z) : option gtime :=
  d ← mk_date (s / seconds_per_day + unix_epoch_day); mk_time d (s mod seconds_per_day) n.

Definition g_add_months (t : gtime) (k : Z) : option gtime :=
  let n := gday (gdate_of t) in
  let total := 12 * year_of n + (month_num n - 1) + k in
  let y := total / 12 in
  let m := total mod 12 + 1 in
  let dim := days_before_month (leap y) (m + 1) - days_before_month (leap y) m in
  d ← g_from_ymd y m (Z.min (day_num n) dim);
  mk_time d (gsod t) (gnanos t).

Definition Gregorian : Chrono := {|
  NaiveDate := gdate;
  NaiveDateTime := gtime;
  DateTime := gtime;
  Duration := Z;
  date_year d := year_of (gday d);
  date_month d := month_num (gday d);
  date_day d := day_num (gday d);
  weekday d := weekday_of_num (weekday_num (gday d));
  num_days_from_monday := weekday_to_num;
  num_days_from_ce := gday;
  iso_year d := iso_year_num (gday d);
  iso_week d := iso_week_num (gday d);
  checked_sub_days d n := mk_date (gday d - n);
  from_ymd_opt := g_from_ymd;
  from_isoywd_opt := g_from_isoywd;
  and_hms_opt := g_and_hms;
  from_utc_datetime t := t;
  from_timestamp := g_from_timestamp;
  timestamp := g_timestamp;
  timestamp_subsec_nanos := gnanos;
  date_naive := gdate_of;
  year t := year_of (gday (gdate_of t));
  month t := month_num (gday (gdate_of t));
  day t := day_num (gday (gdate_of t));
  hour t := gsod t / 3600;
  minute t := gsod t / 60 mod 60;
  second t := gsod t mod 60;
  iso_week_year t := iso_year_num (gday (gdate_of t));
  iso_week_week t := iso_week_num (gday (gdate_of t));
  datetime_cmp a b := lex_compare (g_timestamp a, gnanos a) (g_timestamp b, gnanos b);
  checked_add_signed t delta := g_from_timestamp (g_timestamp t + delta) (gnanos t);
  checked_add_months := g_add_months;
  duration_minutes n := 60 * n;
  duration_hours n := 3600 * n;
  duration_days n := 86400 * n;
  duration_weeks n := 604800 * n;
|}.

(** ** Arithmetic of the calendar *)

Ltac zdiv := Z.to_euclidean_division_equations; lia.

Lemma year_of_spec n : days_before_year (year_of n) < n ≤ days_before_year (year_of n + 1).
Proof.
  unfold year_of. destruct (Z.ltb_spec (days_before_year ((n - 1) * 400 / 146097 + 2)) n);
    unfold days_before_year in *; zdiv.
Qed.

Lemma leap_range y : 0 ≤ leap y ≤ 1.
Proof. unfold leap, days_before_year. zdiv. Qed.

Lemma days_before_year_mono y y' : y ≤ y' → days_before_year y ≤ days_before_year y'.
Proof. intros. unfold days_before_year. zdiv. Qed.

Lemma year_of_unique n y : days_before_year y < n ≤ days_before_year (y + 1) → year_of n = y.
Proof.
  intros Hn. assert (Hs := year_of_spec n).
  destruct (Z.lt_trichotomy (year_of n) y) as [?|[?|?]]; [|done|].
  - assert (Hm := days_before_year_mono (year_of n + 1) y). lia.
  - assert (Hm := days_before_year_mono (y + 1) (year_of n)). lia.
Qed.

Lemma month_of_spec l doy :
  0 ≤ l ≤ 1 → 1 ≤ doy ≤ 365 + l →
  let m := month_of l doy in
  1 ≤ m ≤ 12 ∧ days_before_month l m < doy ≤ days_before_month l (m + 1).
Proof.
  intros Hl Hd. unfold month_of, days_before_month.
  repeat case_match; try discriminate; zdiv.
Qed.

Lemma days_before_month_mono l m m' :
  0 ≤ l ≤ 1 → 1 ≤ m → m ≤ m' → days_before_month l m ≤ days_before_month l m'.
Proof. intros. unfold days_before_month. repeat case_match; zdiv. Qed.

Lemma days_before_month_13 l : days_before_month l 13 = 365 + l.
Proof. reflexivity || (unfold days_before_month; simpl; zdiv). Qed.

Lemma days_in_month_range l m :
  0 ≤ l ≤ 1 → 1 ≤ m ≤ 12 → 28 ≤ days_before_month l (m + 1) - days_before_month l m ≤ 31.
Proof. intros. unfold days_before_month. repeat case_match; zdiv. Qed.

Lemma doy_range n : 1 ≤ day_of_year n ≤ 365 + leap (year_of n).
Proof. unfold day_of_year, leap. assert (H := year_of_spec n). lia. Qed.

(** The calendar fields of a day determine it ... *)
Lemma fields_spec n :
  1 ≤ month_num n ≤ 12 ∧
  1 ≤ day_num n ≤ days_before_month (leap (year_of n)) (month_num n + 1)
                  - days_before_month (leap (year_of n)) (month_num n) ∧
  n = days_before_year (year_of n) + days_before_month (leap (year_of n)) (month_num n) + day_num n.
Proof.
  unfold day_num, month_num.
  assert (H := month_of_spec _ _ (leap_range (year_of n)) (doy_range n)). simpl in H.
  unfold day_of_year in *. lia.
Qed.

(** ... and every valid triple is the fields of a day. *)
Lemma fields_unique n y m d :
  1 ≤ m ≤ 12 → 1 ≤ d ≤ days_before_month (leap y) (m + 1) - days_before_month (leap y) m →
  n = days_before_year y + days_before_month (leap y) m + d →
  year_of n = y ∧ month_num n = m ∧ day_num n = d.
Proof.
  intros Hm Hd Hn. assert (Hl := leap_range y).
  assert (year_of n = y) as Hy.
  { apply year_of_unique. assert (H13 := days_before_month_mono (leap y) (m + 1) 13 Hl).
    assert (H1 := days_before_month_mono (leap y) 1 m Hl).
    rewrite days_before_month_13 in H13.
    change (days_before_month (leap y) 1) with 0 in H1. unfold leap in *. lia. }
  assert (Hf := fields_spec n). rewrite Hy in Hf.
  assert (month_num n = m) as Hmn; [|rewrite Hmn in Hf; lia].
  destruct (Z.lt_trichotomy (month_num n) m) as [?|[?|?]]; [|done|].
  - assert (Hmm := days_before_month_mono (leap y) (month_num n + 1) m Hl). lia.
  - assert (Hmm := days_before_month_mono (leap y) (m + 1) (month_num n) Hl). lia.
Qed.

Lemma fields_order n n' :
  n < n' ↔ year_of n < year_of n' ∨
    year_of n = year_of n' ∧
      (month_num n < month_num n' ∨ month_num n = month_num n' ∧ day_num n < day_num n').
Proof.
  assert (Hstep : ∀ a b, year_of a < year_of b ∨
    year_of a = year_of b ∧
      (month_num a < month_num b ∨ month_num a = month_num b ∧ day_num a < day_num b) → a < b).
  { intros a b Hab. destruct (fields_spec a) as (Hma & Hda & Ha).
    destruct (fields_spec b) as (Hmb & Hdb & Hb). assert (Hl := leap_range (year_of a)).
    destruct Hab as [Hy|[Hy [Hm|[Hm Hd]]]].
    - assert (Hya := year_of_spec a). assert (Hyb := year_of_spec b).
      assert (Hm := days_before_year_mono (year_of a + 1) (year_of b)). lia.
    - rewrite <-Hy in *.
      assert (Hmm := days_before_month_mono _ (month_num a + 1) (month_num b) Hl). lia.
    - rewrite <-Hy, <-Hm in *. lia. }
  split; [|apply Hstep]. intros Hn.
  destruct (Z.lt_trichotomy (year_of n) (year_of n')) as [?|[Hy|?]]; [by left| |].
  - right. split; [done|].
    destruct (Z.lt_trichotomy (month_num n) (month_num n')) as [?|[Hm|?]]; [by left| |].
    + right. split; [done|]. destruct (fields_spec n) as (_ & _ & H1).
      destruct (fields_spec n') as (_ & _ & H2). rewrite <-Hy, <-Hm in *. lia.
    + assert (n' < n) by (apply Hstep; lia). lia.
  - assert (n' < n) by (apply Hstep; lia). lia.
Qed.

(** ISO weeks: the formula of [iso_monday] inverts the ISO fields. *)
Lemma iso_fields_inverse n :
  n = iso_monday (iso_year_num n) + 7 * (iso_week_num n - 1) + weekday_num n.
Proof.
  unfold iso_week_num, iso_year_num, iso_monday, thursday.
  set (y := year_of (n - weekday_num n + 3)).
  assert (Hy := year_of_spec (n - weekday_num n + 3)). fold y in Hy.
  unfold weekday_num in *. zdiv.
Qed.

Lemma iso_week_range n : 1 ≤ iso_week_num n ≤ 53.
Proof.
  unfold iso_week_num, iso_year_num. assert (H := year_of_spec (thursday n)).
  assert (Hl := leap_range (year_of (thursday n))). unfold leap in Hl. zdiv.
Qed.

Lemma weekday_num_range n : 0 ≤ weekday_num n < 7.
Proof. apply Z.mod_pos_bound. lia. Qed.

Lemma weekday_to_of_num k : 0 ≤ k < 7 → weekday_to_num (weekday_of_num k) = k.
Proof.
  intros Hk. assert (k = 0 ∨ k = 1 ∨ k = 2 ∨ k = 3 ∨ k = 4 ∨ k = 5 ∨ k = 6) as Hcases by lia.
  by destruct_or! Hcases; subst.
Qed.

Lemma weekday_of_to_num w : weekday_of_num (weekday_to_num w) = w.
Proof. by destruct w. Qed.

(** ** Representations *)

Lemma gdate_ext d d' : gday d = gday d' → d = d'.
Proof.
  destruct d as [n H], d' as [n' H']; simpl. intros <-. f_equal. apply proof_irrel.
Qed.

Lemma gtime_ext t t' :
  gdate_of t = gdate_of t' → gsod t = gsod t' → gnanos t = gnanos t' → t = t'.
Proof.
  destruct t as [d s n H], t' as [d' s' n' H']; simpl. intros <- <- <-. f_equal. apply proof_irrel.
Qed.

Lemma mk_date_Some n d : mk_date n = Some d ↔ gday d = n.
Proof.
  unfold mk_date. destruct (decide _) as [H|H]; split.
  - by intros [= <-].
  - intros <-. f_equal. by apply gdate_ext.
  - done.
  - intros <-. by destruct (H (gday_ok d)).
Qed.

Lemma mk_time_Some d s n t :
  mk_time d s n = Some t ↔ gdate_of t = d ∧ gsod t = s ∧ gnanos t = n.
Proof.
  unfold mk_time. destruct (decide _) as [H|H]; split.
  - by intros [= <-].
  - intros (<- & <- & <-). f_equal. by apply gtime_ext.
  - done.
  - intros (<- & <- & <-). by destruct (H (gtime_ok t)).
Qed.

Lemma gday_range d : min_day ≤ gday d ≤ max_day.
Proof. assert (H := gday_ok d). unfold day_in_range in H. lia. Qed.

Lemma gtime_range t : 0 ≤ gsod t < seconds_per_day ∧ 0 ≤ gnanos t < nanos_per_second.
Proof. assert (H := gtime_ok t). unfold time_in_range in H. lia. Qed.

Lemma year_of_range n :
  min_day - 7 ≤ n ≤ max_day + 7 → -262144 ≤ year_of n ≤ 262143.
Proof.
  intros Hn. assert (Hy := year_of_spec n). unfold min_day, max_day in Hn.
  assert (H1 := days_before_year_mono 262144 (year_of n)).
  assert (H2 := days_before_year_mono (year_of n + 1) (-262144)).
  change (days_before_year 262144) with 95745764 in H1.
  change (days_before_year (-262144)) with (-95746496) in H2. lia.
Qed.

Lemma g_from_timestamp_Some s n t :
  g_from_timestamp s n = Some t ↔ g_timestamp t = s ∧ gnanos t = n.
Proof.
  unfold g_from_timestamp. rewrite bind_Some. setoid_rewrite mk_date_Some.
  setoid_rewrite mk_time_Some. assert (Hr := gtime_range t).
  unfold g_timestamp, unix_epoch_day, seconds_per_day in *. split.
  - intros (d & Hd & <- & Hs & Hn). split; [zdiv|done].
  - intros [Hs Hn]. exists (gdate_of t). split_and!; [zdiv|done|zdiv|done].
Qed.

Lemma g_from_ymd_Some y m d date :
  g_from_ymd y m d = Some date ↔
    year_of (gday date) = y ∧ month_num (gday date) = m ∧ day_num (gday date) = d.
Proof.
  unfold g_from_ymd. destruct (fields_spec (gday date)) as (Hm & Hd & Hn). split.
  - case_match eqn:Hc; [|done]. intros H%mk_date_Some. apply fields_unique; lia.
  - intros (<- & <- & <-). case_match eqn:Hc; [|lia]. apply mk_date_Some. lia.
Qed.

Lemma g_from_isoywd_Some y w wd date :
  g_from_isoywd y w wd = Some date ↔
    iso_year_num (gday date) = y ∧ iso_week_num (gday date) = w ∧
    weekday_of_num (weekday_num (gday date)) = wd.
Proof.
  unfold g_from_isoywd. rewrite bind_Some. setoid_rewrite mk_date_Some. split.
  - intros (d & Hd & Hc). case_match eqn:Hif; [|done]. simplify_eq.
    apply andb_prop in Hif as [Hy%Z.eqb_eq Hw%Z.eqb_eq]. split_and!; [done..|].
    rewrite <-(weekday_of_to_num wd). f_equal.
    assert (Hi := iso_fields_inverse (gday date)). rewrite Hy, Hw in Hi. lia.
  - intros (Hy & Hw & Hwd). exists date. rewrite <-Hwd, Hy, Hw.
    rewrite weekday_to_of_num by apply weekday_num_range.
    rewrite !Z.eqb_refl. split; [|done]. rewrite <-Hy, <-Hw. apply iso_fields_inverse.
Qed.

Lemma g_add_months_first t t' :
  g_add_months t 1 = Some t' → day_num (gday (gdate_of t)) = 1 →
  12 * year_of (gday (gdate_of t')) + month_num (gday (gdate_of t')) =
    12 * year_of (gday (gdate_of t)) + month_num (gday (gdate_of t)) + 1 ∧
  day_num (gday (gdate_of t')) = 1 ∧ gsod t' = gsod t ∧ gnanos t' = gnanos t.
Proof.
  unfold g_add_months. set (n := gday (gdate_of t)). intros H Hd.
  apply bind_Some in H as (d & Hf & (-> & -> & ->)%mk_time_Some).
  apply g_from_ymd_Some in Hf as (-> & -> & ->).
  assert (Hm := proj1 (fields_spec n)).
  set (total := 12 * year_of n + (month_num n - 1) + 1).
  assert (1 ≤ total mod 12 + 1 ≤ 12) as Hm' by zdiv.
  assert (Hdim := days_in_month_range (leap (total / 12)) _ (leap_range _) Hm').
  rewrite Hd, Z.min_l by lia. split_and!; try done. subst total. zdiv.
Qed.

Lemma iso_year_range d : i32_min ≤ iso_year_num (gday d) ≤ i32_max.
Proof.
  assert (Hr := gday_range d). assert (Hw := weekday_num_range (gday d)).
  assert (Hy := year_of_range (thursday (gday d))).
  unfold iso_year_num, thursday in *. int_bounds. lia.
Qed.

Lemma Gregorian_laws : ChronoLaws Gregorian.
Proof.
  split; simpl.
  - intros d. destruct (fields_spec (gday d)) as (Hm & Hd & _).
    assert (Hdim := days_in_month_range _ _ (leap_range (year_of (gday d))) Hm).
    assert (Hr := gday_range d). assert (Hy := year_of_range (gday d)). int_bounds. lia.
  - apply g_from_ymd_Some.
  - intros d. split; [apply iso_year_range|apply iso_week_range].
  - apply g_from_isoywd_Some.
  - intros d d'. apply fields_order.
  - intros d. apply weekday_to_of_num, weekday_num_range.
  - by intros [].
  - intros d n d' _. rewrite mk_date_Some. lia.
  - done.
  - intros t. assert (H := gtime_range t). unfold seconds_per_day in H. split_and!; zdiv.
  - intros t. unfold g_timestamp. assert (H := gtime_range t). zdiv.
  - intros s n t H%g_from_timestamp_Some. done.
  - intros t _. by apply g_from_timestamp_Some.
  - done.
  - intros d h m s t. unfold g_and_hms. case_match eqn:Hc; [|done].
    intros (-> & -> & ->)%mk_time_Some. split_and!; first [done | zdiv].
  - intros d h m s Hh Hm Hs. unfold g_and_hms. split.
    + case_match eqn:Hc; [|lia]. unfold mk_time. case_decide as Ht; [done|].
      unfold time_in_range, seconds_per_day, nanos_per_second in Ht. intros _. lia.
    + intros Ho. case_match eqn:Hc; [lia|done].
  - intros t delta s t' Hd H%g_from_timestamp_Some Hn.
    assert (delta = s) as -> by (by inversion Hd). lia.
  - intros t t' H Hd. destruct (g_add_months_first t t' H Hd) as (? & ? & Hs & Hn).
    by rewrite Hs, Hn.
Qed.
