(* ===== verification/TimePartition.v ===== *)
(** * TimePartition: UTC time partitions and their canonical paths

    Models [time_partition.rs] over the calendar interface of [Chrono.v]:
    [partition_for], [parse], [plan] and every helper.  [build_partition] is
    cut at its three stages ([start_of], [until_of], [path_of]).  The theorems
    show that partitions tile the time line, that paths round-trip and are
    canonical, and that a plan is exactly the partitions overlapping the
    half-open range. *)
From S2P Require Import Prelude Errors Chrono Gregorian.

(** ** Definitions *)

Record NativePartition : Set := {
  path : string;
  start_seconds : Z;
  start_nanosecond : Z;
  until_seconds : Z;
  until_nanosecond : Z;
}.

Inductive Granularity : Set := Minute | Hour | Day | Week | Month.

#[export] Instance Granularity_eq_dec : EqDecision Granularity.
Proof. solve_decision. Defined.

Definition invalid (m : string) : NativeFailure := NativeFailure_invalid TimePartition m.

Definition parse_granularity (value : atom) : result NativeFailure Granularity :=
  if bool_decide (value = "minute") then Ok Minute
  else if bool_decide (value = "hour") then Ok Hour
  else if bool_decide (value = "day") then Ok Day
  else if bool_decide (value = "week") then Ok Week
  else if bool_decide (value = "month") then Ok Month
  else Err (invalid "partition granularity is invalid").

(** A number is canonical when printing it gives the text back: no plus sign,
    no leading zeros. *)
Definition canonical_integer (value : string) : option Z :=
  parsed ← parse_i64 value;
  if bool_decide (to_string parsed = value) then Some parsed else None.

Definition u32_value (value : Z) (name : string) : result NativeFailure Z :=
  ok_or (u32_try_from value) (invalid (name +:+ " is out of range")).

Definition segment_names (g : Granularity) : list string :=
  match g with
  | Minute => ["year"; "month"; "day"; "hour"; "minute"]
  | Hour => ["year"; "month"; "day"; "hour"]
  | Day => ["year"; "month"; "day"]
  | Week => ["iso_year"; "week"]
  | Month => ["year"; "month"]
  end.

(** One iteration of the segment loop of [parse]. *)
Definition parse_segment (part_name : string * string) : result NativeFailure Z :=
  let '(part, expected_name) := part_name in
  match split_once "="%char part with
  | None => Err (invalid "partition path segment is invalid")
  | Some (name, value) =>
      match canonical_integer value with
      | None => Err (invalid "partition path is not canonical")
      | Some value =>
          if bool_decide (name = expected_name) then Ok value
          else Err (invalid "partition path is not canonical")
      end
  end.

Definition parse_values (path : string) (g : Granularity) : result NativeFailure (list Z) :=
  let parts := split "/"%char path in
  let expected := segment_names g in
  if bool_decide (length parts = length expected)
  then collect parse_segment (zip parts expected)
  else Err (invalid "partition path has the wrong number of segments").

Definition unit_factor (unit : atom) : result NativeFailure Z :=
  if bool_decide (unit = "second") then Ok 1000000000
  else if bool_decide (unit = "millisecond") then Ok 1000000
  else if bool_decide (unit = "microsecond") then Ok 1000
  else if bool_decide (unit = "nanosecond") then Ok 1
  else Err (invalid "timestamp unit is invalid").

(** [key=value] segments joined by slashes. *)
Definition segment (name : string) (value : Z) : string := name +:+ "=" +:+ to_string value.
Definition segments (names : list string) (values : list Z) : string :=
  join "/" (zip_with segment names values).

Section time_partition.
  Context {C : Chrono}.

(** Nanoseconds are split with Euclidean division; the [as u32] cast keeps
    the low 32 bits. *)
Definition instant (timestamp : Z) (unit : atom) : result NativeFailure DateTime :=
  factor ← unit_factor unit;
  nanos ← ok_or (i128_checked_mul timestamp factor) (invalid "timestamp is out of range");
  let seconds := nanos / 1000000000 in
  let subsecond := nanos mod 1000000000 in
  seconds ← ok_or (i64_try_from seconds) (invalid "timestamp is out of range");
  ok_or (from_timestamp seconds (subsecond mod 2 ^ 32)) (invalid "timestamp is out of range").

(** The first instant of the partition of [t]. *)
Definition start_of (t : DateTime) (g : Granularity) : result NativeFailure DateTime :=
  let date := date_naive t in
  start_date ← match g with
    | Week => ok_or (checked_sub_days date (num_days_from_monday (weekday date)))
                (invalid "partition date is out of range")
    | Month => ok_or (from_ymd_opt (date_year date) (date_month date) 1)
                (invalid "partition date is out of range")
    | _ => Ok date
    end;
  let '(hour, minute) := match g with
    | Minute => (hour t, minute t)
    | Hour => (hour t, 0)
    | _ => (0, 0)
    end in
  ok_or (from_utc_datetime <$> and_hms_opt start_date hour minute 0)
    (invalid "partition start is out of range").

(** The first instant after it. *)
Definition until_of (start : DateTime) (g : Granularity) : result NativeFailure DateTime :=
  ok_or match g with
    | Minute => checked_add_signed start (duration_minutes 1)
    | Hour => checked_add_signed start (duration_hours 1)
    | Day => checked_add_signed start (duration_days 1)
    | Week => checked_add_signed start (duration_weeks 1)
    | Month => checked_add_months start 1
    end (invalid "partition end is out of range").

Definition path_of (start : DateTime) (g : Granularity) : string :=
  match g with
  | Minute =>
      "year=" +:+ to_string (year start) +:+ "/month=" +:+ to_string (month start) +:+
      "/day=" +:+ to_string (day start) +:+ "/hour=" +:+ to_string (hour start) +:+
      "/minute=" +:+ to_string (minute start)
  | Hour =>
      "year=" +:+ to_string (year start) +:+ "/month=" +:+ to_string (month start) +:+
      "/day=" +:+ to_string (day start) +:+ "/hour=" +:+ to_string (hour start)
  | Day =>
      "year=" +:+ to_string (year start) +:+ "/month=" +:+ to_string (month start) +:+
      "/day=" +:+ to_string (day start)
  | Week =>
      "iso_year=" +:+ to_string (iso_week_year start) +:+
      "/week=" +:+ to_string (iso_week_week start)
  | Month =>
      "year=" +:+ to_string (year start) +:+ "/month=" +:+ to_string (month start)
  end.

Definition build_partition (t : DateTime) (g : Granularity) :
    result NativeFailure NativePartition :=
  start ← start_of t g;
  until ← until_of start g;
  Ok {| path := path_of start g;
        start_seconds := timestamp start;
        start_nanosecond := timestamp_subsec_nanos start;
        until_seconds := timestamp until;
        until_nanosecond := timestamp_subsec_nanos until |}.

Definition partition_start (p : NativePartition) : result NativeFailure DateTime :=
  ok_or (from_timestamp (start_seconds p) (start_nanosecond p))
    (invalid "partition start is invalid").

Definition partition_until (p : NativePartition) : result NativeFailure DateTime :=
  ok_or (from_timestamp (until_seconds p) (until_nanosecond p))
    (invalid "partition end is invalid").

Definition partition_for (timestamp : Z) (unit granularity : atom) :
    result NativeFailure NativePartition :=
  t ← instant timestamp unit;
  g ← parse_granularity granularity;
  build_partition t g.

(** The start date named by the parsed segment values.  The length of
    [values] has been checked, so the indices are in range. *)
Definition parse_date (g : Granularity) (values : list Z) : result NativeFailure NaiveDate :=
  date ← match g with
    | Week =>
        year ← ok_or (i32_try_from (values !!! 0%nat)) (invalid "ISO year is out of range");
        week ← ok_or (u32_try_from (values !!! 1%nat)) (invalid "ISO week is out of range");
        Ok (from_isoywd_opt year week Mon)
    | _ =>
        year ← ok_or (i32_try_from (values !!! 0%nat)) (invalid "year is out of range");
        month ← ok_or (u32_try_from (values !!! 1%nat)) (invalid "month is out of range");
        day ← (if (2 <? length values)%nat
               then ok_or (u32_try_from (values !!! 2%nat)) (invalid "day is out of range")
               else Ok 1);
        Ok (from_ymd_opt year month day)
    end;
  ok_or date (invalid "partition date is invalid").

Definition parse_time (g : Granularity) (values : list Z) : result NativeFailure (Z * Z) :=
  match g with
  | Hour => hour ← u32_value (values !!! 3%nat) "hour"; Ok (hour, 0)
  | Minute =>
      hour ← u32_value (values !!! 3%nat) "hour";
      minute ← u32_value (values !!! 4%nat) "minute";
      Ok (hour, minute)
  | _ => Ok (0, 0)
  end.

Definition parse (s : string) (granularity : atom) : result NativeFailure NativePartition :=
  g ← parse_granularity granularity;
  values ← parse_values s g;
  date ← parse_date g values;
  '(hour, minute) ← parse_time g values;
  start ← ok_or (from_utc_datetime <$> and_hms_opt date hour minute 0)
            (invalid "partition time is invalid");
  partition ← build_partition start g;
  if bool_decide (path partition = s) then Ok partition
  else Err (invalid "partition path is not canonical").

(** The [while] loop of [plan]; [None] when the fuel runs out. *)
Fixpoint plan_loop (fuel : nat) (until : DateTime) (g : Granularity) (limit : Z)
    (current : NativePartition) (output : list NativePartition) :
    option (result NativeFailure (list NativePartition)) :=
  match fuel with
  | O => None
  | S fuel =>
      match partition_start current with
      | Err e => Some (Err e)
      | Ok start =>
          match datetime_cmp start until with
          | Lt =>
              if Z.of_nat (length output) =? limit
              then Some (Err (invalid "partition range exceeds the planning limit"))
              else
                match next ← partition_until current; build_partition next g with
                | Err e => Some (Err e)
                | Ok next => plan_loop fuel until g limit next (output ++ [current])
                end
          | _ => Some (Ok output)
          end
      end
  end.

(** One turn per planned partition, and a last one that leaves the loop. *)
Definition plan_fuel (limit : Z) : nat := S (Z.to_nat limit).

Definition plan (from until : Z) (unit granularity : atom) (limit : Z) :
    option (result NativeFailure (list NativePartition)) :=
  if limit =? 0 then Some (Err (invalid "partition planning limit must be positive"))
  else
    match from ← instant from unit; until ← instant until unit; Ok (from, until) with
    | Err e => Some (Err e)
    | Ok (from, until) =>
        match datetime_cmp from until with
        | Gt => Some (Err (invalid "partition range must satisfy from <= until"))
        | Eq => Some (Ok [])
        | Lt =>
            match g ← parse_granularity granularity;
                  current ← build_partition from g; Ok (g, current) with
            | Err e => Some (Err e)
            | Ok (g, current) => plan_loop (plan_fuel limit) until g limit current []
            end
        end
    end.
End time_partition.

(** ** Lemmas: one partition *)

Section lemmas.
  Context {C : Chrono} {L : ChronoLaws C}.

(** [t] is the first instant of a partition of granularity [g]. *)
Definition is_start (g : Granularity) (t : DateTime) : Prop :=
  second t = 0 ∧ timestamp_subsec_nanos t = 0 ∧
  match g with
  | Minute => True
  | Hour => minute t = 0
  | _ => minute t = 0 ∧ hour t = 0
  end ∧
  match g with
  | Week => weekday (date_naive t) = Mon
  | Month => date_day (date_naive t) = 1
  | _ => True
  end.

Lemma at_hms date t :
  date_naive t = date → second t = 0 → timestamp_subsec_nanos t = 0 →
  from_utc_datetime <$> and_hms_opt date (hour t) (minute t) 0 = Some t.
Proof.
  intros Hd Hs Hn. assert (Hr := time_fields_range t).
  destruct (and_hms_opt_Some date (hour t) (minute t) 0) as [ndt Hndt]; [lia..|].
  rewrite Hndt. simpl. f_equal.
  destruct (and_hms_opt_spec _ _ _ _ _ Hndt) as (Hd' & Hh & Hm & Hsec & Hnn).
  apply datetime_ext; [|congruence|unfold nanos_per_second; lia].
  rewrite !timestamp_spec. congruence.
Qed.

Lemma start_date_week date d :
  checked_sub_days date (num_days_from_monday (weekday date)) = Some d →
  weekday d = Mon ∧ num_days_from_ce d ≤ num_days_from_ce date < num_days_from_ce d + 7.
Proof.
  rewrite weekday_spec, checked_sub_days_spec by (apply Z.mod_pos_bound; lia).
  intros Hd. split; [|zdiv]. apply num_days_from_monday_Mon. rewrite weekday_spec. zdiv.
Qed.

Lemma start_date_month date d :
  from_ymd_opt (date_year date) (date_month date) 1 = Some d →
  date_year d = date_year date ∧ date_month d = date_month date ∧ date_day d = 1 ∧
  num_days_from_ce d ≤ num_days_from_ce date.
Proof.
  rewrite from_ymd_opt_spec. intros (Hy & Hm & Hd). split_and!; [done..|].
  assert (Hr := date_fields_range date).
  assert (¬ num_days_from_ce date < num_days_from_ce d) as Hn by (rewrite num_days_order; lia).
  lia.
Qed.

(** The start is aligned, not after the instant, and close to it. *)
Lemma start_of_spec t g s :
  start_of t g = Ok s →
  is_start g s ∧ timestamp s ≤ timestamp t ∧
  match g with
  | Minute => timestamp t < timestamp s + 60
  | Hour => timestamp t < timestamp s + 3600
  | Day => timestamp t < timestamp s + 86400
  | Week => timestamp t < timestamp s + 604800
  | Month => date_year (date_naive t) = date_year (date_naive s) ∧
             date_month (date_naive t) = date_month (date_naive s)
  end.
Proof.
  unfold start_of, is_start. intros (date & Hdate & H)%bind_Ok.
  assert (Hrt := time_fields_range t).
  destruct g; simpl in *; inv_result; simplify_eq; apply fmap_Some in H as (ndt & Hndt & ->);
    destruct (and_hms_opt_spec _ _ _ _ _ Hndt) as (Hd & Hh & Hm & Hs & Hn);
    rewrite !timestamp_spec, Hd, Hh, Hm, Hs; unfold seconds_per_day; try (split_and!; lia || done).
  - destruct (start_date_week _ _ Hdate) as [HMon Hb]. split_and!; lia || done.
  - destruct (start_date_month _ _ Hdate) as (Hy & Hmo & Hd1 & Hb). split_and!; lia || done.
Qed.

Lemma until_of_spec s g u :
  is_start g s → until_of s g = Ok u →
  is_start g u ∧ timestamp_subsec_nanos u = 0 ∧
  match g with
  | Minute => timestamp u = timestamp s + 60
  | Hour => timestamp u = timestamp s + 3600
  | Day => timestamp u = timestamp s + 86400
  | Week => timestamp u = timestamp s + 604800
  | Month =>
      12 * date_year (date_naive u) + date_month (date_naive u) =
        12 * date_year (date_naive s) + date_month (date_naive s) + 1
  end.
Proof.
  unfold is_start, until_of. intros (Hs & Hn & Htime & Hdate) H.
  assert (Hru := time_fields_range u). assert (Hrs := time_fields_range s).
  assert (Hts := timestamp_spec s). assert (Htu := timestamp_spec u).
  apply ok_or_Ok in H. destruct g; cbv iota in H.
  1: pose proof (checked_add_signed_spec _ _ _ _ (seconds_of_minutes 1) H Hn) as [Hts' Hn'].
  2: pose proof (checked_add_signed_spec _ _ _ _ (seconds_of_hours 1) H Hn) as [Hts' Hn'].
  3: pose proof (checked_add_signed_spec _ _ _ _ (seconds_of_days 1) H Hn) as [Hts' Hn'].
  4: pose proof (checked_add_signed_spec _ _ _ _ (seconds_of_weeks 1) H Hn) as [Hts' Hn'].
  1-4:    unfold seconds_per_day in *; destruct_and?; split_and!; try done; try lia.
  - (* the Monday after a Monday *)
    apply num_days_from_monday_Mon. apply num_days_from_monday_Mon in Hdate.
    rewrite weekday_spec in Hdate |- *. zdiv.
  - destruct (datelike_datetime s) as (Hy & Hm & Hd & _).
    destruct (datelike_datetime u) as (Hy' & Hm' & Hd' & _).
    destruct (checked_add_months_spec _ _ H) as (Hym & Hday & Hh & Hmi & Hse & Hna); [congruence|].
    destruct_and?. split_and!; congruence.
Qed.

(** Order of timestamps and order of days. *)
Lemma timestamp_days t t' :
  timestamp t < timestamp t' → num_days_from_ce (date_naive t) ≤ num_days_from_ce (date_naive t').
Proof.
  rewrite !timestamp_spec. assert (Ht := time_fields_range t).
  assert (Ht' := time_fields_range t'). unfold seconds_per_day. lia.
Qed.

Lemma timestamp_midnight t t' :
  timestamp t < timestamp t' → hour t' = 0 → minute t' = 0 → second t' = 0 →
  num_days_from_ce (date_naive t) < num_days_from_ce (date_naive t').
Proof.
  rewrite !timestamp_spec. assert (Ht := time_fields_range t).
  unfold seconds_per_day. lia.
Qed.

Lemma month_between s t u :
  is_start Month s → is_start Month u →
  12 * date_year (date_naive u) + date_month (date_naive u) =
    12 * date_year (date_naive s) + date_month (date_naive s) + 1 →
  timestamp s ≤ timestamp t < timestamp u →
  date_year (date_naive t) = date_year (date_naive s) ∧
  date_month (date_naive t) = date_month (date_naive s).
Proof.
  intros (_ & _ & _ & Hds) (Hsu & _ & [Hmu Hhu] & Hdu) Hym [Hst Htu].
  assert (Htu' := timestamp_midnight t u Htu Hhu Hmu Hsu).
  assert (num_days_from_ce (date_naive s) ≤ num_days_from_ce (date_naive t)) as Hst'.
  { destruct (Z.eq_dec (timestamp s) (timestamp t)) as [He|]; [|apply timestamp_days; lia].
    rewrite !timestamp_spec in He. assert (Hrs := time_fields_range s).
    assert (Hrt := time_fields_range t). unfold seconds_per_day in He. lia. }
  assert (¬ num_days_from_ce (date_naive t) < num_days_from_ce (date_naive s)) as Hn by lia.
  rewrite num_days_order in Hn, Htu'.
  assert (Hs := date_fields_range (date_naive s)).
  assert (Ht := date_fields_range (date_naive t)).
  assert (Hu := date_fields_range (date_naive u)). lia.
Qed.

(** Every instant between a start and the next one has that start. *)
Lemma start_of_within s t u g :
  is_start g s → until_of s g = Ok u →
  timestamp s ≤ timestamp t < timestamp u → start_of t g = Ok s.
Proof.
  intros Hstart Hu Ht. destruct (until_of_spec _ _ _ Hstart Hu) as (Hstart' & _ & Hnext).
  assert (Hs := timestamp_spec s). assert (Htt := timestamp_spec t).
  assert (Hrs := time_fields_range s). assert (Hrt := time_fields_range t).
  assert (Hstart'' := Hstart). destruct Hstart'' as (Hsec & Hn & Htime & Hdate).
  unfold seconds_per_day, start_of in *.
  assert (Hms := at_hms (date_naive s) s eq_refl Hsec Hn).
  destruct g; cbn [mbind result_bind ok_or]; [| |destruct Htime as [Hmi0 Hh0]..].
  - assert (date_naive t = date_naive s) as -> by (apply num_days_inj; lia).
    assert (hour t = hour s) as -> by lia. assert (minute t = minute s) as -> by lia.
    by rewrite Hms.
  - assert (date_naive t = date_naive s) as -> by (apply num_days_inj; lia).
    assert (hour t = hour s) as -> by lia. replace 0 with (minute s) at 1 by lia.
    by rewrite Hms.
  - assert (date_naive t = date_naive s) as -> by (apply num_days_inj; lia).
    replace (hour s) with 0 in Hms by lia. replace (minute s) with 0 in Hms by lia.
    by rewrite Hms.
  - apply num_days_from_monday_Mon in Hdate. rewrite weekday_spec in Hdate.
    assert (checked_sub_days (date_naive t) (num_days_from_monday (weekday (date_naive t)))
      = Some (date_naive s)) as ->.
    { rewrite weekday_spec. apply checked_sub_days_spec; [apply Z.mod_pos_bound; lia|]. zdiv. }
    replace (hour s) with 0 in Hms by lia. replace (minute s) with 0 in Hms by lia.
    simpl. by rewrite Hms.
  - destruct (month_between s t u Hstart Hstart' Hnext Ht) as [Hy Hm].
    assert (from_ymd_opt (date_year (date_naive t)) (date_month (date_naive t)) 1
      = Some (date_naive s)) as -> by (by apply from_ymd_opt_spec).
    replace (hour s) with 0 in Hms by lia. replace (minute s) with 0 in Hms by lia.
    simpl. by rewrite Hms.
Qed.

(** A start is its own partition's start. *)
Lemma start_of_idem s g : is_start g s → start_of s g = Ok s.
Proof.
  intros (Hsec & Hn & Htime & Hdate). unfold start_of.
  assert (Hms := at_hms (date_naive s) s eq_refl Hsec Hn).
  destruct g; cbn [mbind result_bind ok_or]; [| |destruct Htime as [Hmi0 Hh0]..].
  - by rewrite Hms.
  - rewrite Htime in Hms. by rewrite Hms.
  - rewrite Hmi0, Hh0 in Hms. by rewrite Hms.
  - rewrite Hmi0, Hh0 in Hms. apply num_days_from_monday_Mon in Hdate. rewrite Hdate.
    assert (checked_sub_days (date_naive s) 0 = Some (date_naive s)) as ->
      by (apply checked_sub_days_spec; lia). simpl. by rewrite Hms.
  - rewrite Hmi0, Hh0 in Hms. rewrite <-Hdate at 1. rewrite from_ymd_opt_fields.
    simpl. by rewrite Hms.
Qed.

Lemma until_of_bounds t s g u :
  start_of t g = Ok s → until_of s g = Ok u → timestamp s ≤ timestamp t < timestamp u.
Proof.
  intros Hs Hu. destruct (start_of_spec _ _ _ Hs) as (Hstart & Hle & Hnear).
  destruct (until_of_spec _ _ _ Hstart Hu) as (Hstartu & _ & Hnext).
  split; [done|]. destruct g; try lia.
  destruct Hstartu as (_ & _ & _ & Hdu). destruct Hnear as [Hy Hm].
  assert (num_days_from_ce (date_naive t) < num_days_from_ce (date_naive u)) as Hlt.
  { apply num_days_order. assert (H := date_fields_range (date_naive t)).
    assert (H' := date_fields_range (date_naive u)). lia. }
  rewrite !timestamp_spec. assert (H := time_fields_range t).
  assert (H' := time_fields_range u). unfold seconds_per_day. lia.
Qed.

(** What [build_partition] returns, in terms of its two instants. *)
Lemma build_partition_Ok t g p :
  build_partition t g = Ok p →
  ∃ s u, start_of t g = Ok s ∧ until_of s g = Ok u ∧ is_start g s ∧ is_start g u ∧
    p = {| path := path_of s g;
           start_seconds := timestamp s; start_nanosecond := 0;
           until_seconds := timestamp u; until_nanosecond := 0 |} ∧
    timestamp s ≤ timestamp t < timestamp u ∧
    partition_start p = Ok s ∧ partition_until p = Ok u.
Proof.
  unfold build_partition. intros (s & Hs & (u & Hu & [= <-])%bind_Ok)%bind_Ok.
  destruct (start_of_spec _ _ _ Hs) as [Hstart _].
  destruct (until_of_spec _ _ _ Hstart Hu) as (Hstartu & Hnu & _).
  assert (Hns := proj1 (proj2 Hstart)).
  assert (∀ t', timestamp_subsec_nanos t' = 0 → from_timestamp (timestamp t') 0 = Some t') as Hfrom.
  { intros t' Ht'. rewrite <-Ht'. apply from_timestamp_timestamp. rewrite Ht'. done. }
  exists s, u. rewrite Hnu, Hns. unfold partition_start, partition_until; simpl.
  rewrite !Hfrom by done. split_and!; try done;
    by destruct (until_of_bounds t s g u Hs Hu).
Qed.

(** *** Paths *)

Definition values_of (s : DateTime) (g : Granularity) : list Z :=
  match g with
  | Minute => [year s; month s; day s; hour s; minute s]
  | Hour => [year s; month s; day s; hour s]
  | Day => [year s; month s; day s]
  | Week => [iso_week_year s; iso_week_week s]
  | Month => [year s; month s]
  end.

Lemma path_of_segments s g : path_of s g = segments (segment_names g) (values_of s g).
Proof.
  destruct g; unfold path_of, segments, segment; cbn [zip_with segment_names values_of join];
    repeat (rewrite !append_assoc || autorewrite with parquex); reflexivity.
Qed.

Lemma canonical_to_string z :
  i64_min ≤ z ≤ i64_max → canonical_integer (to_string z) = Some z.
Proof.
  intros Hz. unfold canonical_integer. rewrite parse_to_string by done. simpl.
  by rewrite bool_decide_true.
Qed.

Lemma parse_segment_ok name v :
  mem_char "="%char name = false → i64_min ≤ v ≤ i64_max →
  parse_segment (segment name v, name) = Ok v.
Proof.
  intros Hname Hv. unfold parse_segment, segment.
  rewrite append_cons, append_nil, split_once_app by done. rewrite canonical_to_string by done.
  by rewrite bool_decide_true.
Qed.

Lemma parse_segments_ok names vs :
  Forall (λ n, mem_char "="%char n = false) names → length names = length vs →
  Forall (λ v, i64_min ≤ v ≤ i64_max) vs →
  collect parse_segment (zip (zip_with segment names vs) names) = Ok vs.
Proof.
  intros Hnames Hlen Hvs. apply collect_Ok. revert vs Hlen Hvs.
  induction Hnames as [|n ns Hn Hns IH]; intros vs Hlen Hvs;
    destruct vs as [|v vs]; try discriminate Hlen; simpl; [constructor|].
  injection Hlen as Hlen. apply Forall_cons in Hvs as [Hv Hvs]. constructor; [by apply parse_segment_ok|by apply IH].
Qed.

Lemma parse_values_segments g vs :
  length vs = length (segment_names g) → Forall (λ v, i64_min ≤ v ≤ i64_max) vs →
  parse_values (segments (segment_names g) vs) g = Ok vs.
Proof.
  intros Hlen Hvs. unfold parse_values, segments. rewrite split_join.
  - rewrite length_zip_with, bool_decide_true by lia.
    apply parse_segments_ok; [destruct g; repeat constructor|done|done].
  - destruct g, vs; done.
  - assert (Forall (λ n, mem_char "/"%char n = false) (segment_names g)) as Hnames
      by (destruct g; repeat constructor).
    clear Hlen Hvs. revert vs.
    induction Hnames as [|n ns Hn _ IH]; intros [|v vs]; simpl; constructor; [|apply IH].
    unfold segment. rewrite !mem_char_app, Hn. simpl. apply to_string_mem. set_solver.
Qed.

Lemma values_of_range s g : Forall (λ v, i64_min ≤ v ≤ i64_max) (values_of s g).
Proof.
  assert (Hd := date_fields_range (date_naive s)). assert (Hi := iso_fields_range (date_naive s)).
  assert (Ht := time_fields_range s). destruct (datelike_datetime s) as (Hy & Hm & Hda & Hiy & Hiw).
  destruct g; unfold values_of; rewrite ?Hy, ?Hm, ?Hda, ?Hiy, ?Hiw;
    repeat constructor; int_bounds; lia.
Qed.

(** The parsed values name the start of the partition. *)
Lemma parse_date_start s g :
  is_start g s → parse_date g (values_of s g) = Ok (date_naive s).
Proof.
  intros (_ & _ & _ & Hdate).
  assert (Hd := date_fields_range (date_naive s)). assert (Hi := iso_fields_range (date_naive s)).
  destruct (datelike_datetime s) as (Hy & Hm & Hda & Hiy & Hiw).
  assert (∀ z, i32_min ≤ z ≤ i32_max → i32_try_from z = Some z) as H32 by apply try_from_in.
  assert (∀ z, 0 ≤ z ≤ 53 → u32_try_from z = Some z) as Hu32
    by (intros; apply try_from_in; int_bounds; lia).
  destruct g; unfold parse_date, values_of; cbn [lookup_total list_lookup_total length];
    rewrite ?Hy, ?Hm, ?Hda, ?Hiy, ?Hiw; cbn [Nat.ltb Nat.leb];
    rewrite H32, ?Hu32 by lia; cbn [ok_or mbind result_bind].
  1-3: by rewrite ?Hu32, from_ymd_opt_fields by lia.
  - assert (from_isoywd_opt (iso_year (date_naive s)) (iso_week (date_naive s)) Mon
      = Some (date_naive s)) as -> by (by apply from_isoywd_opt_spec). done.
  - rewrite <-Hdate, from_ymd_opt_fields. done.
Qed.

Lemma parse_time_start s g :
  is_start g s → parse_time g (values_of s g) = Ok (hour s, minute s).
Proof.
  intros (_ & _ & Htime & _). assert (Hr := time_fields_range s).
  assert (∀ z n, 0 ≤ z ≤ 60 → u32_value z n = Ok z) as Hu32.
  { intros z n Hz. unfold u32_value, u32_try_from. rewrite try_from_in; [done|int_bounds; lia]. }
  destruct g; unfold parse_time, values_of; cbn [lookup_total list_lookup_total];
    rewrite ?Hu32 by lia; simpl; [done|by rewrite Htime|destruct Htime; congruence..].
Qed.

(** *** The time line in nanoseconds *)

Definition nanos (t : DateTime) : Z := timestamp t * nanos_per_second + timestamp_subsec_nanos t.
Definition start_nanos (p : NativePartition) : Z :=
  start_seconds p * nanos_per_second + start_nanosecond p.
Definition until_nanos (p : NativePartition) : Z :=
  until_seconds p * nanos_per_second + until_nanosecond p.

Definition no_leap (t : DateTime) : Prop := timestamp_subsec_nanos t < nanos_per_second.

Lemma datetime_cmp_nanos a b :
  no_leap a → no_leap b → datetime_cmp a b = Z.compare (nanos a) (nanos b).
Proof.
  intros Ha Hb. rewrite datetime_cmp_spec. unfold lex_compare, nanos, no_leap in *; simpl.
  assert (Hra := time_fields_range a). assert (Hrb := time_fields_range b).
  symmetry. unfold nanos_per_second in *.
  destruct (Z.compare_spec (timestamp a) (timestamp b)) as [He|Hlt|Hgt].
  - destruct (Z.compare_spec (timestamp_subsec_nanos a) (timestamp_subsec_nanos b));
      rewrite ?Z.compare_eq_iff, ?Z.compare_lt_iff, ?Z.compare_gt_iff; lia.
  - apply Z.compare_lt_iff. lia.
  - apply Z.compare_gt_iff. lia.
Qed.

Lemma unit_factor_range unit f : unit_factor unit = Ok f → 1 ≤ f ≤ 1000000000.
Proof. unfold unit_factor. repeat case_bool_decide; intros [= <-]; lia. Qed.

(** [instant] is exact: no precision is lost, before the epoch either. *)
Lemma instant_nanos ts unit t :
  instant ts unit = Ok t →
  ∃ f, unit_factor unit = Ok f ∧ nanos t = ts * f ∧ no_leap t.
Proof.
  unfold instant. intros (f & Hf & H)%bind_Ok. exists f. split; [done|]. inv_result.
  unfold i128_checked_mul, i64_try_from in *.
  repeat match goal with H : try_from _ _ _ = Some _ |- _ => apply try_from_Some in H as [-> ?] end.
  match goal with H : from_timestamp _ _ = Some _ |- _ =>
    apply from_timestamp_spec in H as [Hs Hn] end.
  unfold no_leap, nanos. rewrite Hs, Hn.
  assert (Hmod := Z.mod_pos_bound (ts * f) 1000000000 ltac:(lia)).
  rewrite (Z.mod_small _ (2 ^ 32)) by lia.
  unfold nanos_per_second. split; zdiv.
Qed.

Lemma build_partition_nanos t g p :
  build_partition t g = Ok p → no_leap t → start_nanos p ≤ nanos t < until_nanos p.
Proof.
  intros (s & u & _ & _ & _ & _ & -> & Hb & _)%build_partition_Ok Hl.
  unfold start_nanos, until_nanos, nanos, no_leap in *; simpl.
  assert (Hr := time_fields_range t). unfold nanos_per_second in *. lia.
Qed.

Lemma build_partition_within t t' g p :
  build_partition t g = Ok p → no_leap t' → start_nanos p ≤ nanos t' < until_nanos p →
  build_partition t' g = Ok p.
Proof.
  intros Hp Hl Hb. assert (Hp' := Hp).
  apply build_partition_Ok in Hp' as (s & u & Hs & Hu & Hstart & _ & Heq & _).
  unfold build_partition in *. rewrite Hs in Hp.
  rewrite (start_of_within s t' u g); [done..|]. subst p.
  unfold start_nanos, until_nanos, nanos, no_leap in *; simpl in *.
  assert (Hr := time_fields_range t'). unfold nanos_per_second in *. lia.
Qed.

(** *** The planning loop *)

Definition built (g : Granularity) (p : NativePartition) : Prop :=
  ∃ t, no_leap t ∧ build_partition t g = Ok p.

(** [ps] are consecutive partitions covering [a, b). *)
Inductive tiles (g : Granularity) : Z → list NativePartition → Z → Prop :=
  | tiles_nil a : tiles g a [] a
  | tiles_cons p ps b :
      built g p → tiles g (until_nanos p) ps b → tiles g (start_nanos p) (p :: ps) b.

Lemma built_bounds g p : built g p → start_nanos p < until_nanos p.
Proof. intros (t & Hl & Hp). assert (H := build_partition_nanos _ _ _ Hp Hl). lia. Qed.

Lemma built_next g p u q :
  built g p → partition_until p = Ok u → build_partition u g = Ok q →
  built g q ∧ start_nanos q = until_nanos p.
Proof.
  intros (t & Hl & Hp) Hu Hq.
  apply build_partition_Ok in Hp as (s & u' & _ & _ & _ & Hstartu & -> & _ & _ & Hu').
  assert (u' = u) as -> by congruence.
  split; [exists u; split; [unfold no_leap; by rewrite (proj1 (proj2 Hstartu))|done]|].
  apply build_partition_Ok in Hq as (s' & u'' & Hs' & _ & _ & _ & -> & _).
  rewrite start_of_idem in Hs' by done. by injection Hs' as <-.
Qed.

Lemma tiles_built g a ps b : tiles g a ps b → Forall (built g) ps ∧ a ≤ b.
Proof.
  induction 1 as [a|p ps b Hp _ [IH Hle]]; [by split|].
  split; [by constructor|]. assert (H := built_bounds _ _ Hp). lia.
Qed.

(** Tiles leave no gap ... *)
Lemma tiles_find g a ps b x :
  tiles g a ps b → a ≤ x < b → ∃ p, p ∈ ps ∧ start_nanos p ≤ x < until_nanos p.
Proof.
  induction 1 as [a|p ps b Hp Ht IH]; intros Hx; [lia|].
  destruct (Z.lt_ge_cases x (until_nanos p)) as [|Hge].
  - exists p. split; [by left|lia].
  - destruct IH as (q & Hq & Hb); [lia|]. exists q. split; [by right|done].
Qed.

(** ... and stay inside the covered range. *)
Lemma tiles_inside g a ps b p :
  tiles g a ps b → p ∈ ps → a ≤ start_nanos p ∧ until_nanos p ≤ b ∧
  (p = default p (head ps) ∨ ∃ q, head ps = Some q ∧ until_nanos q ≤ start_nanos p).
Proof.
  induction 1 as [a|q ps b Hq Ht IH]; [by intros ?%elem_of_nil|].
  assert (Hbq := built_bounds _ _ Hq). destruct (tiles_built _ _ _ _ Ht) as [_ Hle].
  intros [->|Hp]%elem_of_cons; simpl; [split_and!; [lia..|by left]|].
  destruct (IH Hp) as (Hs & Hu & _). split_and!; [lia..|]. right. by exists q.
Qed.

Lemma partition_start_built g p :
  built g p →
  ∃ s, partition_start p = Ok s ∧ no_leap s ∧ nanos s = start_nanos p.
Proof.
  intros (t & _ & (s & u & _ & _ & Hs & _ & -> & _ & Hps & _)%build_partition_Ok).
  exists s. destruct Hs as (_ & Hn & _). unfold no_leap, nanos, start_nanos. rewrite Hn. done.
Qed.

Lemma plan_loop_step fuel until g limit current output :
  built g current → no_leap until →
  plan_loop (S fuel) until g limit current output =
    if start_nanos current <? nanos until then
      if Z.of_nat (length output) =? limit
      then Some (Err (invalid "partition range exceeds the planning limit"))
      else match next ← partition_until current; build_partition next g with
           | Err e => Some (Err e)
           | Ok next => plan_loop fuel until g limit next (output ++ [current])
           end
    else Some (Ok output).
Proof.
  intros Hb Hl. destruct (partition_start_built _ _ Hb) as (s & Hs & Hls & Hn). simpl.
  rewrite Hs, datetime_cmp_nanos, Hn by done. unfold Z.ltb. by destruct (_ ?= _).
Qed.

Lemma plan_loop_Ok fuel until g limit current output ps :
  built g current → no_leap until → Z.of_nat (length output) ≤ limit →
  plan_loop fuel until g limit current output = Some (Ok ps) →
  ∃ mid e, ps = output ++ mid ∧ tiles g (start_nanos current) mid e ∧ nanos until ≤ e ∧
    Forall (λ p, start_nanos p < nanos until) mid ∧ Z.of_nat (length ps) ≤ limit ∧
    (head mid = Some current ∨ nanos until ≤ start_nanos current).
Proof.
  intros Hb Hl. revert current output Hb.
  induction fuel as [|fuel IH]; intros current output Hb Hlen; [done|].
  rewrite plan_loop_step by done. destruct (Z.ltb_spec (start_nanos current) (nanos until)) as [Hlt|Hge].
  - destruct (Z.eqb_spec (Z.of_nat (length output)) limit) as [|Hne]; [done|].
    destruct (next ← partition_until current; build_partition next g) as [next|] eqn:Hnext; [|done].
    intros Hloop. apply bind_Ok in Hnext as (u & Hu & Hnext).
    destruct (built_next _ _ _ _ Hb Hu Hnext) as [Hbn Hsn].
    apply IH in Hloop as (mid & e & -> & Ht & He & Hf & Hlen' & _);
      [|done|rewrite length_app; simpl; lia].
    exists (current :: mid), e. rewrite <-app_assoc in *. split_and!; try done.
    + constructor; [done|]. by rewrite <-Hsn.
    + by constructor.
    + by left.
  - intros [= <-]. exists [], (start_nanos current). rewrite app_nil_r.
    split_and!; try done; [constructor|by right].
Qed.

Lemma plan_loop_fuel fuel until g limit current output :
  Z.of_nat (length output) ≤ limit < Z.of_nat (length output) + Z.of_nat fuel →
  plan_loop fuel until g limit current output ≠ None.
Proof.
  revert current output. induction fuel as [|fuel IH]; intros current output Hlen; [lia|].
  simpl. destruct (partition_start current); [|done]. destruct (datetime_cmp _ _); try done.
  destruct (Z.eqb_spec (Z.of_nat (length output)) limit); [done|].
  destruct (partition_until current ≫= _); [|done].
  apply IH. rewrite length_app. simpl. lia.
Qed.

Lemma plan_loop_length fuel until g limit current output ps :
  plan_loop fuel until g limit current output = Some (Ok ps) → (length output ≤ length ps)%nat.
Proof.
  revert current output. induction fuel as [|fuel IH]; intros current output; [done|]. simpl.
  destruct (partition_start current); [|done].
  destruct (datetime_cmp _ _); [by intros [= <-]| |by intros [= <-]].
  destruct (_ =? _); [done|]. destruct (partition_until current ≫= _); [|done].
  intros H%IH. rewrite length_app in H. simpl in H. lia.
Qed.

(** The loop's answer under another limit. *)
Lemma plan_loop_limit fuel fuel' until g limit limit' current output ps :
  Z.of_nat (length output) ≤ limit' < Z.of_nat (length output) + Z.of_nat fuel' →
  plan_loop fuel until g limit current output = Some (Ok ps) →
  plan_loop fuel' until g limit' current output =
    Some (if Z.of_nat (length ps) <=? limit' then Ok ps
          else Err (invalid "partition range exceeds the planning limit")).
Proof.
  revert fuel' current output.
  induction fuel as [|fuel IH]; intros fuel' current output Hlen; [done|].
  destruct fuel' as [|fuel']; [lia|]. simpl.
  destruct (partition_start current) as [start|]; [|done].
  destruct (datetime_cmp start until).
  1, 3: intros [= <-]; by rewrite (proj2 (Z.leb_le _ _)) by lia.
  destruct (Z.eqb_spec (Z.of_nat (length output)) limit); [done|].
  destruct (partition_until current ≫= _) as [next|]; [|done]. intros Hloop.
  assert (Hps := plan_loop_length _ _ _ _ _ _ _ Hloop). rewrite length_app in Hps. simpl in Hps.
  destruct (Z.eqb_spec (Z.of_nat (length output)) limit').
  - by rewrite (proj2 (Z.leb_gt _ _)) by lia.
  - apply IH; [rewrite length_app; simpl; lia|done].
Qed.

(** Every error of this module. *)
Definition is_invalid {A} (r : result NativeFailure A) : Prop :=
  match r with Ok _ => True | Err e => ∃ m, e = invalid m end.

Lemma is_invalid_bind {A B} (m : result NativeFailure A) (f : A → result NativeFailure B) :
  is_invalid m → (∀ a, is_invalid (f a)) → is_invalid (m ≫= f).
Proof. destruct m; simpl; auto. Qed.

Lemma is_invalid_ok_or {A} (o : option A) m : is_invalid (ok_or o (invalid m)).
Proof. destruct o; simpl; eauto. Qed.

Lemma is_invalid_collect {A B} (f : A → result NativeFailure B) l :
  (∀ a, is_invalid (f a)) → is_invalid (collect f l).
Proof.
  intros Hf. induction l as [|a l IH]; simpl; [done|].
  apply is_invalid_bind; [done|]. intros b. apply is_invalid_bind; [done|]. by intros.
Qed.

Lemma is_invalid_if {A} P `{Decision P} (r : result NativeFailure A) m :
  is_invalid r → is_invalid (if bool_decide P then r else Err (invalid m)).
Proof. intros Hr. case_bool_decide; simpl; eauto. Qed.

Create HintDb invalid.
#[local] Hint Resolve is_invalid_bind is_invalid_ok_or is_invalid_collect is_invalid_if : invalid.
#[local] Hint Extern 1 (is_invalid (Ok _)) => exact I : invalid.
#[local] Hint Extern 1 (is_invalid (Err (invalid _))) => eexists; reflexivity : invalid.
#[local] Hint Extern 2 (is_invalid (if bool_decide _ then _ else _)) => case_bool_decide : invalid.

Lemma granularity_invalid a : is_invalid (parse_granularity a).
Proof. unfold parse_granularity. repeat case_bool_decide; eauto with invalid. Qed.

Lemma instant_invalid ts unit : is_invalid (instant ts unit).
Proof.
  unfold instant, unit_factor.
  apply is_invalid_bind; [repeat case_bool_decide; eauto with invalid|].
  intros. eauto 6 with invalid.
Qed.

Lemma build_partition_invalid t g : is_invalid (build_partition t g).
Proof.
  unfold build_partition, start_of, until_of.
  apply is_invalid_bind; [|intros; eauto with invalid].
  destruct g; apply is_invalid_bind; eauto with invalid.
Qed.

Lemma plan_loop_invalid fuel until g limit current output r :
  plan_loop fuel until g limit current output = Some r → is_invalid r.
Proof.
  revert current output. induction fuel as [|fuel IH]; intros current output; [done|]. simpl.
  assert (Hs := is_invalid_ok_or (from_timestamp (start_seconds current) (start_nanosecond current))
    "partition start is invalid").
  change (is_invalid (partition_start current)) in Hs.
  destruct (partition_start current); [|by intros [= <-]].
  destruct (datetime_cmp _ _); [by intros [= <-]| |by intros [= <-]].
  destruct (_ =? _); [intros [= <-]; simpl; eauto|].
  assert (is_invalid (partition_until current ≫= λ next, build_partition next g)) as Hn.
  { apply is_invalid_bind; [apply is_invalid_ok_or|intros; apply build_partition_invalid]. }
  destruct (partition_until current ≫= _); [apply IH|by intros [= <-]].
Qed.

Lemma parse_values_invalid s g : is_invalid (parse_values s g).
Proof.
  unfold parse_values. apply is_invalid_if, is_invalid_collect. intros [part name].
  unfold parse_segment. destruct (split_once _ _) as [[]|]; [|eauto with invalid].
  destruct (canonical_integer _); eauto with invalid.
Qed.

Lemma parse_date_invalid g vs : is_invalid (parse_date g vs).
Proof.
  unfold parse_date. apply is_invalid_bind; [|eauto with invalid].
  destruct g; repeat (apply is_invalid_bind; [eauto with invalid|intros]);
    try exact I; destruct (2 <? length vs)%nat; eauto with invalid.
Qed.

Lemma parse_time_invalid g vs : is_invalid (parse_time g vs).
Proof. unfold parse_time, u32_value. destruct g; eauto 6 with invalid. Qed.
End lemmas.

(** ** Properties *)

Section properties.
  Context {C : Chrono} {L : ChronoLaws C}.

(** The partition computed for a timestamp contains it: with the timestamp
    read in its unit (exactly, also before the epoch), [start <= timestamp <
    until], and both ends are whole seconds. *)
Theorem partition_for_contains ts unit granularity p :
  partition_for ts unit granularity = Ok p →
  ∃ factor, unit_factor unit = Ok factor ∧
    start_nanos p ≤ ts * factor < until_nanos p ∧
    start_nanosecond p = 0 ∧ until_nanosecond p = 0.
Proof.
  unfold partition_for. intros (t & Ht & (g & _ & Hp)%bind_Ok)%bind_Ok.
  apply instant_nanos in Ht as (f & Hf & Hn & Hl). exists f. rewrite <-Hn.
  assert (Hb := build_partition_nanos _ _ _ Hp Hl).
  apply build_partition_Ok in Hp as (s & u & _ & _ & _ & _ & -> & _). done.
Qed.

(** C27: partitions tile the time line: every timestamp, in any unit, that lies
    in the range of a partition of the same granularity is assigned exactly
    that partition; so two partitions are equal or disjoint. *)
Theorem partition_for_tiles ts unit granularity p ts' unit' t' :
  partition_for ts unit granularity = Ok p →
  instant ts' unit' = Ok t' →
  start_nanos p ≤ nanos t' < until_nanos p →
  partition_for ts' unit' granularity = Ok p.
Proof.
  unfold partition_for. intros (t & Ht & (g & Hg & Hp)%bind_Ok)%bind_Ok Ht' Hb.
  rewrite Ht', Hg. simpl. apply (build_partition_within t); [done| |done].
  by apply instant_nanos in Ht' as (_ & _ & _ & Hl).
Qed.

Lemma parse_build t granularity g p :
  parse_granularity granularity = Ok g → build_partition t g = Ok p →
  parse (path p) granularity = Ok p.
Proof.
  intros Hg Hp. apply build_partition_Ok in Hp as Hp'.
  destruct Hp' as (s & u & Hs & Hu & Hstart & _ & -> & _). unfold parse. rewrite Hg.
  cbn [mbind result_bind path]. rewrite path_of_segments, parse_values_segments;
    [|by destruct g|apply values_of_range].
  cbn [mbind result_bind]. rewrite parse_date_start, parse_time_start by done.
  cbn [mbind result_bind]. rewrite at_hms by (done || apply Hstart). cbn [ok_or mbind result_bind].
  unfold build_partition in *. rewrite Hs in Hp. rewrite start_of_idem by done.
  cbn [mbind result_bind] in *. rewrite Hp. cbn [mbind result_bind path].
  by rewrite path_of_segments, bool_decide_true.
Qed.

(** C28: the path of a partition parses back to the same partition. *)
Theorem parse_partition_for ts unit granularity p :
  partition_for ts unit granularity = Ok p → parse (path p) granularity = Ok p.
Proof.
  unfold partition_for. intros (t & _ & (g & Hg & Hp)%bind_Ok)%bind_Ok.
  by apply (parse_build t _ g).
Qed.

(** C32: parsing is strict: an accepted path is the canonical path of the
    partition returned, and every timestamp in that partition's range is
    assigned that same partition; so no two spellings name one partition. *)
Theorem parse_canonical s granularity p :
  parse s granularity = Ok p →
  path p = s ∧
  ∀ ts unit t, instant ts unit = Ok t → start_nanos p ≤ nanos t < until_nanos p →
    partition_for ts unit granularity = Ok p.
Proof.
  unfold parse. intros H. apply bind_Ok in H as (g & Hg & H). apply bind_Ok in H as (vs & _ & H).
  apply bind_Ok in H as (date & _ & H). apply bind_Ok in H as ([hh mm] & _ & H).
  apply bind_Ok in H as (start & _ & H). apply bind_Ok in H as (p' & Hp & H).
  case_bool_decide as Hpath; [|done]. injection H as <-. split; [done|].
  intros ts unit t Ht Hb. unfold partition_for. rewrite Ht, Hg. simpl.
  apply (build_partition_within start); [done| |done].
  by apply instant_nanos in Ht as (_ & _ & _ & Hl).
Qed.

(** C6: a plan is exact: for [from < until] the planned partitions are, in
    order and without gaps ([tiles]), exactly the partitions of the instants
    in [[from, until)], each overlapping the range, and at most [limit] many. *)
Theorem plan_exact from until unit granularity limit f u ps :
  0 ≤ limit →
  plan from until unit granularity limit = Some (Ok ps) →
  instant from unit = Ok f → instant until unit = Ok u → nanos f < nanos u →
  ∃ g, parse_granularity granularity = Ok g ∧
    (∃ a b, tiles g a ps b ∧ a ≤ nanos f ∧ nanos u ≤ b) ∧
    (∀ t, no_leap t → nanos f ≤ nanos t < nanos u → ∃ p, p ∈ ps ∧ build_partition t g = Ok p) ∧
    (∀ p, p ∈ ps → start_nanos p < nanos u ∧ nanos f < until_nanos p) ∧
    Z.of_nat (length ps) ≤ limit.
Proof.
  unfold plan. intros Hlim0 Hplan Hf Hu Hlt.
  apply instant_nanos in Hf as Hf'. destruct Hf' as (_ & _ & _ & Hlf).
  apply instant_nanos in Hu as Hu'. destruct Hu' as (_ & _ & _ & Hlu).
  destruct (Z.eqb_spec limit 0) as [|Hlim]; [done|]. rewrite Hf, Hu in Hplan.
  cbn [mbind result_bind] in Hplan.
  rewrite datetime_cmp_nanos, (proj2 (Z.compare_lt_iff _ _)) in Hplan by done.
  destruct (parse_granularity granularity) as [g|]; [|done]. cbn [mbind result_bind] in Hplan.
  destruct (build_partition f g) as [cur|] eqn:Hcur; [|done]. cbn [mbind result_bind] in Hplan.
  assert (Hbf := build_partition_nanos _ _ _ Hcur Hlf).
  assert (built g cur) as Hb by (by exists f).
  apply plan_loop_Ok in Hplan as (mid & e & -> & Ht & He & Hstarts & Hlen & Hhead);
    [|done|done|simpl; lia].
  destruct Hhead as [Hhead|]; [|lia]. simpl. exists g. split_and!; try done.
  - exists (start_nanos cur), e. split_and!; [done|lia|done].
  - intros t Hlt' Hbt. destruct (tiles_find _ _ _ _ (nanos t) Ht) as (p & Hp & Hpb); [lia|].
    exists p. split; [done|]. destruct (tiles_built _ _ _ _ Ht) as [Hall _].
    destruct (proj1 (Forall_forall _ _) Hall p Hp) as (tp & _ & Hbp).
    by apply (build_partition_within tp).
  - intros p Hp. split; [by apply (proj1 (Forall_forall _ _) Hstarts)|].
    destruct (tiles_inside _ _ _ _ _ Ht Hp) as (_ & _ & [Heq|(q & Hq & Hqp)]).
    + rewrite Hhead in Heq. simpl in Heq. subst. lia.
    + assert (q = cur) as -> by congruence.
      destruct (tiles_built _ _ _ _ Ht) as [Hall _].
      assert (Hpb := built_bounds _ _ (proj1 (Forall_forall _ _) Hall p Hp)). lia.
Qed.

(** Planning terminates: with one turn of fuel per partition allowed by the
    limit and one to leave the loop, the loop never runs out of fuel. *)
Theorem plan_terminates from until unit granularity limit :
  0 ≤ limit → ∃ r, plan from until unit granularity limit = Some r.
Proof.
  intros Hlim. unfold plan. destruct (Z.eqb_spec limit 0); [by eauto|].
  destruct (instant from unit) as [f|]; [|by eauto]. simpl.
  destruct (instant until unit) as [u|]; [|by eauto]. simpl.
  destruct (datetime_cmp f u); [by eauto| |by eauto].
  destruct (parse_granularity granularity) as [g|]; [|by eauto]. simpl.
  destruct (build_partition f g) as [cur|]; [|by eauto].
  cbn [mbind result_bind].
  destruct (plan_loop (plan_fuel limit) u g limit cur []) as [r|] eqn:H; [by eauto|].
  exfalso. revert H. apply plan_loop_fuel. unfold plan_fuel. simpl. lia.
Qed.

(** The limit only bounds the plan, it never changes it: under any other
    positive limit the answer is the same plan when it fits and the
    planning-limit error when it does not. *)
Theorem plan_limit from until unit granularity limit limit' ps :
  0 < limit' →
  plan from until unit granularity limit = Some (Ok ps) →
  plan from until unit granularity limit' =
    Some (if Z.of_nat (length ps) <=? limit' then Ok ps
          else Err (invalid "partition range exceeds the planning limit")).
Proof.
  unfold plan. intros Hlim'. destruct (Z.eqb_spec limit 0); [done|].
  destruct (Z.eqb_spec limit' 0); [lia|].
  destruct (instant from unit) as [f|]; [|done]. cbn [mbind result_bind].
  destruct (instant until unit) as [u|]; [|done]. cbn [mbind result_bind].
  destruct (datetime_cmp f u); [| |done].
  - intros [= <-]. simpl. by rewrite (proj2 (Z.leb_le _ _)) by lia.
  - destruct (parse_granularity granularity) as [g|]; [|done]. cbn [mbind result_bind].
    destruct (build_partition f g) as [cur|]; [|done]. cbn [mbind result_bind].
    apply plan_loop_limit. unfold plan_fuel. simpl. lia.
Qed.

(** Every failure of the three entry points is an [InvalidArgument] of the
    time partition operation, so it is never retryable and never reported as
    another operation. *)
Theorem time_partition_errors ts ts' unit granularity limit s :
  is_invalid (partition_for ts unit granularity) ∧
  is_invalid (parse s granularity) ∧
  ∀ r, plan ts ts' unit granularity limit = Some r → is_invalid r.
Proof.
  split_and!.
  - unfold partition_for. apply is_invalid_bind; [apply instant_invalid|intros].
    apply is_invalid_bind; [apply granularity_invalid|intros; apply build_partition_invalid].
  - unfold parse. apply is_invalid_bind; [apply granularity_invalid|intros].
    apply is_invalid_bind; [apply parse_values_invalid|intros].
    apply is_invalid_bind; [apply parse_date_invalid|intros].
    apply is_invalid_bind; [apply parse_time_invalid|intros [hh mm]].
    apply is_invalid_bind; [apply is_invalid_ok_or|intros].
    apply is_invalid_bind; [apply build_partition_invalid|intros].
    case_bool_decide; simpl; eauto.
  - intros r. unfold plan. destruct (_ =? _); [intros [= <-]; simpl; eauto|].
    assert (Hf := instant_invalid ts unit). assert (Hu := instant_invalid ts' unit).
    destruct (instant ts unit) as [f|]; [|by intros [= <-]]. cbn [mbind result_bind].
    destruct (instant ts' unit) as [u|]; [|by intros [= <-]]. cbn [mbind result_bind].
    destruct (datetime_cmp f u); [by intros [= <-]| |intros [= <-]; simpl; eauto].
    assert (Hg := granularity_invalid granularity).
    destruct (parse_granularity granularity) as [g|]; [|by intros [= <-]]. cbn [mbind result_bind].
    assert (Hb := build_partition_invalid f g).
    destruct (build_partition f g) as [cur|]; [|by intros [= <-]]. cbn [mbind result_bind].
    apply plan_loop_invalid.
Qed.
End properties.

(** ** Concrete calendar dates *)

#[local] Existing Instance Gregorian.
#[local] Existing Instance Gregorian_laws.

Example partition_for_example :
  partition_for 1785760305 "second" "hour" =
    Ok {| path := "year=2026/month=8/day=3/hour=12";
          start_seconds := 1785758400; start_nanosecond := 0;
          until_seconds := 1785762000; until_nanosecond := 0 |}.
Proof. vm_compute. reflexivity. Qed.

Example parse_example :
  path <$> parse "iso_year=2020/week=53" "week" = Ok "iso_year=2020/week=53"%string ∧
  parse "iso_year=2021/week=53" "week" = Err (invalid "partition date is invalid") ∧
  parse "year=2026/month=08/day=3" "day" = Err (invalid "partition path is not canonical").
Proof. vm_compute. done. Qed.

Example plan_example :
  option_map (fmap (map path)) (plan 1785761999 1785765600 "second" "hour" 10) =
    Some (Ok ["year=2026/month=8/day=3/hour=12"; "year=2026/month=8/day=3/hour=13"])%string.
Proof. vm_compute. reflexivity. Qed.

(** 3 August 2026, 12:31:45 UTC. *)
Definition august_hour : NativePartition :=
  {| path := "year=2026/month=8/day=3/hour=12";
     start_seconds := 1785758400; start_nanosecond := 0;
     until_seconds := 1785762000; until_nanosecond := 0 |}.

Lemma partition_for_contains_witness :
  partition_for 1785760305 "second" "hour" = Ok august_hour ∧
  ∃ factor, unit_factor "second" = Ok factor ∧
    start_nanos august_hour ≤ 1785760305 * factor < until_nanos august_hour ∧
    start_nanosecond august_hour = 0 ∧ until_nanosecond august_hour = 0.
Proof.
  split; [vm_compute; reflexivity|].
  apply (partition_for_contains _ _ "hour"). vm_compute. reflexivity.
Defined.

(** A representable timestamp has an instant. *)
Lemma instant_value ts unit f :
  unit_factor unit = Ok f → match instant ts unit with Ok _ => true | Err _ => false end = true →
  ∃ t, instant ts unit = Ok t ∧ nanos t = ts * f ∧ no_leap t.
Proof.
  intros Hf H. destruct (instant ts unit) as [t|] eqn:Ht; [|done].
  exists t. apply instant_nanos in Ht as (f' & Hf' & Hn & Hl).
  assert (f' = f) as -> by congruence. done.
Qed.

Lemma partition_for_tiles_witness :
  ∃ t', instant 1785758400001 "millisecond" = Ok t' ∧
    partition_for 1785758400001 "millisecond" "hour" = Ok august_hour.
Proof.
  destruct (instant_value 1785758400001 "millisecond" 1000000 eq_refl) as (t' & Ht' & Hn & _);
    [vm_compute; reflexivity|].
  exists t'. split; [done|].
  apply (partition_for_tiles 1785760305 "second" "hour" august_hour _ _ t');
    [vm_compute; reflexivity|done|rewrite Hn; vm_compute; split; [intros H; discriminate H|reflexivity]].
Defined.

(** ISO week 53 of 2020, from a day of calendar year 2021. *)
Lemma parse_partition_for_witness :
  ∃ p, partition_for 1609502400 "second" "week" = Ok p ∧
    path p = "iso_year=2020/week=53"%string ∧ parse (path p) "week" = Ok p.
Proof.
  eexists. split; [vm_compute; reflexivity|]. split; [reflexivity|].
  apply (parse_partition_for 1609502400 "second"). vm_compute. reflexivity.
Defined.

(** 29 February 2024, and its last nanosecond. *)
Lemma parse_canonical_witness :
  ∃ p t, parse "year=2024/month=2/day=29" "day" = Ok p ∧
    instant 1709251199999999999 "nanosecond" = Ok t ∧
    path p = "year=2024/month=2/day=29"%string ∧
    partition_for 1709251199999999999 "nanosecond" "day" = Ok p.
Proof.
  destruct (instant_value 1709251199999999999 "nanosecond" 1 eq_refl) as (t & Ht & Hn & _);
    [vm_compute; reflexivity|].
  eexists _, t. split; [vm_compute; reflexivity|]. split; [done|].
  destruct (parse_canonical "year=2024/month=2/day=29" "day"
    {| path := "year=2024/month=2/day=29";
       start_seconds := 1709164800; start_nanosecond := 0;
       until_seconds := 1709251200; until_nanosecond := 0 |}) as [Hpath Hall];
    [vm_compute; reflexivity|].
  split; [done|]. apply (Hall _ _ t Ht).
  rewrite Hn. vm_compute. split; [intros H; discriminate H|reflexivity].
Defined.

(** December 2023 and January 2024. *)
Definition new_year_plan : list NativePartition :=
  [{| path := "year=2023/month=12";
      start_seconds := 1701388800; start_nanosecond := 0;
      until_seconds := 1704067200; until_nanosecond := 0 |};
   {| path := "year=2024/month=1";
      start_seconds := 1704067200; start_nanosecond := 0;
      until_seconds := 1706745600; until_nanosecond := 0 |}].

Lemma new_year_planned :
  plan 1704067199 1704067201 "second" "month" 2 = Some (Ok new_year_plan).
Proof. vm_compute. reflexivity. Qed.

Lemma plan_exact_witness :
  ∃ f u, instant 1704067199 "second" = Ok f ∧ instant 1704067201 "second" = Ok u ∧
    ∀ t, no_leap t → nanos f ≤ nanos t < nanos u →
      ∃ p, p ∈ new_year_plan ∧ build_partition t Month = Ok p.
Proof.
  destruct (instant_value 1704067199 "second" 1000000000 eq_refl) as (f & Hf & Hnf & _);
    [vm_compute; reflexivity|].
  destruct (instant_value 1704067201 "second" 1000000000 eq_refl) as (u & Hu & Hnu & _);
    [vm_compute; reflexivity|].
  exists f, u. split; [done|]. split; [done|].
  destruct (plan_exact 1704067199 1704067201 "second" "month" 2 f u new_year_plan)
    as (g & Hg & _ & Hall & _); [lia|apply new_year_planned|done|done|lia|].
  injection Hg as <-. exact Hall.
Defined.

Lemma plan_terminates_witness : ∃ r, plan 0 100000000 "second" "minute" 3 = Some r.
Proof. apply (plan_terminates 0 100000000 "second" "minute" 3). lia. Defined.

Lemma plan_limit_witness :
  plan 1704067199 1704067201 "second" "month" 1 =
    Some (Err (invalid "partition range exceeds the planning limit")).
Proof.
  exact (plan_limit 1704067199 1704067201 "second" "month" 2 1 new_year_plan
    ltac:(lia) new_year_planned).
Defined.

Lemma time_partition_errors_witness :
  is_invalid (parse "year=2026/month=2/day=30" "day") ∧
  is_invalid (Err (invalid "partition range exceeds the planning limit") :
    result NativeFailure (list NativePartition)).
Proof.
  destruct (time_partition_errors 1704067199 1704067201 "second" "month" 1
    "year=2026/month=2/day=30") as (_ & _ & Hplan).
  split; [exact (proj1 (proj2 (time_partition_errors 0 0 "second" "day" 1
    "year=2026/month=2/day=30")))|].
  apply Hplan. vm_compute. reflexivity.
Defined.
