(* ===== verification/Schema.v ===== *)
(** * Schema: the descriptors exchanged with the caller and Arrow's data types

    Models the schema halves of [reader.rs] ([native_field],
    [native_data_type] and their helpers: what a file's schema looks like to
    the caller) and of [writer.rs] ([arrow_field], [arrow_data_type],
    [time_unit]: the Arrow schema of a descriptor), and shows they are inverse
    to each other up to the width of string and binary offsets. *)
From S2P Require Import Prelude Errors.

(** ** Data *)

Inductive TimeUnit : Set := Second | Millisecond | Microsecond | Nanosecond.

#[export] Instance TimeUnit_eq_dec : EqDecision TimeUnit.
Proof. solve_decision. Defined.

(** [arrow_schema::DataType] and [Field]; [Unlisted] stands for the variants
    the program never names.  Of a [Field] the name, the type and the
    nullability are kept: nothing in the program reads its metadata map (nor
    its dictionary), [native_field] drops it and [arrow_field] leaves it
    empty. *)
Module arrow.
Inductive DataType : Set :=
  | Null | Boolean
  | Int8 | Int16 | Int32 | Int64 | UInt8 | UInt16 | UInt32 | UInt64
  | Float32 | Float64
  | Utf8 | LargeUtf8 | Binary | LargeBinary | FixedSizeBinary (length : Z)
  | Date32 | Date64 | Time32 (unit : TimeUnit) | Time64 (unit : TimeUnit)
  | Timestamp (unit : TimeUnit) (timezone : option string)
  | Duration (unit : TimeUnit)
  | Decimal32 (precision scale : Z) | Decimal64 (precision scale : Z)
  | Decimal128 (precision scale : Z) | Decimal256 (precision scale : Z)
  | List (field : Field) | LargeList (field : Field)
  | FixedSizeList (field : Field) (length : Z)
  | Struct (fields : list Field)
  | Unlisted (variant : nat)
with Field : Set :=
  | mkField (name : string) (data_type : DataType) (nullable : bool).

Definition field_name (f : Field) : string := let 'mkField n _ _ := f in n.
Definition field_data_type (f : Field) : DataType := let 'mkField _ d _ := f in d.
Definition is_nullable (f : Field) : bool := let 'mkField _ _ n := f in n.

Section induction.
  Variables (P : DataType → Prop) (Q : Field → Prop).
  Hypothesis flat : ∀ d,
    match d with List _ | LargeList _ | FixedSizeList _ _ | Struct _ => False | _ => True end → P d.
  Hypothesis list : ∀ f, Q f → P (List f).
  Hypothesis large_list : ∀ f, Q f → P (LargeList f).
  Hypothesis fixed_list : ∀ f n, Q f → P (FixedSizeList f n).
  Hypothesis struct : ∀ fs, Forall Q fs → P (Struct fs).
  Hypothesis field : ∀ n d b, P d → Q (mkField n d b).

Fixpoint DataType_nested_ind (d : DataType) : P d :=
  match d with
  | List f => list f (Field_nested_ind f)
  | LargeList f => large_list f (Field_nested_ind f)
  | FixedSizeList f n => fixed_list f n (Field_nested_ind f)
  | Struct fs => struct fs
      ((fix go fs : Forall Q fs :=
          match fs with
          | [] => Forall_nil_2 Q
          | f :: fs => Forall_cons_2 Q f fs (Field_nested_ind f) (go fs)
          end) fs)
  | d => flat d I
  end
with Field_nested_ind (f : Field) : Q f :=
  match f with mkField n d b => field n d b (DataType_nested_ind d) end.
End induction.
End arrow.

(** The type descriptor of a column.  [NativeDataType]/[NativeField] (sent by
    the reader) and [InputDataType]/[InputField] (received by the writer) are
    the same Erlang map: both structs derive [NifMap] with the same keys. *)
Inductive NativeDataType : Set :=
  | mkDataType (kind : atom) (bit_width : option Z) (signed : option bool)
      (unit : option atom) (timezone : option string) (precision : option Z)
      (scale : option Z) (length : option Z) (children : list NativeField)
with NativeField : Set :=
  | mkNativeField (name : string) (nullable : bool) (data_type : NativeDataType).

Definition InputDataType : Set := NativeDataType.
Definition InputField : Set := NativeField.

Definition NativeDataType_simple (kind : atom) : NativeDataType :=
  mkDataType kind None None None None None None None [].

(** ** The reader's side *)

Definition integer_type (bit_width : Z) (signed : bool) : NativeDataType :=
  mkDataType "integer" (Some bit_width) (Some signed) None None None None None [].

Definition float_type (bit_width : Z) : NativeDataType :=
  mkDataType "float" (Some bit_width) None None None None None None [].

Definition time_unit_atom (unit : TimeUnit) : atom :=
  match unit with
  | Second => "second"
  | Millisecond => "millisecond"
  | Microsecond => "microsecond"
  | Nanosecond => "nanosecond"
  end.

Definition time_type (unit : TimeUnit) (bit_width : Z) : NativeDataType :=
  mkDataType "time" (Some bit_width) None (Some (time_unit_atom unit)) None None None None [].

Definition decimal_type (bit_width precision scale : Z) : NativeDataType :=
  mkDataType "decimal" (Some bit_width) None None None (Some precision) (Some scale) None [].

Definition nested_type (kind : atom) (children : list NativeField) : NativeDataType :=
  mkDataType kind None None None None None None None children.

Definition unsupported_read : NativeFailure :=
  NativeFailure_new Unsupported ReaderOpen "Parquet schema contains an unsupported logical type".

Fixpoint native_field (field : arrow.Field) : result NativeFailure NativeField :=
  match field with
  | arrow.mkField name data_type nullable =>
      data_type ← native_data_type data_type;
      Ok (mkNativeField name nullable data_type)
  end
with native_data_type (data_type : arrow.DataType) : result NativeFailure NativeDataType :=
  match data_type with
  | arrow.Null => Ok (NativeDataType_simple "null")
  | arrow.Boolean => Ok (NativeDataType_simple "boolean")
  | arrow.Int8 => Ok (integer_type 8 true)
  | arrow.Int16 => Ok (integer_type 16 true)
  | arrow.Int32 => Ok (integer_type 32 true)
  | arrow.Int64 => Ok (integer_type 64 true)
  | arrow.UInt8 => Ok (integer_type 8 false)
  | arrow.UInt16 => Ok (integer_type 16 false)
  | arrow.UInt32 => Ok (integer_type 32 false)
  | arrow.UInt64 => Ok (integer_type 64 false)
  | arrow.Float32 => Ok (float_type 32)
  | arrow.Float64 => Ok (float_type 64)
  | arrow.Utf8 | arrow.LargeUtf8 => Ok (NativeDataType_simple "utf8")
  | arrow.Binary | arrow.LargeBinary => Ok (NativeDataType_simple "binary")
  | arrow.FixedSizeBinary length =>
      if 0 <? length
      then Ok (mkDataType "fixed_binary" None None None None None None (Some length) [])
      else Err unsupported_read
  | arrow.Date32 => Ok (NativeDataType_simple "date32")
  | arrow.Date64 => Ok (NativeDataType_simple "date64")
  | arrow.Time32 unit =>
      match unit with
      | Second | Millisecond => Ok (time_type unit 32)
      | _ => Err unsupported_read
      end
  | arrow.Time64 unit =>
      match unit with
      | Microsecond | Nanosecond => Ok (time_type unit 64)
      | _ => Err unsupported_read
      end
  | arrow.Timestamp unit timezone =>
      Ok (mkDataType "timestamp" None None (Some (time_unit_atom unit)) timezone None None None [])
  | arrow.Duration unit =>
      Ok (mkDataType "duration" None None (Some (time_unit_atom unit)) None None None None [])
  | arrow.Decimal32 precision scale => Ok (decimal_type 32 precision scale)
  | arrow.Decimal64 precision scale => Ok (decimal_type 64 precision scale)
  | arrow.Decimal128 precision scale => Ok (decimal_type 128 precision scale)
  | arrow.Decimal256 precision scale => Ok (decimal_type 256 precision scale)
  | arrow.List field => field ← native_field field; Ok (nested_type "list" [field])
  | arrow.LargeList field => field ← native_field field; Ok (nested_type "large_list" [field])
  | arrow.FixedSizeList field length =>
      if 0 <? length then
        field ← native_field field;
        Ok (mkDataType "fixed_list" None None None None None None (Some length) [field])
      else Err unsupported_read
  | arrow.Struct fields =>
      children ← collect native_field fields;
      Ok (nested_type "struct" children)
  | arrow.Unlisted _ => Err unsupported_read
  end.

(** ** The writer's side *)

Definition time_unit (a : atom) : option TimeUnit :=
  if bool_decide (a = "second") then Some Second
  else if bool_decide (a = "millisecond") then Some Millisecond
  else if bool_decide (a = "microsecond") then Some Microsecond
  else if bool_decide (a = "nanosecond") then Some Nanosecond
  else None.

Definition unsupported_write : NativeFailure :=
  NativeFailure_new Unsupported ParquetWriterOpen "schema contains an unsupported write type".

Definition arrow_integer (bit_width : option Z) (signed : option bool) :
    result NativeFailure arrow.DataType :=
  match bit_width, signed with
  | Some 8, Some true => Ok arrow.Int8
  | Some 16, Some true => Ok arrow.Int16
  | Some 32, Some true => Ok arrow.Int32
  | Some 64, Some true => Ok arrow.Int64
  | Some 8, Some false => Ok arrow.UInt8
  | Some 16, Some false => Ok arrow.UInt16
  | Some 32, Some false => Ok arrow.UInt32
  | Some 64, Some false => Ok arrow.UInt64
  | _, _ => Err unsupported_write
  end.

Definition arrow_time (bit_width : option Z) (unit : option TimeUnit) :
    result NativeFailure arrow.DataType :=
  match bit_width, unit with
  | Some 32, Some ((Second | Millisecond) as unit) => Ok (arrow.Time32 unit)
  | Some 64, Some ((Microsecond | Nanosecond) as unit) => Ok (arrow.Time64 unit)
  | _, _ => Err unsupported_write
  end.

Definition arrow_decimal (bit_width precision scale : option Z) :
    result NativeFailure arrow.DataType :=
  match bit_width, precision, scale with
  | Some 32, Some p, Some s => Ok (arrow.Decimal32 p s)
  | Some 64, Some p, Some s => Ok (arrow.Decimal64 p s)
  | Some 128, Some p, Some s => Ok (arrow.Decimal128 p s)
  | Some 256, Some p, Some s => Ok (arrow.Decimal256 p s)
  | _, _, _ => Err unsupported_write
  end.

Fixpoint arrow_field (field : NativeField) : result NativeFailure arrow.Field :=
  match field with
  | mkNativeField name nullable data_type =>
      data_type ← arrow_data_type data_type;
      Ok (arrow.mkField name data_type nullable)
  end
with arrow_data_type (input : NativeDataType) : result NativeFailure arrow.DataType :=
  match input with
  | mkDataType kind bit_width signed unit timezone precision scale length children =>
      if bool_decide (kind = "null") then Ok arrow.Null
      else if bool_decide (kind = "boolean") then Ok arrow.Boolean
      else if bool_decide (kind = "integer") then arrow_integer bit_width signed
      else if bool_decide (kind = "float") then
        match bit_width with
        | Some 32 => Ok arrow.Float32
        | Some 64 => Ok arrow.Float64
        | _ => Err unsupported_write
        end
      else if bool_decide (kind = "utf8") then Ok arrow.Utf8
      else if bool_decide (kind = "binary") then Ok arrow.Binary
      else if bool_decide (kind = "fixed_binary") then
        ok_or (arrow.FixedSizeBinary <$> length) unsupported_write
      else if bool_decide (kind = "date32") then Ok arrow.Date32
      else if bool_decide (kind = "date64") then Ok arrow.Date64
      else if bool_decide (kind = "time") then arrow_time bit_width (unit ≫= time_unit)
      else if bool_decide (kind = "timestamp") then
        ok_or ((λ unit, arrow.Timestamp unit timezone) <$> (unit ≫= time_unit)) unsupported_write
      else if bool_decide (kind = "duration") then
        ok_or (arrow.Duration <$> (unit ≫= time_unit)) unsupported_write
      else if bool_decide (kind = "decimal") then arrow_decimal bit_width precision scale
      else if bool_decide (kind = "list") || bool_decide (kind = "large_list")
              || bool_decide (kind = "fixed_list") then
        match children with
        | [] => Err unsupported_write
        | child :: _ =>
            field ← arrow_field child;
            if bool_decide (kind = "list") then Ok (arrow.List field)
            else if bool_decide (kind = "large_list") then Ok (arrow.LargeList field)
            else ok_or (arrow.FixedSizeList field <$> length) unsupported_write
        end
      else if bool_decide (kind = "struct") then
        fields ← collect arrow_field children;
        Ok (arrow.Struct fields)
      else Err unsupported_write
  end.

(** ** Specification

    A descriptor does not carry the offset width of strings and binaries:
    [small_data_type] is the type the writer rebuilds. *)
Fixpoint small_field (f : arrow.Field) : arrow.Field :=
  match f with arrow.mkField n d b => arrow.mkField n (small_data_type d) b end
with small_data_type (d : arrow.DataType) : arrow.DataType :=
  match d with
  | arrow.LargeUtf8 => arrow.Utf8
  | arrow.LargeBinary => arrow.Binary
  | arrow.List f => arrow.List (small_field f)
  | arrow.LargeList f => arrow.LargeList (small_field f)
  | arrow.FixedSizeList f n => arrow.FixedSizeList (small_field f) n
  | arrow.Struct fs => arrow.Struct (map small_field fs)
  | d => d
  end.

(** The lengths a reader accepts, everywhere in a type. *)
Fixpoint positive_field (f : arrow.Field) : bool :=
  match f with arrow.mkField _ d _ => positive_lengths d end
with positive_lengths (d : arrow.DataType) : bool :=
  match d with
  | arrow.FixedSizeBinary n => 0 <? n
  | arrow.FixedSizeList f n => (0 <? n) && positive_field f
  | arrow.List f | arrow.LargeList f => positive_field f
  | arrow.Struct fs => forallb positive_field fs
  | _ => true
  end.

(** ** Lemmas *)

Section descriptor_induction.
  Variables (P : NativeDataType → Prop) (Q : NativeField → Prop).
  Hypothesis descriptor : ∀ k w s u t p c l cs, Forall Q cs → P (mkDataType k w s u t p c l cs).
  Hypothesis child : ∀ n b d, P d → Q (mkNativeField n b d).

Fixpoint descriptor_nested_ind (d : NativeDataType) : P d :=
  match d with
  | mkDataType k w s u t p c l cs => descriptor k w s u t p c l cs
      ((fix go cs : Forall Q cs :=
          match cs with
          | [] => Forall_nil_2 Q
          | f :: cs => Forall_cons_2 Q f cs (child_nested_ind f) (go cs)
          end) cs)
  end
with child_nested_ind (f : NativeField) : Q f :=
  match f with mkNativeField n b d => child n b d (descriptor_nested_ind d) end.
End descriptor_induction.

Lemma time_unit_of_atom u : time_unit (time_unit_atom u) = Some u.
Proof. by destruct u. Qed.

(** Unfold the equations of the two conversions at a constructor. *)
Ltac schema_cases :=
  repeat first
    [ progress inv_result
    | progress simplify_option_eq
    | match goal with
      | H : context [match ?x with _ => _ end] |- _ => destruct x eqn:?; try discriminate H
      end ].

(** [collect] composes: mapping each element there and back. *)
Lemma collect_roundtrip {E F A B C} (f : A → result E B) (g : B → result F C) (h : A → C) l k :
  Forall (λ x, ∀ y, f x = Ok y → g y = Ok (h x)) l →
  collect f l = Ok k → collect g k = Ok (map h l).
Proof.
  intros Hall Hk%collect_Ok. apply collect_Ok. induction Hk; simpl; constructor;
    inversion Hall; subst; auto.
Qed.

Definition rebuilds (f : arrow.Field) : Prop :=
  ∀ n, native_field f = Ok n → arrow_field n = Ok (small_field f).
Definition rebuilds_type (d : arrow.DataType) : Prop :=
  ∀ n, native_data_type d = Ok n → arrow_data_type n = Ok (small_data_type d).

Lemma rebuilds_flat d :
  match d with
  | arrow.List _ | arrow.LargeList _ | arrow.FixedSizeList _ _ | arrow.Struct _ => False
  | _ => True
  end → rebuilds_type d.
Proof.
  intros Hd n Hn. destruct d; try done; simpl in Hn; schema_cases; simplify_eq; try done;
    by destruct unit.
Qed.

Lemma rebuilds_field f : rebuilds f.
Proof.
  induction f as [d Hd|f IH|f IH|f k IH|fs IH|n d b IH] using arrow.Field_nested_ind
    with (P := rebuilds_type).
  - by apply rebuilds_flat.
  - intros n. simpl. intros (c & Hc%IH & [= <-])%bind_Ok. simpl. by rewrite Hc.
  - intros n. simpl. intros (c & Hc%IH & [= <-])%bind_Ok. simpl. by rewrite Hc.
  - intros n. simpl. case_match; [|done]. intros (c & Hc%IH & [= <-])%bind_Ok. simpl. by rewrite Hc.
  - intros n. simpl. intros (cs & Hcs & [= <-])%bind_Ok. simpl.
    by rewrite (collect_roundtrip _ _ small_field _ _ IH Hcs).
  - intros m. simpl. intros (c & Hc%IH & [= <-])%bind_Ok. simpl. by rewrite Hc.
Qed.

(** What the writer builds: small offsets, and readable where the lengths are
    positive. *)
Definition readable_field (f : arrow.Field) : Prop :=
  small_field f = f ∧ (positive_field f = true → ∃ n, native_field f = Ok n).
Definition readable_type (d : arrow.DataType) : Prop :=
  small_data_type d = d ∧ (positive_lengths d = true → ∃ n, native_data_type d = Ok n).

Lemma readable_collect cs fs :
  Forall (λ c, ∀ f, arrow_field c = Ok f → readable_field f) cs →
  collect arrow_field cs = Ok fs → readable_type (arrow.Struct fs).
Proof.
  intros Hcs Hfs%collect_Ok.
  assert (map small_field fs = fs ∧
    (forallb positive_field fs = true → ∃ ns, collect native_field fs = Ok ns)) as [Hs Hn].
  { induction Hfs as [|c f cs fs Hf Hfs IH]; simpl; [by eauto|].
    inversion Hcs as [|? ? Hc Hcs']; subst. destruct (IH Hcs') as [-> Hns].
    destruct (Hc f Hf) as [-> Hn]. split; [done|]. intros [Hp Hps]%andb_true_iff.
    destruct (Hn Hp) as [n ->], (Hns Hps) as [ns ->]. by eexists. }
  split; simpl; [by rewrite Hs|]. intros [ns ->]%Hn. by eexists.
Qed.

Lemma readable_list f :
  readable_field f → readable_type (arrow.List f) ∧ readable_type (arrow.LargeList f) ∧
    ∀ n, readable_type (arrow.FixedSizeList f n).
Proof.
  intros [Hs Hn]. split_and!; [| |intros n]; split; simpl; rewrite ?Hs; try done.
  1, 2: intros [m ->]%Hn; by eexists.
  case_match; [|done]. intros [m ->]%Hn. by eexists.
Qed.

Lemma readable_integer w s d : arrow_integer w s = Ok d → readable_type d.
Proof. unfold arrow_integer. intros H. schema_cases; simplify_eq; split; simpl; eauto. Qed.

Lemma readable_time w u d : arrow_time w u = Ok d → readable_type d.
Proof. unfold arrow_time. intros H. schema_cases; simplify_eq; split; simpl; eauto. Qed.

Lemma readable_decimal w p s d : arrow_decimal w p s = Ok d → readable_type d.
Proof. unfold arrow_decimal. intros H. schema_cases; simplify_eq; split; simpl; eauto. Qed.

#[local] Hint Resolve readable_integer readable_time readable_decimal : parquex.

Lemma readable_descriptor k w s u t p c l cs d :
  Forall (λ c, ∀ f, arrow_field c = Ok f → readable_field f) cs →
  arrow_data_type (mkDataType k w s u t p c l cs) = Ok d → readable_type d.
Proof.
  intros Hcs. cbn [arrow_data_type]. intros H. schema_cases; eauto with parquex;
    try (simplify_eq; split; simpl; by eauto).
  all: try (inversion Hcs as [|? ? Hc ?]; subst; apply Hc, readable_list in H as (? & ? & ?)).
  all: simplify_eq; eauto using readable_collect.
  split; simpl; [done|]. intros ->. by eexists.
Qed.

Lemma writer_readable n f : arrow_field n = Ok f → readable_field f.
Proof.
  revert f. induction n as [k w s u t p c l cs IH|n b d IH] using child_nested_ind
    with (P := λ n, ∀ d, arrow_data_type n = Ok d → readable_type d).
  - intros d Hd. by eapply readable_descriptor.
  - intros f. simpl. intros (d' & Hd & [= <-])%bind_Ok. destruct (IH d' Hd) as [Hs Hn].
    split; simpl; [by rewrite Hs|]. intros [m ->]%Hn. by eexists.
Qed.

Lemma reader_positive f : ∀ n, native_field f = Ok n → positive_field f = true.
Proof.
  induction f as [d Hd|f IH|f IH|f k IH|fs IH|n d b IH] using arrow.Field_nested_ind
    with (P := λ d, ∀ n, native_data_type d = Ok n → positive_lengths d = true).
  - intros n. destruct d; simpl; try done. by case_match.
  - intros n. simpl. intros (c & Hc%IH & _)%bind_Ok. done.
  - intros n. simpl. intros (c & Hc%IH & _)%bind_Ok. done.
  - intros n. simpl. case_match; [|done]. by intros (c & Hc%IH & _)%bind_Ok.
  - intros n. simpl. intros (cs & Hcs%collect_Ok & _)%bind_Ok.
    apply forallb_forall. rewrite <-List.Forall_forall.
    induction Hcs; inversion IH; subst; constructor; eauto.
  - intros m. simpl. intros (c & Hc%IH & _)%bind_Ok. done.
Qed.

(** ** Properties *)

(** C38: a field the reader describes is rebuilt by the writer from its
    description, name, nullability, nesting, widths, units, time zones,
    precisions, scales and lengths included; only the offset width of strings
    and binaries is forgotten. *)
Theorem describe_rebuild f n :
  native_field f = Ok n → arrow_field n = Ok (small_field f).
Proof. apply rebuilds_field. Qed.

Definition event_field : arrow.Field :=
  arrow.mkField "events" (arrow.List (arrow.mkField "item" (arrow.Struct
    [arrow.mkField "at" (arrow.Timestamp Microsecond (Some "UTC"%string)) false;
     arrow.mkField "amount" (arrow.Decimal128 38 (-2)) true;
     arrow.mkField "digest" (arrow.FixedSizeBinary 32) true;
     arrow.mkField "body" arrow.LargeUtf8 true]) true)) false.

Lemma describe_rebuild_witness :
  ∃ n, native_field event_field = Ok n ∧ arrow_field n = Ok (small_field event_field).
Proof. eexists. split; [reflexivity|]. apply (describe_rebuild event_field). reflexivity. Defined.

(** C39: the files the writer makes are readable: a field built from a
    descriptor is described by the reader exactly when its fixed lengths are
    positive, and the description rebuilds the same field.  (A writer opened
    with a fixed length that is not positive is not refused here.) *)
Theorem rebuild_describe n f :
  arrow_field n = Ok f →
  (positive_field f = true ↔ ∃ n', native_field f = Ok n') ∧
  ∀ n', native_field f = Ok n' → arrow_field n' = Ok f.
Proof.
  intros [Hs Hn]%writer_readable. split; [split|].
  - done.
  - intros [n' Hn']. by eapply reader_positive.
  - intros n' Hn'%rebuilds_field. by rewrite Hs in Hn'.
Qed.

Definition sample_descriptor (length : Z) : NativeField :=
  mkNativeField "rows" false (nested_type "struct"
    [mkNativeField "id" false (integer_type 64 false);
     mkNativeField "vector" true
       (mkDataType "fixed_list" None None None None None None (Some length)
          [mkNativeField "item" true (float_type 32)])]).

Lemma rebuild_describe_witness :
  (∃ f, arrow_field (sample_descriptor 3) = Ok f ∧
    (positive_field f = true ↔ ∃ n', native_field f = Ok n') ∧
    ∀ n', native_field f = Ok n' → arrow_field n' = Ok f) ∧
  (∃ f, arrow_field (sample_descriptor 0) = Ok f ∧ native_field f = Err unsupported_read).
Proof.
  split; [|by eexists]. eexists. split; [reflexivity|].
  apply (rebuild_describe (sample_descriptor 3)). reflexivity.
Defined.
