(* ===== verification/Object.v ===== *)
(** * Object: locations, metadata, write policies and the cancellation token

    Models [object.rs]: the vocabulary the two object stores share, and the
    cancellation token.  [check] is a plain read; [cancelled] is an [async]
    function whose two suspension-free steps interleave with [cancel], so it is
    a step relation over [tokio::sync::Notify], an interface here. *)
From S2P Require Import Prelude Errors.

(** ** Data *)

Record ObjectLocation : Set := mkObjectLocation {
  location_key : string;
  allowed_root : option string;
}.

Record ObjectMetadata : Set := mkObjectMetadata {
  path : string;
  size : Z;
  modified_unix_ns : option Z;
}.

Record ByteRange : Set := mkByteRange {
  offset : Z;
  length_ : Z;
}.

Inductive FlushPolicy : Set := FlushNone | EachChunk | BeforePublish.
Inductive SyncPolicy : Set := SyncNone | SyncData | SyncAll.

Record WriteOptions : Set := mkWriteOptions {
  flush : FlushPolicy;
  sync : SyncPolicy;
}.

#[export] Instance FlushPolicy_eq_dec : EqDecision FlushPolicy.
Proof. solve_decision. Defined.
#[export] Instance SyncPolicy_eq_dec : EqDecision SyncPolicy.
Proof. solve_decision. Defined.

(** ** The token *)

(** [CancellationToken::check] on the current value of the flag. *)
Definition check (cancelled : bool) (operation : Operation) : result NativeFailure () :=
  if cancelled then Err (NativeFailure_cancelled operation) else Ok ().

(** [tokio::sync::Notify] as far as the token uses it: [notified] hands out a
    future, [notify_waiters] completes the futures handed out so far, and a
    future is [ready] once completed. *)
Class Notify := {
  notify : Type;
  notified_future : Type;
  notify_default : notify;
  notified : notify → notified_future * notify;
  notify_waiters : notify → notify;
  ready : notify → notified_future → bool;
}.

(** The documented behaviour: [notify_waiters] wakes the futures that exist
    and stores no permit for later ones. *)
Class NotifyLaws `(Notify) := {
  issued : notify → notified_future → Prop;
  notified_issued n : issued (notified n).2 (notified n).1;
  notified_not_ready n : ready (notified n).2 (notified n).1 = false;
  notify_waiters_issued n f : issued n f → issued (notify_waiters n) f;
  notify_waiters_ready n f : issued n f → ready (notify_waiters n) f = true;
}.

Section cancellation.
Context `{NotifyLaws}.

Record CancellationToken : Type := mkToken {
  cancelled_flag : bool;
  notification : notify;
}.

Definition token_default : CancellationToken := mkToken false notify_default.

(** Where a task running [cancel] is: before it, between its two statements,
    after it. *)
Inductive cancel_pc : Set := CancelIdle | CancelStored | CancelDone.

(** Where a task awaiting [cancelled] is: before the load, after a load that
    saw [false], awaiting the future, or returned. *)
Inductive cancelled_pc : Type :=
  | CancelledStart
  | CancelledLoaded
  | CancelledAwaiting (future : notified_future)
  | CancelledReturned.

Record system : Type := mkSystem {
  token : CancellationToken;
  canceller : cancel_pc;
  waiter : cancelled_pc;
}.

Definition system_init : system := mkSystem token_default CancelIdle CancelledStart.

(** One statement of [cancel]. *)
Definition cancel_step (t : CancellationToken) (pc : cancel_pc) :
    option (CancellationToken * cancel_pc) :=
  match pc with
  | CancelIdle => Some (mkToken true (notification t), CancelStored)
  | CancelStored => Some (mkToken (cancelled_flag t) (notify_waiters (notification t)), CancelDone)
  | CancelDone => None
  end.

(** One statement of [cancelled]; [None] is a pending [await]. *)
Definition cancelled_step (t : CancellationToken) (pc : cancelled_pc) :
    option (CancellationToken * cancelled_pc) :=
  match pc with
  | CancelledStart =>
      if cancelled_flag t then Some (t, CancelledReturned) else Some (t, CancelledLoaded)
  | CancelledLoaded =>
      let '(f, n) := notified (notification t) in
      Some (mkToken (cancelled_flag t) n, CancelledAwaiting f)
  | CancelledAwaiting f =>
      if ready (notification t) f then Some (t, CancelledReturned) else None
  | CancelledReturned => None
  end.

Inductive step : system → system → Prop :=
  | step_cancel t c w t' c' :
      cancel_step t c = Some (t', c') → step (mkSystem t c w) (mkSystem t' c' w)
  | step_cancelled t c w t' w' :
      cancelled_step t w = Some (t', w') → step (mkSystem t c w) (mkSystem t' c w').

Definition reachable : system → Prop := rtc step system_init.

(** ** Invariant *)

(** The flag is set as soon as [cancel] has begun; a future awaited before
    [cancel] notifies is one it will wake; a returned waiter saw a
    cancellation. *)
Definition system_invariant (s : system) : Prop :=
  (cancelled_flag (token s) = true ↔ canceller s ≠ CancelIdle) ∧
  match waiter s with
  | CancelledAwaiting f =>
      issued (notification (token s)) f ∧
      (ready (notification (token s)) f = true → canceller s = CancelDone)
  | CancelledReturned => cancelled_flag (token s) = true
  | _ => True
  end.

Lemma system_invariant_step s s' : step s s' → system_invariant s → system_invariant s'.
Proof.
  intros Hs [Hf Hw]. destruct Hs as [t c w t' c' Hs|t c w t' w' Hs];
    [destruct c; simplify_eq/=|destruct w as [| |f|]; simplify_eq/=].
  - split; simpl; [naive_solver|]. destruct w; try done. split; [naive_solver|].
    intros Hr. by apply Hw in Hr.
  - split; simpl; [naive_solver|]. destruct w; try naive_solver.
    split; [apply notify_waiters_issued; naive_solver|done].
  - destruct (cancelled_flag t) eqn:Ht; simplify_eq; split; simpl; try done; by rewrite Ht.
  - pose proof (notified_issued (notification t)) as Hi.
    pose proof (notified_not_ready (notification t)) as Hr.
    destruct (notified (notification t)) as [f n]; simplify_eq/=.
    split; simpl; [done|]. split; [done|congruence].
  - destruct (ready (notification t) f) eqn:Hr; simplify_eq.
    split; simpl; [done|]. apply Hf. destruct Hw as [_ Hc]. by rewrite (Hc eq_refl).
Qed.

Lemma reachable_invariant s : reachable s → system_invariant s.
Proof.
  intros Hs. assert (system_invariant system_init) as Hi by (by split; simpl).
  revert Hi. unfold reachable in Hs. induction Hs; eauto using system_invariant_step.
Qed.

(** ** Properties *)

(** [cancelled] returns only after [cancel] was called: from then on
    [check] of the same token refuses every operation. *)
Theorem cancelled_sound s operation :
  reachable s → waiter s = CancelledReturned →
  canceller s ≠ CancelIdle ∧
  check (cancelled_flag (token s)) operation = Err (NativeFailure_cancelled operation).
Proof.
  intros [Hf Hw]%reachable_invariant Hr. rewrite Hr in Hw. rewrite Hw.
  split; [by apply Hf|done].
Qed.

(** C40: a wake-up can be lost.  [cancelled] loads the flag and only then asks
    for the future; when [cancel] runs to completion in between, the future is
    created after [notify_waiters], and the task waits for ever although the
    token is cancelled. *)
Theorem cancelled_can_wait_forever :
  ∃ s, reachable s ∧ cancelled_flag (token s) = true ∧ canceller s = CancelDone ∧
    waiter s ≠ CancelledReturned ∧ ∀ s', ¬ step s s'.
Proof.
  set (n := notify_waiters notify_default).
  exists (mkSystem (mkToken true (notified n).2) CancelDone (CancelledAwaiting (notified n).1)).
  split_and!; try done.
  - unfold reachable, system_init, token_default.
    eapply rtc_l; [by apply step_cancelled|]. eapply rtc_l; [by apply step_cancel|].
    eapply rtc_l; [by apply step_cancel|]. apply rtc_once. apply step_cancelled. simpl.
    fold n. by destruct (notified n).
  - intros s' Hs. inversion Hs as [|? ? ? ? ? Hw]; subst; [done|]. simpl in Hw.
    by rewrite notified_not_ready in Hw.
Qed.

End cancellation.

(** [Notify] as the number of futures woken and the number pending. *)
Definition CountedNotify : Notify := {|
  notify := nat * nat;
  notified_future := nat;
  notify_default := (0, 0)%nat;
  notified := λ n, (n.1 + n.2, (n.1, S n.2))%nat;
  notify_waiters := λ n, (n.1 + n.2, 0)%nat;
  ready := λ n f, bool_decide (f < n.1)%nat;
|}.

Lemma CountedNotify_laws : NotifyLaws CountedNotify.
Proof.
  exists (λ n f, f < n.1 + n.2)%nat; simpl; intros; try lia.
  - apply bool_decide_eq_false. lia.
  - by apply bool_decide_eq_true.
Qed.

(** A run in which the task is woken: it takes the future before [cancel]. *)
Lemma cancelled_sound_witness :
  let C := CountedNotify in
  let s : system := mkSystem (mkToken true (1, 0)%nat) CancelDone CancelledReturned in
  reachable s ∧
  canceller s ≠ CancelIdle ∧ check (cancelled_flag (token s)) Delete = Err (NativeFailure_cancelled Delete).
Proof.
  intros C s. assert (reachable s) as Hs.
  { eapply rtc_l; [by apply step_cancelled|]. eapply rtc_l; [by apply step_cancelled|].
    eapply rtc_l; [by apply step_cancel|]. eapply rtc_l; [by apply step_cancel|].
    apply rtc_once. by apply step_cancelled. }
  split; [exact Hs|]. apply (@cancelled_sound C CountedNotify_laws s Delete Hs). reflexivity.
Defined.

Lemma cancelled_can_wait_forever_witness :
  let C := CountedNotify in
  ∃ s : system, reachable s ∧ cancelled_flag (token s) = true ∧ canceller s = CancelDone ∧
    waiter s ≠ CancelledReturned ∧ ∀ s', ¬ step s s'.
Proof. apply (@cancelled_can_wait_forever CountedNotify CountedNotify_laws). Defined.
