(* ===== verification/Zstd.v ===== *)
(** * Zstd: one-shot compression and bounded decompression

    Models [zstd.rs].  The [zstd] crate is an interface: a range of levels, a
    bulk compressor, and a streaming decoder seen through [Read] as the bytes
    it delivers and how the stream ends.  The bound on the output and the
    window limit computed from it are the program's own. *)
From S2P Require Import Prelude Errors.

(** ** The [zstd] crate *)

Class ZstdCrate := {
  compression_level_min : Z;
  compression_level_max : Z;
  bulk_compress : bytes → Z → option bytes;
  Decoder : Type;
  Decoder_new : bytes → option Decoder;
  Decoder_window_log_max : Decoder → Z → option Decoder;
  (** Everything reads of the decoder deliver before its end, and whether
      that end is a clean end of stream ([true]) or an error. *)
  decoded : Decoder → bytes * bool;
}.

(** The documented behaviour the round trip relies on: a frame made by bulk
    compression, which records the size of its content, decodes to it under
    every window limit that covers the content, and under the largest one;
    what has been compressed fits in memory. *)
Class ZstdLaws `(ZstdCrate) : Prop := {
  bulk_decodes data level frame w :
    compression_level_min ≤ level ≤ compression_level_max →
    bulk_compress data level = Some frame →
    10 ≤ w ≤ 31 → len data ≤ 2 ^ w ∨ w = 31 →
    ∃ d d', Decoder_new frame = Some d ∧ Decoder_window_log_max d w = Some d' ∧
      decoded d' = (data, true);
}.

(** ** The code *)

(** [u64::leading_zeros] (of [usize], 64 bits). *)
Definition leading_zeros (n : Z) : Z :=
  if n =? 0 then usize_bits else usize_bits - 1 - Z.log2 n.

Definition window_log_max (max_output_size : Z) : Z :=
  let required_bits := usize_bits - leading_zeros (usize_saturating_sub max_output_size 1) in
  Z.min (Z.max required_bits 10) 31.

Definition malformed_data : NativeFailure :=
  NativeFailure_new MalformedData ZstdDecompress "input is not a valid zstd frame".

Definition size_invalid : NativeFailure :=
  NativeFailure_invalid ZstdDecompress "max_output_size is outside the supported range".

Definition output_exceeds : NativeFailure :=
  NativeFailure_invalid ZstdDecompress "decompressed data exceeds max_output_size".

(** [reader.take(limit).read_to_end(&mut Vec::new())]: once [limit] bytes are
    delivered the reader is not asked again, so its end is not seen. *)
Definition take_read_to_end (limit : Z) (stream : bytes * bool) : option bytes :=
  let '(data, clean) := stream in
  if limit <=? len data then Some (take_bytes limit data)
  else if clean then Some data else None.

Section zstd.
Context `{ZstdCrate}.

Definition compress (data : bytes) (level : Z) : result NativeFailure bytes :=
  if negb ((compression_level_min <=? level) && (level <=? compression_level_max)) then
    Err (NativeFailure_invalid ZstdCompress "zstd compression level is outside the supported range")
  else ok_or (bulk_compress data level) (NativeFailure_expected ZstdCompress "zstd compression failed").

Definition decompress (data : bytes) (max_output_size : Z) : result NativeFailure bytes :=
  decoder ← ok_or (Decoder_new data) malformed_data;
  decoder ← ok_or (Decoder_window_log_max decoder (window_log_max max_output_size)) malformed_data;
  read_limit ← ok_or (l ← u64_try_from max_output_size; u64_checked_add l 1) size_invalid;
  output ← ok_or (take_read_to_end read_limit (decoded decoder)) malformed_data;
  if max_output_size <? len output then Err output_exceeds else Ok output.

(** ** Lemmas *)

Lemma window_log_max_bits n :
  0 ≤ n ≤ usize_max →
  usize_bits - leading_zeros n = if n =? 0 then 0 else Z.log2 n + 1.
Proof. intros. unfold leading_zeros. destruct (n =? 0); int_bounds; lia. Qed.

Lemma window_log_max_range m : 10 ≤ window_log_max m ≤ 31.
Proof. unfold window_log_max. lia. Qed.

Lemma window_log_max_covers m :
  0 ≤ m ≤ usize_max → m ≤ 2 ^ window_log_max m ∨ window_log_max m = 31.
Proof.
  intros Hm. unfold window_log_max.
  assert (0 ≤ usize_saturating_sub m 1 ≤ usize_max) as Hn by (int_bounds; lia).
  rewrite window_log_max_bits by done.
  set (n := usize_saturating_sub m 1) in *. assert (m ≤ n + 1) by (unfold n; int_bounds; lia).
  destruct (Z.eqb_spec n 0) as [->|Hn0]; [left; cbn; lia|].
  assert (n < 2 ^ (Z.log2 n + 1)) by (apply Z.log2_spec; lia).
  destruct (decide (31 ≤ Z.log2 n + 1)); [right; lia|left].
  transitivity (2 ^ (Z.log2 n + 1)); [lia|]. apply Z.pow_le_mono_r; lia.
Qed.

Lemma read_limit_Some m l :
  (l' ← u64_try_from m; u64_checked_add l' 1) = Some l ↔ l = m + 1 ∧ 0 ≤ m < usize_max.
Proof.
  unfold u64_try_from at 1. destruct (try_from 0 u64_max m) as [k|] eqn:Hk.
  - apply try_from_Some in Hk as [-> Hk]. simpl. unfold u64_checked_add, u64_try_from.
    rewrite try_from_Some. int_bounds. naive_solver lia.
  - apply try_from_None in Hk. simpl. int_bounds. naive_solver lia.
Qed.

Lemma take_read_to_end_fits stream m out :
  0 ≤ m → take_read_to_end (m + 1) stream = Some out →
  (len out ≤ m ↔ stream = (out, true) ∧ len out ≤ m).
Proof.
  intros Hm. destruct stream as [data clean]. simpl.
  destruct (Z.leb_spec (m + 1) (len data)).
  - intros [= <-]. rewrite len_take_bytes by lia. split; [lia|].
    intros [[= -> _] Ho]. rewrite len_take_bytes in Ho by lia. lia.
  - destruct clean; [|done]. intros [= ->]. naive_solver.
Qed.

Lemma decompress_Err data m e :
  decompress data m = Err e → e = malformed_data ∨ e = size_invalid ∨ e = output_exceeds.
Proof.
  unfold decompress. rewrite bind_Err. intros [[_ ?]%ok_or_Err|(d & _ & He)]; [by left|].
  apply bind_Err in He as [[_ ?]%ok_or_Err|(d' & _ & He)]; [by left|].
  apply bind_Err in He as [[_ ?]%ok_or_Err|(l & _ & He)]; [by right; left|].
  apply bind_Err in He as [[_ ?]%ok_or_Err|(o & _ & He)]; [by left|].
  case_match; simplify_eq. by right; right.
Qed.

(** ** Properties *)

(** C37: decompression is all or nothing: it returns exactly the bytes of a
    stream that ends cleanly and fits in [max_output_size], never a prefix of
    a longer or a broken one. *)
Theorem decompress_exact data m out :
  0 ≤ m ≤ usize_max →
  decompress data m = Ok out ↔
  m < usize_max ∧ len out ≤ m ∧
  ∃ d d', Decoder_new data = Some d ∧ Decoder_window_log_max d (window_log_max m) = Some d' ∧
    decoded d' = (out, true).
Proof.
  intros Hm. unfold decompress. rewrite !bind_Ok. split.
  - intros (d & Hd & Hk). inv_result. rewrite read_limit_Some in *. destruct_and!. subst.
    destruct (Z.ltb_spec m (len x1)); [done|]. inv_result. subst.
    split_and!; [done..|]. exists d, x. split_and!; [done..|].
    eapply take_read_to_end_fits; eauto; lia.
  - intros (Hlt & Hlen & d & d' & -> & Hd' & Hdec). exists d. split; [done|].
    rewrite Hd'. cbn [ok_or mbind result_bind].
    destruct (_ ← u64_try_from m; _) as [l|] eqn:Hl.
    2: { assert (None = Some (m + 1)) as []%not_eq_sym; [|done].
         rewrite <-Hl. apply read_limit_Some. lia. }
    apply read_limit_Some in Hl as [-> _]. rewrite Hdec. cbn [ok_or mbind result_bind take_read_to_end].
    destruct (Z.leb_spec (m + 1) (len out)); [lia|]. cbn [ok_or mbind result_bind].
    destruct (Z.ltb_spec m (len out)); [lia|done].
Qed.

(** What was compressed decompresses to the same bytes under every bound
    that is at least its size (and not the very last [usize]); in particular
    the window limit derived from the bound never rejects such a frame. *)
Theorem decompress_compress `{!ZstdLaws _} data level frame m :
  compress data level = Ok frame →
  len data ≤ m < usize_max →
  decompress frame m = Ok data.
Proof.
  unfold compress. destruct (_ && _) eqn:Hl; [|done]. simpl. intros Hf%ok_or_Ok [Hm Hmax].
  pose proof (len_nonneg data).
  destruct (bulk_decodes data level frame (window_log_max m)) as (d & d' & Hd & Hd' & Hdec);
    [lia|done|apply window_log_max_range| |].
  - destruct (window_log_max_covers m); [lia|left; lia|by right].
  - unfold decompress. rewrite Hd. cbn [ok_or mbind result_bind]. rewrite Hd'.
    cbn [ok_or mbind result_bind].
    assert ((l ← u64_try_from m; u64_checked_add l 1) = Some (m + 1)) as ->
      by (apply read_limit_Some; lia).
    rewrite Hdec. cbn [ok_or mbind result_bind take_read_to_end].
    destruct (Z.leb_spec (m + 1) (len data)); [lia|]. cbn [ok_or mbind result_bind].
    destruct (Z.ltb_spec m (len data)); [lia|done].
Qed.

(** The window limit is the least one between 10 and 31 bits that covers
    the bound on the output, and 31 bits where none does. *)
Theorem window_log_max_least m w :
  0 ≤ m ≤ usize_max → 10 ≤ w ≤ 31 →
  window_log_max m ≤ w ↔ m ≤ 2 ^ w ∨ w = 31.
Proof.
  intros Hm Hw. split.
  - intros Hle. destruct (window_log_max_covers m Hm) as [H'|]; [|right; lia].
    left. transitivity (2 ^ window_log_max m); [done|]. apply Z.pow_le_mono_r; lia.
  - intros [Hle| ->]; [|unfold window_log_max; lia]. unfold window_log_max.
    assert (0 ≤ usize_saturating_sub m 1 ≤ usize_max) as Hn by (int_bounds; lia).
    rewrite window_log_max_bits by done. destruct (Z.eqb_spec (usize_saturating_sub m 1) 0); [lia|].
    assert (Z.log2 (usize_saturating_sub m 1) < w); [|lia].
    apply Z.log2_lt_pow2; int_bounds; lia.
Qed.

(** Decompression fails only in three ways, none retryable: the input is
    malformed, or the output or its bound is too large, and a bound below
    [usize::MAX] is never itself the reason. *)
Theorem decompress_errors data m e :
  0 ≤ m ≤ usize_max → decompress data m = Err e →
  operation e = ZstdDecompress ∧ retryable e = false ∧
  (category e = MalformedData ∨ category e = InvalidArgument) ∧
  (e = size_invalid → m = usize_max).
Proof.
  intros Hm He. assert (e = size_invalid → m = usize_max) as Hs.
  { intros ->. unfold decompress in He.
    apply bind_Err in He as [[_ ?]%ok_or_Err|(d & _ & He)]; [done|].
    apply bind_Err in He as [[_ ?]%ok_or_Err|(d' & _ & He)]; [done|].
    destruct (decide (m = usize_max)); [done|exfalso].
    assert ((l ← u64_try_from m; u64_checked_add l 1) = Some (m + 1)) as Hl
      by (apply read_limit_Some; lia).
    rewrite Hl in He. cbn [ok_or mbind result_bind] in He.
    apply bind_Err in He as [[_ ?]%ok_or_Err|(o & _ & He)]; [done|]. by case_match. }
  destruct (decompress_Err _ _ _ He) as [->|[->| ->]]; split_and!; auto.
Qed.

End zstd.

(** ** A concrete codec

    [stored] prefixes the data with the first byte of the magic number and
    honours the window limit. *)
Definition stored : ZstdCrate := {|
  compression_level_min := -7;
  compression_level_max := 22;
  bulk_compress := λ data _, Some ("("%byte :: data);
  Decoder := bytes * Z;
  Decoder_new := λ frame, match frame with "("%byte :: data => Some (data, 31) | _ => None end;
  Decoder_window_log_max := λ d w, if (10 <=? w) && (w <=? 31) then Some (d.1, w) else None;
  decoded := λ d, if (len d.1 <=? 2 ^ d.2) || (31 <=? d.2) then (d.1, true) else ([], false);
|}.

Lemma stored_laws : ZstdLaws stored.
Proof.
  constructor. intros data level frame w _ [= <-] Hw Hfit. simpl.
  exists (data, 31), (data, w). split; [done|].
  destruct (Z.leb_spec 10 w), (Z.leb_spec w 31); try lia. split; [done|]. simpl.
  destruct (Z.leb_spec (len data) (2 ^ w)), (Z.leb_spec 31 w); simpl; lia || done.
Qed.

Definition sample_data : bytes := ["a"; "b"; "c"; "d"]%byte.

Lemma decompress_exact_witness :
  decompress (H := stored) ("("%byte :: sample_data) 4 = Ok sample_data ↔
  4 < usize_max ∧ len sample_data ≤ 4 ∧
  ∃ d d', Decoder_new (ZstdCrate := stored) ("("%byte :: sample_data) = Some d ∧
    Decoder_window_log_max d (window_log_max 4) = Some d' ∧ decoded d' = (sample_data, true).
Proof. apply (@decompress_exact stored). int_bounds. lia. Defined.

Example decompress_bound :
  decompress (H := stored) ("("%byte :: sample_data) 3 = Err output_exceeds.
Proof. reflexivity. Qed.

Lemma decompress_compress_witness :
  ∃ frame, compress (H := stored) sample_data 3 = Ok frame ∧
    decompress (H := stored) frame 4 = Ok sample_data.
Proof.
  eexists. split; [reflexivity|].
  apply (@decompress_compress stored stored_laws sample_data 3); [reflexivity|].
  vm_compute. by split.
Defined.

Lemma window_log_max_least_witness :
  window_log_max 4096 ≤ 12 ↔ 4096 ≤ 2 ^ 12 ∨ 12 = 31.
Proof. apply (window_log_max_least 4096 12); int_bounds; lia. Defined.

Lemma decompress_errors_witness :
  operation malformed_data = ZstdDecompress ∧ retryable malformed_data = false ∧
  (category malformed_data = MalformedData ∨ category malformed_data = InvalidArgument) ∧
  (malformed_data = size_invalid → 1024 = usize_max).
Proof.
  apply (@decompress_errors stored ["n"; "o"]%byte 1024); [int_bounds; lia|reflexivity].
Defined.
