(* ===== verification/ChunkReader.v ===== *)
(** * ChunkReader: bounded range reads of an object

    Models the chunk reader of [reader.rs], through which the Parquet decoder
    sees an object: [ObjectChunkReader::get_bytes] and [get_read], the
    [ObjectCursor] it hands out, and the range counters.  The store behind it
    is an interface ([RangeStore]); [honest] states what a store promises of an
    object that does not change while it is read. *)
From S2P Require Import Prelude Errors Object.

(** ** The store *)

(** [StoreResource::head] and [read_range], with the state of the store. *)
Class RangeStore := {
  StoreResource : Type;
  StoreState : Type;
  store_head : StoreResource → string → StoreState → result NativeFailure ObjectMetadata * StoreState;
  store_read_range : StoreResource → string → Z → Z → StoreState →
    result NativeFailure bytes * StoreState;
}.

(** ** Data *)

(** [RangeMetrics]: three relaxed [AtomicU64]s. *)
Record RangeMetrics : Set := mkRangeMetrics {
  requests : Z;
  range_bytes : Z;
  max_request_bytes : Z;
}.

Definition RangeMetrics_default : RangeMetrics := mkRangeMetrics 0 0 0.

Definition record (m : RangeMetrics) (n : Z) : RangeMetrics :=
  mkRangeMetrics (usize_wrap (requests m + 1)) (usize_wrap (range_bytes m + n))
    (Z.max (max_request_bytes m) n).

Inductive ParquetError : Set :=
  | EOF (message : string)
  | General (message : string).

(** [io::Error::other]. *)
Inductive IoError : Set := IoOther (message : string).

Section chunks.
Context `{RangeStore}.

Record ChunkBackend : Type := mkChunkBackend {
  store : StoreResource;
  key : string;
}.

Record ObjectChunkReader : Type := mkObjectChunkReader {
  backend : ChunkBackend;
  object_size : Z;
  max_range_bytes : Z;
}.

Record ObjectCursor : Type := mkObjectCursor {
  cursor_reader : ObjectChunkReader;
  cursor_position : Z;
}.

(** What the reads of a chunk reader share and change: the cancellation flag
    (only read here), the counters and the store. *)
Record shared : Type := mkShared {
  shared_cancelled : bool;
  shared_metrics : RangeMetrics;
  shared_store : StoreState;
}.

Definition set_store (e : shared) (s : StoreState) : shared :=
  mkShared (shared_cancelled e) (shared_metrics e) s.
Definition record_range (e : shared) (n : Z) : shared :=
  mkShared (shared_cancelled e) (record (shared_metrics e) n) (shared_store e).

(** ** Operations *)

(** [ChunkBackend::read_range]. *)
Definition backend_read_range (b : ChunkBackend) (offset length : Z) (e : shared) :
    result NativeFailure bytes * shared :=
  match check (shared_cancelled e) ReaderNext with
  | Err f => (Err f, e)
  | Ok _ =>
      let '(res, s) := store_read_range (store b) (key b) offset length (shared_store e) in
      (res, set_store e s)
  end.

Definition parquet_object_error (_ : NativeFailure) : ParquetError :=
  General "bounded object range failed".

Definition object_io_error (_ : NativeFailure) : IoError :=
  IoOther "bounded object range failed".

(** [Length::len]. *)
Definition chunk_len (r : ObjectChunkReader) : Z := object_size r.

Definition get_read (r : ObjectChunkReader) (start : Z) : result ParquetError ObjectCursor :=
  if object_size r <? start then Err (EOF "range begins beyond the object")
  else Ok (mkObjectCursor r start).

Definition get_bytes (r : ObjectChunkReader) (start length : Z) (e : shared) :
    result ParquetError bytes * shared :=
  if max_range_bytes r <? length then
    (Err (General "Parquet page or metadata exceeds the configured range bound"), e)
  else
    match u64_checked_add start length with
    | None => (Err (EOF "range overflow"), e)
    | Some end_ =>
        if object_size r <? end_ then (Err (EOF "range exceeds the object"), e)
        else
          let '(res, e) := backend_read_range (backend r) start length e in
          match res with
          | Err f => (Err (parquet_object_error f), e)
          | Ok data =>
              if negb (len data =? length) then (Err (EOF "range was truncated"), e)
              else (Ok data, record_range e (len data))
          end
    end.

(** [Read for ObjectCursor], given the length of the buffer: the bytes copied
    to its front, with the moved cursor.  Copying more bytes than the buffer
    holds panics. *)
Definition cursor_read (c : ObjectCursor) (buffer_len : Z) (e : shared) :
    run (result IoError bytes) * ObjectCursor * shared :=
  let r := cursor_reader c in
  if (buffer_len =? 0) || (cursor_position c =? object_size r) then (Returned (Ok []), c, e)
  else
    let available := usize_wrap (object_size r - cursor_position c) in
    let length := Z.min (Z.min buffer_len (max_range_bytes r))
                    (default usize_max (usize_try_from available)) in
    let '(res, e) := backend_read_range (backend r) (cursor_position c) length e in
    match res with
    | Err f => (Returned (Err (object_io_error f)), c, e)
    | Ok data =>
        if buffer_len <? len data then (Panicked, c, e)
        else (Returned (Ok data), mkObjectCursor r (usize_wrap (cursor_position c + len data)),
              record_range e (len data))
    end.

(** ** Specification *)

(** The promise of a store about one object, as long as the store stays in the
    states [stable]: a range that begins in the object is answered with the
    bytes that are there, or with an error. *)
Definition honest (b : ChunkBackend) (contents : bytes) (stable : StoreState → Prop) : Prop :=
  ∀ offset length s, stable s → 0 ≤ offset ≤ len contents → 0 ≤ length →
    let '(res, s') := store_read_range (store b) (key b) offset length s in
    stable s' ∧ match res with
      | Ok data => data = take_bytes length (skip_bytes offset contents)
      | Err _ => True
      end.

(** ... and always with the bytes. *)
Definition reliable (b : ChunkBackend) (contents : bytes) (stable : StoreState → Prop) : Prop :=
  ∀ offset length s, stable s → 0 ≤ offset ≤ len contents → 0 ≤ length →
    (store_read_range (store b) (key b) offset length s).1 = Ok (take_bytes length (skip_bytes offset contents)).

(** A store never returns more than it was asked for. *)
Definition frugal (b : ChunkBackend) : Prop :=
  ∀ offset length s data s', 0 ≤ length →
    store_read_range (store b) (key b) offset length s = (Ok data, s') → len data ≤ length.

(** A chunk reader over an object: its size is the object's, and its bound lets
    reads make progress. *)
Record reads_object (r : ObjectChunkReader) (contents : bytes) (stable : StoreState → Prop) : Prop := {
  reads_honest : honest (backend r) contents stable;
  reads_size : object_size r = len contents;
  reads_u64 : len contents ≤ u64_max;
  reads_bound : 1 ≤ max_range_bytes r ≤ usize_max;
}.

(** Reading a cursor with one buffer until it reports the end: the bytes seen,
    and whether the end was reached ([None] is out of fuel). *)
Fixpoint read_to_end (fuel : nat) (c : ObjectCursor) (buffer_len : Z) (e : shared) :
    option (run (bytes * bool * shared)) :=
  match fuel with
  | O => None
  | S fuel =>
      match cursor_read c buffer_len e with
      | (Panicked, _, _) => Some Panicked
      | (Returned (Err _), _, e) => Some (Returned ([], false, e))
      | (Returned (Ok []), _, e) => Some (Returned ([], true, e))
      | (Returned (Ok data), c, e) =>
          match read_to_end fuel c buffer_len e with
          | Some (Returned (rest, b, e)) => Some (Returned (data ++ rest, b, e))
          | o => o
          end
      end
  end.

(** The store is stable, and no request so far was longer than the bound. *)
Definition bounded_requests (r : ObjectChunkReader) (stable : StoreState → Prop) (e : shared) : Prop :=
  stable (shared_store e) ∧ max_request_bytes (shared_metrics e) ≤ max_range_bytes r.

(** ** Lemmas *)

Lemma backend_read_honest r contents stable offset length e res e' :
  reads_object r contents stable → stable (shared_store e) → 0 ≤ offset ≤ len contents → 0 ≤ length →
  backend_read_range (backend r) offset length e = (res, e') →
  shared_metrics e' = shared_metrics e ∧ stable (shared_store e') ∧
  match res with Ok data => data = take_bytes length (skip_bytes offset contents) | Err _ => True end.
Proof.
  intros Hr Hst Ho Hl. unfold backend_read_range. destruct (check _ _); [|by intros [= <- <-]].
  pose proof (reads_honest _ _ _ Hr offset length (shared_store e) Hst Ho Hl) as Hh.
  destruct (store_read_range _ _ _ _ _) as [res0 s]. by intros [= <- <-].
Qed.

Lemma cursor_read_spec c contents stable n e :
  reads_object (cursor_reader c) contents stable → 0 ≤ cursor_position c ≤ len contents → 0 < n →
  bounded_requests (cursor_reader c) stable e →
  ∃ res c' e', cursor_read c n e = (Returned res, c', e') ∧
    cursor_reader c' = cursor_reader c ∧ bounded_requests (cursor_reader c) stable e' ∧
    match res with
    | Err _ => cursor_position c' = cursor_position c
    | Ok data =>
        cursor_position c' = cursor_position c + len data ∧ cursor_position c' ≤ len contents ∧
        len data ≤ n ∧ len data ≤ max_range_bytes (cursor_reader c) ∧
        skip_bytes (cursor_position c) contents = data ++ skip_bytes (cursor_position c') contents ∧
        (data = [] → cursor_position c = len contents)
    end.
Proof.
  intros Hr Hp Hn Hb. unfold cursor_read.
  pose proof (reads_size _ _ _ Hr) as Hs. pose proof (reads_u64 _ _ _ Hr) as Hu.
  pose proof (reads_bound _ _ _ Hr) as Hmax.
  destruct (Z.eqb_spec n 0); [lia|]. simpl. destruct (Z.eqb_spec (cursor_position c) (object_size (cursor_reader c))).
  { eexists (Ok []), c, e. split_and!; rewrite ?len_nil; try done; lia. }
  assert (usize_wrap (object_size (cursor_reader c) - cursor_position c) = len contents - cursor_position c) as Hw.
  { rewrite Hs. apply usize_wrap_in. int_bounds. lia. }
  rewrite Hw.
  assert (usize_try_from (len contents - cursor_position c) = Some (len contents - cursor_position c)) as ->.
  { apply try_from_in. int_bounds. lia. }
  simpl. set (k := Z.min (Z.min n (max_range_bytes (cursor_reader c))) (len contents - cursor_position c)).
  destruct (backend_read_range _ _ k e) as [res e'] eqn:Hread.
  destruct Hb as [Hst Hb].
  apply (backend_read_honest _ contents stable) in Hread as (Hm & Hst' & Hres); [|done|done|lia|lia].
  assert (bounded_requests (cursor_reader c) stable e') as Hb' by (unfold bounded_requests; by rewrite Hm).
  destruct res as [data|f]; [|by eexists (Err _), c, e'].
  assert (len data = k) as Hk.
  { rewrite Hres, len_take_bytes, len_skip_bytes by lia. lia. }
  destruct (Z.ltb_spec n (len data)); [lia|].
  eexists (Ok data), _, _. split; [done|]. simpl. rewrite usize_wrap_in by (int_bounds; lia).
  split_and!; try done; try lia.
  - unfold bounded_requests, record_range. simpl. unfold bounded_requests in Hb'. split; [done|lia].
  - rewrite <-(take_skip_bytes k (skip_bytes (cursor_position c) contents)) at 1. rewrite <-Hres. f_equal.
    rewrite skip_skip_bytes by lia. f_equal. lia.
  - intros ->. rewrite len_nil in Hk. unfold k in Hk. lia.
Qed.

Lemma read_to_end_spec fuel c contents stable n e :
  reads_object (cursor_reader c) contents stable → 0 ≤ cursor_position c ≤ len contents → 0 < n →
  bounded_requests (cursor_reader c) stable e →
  len contents - cursor_position c + 2 ≤ Z.of_nat fuel →
  ∃ seen b e', read_to_end fuel c n e = Some (Returned (seen, b, e')) ∧
    bounded_requests (cursor_reader c) stable e' ∧
    if b : bool then seen = skip_bytes (cursor_position c) contents
    else ∃ rest, skip_bytes (cursor_position c) contents = seen ++ rest.
Proof.
  revert c e. induction fuel as [|fuel IH]; intros c e Hr Hp Hn Hb Hfuel; [lia|].
  destruct (cursor_read_spec c contents stable n e Hr Hp Hn Hb) as (res & c' & e' & Hread & Hc & Hb' & Hres).
  cbn [read_to_end]. rewrite Hread. destruct res as [data|f].
  2: { eexists [], false, e'. split_and!; [done..|]. by eexists. }
  destruct Hres as (Hpos & Hle & _ & _ & Hskip & Hend). destruct data as [|x data].
  - eexists [], true, e'. split_and!; [done..|]. rewrite Hskip. simpl.
    rewrite Hpos, len_nil, Hend by done. unfold skip_bytes. rewrite drop_ge; [done|].
    unfold len in *. simpl. lia.
  - rewrite len_cons in Hpos. pose proof (len_nonneg data).
    rewrite <-Hc in Hr, Hb'. destruct (IH c' e' Hr ltac:(lia) Hn Hb' ltac:(lia))
      as (seen & b & e2 & -> & Hb2 & Hseen). rewrite Hc in Hb2.
    eexists _, b, e2. split_and!; [done..|]. rewrite Hskip.
    destruct b; [by rewrite Hseen|]. destruct Hseen as [rest ->]. exists rest. by rewrite app_assoc.
Qed.

(** ** Properties *)

(** A page or footer read returns exactly the requested bytes of the
    object or an error, is recorded once, and never reaches the store when it
    exceeds the range bound or the end of the object. *)
Theorem get_bytes_exact r contents stable start length e :
  reads_object r contents stable → stable (shared_store e) → 0 ≤ start → 0 ≤ length →
  let '(res, e') := get_bytes r start length e in
  match res with
  | Ok data =>
      length ≤ max_range_bytes r ∧ start + length ≤ len contents ∧ len data = length ∧
      data = take_bytes length (skip_bytes start contents) ∧
      shared_metrics e' = record (shared_metrics e) length
  | Err _ => shared_metrics e' = shared_metrics e
  end ∧
  (max_range_bytes r < length ∨ len contents < start + length → e' = e ∧ ∃ err, res = Err err).
Proof.
  intros Hr Hst Hs Hl. pose proof (reads_size _ _ _ Hr) as Hsize. unfold get_bytes.
  destruct (Z.ltb_spec (max_range_bytes r) length); [by eauto|].
  destruct (u64_checked_add start length) as [end_|] eqn:Hadd; [|by eauto].
  apply try_from_Some in Hadd as [-> _].
  destruct (Z.ltb_spec (object_size r) (start + length)); [by eauto|].
  destruct (backend_read_range _ _ _ e) as [res e'] eqn:Hread.
  apply (backend_read_honest _ contents stable) in Hread as (Hm & _ & Hres); [|done|done|lia|lia].
  destruct res as [data|f]; [|split; [done|lia]].
  destruct (Z.eqb_spec (len data) length) as [Hlen|]; simpl; [|split; [done|lia]].
  split; [|lia]. split_and!; try done; try lia. by rewrite Hm, Hlen.
Qed.

(** C29: reading a cursor to its end, whatever the size of the buffer, ends
    and never panics: it delivers the rest of the object from the start of the
    cursor in order, or stops at a failed read with a prefix of it, and no
    single request is longer than the bound. *)
Theorem cursor_reads_rest r contents stable start n e c :
  reads_object r contents stable → 0 ≤ start → 0 < n → bounded_requests r stable e →
  get_read r start = Ok c →
  ∃ fuel seen b e', read_to_end fuel c n e = Some (Returned (seen, b, e')) ∧
    bounded_requests r stable e' ∧
    if b : bool then seen = skip_bytes start contents
    else ∃ rest, skip_bytes start contents = seen ++ rest.
Proof.
  intros Hr Hs Hn Hb. unfold get_read. destruct (Z.ltb_spec (object_size r) start); [done|].
  intros [= <-]. pose proof (reads_size _ _ _ Hr).
  exists (Z.to_nat (len contents - start + 2)).
  apply (read_to_end_spec _ (mkObjectCursor r start) contents stable n e); simpl; try done; lia.
Qed.

End chunks.

(** ** A store with one object in memory, whose state counts the reads *)

Definition OneObject (contents : bytes) : RangeStore := {|
  StoreResource := ();
  StoreState := nat;
  store_head _ k s := (Ok (mkObjectMetadata k (len contents) None), s);
  store_read_range _ _ offset length s :=
    (if len contents <? offset then Err (NativeFailure_invalid ReadRange "range offset is beyond end of object")
     else Ok (take_bytes length (skip_bytes offset contents)), S s);
|}.

Definition sample_object : bytes := ["P"; "A"; "R"; "1"; "x"; "y"; "z"]%byte.

Definition sample_chunks (max : Z) : ObjectChunkReader (H := OneObject sample_object) :=
  mkObjectChunkReader (mkChunkBackend (H := OneObject sample_object) () "k") 7 max.

Definition sample_shared : shared (H := OneObject sample_object) :=
  mkShared (H := OneObject sample_object) false RangeMetrics_default 0%nat.

Lemma sample_reads max : 1 ≤ max ≤ usize_max → reads_object (sample_chunks max) sample_object (λ _, True).
Proof.
  intros Hm. constructor; try done.
  intros offset length s _ Ho Hl. simpl. split; [done|]. by destruct (Z.ltb_spec (len sample_object) offset).
Qed.

Lemma get_bytes_exact_witness :
  let '(res, e') := get_bytes (sample_chunks 4) 4 3 sample_shared in
  res = Ok ["x"; "y"; "z"]%byte ∧ shared_metrics e' = mkRangeMetrics 1 3 3 ∧
  (4 < 3 ∨ 7 < 7 → e' = sample_shared ∧ ∃ err, res = Err err).
Proof.
  pose proof (get_bytes_exact (sample_chunks 4) sample_object (λ _, True) 4 3 sample_shared
    (sample_reads 4 ltac:(int_bounds; lia)) I ltac:(lia) ltac:(lia)) as [_ Hguard].
  split; [reflexivity|]. split; [reflexivity|exact Hguard].
Defined.

Lemma cursor_reads_rest_witness :
  get_read (sample_chunks 2) 1 = Ok (mkObjectCursor (sample_chunks 2) 1) ∧
  ∃ fuel seen b e', read_to_end fuel (mkObjectCursor (sample_chunks 2) 1) 5 sample_shared
      = Some (Returned (seen, b, e')) ∧ bounded_requests (sample_chunks 2) (λ _, True) e' ∧
    if b : bool then seen = ["A"; "R"; "1"; "x"; "y"; "z"]%byte
    else ∃ rest, ["A"; "R"; "1"; "x"; "y"; "z"]%byte = seen ++ rest.
Proof.
  split; [reflexivity|].
  apply (cursor_reads_rest (sample_chunks 2) sample_object (λ _, True) 1 5 sample_shared); try lia.
  - apply sample_reads. int_bounds. lia.
  - split; [done|]. simpl. lia.
  - reflexivity.
Defined.
