(* ===== verification/Decoder.v ===== *)
(** * Decoder: what the Parquet decoder does with an object

    The decoder sees an object only through the chunk reader it is given, so
    that an operation of it is an interaction tree ([reading]): requests for
    bytes and for cursors, each with its answers, ending in an outcome.
    [play_reads] runs a tree on the chunk reader of [ChunkReader], threading
    the open cursors, the cancellation token, the range counters and the
    store.  [view] is the same run on the bytes of an object alone;
    [play_faithful] relates the two. *)
From S2P Require Import Prelude Errors Object ChunkReader.

(** ** Trees *)

(** What a function generic over [ChunkReader] may do before it returns.  A
    cursor is named by its place among those opened so far. *)
Inductive reading (A : Type) : Type :=
  | Got (a : A)
  | GetBytes (start length : N) (continue : result ParquetError bytes → reading A)
  | GetRead (start : N) (continue : result ParquetError nat → reading A)
  | ReadCursor (cursor : nat) (buffer_len : N) (continue : result IoError bytes → reading A).
Arguments Got {A} a.
Arguments GetBytes {A} start length continue.
Arguments GetRead {A} start continue.
Arguments ReadCursor {A} cursor buffer_len continue.

(** No run ends well; and: a run that meets an error does not end well. *)
Fixpoint never_got {A} (good : A → bool) (t : reading A) : Prop :=
  match t with
  | Got a => good a = false
  | GetBytes _ _ k => ∀ r, never_got good (k r)
  | GetRead _ k => ∀ r, never_got good (k r)
  | ReadCursor _ _ k => ∀ r, never_got good (k r)
  end.

Fixpoint reports_read {A} (good : A → bool) (t : reading A) : Prop :=
  match t with
  | Got _ => True
  | GetBytes _ _ k => (∀ e, never_got good (k (Err e))) ∧ ∀ data, reports_read good (k (Ok data))
  | GetRead _ k => (∀ e, never_got good (k (Err e))) ∧ ∀ i, reports_read good (k (Ok i))
  | ReadCursor _ _ k => (∀ e, never_got good (k (Err e))) ∧ ∀ data, reports_read good (k (Ok data))
  end.

(** Every run reads cursors it has opened ([n] are open) and ends in [post]. *)
Fixpoint ensures {A} (post : nat → A → Prop) (n : nat) (t : reading A) : Prop :=
  match t with
  | Got a => post n a
  | GetBytes _ _ k => ∀ r, ensures post n (k r)
  | GetRead _ k => ensures post (S n) (k (Ok n)) ∧ ∀ e, ensures post n (k (Err e))
  | ReadCursor i _ k => (i < n)%nat ∧ ∀ r, ensures post n (k r)
  end.

(** ** Running a tree *)

(** ... on the bytes of an object: [None] when it asks for what is not there
    or for more than [max] at once.  A cursor is its position. *)
Fixpoint view {A} (contents : bytes) (max : Z) (positions : list Z) (t : reading A) : option (A * list Z) :=
  match t with
  | Got a => Some (a, positions)
  | GetBytes start length k =>
      let start := Z.of_N start in let length := Z.of_N length in
      if (length <=? max) && (start + length <=? len contents)
      then view contents max positions (k (Ok (take_bytes length (skip_bytes start contents)))) else None
  | GetRead start k =>
      let start := Z.of_N start in
      if start <=? len contents
      then view contents max (positions ++ [start]) (k (Ok (length positions))) else None
  | ReadCursor i n k =>
      p ← positions !! i;
      let data := take_bytes (Z.min (Z.of_N n) max) (skip_bytes p contents) in
      view contents max (<[i := p + len data]> positions) (k (Ok data))
  end.

Section play.
Context `{RangeStore}.

Definition cancel_shared (e : shared) : shared := mkShared true (shared_metrics e) (shared_store e).

(** ... on a chunk reader.  Another holder of the token may cancel it at any
    time: [cancels] says before which requests it does.  A read that panics
    ends the run; there is no cursor that was never opened. *)
Fixpoint play_reads {A} (t : reading (run A)) (chunks : ObjectChunkReader) (cancels : list bool)
    (cursors : list ObjectCursor) (e : shared) {struct t} : run A * list ObjectCursor * shared :=
  let e' := if default false (head cancels) then cancel_shared e else e in
  match t with
  | Got a => (a, cursors, e)
  | GetBytes start length continue =>
      let '(r, e) := get_bytes chunks (Z.of_N start) (Z.of_N length) e' in
      play_reads (continue r) chunks (tail cancels) cursors e
  | GetRead start continue =>
      match get_read chunks (Z.of_N start) with
      | Ok c => play_reads (continue (Ok (length cursors))) chunks (tail cancels) (cursors ++ [c]) e'
      | Err x => play_reads (continue (Err x)) chunks (tail cancels) cursors e'
      end
  | ReadCursor i n continue =>
      match cursors !! i with
      | None => (Panicked, cursors, e')
      | Some c =>
          let '(r, c, e) := cursor_read c (Z.of_N n) e' in
          let cursors := <[i := c]> cursors in
          match r with
          | Panicked => (Panicked, cursors, e)
          | Returned r => play_reads (continue r) chunks (tail cancels) cursors e
          end
      end
  end.

(** ** Lemmas *)

Lemma never_got_play {A} (good : run A → bool) t chunks : good Panicked = false → never_got good t →
  ∀ cancels cs e, good (play_reads t chunks cancels cs e).1.1 = false.
Proof.
  intros Hp. induction t as [a|start n k IH|start k IH|i n k IH]; cbn [never_got play_reads]; intros Ht cancels cs e;
    [done|..].
  - destruct (get_bytes _ _ _ _) as [r e1]. by apply IH.
  - destruct (get_read _ _); by apply IH.
  - destruct (cs !! i) as [c|]; [|done]. destruct (cursor_read _ _ _) as [[[r|] c'] e1]; [by apply IH|done].
Qed.

(** The token before a request. *)
Lemma cancel_head cancels e :
  shared_store (if default false (head cancels) then cancel_shared e else e) = shared_store e ∧
  (Forall (λ b, b = false) cancels →
    Forall (λ b, b = false) (tail cancels) ∧ (if default false (head cancels) then cancel_shared e else e) = e).
Proof. destruct cancels as [|[] cancels]; (split; [done|]); intros Hall; [done|by inversion Hall|by inversion Hall]. Qed.

Lemma backend_read_token b offset length e :
  shared_cancelled (backend_read_range b offset length e).2 = shared_cancelled e.
Proof. unfold backend_read_range. destruct (check _ _); [|done]. by destruct (store_read_range _ _ _ _ _). Qed.

Lemma get_bytes_token chunks start length e :
  shared_cancelled (get_bytes chunks start length e).2 = shared_cancelled e.
Proof.
  unfold get_bytes. destruct (_ <? _); [done|]. destruct (u64_checked_add _ _); [|done]. destruct (_ <? _); [done|].
  rewrite <-(backend_read_token (backend chunks) start length e).
  destruct (backend_read_range _ _ _ e) as [[data|f] e']; [|done]. by destruct (negb _).
Qed.

Lemma cursor_read_token c n e : shared_cancelled (cursor_read c n e).2 = shared_cancelled e.
Proof.
  unfold cursor_read. destruct (_ || _); [done|]. set (k := Z.min _ _).
  rewrite <-(backend_read_token (backend (cursor_reader c)) (cursor_position c) k e).
  destruct (backend_read_range _ _ _ e) as [[data|f] e']; [|done]. by destruct (_ <? _).
Qed.

(** Nobody cancels the token: it stays as it was. *)
Lemma play_token {A} (t : reading (run A)) chunks cancels cs e : Forall (λ b, b = false) cancels →
  shared_cancelled (play_reads t chunks cancels cs e).2 = shared_cancelled e.
Proof.
  revert cancels cs e. induction t as [a|start n k IH|start k IH|i n k IH]; cbn [play_reads]; intros cancels cs e Hq;
    [done|..]; destruct (cancel_head cancels e) as [_ Hc]; destruct (Hc Hq) as [Hq' ->].
  - pose proof (get_bytes_token chunks (Z.of_N start) (Z.of_N n) e) as Hg.
    destruct (get_bytes _ _ _ _) as [x e2]. by rewrite IH.
  - destruct (get_read _ _); by rewrite IH.
  - destruct (cs !! i) as [c|]; [|done]. pose proof (cursor_read_token c (Z.of_N n) e) as Hr.
    destruct (cursor_read _ _ _) as [[[r|] c'] e2]; [by rewrite IH|done].
Qed.

(** A cursor of a chunk reader, inside the object. *)
Definition cursor_of (chunks : ObjectChunkReader) (c : ObjectCursor) : Prop :=
  cursor_reader c = chunks ∧ 0 ≤ cursor_position c ≤ object_size chunks.

Lemma cursor_of_read chunks start c : 0 ≤ start → get_read chunks start = Ok c →
  c = mkObjectCursor chunks start ∧ cursor_of chunks c.
Proof.
  unfold get_read. destruct (Z.ltb_spec (object_size chunks) start); [done|]. intros Hs [= <-]. by repeat split.
Qed.

(** *** A frugal store *)

Record frugal_chunks (chunks : ObjectChunkReader) : Prop := {
  frugal_backend : frugal (backend chunks);
  frugal_size : object_size chunks ≤ u64_max;
  frugal_bound : 0 ≤ max_range_bytes chunks ≤ usize_max;
}.

(** No request so far was longer than the bound. *)
Definition in_range (chunks : ObjectChunkReader) (m : RangeMetrics) : Prop :=
  max_request_bytes m ≤ max_range_bytes chunks.

Lemma backend_read_frugal chunks offset length e data e' :
  frugal (backend chunks) → 0 ≤ length →
  backend_read_range (backend chunks) offset length e = (Ok data, e') → len data ≤ length.
Proof.
  unfold backend_read_range. intros Hf Hl. destruct (check _ _); [|done].
  destruct (store_read_range _ _ _ _ _) as [[d|f] s] eqn:Hr; [|done]. intros [= <- <-]. by eapply Hf.
Qed.

Lemma backend_read_metrics b offset length e :
  shared_metrics (backend_read_range b offset length e).2 = shared_metrics e.
Proof. unfold backend_read_range. destruct (check _ _); [|done]. by destruct (store_read_range _ _ _ _ _). Qed.

Lemma get_bytes_range chunks start length e :
  in_range chunks (shared_metrics e) →
  in_range chunks (shared_metrics (get_bytes chunks start length e).2).
Proof.
  intros Hm. unfold get_bytes. destruct (Z.ltb_spec (max_range_bytes chunks) length); [done|].
  destruct (u64_checked_add _ _); [|done]. destruct (_ <? _); [done|].
  pose proof (backend_read_metrics (backend chunks) start length e) as Hb.
  destruct (backend_read_range _ _ _ e) as [[data|f] e']; simpl in Hb; [|by rewrite <-Hb in Hm].
  rewrite <-Hb in Hm. destruct (Z.eqb_spec (len data) length) as [Hl|]; simpl; [|done].
  unfold in_range in *. simpl. lia.
Qed.

Lemma cursor_read_range chunks c n e : frugal_chunks chunks → cursor_of chunks c → 0 ≤ n →
  in_range chunks (shared_metrics e) →
  ∃ r c' e', cursor_read c n e = (Returned r, c', e') ∧ cursor_of chunks c' ∧ in_range chunks (shared_metrics e').
Proof.
  intros [Hf Hsize Hmax] [<- Hpos] Hn Hm. unfold cursor_read.
  destruct (_ || _); [by eexists _, _, _|].
  assert (usize_wrap (object_size (cursor_reader c) - cursor_position c) =
    object_size (cursor_reader c) - cursor_position c) as -> by (apply usize_wrap_in; int_bounds; lia).
  assert (usize_try_from (object_size (cursor_reader c) - cursor_position c) =
    Some (object_size (cursor_reader c) - cursor_position c)) as -> by (apply try_from_in; int_bounds; lia).
  simpl. set (k := Z.min _ _).
  pose proof (backend_read_metrics (backend (cursor_reader c)) (cursor_position c) k e) as Hb.
  destruct (backend_read_range _ _ _ e) as [[data|f] e'] eqn:Hr; simpl in Hb; rewrite <-Hb in Hm;
    [|by eexists _, _, _].
  apply backend_read_frugal in Hr; [|done|lia]. pose proof (len_nonneg data).
  destruct (Z.ltb_spec n (len data)); [lia|]. eexists _, _, _. split; [done|]. split.
  - split; [done|]. simpl. rewrite usize_wrap_in by (int_bounds; lia). lia.
  - unfold in_range in *. simpl. lia.
Qed.

(** Whatever a decoder asks for, no request is longer than the bound... *)
Lemma play_range {A} (t : reading (run A)) chunks cancels cs e :
  frugal_chunks chunks → Forall (cursor_of chunks) cs → in_range chunks (shared_metrics e) →
  let '(_, cs', e') := play_reads t chunks cancels cs e in
  Forall (cursor_of chunks) cs' ∧ in_range chunks (shared_metrics e').
Proof.
  intros Hf. revert cancels cs e.
  induction t as [a|start n k IH|start k IH|i n k IH]; cbn [play_reads]; intros cancels cs e Hcs Hm; [done|..];
    set (e1 := if default false (head cancels) then cancel_shared e else e);
    assert (in_range chunks (shared_metrics e1)) as Hm1 by (unfold e1; by destruct (default _ _)).
  - pose proof (get_bytes_range chunks (Z.of_N start) (Z.of_N n) e1 Hm1) as Hg.
    destruct (get_bytes _ _ _ _) as [x e2]. by apply IH.
  - destruct (get_read chunks _) as [c|x] eqn:Hc; [|by apply IH].
    apply cursor_of_read in Hc as [_ Hc]; [|lia]. apply IH; [|done]. apply Forall_app_2; auto.
  - destruct (cs !! i) as [c|] eqn:Hc; [|done]. pose proof (proj1 (Forall_lookup _ _) Hcs _ _ Hc) as Hof.
    destruct (cursor_read_range chunks c (Z.of_N n) e1 Hf Hof ltac:(lia) Hm1) as (x & c' & e2 & -> & Hc' & Hm2).
    apply IH; [by apply Forall_insert|done].
Qed.

(** ... and it never sees a panic of one of its cursors. *)
Lemma play_ensures {A} (t : reading (run A)) post chunks cancels cs e :
  frugal_chunks chunks → ensures post (length cs) t →
  Forall (cursor_of chunks) cs → in_range chunks (shared_metrics e) →
  let '(r, cs', _) := play_reads t chunks cancels cs e in post (length cs') r.
Proof.
  intros Hf. revert cancels cs e.
  induction t as [a|start n k IH|start k IH|i n k IH]; cbn [ensures play_reads]; intros cancels cs e Ht Hcs Hm; [done|..];
    set (e1 := if default false (head cancels) then cancel_shared e else e);
    assert (in_range chunks (shared_metrics e1)) as Hm1 by (unfold e1; by destruct (default _ _)).
  - pose proof (get_bytes_range chunks (Z.of_N start) (Z.of_N n) e1 Hm1) as Hg.
    destruct (get_bytes _ _ _ _) as [x e2]. by apply IH.
  - destruct Ht as [Hok Herr]. destruct (get_read chunks _) as [c|x] eqn:Hc; [|by apply IH].
    apply cursor_of_read in Hc as [_ Hc]; [|lia]. apply IH; [|by apply Forall_app_2; auto|done].
    rewrite length_app, Nat.add_comm. exact Hok.
  - destruct Ht as [Hi Ht]. destruct (lookup_lt_is_Some_2 _ _ Hi) as [c Hc]. rewrite Hc.
    pose proof (proj1 (Forall_lookup _ _) Hcs _ _ Hc) as Hof.
    destruct (cursor_read_range chunks c (Z.of_N n) e1 Hf Hof ltac:(lia) Hm1) as (x & c' & e2 & -> & Hc' & Hm2).
    apply IH; [by rewrite length_insert|by apply Forall_insert|done].
Qed.

(** *** A store that keeps the object *)

Lemma get_bytes_view chunks contents stable start length e :
  reads_object chunks contents stable → stable (shared_store e) → 0 ≤ start → 0 ≤ length →
  length ≤ max_range_bytes chunks → start + length ≤ len contents →
  let '(res, e') := get_bytes chunks start length e in
  stable (shared_store e') ∧ shared_cancelled e' = shared_cancelled e ∧
  match res with
  | Ok data => data = take_bytes length (skip_bytes start contents)
  | Err _ => reliable (backend chunks) contents stable → shared_cancelled e = true
  end.
Proof.
  intros Hr Hst Hs Hl Hmax Hend. pose proof (reads_size _ _ _ Hr) as Hsize. pose proof (reads_u64 _ _ _ Hr).
  unfold get_bytes. destruct (Z.ltb_spec (max_range_bytes chunks) length); [lia|].
  assert (u64_checked_add start length = Some (start + length)) as -> by (apply try_from_in; int_bounds; lia).
  destruct (Z.ltb_spec (object_size chunks) (start + length)); [lia|].
  destruct (backend_read_range _ _ _ e) as [res e'] eqn:Hread.
  pose proof Hread as Hread'. unfold backend_read_range, check in Hread'.
  apply (backend_read_honest _ contents stable) in Hread as (_ & Hst' & Hres); [|done|done|lia|lia].
  assert (shared_cancelled e' = shared_cancelled e ∧
    (∀ f, res = Err f → reliable (backend chunks) contents stable → shared_cancelled e = true)) as [Hc Herr].
  { destruct (shared_cancelled e) eqn:Hce; [by injection Hread' as <- <-|].
    destruct (store_read_range _ _ _ _ _) as [x s1] eqn:Hx. injection Hread' as <- <-. split; [done|].
    intros f -> Hrel. specialize (Hrel start length (shared_store e) Hst ltac:(lia) Hl). by rewrite Hx in Hrel. }
  destruct res as [data|f]; [|split_and!; [done..|by eapply Herr]].
  assert (len data = length) as Hlen by (rewrite Hres, len_take_bytes, len_skip_bytes by lia; lia).
  rewrite Hlen, Z.eqb_refl. by split_and!.
Qed.

Lemma cursor_read_view chunks contents stable p n e :
  reads_object chunks contents stable → stable (shared_store e) → 0 ≤ p ≤ len contents → 0 ≤ n →
  ∃ res c' e', cursor_read (mkObjectCursor chunks p) n e = (Returned res, c', e') ∧
    stable (shared_store e') ∧ shared_cancelled e' = shared_cancelled e ∧
    let data := take_bytes (Z.min n (max_range_bytes chunks)) (skip_bytes p contents) in
    match res with
    | Ok d => d = data ∧ c' = mkObjectCursor chunks (p + len data) ∧ p + len data ≤ len contents
    | Err _ => c' = mkObjectCursor chunks p ∧ (reliable (backend chunks) contents stable → shared_cancelled e = true)
    end.
Proof.
  intros Hr Hst Hp Hn. pose proof (reads_size _ _ _ Hr) as Hsize. pose proof (reads_u64 _ _ _ Hr).
  pose proof (reads_bound _ _ _ Hr) as Hmax. unfold cursor_read. cbn [cursor_reader cursor_position].
  set (data := take_bytes (Z.min n (max_range_bytes chunks)) (skip_bytes p contents)).
  assert (len data = Z.min (Z.min n (max_range_bytes chunks)) (len contents - p)) as Hdata.
  { unfold data. rewrite len_take_bytes, len_skip_bytes by lia. lia. }
  destruct (Z.eqb_spec n 0) as [->|Hn0]; [|destruct (Z.eqb_spec p (object_size chunks)) as [Hend|Hne]];
    cbn [orb]; [eexists (Ok []), _, e; split; [done|].. |].
  1, 2: assert (data = []) as -> by (apply nil_length_inv; unfold len in *; lia);
    split_and!; try done; rewrite len_nil; [f_equal; lia|lia].
  rewrite usize_wrap_in by (int_bounds; lia).
  assert (usize_try_from (object_size chunks - p) = Some (object_size chunks - p)) as ->
    by (apply try_from_in; int_bounds; lia).
  simpl. set (k := Z.min _ _). assert (data = take_bytes k (skip_bytes p contents)) as Hk.
  { unfold k, data. destruct (Z_le_gt_dec (Z.min n (max_range_bytes chunks)) (object_size chunks - p)).
    - by rewrite (Z.min_l _ (object_size chunks - p)).
    - rewrite !take_bytes_ge; [done|rewrite len_skip_bytes by lia; lia..]. }
  destruct (backend_read_range _ _ k e) as [res e'] eqn:Hread. pose proof Hread as Hread'.
  unfold backend_read_range, check in Hread'.
  apply (backend_read_honest _ contents stable) in Hread as (_ & Hst' & Hres); [|done|done|lia|lia].
  rewrite <-Hk in Hres.
  assert (shared_cancelled e' = shared_cancelled e ∧
    (∀ f, res = Err f → reliable (backend chunks) contents stable → shared_cancelled e = true)) as [Hc Herr].
  { destruct (shared_cancelled e) eqn:Hce; [by injection Hread' as <- <-|].
    destruct (store_read_range _ _ _ _ _) as [x s1] eqn:Hx. injection Hread' as <- <-. split; [done|].
    intros f -> Hrel. specialize (Hrel p k (shared_store e) Hst ltac:(lia) ltac:(lia)). by rewrite Hx in Hrel. }
  destruct res as [d|f]; [|eexists (Err _), _, e'; split_and!; [done..|by eapply Herr]].
  subst d. clearbody data k. destruct (Z.ltb_spec n (len data)); [lia|]. eexists (Ok data), _, _. split; [done|]. simpl.
  rewrite usize_wrap_in by (int_bounds; lia). split_and!; try done. lia.
Qed.

(** The cursors at some positions. *)
Definition at_positions (chunks : ObjectChunkReader) (contents : bytes) (cs : list ObjectCursor) (ps : list Z) : Prop :=
  cs = map (mkObjectCursor chunks) ps ∧ Forall (λ p, 0 ≤ p ≤ len contents) ps.

Lemma at_positions_snoc chunks contents cs ps p : at_positions chunks contents cs ps → 0 ≤ p ≤ len contents →
  at_positions chunks contents (cs ++ [mkObjectCursor chunks p]) (ps ++ [p]).
Proof. intros [-> Hp] ?. split; [by rewrite map_app|]. apply Forall_app_2; auto. Qed.

Lemma at_positions_insert chunks contents cs ps i p : at_positions chunks contents cs ps → 0 ≤ p ≤ len contents →
  at_positions chunks contents (<[i := mkObjectCursor chunks p]> cs) (<[i := p]> ps).
Proof. intros [-> Hp] ?. split; [by rewrite list_fmap_insert|]. by apply Forall_insert. Qed.

(** Whatever is asked of it, the store stays stable and the cursors inside. *)
Lemma play_stable {A} (t : reading (run A)) chunks contents stable cancels cs e :
  reads_object chunks contents stable → Forall (cursor_of chunks) cs → stable (shared_store e) →
  stable (shared_store (play_reads t chunks cancels cs e).2) ∧
  Forall (cursor_of chunks) (play_reads t chunks cancels cs e).1.2.
Proof.
  intros Hr. pose proof (reads_size _ _ _ Hr) as Hsize. revert cancels cs e.
  induction t as [x|start n k IH|start k IH|i n k IH]; cbn [play_reads]; intros cancels cs e Hcs Hst; [done|..];
    set (e1 := if default false (head cancels) then cancel_shared e else e);
    assert (stable (shared_store e1)) as Hst1 by (unfold e1; by destruct (default _ _)).
  - destruct (get_bytes _ _ _ e1) as [r e2] eqn:Hg. apply IH; [done|]. unfold get_bytes in Hg.
    destruct (Z.ltb_spec (max_range_bytes chunks) (Z.of_N n)); [by injection Hg as <- <-|].
    destruct (u64_checked_add _ _) as [end_|] eqn:Hadd; [|by injection Hg as <- <-].
    apply try_from_Some in Hadd as [-> _].
    destruct (Z.ltb_spec (object_size chunks) (Z.of_N start + Z.of_N n)); [by injection Hg as <- <-|].
    destruct (backend_read_range _ _ _ e1) as [res e3] eqn:Hread.
    apply (backend_read_honest _ contents stable) in Hread as (_ & Hst3 & _); [|done|done|lia|lia].
    destruct res as [data|f]; [|by injection Hg as <- <-].
    by destruct (negb _); injection Hg as <- <-.
  - destruct (get_read chunks _) as [c|x] eqn:Hc; [|by apply IH].
    apply cursor_of_read in Hc as [_ Hc]; [|lia]. apply IH; [|done]. apply Forall_app_2; auto.
  - destruct (cs !! i) as [[rd p]|] eqn:Hi; [|done].
    pose proof (proj1 (Forall_lookup _ _) Hcs _ _ Hi) as [Hrd Hp]. simpl in Hrd, Hp. subst rd. rewrite Hsize in Hp.
    destruct (cursor_read_view chunks contents stable p (Z.of_N n) e1 Hr Hst1 Hp ltac:(lia))
      as (res & c' & e2 & -> & Hst2 & _ & Hres).
    apply IH; [|done]. apply Forall_insert; [done|]. destruct res as [d|f].
    + destruct Hres as (-> & -> & Hle). split; [done|]. simpl. rewrite Hsize.
      pose proof (len_nonneg (take_bytes (Z.min (Z.of_N n) (max_range_bytes chunks)) (skip_bytes p contents))). lia.
    + destruct Hres as [-> _]. split; [done|]. simpl. by rewrite Hsize.
Qed.

Lemma at_positions_inside chunks contents stable cs ps : reads_object chunks contents stable →
  at_positions chunks contents cs ps → Forall (cursor_of chunks) cs.
Proof.
  intros Hr [-> Hp]. apply Forall_map. eapply Forall_impl; [exact Hp|]. intros p Hpos. split; [done|].
  simpl. by rewrite (reads_size _ _ _ Hr).
Qed.

(** A run in which an answer was an error. *)
Definition failed {A} (t : reading (run A)) (r : run A) : Prop :=
  ∀ good, good Panicked = false → reports_read good t → good r = false.

(** A run with the outcome [a] and the cursors at [ps], unless an answer was an
    error; which none is when the way is [clear]. *)
Definition faithful {A} chunks contents (t : reading (run A)) (a : run A) (ps : list Z) (clear : Prop)
    (run : run A * list ObjectCursor * shared) : Prop :=
  let '(r, cs, e) := run in
  ((r = a ∧ at_positions chunks contents cs ps) ∨ failed t r) ∧
  (clear → r = a ∧ at_positions chunks contents cs ps ∧ shared_cancelled e = false).

Lemma faithful_answered {A} chunks contents (t k : reading (run A)) a ps (clear clear' : Prop) run :
  (∀ good, reports_read good t → reports_read good k) → (clear → clear') →
  faithful chunks contents k a ps clear' run → faithful chunks contents t a ps clear run.
Proof.
  intros Hk Hc. unfold faithful. destruct run as [[r cs] e]. intros [Hor Hrel]. split; [|auto].
  destruct Hor as [Hor|Hor]; [by left|right]. intros good Hp Ht. by apply Hor; auto.
Qed.

Lemma faithful_refused {A} chunks contents (t k : reading (run A)) a ps (clear : Prop) cancels cs e :
  (∀ good, reports_read good t → never_got good k) → (clear → False) →
  faithful chunks contents t a ps clear (play_reads k chunks cancels cs e).
Proof.
  intros Hk Hc. unfold faithful. destruct (play_reads _ _ _ _ _) as [[r cs'] e'] eqn:Hplay. split; [right|by intros ?%Hc].
  intros good Hp Ht. pose proof (never_got_play good k chunks Hp (Hk good Ht) cancels cs e) as Hn. by rewrite Hplay in Hn.
Qed.

(** On a store that keeps the object, a run is the one on its bytes, unless an
    answer was an error; and no answer is when the store is reliable and the
    token is not cancelled. *)
Lemma play_faithful {A} (t : reading (run A)) chunks contents stable cancels cs ps e a ps' :
  reads_object chunks contents stable → at_positions chunks contents cs ps → stable (shared_store e) →
  view contents (max_range_bytes chunks) ps t = Some (a, ps') →
  faithful chunks contents t a ps'
    (reliable (backend chunks) contents stable ∧ shared_cancelled e = false ∧ Forall (λ b, b = false) cancels)
    (play_reads t chunks cancels cs e).
Proof.
  intros Hr. revert cancels cs ps e.
  induction t as [x|start n k IH|start k IH|i n k IH]; cbn [view play_reads];
    intros cancels cs ps e Hcs Hst Hview;
    [injection Hview as -> ->; split; [by left|by intros (_ & ? & _)]|..];
    destruct (cancel_head cancels e) as [Hst1 Hc1]; set (e1 := if default false (head cancels) then cancel_shared e else e) in *.
  - destruct (Z.leb_spec (Z.of_N n) (max_range_bytes chunks)); [|done].
    destruct (Z.leb_spec (Z.of_N start + Z.of_N n) (len contents)); [|done]. cbn [andb] in Hview.
    pose proof (get_bytes_view chunks contents stable (Z.of_N start) (Z.of_N n) e1 Hr) as Hg.
    destruct (get_bytes _ _ _ _) as [[data|x] e2]; (destruct Hg as (Hst2 & Hc2 & Hres); [by rewrite Hst1|lia..|]).
    + subst data. eapply faithful_answered; [by intros good [_ Hok]| |by eapply IH].
      intros (Hre & Hce & Hall). destruct (Hc1 Hall) as [Hall' He1]. by rewrite Hc2, He1.
    + eapply faithful_refused; [intros good [Herr _]; apply Herr|].
      intros (Hre & Hce & Hall). destruct (Hc1 Hall) as [_ He1]. rewrite He1 in Hres. specialize (Hres Hre). congruence.
  - destruct (Z.leb_spec (Z.of_N start) (len contents)); [|done]. unfold get_read.
    destruct (Z.ltb_spec (object_size chunks) (Z.of_N start)); [rewrite (reads_size _ _ _ Hr) in *; lia|].
    assert (length cs = length ps) as Hl by (destruct Hcs as [-> _]; by rewrite length_map).
    rewrite <-Hl in Hview. rewrite <-Hst1 in Hst.
    eapply faithful_answered; [by intros good [_ Hok]| |eapply IH; [apply at_positions_snoc; [done|lia]|done..]].
    intros (Hre & Hce & Hall). destruct (Hc1 Hall) as [Hall' He1]. by rewrite He1.
  - destruct (ps !! i) as [p|] eqn:Hi; [|done]. cbn [mbind option_bind] in Hview.
    assert (cs !! i = Some (mkObjectCursor chunks p)) as Hci by (destruct Hcs as [-> _]; by rewrite list_lookup_fmap, Hi).
    rewrite Hci. assert (0 ≤ p ≤ len contents) as Hp by (destruct Hcs as [_ Hp]; rewrite Forall_lookup in Hp; by eapply Hp).
    rewrite <-Hst1 in Hst.
    destruct (cursor_read_view chunks contents stable p (Z.of_N n) e1 Hr Hst Hp ltac:(lia))
      as (res & c' & e2 & -> & Hst2 & Hc2 & Hres). destruct res as [d|f].
    + destruct Hres as (-> & -> & Hle). pose proof (len_nonneg (take_bytes (Z.min (Z.of_N n) (max_range_bytes chunks)) (skip_bytes p contents))).
      eapply faithful_answered; [by intros good [_ Hok]| |eapply IH; [apply at_positions_insert; [done|lia]|done..]].
      intros (Hre & Hce & Hall). destruct (Hc1 Hall) as [Hall' He1]. by rewrite Hc2, He1.
    + destruct Hres as [-> Hres]. eapply faithful_refused; [intros good [Herr _]; apply Herr|].
      intros (Hre & Hce & Hall). destruct (Hc1 Hall) as [_ He1]. rewrite He1 in Hres. specialize (Hres Hre). congruence.
Qed.

End play.
