(* ===== verification/Fs.v ===== *)
(** * Fs: what the local store uses of [std::path] and [std::fs]

    Unix paths as lists of components; a file system as a finite map from
    absolute paths to nodes, with symbolic links followed the way the kernel
    does (at most 40 of them); and the file operations as transformers of a
    [World].  Any operation that reaches the operating system can fail: the
    world carries the list of the faults still to come, consumed one by one (a
    failing [write_all] may have written a prefix). *)
From S2P Require Import Prelude Errors.

(** ** Paths *)

Inductive Component : Set :=
  | RootDir
  | CurDir
  | ParentDir
  | Normal (name : string).

#[export] Instance Component_eq_dec : EqDecision Component.
Proof. solve_decision. Defined.

Definition component_of (piece : string) : Component :=
  if bool_decide (piece = ".") then CurDir
  else if bool_decide (piece = "..") then ParentDir
  else Normal piece.

(** A path's pieces: those between slashes, without the empty ones. *)
Definition pieces (s : string) : list string := filter (λ p, p ≠ ""%string) (split "/"%char s).

Definition is_absolute (s : string) : bool := starts_with "/" s.

(** [Path::components]: a ["."] only counts at the front of a relative path. *)
Definition components (s : string) : list Component :=
  let rest := filter (λ c, c ≠ CurDir) in
  if is_absolute s then RootDir :: rest (map component_of (pieces s))
  else match map component_of (pieces s) with
       | CurDir :: cs => CurDir :: rest cs
       | cs => rest cs
       end.

(** The components the kernel walks: a trailing slash asks for a directory. *)
Definition walked (s : string) : list Component :=
  (if is_absolute s then [RootDir] else []) ++ map component_of (pieces s)
  ++ (if bool_decide (last (split "/"%char s) = Some ""%string) && negb (bool_decide (s = ""%string))
      then [CurDir] else []).

(** [Path::parent] and [Path::file_name], on components. *)
Definition parent (p : list Component) : option (list Component) :=
  match last p with
  | None | Some RootDir => None
  | Some _ => Some (removelast p)
  end.

Definition file_name (p : list Component) : option string :=
  match last p with Some (Normal name) => Some name | _ => None end.

(** Canonical paths: the names from the root. *)
Abbreviation apath := (list string).

(** Names are taken to be UTF-8, as object keys are: the replacement of other
    bytes by U+FFFD is not modelled. *)
Definition to_string_lossy (p : apath) : string :=
  match p with [] => "/" | _ => String "/" (join "/" p) end.

(** [Path::starts_with] and [strip_prefix]. *)
Definition path_starts_with (p root : apath) : bool := bool_decide (root `prefix_of` p).

Fixpoint strip_prefix (p root : apath) : option apath :=
  match root, p with
  | [], p => Some p
  | r :: root, x :: p => if bool_decide (x = r) then strip_prefix p root else None
  | _ :: _, [] => None
  end.

(** ** The file system *)

Inductive Node : Set :=
  | RegularFile (contents : bytes) (modified : option Z)
  | Directory
  | Symlink (target : string)
  | Special.

Record World : Type := mkWorld {
  files : gmap apath Node;
  cwd : apath;
  clock : option Z;
  faults : list (option (io.ErrorKind * nat));
}.

Definition set_files (w : World) (f : gmap apath Node) : World :=
  mkWorld f (cwd w) (clock w) (faults w).

(** The next system call: its fault, if any. *)
Definition syscall (w : World) : option (io.ErrorKind * nat) * World :=
  match faults w with
  | [] => (None, w)
  | f :: fs => (f, mkWorld (files w) (cwd w) (clock w) fs)
  end.

(** A fallible operation on the world. *)
Definition io_op (A : Type) : Type := World → result io.ErrorKind A * World.

(** An operation that only looks: it fails with its fault, else it is [look]. *)
Definition looking {A} (look : World → result io.ErrorKind A) : io_op A := λ w,
  let '(fault, w) := syscall w in
  match fault with Some (kind, _) => (Err kind, w) | None => (look w, w) end.

(** An operation that changes the files, or fails and changes nothing. *)
Definition changing {A} (change : World → result io.ErrorKind (A * gmap apath Node)) : io_op A := λ w,
  let '(fault, w) := syscall w in
  match fault with
  | Some (kind, _) => (Err kind, w)
  | None =>
      match change w with
      | Ok (a, f) => (Ok a, set_files w f)
      | Err kind => (Err kind, w)
      end
  end.

(** The kinds the program does not tell apart. *)
Definition NotADirectory : io.ErrorKind := io.Uncategorized 0.
Definition IsADirectory : io.ErrorKind := io.Uncategorized 1.
Definition FilesystemLoop : io.ErrorKind := io.Uncategorized 2.

(** Following a path: [links] more symbolic links may be followed. *)
Fixpoint resolve (links : nat) (fs : gmap apath Node) : apath → list Component → result io.ErrorKind apath :=
  fix walk (cur : apath) (todo : list Component) : result io.ErrorKind apath :=
    match todo with
    | [] => Ok cur
    | RootDir :: todo => walk [] todo
    | CurDir :: todo => walk cur todo
    | ParentDir :: todo => walk (removelast cur) todo
    | Normal name :: todo =>
        match fs !! (cur ++ [name]) with
        | None => Err io.NotFound
        | Some (Symlink target) =>
            match links with
            | O => Err FilesystemLoop
            | S links => resolve links fs cur (walked target ++ todo)
            end
        | Some Directory => walk (cur ++ [name]) todo
        | Some _ => match todo with [] => Ok (cur ++ [name]) | _ => Err NotADirectory end
        end
    end.

Definition max_links : nat := 40.

Definition follow (w : World) (cs : list Component) : result io.ErrorKind apath :=
  match cs with
  | [] => Err io.NotFound
  | _ => resolve max_links (files w) (cwd w) cs
  end.

(** The node at a canonical path; the root is a directory. *)
Definition node_at (fs : gmap apath Node) (p : apath) : option Node :=
  match p with [] => Some Directory | _ => fs !! p end.

Definition of_apath (p : apath) : list Component := RootDir :: map Normal p.

(** ** Operations *)

Definition canonicalize (cs : list Component) : io_op apath := looking (λ w, follow w cs).

(** [fs::metadata] of a canonical path, symbolic links followed. *)
Definition fs_metadata (p : apath) : io_op Node := looking (λ w,
  q ← follow w (of_apath p); ok_or (node_at (files w) q) io.NotFound).

(** [fs::symlink_metadata]: the last component is not followed. *)
Definition fs_symlink_metadata (p : apath) : io_op Node := looking (λ w,
  ok_or (node_at (files w) p) io.NotFound).

(** [File::open] for reading; the handle is the path. *)
Definition file_open (p : apath) : io_op apath := looking (λ w,
  q ← follow w (of_apath p); _ ← ok_or (node_at (files w) q) io.NotFound; Ok q).

Definition file_seek (_ : apath) : io_op () := looking (λ _, Ok ()).

(** [seek(Start(offset))], then [take(length).read_to_end]. *)
Definition file_read (p : apath) (offset length : Z) : io_op bytes := looking (λ w,
  match node_at (files w) p with
  | Some (RegularFile contents _) => Ok (take_bytes length (skip_bytes offset contents))
  | Some Directory => Err IsADirectory
  | _ => Err io.NotFound
  end).

(** [OpenOptions::new().create_new(true).write(true).open(p)]. *)
Definition file_create_new (p : apath) : io_op () := changing (λ w,
  match node_at (files w) (removelast p) with
  | Some Directory =>
      match node_at (files w) p with
      | None => Ok ((), <[p := RegularFile [] (clock w)]> (files w))
      | Some _ => Err io.AlreadyExists
      end
  | Some _ => Err NotADirectory
  | None => Err io.NotFound
  end).

(** [write_all] at the end of an open file; on a fault of progress [n] the
    first [n] bytes are written.  The file is addressed by its path: a handle
    to a file that is gone writes nowhere. *)
Definition file_append (w : World) (p : apath) (data : bytes) : gmap apath Node :=
  match files w !! p with
  | Some (RegularFile contents _) => <[p := RegularFile (contents ++ data) (clock w)]> (files w)
  | _ => files w
  end.

Definition file_write_all (p : apath) (data : bytes) : io_op () := λ w,
  let '(fault, w) := syscall w in
  match fault with
  | Some (kind, n) => (Err kind, set_files w (file_append w p (take n data)))
  | None => (Ok (), set_files w (file_append w p data))
  end.

(** [File::flush] does nothing; [sync_data] and [sync_all] change nothing. *)
Definition file_flush (_ : apath) : io_op () := λ w, (Ok (), w).
Definition file_sync_data (_ : apath) : io_op () := looking (λ _, Ok ()).
Definition file_sync_all (_ : apath) : io_op () := looking (λ _, Ok ()).

Definition fs_remove_file (p : apath) : io_op () := changing (λ w,
  match node_at (files w) p with
  | None => Err io.NotFound
  | Some Directory => Err IsADirectory
  | Some _ => Ok ((), delete p (files w))
  end).

(** [fs::rename]: the destination is replaced in one step. *)
Definition fs_rename (source destination : apath) : io_op () := changing (λ w,
  match node_at (files w) source with
  | None => Err io.NotFound
  | Some n =>
      match n, node_at (files w) destination, node_at (files w) (removelast destination) with
      | Directory, _, _ | _, Some Directory, _ => Err IsADirectory
      | _, _, None => Err io.NotFound
      | _, _, _ => Ok ((), <[destination := n]> (delete source (files w)))
      end
  end).

Definition fs_create_dir (p : apath) : io_op () := changing (λ w,
  match node_at (files w) (removelast p), node_at (files w) p with
  | Some Directory, None => Ok ((), <[p := Directory]> (files w))
  | Some Directory, Some _ => Err io.AlreadyExists
  | Some _, _ => Err NotADirectory
  | None, _ => Err io.NotFound
  end).

(** [fs::read_dir], all at once: the names in a directory, in some order (that
    of the map). *)
Definition entries_of (fs : gmap apath Node) (p : apath) : list apath :=
  filter (λ q, removelast q = p ∧ q ≠ []) (map fst (map_to_list fs)).

Definition fs_read_dir (p : apath) : io_op (list apath) := looking (λ w,
  match node_at (files w) p with
  | Some Directory => Ok (entries_of (files w) p)
  | Some _ => Err NotADirectory
  | None => Err io.NotFound
  end).

(** ** Lemmas *)

(** What an operation does to the files: a look leaves them. *)
Lemma looking_files {A} (f : World → result io.ErrorKind A) w : files (looking f w).2 = files w.
Proof. unfold looking, syscall. destruct (faults w) as [|[[k n]|] fs]; done. Qed.

Lemma looking_Ok {A} (f : World → result io.ErrorKind A) w a w' :
  looking f w = (Ok a, w') → files w' = files w ∧ cwd w' = cwd w ∧ clock w' = clock w ∧
    ∃ v, files v = files w ∧ cwd v = cwd w ∧ clock v = clock w ∧ f v = Ok a.
Proof.
  unfold looking, syscall. destruct (faults w) as [|[[k n]|] fs]; simplify_eq/=; [|done|];
    intros [= Hf <-]; split_and!; try done; [by exists w|].
  by exists (mkWorld (files w) (cwd w) (clock w) fs).
Qed.

Lemma changing_cases {A} (f : World → result io.ErrorKind (A * gmap apath Node)) w r w' :
  changing f w = (r, w') →
  cwd w' = cwd w ∧ clock w' = clock w ∧
  match r with
  | Ok a => ∃ v fs, files v = files w ∧ cwd v = cwd w ∧ clock v = clock w ∧ f v = Ok (a, fs) ∧ files w' = fs
  | Err _ => files w' = files w
  end.
Proof.
  unfold changing. destruct (syscall w) as [fault v] eqn:Hs.
  assert (files v = files w ∧ cwd v = cwd w ∧ clock v = clock w) as (Hf & Hc & Hk).
  { unfold syscall in Hs. destruct (faults w); by simplify_eq/=. }
  destruct fault as [[k n]|]; [intros [= <- <-]; by rewrite Hf, Hc, Hk|].
  destruct (f v) as [[a fs]|k] eqn:Hv; intros [= <- <-]; simpl; rewrite ?Hc, ?Hk; split_and!; try done.
  by exists v, fs.
Qed.

Lemma strip_prefix_Some p root q : strip_prefix p root = Some q ↔ p = root ++ q.
Proof.
  revert p. induction root as [|r root IH]; intros p; [destruct p; simpl; split; congruence|].
  destruct p as [|x p]; simpl; [by split|]. case_bool_decide as Hx.
  - subst x. rewrite IH. split; congruence.
  - split; [done|]. intros [=]. congruence.
Qed.
