(* ===== verification/Local.v ===== *)
(** * Local: the local object store and its staged writer

    Models [local.rs] but for listing: path resolution under an allowed root,
    [head], [read_range], [delete], and the writer that stages an object in a
    temporary file beside its destination and publishes it by a rename.  A
    function of the source is a transformer of [Process]: the file system (with
    the faults to come) and the process-wide counters. *)
From S2P Require Import Prelude Errors Object Fs ChunkReader.

(** ** The process *)

Record Process : Type := mkProcess {
  world : World;
  active_writers : Z;
  bytes_read : Z;
  stage_sequence : Z;
  process_id : Z;
}.

Definition set_world (p : Process) (w : World) : Process :=
  mkProcess w (active_writers p) (bytes_read p) (stage_sequence p) (process_id p).
Definition set_active_writers (p : Process) (n : Z) : Process :=
  mkProcess (world p) (usize_wrap n) (bytes_read p) (stage_sequence p) (process_id p).
Definition set_bytes_read (p : Process) (n : Z) : Process :=
  mkProcess (world p) (active_writers p) (usize_wrap n) (stage_sequence p) (process_id p).
Definition set_stage_sequence (p : Process) (n : Z) : Process :=
  mkProcess (world p) (active_writers p) (bytes_read p) (usize_wrap n) (process_id p).

(** ** A state and error monad *)

Definition native (A : Type) : Type := Process → result NativeFailure A * Process.

#[export] Instance native_ret : MRet native := λ A a p, (Ok a, p).
#[export] Instance native_bind : MBind native := λ A B f m p,
  let '(r, p) := m p in
  match r with Ok a => f a p | Err e => (Err e, p) end.

Definition of_result {A} (r : result NativeFailure A) : native A := λ p, (r, p).

(** An operation whose [io::Error] is returned as a value ... *)
Definition attempt {A} (op : io_op A) : native (result io.ErrorKind A) := λ p,
  let '(r, w) := op (world p) in (Ok r, set_world p w).

(** ... or converted by [NativeFailure::from_io]. *)
Definition io {A} (operation : Operation) (op : io_op A) : native A := λ p,
  let '(r, w) := op (world p) in (map_err (from_io operation) r, set_world p w).

(** ** Paths and metadata *)

Definition system_time_ns (time : Z) : option Z :=
  if time <? 0 then None else u64_try_from time.

Definition metadata_for (path : apath) (operation : Operation) : native ObjectMetadata :=
  node ← io operation (fs_metadata path);
  match node with
  | RegularFile contents modified =>
      mret (mkObjectMetadata (to_string_lossy path) (len contents) (modified ≫= system_time_ns))
  | _ => of_result (Err (NativeFailure_invalid operation "object operation requires a regular file"))
  end.

Definition canonical_allowed_root (location : ObjectLocation) (operation : Operation) :
    native (option apath) :=
  match allowed_root location with
  | None => mret None
  | Some root => p ← io operation (canonicalize (walked root)); mret (Some p)
  end.

Definition enforce_allowed_root (location : ObjectLocation) (canonical_path : apath)
    (operation : Operation) : native () :=
  root ← canonical_allowed_root location operation;
  match root with
  | Some root =>
      if negb (path_starts_with canonical_path root) then
        of_result (Err (NativeFailure_new PermissionDenied operation
          "object is outside the configured allowed root"))
      else mret ()
  | None => mret ()
  end.

Definition resolve_existing (location : ObjectLocation) (operation : Operation) : native apath :=
  canonical ← io operation (canonicalize (walked (location_key location)));
  _ ← enforce_allowed_root location canonical operation;
  mret canonical.

Definition resolve_destination (location : ObjectLocation) (operation : Operation) : native apath :=
  let requested := components (location_key location) in
  parent ← of_result (ok_or (parent requested)
    (NativeFailure_invalid operation "destination requires a parent directory"));
  file_name ← of_result (ok_or (file_name requested)
    (NativeFailure_invalid operation "destination requires a file name"));
  canonical_parent ← io operation (canonicalize parent);
  _ ← enforce_allowed_root location canonical_parent operation;
  mret (canonical_parent ++ [file_name]).

(** ** [LocalStore] *)

(** The token of these operations is only cancelled by their caller, so its
    flag is constant while they run. *)
Definition head (location : ObjectLocation) (cancelled : bool) : native ObjectMetadata :=
  _ ← of_result (check cancelled Head);
  path ← resolve_existing location Head;
  metadata_for path Head.

Definition read_range (location : ObjectLocation) (range : ByteRange) (cancelled : bool) : native bytes :=
  _ ← of_result (check cancelled ReadRange);
  path ← resolve_existing location ReadRange;
  metadata ← io ReadRange (fs_metadata path);
  match metadata with
  | RegularFile contents _ =>
      if len contents <? offset range then
        of_result (Err (NativeFailure_invalid ReadRange "range offset is beyond end of object"))
      else
        let available := usize_wrap (len contents - offset range) in
        let read_length := Z.min (length_ range) available in
        _ ← of_result (ok_or (usize_try_from read_length)
          (NativeFailure_invalid ReadRange "requested range is too large"));
        file ← io ReadRange (file_open path);
        _ ← io ReadRange (file_seek file);
        data ← io ReadRange (file_read file (offset range) read_length);
        _ ← (λ p, (Ok (), set_bytes_read p (bytes_read p + len data)));
        _ ← of_result (check cancelled ReadRange);
        mret data
  | _ => of_result (Err (NativeFailure_invalid ReadRange "range reads require a regular file"))
  end.

Definition delete_object (location : ObjectLocation) (cancelled : bool) : native () :=
  _ ← of_result (check cancelled Delete);
  path ← resolve_existing location Delete;
  io Delete (fs_remove_file path).

(** ** [LocalWriter] *)

(** [file] is the open handle, if any; [cancellation] the value of the flag of
    the shared token. *)
Record LocalWriter : Type := mkLocalWriter {
  file : option apath;
  stage_path : apath;
  destination : apath;
  writer_flush : FlushPolicy;
  writer_sync : SyncPolicy;
  cancellation : bool;
  active : bool;
}.

Definition close_file (w : LocalWriter) : LocalWriter :=
  mkLocalWriter None (stage_path w) (destination w) (writer_flush w) (writer_sync w) (cancellation w) (active w).
Definition cancel_writer (w : LocalWriter) : LocalWriter :=
  mkLocalWriter (file w) (stage_path w) (destination w) (writer_flush w) (writer_sync w) true (active w).
Definition deactivate (w : LocalWriter) : LocalWriter :=
  mkLocalWriter (file w) (stage_path w) (destination w) (writer_flush w) (writer_sync w) (cancellation w) false.

Definition stage_name (file_name : string) (sequence pid : Z) : string :=
  "." +:+ file_name +:+ ".parquex-" +:+ to_string pid +:+ "-" +:+ to_string sequence +:+ ".tmp".

(** One turn of the loop of [open] per attempt left. *)
Fixpoint open_attempts (attempts : nat) (parent : apath) (file_name : string) (dest : apath)
    (options : WriteOptions) (cancelled : bool) : native LocalWriter :=
  match attempts with
  | O => of_result (Err (NativeFailure_new Conflict WriterOpen "could not allocate a unique staging file"))
  | S attempts => λ p,
      let sequence := stage_sequence p in
      let p := set_stage_sequence p (sequence + 1) in
      let stage := parent ++ [stage_name file_name sequence (process_id p)] in
      let '(r, w) := file_create_new stage (world p) in
      let p := set_world p w in
      match r with
      | Ok _ =>
          (Ok (mkLocalWriter (Some stage) stage dest (flush options) (sync options) cancelled true),
           set_active_writers p (active_writers p + 1))
      | Err io.AlreadyExists => open_attempts attempts parent file_name dest options cancelled p
      | Err kind => (Err (from_io WriterOpen kind), p)
      end
  end.

Definition LocalWriter_open (dest : apath) (options : WriteOptions) (cancelled : bool) : native LocalWriter :=
  parent ← of_result (ok_or (match dest with [] => None | _ => Some (removelast dest) end)
    (NativeFailure_invalid WriterOpen "destination requires a parent directory"));
  file_name ← of_result (ok_or (last dest)
    (NativeFailure_invalid WriterOpen "destination requires a file name"));
  open_attempts 64 parent file_name dest options cancelled.

Definition stage (location : ObjectLocation) (options : WriteOptions) (cancelled : bool) : native LocalWriter :=
  dest ← resolve_destination location WriterOpen;
  LocalWriter_open dest options cancelled.

(** The methods change the writer as well as the process. *)
Definition method (A : Type) : Type := LocalWriter → Process → A * LocalWriter * Process.

Definition finish (w : LocalWriter) (p : Process) : LocalWriter * Process :=
  if active w then (deactivate w, set_active_writers p (active_writers p - 1)) else (w, p).

Definition cleanup_stage (w : LocalWriter) (p : Process) : LocalWriter * Process :=
  let w := close_file w in
  let '(_, p) := attempt (fs_remove_file (stage_path w)) p in
  finish w p.

Definition ensure_open (w : LocalWriter) (operation : Operation) : result NativeFailure () :=
  _ ← check (cancellation w) operation;
  if active w && bool_decide (is_Some (file w)) then Ok () else Err (NativeFailure_cancelled operation).

Definition write (data : bytes) : method (result NativeFailure Z) := λ w p,
  let '(r, p) :=
    (_ ← of_result (ensure_open w WriterWrite);
     file ← of_result (ok_or (file w) (NativeFailure_cancelled WriterWrite));
     _ ← io WriterWrite (file_write_all file data);
     _ ← (if bool_decide (writer_flush w = EachChunk) then io WriterWrite (file_flush file) else mret ());
     mret (len data)) p in
  (r, w, p).

(** The closure of [publish]. *)
Definition prepare (w : LocalWriter) : native () :=
  file ← of_result (ok_or (file w) (NativeFailure_cancelled WriterPublish));
  _ ← (if bool_decide (writer_flush w = FlushNone) then mret () else io WriterPublish (file_flush file));
  match writer_sync w with
  | SyncNone => mret ()
  | SyncData => io WriterPublish (file_sync_data file)
  | SyncAll => io WriterPublish (file_sync_all file)
  end.

Definition replace_file (source dest : apath) : io_op () := fs_rename source dest.

(** [replace_file] where [cfg(windows)] holds. *)
Definition windows_replace_file (source dest : apath) : io_op () := λ w,
  let '(removed, w) := fs_remove_file dest w in
  match removed with
  | Ok _ | Err io.NotFound => fs_rename source dest w
  | Err kind => (Err kind, w)
  end.

(** Opening and syncing the parent directory, errors forgotten. *)
Definition sync_parent (w : LocalWriter) (p : Process) : bool * Process :=
  match destination w with
  | [] => (false, p)
  | dest =>
      let '(r, p) := attempt (file_open (removelast dest)) p in
      match r with
      | Ok (Ok directory) =>
          let '(r, p) := attempt (file_sync_all directory) p in
          (match r with Ok (Ok _) => true | _ => false end, p)
      | _ => (false, p)
      end
  end.

(** [publish], given the [replace_file] of the platform. *)
Definition publish_by (replace : apath → apath → io_op ()) : method (result NativeFailure ObjectMetadata) := λ w p,
  match ensure_open w WriterPublish with
  | Err e => (Err e, w, p)
  | Ok _ =>
      let '(prepared, p) := prepare w p in
      match prepared with
      | Err e => let '(w, p) := cleanup_stage w p in (Err e, w, p)
      | Ok _ =>
          let '(metadata, p) := metadata_for (stage_path w) WriterPublish p in
          match metadata with
          | Err e => let '(w, p) := cleanup_stage w p in (Err e, w, p)
          | Ok metadata =>
              let w := close_file w in
              let '(replaced, p) := io WriterPublish (replace (stage_path w) (destination w)) p in
              match replaced with
              | Err e => let '(w, p) := cleanup_stage w p in (Err e, w, p)
              | Ok _ =>
                  let '(synced, p) :=
                    if bool_decide (writer_sync w = SyncAll) then sync_parent w p else (true, p) in
                  let '(w, p) := finish w p in
                  if synced then
                    (Ok (mkObjectMetadata (to_string_lossy (destination w)) (size metadata)
                           (modified_unix_ns metadata)), w, p)
                  else
                    (Err (NativeFailure_new NativeFailureCategory WriterPublish
                       "destination directory sync failed"), w, p)
              end
          end
      end
  end.

Definition publish : method (result NativeFailure ObjectMetadata) := publish_by replace_file.
Definition windows_publish : method (result NativeFailure ObjectMetadata) := publish_by windows_replace_file.

Definition abort : method (result NativeFailure bool) := λ w p,
  if negb (active w) then (Ok false, w, p)
  else
    let w := close_file (cancel_writer w) in
    let '(removed, wd) := fs_remove_file (stage_path w) (world p) in
    let '(w, p) := finish w (set_world p wd) in
    (match removed with
     | Ok _ => Ok true
     | Err io.NotFound => Ok true
     | Err kind => Err (from_io WriterAbort kind)
     end, w, p).

(** [Write for LocalWriter]: the errors become [io::Error]s. *)
Definition write_io (data : bytes) : method (result IoError Z) := λ w p,
  let '(r, w, p) := write data w p in
  (map_err (λ _, IoOther "staged object write failed") r, w, p).

Definition flush_io : method (result IoError ()) := λ w p,
  (_ ← map_err (λ _, IoOther "staged object write failed") (ensure_open w WriterWrite);
   _ ← ok_or (file w) (IoOther "staged object writer is closed");
   Ok (), w, p).

(** [Drop]. *)
Definition drop_writer (w : LocalWriter) (p : Process) : Process :=
  if active w then (cleanup_stage (cancel_writer w) p).2 else p.

Definition resource_snapshot (p : Process) : Z * Z := (active_writers p, bytes_read p).

(** ** Lemmas: operations that only look *)

(** Two processes that differ only in the faults still to come (none, when none were). *)
Definition same (p q : Process) : Prop :=
  files (world q) = files (world p) ∧ cwd (world q) = cwd (world p) ∧ clock (world q) = clock (world p) ∧
  active_writers q = active_writers p ∧ bytes_read q = bytes_read p ∧
  stage_sequence q = stage_sequence p ∧ process_id q = process_id p ∧
  (faults (world p) = [] → faults (world q) = []).

#[export] Instance same_preorder : PreOrder same.
Proof.
  split; [by intros p|]. intros p q r (? & ? & ? & ? & ? & ? & ? & ?) (? & ? & ? & ? & ? & ? & ? & ?).
  unfold same. split_and!; solve [congruence|auto].
Qed.

Definition quiet {A} (m : native A) : Prop := ∀ p, same p (m p).2.

Lemma quiet_ret {A} (a : A) : quiet (mret a).
Proof. intros p. simpl. reflexivity. Qed.

Lemma quiet_of_result {A} (r : result NativeFailure A) : quiet (of_result r).
Proof. intros p. simpl. reflexivity. Qed.

Lemma quiet_bind {A B} (m : native A) (f : A → native B) :
  quiet m → (∀ a, quiet (f a)) → quiet (m ≫= f).
Proof.
  intros Hm Hf p. unfold mbind, native_bind. specialize (Hm p).
  destruct (m p) as [[a|e] q]; simpl in *; [|done]. etransitivity; [exact Hm|apply Hf].
Qed.

Lemma quiet_looking {A} o (look : World → result io.ErrorKind A) : quiet (io o (looking look)).
Proof.
  intros p. unfold io, looking, syscall. destruct (faults (world p)) as [|[[k n]|] fs] eqn:Hf; simpl;
    (split_and!; [done..|]); by rewrite ?Hf.
Qed.

Lemma quiet_flush o f : quiet (io o (file_flush f)).
Proof. intros p. simpl. by repeat split. Qed.

Lemma quiet_if {A} (b : bool) (m n : native A) : quiet m → quiet n → quiet (if b then m else n).
Proof. by destruct b. Qed.

Create HintDb quiet.
#[export] Hint Resolve quiet_ret quiet_of_result quiet_bind quiet_looking quiet_flush quiet_if : quiet.

Lemma quiet_metadata_for path o : quiet (metadata_for path o).
Proof. apply quiet_bind; [apply quiet_looking|]. intros []; auto with quiet. Qed.

Lemma quiet_canonical_allowed_root l o : quiet (canonical_allowed_root l o).
Proof.
  unfold canonical_allowed_root. destruct (allowed_root l); auto with quiet.
  apply quiet_bind; [apply quiet_looking|auto with quiet].
Qed.

Lemma quiet_enforce l q o : quiet (enforce_allowed_root l q o).
Proof.
  apply quiet_bind; [apply quiet_canonical_allowed_root|].
  intros [root|]; [destruct (negb _)|]; auto with quiet.
Qed.

Lemma quiet_resolve_existing l o : quiet (resolve_existing l o).
Proof.
  apply quiet_bind; [apply quiet_looking|]. intros q.
  apply quiet_bind; [apply quiet_enforce|auto with quiet].
Qed.

Lemma quiet_resolve_destination l o : quiet (resolve_destination l o).
Proof.
  apply quiet_bind; [auto with quiet|]. intros ?. apply quiet_bind; [auto with quiet|]. intros ?.
  apply quiet_bind; [apply quiet_looking|]. intros q.
  apply quiet_bind; [apply quiet_enforce|auto with quiet].
Qed.

Lemma quiet_prepare w : quiet (prepare w).
Proof.
  apply quiet_bind; [auto with quiet|]. intros f.
  apply quiet_bind; [auto with quiet|]. intros _.
  destruct (writer_sync w); try apply quiet_looking; auto with quiet.
Qed.

Lemma quiet_attempt {A} (look : World → result io.ErrorKind A) : quiet (attempt (looking look)).
Proof.
  intros p. unfold attempt, looking, syscall. destruct (faults (world p)) as [|[[k n]|] fs] eqn:Hf; simpl;
    (split_and!; [done..|]); by rewrite ?Hf.
Qed.

Lemma quiet_sync_parent w p : same p (sync_parent w p).2.
Proof.
  unfold sync_parent. destruct (destination w) as [|x d]; [reflexivity|].
  match goal with |- context [attempt ?o p] => assert (same p (attempt o p).2) as H1
    by apply quiet_attempt; destruct (attempt o p) as [r q] end.
  destruct r as [[dir|]|]; try done.
  match goal with |- context [attempt ?o q] => assert (same q (attempt o q).2) as H2
    by apply quiet_attempt; destruct (attempt o q) as [r q2] end.
  simpl in *. by etransitivity.
Qed.

(** Running two operations in sequence. *)
Lemma native_bind_inv {A B} (m : native A) (f : A → native B) p r p' :
  (m ≫= f) p = (r, p') →
  (∃ e, m p = (Err e, p') ∧ r = Err e) ∨ ∃ a q, m p = (Ok a, q) ∧ f a q = (r, p').
Proof. unfold mbind, native_bind. destruct (m p) as [[a|e] q]; [eauto|]. intros [= <- <-]. eauto. Qed.

Lemma io_inv {A} o (op : io_op A) p r p' :
  io o op p = (r, p') → ∃ r0 w, op (world p) = (r0, w) ∧ p' = set_world p w ∧ r = map_err (from_io o) r0.
Proof. unfold io. destruct (op (world p)) as [r0 w]. intros [= <- <-]. eauto. Qed.

(** ** Lemmas: real paths *)

(** A path without symbolic links: every prefix of it is a directory. *)
Definition real_directory (fs : gmap apath Node) (d : apath) : Prop :=
  ∀ k name, d !! k = Some name → fs !! (take (S k) d) = Some Directory.

Lemma resolve_real links fs d rest :
  real_directory fs d → resolve links fs [] (map Normal d ++ rest) = resolve links fs d rest.
Proof.
  intros Hd.
  assert (∀ post pre, d = pre ++ post →
    resolve links fs pre (map Normal post ++ rest) = resolve links fs d rest) as Hgen.
  { induction post as [|name post IH]; intros pre Hpre; simpl.
    - by rewrite Hpre, app_nil_r.
    - assert (fs !! (pre ++ [name]) = Some Directory) as Hn.
      { specialize (Hd (length pre) name). rewrite Hpre in Hd.
        rewrite list_lookup_middle in Hd by done. specialize (Hd eq_refl).
        replace (take (S (length pre)) (pre ++ name :: post)) with (pre ++ [name]) in Hd; [done|].
        rewrite take_app_ge by lia.
        replace (S (length pre) - length pre)%nat with 1%nat by lia. done. }
      destruct links; simpl; rewrite Hn; apply IH; by rewrite <-app_assoc. }
  by apply (Hgen d []).
Qed.

Lemma follow_real_file w d name c m :
  real_directory (files w) d → files w !! (d ++ [name]) = Some (RegularFile c m) →
  follow w (of_apath (d ++ [name])) = Ok (d ++ [name]).
Proof.
  intros Hd Hf. unfold follow, of_apath.
  change (resolve max_links (files w) [] (map Normal (d ++ [name])) = Ok (d ++ [name])).
  rewrite map_app, resolve_real by done. simpl. by rewrite Hf.
Qed.

Lemma metadata_for_file path o p md p' :
  metadata_for path o p = (Ok md, p') →
  ∃ q c m, follow (world p) (of_apath path) = Ok q ∧ node_at (files (world p)) q = Some (RegularFile c m) ∧
    size md = len c ∧ modified_unix_ns md = m ≫= system_time_ns.
Proof.
  unfold metadata_for. intros [(e & _ & [=])|(n & p1 & Hio & Hk)]%native_bind_inv.
  apply io_inv in Hio as (r0 & w & Hop & -> & Hr).
  destruct r0 as [n0|]; [|done]. simplify_eq/=. unfold fs_metadata in Hop.
  apply looking_Ok in Hop as (_ & _ & _ & v & Hf & Hc & _ & Hl).
  apply bind_Ok in Hl as (q & Hq & Hn%ok_or_Ok).
  assert (follow (world p) (of_apath path) = Ok q) as Hq'.
  { unfold follow in *. rewrite Hf, Hc in Hq. done. }
  rewrite Hf in Hn. destruct n0 as [c m| | |]; try done. injection Hk as <- <-. by exists q, c, m.
Qed.

(** ** Lemmas: the writer's effects *)

(** The counters of a process, and the change an operation makes to them. *)
Definition counters (p : Process) : Z * Z * Z := (active_writers p, bytes_read p, stage_sequence p).

Lemma same_files p q : same p q → files (world q) = files (world p).
Proof. by intros (? & _). Qed.
Lemma same_counters p q : same p q → counters q = counters p.
Proof. intros (_ & _ & _ & Ha & Hb & Hs & _). unfold counters. congruence. Qed.

(** Removing a file removes it, or leaves everything. *)
Lemma remove_keeps q w r w' : fs_remove_file q w = (r, w') →
  match r with
  | Ok _ => files w' = delete q (files w)
  | Err _ => files w' = files w
  end.
Proof.
  intros (_ & _ & Hr)%changing_cases. destruct r as [[]|e]; [|done].
  destruct Hr as (v & fs & Hf & _ & _ & Hv & ->). destruct (node_at (files v) q) as [[]|];
    simplify_eq; congruence.
Qed.

Lemma remove_cases q w r w' :
  q ≠ [] → fs_remove_file q w = (r, w') →
  match r with
  | Ok _ => files w' = delete q (files w)
  | Err _ => files w' = files w
  end ∧ (faults w = [] → files w !! q ≠ Some Directory → files w' = delete q (files w)).
Proof.
  intros Hq Hr. split; [by eapply remove_keeps|].
  - intros Hno Hd. unfold fs_remove_file, changing, syscall in Hr. rewrite Hno in Hr.
    destruct q as [|x q]; [done|]. cbn [node_at] in Hr.
    destruct (files w !! (x :: q)) as [[]|] eqn:Hn; simplify_eq/=; try done.
    by rewrite delete_id.
Qed.

Lemma cleanup_stage_spec w p w' p' :
  stage_path w ≠ [] → cleanup_stage w p = (w', p') →
  active w' = false ∧ file w' = None ∧
  active_writers p' = (if active w then usize_wrap (active_writers p - 1) else active_writers p) ∧
  (files (world p') = files (world p) ∨ files (world p') = delete (stage_path w) (files (world p))) ∧
  (faults (world p) = [] → files (world p) !! stage_path w ≠ Some Directory →
   files (world p') = delete (stage_path w) (files (world p))).
Proof.
  intros Hs. unfold cleanup_stage, attempt. simpl.
  destruct (fs_remove_file (stage_path w) (world p)) as [r wd] eqn:Hr.
  apply remove_cases in Hr as [Hr Hno]; [|done]. unfold finish. simpl.
  destruct (active w) eqn:Ha; intros [= <- <-]; simpl; (split_and!; try done; destruct r; auto).
Qed.

Lemma rename_cases s d w r w' :
  s ≠ [] → fs_rename s d w = (r, w') →
  match r with
  | Ok _ => ∃ n, files w !! s = Some n ∧ files w' = <[d := n]> (delete s (files w))
  | Err _ => files w' = files w
  end.
Proof.
  intros Hs (_ & _ & Hr)%changing_cases. destruct r as [[]|e]; [|done].
  destruct Hr as (v & fs & Hf & _ & _ & Hv & ->). destruct s as [|x s]; [done|]. cbn [node_at] in Hv.
  rewrite <-Hf. destruct (files v !! (x :: s)) as [n|]; [|done].
  exists n. split; [done|].
  destruct n, (node_at (files v) d) as [[]|], (node_at (files v) (removelast d)); by simplify_eq.
Qed.

(** An open writer whose staging file holds [contents]. *)
Record staged (w : LocalWriter) (p : Process) (contents : bytes) : Prop := {
  staged_active : active w = true;
  staged_file : file w = Some (stage_path w);
  staged_contents : ∃ m, files (world p) !! stage_path w = Some (RegularFile contents m);
  staged_apart : stage_path w ≠ destination w;
  staged_path : stage_path w ≠ [];
}.

(** How a publication leaves the files: the destination is as before or holds
    the whole staged content, the staging file may be gone, and nothing else
    has changed. *)
Definition published (w : LocalWriter) (contents : bytes) (before after : gmap apath Node) : Prop :=
  (∃ m, after !! destination w = Some (RegularFile contents m)) ∧
  after !! stage_path w = None ∧
  ∀ q, q ≠ stage_path w → q ≠ destination w → after !! q = before !! q.

(** The metadata is that of the file. *)
Definition described (dest : apath) (contents : bytes) (md : ObjectMetadata) (fs : gmap apath Node) : Prop :=
  size md = len contents ∧
  ∃ m, fs !! dest = Some (RegularFile contents m) ∧ modified_unix_ns md = m ≫= system_time_ns.

Definition unpublished (w : LocalWriter) (before after : gmap apath Node) : Prop :=
  after = before ∨ after = delete (stage_path w) before.

Lemma unpublished_same w p q f :
  same p q → unpublished w (files (world q)) f → unpublished w (files (world p)) f.
Proof. intros Hs. unfold unpublished. by rewrite (same_files p q Hs). Qed.

Lemma finish_active w p : active w = true →
  finish w p = (deactivate w, set_active_writers p (active_writers p - 1)).
Proof. unfold finish. by intros ->. Qed.

(** The metadata of a staging file no link leads to. *)
Lemma metadata_for_staged w p p1 contents m md p2 :
  same p p1 → files (world p) !! stage_path w = Some (RegularFile contents m) →
  metadata_for (stage_path w) WriterPublish p1 = (Ok md, p2) →
  ∀ d name, stage_path w = d ++ [name] → real_directory (files (world p)) d →
    size md = len contents ∧ modified_unix_ns md = m ≫= system_time_ns.
Proof.
  intros (Hf1 & _) Hc Hmd d name Hst Hreal.
  apply metadata_for_file in Hmd as (q & c & m' & Hfol & Hnode & -> & ->).
  rewrite Hst in Hfol, Hc. erewrite follow_real_file in Hfol by (rewrite Hf1; eauto).
  injection Hfol as <-. rewrite Hf1 in Hnode.
  assert (node_at (files (world p)) (d ++ [name]) = files (world p) !! (d ++ [name])) as Hna by by destruct d.
  rewrite Hna in Hnode. by simplify_eq.
Qed.

Lemma sync_parent_same (c : bool) w p b p' : (if c then sync_parent w p else (true, p)) = (b, p') →
  same p p' ∧ (b = false → c = true).
Proof.
  destruct c; intros Heq; [|by injection Heq as <- <-].
  pose proof (quiet_sync_parent w p) as Hs. rewrite Heq in Hs. done.
Qed.

(** What a failed replacement may leave behind, and how it reflects on a
    publication. *)
Section replacing.
Context (replace : apath → apath → io_op ()) (failed : apath → gmap apath Node → gmap apath Node → Prop).
Context (Hreplace : ∀ s d w r w', s ≠ [] → s ≠ d → replace s d w = (r, w') →
  match r with
  | Ok _ => ∃ n, files w !! s = Some n ∧ files w' = <[d := n]> (delete s (files w))
  | Err _ => failed d (files w) (files w')
  end).

Definition unpublished_by (w : LocalWriter) (before after : gmap apath Node) : Prop :=
  unpublished w before after ∨ ∃ mid, failed (destination w) before mid ∧ unpublished w mid after.

Lemma publish_by_cases w p contents r w' p' :
  staged w p contents → cancellation w = false → publish_by replace w p = (r, w', p') →
  active w' = false ∧ active_writers p' = usize_wrap (active_writers p - 1) ∧
  match r with
  | Ok md => published w contents (files (world p)) (files (world p')) ∧
      path md = to_string_lossy (destination w) ∧
      ∀ d name, stage_path w = d ++ [name] → real_directory (files (world p)) d →
        described (destination w) contents md (files (world p'))
  | Err e => unpublished_by w (files (world p)) (files (world p')) ∨
      (writer_sync w = SyncAll ∧ published w contents (files (world p)) (files (world p')))
  end.
Proof.
  intros [Ha Hf [m Hc] Happ Hsp] Hcan Hp. unfold publish_by, ensure_open in Hp.
  rewrite Hcan, Ha, Hf in Hp. simpl in Hp.
  assert (∀ v q w1 q1, stage_path v = stage_path w → active v = true → cleanup_stage v q = (w1, q1) →
    active w1 = false ∧ active_writers q1 = usize_wrap (active_writers q - 1) ∧
    unpublished w (files (world q)) (files (world q1))) as Hclean.
  { intros v q w1 q1 Hv Hva Hcl. apply cleanup_stage_spec in Hcl as (-> & _ & -> & Hfs & _); [|congruence].
    unfold unpublished. by rewrite Hva, <-Hv. }
  pose proof (quiet_prepare w p) as Hq1. destruct (prepare w p) as [[[]|e] p1]; simpl in Hq1.
  2: { destruct (cleanup_stage w p1) as [w2 p2] eqn:Hcl. simplify_eq.
       apply Hclean in Hcl as (-> & -> & Hu); [|done..]. destruct Hq1 as (Hfiles & _ & _ & -> & _).
       split_and!; [done..|]. left. left. by rewrite <-Hfiles. }
  pose proof (quiet_metadata_for (stage_path w) WriterPublish p1) as Hq2.
  destruct (metadata_for (stage_path w) WriterPublish p1) as [[md|e] p2] eqn:Hmd; simpl in Hq2;
    assert (same p p2) as (Hfiles & _ & _ & Hcount & _) by (by etransitivity).
  2: { destruct (cleanup_stage w p2) as [w3 p3] eqn:Hcl. simplify_eq.
       apply Hclean in Hcl as (-> & -> & Hu); [|done..]. rewrite Hcount.
       split_and!; [done..|]. left. left. by rewrite <-Hfiles. }
  pose proof (metadata_for_staged w p p1 contents m md p2 Hq1 Hc Hmd) as Hsize.
  destruct (io WriterPublish _ p2) as [rr p3] eqn:Hrn.
  apply io_inv in Hrn as (r0 & wd & Hrn & -> & ->). apply Hreplace in Hrn; [|done..].
  destruct r0 as [[]|k]; simpl in Hp, Hrn; rewrite Hfiles in Hrn.
  2: { destruct (cleanup_stage (close_file w) (set_world p2 wd)) as [w3 p3] eqn:Hcl. simplify_eq.
       apply Hclean in Hcl as (-> & -> & Hu); [|done..]. cbn [active_writers set_world]. rewrite Hcount.
       split_and!; [done..|]. left. right. by exists (files wd). }
  destruct Hrn as (n & Hn & Hwd). assert (n = RegularFile contents m) as -> by congruence.
  assert (published w contents (files (world p)) (files wd)) as Hpub.
  { rewrite Hwd. split; [exists m; apply lookup_insert_eq|]. split.
    - rewrite lookup_insert_ne by done. apply lookup_delete_eq.
    - intros q Hq1' Hq2'. by rewrite lookup_insert_ne, lookup_delete_ne. }
  simpl in Hp. destruct (if bool_decide _ then _ else _) as [b p4] eqn:Hb.
  apply sync_parent_same in Hb as [(Hf4 & _ & _ & Hc4 & _) Hall]. cbn [world set_world active_writers] in Hf4, Hc4.
  rewrite finish_active in Hp by done.
  destruct b; simplify_eq/=; rewrite ?Hf4, ?Hc4, ?Hcount; split_and!; try done.
  - intros d name Hst Hreal. destruct (Hsize d name Hst Hreal) as [-> ->]. split; [done|]. exists m.
    split; [|done]. rewrite Hwd. apply lookup_insert_eq.
  - right. split; [by eapply bool_decide_eq_true_1, Hall|done].
Qed.

End replacing.

Lemma publish_cases w p contents r w' p' :
  staged w p contents → cancellation w = false → publish w p = (r, w', p') →
  active w' = false ∧ active_writers p' = usize_wrap (active_writers p - 1) ∧
  match r with
  | Ok md => published w contents (files (world p)) (files (world p')) ∧
      path md = to_string_lossy (destination w) ∧
      ∀ d name, stage_path w = d ++ [name] → real_directory (files (world p)) d →
        described (destination w) contents md (files (world p'))
  | Err e => unpublished w (files (world p)) (files (world p')) ∨
      (writer_sync w = SyncAll ∧ published w contents (files (world p)) (files (world p')))
  end.
Proof.
  intros Hst Hcan Hp. apply (publish_by_cases replace_file (λ _ before after, after = before)) with (contents := contents) in Hp;
    [|intros s d w0 r0 w1 Hs _; by apply rename_cases|done..].
  destruct Hp as (Ha & Hn & Hr). split_and!; [done..|]. destruct r as [md|e]; [done|].
  destruct Hr as [[Hu|(mid & -> & Hu)]|Hpub]; auto.
Qed.

(** Removing the destination first: when the renaming fails after it, the
    destination is gone. *)
Lemma windows_replace_cases s d w r w' : s ≠ [] → s ≠ d → windows_replace_file s d w = (r, w') →
  match r with
  | Ok _ => ∃ n, files w !! s = Some n ∧ files w' = <[d := n]> (delete s (files w))
  | Err _ => files w' = files w ∨ files w' = delete d (files w)
  end.
Proof.
  intros Hs Hne. unfold windows_replace_file. destruct (fs_remove_file d w) as [removed w1] eqn:Hrm.
  apply remove_keeps in Hrm.
  assert (files w1 = files w ∨ files w1 = delete d (files w)) as Hw1 by (destruct removed; auto).
  assert (fs_rename s d w1 = (r, w') → match r with
    | Ok _ => ∃ n, files w !! s = Some n ∧ files w' = <[d := n]> (delete s (files w))
    | Err _ => files w' = files w ∨ files w' = delete d (files w)
    end) as Hren.
  { intros Hr. apply rename_cases in Hr; [|done]. destruct r as [u|e]; [|destruct Hw1; [left|right]; congruence].
    destruct Hr as (n & Hn & Hw'). exists n. destruct Hw1 as [Hw1|Hw1]; rewrite Hw1 in Hn, Hw'; [done|].
    rewrite lookup_delete_ne in Hn by done. split; [done|].
    by rewrite Hw', delete_delete, insert_delete_eq. }
  destruct removed as [u|[]]; try exact Hren; intros Hr; simplify_eq; auto.
Qed.

(** ** The life of a writer *)

(** What can happen between [open] and the end of a writer.  The third
    component is the data acknowledged so far, unknown once a write failed. *)
Inductive own_step : LocalWriter * Process * option bytes → LocalWriter * Process * option bytes → Prop :=
  | step_write data w p acc r w' p' :
      write data w p = (r, w', p') →
      own_step (w, p, acc)
        (w', p', match r with Ok _ => (λ c, c ++ data) <$> acc | Err _ => None end)
  | step_flush w p acc r w' p' :
      flush_io w p = (r, w', p') → own_step (w, p, acc) (w', p', acc)
  | step_cancel w p acc : own_step (w, p, acc) (cancel_writer w, p, acc).

(** ... and others may do anything but touch the staging file. *)
Inductive any_step : LocalWriter * Process * option bytes → LocalWriter * Process * option bytes → Prop :=
  | step_own x y : own_step x y → any_step x y
  | step_other w p p' acc :
      files (world p') !! stage_path w = files (world p) !! stage_path w →
      any_step (w, p, acc) (w, p', acc).

Lemma string_length_app (a b : string) :
  String.length (a +:+ b) = (String.length a + String.length b)%nat.
Proof. induction a as [|x a IH]; autorewrite with parquex; simpl; [done|]. by rewrite IH. Qed.

Lemma stage_name_ne name n pid : stage_name name n pid ≠ name.
Proof.
  intros Heq. apply (f_equal String.length) in Heq. unfold stage_name in Heq.
  rewrite !string_length_app in Heq. simpl in Heq. lia.
Qed.

(** What [open] leaves: a fresh, empty staging file beside the destination, and
    one more active writer. *)
Lemma open_attempts_Ok n parent name dest options cancelled p w p' :
  open_attempts n parent name dest options cancelled p = (Ok w, p') →
  ∃ sequence, stage_path w = parent ++ [stage_name name sequence (process_id p)] ∧
    file w = Some (stage_path w) ∧ destination w = dest ∧ cancellation w = cancelled ∧ active w = true ∧
    writer_flush w = flush options ∧ writer_sync w = sync options ∧
    files (world p) !! stage_path w = None ∧
    files (world p') = <[stage_path w := RegularFile [] (clock (world p))]> (files (world p)) ∧
    active_writers p' = usize_wrap (active_writers p + 1).
Proof.
  revert p. induction n as [|n IH]; intros p; [done|]. cbn [open_attempts].
  set (q := parent ++ [stage_name name (stage_sequence p) (process_id (set_stage_sequence p (stage_sequence p + 1)))]).
  destruct (file_create_new q (world _)) as [r wd] eqn:Hr.
  apply changing_cases in Hr as (Hcwd & Hclk & Hr). simpl in *.
  destruct r as [[]|k].
  - intros [= <- <-]. simpl. exists (stage_sequence p).
    destruct Hr as (v & fs & Hf & Hc & Hk & Hv & ->).
    assert (∃ x l, q = x :: l) as (x & l & Hq) by (unfold q; destruct parent; eauto).
    unfold file_create_new in Hv. rewrite Hf, Hk in Hv.
    destruct (node_at (files (world p)) (removelast q)) as [[]|]; try done.
    rewrite Hq in Hv |- *. cbn [node_at] in Hv.
    destruct (files (world p) !! (x :: l)) eqn:Hnone; simplify_eq. by split_and!.
  - intros Hopen. assert (open_attempts n parent name dest options cancelled
        (set_world (set_stage_sequence p (stage_sequence p + 1)) wd) = (Ok w, p')) as Hop.
    { by destruct k; simplify_eq. }
    apply IH in Hop as (sequence & Hst & ? & ? & ? & ? & ? & ? & Hnone & Hfs & Hact). simpl in *.
    rewrite Hr in Hnone, Hfs. exists sequence. rewrite <-Hclk. by split_and!.
Qed.

Lemma LocalWriter_open_Ok dest options cancelled p w p' :
  LocalWriter_open dest options cancelled p = (Ok w, p') →
  staged w p' [] ∧ destination w = dest ∧ cancellation w = cancelled ∧
  writer_flush w = flush options ∧ writer_sync w = sync options ∧
  files (world p) !! stage_path w = None ∧
  files (world p') = <[stage_path w := RegularFile [] (clock (world p))]> (files (world p)) ∧
  active_writers p' = usize_wrap (active_writers p + 1).
Proof.
  unfold LocalWriter_open. intros [(e & _ & [=])|(par & q & Hpar & Hk)]%native_bind_inv.
  injection Hpar as Hpar <-. apply ok_or_Ok in Hpar.
  apply native_bind_inv in Hk as [(e & _ & [=])|(name & q & Hname & Hk)].
  injection Hname as Hname <-. apply ok_or_Ok in Hname.
  apply open_attempts_Ok in Hk as (n & Hst & Hfile & Hd & Hc & Ha & Hfl & Hsy & Hnone & Hfs & Hact).
  split_and!; try done. constructor; try done.
  - exists (clock (world p)). rewrite Hfs. apply lookup_insert_eq.
  - assert (par = removelast dest) as -> by (destruct dest; congruence).
    apply last_Some in Hname as [l Hl]. rewrite Hst, Hd, Hl, removelast_last.
    intros [_ [=Heq]]%app_inj_2; [|done]. by apply stage_name_ne in Heq.
  - rewrite Hst. by destruct par.
Qed.

(** The effect of appending to a regular file. *)
Lemma write_all_cases q contents m data w r w' :
  files w !! q = Some (RegularFile contents m) → file_write_all q data w = (r, w') →
  ∃ written, files w' = <[q := RegularFile (contents ++ written) (clock w)]> (files w) ∧
    match r with Ok _ => written = data | Err _ => written `prefix_of` data end.
Proof.
  intros Hc. unfold file_write_all, syscall, file_append.
  destruct (faults w) as [|[[k n]|] fs]; simpl; rewrite Hc; intros [= <- <-]; simpl; eauto using prefix_take.
Qed.

(** The effect of one write on the files. *)
Lemma write_cases data w p contents r w' p' :
  staged w p contents → write data w p = (r, w', p') →
  w' = w ∧ active_writers p' = active_writers p ∧
  ∃ written m, files (world p') = <[stage_path w := RegularFile (contents ++ written) m]> (files (world p)) ∧
    match r with Ok n => written = data ∧ n = len data | Err _ => written `prefix_of` data end.
Proof.
  intros [Ha Hf [m Hc] Happ Hsp] Hw. unfold write in Hw.
  match type of Hw with (let '(_, _) := ?t in _) = _ => destruct t as [r0 p0] eqn:Hm end.
  injection Hw as <- <- <-. split; [done|].
  apply native_bind_inv in Hm as [(e & Hm & ->)|([] & q & Hm & Hk)].
  { injection Hm as _ <-. split; [done|]. exists [], m. rewrite app_nil_r, insert_id by done. split; [done|apply prefix_nil]. }
  injection Hm as _ <-. rewrite Hf in Hk.
  apply native_bind_inv in Hk as [(e & [=] & _)|(f & q & [= <- <-] & Hk)].
  assert (∀ r1 q1, io WriterWrite (file_write_all (stage_path w) data) p = (r1, q1) →
    active_writers q1 = active_writers p ∧
    ∃ written m, files (world q1) = <[stage_path w := RegularFile (contents ++ written) m]> (files (world p)) ∧
      match r1 with Ok _ => written = data | Err _ => written `prefix_of` data end) as Hio.
  { intros r1 q1 (r2 & wd & Hop & -> & ->)%io_inv. split; [done|].
    eapply write_all_cases in Hop as (written & Hfs & Hr); [|exact Hc]. exists written, (clock (world p)).
    split; [done|]. by destruct r2. }
  apply native_bind_inv in Hk as [(e & Hm & ->)|([] & q & Hm & Hk)]; destruct (Hio _ _ Hm) as (Hact & written & m' & Hfs & Hr).
  { split; [done|]. eauto. }
  assert (same q p0 ∧ r0 = Ok (len data)) as [Hq ->].
  { destruct (bool_decide _).
    - by apply native_bind_inv in Hk as [(e & [=] & _)|([] & q2 & [= <-] & [= <- <-])].
    - by apply native_bind_inv in Hk as [(e & [=] & _)|([] & q2 & [= <-] & [= <- <-])]. }
  destruct Hq as (Hfq & _ & _ & Haq & _). split; [congruence|]. exists written, m'. rewrite Hfq. by split.
Qed.

(** The invariant of a writer's life. *)
Definition writing (w0 : LocalWriter) (x : LocalWriter * Process * option bytes) : Prop :=
  let '(w, p, acc) := x in
  ∃ c, staged w p c ∧ (∀ d, acc = Some d → c = d) ∧
    stage_path w = stage_path w0 ∧ destination w = destination w0 ∧ writer_sync w = writer_sync w0.

(** ... when only the writer itself acts: the files but for the staging file. *)
Definition alone (stage : apath) (before : gmap apath Node) (writers : Z)
    (x : LocalWriter * Process * option bytes) : Prop :=
  let '(w, p, acc) := x in
  (∃ c m, files (world p) = <[stage := RegularFile c m]> before) ∧ active_writers p = writers.

Lemma staged_files w p q c :
  files (world q) !! stage_path w = files (world p) !! stage_path w → staged w p c → staged w q c.
Proof. intros Hq [Ha Hf [m Hc] Happ Hsp]. constructor; try done. exists m. by rewrite Hq. Qed.

Lemma own_step_writing w0 x y : own_step x y → writing w0 x → writing w0 y.
Proof.
  intros [data w p acc r w' p' Hw|w p acc r w' p' Hw|w p acc]; intros (c & Hst & Hacc & Hs & Hd & Hy).
  - pose proof Hst as [Ha Hf [m Hc] Happ Hsp].
    destruct (write_cases _ _ _ _ _ _ _ Hst Hw) as (-> & _ & written & m' & Hfs & Hr).
    exists (c ++ written). split.
    { constructor; try done. exists m'. rewrite Hfs. apply lookup_insert_eq. }
    split; [|done]. intros d. destruct r as [n|e]; [|done]. destruct Hr as [-> _].
    destruct acc as [d0|]; [|done]. intros [= <-]. by rewrite (Hacc d0 eq_refl).
  - unfold flush_io in Hw. injection Hw as _ <- <-. by exists c.
  - exists c. split; [|done]. by destruct Hst.
Qed.

Lemma any_step_writing w0 x y : any_step x y → writing w0 x → writing w0 y.
Proof.
  intros [x' y' Hs|w p p' acc Hp]; [by apply own_step_writing|].
  intros (c & Hst & Hrest). exists c. split; [by eapply staged_files|done].
Qed.

Lemma steps_writing w0 x y : rtc any_step x y → writing w0 x → writing w0 y.
Proof. induction 1; eauto using any_step_writing. Qed.

Lemma own_step_alone w0 before n x y :
  own_step x y → writing w0 x ∧ alone (stage_path w0) before n x →
  writing w0 y ∧ alone (stage_path w0) before n y.
Proof.
  intros Hs [Hw Ha]. split; [by eapply own_step_writing|].
  destruct Hs as [data w p acc r w' p' Hwr|w p acc r w' p' Hwr|w p acc]; [|unfold flush_io in Hwr; simplify_eq; done|done].
  destruct Hw as (c & Hst & _ & Hsp & _), Ha as [(c0 & m0 & Hf) Hn].
  destruct (write_cases _ _ _ _ _ _ _ Hst Hwr) as (-> & Hact & written & m & Hfs & _).
  split; [|congruence]. exists (c ++ written), m. by rewrite Hfs, Hsp, Hf, insert_insert_eq.
Qed.

Lemma own_steps_alone w0 before n x y :
  rtc own_step x y → writing w0 x ∧ alone (stage_path w0) before n x →
  writing w0 y ∧ alone (stage_path w0) before n y.
Proof. induction 1; eauto using own_step_alone. Qed.

(** Removing the staging file restores the files from before [open]. *)
Lemma delete_restores (stage : apath) (before : gmap apath Node) n :
  before !! stage = None → delete stage (<[stage := n]> before) = before.
Proof. intros Hn. rewrite delete_insert_eq. by apply delete_id. Qed.

(** However a writer got where it is, it has staged a content. *)
Lemma steps_staged dest options p0 w0 p1 w p acc :
  LocalWriter_open dest options false p0 = (Ok w0, p1) → rtc any_step (w0, p1, Some []) (w, p, acc) →
  ∃ contents, staged w p contents ∧ (∀ d, acc = Some d → contents = d) ∧
    stage_path w = stage_path w0 ∧ destination w = destination w0 ∧ destination w0 = dest ∧
    writer_sync w = sync options.
Proof.
  intros (Hst0 & Hd0 & _ & _ & Hs0 & _)%LocalWriter_open_Ok Hsteps.
  assert (writing w0 (w0, p1, Some [])) as Hinit.
  { exists []. split; [done|]. split; [by intros d [= <-]|done]. }
  destruct (steps_writing w0 _ _ Hsteps Hinit) as (c & Hst & Hacc & Hsp & Hd & Hsy).
  exists c. split_and!; congruence || done.
Qed.

(** ** Properties of the writer *)

(** C5: publication is atomic.  Whatever fails, and whatever else happens to
    the file system short of touching the staging file, publishing a writer
    either leaves the destination alone (removing the staging file, if that
    does not fail as well) or replaces it by the whole staged content, which
    is the concatenation of the written chunks if no write failed; the metadata
    returned is that of the new file.  An error after the replacement is only
    possible when the directory is synced. *)
Theorem publish_atomic dest options p0 w0 p1 w p acc r w' p' :
  LocalWriter_open dest options false p0 = (Ok w0, p1) →
  rtc any_step (w0, p1, Some []) (w, p, acc) → cancellation w = false →
  publish w p = (r, w', p') →
  active w' = false ∧ active_writers p' = usize_wrap (active_writers p - 1) ∧
  ∃ contents, (∀ d, acc = Some d → contents = d) ∧
  match r with
  | Ok md => published w0 contents (files (world p)) (files (world p')) ∧
      path md = to_string_lossy dest ∧
      (∀ d name, stage_path w0 = d ++ [name] → real_directory (files (world p)) d →
        described dest contents md (files (world p')))
  | Err e => unpublished w0 (files (world p)) (files (world p')) ∨
      (sync options = SyncAll ∧ published w0 contents (files (world p)) (files (world p')))
  end.
Proof.
  intros Hopen Hsteps Hcan Hp.
  destruct (steps_staged _ _ _ _ _ _ _ _ Hopen Hsteps) as (c & Hst & Hacc & Hsp & Hd & Hd0 & Hsy).
  destruct (publish_cases _ _ _ _ _ _ Hst Hcan Hp) as (Ha & Hn & Hr).
  split_and!; [done..|]. exists c. split; [done|].
  unfold published, unpublished in *. rewrite Hsp, Hd in Hr.
  destruct r as [md|e]; [by rewrite <-Hd0|]. by rewrite <-Hsy.
Qed.

(** C30: Where the replacement removes the destination first, publication is not
    atomic: it leaves the destination alone or replaces it by the whole staged
    content, or the object is gone.  The last happens only with an error, when
    the renaming fails after the removal; the content, staged or published,
    is lost with it unless the staging file cannot be removed either. *)
Theorem windows_publish_loses dest options p0 w0 p1 w p acc r w' p' :
  LocalWriter_open dest options false p0 = (Ok w0, p1) →
  rtc any_step (w0, p1, Some []) (w, p, acc) → cancellation w = false →
  windows_publish w p = (r, w', p') →
  active w' = false ∧ active_writers p' = usize_wrap (active_writers p - 1) ∧
  ∃ contents, (∀ d, acc = Some d → contents = d) ∧
  match r with
  | Ok md => published w0 contents (files (world p)) (files (world p')) ∧ path md = to_string_lossy dest
  | Err e => unpublished w0 (files (world p)) (files (world p')) ∨
      unpublished w0 (delete dest (files (world p))) (files (world p')) ∨
      (sync options = SyncAll ∧ published w0 contents (files (world p)) (files (world p')))
  end.
Proof.
  intros Hopen Hsteps Hcan Hp.
  destruct (steps_staged _ _ _ _ _ _ _ _ Hopen Hsteps) as (c & Hst & Hacc & Hsp & Hd & Hd0 & Hsy).
  destruct (publish_by_cases windows_replace_file (λ d before after, after = before ∨ after = delete d before)
    windows_replace_cases w p c r w' p' Hst Hcan Hp) as (Ha & Hn & Hr).
  split_and!; [done..|]. exists c. split; [done|]. rewrite <-Hd0, <-Hsy.
  unfold unpublished_by, published, unpublished in *. rewrite Hsp, Hd in Hr. destruct r as [md|e]; [by destruct Hr as (? & ? & _)|].
  destruct Hr as [[Hu|(mid & [-> | ->] & Hu)]|Hpub]; auto.
Qed.

(** An abandoned writer leaves no trace: if it is dropped or aborted,
    after any writes, failed ones included, the file system is exactly what
    it was before it was opened, provided the removal itself does not fail;
    it is no longer counted, and a later drop does nothing. *)
Theorem abandoned_writer dest options p0 w0 p1 w p acc :
  LocalWriter_open dest options false p0 = (Ok w0, p1) →
  rtc own_step (w0, p1, Some []) (w, p, acc) →
  faults (world p) = [] → 0 ≤ active_writers p0 < usize_max →
  files (world (drop_writer w p)) = files (world p0) ∧
  active_writers (drop_writer w p) = active_writers p0 ∧
  let '(r, w', p') := abort w p in
  r = Ok true ∧ files (world p') = files (world p0) ∧ active_writers p' = active_writers p0 ∧
  active w' = false ∧ drop_writer w' p' = p'.
Proof.
  intros (Hst0 & _ & _ & _ & _ & Hnone & Hfs & Hact)%LocalWriter_open_Ok Hsteps Hno Hn.
  destruct (own_steps_alone w0 (files (world p0)) (active_writers p1) _ _ Hsteps) as [(c & Hst & _ & Hsp & _) [(c' & m & Hf) Hcount]].
  { split; [|split; [by eexists _, _|done]]. exists []. split; [done|]. split; [by intros d [= <-]|done]. }
  pose proof Hst as [Ha Hfile [m' Hc] _ Hne].
  assert (usize_wrap (active_writers p - 1) = active_writers p0) as Hback.
  { rewrite Hcount, Hact, (usize_wrap_in (_ + 1)) by lia. rewrite usize_wrap_in; lia. }
  assert (delete (stage_path w) (files (world p)) = files (world p0)) as Hrestore.
  { rewrite Hf, Hsp. by apply delete_restores. }
  split; [|split].
  - unfold drop_writer. rewrite Ha. destruct (cleanup_stage (cancel_writer w) p) as [w2 p2] eqn:Hcl.
    apply cleanup_stage_spec in Hcl as (_ & _ & _ & _ & Hdel); [|done]. simpl in *.
    rewrite Hdel by (done || by rewrite Hc). done.
  - unfold drop_writer. rewrite Ha. destruct (cleanup_stage (cancel_writer w) p) as [w2 p2] eqn:Hcl.
    apply cleanup_stage_spec in Hcl as (_ & _ & Hc2 & _); [|done]. simpl in *. by rewrite Hc2, Ha.
  - unfold abort. rewrite Ha. simpl. destruct (fs_remove_file (stage_path w) (world p)) as [r wd] eqn:Hr.
    assert (r = Ok ()) as ->.
    { unfold fs_remove_file, changing, syscall in Hr. rewrite Hno in Hr.
      assert (node_at (files (world p)) (stage_path w) = Some (RegularFile c m')) as Hna
        by by destruct (stage_path w).
      rewrite Hna in Hr. by simplify_eq/=. }
    apply remove_cases in Hr as [Hr _]; [|done]. unfold finish. simpl. rewrite Ha. simpl.
    split_and!; [done|congruence|done..].
Qed.

(** ** Lemmas: canonical paths *)

(** A path the kernel has resolved: real directories, then possibly a node
    that is neither a directory nor a link. *)
Definition canonical (fs : gmap apath Node) (q : apath) : Prop :=
  real_directory fs q ∨
  ∃ d name n, q = d ++ [name] ∧ real_directory fs d ∧ fs !! q = Some n ∧
    match n with RegularFile _ _ | Special => True | _ => False end.

Lemma real_directory_nil fs : real_directory fs [].
Proof. intros k name. by rewrite lookup_nil. Qed.

Lemma real_directory_snoc fs d name :
  real_directory fs d → fs !! (d ++ [name]) = Some Directory → real_directory fs (d ++ [name]).
Proof.
  intros Hd Hn k x Hk. destruct (decide (k < length d)%nat) as [Hlt|Hge].
  - rewrite take_app_le by lia. rewrite lookup_app_l in Hk by done. by eapply Hd.
  - apply lookup_lt_Some in Hk as Hlen. rewrite length_app in Hlen. simpl in Hlen.
    rewrite take_ge; [done|]. rewrite length_app. simpl. lia.
Qed.

Lemma real_directory_removelast fs d : real_directory fs d → real_directory fs (removelast d).
Proof.
  intros Hd k name Hk. rewrite removelast_firstn_len in Hk |- *.
  apply lookup_take_Some in Hk as [Hk Hlt]. rewrite take_take, Nat.min_l by lia. by eapply Hd.
Qed.

(** The walk of the rest of a path, given that of shorter chains of links. *)
Lemma resolve_walk_canonical links fs :
  (∀ l cur todo q, links = S l → real_directory fs cur → resolve l fs cur todo = Ok q → canonical fs q) →
  ∀ todo cur q, real_directory fs cur → resolve links fs cur todo = Ok q → canonical fs q.
Proof.
  intros Hlinks todo. induction todo as [|c todo IH]; intros cur q Hcur.
  - assert (resolve links fs cur [] = Ok cur) as -> by by destruct links. intros [= <-]. by left.
  - destruct c as [| | |name].
    + intros Hr. apply (IH [] q (real_directory_nil fs)). by destruct links.
    + intros Hr. apply (IH cur q Hcur). by destruct links.
    + intros Hr. apply (IH (removelast cur) q); [by apply real_directory_removelast|]. by destruct links.
    + intros Hr.
      assert (match fs !! (cur ++ [name]) with
        | None => False
        | Some (Symlink target) => ∃ l, links = S l ∧ resolve l fs cur (walked target ++ todo) = Ok q
        | Some Directory => resolve links fs (cur ++ [name]) todo = Ok q
        | Some _ => q = cur ++ [name]
        end) as Hcase.
      { destruct links as [|l]; simpl in Hr; destruct (fs !! (cur ++ [name])) as [[]|]; try done;
          try (destruct todo; by simplify_eq). by exists l. }
      destruct (fs !! (cur ++ [name])) as [[c m| |t|]|] eqn:Hn; try done.
      * right. exists cur, name, (RegularFile c m). by rewrite Hcase.
      * eapply IH; [|exact Hcase]. by apply real_directory_snoc.
      * destruct Hcase as (l & -> & Hr'). by eapply Hlinks.
      * right. exists cur, name, Special. by rewrite Hcase.
Qed.

Lemma resolve_canonical links fs cur todo q :
  real_directory fs cur → resolve links fs cur todo = Ok q → canonical fs q.
Proof.
  revert cur todo q. induction links as [|links IH]; intros cur todo q Hcur;
    apply resolve_walk_canonical; try done; intros l cur' todo' q' [= <-]; apply IH.
Qed.

(** A resolved path resolves to itself. *)
Lemma follow_canonical w q : canonical (files w) q → follow w (of_apath q) = Ok q.
Proof.
  unfold follow, of_apath. intros [Hd|(d & name & n & -> & Hd & Hn & Hnode)].
  - change (resolve max_links (files w) [] (map Normal q) = Ok q).
    rewrite <-(app_nil_r (map Normal q)), resolve_real by done. done.
  - change (resolve max_links (files w) [] (map Normal (d ++ [name])) = Ok (d ++ [name])).
    rewrite map_app, resolve_real by done. simpl. rewrite Hn. by destruct n.
Qed.

(** ** Lemmas: reading *)

Lemma native_looking {A} o (look : World → result io.ErrorKind A) p a p' :
  (∀ v w, files v = files w → cwd v = cwd w → look v = look w) →
  io o (looking look) p = (Ok a, p') → same p p' ∧ look (world p) = Ok a.
Proof.
  intros Hlook Hio. split.
  - pose proof (quiet_looking o look p) as Hq. by rewrite Hio in Hq.
  - apply io_inv in Hio as (r0 & w & Hop & -> & Hr). destruct r0 as [a0|]; simplify_eq/=.
    apply looking_Ok in Hop as (_ & _ & _ & v & Hf & Hc & _ & Hl). by rewrite <-(Hlook v (world p)).
Qed.

Lemma follow_ext v w cs : files v = files w → cwd v = cwd w → follow v cs = follow w cs.
Proof. intros Hf Hc. unfold follow. by rewrite Hf, Hc. Qed.

Lemma follow_same p q cs : same p q → follow (world q) cs = follow (world p) cs.
Proof. intros (Hf & Hc & _). by apply follow_ext. Qed.

(** Where a location is and what confines it. *)
Definition located (w : World) (l : ObjectLocation) (q : apath) : Prop :=
  follow w (walked (location_key l)) = Ok q ∧
  ∀ root, allowed_root l = Some root → ∃ rq, follow w (walked root) = Ok rq ∧ rq `prefix_of` q.

Lemma enforce_Ok l q o p p' :
  enforce_allowed_root l q o p = (Ok (), p') →
  ∀ root, allowed_root l = Some root → ∃ rq, follow (world p) (walked root) = Ok rq ∧ rq `prefix_of` q.
Proof.
  intros He root Hroot. unfold enforce_allowed_root, canonical_allowed_root in He. rewrite Hroot in He.
  apply native_bind_inv in He as [(e & _ & [=])|(r & p1 & Hr & Hk)].
  apply native_bind_inv in Hr as [(e & _ & [=])|(rq & p2 & Hio & [= <- <-])].
  apply native_looking in Hio as [_ Hl]; [|intros; by apply follow_ext].
  exists rq. split; [done|]. destruct (negb _) eqn:Hs; [done|].
  apply negb_false_iff in Hs. by apply bool_decide_eq_true in Hs.
Qed.

Lemma resolve_existing_Ok l o p q p' :
  resolve_existing l o p = (Ok q, p') → same p p' ∧ located (world p) l q.
Proof.
  intros Hr. pose proof (quiet_resolve_existing l o p) as Hq. rewrite Hr in Hq. split; [done|].
  apply native_bind_inv in Hr as [(e & _ & [=])|(c & p1 & Hio & Hk)].
  apply native_looking in Hio as [Hs Hl]; [|intros; by apply follow_ext].
  apply native_bind_inv in Hk as [(e & _ & [=])|([] & p2 & He & [= -> <-])].
  split; [done|]. intros root Hroot. destruct (enforce_Ok _ _ _ _ _ He root Hroot) as (rq & Hf & Hp).
  exists rq. by rewrite <-(follow_same p p1).
Qed.

Lemma located_canonical w l q : real_directory (files w) (cwd w) → located w l q → canonical (files w) q.
Proof.
  intros Hcwd [Hf _]. unfold follow in Hf. destruct (walked (location_key l)); [done|].
  by eapply resolve_canonical.
Qed.

(** With no fault to come, looking is immediate. *)
Lemma looking_nofault {A} o (look : World → result io.ErrorKind A) p :
  faults (world p) = [] → io o (looking look) p = (map_err (from_io o) (look (world p)), p).
Proof. intros Hf. unfold io, looking, syscall. rewrite Hf. by destruct p. Qed.

Lemma resolve_existing_nofault l o p q :
  faults (world p) = [] → located (world p) l q → resolve_existing l o p = (Ok q, p).
Proof.
  intros Hno [Hf Hroot]. unfold resolve_existing, mbind, native_bind, canonicalize.
  rewrite looking_nofault, Hf by done. cbn [map_err].
  unfold enforce_allowed_root, canonical_allowed_root, mbind, native_bind.
  destruct (allowed_root l) as [root|]; [|done].
  destruct (Hroot root eq_refl) as (rq & Hrq & Hp). unfold canonicalize.
  rewrite looking_nofault, Hrq by done. cbn [map_err mret native_ret].
  unfold path_starts_with. by rewrite bool_decide_eq_true_2.
Qed.

Lemma node_at_file (fs : gmap apath Node) q c m : node_at fs q = Some (RegularFile c m) → fs !! q = Some (RegularFile c m).
Proof. by destruct q. Qed.

Lemma fs_metadata_ext q v w : files v = files w → cwd v = cwd w →
  (r ← follow v (of_apath q); ok_or (node_at (files v) r) io.NotFound) =
  (r ← follow w (of_apath q); ok_or (node_at (files w) r) io.NotFound).
Proof. intros Hf Hc. by rewrite (follow_ext v w _ Hf Hc), Hf. Qed.

Definition small_files (fs : gmap apath Node) : Prop :=
  ∀ q c m, fs !! q = Some (RegularFile c m) → len c ≤ u64_max.

(** The bytes [read_range] takes are those of the range. *)
Lemma read_window (c : bytes) offset length :
  0 ≤ offset ≤ len c → 0 ≤ length → len c ≤ u64_max →
  take_bytes (Z.min length (usize_wrap (len c - offset))) (skip_bytes offset c) =
  take_bytes length (skip_bytes offset c) ∧
  is_Some (usize_try_from (Z.min length (usize_wrap (len c - offset)))).
Proof.
  intros Ho Hl Hu. rewrite usize_wrap_in by (int_bounds; lia). split.
  - destruct (Z.le_gt_cases length (len c - offset)); [by rewrite Z.min_l by lia|].
    rewrite Z.min_r by lia. rewrite !take_bytes_ge by (rewrite len_skip_bytes by lia; lia). done.
  - eexists. apply try_from_in. int_bounds. lia.
Qed.

(** Whatever the file is or becomes, no more is read than was asked for. *)
Lemma read_range_short l range cancelled p data p' : 0 ≤ length_ range →
  read_range l range cancelled p = (Ok data, p') → len data ≤ length_ range.
Proof.
  intros Hl Hr. unfold read_range in Hr.
  apply native_bind_inv in Hr as [(e & _ & [=])|([] & p0 & _ & Hr)].
  apply native_bind_inv in Hr as [(e & _ & [=])|(q & p1 & _ & Hr)].
  apply native_bind_inv in Hr as [(e & _ & [=])|([c m| | |] & p2 & _ & Hr)]; [|done..].
  destruct (_ <? _); [done|].
  apply native_bind_inv in Hr as [(e & _ & [=])|(n & p3 & _ & Hr)].
  apply native_bind_inv in Hr as [(e & _ & [=])|(f & p4 & _ & Hr)].
  apply native_bind_inv in Hr as [(e & _ & [=])|([] & p5 & _ & Hr)].
  apply native_bind_inv in Hr as [(e & _ & [=])|(d & p6 & Hread & Hr)].
  apply native_bind_inv in Hr as [(e & [=] & _)|([] & p7 & _ & Hr)].
  apply native_bind_inv in Hr as [(e & _ & [=])|([] & p8 & _ & [= <- _])].
  apply io_inv in Hread as ([d0|e] & w & Hread & _ & Hd); [injection Hd as <-|done].
  apply looking_Ok in Hread as (_ & _ & _ & v & _ & _ & _ & Hv).
  cbn beta in Hv. destruct (node_at (files v) f) as [[c' m'| | |]|]; try done. injection Hv as <-.
  assert (0 ≤ usize_wrap (len c - offset range)) by (unfold usize_wrap; apply Z.mod_pos_bound; lia).
  rewrite len_take_bytes by lia. lia.
Qed.

Lemma read_range_Ok l range cancelled p data p' :
  real_directory (files (world p)) (cwd (world p)) → small_files (files (world p)) →
  0 ≤ offset range → 0 ≤ length_ range →
  read_range l range cancelled p = (Ok data, p') →
  ∃ q c m, located (world p) l q ∧ node_at (files (world p)) q = Some (RegularFile c m) ∧
    offset range ≤ len c ∧ data = take_bytes (length_ range) (skip_bytes (offset range) c) ∧
    bytes_read p' = usize_wrap (bytes_read p + len data).
Proof.
  intros Hcwd Hsmall Ho Hl Hr. unfold read_range in Hr.
  apply native_bind_inv in Hr as [(e & _ & [=])|([] & p0 & [= _ <-] & Hr)].
  apply native_bind_inv in Hr as [(e & _ & [=])|(q & p1 & Hres & Hr)].
  apply resolve_existing_Ok in Hres as [Hs1 Hloc].
  apply native_bind_inv in Hr as [(e & _ & [=])|(node & p2 & Hmd & Hr)].
  apply native_looking in Hmd as [Hs2 Hmd]; [|intros v w; apply fs_metadata_ext].
  assert (follow (world p) (of_apath q) = Ok q) as Hq by (apply follow_canonical; by eapply located_canonical).
  rewrite (follow_same p p1 _ Hs1), Hq, (same_files p p1 Hs1) in Hmd. cbn [mbind result_bind] in Hmd.
  apply ok_or_Ok in Hmd. destruct node as [c m| | |]; try done. 
  destruct (Z.ltb_spec (len c) (offset range)); [done|].
  destruct (read_window c (offset range) (length_ range)) as [Hwin [k Hk]]; [lia|lia|by eapply Hsmall, node_at_file|].
  rewrite Hk in Hr.
  apply native_bind_inv in Hr as [(e & [=] & _)|(k' & p3 & [= <- <-] & Hr)].
  apply native_bind_inv in Hr as [(e & _ & [=])|(f & p4 & Hopen & Hr)].
  assert (same p p2) as Hs by by etransitivity.
  apply native_looking in Hopen as [Hs4 Hopen].
  2: { intros v w Hf Hc. by rewrite (follow_ext v w _ Hf Hc), Hf. }
  rewrite (follow_same p p2 _ Hs), Hq, (same_files p p2 Hs) in Hopen. cbn [mbind result_bind] in Hopen.
  apply bind_Ok in Hopen as (n & _ & [= <-]).
  apply native_bind_inv in Hr as [(e & _ & [=])|([] & p5 & Hseek & Hr)].
  apply native_looking in Hseek as [Hs5 _]; [|done].
  apply native_bind_inv in Hr as [(e & _ & [=])|(d & p6 & Hread & Hr)].
  apply native_looking in Hread as [Hs6 Hread].
  2: { intros v w Hf _. by rewrite Hf. }
  assert (same p p5) as Hs' by (do 2 (etransitivity; [|eassumption]); done).
  rewrite (same_files p p5 Hs') in Hread.
  rewrite Hmd, Hwin in Hread. injection Hread as <-.
  apply native_bind_inv in Hr as [(e & [=] & _)|([] & p7 & [= <-] & Hr)].
  apply native_bind_inv in Hr as [(e & _ & [=])|([] & p8 & [= _ <-] & [= <- <-])].
  exists q, c, m. split_and!; try done. simpl.
  assert (same p p6) as (_ & _ & _ & _ & -> & _) by by etransitivity. done.
Qed.

(** A read changes nothing but the faults to come and a counter. *)
Definition same_tree (p q : Process) : Prop :=
  files (world q) = files (world p) ∧ cwd (world q) = cwd (world p) ∧
  (faults (world p) = [] → faults (world q) = []).

Lemma same_same_tree p q : same p q → same_tree p q.
Proof. by intros (? & ? & _ & _ & _ & _ & _ & ?). Qed.

#[export] Instance same_tree_preorder : PreOrder same_tree.
Proof.
  split; [by intros p|]. intros p q r (? & ? & ?) (? & ? & ?). unfold same_tree. split_and!; solve [congruence|auto].
Qed.

Lemma same_tree_bind {A B} (m : native A) (f : A → native B) p :
  quiet m → (∀ a q, same_tree q (f a q).2) → same_tree p ((m ≫= f) p).2.
Proof.
  intros Hm Hf. unfold mbind, native_bind. specialize (Hm p).
  destruct (m p) as [[a|e] q]; simpl in *; [|by apply same_same_tree].
  etransitivity; [by apply same_same_tree|apply Hf].
Qed.

Lemma read_range_tree l range cancelled p : same_tree p (read_range l range cancelled p).2.
Proof.
  unfold read_range. apply same_tree_bind; [auto with quiet|]. intros _ p0.
  apply same_tree_bind; [apply quiet_resolve_existing|]. intros q p1.
  apply same_tree_bind; [apply quiet_looking|]. intros [c m| | |] p2; try reflexivity.
  destruct (len c <? offset range); [reflexivity|].
  apply same_tree_bind; [auto with quiet|]. intros _ p3.
  apply same_tree_bind; [apply quiet_looking|]. intros f p4.
  apply same_tree_bind; [apply quiet_looking|]. intros ? p5.
  apply same_tree_bind; [apply quiet_looking|]. intros d p6.
  unfold mbind, native_bind. simpl. by destruct (check cancelled ReadRange).
Qed.

(** With no fault to come, the read succeeds. *)
Lemma read_range_nofault l range p q c m :
  canonical (files (world p)) q → faults (world p) = [] → located (world p) l q →
  node_at (files (world p)) q = Some (RegularFile c m) →
  0 ≤ offset range ≤ len c → 0 ≤ length_ range → len c ≤ u64_max →
  (read_range l range false p).1 = Ok (take_bytes (length_ range) (skip_bytes (offset range) c)).
Proof.
  intros Hcan Hno Hloc Hnode Ho Hl Hu.
  unfold read_range, mbind, native_bind. simpl.
  rewrite (resolve_existing_nofault l ReadRange p q Hno Hloc).
  pose proof (follow_canonical (world p) q Hcan) as Hq.
  unfold fs_metadata, file_open, file_seek, file_read.
  rewrite looking_nofault, Hq by done. cbn [mbind result_bind]. rewrite Hnode.
  cbn [ok_or map_err]. destruct (Z.ltb_spec (len c) (offset range)); [lia|].
  destruct (read_window c (offset range) (length_ range)) as [Hwin [k ->]]; [lia..|].
  cbn [ok_or of_result]. rewrite looking_nofault, Hq by done. cbn [mbind result_bind]. rewrite Hnode.
  cbn [ok_or map_err mbind result_bind]. rewrite !looking_nofault by done. cbn [map_err]. by rewrite Hnode, Hwin.
Qed.

(** ** Properties of reading and deleting *)

(** C10: a range read changes no file, and returns exactly the bytes of the
    range that exist in the regular file its location resolves to, inside the
    allowed root; it succeeds whenever no system call fails and the range
    begins in such a file. *)
Theorem read_range_exact l range p r p' :
  real_directory (files (world p)) (cwd (world p)) → small_files (files (world p)) →
  0 ≤ offset range → 0 ≤ length_ range →
  read_range l range false p = (r, p') →
  files (world p') = files (world p) ∧
  match r with
  | Ok data => ∃ q c m, located (world p) l q ∧ node_at (files (world p)) q = Some (RegularFile c m) ∧
      offset range ≤ len c ∧ data = take_bytes (length_ range) (skip_bytes (offset range) c) ∧
      bytes_read p' = usize_wrap (bytes_read p + len data)
  | Err _ => ∀ q c m, faults (world p) = [] → located (world p) l q →
      node_at (files (world p)) q = Some (RegularFile c m) → len c < offset range
  end.
Proof.
  intros Hcwd Hsmall Ho Hl Hr. split.
  { pose proof (read_range_tree l range false p) as [Hf _]. by rewrite Hr in Hf. }
  destruct r as [data|e]; [by eapply read_range_Ok|].
  intros q c m Hno Hloc Hnode. destruct (Z.lt_ge_cases (len c) (offset range)) as [|Hge]; [done|exfalso].
  pose proof (read_range_nofault l range p q c m (located_canonical _ _ _ Hcwd Hloc) Hno Hloc Hnode
    ltac:(lia) Hl (Hsmall _ _ _ (node_at_file _ _ _ _ Hnode))) as Hok.
  by rewrite Hr in Hok.
Qed.

(** C31: deletion is confined: whatever its outcome, at most one file is
    removed, and it is the regular file (or special one) the location resolves
    to, inside the allowed root when there is one; an error removes nothing. *)
Theorem delete_confined l cancelled p r p' :
  delete_object l cancelled p = (r, p') →
  match r with
  | Ok _ => cancelled = false ∧ ∃ q, located (world p) l q ∧ files (world p) !! q ≠ Some Directory ∧
      is_Some (files (world p) !! q) ∧ files (world p') = delete q (files (world p))
  | Err _ => files (world p') = files (world p)
  end.
Proof.
  intros Hr. unfold delete_object in Hr.
  apply native_bind_inv in Hr as [(e & [= _ <-] & ->)|([] & p0 & [= Hc <-] & Hr)]; [done|].
  apply native_bind_inv in Hr as [(e & Hr & ->)|(q & p1 & Hres & Hr)].
  { pose proof (quiet_resolve_existing l Delete p) as Hs. rewrite Hr in Hs. by apply same_files. }
  apply resolve_existing_Ok in Hres as [Hs1 Hloc].
  apply io_inv in Hr as (r0 & w & Hop & -> & ->).
  apply changing_cases in Hop as (_ & _ & Hop). pose proof (same_files p p1 Hs1) as Hfs.
  destruct r0 as [[]|k]; [|simpl; congruence]. destruct Hop as (v & fs & Hf & _ & _ & Hv & Hw).
  split; [by destruct cancelled|]. exists q. rewrite Hfs in Hf. rewrite Hf in Hv. simpl.
  destruct q as [|x q]; [done|]. cbn [node_at] in Hv.
  destruct (files (world p) !! (x :: q)) as [[]|]; try discriminate Hv; injection Hv as <-;
    split_and!; try done; by eexists.
Qed.

(** ** Witnesses *)

Definition sample_files : gmap apath Node :=
  list_to_map [(["data"], Directory);
               (["data"; "a"], RegularFile ["h"; "e"; "l"; "l"; "o"]%byte (Some 5));
               (["data"; "link"], Symlink "a");
               (["other"], RegularFile ["s"]%byte None)].

Definition sample_process : Process :=
  mkProcess (mkWorld sample_files [] (Some 9) []) 2 0 0 7.

Definition sample_dest : apath := ["data"; "out"].

Definition sample_options : WriteOptions := mkWriteOptions BeforePublish SyncAll.

Definition sample_writer : LocalWriter :=
  mkLocalWriter (Some ["data"; ".out.parquex-7-0.tmp"]) ["data"; ".out.parquex-7-0.tmp"] sample_dest
    BeforePublish SyncAll false true.

Definition sample_opened : Process := (LocalWriter_open sample_dest sample_options false sample_process).2.

Definition sample_written : Process := (write ["x"; "y"]%byte sample_writer sample_opened).2.

Lemma sample_steps : rtc own_step (sample_writer, sample_opened, Some [])
  (sample_writer, sample_written, Some ["x"; "y"]%byte).
Proof. apply rtc_once. apply (step_write ["x"; "y"]%byte sample_writer sample_opened (Some []) (Ok 2)). reflexivity. Qed.

Lemma own_any x y : rtc own_step x y → rtc any_step x y.
Proof. induction 1; [done|]. eapply rtc_l; [by apply step_own|done]. Qed.

Lemma publish_atomic_witness :
  let '(r, w', p') := publish sample_writer sample_written in
  r = Ok (mkObjectMetadata "/data/out" 2 (Some 9)) ∧ active w' = false ∧
  ∃ contents, (∀ d, Some ["x"; "y"]%byte = Some d → contents = d) ∧
    published sample_writer contents (files (world sample_written)) (files (world p')).
Proof.
  destruct (publish sample_writer sample_written) as [[r w'] p'] eqn:Hp.
  assert (r = Ok (mkObjectMetadata "/data/out" 2 (Some 9))) as ->.
  { transitivity (publish sample_writer sample_written).1.1; [by rewrite Hp|vm_compute; reflexivity]. }
  destruct (publish_atomic sample_dest sample_options sample_process sample_writer sample_opened
    sample_writer sample_written (Some ["x"; "y"]%byte) (Ok (mkObjectMetadata "/data/out" 2 (Some 9))) w' p'
    eq_refl (own_any _ _ sample_steps) eq_refl Hp) as (Ha & _ & contents & Hc & Hpub & _).
  split; [reflexivity|]. split; [exact Ha|]. exists contents. split; [exact Hc|exact Hpub].
Defined.

(** The rename after the removal times out: the object is lost, and so is
    what was staged. *)
Definition windows_opened := LocalWriter_open ["data"; "a"] sample_options false sample_process.

Definition windows_writer : LocalWriter := match windows_opened.1 with Ok w => w | Err _ => sample_writer end.

Definition windows_process : Process :=
  set_world windows_opened.2
    (mkWorld (files (world windows_opened.2)) [] (Some 9) [None; None; None; Some (io.TimedOut, 0%nat)]).

Lemma windows_publish_loses_witness :
  let '(r, w', p') := windows_publish windows_writer windows_process in
  r = Err (from_io WriterPublish io.TimedOut) ∧ active w' = false ∧
  sample_files !! ["data"; "a"] = Some (RegularFile ["h"; "e"; "l"; "l"; "o"]%byte (Some 5)) ∧
  files (world p') = delete ["data"; "a"] sample_files.
Proof.
  destruct (windows_publish windows_writer windows_process) as [[r w'] p'] eqn:Hp.
  assert (r = Err (from_io WriterPublish io.TimedOut)) as ->.
  { transitivity (windows_publish windows_writer windows_process).1.1; [by rewrite Hp|vm_compute; reflexivity]. }
  assert (files (world p') = delete ["data"; "a"] sample_files) as Hf.
  { transitivity (files (world (windows_publish windows_writer windows_process).2)); [by rewrite Hp|].
    vm_compute; reflexivity. }
  destruct (windows_publish_loses ["data"; "a"] sample_options sample_process windows_writer windows_opened.2
    windows_writer windows_process (Some []) (Err (from_io WriterPublish io.TimedOut)) w' p') as (Ha & _ & _).
  - vm_compute. reflexivity.
  - apply rtc_once, step_other. reflexivity.
  - reflexivity.
  - exact Hp.
  - split; [reflexivity|]. split; [exact Ha|]. split; [vm_compute; reflexivity|exact Hf].
Defined.

Lemma abandoned_writer_witness :
  files (world (drop_writer sample_writer sample_written)) = sample_files ∧
  active_writers (drop_writer sample_writer sample_written) = 2 ∧
  let '(r, w', p') := abort sample_writer sample_written in
  r = Ok true ∧ files (world p') = sample_files ∧ active_writers p' = 2 ∧
  active w' = false ∧ drop_writer w' p' = p'.
Proof.
  apply (abandoned_writer sample_dest sample_options sample_process sample_writer sample_opened
    sample_writer sample_written (Some ["x"; "y"]%byte)); [reflexivity|exact sample_steps|reflexivity|].
  vm_compute. split; [discriminate|reflexivity].
Defined.

Definition sample_location (key : string) : ObjectLocation := mkObjectLocation key (Some "/data"%string).

Lemma sample_small : small_files sample_files.
Proof.
  intros q c m Hq. apply elem_of_list_to_map_2 in Hq. rewrite !elem_of_cons, elem_of_nil in Hq.
  destruct_or? Hq; simplify_eq; by vm_compute.
Qed.

(** Through the link, three bytes from the second on. *)
Lemma read_range_exact_witness :
  let '(r, p') := read_range (sample_location "/data/link") (mkByteRange 1 3) false sample_process in
  r = Ok ["e"; "l"; "l"]%byte ∧ files (world p') = sample_files ∧
  ∃ q c m, located (world sample_process) (sample_location "/data/link") q ∧
    node_at sample_files q = Some (RegularFile c m) ∧ 1 ≤ len c ∧
    ["e"; "l"; "l"]%byte = take_bytes 3 (skip_bytes 1 c) ∧ bytes_read p' = usize_wrap (0 + 3).
Proof.
  destruct (read_range _ _ _ _) as [r p'] eqn:Hr.
  assert (r = Ok ["e"; "l"; "l"]%byte) as ->.
  { transitivity (read_range (sample_location "/data/link") (mkByteRange 1 3) false sample_process).1;
      [by rewrite Hr|vm_compute; reflexivity]. }
  split; [reflexivity|].
  apply (read_range_exact (sample_location "/data/link") (mkByteRange 1 3) sample_process
    (Ok ["e"; "l"; "l"]%byte) p'); [apply real_directory_nil|apply sample_small|simpl; lia|simpl; lia|exact Hr].
Defined.

(** A key that leads out of the allowed root deletes nothing. *)
Lemma delete_confined_witness :
  let '(r, p') := delete_object (sample_location "/data/../other") false sample_process in
  r = Err (NativeFailure_new PermissionDenied Delete "object is outside the configured allowed root") ∧
  files (world p') = sample_files.
Proof.
  destruct (delete_object _ _ _) as [r p'] eqn:Hr.
  assert (r = Err (NativeFailure_new PermissionDenied Delete "object is outside the configured allowed root")) as ->.
  { transitivity (delete_object (sample_location "/data/../other") false sample_process).1;
      [by rewrite Hr|vm_compute; reflexivity]. }
  split; [reflexivity|].
  apply (delete_confined (sample_location "/data/../other") false sample_process
    (Err (NativeFailure_new PermissionDenied Delete "object is outside the configured allowed root")) p').
  exact Hr.
Defined.

(** A writer stays open after a failed write: here the second system call, the
    write, fails after one byte, and a later [publish] succeeds with it. *)
Example publish_after_failed_write :
  let p := mkProcess (mkWorld sample_files [] (Some 9) [None; Some (io.Uncategorized 28, 1%nat)]) 2 0 0 7 in
  let '(opened, p) := LocalWriter_open sample_dest sample_options false p in
  opened = Ok sample_writer ∧
  let '(written, w, p) := write ["x"; "y"]%byte sample_writer p in
  written = Err (NativeFailure_new NativeFailureCategory WriterWrite "local object operation failed") ∧
  let '(published, w, p) := publish w p in
  published = Ok (mkObjectMetadata "/data/out" 1 (Some 9)) ∧
  files (world p) !! sample_dest = Some (RegularFile ["x"]%byte (Some 9)).
Proof. vm_compute. by repeat split. Qed.
