(* ===== verification/Store.v ===== *)
(** * Store: the front of the object stores

    Models [store.rs] but for listing: key validation, the choice between the
    local and the S3 backend, the store counters, and store writers.  The S3
    backend is an interface here ([S3]).  At the end the local backend is
    shown to keep the promise the chunk reader relies on. *)
From S2P Require Import Prelude Errors Object ChunkReader Fs Local.

(** ** The S3 backend *)

Record RemoteMetadata : Set := mkRemoteMetadata {
  remote_key : string;
  remote_size : Z;
  remote_modified_unix_ns : option Z;
}.

(** The operations of [s3.rs] the front calls, over a state of their own. *)
Class S3 := {
  RemoteStore : Type;
  RemoteObject : Type;
  RemoteMultipartWriter : Type;
  RemoteState : Type;
  remote_object : RemoteStore → string → result NativeFailure RemoteObject;
  remote_multipart_buffer_limit_bytes : RemoteStore → Z;
  remote_head : RemoteObject → bool → Operation → RemoteState →
    result NativeFailure RemoteMetadata * RemoteState;
  remote_read_range : RemoteObject → Z → Z → bool → Operation → RemoteState →
    result NativeFailure bytes * RemoteState;
  remote_list : RemoteStore → string → bool → RemoteState →
    result NativeFailure (list RemoteMetadata) * RemoteState;
  remote_delete : RemoteObject → bool → RemoteState → result NativeFailure () * RemoteState;
  remote_open_multipart : RemoteObject → bool → RemoteState →
    result NativeFailure RemoteMultipartWriter * RemoteState;
  remote_write : bytes → RemoteMultipartWriter → RemoteState →
    result IoError Z * RemoteMultipartWriter * RemoteState;
  remote_flush : RemoteMultipartWriter → RemoteState →
    result IoError () * RemoteMultipartWriter * RemoteState;
  remote_publish : RemoteMultipartWriter → RemoteState →
    result NativeFailure RemoteMetadata * RemoteMultipartWriter * RemoteState;
  remote_abort : RemoteMultipartWriter → RemoteState →
    result NativeFailure bool * RemoteMultipartWriter * RemoteState;
  (** The token shared with the writer: its value, and its cancellation. *)
  remote_token : RemoteMultipartWriter → bool;
  remote_cancel : RemoteMultipartWriter → RemoteMultipartWriter;
  remote_drop : RemoteMultipartWriter → RemoteState → RemoteState;
  (** [s3::resource_snapshot]. *)
  remote_snapshot : RemoteState → Z * Z * Z * Z * Z * Z;
}.

(** ** Keys and paths *)

Definition is_normal (c : Component) : bool := match c with Normal _ => true | _ => false end.

Definition validate_key (key : string) (allow_empty : bool) : result NativeFailure () :=
  if (bool_decide (key = ""%string) && allow_empty)
     || (negb (bool_decide (key = ""%string))
         && negb (starts_with "/" key || starts_with "\" key)
         && negb (mem_char "\"%char key)
         && forallb is_normal (components key))
  then Ok ()
  else Err (NativeFailure_invalid StoreOpen "object key must be a normalized relative path").

Fixpoint ends_with_slash (s : string) : bool :=
  match s with
  | EmptyString => false
  | String c EmptyString => Ascii.eqb c "/"%char
  | String _ s => ends_with_slash s
  end.

(** [PathBuf::join], on the text of the paths. *)
Definition path_join (root key : string) : string :=
  if is_absolute key then key
  else if bool_decide (root = ""%string) || ends_with_slash root then root +:+ key
  else root +:+ "/" +:+ key.

Definition local_location (root : apath) (key : string) : ObjectLocation :=
  mkObjectLocation (path_join (to_string_lossy root) key) (Some (to_string_lossy root)).

(** ** Data *)

Record StoreMetadata : Set := mkStoreMetadata {
  store_path : string;
  store_size : Z;
  store_modified_unix_ns : option Z;
}.

(** The text of the components left after a root. *)
Fixpoint strip_components (p root : list Component) : option (list Component) :=
  match root, p with
  | [], p => Some p
  | r :: root, x :: p => if bool_decide (x = r) then strip_components p root else None
  | _ :: _, [] => None
  end.

Definition component_text (c : Component) : string :=
  match c with RootDir => "/" | CurDir => "." | ParentDir => ".." | Normal name => name end.

Definition local_metadata (root : apath) (metadata : ObjectMetadata) : result NativeFailure StoreMetadata :=
  rest ← ok_or (strip_components (components (path metadata)) (of_apath root))
    (NativeFailure_invalid StoreHead "invalid local object path");
  Ok (mkStoreMetadata (join "/" (map component_text rest)) (size metadata) (modified_unix_ns metadata)).

Section store.
Context `{S3}.

Inductive StoreBackend : Type :=
  | LocalBackend (root : apath)
  | S3Backend (store : RemoteStore).

Record StoreResource : Type := mkStoreResource {
  identity : Z;
  store_backend : StoreBackend;
}.

Inductive StoreWriter : Type :=
  | LocalStoreWriter (writer : LocalWriter) (root : apath)
  | S3StoreWriter (writer : RemoteMultipartWriter) (key : string).

(** The state of all stores: the local process, the S3 side, the counters. *)
Record Stores : Type := mkStores {
  process : Process;
  remote : RemoteState;
  store_sequence : Z;
  active_stores : Z;
  stores_created : Z;
}.

Definition set_process (s : Stores) (p : Process) : Stores :=
  mkStores p (remote s) (store_sequence s) (active_stores s) (stores_created s).
Definition set_remote (s : Stores) (r : RemoteState) : Stores :=
  mkStores (process s) r (store_sequence s) (active_stores s) (stores_created s).

(** ** The monad of the front *)

Definition front (A : Type) : Type := Stores → result NativeFailure A * Stores.

#[export] Instance front_ret : MRet front := λ A a s, (Ok a, s).
#[export] Instance front_bind : MBind front := λ A B f m s,
  let '(r, s) := m s in
  match r with Ok a => f a s | Err e => (Err e, s) end.

Definition pure {A} (r : result NativeFailure A) : front A := λ s, (r, s).
Definition locally {A} (m : native A) : front A := λ s,
  let '(r, p) := m (process s) in (r, set_process s p).
Definition remotely {A} (m : RemoteState → result NativeFailure A * RemoteState) : front A := λ s,
  let '(r, t) := m (remote s) in (r, set_remote s t).

(** ** Operations *)

Definition StoreResource_new (backend : StoreBackend) : front StoreResource := λ s,
  (Ok (mkStoreResource (store_sequence s) backend),
   mkStores (process s) (remote s) (usize_wrap (store_sequence s + 1))
     (usize_wrap (active_stores s + 1)) (usize_wrap (stores_created s + 1))).

Definition StoreResource_drop (s : Stores) : Stores :=
  mkStores (process s) (remote s) (store_sequence s) (usize_wrap (active_stores s - 1)) (stores_created s).

(** [Path::is_dir]: an error is [false]. *)
Definition is_dir (p : apath) : native bool :=
  r ← attempt (fs_metadata p);
  mret (match r with Ok Directory => true | _ => false end).

Definition open_local (root : string) : front StoreResource :=
  root ← locally (io StoreOpen (canonicalize (walked root)));
  dir ← locally (is_dir root);
  if negb dir then pure (Err (NativeFailure_invalid StoreOpen "local store root must be a directory"))
  else StoreResource_new (LocalBackend root).

Definition store_head (store : StoreResource) (key : string) : front StoreMetadata :=
  _ ← pure (validate_key key false);
  match store_backend store with
  | LocalBackend root =>
      metadata ← locally (head (local_location root key) false);
      pure (local_metadata root metadata)
  | S3Backend remote =>
      object ← pure (remote_object remote key);
      metadata ← remotely (remote_head object false StoreHead);
      mret (mkStoreMetadata key (remote_size metadata) (remote_modified_unix_ns metadata))
  end.

Definition store_read_range (store : StoreResource) (key : string) (offset length : Z) : front bytes :=
  _ ← pure (validate_key key false);
  match store_backend store with
  | LocalBackend root => locally (read_range (local_location root key) (mkByteRange offset length) false)
  | S3Backend remote =>
      length ← pure (ok_or (usize_try_from length)
        (NativeFailure_invalid StoreReadRange "range length is too large"));
      object ← pure (remote_object remote key);
      remotely (remote_read_range object offset length false StoreReadRange)
  end.

Definition store_delete (store : StoreResource) (key : string) : front () :=
  _ ← pure (validate_key key false);
  match store_backend store with
  | LocalBackend root => locally (delete_object (local_location root key) false)
  | S3Backend remote =>
      object ← pure (remote_object remote key);
      remotely (remote_delete object false)
  end.

(** One directory of [ensure_local_parent]. *)
Definition ensure_directory (current : apath) : native () :=
  found ← attempt (fs_symlink_metadata current);
  match found with
  | Ok (Symlink _) =>
      of_result (Err (NativeFailure_invalid StoreWriterOpen "local object parent cannot contain symlinks"))
  | Ok Directory => mret ()
  | Ok _ => of_result (Err (NativeFailure_invalid StoreWriterOpen "local object parent must be a directory"))
  | Err io.NotFound => io StoreWriterOpen (fs_create_dir current)
  | Err kind => of_result (Err (from_io StoreWriterOpen kind))
  end.

Fixpoint ensure_directories (current : apath) (parts : list Component) : native () :=
  match parts with
  | [] => mret ()
  | Normal name :: parts =>
      _ ← ensure_directory (current ++ [name]);
      ensure_directories (current ++ [name]) parts
  | _ :: parts => ensure_directories current parts
  end.

Definition ensure_local_parent (root : apath) (key : string) : native () :=
  ensure_directories root (default [] (parent (components key))).

Definition open_writer (store : StoreResource) (key : string) (flush : FlushPolicy) (sync : SyncPolicy)
    (cancelled : bool) : front StoreWriter :=
  _ ← pure (validate_key key false);
  match store_backend store with
  | LocalBackend root =>
      _ ← locally (ensure_local_parent root key);
      writer ← locally (stage (local_location root key) (mkWriteOptions flush sync) cancelled);
      mret (LocalStoreWriter writer root)
  | S3Backend remote =>
      object ← pure (remote_object remote key);
      writer ← remotely (remote_open_multipart object cancelled);
      mret (S3StoreWriter writer key)
  end.

Definition multipart_buffer_limit_bytes (store : StoreResource) : Z :=
  match store_backend store with
  | LocalBackend _ => 0
  | S3Backend remote => remote_multipart_buffer_limit_bytes remote
  end.

Definition store_write (data : bytes) (w : StoreWriter) (s : Stores) :
    result NativeFailure Z * StoreWriter * Stores :=
  match w with
  | LocalStoreWriter writer root =>
      let '(r, writer, p) := write data writer (process s) in
      (r, LocalStoreWriter writer root, set_process s p)
  | S3StoreWriter writer key =>
      let '(r, writer, t) := remote_write data writer (remote s) in
      (map_err (λ _, NativeFailure_expected StoreWriterWrite "write failed") r,
       S3StoreWriter writer key, set_remote s t)
  end.

Definition store_publish (w : StoreWriter) (s : Stores) :
    result NativeFailure StoreMetadata * StoreWriter * Stores :=
  match w with
  | LocalStoreWriter writer root =>
      let '(r, writer, p) := publish writer (process s) in
      (metadata ← r; local_metadata root metadata, LocalStoreWriter writer root, set_process s p)
  | S3StoreWriter writer key =>
      let '(r, writer, t) := remote_publish writer (remote s) in
      (metadata ← r; Ok (mkStoreMetadata key (remote_size metadata) (remote_modified_unix_ns metadata)),
       S3StoreWriter writer key, set_remote s t)
  end.

Definition store_abort (w : StoreWriter) (s : Stores) : result NativeFailure bool * StoreWriter * Stores :=
  match w with
  | LocalStoreWriter writer root =>
      let '(r, writer, p) := abort writer (process s) in
      (r, LocalStoreWriter writer root, set_process s p)
  | S3StoreWriter writer key =>
      let '(r, writer, t) := remote_abort writer (remote s) in
      (r, S3StoreWriter writer key, set_remote s t)
  end.

(** [Write for StoreWriter]. *)
Definition store_write_io (data : bytes) (w : StoreWriter) (s : Stores) :
    result IoError Z * StoreWriter * Stores :=
  let '(r, w, s) := store_write data w s in
  (map_err (λ _, IoOther "staged store write failed") r, w, s).

Definition store_flush_io (w : StoreWriter) (s : Stores) : result IoError () * StoreWriter * Stores :=
  match w with
  | LocalStoreWriter writer root =>
      let '(r, writer, p) := flush_io writer (process s) in
      (r, LocalStoreWriter writer root, set_process s p)
  | S3StoreWriter writer key =>
      let '(r, writer, t) := remote_flush writer (remote s) in
      (r, S3StoreWriter writer key, set_remote s t)
  end.

(** The token a writer shares with its owner: its value, and its cancellation.
    Then the drop of the writer. *)
Definition store_token (w : StoreWriter) : bool :=
  match w with
  | LocalStoreWriter writer _ => cancellation writer
  | S3StoreWriter writer _ => remote_token writer
  end.

Definition store_cancel (w : StoreWriter) : StoreWriter :=
  match w with
  | LocalStoreWriter writer root => LocalStoreWriter (cancel_writer writer) root
  | S3StoreWriter writer key => S3StoreWriter (remote_cancel writer) key
  end.

Definition store_drop (w : StoreWriter) (s : Stores) : Stores :=
  match w with
  | LocalStoreWriter writer _ => set_process s (drop_writer writer (process s))
  | S3StoreWriter writer _ => set_remote s (remote_drop writer (remote s))
  end.

Definition stores_snapshot (s : Stores) : Z * Z := (active_stores s, stores_created s).
(** ** Lemmas: the text of paths *)

(** A name that can stand in a path. *)
Definition name_ok (n : string) : Prop :=
  n ≠ ""%string ∧ n ≠ "."%string ∧ n ≠ ".."%string ∧ mem_char "/"%char n = false.

(** A key that is the text of its names: what a normalized path is. *)
Definition plain_key (key : string) (names : list string) : Prop :=
  key = join "/" names ∧ names ≠ [] ∧ Forall name_ok names ∧ mem_char "\"%char key = false.

Lemma pieces_cat a b : pieces (a +:+ String "/" b) = pieces a ++ pieces b.
Proof. unfold pieces. by rewrite split_cat, filter_app. Qed.

Lemma pieces_join names : Forall name_ok names → pieces (join "/" names) = names.
Proof.
  intros Hn. destruct (decide (names = [])) as [->|Hne]; [done|].
  unfold pieces. rewrite split_join; [|done|].
  - apply filter_all. eapply Forall_impl; [exact Hn|]. by intros n (? & _).
  - eapply Forall_impl; [exact Hn|]. by intros n (_ & _ & _ & ?).
Qed.

Lemma pieces_root root : Forall name_ok root → pieces (to_string_lossy root) = root.
Proof.
  intros Hn. destruct root as [|n root]; [done|]. unfold to_string_lossy.
  change (String "/" (join "/" (n :: root))) with (""%string +:+ String "/" (join "/" (n :: root))).
  by rewrite pieces_cat, pieces_join.
Qed.

Lemma map_component_of names : Forall name_ok names → map component_of names = map Normal names.
Proof.
  induction 1 as [|n names (_ & H1 & H2 & _) _ IH]; [done|]. simpl. unfold component_of at 1.
  rewrite !bool_decide_eq_false_2 by done. by rewrite IH.
Qed.

Lemma filter_normal names : filter (λ c, c ≠ CurDir) (map Normal names) = map Normal names.
Proof. apply filter_all, Forall_map. by apply Forall_forall. Qed.

Lemma ends_with_slash_cut s : ends_with_slash s = true → ∃ a, s = a +:+ "/".
Proof.
  induction s as [|c s IH]; [done|]. simpl. destruct s as [|d s].
  - intros ->%Ascii.eqb_eq. by exists ""%string.
  - intros [a ->]%IH. by exists (String c a).
Qed.

Lemma pieces_path_join root key :
  is_absolute key = false → pieces (path_join root key) = pieces root ++ pieces key.
Proof.
  unfold path_join. intros ->. destruct (bool_decide_reflect (root = ""%string)) as [->|]; [done|]. simpl.
  destruct (ends_with_slash root) eqn:He.
  - apply ends_with_slash_cut in He as [a ->]. rewrite !pieces_cat.
    rewrite append_assoc. change ("/" +:+ key) with (String "/" key).
    rewrite pieces_cat. by rewrite app_nil_r.
  - apply (pieces_cat root key).
Qed.

Lemma absolute_slash s : is_absolute (String "/" s) = true.
Proof. unfold is_absolute, starts_with. simpl. by destruct s. Qed.

Lemma is_absolute_location root key :
  is_absolute key = false → is_absolute (path_join (to_string_lossy root) key) = true.
Proof.
  intros Hr. unfold path_join. rewrite Hr. destruct root as [|n root]; [apply absolute_slash|].
  destruct (_ || _); unfold to_string_lossy; rewrite append_cons; apply absolute_slash.
Qed.

Lemma starts_with_first d c s : Ascii.eqb c d = false → starts_with (String d "") (String c s) = false.
Proof.
  intros Hc. unfold starts_with. cbn [String.prefix].
  destruct (Ascii.ascii_dec d c) as [<-|]; [|done]. by rewrite Ascii.eqb_refl in Hc.
Qed.

(** A plain key is valid, and names the path it looks like. *)
Lemma plain_relative key names : plain_key key names → is_absolute key = false.
Proof.
  intros (-> & Hne & Hn & _). destruct Hn as [|n names (H0 & _ & _ & Hs) Hn]; [done|].
  destruct n as [|c n]; [done|]. cbn [mem_char] in Hs. apply orb_false_elim in Hs as [Hc _].
  assert (∃ rest, join "/" (String c n :: names) = String c rest) as [rest ->].
  { destruct names; [by eexists|]. cbn [join]. rewrite append_cons. by eexists. }
  unfold is_absolute. by apply starts_with_first.
Qed.

Lemma plain_components key names : plain_key key names → components key = map Normal names.
Proof.
  intros Hk. unfold components. rewrite (plain_relative _ _ Hk). destruct Hk as (-> & _ & Hn & _).
  rewrite pieces_join, map_component_of by done. destruct names as [|n names]; [done|]. apply (filter_normal (n :: names)).
Qed.

Lemma plain_valid key names : plain_key key names → validate_key key false = Ok ().
Proof.
  intros Hk. unfold validate_key. rewrite (plain_components _ _ Hk). pose proof (plain_relative _ _ Hk) as Hr.
  destruct Hk as (Hkey & Hne & Hn & Hb). rewrite Hb. unfold is_absolute in Hr. rewrite Hr.
  assert (starts_with "\" key = false) as ->.
  { destruct key as [|c key]; [done|]. cbn [mem_char] in Hb. apply orb_false_elim in Hb as [Hc _].
    by apply starts_with_first. }
  assert (key ≠ ""%string) as Hkne.
  { intros ->. apply (f_equal pieces) in Hkey. rewrite pieces_join in Hkey by done. by rewrite <-Hkey in Hne. }
  rewrite (bool_decide_eq_false_2 _ Hkne). simpl.
  assert (forallb is_normal (map Normal names) = true) as ->; [|done].
  apply forallb_forall. by intros c (n & <- & _)%in_map_iff.
Qed.

(** The last piece of a plain key is its last name, so nothing follows it. *)
Lemma plain_walked key names : plain_key key names → last (split "/"%char key) ≠ Some ""%string.
Proof.
  intros (-> & Hne & Hn & _). rewrite split_join; [|done|].
  - intros Hl. apply last_Some in Hl as [l ->]. apply Forall_app in Hn as [_ Hn].
    apply Forall_cons in Hn as [(? & _) _]. done.
  - eapply Forall_impl; [exact Hn|]. by intros n (_ & _ & _ & ?).
Qed.

(** The location of a plain key. *)
Lemma location_components root key names :
  Forall name_ok root → plain_key key names →
  components (location_key (local_location root key)) = of_apath (root ++ names).
Proof.
  intros Hroot Hk. pose proof (plain_relative _ _ Hk) as Hr.
  pose proof (is_absolute_location root key Hr) as Ha.
  simpl. unfold components. rewrite Ha, pieces_path_join, pieces_root by done.
  destruct Hk as (-> & _ & Hn & _). rewrite pieces_join by done.
  rewrite map_component_of, filter_normal; [done|]. by apply Forall_app.
Qed.

Lemma location_walked root key names :
  Forall name_ok root → plain_key key names →
  walked (location_key (local_location root key)) = of_apath (root ++ names).
Proof.
  intros Hroot Hk. pose proof (plain_relative _ _ Hk) as Hr. pose proof (plain_walked _ _ Hk) as Hl.
  pose proof (is_absolute_location root key Hr) as Ha.
  simpl. unfold walked. rewrite Ha, pieces_path_join, pieces_root by done.
  assert (last (split "/"%char (path_join (to_string_lossy root) key)) = last (split "/"%char key)) as ->.
  { assert (∀ a, last (split "/"%char (a +:+ String "/" key)) = last (split "/"%char key)) as Hcat.
    { intros a. rewrite split_cat, last_app. pose proof (split_nonempty "/"%char key).
      by destruct (last (split "/"%char key)) eqn:E; [|apply last_None in E]. }
    unfold path_join. rewrite Hr. destruct root as [|n root]; [apply (Hcat ""%string)|].
    destruct (bool_decide_reflect (to_string_lossy (n :: root) = ""%string)); [done|]. cbn [orb].
    destruct (ends_with_slash _) eqn:He; [|apply Hcat].
    apply ends_with_slash_cut in He as [a ->]. rewrite append_assoc. apply Hcat. }
  rewrite (bool_decide_eq_false_2 _ Hl). destruct Hk as (-> & _ & Hn & _). rewrite pieces_join by done.
  rewrite map_component_of by by apply Forall_app. simpl. by rewrite app_nil_r.
Qed.

Lemma components_root q : Forall name_ok q → components (to_string_lossy q) = of_apath q.
Proof.
  intros Hq. unfold components. rewrite pieces_root, map_component_of, filter_normal by done.
  destruct q; [done|]. unfold to_string_lossy. by rewrite absolute_slash.
Qed.

Lemma strip_components_app root rest :
  strip_components (map Normal root ++ rest) (map Normal root) = Some rest.
Proof. induction root as [|n root IH]; [by destruct rest|]. simpl. by rewrite bool_decide_eq_true_2. Qed.

Lemma local_metadata_plain root key names md :
  Forall name_ok root → plain_key key names → path md = to_string_lossy (root ++ names) →
  local_metadata root md = Ok (mkStoreMetadata key (size md) (modified_unix_ns md)).
Proof.
  intros Hroot (-> & _ & Hn & _) Hpath. unfold local_metadata, of_apath.
  rewrite Hpath, components_root by by apply Forall_app. unfold of_apath. cbn [strip_components].
  rewrite bool_decide_eq_true_2, map_app, strip_components_app by done. cbn [ok_or mbind result_bind].
  by rewrite map_map, map_id.
Qed.

(** ** Lemmas: where a key leads *)

Lemma follow_root w root :
  real_directory (files w) root → Forall name_ok root → follow w (walked (to_string_lossy root)) = Ok root.
Proof.
  intros Hd Hroot. transitivity (follow w (of_apath root)); [|apply follow_canonical; by left].
  destruct root as [|n root]; [done|]. f_equal. unfold walked, to_string_lossy at 1.
  rewrite absolute_slash, pieces_root, map_component_of by done.
  change (to_string_lossy (n :: root)) with (""%string +:+ String "/" (join "/" (n :: root))).
  rewrite split_cat. change (split "/"%char "") with [""%string].
  rewrite split_join; [|done|eapply Forall_impl; [exact Hroot|]; by intros ? (_ & _ & _ & ?)].
  rewrite (bool_decide_eq_false_2 (last _ = _)); [by rewrite app_nil_r|].
  rewrite last_app. intros Hl. destruct (last (n :: root)) as [x|] eqn:Hx; [|by apply last_None in Hx].
  injection Hl as ->. apply last_Some in Hx as [l Hx]. rewrite Hx in Hroot.
  by apply Forall_app in Hroot as [_ [(? & _) _]%Forall_cons].
Qed.

Lemma located_plain w root key names :
  Forall name_ok root → plain_key key names → real_directory (files w) root →
  canonical (files w) (root ++ names) → located w (local_location root key) (root ++ names).
Proof.
  intros Hroot Hk Hd Hcan. split.
  - rewrite (location_walked root key names) by done. by apply follow_canonical.
  - intros r [= <-]. exists root. split; [by apply follow_root|by apply prefix_app_r].
Qed.

(** ** Lemmas: making the directories of a key *)

(** Only directories were added, at prefixes of [cur ++ names] longer than
    [cur]. *)
Definition grown (cur names : list string) (before after : gmap apath Node) : Prop :=
  ∀ q, after !! q = before !! q ∨
    (before !! q = None ∧ after !! q = Some Directory ∧ ∃ k, q = cur ++ take (S k) names).

Lemma grown_refl cur names fs : grown cur names fs fs.
Proof. intros q. by left. Qed.

Lemma grown_real cur names before after d :
  grown cur names before after → real_directory before d → real_directory after d.
Proof.
  intros Hg Hd k name Hk. specialize (Hd k name Hk).
  destruct (Hg (take (S k) d)) as [->|(Hn & _)]; [done|congruence].
Qed.

Lemma ensure_directory_spec cur name p r p' :
  ensure_directory (cur ++ [name]) p = (r, p') →
  cwd (world p') = cwd (world p) ∧ active_writers p' = active_writers p ∧
  grown cur [name] (files (world p)) (files (world p')) ∧
  (r = Ok () → files (world p') !! (cur ++ [name]) = Some Directory).
Proof.
  intros Hr. unfold ensure_directory in Hr.
  apply native_bind_inv in Hr as [(e & Hr & _)|(found & p1 & Hlook & Hr)].
  { unfold attempt in Hr. by destruct (fs_symlink_metadata _ _). }
  pose proof (quiet_attempt (λ w, ok_or (node_at (files w) (cur ++ [name])) io.NotFound) p) as Hq.
  unfold fs_symlink_metadata in Hlook. rewrite Hlook in Hq. simpl in Hq.
  assert (∀ q, same p q → cwd (world q) = cwd (world p) ∧ active_writers q = active_writers p ∧
    grown cur [name] (files (world p)) (files (world q))) as Hsame.
  { intros q (Hf & Hc & _ & Ha & _). rewrite Hf. split_and!; try done. apply grown_refl. }
  destruct found as [[c m| |t|]|kind].
  1,3,4: injection Hr as <- <-; destruct (Hsame _ Hq) as (? & ? & ?); by split_and!.
  - injection Hr as <- <-. destruct (Hsame _ Hq) as (? & ? & ?). split_and!; try done. intros _.
    unfold attempt in Hlook. destruct (looking _ (world p)) as [r0 w0] eqn:Hl. simplify_eq.
    apply looking_Ok in Hl as (_ & _ & _ & v & Hf & _ & _ & Hl). apply ok_or_Ok in Hl.
    rewrite Hf in Hl. destruct Hq as (Hf' & _). rewrite Hf'. by destruct cur.
  - assert (kind = io.NotFound ∨ same p1 p' ∧ ∃ e, r = Err e) as [->|[Hs [e ->]]].
    { destruct kind; try (injection Hr as <- <-; right; split; [reflexivity|by eexists]). by left. }
    2: { assert (same p p') as Hs' by by etransitivity. destruct (Hsame _ Hs') as (? & ? & ?). by split_and!. }
    apply io_inv in Hr as (r0 & w & Hop & -> & ->). apply changing_cases in Hop as (Hc & _ & Hop). simpl.
    destruct (Hsame _ Hq) as (Hc1 & Ha1 & _). destruct Hq as (Hf1 & _). rewrite Hc1 in Hc.
    destruct r0 as [[]|k]; [|by rewrite Hop, Hf1; split_and!; [..|apply grown_refl|]].
    destruct Hop as (v & fs & Hf & _ & _ & Hv & ->). rewrite Hf, Hf1 in Hv.
    destruct (node_at (files (world p)) (removelast (cur ++ [name]))) as [[]|]; try done.
    assert (node_at (files (world p)) (cur ++ [name]) = files (world p) !! (cur ++ [name])) as Hna by by destruct cur.
    rewrite Hna in Hv. destruct (files (world p) !! (cur ++ [name])) eqn:Hnone; [done|]. injection Hv as <-.
    split_and!; try done; [|intros _; apply lookup_insert_eq].
    intros q. destruct (decide (q = cur ++ [name])) as [->|Hne]; [|left; by rewrite lookup_insert_ne].
    right. split_and!; [done|apply lookup_insert_eq|by exists 0%nat].
Qed.

Lemma grown_cons cur name names f1 f2 f3 :
  grown cur [name] f1 f2 → grown (cur ++ [name]) names f2 f3 → grown cur (name :: names) f1 f3.
Proof.
  intros H12 H23 q. destruct (H12 q) as [E12|(Hn & Hd & k & Hq)].
  - destruct (H23 q) as [E23|(Hn & Hd & k & ->)]; [left; congruence|right].
    split_and!; [congruence|done|]. exists (S k). by rewrite <-app_assoc.
  - right. split; [done|]. split; [destruct (H23 q) as [E|(E & _)]; congruence|].
    exists 0%nat. rewrite Hq. by destruct k.
Qed.

Lemma ensure_directories_spec names : ∀ cur p r p',
  ensure_directories cur (map Normal names) p = (r, p') →
  cwd (world p') = cwd (world p) ∧ active_writers p' = active_writers p ∧
  grown cur names (files (world p)) (files (world p')) ∧
  (r = Ok () → real_directory (files (world p)) cur → real_directory (files (world p')) (cur ++ names)).
Proof.
  induction names as [|name names IH]; intros cur p r p' Hr; cbn [map ensure_directories] in Hr.
  { injection Hr as <- <-. split_and!; [done..|apply grown_refl|]. by rewrite app_nil_r. }
  apply native_bind_inv in Hr as [(e & Hd & ->)|([] & p1 & Hd & Hr)].
  - apply ensure_directory_spec in Hd as (? & ? & Hg & _). split_and!; try done.
    by eapply grown_cons, grown_refl.
  - apply ensure_directory_spec in Hd as (? & ? & Hg & Hdir).
    apply IH in Hr as (? & ? & Hg' & Hreal). split_and!; [congruence..|by eapply grown_cons|].
    intros Hok Hcur. replace (cur ++ name :: names) with ((cur ++ [name]) ++ names) by by rewrite <-app_assoc. apply Hreal; [done|].
    apply real_directory_snoc; [by eapply grown_real|by apply Hdir].
Qed.

Lemma removelast_map {A B} (f : A → B) l : removelast (map f l) = map f (removelast l).
Proof. induction l as [|x l IH]; [done|]. destruct l; [done|]. simpl in *. by rewrite IH. Qed.

Lemma plain_parent key names :
  plain_key key names → default [] (parent (components key)) = map Normal (removelast names).
Proof.
  intros Hk. rewrite (plain_components key names Hk). destruct Hk as (_ & Hne & _).
  rewrite <-removelast_map. destruct (exists_last Hne) as (l & n & ->). unfold parent.
  by rewrite map_app; cbn [map]; rewrite last_snoc.
Qed.

(** ** The store the readers see *)

(** A reader asks a store for the metadata of an object and for its ranges. *)
Definition front_store : RangeStore := {|
  ChunkReader.StoreResource := StoreResource;
  ChunkReader.StoreState := Stores;
  ChunkReader.store_head store key s :=
    let '(r, s) := store_head store key s in
    (metadata ← r; Ok (mkObjectMetadata (store_path metadata) (store_size metadata) (store_modified_unix_ns metadata)), s);
  ChunkReader.store_read_range := store_read_range;
|}.

(** The state of a store while others leave its files alone. *)
Definition files_stay (w : World) (s : Stores) : Prop :=
  files (world (process s)) = files w ∧ cwd (world (process s)) = cwd w.

Lemma located_ext v w l q : files v = files w → cwd v = cwd w → located v l q → located w l q.
Proof.
  intros Hf Hc [Hl Hr]. split; [by rewrite <-(follow_ext v w _ Hf Hc)|].
  intros root Hroot. destruct (Hr root Hroot) as (rq & Hrq & Hp). exists rq.
  by rewrite <-(follow_ext v w _ Hf Hc).
Qed.

Lemma located_unique w l q q' : located w l q → located w l q' → q = q'.
Proof. intros [H1 _] [H2 _]. congruence. Qed.

(** A read of a local store is [validate_key], then the local read. *)
Lemma local_read_range store root key offset length s :
  store_backend store = LocalBackend root →
  store_read_range store key offset length s =
  match validate_key key false with
  | Err e => (Err e, s)
  | Ok _ =>
      let '(r, p) := read_range (local_location root key) (mkByteRange offset length) false (process s) in
      (r, set_process s p)
  end.
Proof.
  intros Hb. unfold store_read_range, mbind, front_bind, pure, locally. rewrite Hb.
  by destruct (validate_key key false).
Qed.

Lemma local_read_nofault store root key q c m offset length s :
  store_backend store = LocalBackend root → validate_key key false = Ok () →
  canonical (files (world (process s))) q → faults (world (process s)) = [] →
  located (world (process s)) (local_location root key) q →
  node_at (files (world (process s))) q = Some (RegularFile c m) →
  0 ≤ offset ≤ len c → 0 ≤ length → len c ≤ u64_max →
  (store_read_range store key offset length s).1 = Ok (take_bytes length (skip_bytes offset c)).
Proof.
  intros Hb Hv Hcan Hno Hloc Hnode Ho Hl Hu. rewrite (local_read_range store root) by done. rewrite Hv.
  pose proof (read_range_nofault (local_location root key) (mkByteRange offset length) (process s) q c m
    Hcan Hno Hloc Hnode Ho Hl Hu) as Hr.
  by destruct (read_range _ _ _ _).
Qed.

(** ** Lemmas: writing through a local store *)

Lemma resolve_destination_plain root key names o p dest p' :
  Forall name_ok root → plain_key key names →
  real_directory (files (world p)) (root ++ removelast names) →
  resolve_destination (local_location root key) o p = (Ok dest, p') →
  same p p' ∧ dest = root ++ names.
Proof.
  intros Hroot Hk Hreal Hr. pose proof (quiet_resolve_destination (local_location root key) o p) as Hq.
  rewrite Hr in Hq. split; [done|]. unfold resolve_destination in Hr.
  rewrite (location_components root key names) in Hr by done.
  destruct Hk as (_ & Hne & _). destruct (exists_last Hne) as (l & n & ->). rewrite removelast_last in Hreal.
  unfold parent, file_name, of_apath in Hr. rewrite app_assoc, map_app, app_comm_cons in Hr. cbn [map] in Hr.
  rewrite last_snoc, removelast_last in Hr.
  apply native_bind_inv in Hr as [(e & [=] & _)|(par & q & [= <- <-] & Hr)].
  apply native_bind_inv in Hr as [(e & [=] & _)|(name & q & [= <- <-] & Hr)].
  apply native_bind_inv in Hr as [(e & _ & [=])|(cp & q & Hcan & Hr)].
  apply native_looking in Hcan as [_ Hcan]; [|intros; by apply follow_ext].
  change (RootDir :: map Normal (root ++ l)) with (of_apath (root ++ l)) in Hcan.
  rewrite follow_canonical in Hcan by by left. injection Hcan as <-.
  apply native_bind_inv in Hr as [(e & _ & [=])|([] & q' & _ & [= <- _])]. by rewrite app_assoc.
Qed.

Lemma open_writer_local store root key flush sync cancelled s w0 s1 :
  store_backend store = LocalBackend root →
  open_writer store key flush sync cancelled s = (Ok (LocalStoreWriter w0 root), s1) →
  ∃ p1 p2 dest, ensure_local_parent root key (process s) = (Ok (), p1) ∧
    resolve_destination (local_location root key) WriterOpen p1 = (Ok dest, p2) ∧
    LocalWriter_open dest (mkWriteOptions flush sync) cancelled p2 = (Ok w0, process s1).
Proof.
  intros Hb. unfold open_writer, mbind, front_bind, pure, locally. rewrite Hb.
  destruct (validate_key key false); [|done].
  destruct (ensure_local_parent root key (process s)) as [[[]|e] p1]; [|done]. cbn [process set_process].
  unfold stage, mbind, native_bind.
  destruct (resolve_destination _ _ p1) as [[dest|e] p2] eqn:Hd; [|done].
  destruct (LocalWriter_open dest _ cancelled p2) as [[w|e] p3] eqn:Ho; [|done].
  intros [= <- <-]. simpl. eauto 10.
Qed.

(** The staging file is beside the destination. *)
Lemma LocalWriter_open_beside dest options cancelled p w p' :
  LocalWriter_open dest options cancelled p = (Ok w, p') → ∃ name, stage_path w = removelast dest ++ [name].
Proof.
  unfold LocalWriter_open. intros [(e & _ & [=])|(par & q & Hpar & Hk)]%native_bind_inv.
  injection Hpar as Hpar <-. apply ok_or_Ok in Hpar.
  apply native_bind_inv in Hk as [(e & _ & [=])|(name & q & Hname & Hk)].
  apply open_attempts_Ok in Hk as (n & -> & _). exists (stage_name name n (process_id q)).
  destruct dest; [done|]. by injection Hpar as <-.
Qed.

Lemma real_directory_kept fs fs' d :
  (∀ k, fs !! take (S k) d = Some Directory → fs' !! take (S k) d = Some Directory) →
  real_directory fs d → real_directory fs' d.
Proof. intros Hk Hd k name Hl. by apply Hk, (Hd k name). Qed.

Lemma real_directory_prefix fs d rest : real_directory fs (d ++ rest) → real_directory fs d.
Proof.
  intros Hd k name Hk. pose proof (lookup_lt_Some _ _ _ Hk).
  rewrite <-(take_app_le d rest (S k)) by lia. apply (Hd k name). by apply lookup_app_l_Some.
Qed.

(** Neither staging nor publishing disturbs the directories above. *)
Lemma real_directory_staged (stage : apath) n fs d :
  fs !! stage = None → real_directory fs d → real_directory (<[stage := n]> fs) d.
Proof.
  intros Hnone. apply real_directory_kept. intros k Hk.
  rewrite lookup_insert_ne; [done|]. congruence.
Qed.

Lemma take_shorter {A} (d : list A) k l : l ≠ [] → take k d ≠ d ++ l.
Proof.
  intros Hl Heq. apply (f_equal length) in Heq. rewrite length_app, length_take in Heq.
  destruct l; [done|]. simpl in Heq. lia.
Qed.

Lemma real_directory_published w contents before after d name :
  published w contents before after → destination w = d ++ [name] →
  (∃ c m, before !! stage_path w = Some (RegularFile c m)) →
  real_directory before d → real_directory after d.
Proof.
  intros (_ & _ & Hsame) Hdest (c & m & Hst). apply real_directory_kept. intros k Hk.
  rewrite Hsame; [done|congruence|]. rewrite Hdest. by apply take_shorter.
Qed.

Lemma head_nofault l p q c m :
  canonical (files (world p)) q → faults (world p) = [] → located (world p) l q →
  node_at (files (world p)) q = Some (RegularFile c m) →
  (head l false p).1 = Ok (mkObjectMetadata (to_string_lossy q) (len c) (m ≫= system_time_ns)).
Proof.
  intros Hcan Hno Hloc Hnode. unfold head, mbind, native_bind. simpl.
  rewrite (resolve_existing_nofault l Head p q Hno Hloc). unfold metadata_for, fs_metadata, mbind, native_bind.
  rewrite looking_nofault, follow_canonical by done. cbn [mbind result_bind]. by rewrite Hnode.
Qed.

Lemma local_head_nofault store root key names md s :
  store_backend store = LocalBackend root → Forall name_ok root → plain_key key names →
  (head (local_location root key) false (process s)).1 = Ok md → path md = to_string_lossy (root ++ names) →
  (store_head store key s).1 = Ok (mkStoreMetadata key (size md) (modified_unix_ns md)).
Proof.
  intros Hb Hroot Hk Hh Hp. unfold store_head, mbind, front_bind, pure, locally.
  rewrite Hb, (plain_valid key names Hk). destruct (head _ _ _) as [r p]. simpl in Hh. rewrite Hh. simpl.
  by rewrite (local_metadata_plain root key names).
Qed.

(** The files after a publication through a local store. *)
Lemma local_publication root key names flush sync (p0 p1 : Process) dest p2 w0 p3 w p acc md w' p' :
  Forall name_ok root → plain_key key names → real_directory (files (world p0)) root →
  ensure_local_parent root key p0 = (Ok (), p1) →
  resolve_destination (local_location root key) WriterOpen p1 = (Ok dest, p2) →
  LocalWriter_open dest (mkWriteOptions flush sync) false p2 = (Ok w0, p3) →
  rtc own_step (w0, p3, Some []) (w, p, acc) → cancellation w = false →
  publish w p = (Ok md, w', p') →
  ∃ c, (∀ a, acc = Some a → c = a) ∧
  path md = to_string_lossy (root ++ names) ∧ described (root ++ names) c md (files (world p')) ∧
  real_directory (files (world p')) (root ++ removelast names).
Proof.
  intros Hroot Hk Hreal Hens Hres Hopen Hsteps Hcan Hpub.
  unfold ensure_local_parent in Hens. rewrite (plain_parent key names Hk) in Hens.
  apply ensure_directories_spec in Hens as (_ & _ & _ & Hpar). specialize (Hpar eq_refl Hreal).
  apply (resolve_destination_plain root key names) in Hres as [Hs ->]; [|done..].
  rewrite <-(same_files _ _ Hs) in Hpar. clear Hs.
  apply LocalWriter_open_beside in Hopen as Hbeside. destruct Hbeside as [sn Hsn].
  apply LocalWriter_open_Ok in Hopen as (Hst0 & Hd0 & _ & _ & _ & Hnone & Hfs & _).
  destruct (own_steps_alone w0 (files (world p2)) (active_writers p3) _ _ Hsteps)
    as [(c & Hst & Hacc & Hsp & Hd & _) [(c' & m' & Hf) _]].
  { split; [|split; [by eexists _, _|done]]. exists []. split; [done|]. split; [by intros d [= <-]|done]. }
  destruct (publish_cases _ _ _ _ _ _ Hst Hcan Hpub) as (_ & _ & Hp & Hpath & Hdesc).
  rewrite Hd, Hd0 in Hpath, Hdesc.
  assert (removelast (root ++ names) = root ++ removelast names ∧ ∃ n, root ++ names = (root ++ removelast names) ++ [n])
    as [Hrl [n Hn]].
  { destruct Hk as (_ & Hne & _). destruct (exists_last Hne) as (l & n & ->).
    rewrite app_assoc, !removelast_last. eauto. }
  rewrite Hrl in Hsn.
  assert (real_directory (files (world p)) (root ++ removelast names)) as Hbefore.
  { rewrite Hf. by apply real_directory_staged. }
  exists c. split; [done|]. split; [done|]. split; [apply (Hdesc (root ++ removelast names) sn); [congruence|done]|].
  eapply real_directory_published; [exact Hp|by rewrite Hd, Hd0, Hn| |done].
  destruct Hst as [_ _ [m Hm] _ _]. eauto.
Qed.

(** A file below real directories is what its key leads to. *)
Lemma local_file_located root key names c m s :
  Forall name_ok root → plain_key key names →
  real_directory (files (world (process s))) (root ++ removelast names) →
  files (world (process s)) !! (root ++ names) = Some (RegularFile c m) →
  canonical (files (world (process s))) (root ++ names) ∧
  located (world (process s)) (local_location root key) (root ++ names) ∧
  node_at (files (world (process s))) (root ++ names) = Some (RegularFile c m).
Proof.
  intros Hroot Hk Hdir Hfile. pose proof Hk as (_ & Hne & _).
  assert (canonical (files (world (process s))) (root ++ names) ∧ real_directory (files (world (process s))) root) as [Hc Hr].
  { split; [|by eapply real_directory_prefix].
    destruct (exists_last Hne) as (l & n & ->). rewrite removelast_last in Hdir.
    right. exists (root ++ l), n, (RegularFile c m). by rewrite <-app_assoc. }
  split_and!; [done|by apply located_plain|]. destruct root; [by destruct names|done].
Qed.

(** What was published is found again. *)
Lemma local_published_reads store root key names md c s :
  store_backend store = LocalBackend root → Forall name_ok root → plain_key key names →
  path md = to_string_lossy (root ++ names) → described (root ++ names) c md (files (world (process s))) →
  real_directory (files (world (process s))) (root ++ removelast names) → faults (world (process s)) = [] →
  (store_head store key s).1 = Ok (mkStoreMetadata key (len c) (modified_unix_ns md)) ∧
  ∀ offset length, 0 ≤ offset ≤ len c → 0 ≤ length → len c ≤ u64_max →
    (store_read_range store key offset length s).1 = Ok (take_bytes length (skip_bytes offset c)).
Proof.
  intros Hb Hroot Hk Hpath [Hsize (m & Hfile & Hmod)] Hdir Hno.
  destruct (local_file_located root key names c m s Hroot Hk Hdir Hfile) as (Hc & Hloc & Hnode). split.
  - pose proof (head_nofault _ (process s) _ _ _ Hc Hno Hloc Hnode) as Hh.
    rewrite (local_head_nofault store root key names _ s Hb Hroot Hk Hh eq_refl). simpl. congruence.
  - intros offset length Ho Hl Hu.
    exact (local_read_nofault store root key _ c m offset length s Hb
      (plain_valid key names Hk) Hc Hno Hloc Hnode Ho Hl Hu).
Qed.

(** ** Properties *)

(** C12: the local backend keeps the promise the chunk reader relies on: while
    the files stay as they are, a range of the regular file a key resolves to
    is answered with exactly its bytes or with an error, and with its bytes
    when the key is valid and no system call fails. *)
Theorem local_store_honest store root key w0 q c m :
  store_backend store = LocalBackend root →
  real_directory (files w0) (cwd w0) → small_files (files w0) →
  located w0 (local_location root key) q → node_at (files w0) q = Some (RegularFile c m) →
  honest (H := front_store) (mkChunkBackend (H := front_store) store key) c (files_stay w0) ∧
  ∀ offset length s, files_stay w0 s → faults (world (process s)) = [] → validate_key key false = Ok () →
    0 ≤ offset ≤ len c → 0 ≤ length →
    (store_read_range store key offset length s).1 = Ok (take_bytes length (skip_bytes offset c)).
Proof.
  intros Hb Hcwd Hsmall Hloc Hnode. split.
  - intros offset length s [Hf Hc] Ho Hl. cbn [ChunkReader.store_read_range front_store ChunkReader.store ChunkReader.key].
    rewrite (local_read_range store root) by done.
    destruct (validate_key key false) as [[]|e]; [|done].
    pose proof (read_range_tree (local_location root key) (mkByteRange offset length) false (process s)) as (Hft & Hct & _).
    destruct (read_range _ _ _ _) as [r p'] eqn:Hr. simpl in Hft, Hct. split; [split; simpl; congruence|].
    destruct r as [data|e]; [|done].
    apply read_range_Ok in Hr as (q' & c' & m' & Hloc' & Hnode' & _ & -> & _); rewrite ?Hf, ?Hc; try done; [|simpl; lia].
    apply (located_ext _ w0) in Hloc'; [|done..]. rewrite (located_unique _ _ _ _ Hloc' Hloc), Hf, Hnode in Hnode'.
    by injection Hnode' as <- <-.
  - intros offset length s [Hf Hc] Hno Hv Ho Hl.
    pose proof (Hsmall _ _ _ (node_at_file _ _ _ _ Hnode)) as Hu.
    pose proof (located_ext w0 (world (process s)) _ _ (eq_sym Hf) (eq_sym Hc) Hloc) as Hloc'. rewrite <-Hf in Hnode, Hcwd. rewrite <-Hc in Hcwd.
    apply (local_read_nofault store root key q c m); [exact Hb|exact Hv| |exact Hno|exact Hloc'|exact Hnode|exact Ho|exact Hl|exact Hu].
    by eapply located_canonical.
Qed.

(** Making the parent of a local object only creates missing directories
    on the path from the store's root to it, whatever fails; when it succeeds
    that path consists of real directories, no link among them. *)
Theorem local_parent_real root key names p r p' :
  plain_key key names → real_directory (files (world p)) root →
  ensure_local_parent root key p = (r, p') →
  grown root (removelast names) (files (world p)) (files (world p')) ∧
  (r = Ok () → real_directory (files (world p')) (root ++ removelast names)).
Proof.
  intros Hk Hroot Hr. unfold ensure_local_parent in Hr.
  rewrite (plain_parent key names) in Hr by done.
  apply ensure_directories_spec in Hr as (_ & _ & Hg & Hreal). split; [done|]. by intros Hok; apply Hreal.
Qed.

(** C11: what is written through a local store can be read back through it: a
    publication reports the key and the length of the acknowledged data, and
    from then on, when no system call fails, [head] reports the same metadata
    and every range read returns exactly those bytes of the data. *)
Theorem local_store_roundtrip store root key names flush sync s0 w0 s1 w p acc md w' s2 :
  store_backend store = LocalBackend root → Forall name_ok root → plain_key key names →
  real_directory (files (world (process s0))) root →
  open_writer store key flush sync false s0 = (Ok (LocalStoreWriter w0 root), s1) →
  rtc own_step (w0, process s1, Some []) (w, p, Some acc) → cancellation w = false →
  store_publish (LocalStoreWriter w root) (set_process s1 p) = (Ok md, w', s2) →
  store_path md = key ∧ store_size md = len acc ∧
  (faults (world (process s2)) = [] →
    (store_head store key s2).1 = Ok md ∧
    ∀ offset length, 0 ≤ offset ≤ len acc → 0 ≤ length → len acc ≤ u64_max →
      (store_read_range store key offset length s2).1 = Ok (take_bytes length (skip_bytes offset acc))).
Proof.
  intros Hb Hroot Hk Hreal (p1 & p2 & dest & Hens & Hres & Hopen)%(open_writer_local _ root) Hsteps Hcan Hpub; [|done].
  simpl in Hpub. destruct (publish w p) as [[r lw] p'] eqn:Hpb. simpl in Hpub.
  destruct r as [omd|e]; [|done]. cbn [mbind result_bind] in Hpub.
  destruct (local_publication root key names flush sync _ _ _ _ _ _ _ _ _ _ _ _
    Hroot Hk Hreal Hens Hres Hopen Hsteps Hcan Hpb) as (c & Hc & Hpath & Hdesc & Hdir).
  specialize (Hc acc eq_refl) as ->.
  rewrite (local_metadata_plain root key names) in Hpub by done. injection Hpub as <- <- <-. simpl.
  pose proof Hdesc as [Hsize _]. split_and!; [done..|]. intros Hno. rewrite Hsize.
  by apply (local_published_reads store root key names omd acc (set_process (set_process s1 p) p')).
Qed.

(** A local store never returns more than it was asked for. *)
Lemma local_frugal store root key : store_backend store = LocalBackend root →
  frugal (H := front_store) (mkChunkBackend (H := front_store) store key).
Proof.
  intros Hb offset length s data s' Hl. cbn [ChunkReader.store_read_range front_store ChunkReader.store ChunkReader.key].
  rewrite (local_read_range store root) by done. destruct (validate_key key false); [|done].
  destruct (read_range _ _ _ _) as [r p] eqn:Hr. intros [= -> _]. by eapply read_range_short in Hr.
Qed.

End store.

(** ** Witnesses *)

(** No S3 store at all. *)
Definition NoS3 : S3 := {|
  RemoteStore := Empty_set; RemoteObject := Empty_set; RemoteMultipartWriter := Empty_set; RemoteState := ();
  remote_object s := match s with end;
  remote_multipart_buffer_limit_bytes s := match s with end;
  remote_head o := match o with end;
  remote_read_range o := match o with end;
  remote_list s := match s with end;
  remote_delete o := match o with end;
  remote_open_multipart o := match o with end;
  remote_write _ w := match w with end;
  remote_flush w := match w with end;
  remote_publish w := match w with end;
  remote_abort w := match w with end;
  remote_token w := match w with end;
  remote_cancel w := w;
  remote_drop w := match w with end;
  remote_snapshot _ := (0, 0, 0, 0, 0, 0);
|}.

Definition sample_stores : Stores (H := NoS3) := mkStores (H := NoS3) sample_process () 2 1 1.
Definition sample_store : StoreResource (H := NoS3) := mkStoreResource (H := NoS3) 1 (LocalBackend (H := NoS3) ["data"]).

Example sample_open : (open_local (H := NoS3) "/data/../data/" (mkStores (H := NoS3) sample_process () 1 0 0)).1 = Ok sample_store.
Proof. vm_compute. reflexivity. Qed.

Lemma sample_located : located (world sample_process) (local_location ["data"] "link") ["data"; "a"].
Proof.
  split; [vm_compute; reflexivity|]. intros root [= <-]. exists ["data"].
  split; [vm_compute; reflexivity|by exists ["a"]].
Qed.

Lemma local_store_honest_witness :
  honest (H := front_store (H := NoS3)) (mkChunkBackend (H := front_store (H := NoS3)) sample_store "link")
    ["h"; "e"; "l"; "l"; "o"]%byte (files_stay (H := NoS3) (world sample_process)) ∧
  (store_read_range (H := NoS3) sample_store "link" 1 3 sample_stores).1 = Ok ["e"; "l"; "l"]%byte.
Proof.
  destruct (local_store_honest (H := NoS3) sample_store ["data"] "link" (world sample_process) ["data"; "a"]
    ["h"; "e"; "l"; "l"; "o"]%byte (Some 5) eq_refl (real_directory_nil _) sample_small sample_located eq_refl) as [Hh Hr].
  split; [exact Hh|].
  rewrite (Hr 1 3 sample_stores); [vm_compute; reflexivity|split; reflexivity|reflexivity|reflexivity|vm_compute; split; discriminate|lia].
Defined.

Lemma sample_plain : plain_key "sub/out" ["sub"; "out"].
Proof. split_and!; [done..| |done]. by repeat constructor. Qed.

Lemma sample_root : Forall name_ok ["data"].
Proof. by repeat constructor. Qed.

Lemma sample_real : real_directory sample_files ["data"].
Proof. intros [|k] name Hk; [vm_compute; reflexivity|by destruct k]. Qed.

(** The directory is made, the data is written in one piece and published. *)
Lemma local_store_roundtrip_witness :
  let '(opened, s1) := open_writer (H := NoS3) sample_store "sub/out" BeforePublish SyncAll false sample_stores in
  match opened with
  | Ok (LocalStoreWriter w root) =>
      let '(_, w, p) := write ["x"; "y"; "z"]%byte w (process s1) in
      let '(r, _, s2) := store_publish (H := NoS3) (LocalStoreWriter w root) (set_process s1 p) in
      r = Ok (mkStoreMetadata "sub/out" 3 (Some 9)) ∧
      (store_read_range (H := NoS3) sample_store "sub/out" 1 9 s2).1 = Ok ["y"; "z"]%byte
  | _ => False
  end.
Proof.
  destruct (open_writer (H := NoS3) _ _ _ _ _ _) as [opened s1] eqn:Ho.
  assert (opened = (open_writer (H := NoS3) sample_store "sub/out" BeforePublish SyncAll false sample_stores).1 ∧
    s1 = (open_writer (H := NoS3) sample_store "sub/out" BeforePublish SyncAll false sample_stores).2) as [E1 E2]
    by by rewrite Ho.
  vm_compute in E1. rewrite E1 in Ho |- *.
  match goal with |- context [write ?d ?w ?p] => destruct (write d w p) as [[wr w'] p'] eqn:Hw end.
  assert (wr = Ok 3 ∧ faults (world p') = [] ∧ cancellation w' = false) as (Er & Ef & Ec).
  { rewrite E2 in Hw. vm_compute in Hw. injection Hw as <- <- <-. by vm_compute. }
  destruct (store_publish (H := NoS3) _ _) as [[r sw] s2] eqn:Hp.
  assert (r = Ok (mkStoreMetadata "sub/out" 3 (Some 9)) ∧ faults (world (process s2)) = []) as [Er2 Ef2].
  { rewrite E2 in Hw, Hp. vm_compute in Hw. injection Hw as <- <- <-. vm_compute in Hp.
    injection Hp as <- <- <-. by vm_compute. }
  rewrite Er2 in Hp |- *. split; [reflexivity|].
  refine (proj2 (proj2 (proj2 (local_store_roundtrip (H := NoS3) sample_store ["data"] "sub/out" ["sub"; "out"] BeforePublish SyncAll
    sample_stores _ s1 w' p' ["x"; "y"; "z"]%byte _ sw s2 eq_refl sample_root sample_plain sample_real Ho _ Ec Hp)) Ef2) 1 9 _ _ _).
  - eapply rtc_once. rewrite Er in Hw. exact (step_write _ _ _ (Some []) _ _ _ Hw).
  - vm_compute. split; discriminate.
  - lia.
  - vm_compute. discriminate.
Defined.

Lemma local_parent_real_witness :
  let '(r, p') := ensure_local_parent ["data"] "sub/out" sample_process in
  r = Ok () ∧ real_directory (files (world p')) ["data"; "sub"].
Proof.
  destruct (ensure_local_parent _ _ _) as [r p'] eqn:Hr.
  assert (r = Ok ()) as ->.
  { transitivity (ensure_local_parent ["data"] "sub/out" sample_process).1; [by rewrite Hr|vm_compute; reflexivity]. }
  split; [reflexivity|].
  apply (local_parent_real ["data"] "sub/out" ["sub"; "out"] sample_process (Ok ()) p' sample_plain sample_real Hr).
  reflexivity.
Defined.

(** A key is only checked by its components, so that not every valid key is
    the text of its path: this one can be published, but not read back. *)
Example trailing_slash_key :
  let '(opened, s) := open_writer (H := NoS3) sample_store "out/" BeforePublish SyncAll false sample_stores in
  match opened with
  | Ok w =>
      let '(r, w, s) := store_publish (H := NoS3) w s in
      r = Ok (mkStoreMetadata "out" 0 (Some 9)) ∧ validate_key "out/" false = Ok () ∧
      (store_head (H := NoS3) sample_store "out" s).1 = r ∧
      ∃ e, (store_head (H := NoS3) sample_store "out/" s).1 = Err e
  | Err _ => False
  end.
Proof. vm_compute. split_and!; try done. by eexists. Qed.
