(* ===== verification/S3.v ===== *)
(** * S3: the remote object store

    Models [s3.rs]: the configuration of the client, keys under a base prefix,
    the calls that run on the shared [tokio] runtime and may be cancelled while
    they run, their counters, and the multipart writer.  The [object_store]
    crate is an interface; its requests are [future]s, that complete or are
    dropped half-way.  The module ends with the instance of [Store.S3] that the
    front of the stores uses. *)
From S2P Require Import Prelude Errors Object ChunkReader Fs Local Store.

(** ** The [object_store] crate *)

Module object_store.
Inductive Error : Set :=
  | NotFound | AlreadyExists | Precondition | PermissionDenied | Unauthenticated
  | NotSupported | NotImplemented | InvalidPath | UnknownConfigurationKey
  | Unlisted (variant : nat).
End object_store.

(** [ObjectMeta]: the location as text, the time in nanoseconds. *)
Record ObjectMeta : Set := mkObjectMeta {
  location : string;
  meta_size : Z;
  last_modified : Z;
}.

(** A future over the network: what it is when it completes, and what it leaves
    when it is dropped before. *)
Record future (N A : Type) : Type := mkFuture {
  completed : N → result object_store.Error A * N;
  dropped : N → N;
}.
Arguments completed {N A} f n.
Arguments dropped {N A} f n.

(** What the code sets on [AmazonS3Builder], [RetryConfig], [ClientOptions]
    and [LimitStore]. *)
Record ClientSettings : Set := mkClientSettings {
  from_env : bool;
  credentials : option (string * string);
  token : option string;
  bucket_name : string;
  client_region : string;
  allow_http : bool;
  virtual_hosted_style_request : bool;
  client_max_retries : Z;
  retry_timeout_ms : Z;
  timeout_ms : Z;
  client_endpoint : option string;
  request_limit : Z;
}.

Class ObjectStore := {
  Net : Type;
  Path : Type;
  path_parse : string → option Path;
  path_text : Path → string;
  Client : Type;
  client_build : ClientSettings → option Client;
  head_request : Client → Path → future Net ObjectMeta;
  get_range_request : Client → Path → Z → Z → future Net bytes;
  list_request : Client → option Path → future Net (list ObjectMeta);
  delete_request : Client → Path → future Net ();
  MultipartUpload : Type;
  put_multipart : Client → Path → future Net MultipartUpload;
  WriteMultipart : Type;
  new_with_chunk_size : MultipartUpload → Z → WriteMultipart;
  wait_for_capacity : WriteMultipart → Z → future Net ();
  upload_write : bytes → WriteMultipart → Net → Net;
  upload_finish : WriteMultipart → future Net ();
  upload_abort : WriteMultipart → future Net ();
}.

(** ** Keys *)

Fixpoint trim_start (s : string) : string :=
  match s with
  | String c t => if Ascii.eqb c "/"%char then trim_start t else s
  | EmptyString => s
  end.

Fixpoint trim_end (s : string) : string :=
  match s with
  | EmptyString => s
  | String c t =>
      match trim_end t with
      | EmptyString => if Ascii.eqb c "/"%char then EmptyString else String c EmptyString
      | t => String c t
      end
  end.

(** [trim_matches('/')]. *)
Definition trim_slashes (s : string) : string := trim_end (trim_start s).

Definition join_key (base suffix : string) : string :=
  match trim_slashes base, trim_slashes suffix with
  | EmptyString, suffix => suffix
  | base, EmptyString => base
  | base, suffix => base +:+ "/" +:+ suffix
  end.

(** [str::strip_prefix]. *)
Fixpoint strip_text (prefix s : string) : option string :=
  match prefix, s with
  | EmptyString, s => Some s
  | String c prefix, String d s => if Ascii.eqb c d then strip_text prefix s else None
  | String _ _, EmptyString => None
  end.

(** Segments between slashes, none of them empty. *)
Definition segmented (s : string) : Prop := Forall (λ p, p ≠ ""%string) (split "/"%char s).

(** Its documented behaviour, in terms of the visible objects by the text of
    their paths, and of the bytes given to an upload all of whose parts were
    accepted so far ([uploading]).  Any request may fail; one that changes the
    objects may have done so although it failed or was dropped. *)
Class ObjectStoreLaws `(ObjectStore) := {
  objects : Net → gmap string bytes;
  uploading : Net → WriteMultipart → option bytes;
  destination_of : WriteMultipart → string;
  path_text_parse p : path_parse (path_text p) = Some p;
  path_parse_text s p : path_parse s = Some p → trim_slashes s = s → path_text p = s;
  path_text_segments p : path_text p = ""%string ∨ segmented (path_text p);
  completed_head cl p n r n' : completed (head_request cl p) n = (r, n') →
    objects n' = objects n ∧
    ∀ m, r = Ok m → ∃ c, objects n !! path_text p = Some c ∧ location m = path_text p ∧ meta_size m = len c;
  dropped_head cl p n : objects (dropped (head_request cl p) n) = objects n;
  completed_get_range cl p a b n r n' : completed (get_range_request cl p a b) n = (r, n') →
    objects n' = objects n ∧
    ∀ data, r = Ok data → ∃ c, objects n !! path_text p = Some c ∧ data = take_bytes (b - a) (skip_bytes a c);
  (** Prefixes are whole segments. *)
  completed_list cl p n r n' : completed (list_request cl p) n = (r, n') →
    objects n' = objects n ∧
    ∀ ms, r = Ok ms → NoDup (map location ms) ∧
      (∀ m, m ∈ ms → ∃ q c, location m = path_text q ∧ objects n !! location m = Some c ∧ meta_size m = len c) ∧
      ∀ t, t ∈ map location ms ↔ is_Some (objects n !! t) ∧
        match p with Some p => ∃ rest, t = path_text p +:+ "/" +:+ rest | None => True end;
  completed_delete cl p n r n' : completed (delete_request cl p) n = (r, n') →
    objects n' = delete (path_text p) (objects n) ∨ objects n' = objects n ∧ ∃ e, r = Err e;
  completed_put cl p n r n' : completed (put_multipart cl p) n = (r, n') →
    objects n' = objects n ∧
    ∀ up k, r = Ok up → 0 < k → destination_of (new_with_chunk_size up k) = path_text p ∧
      uploading n' (new_with_chunk_size up k) = Some [];
  dropped_put cl p n : objects (dropped (put_multipart cl p) n) = objects n;
  upload_write_spec data u n : objects (upload_write data u n) = objects n ∧
    ∀ c, uploading n u = Some c → uploading (upload_write data u n) u = Some (c ++ data);
  completed_wait u k n r n' : completed (wait_for_capacity u k) n = (r, n') →
    objects n' = objects n ∧ (r = Ok () → uploading n' u = uploading n u);
  dropped_wait u k n : objects (dropped (wait_for_capacity u k) n) = objects n;
  completed_finish u n r n' : completed (upload_finish u) n = (r, n') →
    (objects n' = objects n ∧ ∃ e, r = Err e) ∨
    ∃ c, objects n' = <[destination_of u := c]> (objects n) ∧ ∀ d, uploading n u = Some d → c = d;
  dropped_finish u n :
    objects (dropped (upload_finish u) n) = objects n ∨
    ∃ c, objects (dropped (upload_finish u) n) = <[destination_of u := c]> (objects n) ∧
      ∀ d, uploading n u = Some d → c = d;
  completed_abort u n r n' : completed (upload_abort u) n = (r, n') → objects n' = objects n;
}.

(** ** Data *)

Record S3Config : Set := mkS3Config {
  bucket : string;
  config_key : string;
  endpoint : option string;
  region : string;
  path_style : bool;
  tls : bool;
  request_timeout_ms : Z;
  max_retries : Z;
  credential_provider : atom;
  access_key_id : option string;
  secret_access_key : option string;
  session_token : option string;
  max_request_concurrency : Z;
  multipart_part_size : Z;
  max_in_flight_parts : Z;
}.

Definition with_key (c : S3Config) (key : string) : S3Config :=
  mkS3Config (bucket c) key (endpoint c) (region c) (path_style c) (tls c) (request_timeout_ms c)
    (max_retries c) (credential_provider c) (access_key_id c) (secret_access_key c) (session_token c)
    (max_request_concurrency c) (multipart_part_size c) (max_in_flight_parts c).

Definition remote_metadata (m : ObjectMeta) : RemoteMetadata :=
  mkRemoteMetadata (location m) (meta_size m) (i64_try_from (last_modified m) ≫= u64_try_from).

Definition remote_error (operation : Operation) (error : object_store.Error) : NativeFailure :=
  let '(category, message, retryable) :=
    match error with
    | object_store.NotFound => (NotFound, "S3 object not found", false)
    | object_store.AlreadyExists | object_store.Precondition =>
        (Conflict, "S3 destination already exists", false)
    | object_store.PermissionDenied | object_store.Unauthenticated =>
        (PermissionDenied, "S3 object access was denied", false)
    | object_store.NotSupported | object_store.NotImplemented =>
        (Unsupported, "S3 operation is unsupported", false)
    | object_store.InvalidPath | object_store.UnknownConfigurationKey =>
        (InvalidArgument, "S3 request is invalid", false)
    | object_store.Unlisted _ => (NativeFailureCategory, "S3 operation failed after bounded retries", true)
    end%string in
  {| Errors.category := category; Errors.operation := operation; Errors.message := message;
     Errors.retryable := retryable |}.

Section s3.
Context `{ObjectStore}.

Record RemoteStore : Type := mkRemoteStore {
  store_client : Client;
  store_config : S3Config;
}.

Record RemoteObject : Type := mkRemoteObject {
  object_client : Client;
  object_path : Path;
  object_config : S3Config;
}.

(** [multipart_cancellation] is the value of the flag of the shared token. *)
Record RemoteMultipartWriter : Type := mkRemoteMultipartWriter {
  multipart_client : Client;
  multipart_destination : Path;
  multipart_upload : option WriteMultipart;
  multipart_cancellation : bool;
  in_flight_parts : Z;
  multipart_active : bool;
  bytes_written : Z;
}.

(** The network, the runtime and the counters of the module.  [interrupts] are
    the calls to come in which the token is cancelled by somebody else before
    the request completes; [runtime_builds] is what building the runtime
    gives. *)
Record RemoteState : Type := mkRemoteState {
  net : Net;
  interrupts : list bool;
  runtime_builds : bool;
  runtime_cell : option bool;
  active_requests : Z;
  peak_requests : Z;
  active_multipart : Z;
  range_requests : Z;
  range_bytes_read : Z;
  clients_created : Z;
}.

Definition set_net (s : RemoteState) (n : Net) (later : list bool) : RemoteState :=
  mkRemoteState n later (runtime_builds s) (runtime_cell s) (active_requests s) (peak_requests s)
    (active_multipart s) (range_requests s) (range_bytes_read s) (clients_created s).
Definition set_runtime (s : RemoteState) (up : bool) : RemoteState :=
  mkRemoteState (net s) (interrupts s) (runtime_builds s) (Some up) (active_requests s) (peak_requests s)
    (active_multipart s) (range_requests s) (range_bytes_read s) (clients_created s).
Definition set_requests (s : RemoteState) (active peak : Z) : RemoteState :=
  mkRemoteState (net s) (interrupts s) (runtime_builds s) (runtime_cell s) active peak
    (active_multipart s) (range_requests s) (range_bytes_read s) (clients_created s).
Definition set_multipart (s : RemoteState) (n : Z) : RemoteState :=
  mkRemoteState (net s) (interrupts s) (runtime_builds s) (runtime_cell s) (active_requests s) (peak_requests s)
    (usize_wrap n) (range_requests s) (range_bytes_read s) (clients_created s).
Definition count_range (s : RemoteState) (n : Z) : RemoteState :=
  mkRemoteState (net s) (interrupts s) (runtime_builds s) (runtime_cell s) (active_requests s) (peak_requests s)
    (active_multipart s) (usize_wrap (range_requests s + 1)) (usize_wrap (range_bytes_read s + n))
    (clients_created s).
Definition count_client (s : RemoteState) : RemoteState :=
  mkRemoteState (net s) (interrupts s) (runtime_builds s) (runtime_cell s) (active_requests s) (peak_requests s)
    (active_multipart s) (range_requests s) (range_bytes_read s) (usize_wrap (clients_created s + 1)).

(** ** Calls *)

Definition networked (A : Type) : Type := RemoteState → result NativeFailure A * RemoteState.

#[export] Instance remote_ret : MRet networked := λ A a s, (Ok a, s).
#[export] Instance remote_bind : MBind networked := λ A B f m s,
  let '(r, s) := m s in
  match r with Ok a => f a s | Err e => (Err e, s) end.

Definition settled {A} (r : result NativeFailure A) : networked A := λ s, (r, s).

Definition counted {A} (a : A) (count : RemoteState → RemoteState) : networked A := λ s, (Ok a, count s).

(** [runtime]: built once, its result kept. *)
Definition runtime : networked () := λ s,
  let up := default (runtime_builds s) (runtime_cell s) in
  (if up then Ok () else Err (NativeFailure_expected S3Head "S3 runtime is unavailable"), set_runtime s up).

(** [tokio::select!] between a request and the cancellation of a token: [None]
    when the token won, which is cancelled then.  A token that only the caller
    holds ([None]) cannot win. *)
Definition select {A} (work : future Net A) (token : option bool) (s : RemoteState) :
    option (result object_store.Error A) * option bool * RemoteState :=
  let complete later := let '(r, n) := completed work (net s) in (Some r, token, set_net s n later) in
  match token, interrupts s with
  | None, later => complete later
  | Some _, true :: later => (None, Some true, set_net s (dropped work (net s)) later)
  | Some _, later => complete (tail later)
  end.

Definition remote_call {A} (operation : Operation) (work : future Net A) (token : option bool) (s : RemoteState) :
    result NativeFailure A * option bool * RemoteState :=
  let '(up, s) := runtime s in
  match up with
  | Err e => (Err e, token, s)
  | Ok _ =>
      let active := usize_wrap (active_requests s + 1) in
      let s := set_requests s active (Z.max (peak_requests s) active) in
      let '(r, token, s) := select work token s in
      let s := set_requests s (usize_wrap (active_requests s - 1)) (peak_requests s) in
      (match r with
       | Some r => map_err (remote_error operation) r
       | None => Err (NativeFailure_cancelled operation)
       end, token, s)
  end.

(** The operations on objects make a token of their own, so that its flag is
    constant while they run. *)
Definition call {A} (operation : Operation) (work : future Net A) : networked A := λ s,
  let '(r, _, s) := remote_call operation work None s in (r, s).

(** ** [RemoteStore] and [RemoteObject] *)

Definition build_store (config : S3Config) : networked Client :=
  builder ← settled (
    if bool_decide (credential_provider config = "standard"%string) then Ok (true, None, None)
    else if bool_decide (credential_provider config = "explicit"%string) then
      access_key ← ok_or (access_key_id config)
        (NativeFailure_invalid StoreOpen "explicit S3 credentials are incomplete");
      secret_key ← ok_or (secret_access_key config)
        (NativeFailure_invalid StoreOpen "explicit S3 credentials are incomplete");
      Ok (false, Some (access_key, secret_key), session_token config)
    else Err (NativeFailure_invalid S3Head "S3 credential provider is invalid"));
  let '(env, keys, session) := builder in
  client ← settled (ok_or
    (client_build (mkClientSettings env keys session (bucket config) (region config) (negb (tls config))
       (negb (path_style config)) (max_retries config) (request_timeout_ms config) (request_timeout_ms config)
       (endpoint config) (max_request_concurrency config)))
    (NativeFailure_invalid S3Head "S3 client configuration is invalid"));
  counted client count_client.

Definition RemoteStore_new (config : S3Config) : networked RemoteStore :=
  client ← build_store config; mret (mkRemoteStore client config).

Definition remote_object (store : RemoteStore) (key : string) : result NativeFailure RemoteObject :=
  let combined := join_key (config_key (store_config store)) key in
  path ← ok_or (path_parse combined) (NativeFailure_invalid StoreOpen "object key is invalid");
  Ok (mkRemoteObject (store_client store) path (with_key (store_config store) combined)).

Definition base_prefix (store : RemoteStore) : string := config_key (store_config store).

Definition remote_buffer_limit (store : RemoteStore) : Z :=
  usize_saturating_mul (usize_saturating_add (max_in_flight_parts (store_config store)) 1)
    (multipart_part_size (store_config store)).

Definition remote_head (o : RemoteObject) (cancelled : bool) (operation : Operation) : networked RemoteMetadata :=
  _ ← settled (check cancelled operation);
  metadata ← call operation (head_request (object_client o) (object_path o));
  _ ← settled (check cancelled operation);
  mret (remote_metadata metadata).

Definition remote_read_range (o : RemoteObject) (offset length : Z) (cancelled : bool) (operation : Operation) :
    networked bytes :=
  _ ← settled (check cancelled operation);
  stop ← settled (ok_or (u64_checked_add offset length) (NativeFailure_invalid operation "S3 range overflow"));
  if length =? 0 then mret []
  else
    data ← call operation (get_range_request (object_client o) (object_path o) offset stop);
    _ ← settled (check cancelled operation);
    counted data (λ s, count_range s (len data)).

(** [entries.sort_by(|left, right| left.key.cmp(&right.key))]. *)
Definition sort_by_key : list RemoteMetadata → list RemoteMetadata :=
  merge_sort (λ a b, String.leb (remote_key a) (remote_key b)).

Definition object_list (o : RemoteObject) (explicit_prefix : string) (cancelled : bool) :
    networked (list RemoteMetadata) :=
  _ ← settled (check cancelled S3List);
  let combined := join_key (config_key (object_config o)) explicit_prefix in
  prefix ← settled (
    if bool_decide (combined = ""%string) then Ok None
    else path ← ok_or (path_parse combined) (NativeFailure_invalid S3List "S3 list prefix is invalid");
         Ok (Some path));
  entries ← call S3List (list_request (object_client o) prefix);
  _ ← settled (check cancelled S3List);
  mret (sort_by_key (map remote_metadata entries)).

(** The key below the base prefix, if there is one. *)
Definition relative_key (base : string) (entry : RemoteMetadata) : RemoteMetadata :=
  if bool_decide (base = ""%string) then entry
  else
    mkRemoteMetadata (default (remote_key entry) (strip_text (base +:+ "/") (remote_key entry)))
      (remote_size entry) (remote_modified_unix_ns entry).

Definition remote_list (store : RemoteStore) (prefix : string) (cancelled : bool) : networked (list RemoteMetadata) :=
  object ← settled (remote_object store "");
  entries ← object_list object prefix cancelled;
  mret (map (relative_key (trim_slashes (base_prefix store))) entries).

Definition remote_delete (o : RemoteObject) (cancelled : bool) : networked () :=
  _ ← settled (check cancelled S3Delete);
  _ ← call S3Delete (delete_request (object_client o) (object_path o));
  settled (check cancelled S3Delete).

(** ** [RemoteMultipartWriter] *)

Definition set_upload (w : RemoteMultipartWriter) (u : option WriteMultipart) : RemoteMultipartWriter :=
  mkRemoteMultipartWriter (multipart_client w) (multipart_destination w) u (multipart_cancellation w)
    (in_flight_parts w) (multipart_active w) (bytes_written w).
Definition set_token (w : RemoteMultipartWriter) (flag : bool) : RemoteMultipartWriter :=
  mkRemoteMultipartWriter (multipart_client w) (multipart_destination w) (multipart_upload w) flag
    (in_flight_parts w) (multipart_active w) (bytes_written w).
Definition set_active (w : RemoteMultipartWriter) (active : bool) : RemoteMultipartWriter :=
  mkRemoteMultipartWriter (multipart_client w) (multipart_destination w) (multipart_upload w)
    (multipart_cancellation w) (in_flight_parts w) active (bytes_written w).
Definition add_written (w : RemoteMultipartWriter) (n : Z) : RemoteMultipartWriter :=
  mkRemoteMultipartWriter (multipart_client w) (multipart_destination w) (multipart_upload w)
    (multipart_cancellation w) (in_flight_parts w) (multipart_active w) (usize_wrap (bytes_written w + n)).

Definition remote_cancel (w : RemoteMultipartWriter) : RemoteMultipartWriter := set_token w true.

Definition remote_open_multipart (o : RemoteObject) (cancelled : bool) : networked RemoteMultipartWriter := λ s,
  let '(r, _, s) := remote_call S3WriterOpen (put_multipart (object_client o) (object_path o)) (Some cancelled) s in
  match r with
  | Err e => (Err e, s)
  | Ok upload =>
      (Ok (mkRemoteMultipartWriter (object_client o) (object_path o)
             (Some (new_with_chunk_size upload (multipart_part_size (object_config o)))) cancelled
             (max_in_flight_parts (object_config o)) true 0),
       set_multipart s (active_multipart s + 1))
  end.

Definition finish_active (w : RemoteMultipartWriter) (s : RemoteState) : RemoteMultipartWriter * RemoteState :=
  if multipart_active w then (set_active w false, set_multipart s (active_multipart s - 1)) else (w, s).

(** A call that races with the writer's token. *)
Definition writer_call {A} (operation : Operation) (work : future Net A) (w : RemoteMultipartWriter)
    (s : RemoteState) : result NativeFailure A * RemoteMultipartWriter * RemoteState :=
  let '(r, token, s) := remote_call operation work (Some (multipart_cancellation w)) s in
  (r, set_token w (default false token), s).

Definition remote_publish (w : RemoteMultipartWriter) (s : RemoteState) :
    result NativeFailure RemoteMetadata * RemoteMultipartWriter * RemoteState :=
  match check (multipart_cancellation w) S3WriterPublish with
  | Err e => (Err e, w, s)
  | Ok _ =>
      match multipart_upload w with
      | None => (Err (NativeFailure_cancelled S3WriterPublish), w, s)
      | Some upload =>
          let '(finished, w, s) := writer_call S3WriterPublish (upload_finish upload) (set_upload w None) s in
          let '(w, s) := finish_active w s in
          match finished with
          | Err e => (Err e, w, s)
          | Ok _ =>
              let '(metadata, w, s) :=
                writer_call S3WriterPublish (head_request (multipart_client w) (multipart_destination w)) w s in
              (metadata ← metadata; Ok (remote_metadata metadata), w, s)
          end
      end
  end.

Definition remote_abort (w : RemoteMultipartWriter) (s : RemoteState) :
    result NativeFailure bool * RemoteMultipartWriter * RemoteState :=
  if negb (multipart_active w) then (Ok false, w, s)
  else
    let w := set_token w true in
    let '(aborted, s) :=
      match multipart_upload w with
      | Some upload => call S3WriterAbort (upload_abort upload) s
      | None => (Ok (), s)
      end in
    let '(w, s) := finish_active (set_upload w None) s in
    (_ ← aborted; Ok true, w, s).

(** [Write]. *)
Definition write_cancelled : IoError := IoOther "S3 multipart write was cancelled".

Definition remote_write (data : bytes) (w : RemoteMultipartWriter) (s : RemoteState) :
    result IoError Z * RemoteMultipartWriter * RemoteState :=
  match check (multipart_cancellation w) S3WriterWrite with
  | Err _ => (Err write_cancelled, w, s)
  | Ok _ =>
      match multipart_upload w with
      | None => (Err (IoOther "S3 multipart writer is closed"), w, s)
      | Some upload =>
          let '(up, s) := runtime s in
          match up with
          | Err _ => (Err (IoOther "S3 runtime is unavailable"), w, s)
          | Ok _ =>
              let '(r, token, s) :=
                select (wait_for_capacity upload (in_flight_parts w)) (Some (multipart_cancellation w)) s in
              let w := set_token w (default false token) in
              match r with
              | None => (Err write_cancelled, w, s)
              | Some (Err _) => (Err (IoOther "S3 multipart capacity failed"), w, s)
              | Some (Ok _) =>
                  (Ok (len data), add_written w (len data),
                   set_net s (upload_write data upload (net s)) (interrupts s))
              end
          end
      end
  end.

Definition remote_flush (w : RemoteMultipartWriter) (s : RemoteState) :
    result IoError () * RemoteMultipartWriter * RemoteState :=
  (map_err (λ _, write_cancelled) (check (multipart_cancellation w) S3WriterWrite), w, s).

(** [Drop]. *)
Definition remote_drop (w : RemoteMultipartWriter) (s : RemoteState) : RemoteState :=
  if multipart_active w then (remote_abort w s).2 else s.

Definition s3_snapshot (s : RemoteState) : Z * Z * Z * Z * Z * Z :=
  (active_requests s, peak_requests s, active_multipart s, range_requests s, range_bytes_read s, clients_created s).

(** ** The S3 backend of the front *)

#[export] Instance ObjectStoreS3 : S3 := {|
  Store.RemoteStore := RemoteStore;
  Store.RemoteObject := RemoteObject;
  Store.RemoteMultipartWriter := RemoteMultipartWriter;
  Store.RemoteState := RemoteState;
  Store.remote_object := remote_object;
  Store.remote_multipart_buffer_limit_bytes := remote_buffer_limit;
  Store.remote_head := remote_head;
  Store.remote_read_range := remote_read_range;
  Store.remote_list := remote_list;
  Store.remote_delete := remote_delete;
  Store.remote_open_multipart := remote_open_multipart;
  Store.remote_write := remote_write;
  Store.remote_flush := remote_flush;
  Store.remote_publish := remote_publish;
  Store.remote_abort := remote_abort;
  Store.remote_token := multipart_cancellation;
  Store.remote_cancel := remote_cancel;
  Store.remote_drop := remote_drop;
  Store.remote_snapshot := s3_snapshot;
|}.

(** [StoreResource::open_s3]. *)
Definition open_s3 (config : S3Config) : front StoreResource :=
  store ← remotely (RemoteStore_new config : Store.RemoteState → _);
  StoreResource_new (S3Backend store).

End s3.
