(* ===== verification/S3Store.v ===== *)
(** * S3Store: what the S3 backend promises

    Over the documented behaviour of the [object_store] crate: ranges are the
    bytes of the object, a multipart writer makes its object visible at once
    and in full, listings are the objects below a prefix, and the counters of
    the module balance, whatever request fails or is cancelled half-way. *)
From S2P Require Import Prelude Errors Object ChunkReader Fs Local Store S3.

Section s3store.
Context `{ObjectStoreLaws}.

(** ** Calls *)

(** What every request leaves alone, and the range of the counter around it. *)
Definition tallies (s : RemoteState) : Z * Z * Z * Z * Z :=
  (active_requests s, active_multipart s, range_requests s, range_bytes_read s, clients_created s).

Definition in_usize (z : Z) : Prop := 0 ≤ z ≤ usize_max.

(** A request completed, was dropped for its token, or never ran. *)
Definition ran {A} (operation : Operation) (work : future Net A) (token : option bool) (n : Net)
    (r : result NativeFailure A) (token' : option bool) (n' : Net) : Prop :=
  (∃ e, r = Err e ∧ n' = n ∧ token' = token) ∨
  (∃ res, completed work n = (res, n') ∧ r = map_err (remote_error operation) res ∧ token' = token) ∨
  (is_Some token ∧ n' = dropped work n ∧ r = Err (NativeFailure_cancelled operation) ∧ token' = Some true).

Lemma usize_wrap_back z : in_usize z → usize_wrap (usize_wrap (z + 1) - 1) = z.
Proof. intros Hz. unfold in_usize in Hz. unfold usize_wrap. int_bounds. rewrite Zminus_mod_idemp_l, Z.add_simpl_r. apply Z.mod_small. lia. Qed.

Lemma select_ran {A} (work : future Net A) token s r token' s' :
  select work token s = (r, token', s') →
  tallies s' = tallies s ∧ runtime_cell s' = runtime_cell s ∧
  ((∃ res, completed work (net s) = (res, net s') ∧ r = Some res ∧ token' = token) ∨
   (is_Some token ∧ net s' = dropped work (net s) ∧ r = None ∧ token' = Some true)).
Proof.
  unfold select. destruct (completed work (net s)) as [res n] eqn:Hc.
  destruct token as [flag|]; [destruct (interrupts s) as [|[] later]|]; intros [= <- <- <-];
    (split; [done|split; [done|]]); simpl; first [by left; eexists | by right].
Qed.

Lemma remote_call_ran {A} operation (work : future Net A) token s r token' s' :
  in_usize (active_requests s) → remote_call operation work token s = (r, token', s') →
  tallies s' = tallies s ∧ ran operation work token (net s) r token' (net s').
Proof.
  intros Hact. unfold remote_call, runtime. destruct (default _ _).
  - destruct (select work token _) as [[r0 t0] s0] eqn:Hsel. intros [= <- <- <-].
    apply select_ran in Hsel as (Ht & _ & Hcase). unfold tallies in *. simpl in *.
    injection Ht as Ha Hm Hr Hb Hc. rewrite Ha, Hm, Hr, Hb, Hc, usize_wrap_back by done. split; [done|].
    destruct Hcase as [(res & Hres & -> & ->)|(Htok & Hn & -> & ->)].
    + right; left. by exists res.
    + by right; right.
  - intros [= <- <- <-]. split; [done|]. left. by eexists.
Qed.

Lemma call_ran {A} operation (work : future Net A) s r s' :
  in_usize (active_requests s) → call operation work s = (r, s') →
  tallies s' = tallies s ∧ ran operation work None (net s) r None (net s').
Proof.
  unfold call. intros Hact. destruct (remote_call _ _ _ _) as [[r0 t0] s0] eqn:Hc. intros [= <- <-].
  destruct (remote_call_ran _ _ _ _ _ _ _ Hact Hc) as [Ht Hran]. split; [done|].
  destruct Hran as [(e & -> & -> & ->)|[(res & Hres & -> & ->)|[[? [=]] _]]].
  - left. by eexists.
  - right; left. by exists res.
Qed.

Lemma remote_bind_inv {A B} (m : networked A) (f : A → networked B) s r s' :
  (m ≫= f) s = (r, s') →
  (∃ e, m s = (Err e, s') ∧ r = Err e) ∨ (∃ a s1, m s = (Ok a, s1) ∧ f a s1 = (r, s')).
Proof.
  unfold mbind, remote_bind. destruct (m s) as [[a|e] s1]; [by right; eauto|].
  intros [= <- <-]. left. by exists e.
Qed.

Lemma settled_inv {A} (r0 : result NativeFailure A) s r s' : settled r0 s = (r, s') → r = r0 ∧ s' = s.
Proof. by intros [= -> ->]. Qed.

(** ** Ranges *)

Definition requests_in_range (s : RemoteState) : Prop := in_usize (active_requests s).

Lemma remote_read_range_spec o offset length cancelled op s r s' :
  requests_in_range s → remote_read_range o offset length cancelled op s = (r, s') →
  0 ≤ offset → 0 ≤ length →
  objects (net s') = objects (net s) ∧ active_requests s' = active_requests s ∧
  ∀ data c, r = Ok data → objects (net s) !! path_text (object_path o) = Some c →
    data = take_bytes length (skip_bytes offset c).
Proof.
  intros Hreq Hr Ho Hl. unfold remote_read_range in Hr.
  apply remote_bind_inv in Hr as [(e & [_ ->]%settled_inv & ->)|([] & s1 & [_ ->]%settled_inv & Hr)]; [done|].
  apply remote_bind_inv in Hr as [(e & [_ ->]%settled_inv & ->)|(stop & s1 & [Hstop ->]%settled_inv & Hr)]; [done|].
  symmetry in Hstop. apply ok_or_Ok, try_from_Some in Hstop as [-> _].
  destruct (Z.eqb_spec length 0) as [->|Hne].
  { injection Hr as <- <-. split; [done|]. split; [done|]. by intros data c [= <-] _. }
  apply remote_bind_inv in Hr as [(e & Hc & ->)|(data & s1 & Hc & Hr)].
  - apply call_ran in Hc as [Ht Hran]; [|done]. injection Ht as Ha _ _ _ _. split; [|split; [done|]]; [|done].
    destruct Hran as [(? & _ & -> & _)|[(res & Hres & _)|[[? [=]] _]]]; [done|].
    by apply completed_get_range in Hres as [-> _].
  - apply call_ran in Hc as [Ht Hran]; [|done]. injection Ht as Ha _ _ _ _.
    destruct Hran as [(? & [=] & _)|[(res & Hres & Hok & _)|[[? [=]] _]]].
    apply completed_get_range in Hres as [Hobj Hdata]. destruct res as [d|]; [|done]. injection Hok as <-.
    apply remote_bind_inv in Hr as [(e & [_ ->]%settled_inv & ->)|([] & s2 & [_ ->]%settled_inv & Hr)]; [done|].
    injection Hr as <- <-. split; [done|]. split; [done|]. intros ? c [= <-] Hc.
    destruct (Hdata data eq_refl) as (c' & Hc' & ->). rewrite Hc in Hc'. injection Hc' as <-.
    f_equal. lia.
Qed.

Lemma remote_head_spec o cancelled op s r s' :
  requests_in_range s → remote_head o cancelled op s = (r, s') →
  objects (net s') = objects (net s) ∧ active_requests s' = active_requests s ∧
  ∀ md c, r = Ok md → objects (net s) !! path_text (object_path o) = Some c → remote_size md = len c.
Proof.
  intros Hreq Hr. unfold remote_head in Hr.
  apply remote_bind_inv in Hr as [(e & [_ ->]%settled_inv & ->)|([] & s1 & [_ ->]%settled_inv & Hr)]; [done|].
  apply remote_bind_inv in Hr as [(e & Hc & ->)|(m & s1 & Hc & Hr)];
    apply call_ran in Hc as [Ht Hran]; [|done| |done]; injection Ht as Ha _ _ _ _.
  - split; [|split; [done|]]; [|done].
    destruct Hran as [(? & _ & -> & _)|[(res & Hres & _)|[[? [=]] _]]]; [done|].
    by apply completed_head in Hres as [-> _].
  - destruct Hran as [(? & [=] & _)|[(res & Hres & Hok & _)|[[? [=]] _]]].
    apply completed_head in Hres as [Hobj Hdata]. destruct res as [d|]; [|done]. injection Hok as <-.
    apply remote_bind_inv in Hr as [(e & [_ ->]%settled_inv & ->)|([] & s2 & [_ ->]%settled_inv & Hr)]; [done|].
    injection Hr as <- <-. split; [done|]. split; [done|]. intros md c [= <-] Hc.
    destruct (Hdata m eq_refl) as (c' & Hc' & _ & Hsize). rewrite Hc in Hc'. by injection Hc' as <-.
Qed.

(** The state of the stores while nobody changes the objects. *)
Definition objects_stay (objs : gmap string bytes) (s : Stores) : Prop :=
  objects (net (remote s)) = objs ∧ requests_in_range (remote s).

(** ** Publication *)

(** A writer that uploads to its destination, the bytes it acknowledged known
    unless a write failed. *)
Record sending (u : WriteMultipart) (dest : string) (w : RemoteMultipartWriter) (s : RemoteState)
    (acc : option bytes) : Prop := {
  sending_upload : multipart_upload w = Some u;
  sending_active : multipart_active w = true;
  sending_destination : destination_of u = dest ∧ path_text (multipart_destination w) = dest;
  sending_bytes : ∀ c, acc = Some c → uploading (net s) u = Some c;
  sending_requests : requests_in_range s;
}.

(** What may happen between opening and publishing: the writer's own calls,
    the cancellation of its token, and anything on the network that leaves its
    upload alone. *)
Inductive multipart_step (u : WriteMultipart) :
    RemoteMultipartWriter * RemoteState * option bytes → RemoteMultipartWriter * RemoteState * option bytes → Prop :=
  | multipart_write w s acc data n w' s' : remote_write data w s = (Ok n, w', s') →
      multipart_step u (w, s, acc) (w', s', (λ c, c ++ data) <$> acc)
  | multipart_write_failed w s acc data e w' s' : remote_write data w s = (Err e, w', s') →
      multipart_step u (w, s, acc) (w', s', None)
  | multipart_flush w s acc r w' s' : remote_flush w s = (r, w', s') → multipart_step u (w, s, acc) (w', s', acc)
  | multipart_cancel w s acc : multipart_step u (w, s, acc) (remote_cancel w, s, acc)
  | multipart_other w s acc s' : uploading (net s') u = uploading (net s) u → requests_in_range s' →
      multipart_step u (w, s, acc) (w, s', acc).

Lemma remote_write_spec data w s r w' s' u dest acc :
  sending u dest w s acc → remote_write data w s = (r, w', s') →
  objects (net s') = objects (net s) ∧
  sending u dest w' s' (match r with Ok _ => (λ c, c ++ data) <$> acc | Err _ => None end) ∧
  (∀ n, r = Ok n → n = len data).
Proof.
  intros [Hu Hact Hd Hb Hreq]. unfold remote_write. rewrite Hu.
  assert (∀ w0 s0, multipart_upload w0 = Some u → multipart_active w0 = true →
    multipart_destination w0 = multipart_destination w → active_requests s0 = active_requests s →
    sending u dest w0 s0 None) as Hbroken.
  { intros w0 s0 H1 H2 H3 H4. constructor; try done; [by rewrite H3|]. unfold requests_in_range in *. by rewrite H4. }
  destruct (check _ _); [|intros [= <- <- <-]; split; [done|]; split; [by apply Hbroken|done]].
  unfold runtime. destruct (default _ _); [|intros [= <- <- <-]; split; [done|]; split; [by apply Hbroken|done]].
  destruct (select _ _ _) as [[r0 t] s0] eqn:Hsel. apply select_ran in Hsel as (Ht & _ & Hcase).
  injection Ht as Ha _ _ _ _. simpl in Ha, Hcase.
  destruct Hcase as [([[]|e] & Hres & -> & _)|(_ & Hn & -> & _)]; intros [= <- <- <-].
  - apply completed_wait in Hres as [Hobj Hup]. destruct (upload_write_spec data u (net s0)) as [Hobj' Hup'].
    split; [simpl; by rewrite Hobj', Hobj|]. split; [|by intros n [= <-]]. constructor; try done.
    + intros c Hc. destruct acc as [c0|]; [|done]. injection Hc as <-. simpl. apply Hup'. rewrite Hup by done. by apply Hb.
    + unfold requests_in_range. simpl. by rewrite Ha.
  - apply completed_wait in Hres as [Hobj _]. split; [done|]. split; [by apply Hbroken|done].
  - rewrite Hn. split; [apply dropped_wait|]. split; [by apply Hbroken|done].
Qed.

Lemma multipart_step_sending u dest x y :
  multipart_step u x y → sending u dest x.1.1 x.1.2 x.2 → sending u dest y.1.1 y.1.2 y.2.
Proof.
  intros Hstep Hx. destruct Hstep as [w s acc data n w' s' Hw|w s acc data e w' s' Hw|w s acc r w' s' Hf|w s acc|w s acc s' Hup Hreq];
    simpl in *.
  - by destruct (remote_write_spec _ _ _ _ _ _ _ _ _ Hx Hw) as (_ & ? & _).
  - by destruct (remote_write_spec _ _ _ _ _ _ _ _ _ Hx Hw) as (_ & ? & _).
  - by injection Hf as _ <- <-.
  - by destruct Hx.
  - destruct Hx as [H1 H2 H3 H4 _]. constructor; try done. intros c Hc. rewrite Hup. by apply H4.
Qed.

Lemma multipart_steps_sending u dest x y :
  rtc (multipart_step u) x y → sending u dest x.1.1 x.1.2 x.2 → sending u dest y.1.1 y.1.2 y.2.
Proof. induction 1 as [|x y z Hstep _ IH]; [done|]. intros Hx. by eapply IH, multipart_step_sending. Qed.

Lemma open_multipart_sending o cancelled s w s' :
  requests_in_range s → 0 < multipart_part_size (object_config o) →
  remote_open_multipart o cancelled s = (Ok w, s') →
  objects (net s') = objects (net s) ∧ ∃ u, sending u (path_text (object_path o)) w s' (Some []).
Proof.
  intros Hreq Hk. unfold remote_open_multipart. destruct (remote_call _ _ _ _) as [[r t] s1] eqn:Hc.
  apply remote_call_ran in Hc as [Ht Hran]; [|done]. injection Ht as Ha _ _ _ _.
  destruct r as [up|e]; [|done]. intros [= <- <-].
  destruct Hran as [(? & [=] & _)|[(res & Hres & Hok & _)|(_ & _ & [=] & _)]].
  destruct res as [up'|]; [|done]. injection Hok as <-.
  apply completed_put in Hres as [Hobj Hup]. destruct (Hup up _ eq_refl Hk) as [Hd Hu].
  split; [done|]. eexists. constructor; [done|done|done|by intros c [= <-]|].
  unfold requests_in_range. simpl. by rewrite Ha.
Qed.

Lemma writer_call_ran {A} operation (work : future Net A) w s r w' s' :
  requests_in_range s → writer_call operation work w s = (r, w', s') →
  active_requests s' = active_requests s ∧ (∃ flag, w' = set_token w flag) ∧
  ∃ t, ran operation work (Some (multipart_cancellation w)) (net s) r t (net s').
Proof.
  intros Hreq. unfold writer_call. destruct (remote_call _ _ _ _) as [[r0 t] s0] eqn:Hc. intros [= <- <- <-].
  apply remote_call_ran in Hc as [Ht Hran]; [|done]. injection Ht as Ha _ _ _ _. eauto.
Qed.

(** The objects after publishing, for a content that is known if no write
    failed. *)
Definition replaced (dest : string) (acc : option bytes) (before after : gmap string bytes) (c : bytes) : Prop :=
  after = <[dest := c]> before ∧ ∀ a, acc = Some a → c = a.

Lemma finish_active_fields w s w' s' : finish_active w s = (w', s') →
  multipart_upload w' = multipart_upload w ∧ multipart_destination w' = multipart_destination w ∧
  multipart_active w' = false ∧ net s' = net s ∧ active_requests s' = active_requests s ∧
  multipart_cancellation w' = multipart_cancellation w.
Proof. unfold finish_active. destruct (multipart_active w) eqn:Ha; intros [= <- <-]; by split_and!. Qed.

Lemma remote_publish_spec u dest w s acc r w' s' :
  sending u dest w s acc → remote_publish w s = (r, w', s') →
  match r with
  | Ok md => ∃ c, replaced dest acc (objects (net s)) (objects (net s')) c ∧
      remote_key md = dest ∧ remote_size md = len c
  | Err _ => objects (net s') = objects (net s) ∨
      ∃ c, replaced dest acc (objects (net s)) (objects (net s')) c
  end ∧
  (multipart_cancellation w = false → multipart_upload w' = None ∧ multipart_active w' = false).
Proof.
  intros [Hu Hact [Hd Hdest] Hb Hreq]. unfold remote_publish.
  destruct (multipart_cancellation w) eqn:Hcan; [intros [= <- <- <-]; split; [by left|done]|]. rewrite Hu.
  destruct (writer_call _ (upload_finish u) _ s) as [[fin w1] s1] eqn:Hfin.
  apply writer_call_ran in Hfin as (Ha1 & [f1 ->] & t1 & Hran); [|done].
  destruct (finish_active _ s1) as [w2 s2] eqn:Hfa.
  apply finish_active_fields in Hfa as (Hu2 & Hd2 & Hact2 & Hn2 & Ha2 & _). simpl in Hu2, Hd2.
  assert (∀ c, (∀ d, uploading (net s) u = Some d → c = d) → ∀ a, acc = Some a → c = a) as Hacc.
  { intros c Hc a ->. by apply Hc, Hb. }
  destruct fin as [[]|e].
  - destruct Hran as [(? & [=] & _)|[(res & Hres & Hok & _)|(_ & _ & [=] & _)]].
    destruct res as [[]|]; [|done]. apply completed_finish in Hres as [[_ [? [=]]]|(c & Hobj & Hc)].
    rewrite Hd in Hobj.
    destruct (writer_call _ _ w2 s2) as [[md w3] s3] eqn:Hhead.
    apply writer_call_ran in Hhead as (Ha3 & [f3 ->] & t3 & Hran); [|unfold requests_in_range in *; congruence].
    intros [= <- <- <-]. split; [|intros _; by rewrite <-Hu2, <-Hact2].
    assert (objects (net s3) = objects (net s2)) as Hobj3.
    { destruct Hran as [(? & _ & -> & _)|[(res & Hres & _)|(_ & -> & _)]]; [done| |apply dropped_head].
      by apply completed_head in Hres as [? _]. }
    assert (replaced dest acc (objects (net s)) (objects (net s3)) c) as Hrep.
    { split; [by rewrite Hobj3, Hn2|by apply Hacc]. }
    destruct md as [md|e]; cbn [mbind result_bind]; [|right; by exists c]. exists c. split; [done|].
    destruct Hran as [(? & [=] & _)|[(res2 & Hres2 & Hok2 & _)|(_ & _ & [=] & _)]].
    destruct res2 as [m|]; [|done]. injection Hok2 as <-.
    apply completed_head in Hres2 as [_ Hm]. destruct (Hm md eq_refl) as (c' & Hc' & Hloc & Hsize).
    rewrite Hd2, Hdest in Hc', Hloc. rewrite Hn2, Hobj, lookup_insert_eq in Hc'. injection Hc' as <-. done.
  - intros [= <- <- <-]. split; [|by intros _; rewrite Hu2]. rewrite Hn2.
    destruct Hran as [(? & _ & -> & _)|[(res & Hres & _)|(_ & -> & _)]]; [by left| |].
    + apply completed_finish in Hres as [[-> _]|(c & -> & Hc)]; [by left|right].
      exists c. rewrite Hd. split; [done|by apply Hacc].
    + destruct (dropped_finish u (net s)) as [->|(c & -> & Hc)]; [by left|right].
      exists c. rewrite Hd. split; [done|by apply Hacc].
Qed.

Lemma remote_abort_spec w s r w' s' :
  requests_in_range s → remote_abort w s = (r, w', s') →
  objects (net s') = objects (net s) ∧ multipart_active w' = false ∧
  active_requests s' = active_requests s ∧ (multipart_active w = true → multipart_upload w' = None).
Proof.
  intros Hreq. unfold remote_abort. destruct (multipart_active w) eqn:Hact; [|by intros [= <- <- <-]]. cbn [negb].
  destruct (match multipart_upload (set_token w true) with Some _ => _ | None => _ end) as [ab s1] eqn:Hab.
  assert (objects (net s1) = objects (net s) ∧ active_requests s1 = active_requests s) as [Hobj Ha].
  { simpl in Hab. destruct (multipart_upload w) as [u|]; [|by injection Hab as _ <-].
    apply call_ran in Hab as [Ht Hran]; [|done]. injection Ht as Ha _ _ _ _. split; [|done].
    destruct Hran as [(? & _ & -> & _)|[(res & Hres & _)|[[? [=]] _]]]; [done|]. by eapply completed_abort. }
  destruct (finish_active _ s1) as [w2 s2] eqn:Hfa.
  apply finish_active_fields in Hfa as (Hu2 & _ & Hact2 & Hn2 & Ha2 & _).
  intros [= <- <- <-]. rewrite Hn2, Ha2. by split_and!.
Qed.

End s3store.

(** ** Keys *)

Definition first_slash (s : string) : bool :=
  match s with String c _ => Ascii.eqb c "/"%char | EmptyString => false end.

Lemma first_slash_trim_start s : first_slash (trim_start s) = false.
Proof. induction s as [|c s IH]; [done|]. simpl. by destruct (Ascii.eqb c _) eqn:Hc. Qed.

Lemma trim_start_id s : first_slash s = false → trim_start s = s.
Proof. destruct s as [|c s]; [done|]. simpl. by intros ->. Qed.

Lemma trim_end_cons c s :
  trim_end (String c s) =
  match trim_end s with
  | EmptyString => if Ascii.eqb c "/"%char then EmptyString else String c EmptyString
  | t => String c t
  end.
Proof. done. Qed.

Lemma trim_end_spec s : ends_with_slash (trim_end s) = false ∧ (first_slash s = false → first_slash (trim_end s) = false).
Proof.
  induction s as [|c s [IH _]]; [done|]. rewrite trim_end_cons. destruct (trim_end s) as [|d t] eqn:Ht.
  - destruct (Ascii.eqb c _) eqn:Hc; [done|]. simpl. rewrite Hc. done.
  - split; [exact IH|done].
Qed.

Lemma trim_end_id s : ends_with_slash s = false → trim_end s = s.
Proof.
  induction s as [|c s IH]; [done|]. intros He. rewrite trim_end_cons. destruct s as [|d s].
  - simpl in *. by rewrite He.
  - rewrite IH by exact He. done.
Qed.

Lemma trim_slashes_ends s : first_slash (trim_slashes s) = false ∧ ends_with_slash (trim_slashes s) = false.
Proof.
  unfold trim_slashes. destruct (trim_end_spec (trim_start s)) as [He Hf].
  split; [apply Hf, first_slash_trim_start|done].
Qed.

Lemma trim_slashes_id s : first_slash s = false → ends_with_slash s = false → trim_slashes s = s.
Proof. intros Hf He. unfold trim_slashes. by rewrite trim_start_id, trim_end_id. Qed.

Lemma trim_slashes_idem s : trim_slashes (trim_slashes s) = trim_slashes s.
Proof. destruct (trim_slashes_ends s). by apply trim_slashes_id. Qed.

Lemma ends_with_slash_app a b : b ≠ ""%string → ends_with_slash (a +:+ b) = ends_with_slash b.
Proof.
  intros Hb. induction a as [|c a IH]; [done|]. rewrite append_cons, <-IH. simpl.
  destruct (a +:+ b) eqn:Hab; [|done]. destruct a; [by rewrite append_nil in Hab; subst|done].
Qed.

Lemma join_key_cases base suffix :
  join_key base suffix =
  if bool_decide (trim_slashes base = "")%string then trim_slashes suffix
  else if bool_decide (trim_slashes suffix = "")%string then trim_slashes base
  else trim_slashes base +:+ "/" +:+ trim_slashes suffix.
Proof. unfold join_key. by destruct (trim_slashes base), (trim_slashes suffix). Qed.

Lemma trim_join base suffix : trim_slashes (join_key base suffix) = join_key base suffix.
Proof.
  rewrite join_key_cases. repeat case_bool_decide; [apply trim_slashes_idem..|].
  destruct (trim_slashes_ends base) as [Hf _], (trim_slashes_ends suffix) as [_ He]. apply trim_slashes_id.
  - destruct (trim_slashes base); [done|exact Hf].
  - rewrite ends_with_slash_app by done. change ("/" +:+ trim_slashes suffix) with (String "/" (trim_slashes suffix)).
    simpl. destruct (trim_slashes suffix); [done|exact He].
Qed.

Lemma join_key_nil base : join_key base "" = trim_slashes base.
Proof. rewrite join_key_cases. case_bool_decide as Hb; [by rewrite Hb|done]. Qed.

Lemma join_key_join base suffix : join_key (join_key base "") suffix = join_key base suffix.
Proof. rewrite join_key_nil, !join_key_cases, trim_slashes_idem. done. Qed.

Lemma segmented_cat a b : segmented (a +:+ "/" +:+ b) ↔ segmented a ∧ segmented b.
Proof.
  unfold segmented. change ("/" +:+ b) with (String "/" b). by rewrite split_cat, Forall_app.
Qed.

Lemma segmented_nil : ¬ segmented "".
Proof. unfold segmented. inversion 1 as [|? ? Hne]. by apply Hne. Qed.

Lemma segmented_trim t : segmented t → trim_slashes t = t ∧ t ≠ ""%string.
Proof.
  intros Ht. split.
  - apply trim_slashes_id.
    + destruct t as [|c t]; [done|]. simpl. destruct (Ascii.eqb_spec c "/"%char) as [->|]; [|done].
      change (String "/" t) with (""%string +:+ "/" +:+ t) in Ht. apply segmented_cat in Ht as [Ht _].
      by apply segmented_nil in Ht.
    + destruct (ends_with_slash t) eqn:He; [|done]. apply ends_with_slash_cut in He as [a ->].
      change (a +:+ "/") with (a +:+ "/" +:+ "") in Ht. apply segmented_cat in Ht as [_ Ht].
      by apply segmented_nil in Ht.
  - intros ->. by apply segmented_nil.
Qed.

Lemma strip_text_app a b : strip_text a (a +:+ b) = Some b.
Proof. induction a as [|c a IH]; [done|]. rewrite append_cons. simpl. by rewrite Ascii.eqb_refl. Qed.

Lemma leb_common a b c : String.leb (a +:+ b) (a +:+ c) = String.leb b c.
Proof.
  unfold String.leb. induction a as [|x a IH]; [done|]. rewrite !append_cons. simpl.
  rewrite ascii_compare_N, N.compare_refl. exact IH.
Qed.

(** ** Listings *)

(** The texts below a prefix, by whole segments. *)
Definition below (prefix t : string) : Prop := prefix = ""%string ∨ ∃ rest, t = prefix +:+ "/" +:+ rest.

Section listing.
Context `{ObjectStoreLaws}.

(** A call completed, or never ran. *)
Lemma call_cases {A} operation (work : future Net A) s r s' :
  requests_in_range s → call operation work s = (r, s') →
  active_requests s' = active_requests s ∧
  ((∃ e, r = Err e ∧ net s' = net s) ∨
   ∃ res, completed work (net s) = (res, net s') ∧ r = map_err (remote_error operation) res).
Proof.
  intros Hreq Hc. apply call_ran in Hc as [Ht Hran]; [|done]. injection Ht as Ha _ _ _ _. split; [done|].
  destruct Hran as [(e & -> & -> & _)|[(res & Hres & -> & _)|[[? [=]] _]]]; [left|right]; by eexists.
Qed.

Lemma object_list_spec o prefix s r s' :
  requests_in_range s → object_list o prefix false s = (r, s') →
  let combined := join_key (config_key (object_config o)) prefix in
  objects (net s') = objects (net s) ∧ active_requests s' = active_requests s ∧
  ∀ entries, r = Ok entries → ∃ ms, entries = sort_by_key (map remote_metadata ms) ∧ NoDup (map location ms) ∧
    (∀ m, m ∈ ms → ∃ q c, location m = path_text q ∧ objects (net s) !! location m = Some c ∧ meta_size m = len c) ∧
    ∀ t, t ∈ map location ms ↔ is_Some (objects (net s) !! t) ∧ below combined t.
Proof.
  intros Hreq Hr combined. unfold object_list in Hr.
  apply remote_bind_inv in Hr as [(e & [_ ->]%settled_inv & ->)|([] & s1 & [_ ->]%settled_inv & Hr)]; [done|].
  fold combined in Hr.
  apply remote_bind_inv in Hr as [(e & [_ ->]%settled_inv & ->)|(p & s1 & [Hp ->]%settled_inv & Hr)]; [done|].
  apply remote_bind_inv in Hr as [(e & Hc & ->)|(ms & s1 & Hc & Hr)].
  - apply call_cases in Hc as [Ha [(? & _ & ->)|(res & Hres & _)]]; [done| |done].
    apply completed_list in Hres as [-> _]. done.
  - apply call_cases in Hc as [Ha [(? & [=] & _)|(res & Hres & Hok)]]; [|done].
    destruct res as [ms'|]; [|done]. injection Hok as <-. apply completed_list in Hres as [Hobj Hms].
    apply remote_bind_inv in Hr as [(e & [[=] _]%settled_inv & _)|([] & s2 & [_ ->]%settled_inv & Hr)].
    injection Hr as <- <-. split; [done|]. split; [done|]. intros entries [= <-].
    destruct (Hms ms eq_refl) as (Hnd & Hin & Hall). exists ms. split_and!; try done.
    intros t. rewrite (Hall t). apply and_iff_compat_l. unfold below. case_bool_decide as Hempty.
    + symmetry in Hp. injection Hp as <-. split; [by left|done].
    + symmetry in Hp. apply bind_Ok in Hp as (q & Hq%ok_or_Ok & [= <-]).
      rewrite (path_parse_text combined q Hq) by apply trim_join. split; [by right|by intros [|]].
Qed.

Lemma below_join base prefix t : trim_slashes base ≠ ""%string → below (join_key base prefix) t →
  ∃ x, t = trim_slashes base +:+ "/" +:+ x.
Proof.
  intros Hb. rewrite join_key_cases, bool_decide_eq_false_2 by done. case_bool_decide.
  - intros [?|[rest ->]]; [done|by exists rest].
  - intros [Hnil|[rest ->]]; [by destruct (trim_slashes base)|].
    exists (trim_slashes prefix +:+ "/" +:+ rest). by rewrite !append_assoc.
Qed.

(** One listed object: its key below the base, and back. *)
Lemma relative_key_back base prefix m q :
  location m = path_text q → below (join_key base prefix) (location m) →
  let k := remote_key (relative_key (trim_slashes base) (remote_metadata m)) in
  join_key base k = location m ∧
  (trim_slashes base = ""%string ∧ k = location m ∨
   trim_slashes base ≠ ""%string ∧ location m = (trim_slashes base +:+ "/") +:+ k).
Proof.
  intros Hq Hbelow. unfold relative_key. rewrite join_key_cases. case_bool_decide as Hb; simpl.
  - split; [|by left]. rewrite Hq. destruct (path_text_segments q) as [->|Hs]; [done|]. by apply segmented_trim in Hs as [-> _].
  - destruct (below_join base prefix _ Hb Hbelow) as [x Hx]. rewrite Hx, <-append_assoc, strip_text_app. simpl.
    destruct (path_text_segments q) as [Hnil|Hs].
    + rewrite <-Hq, Hx in Hnil. by destruct (trim_slashes base) eqn:?.
    + rewrite <-Hq, Hx in Hs. apply segmented_cat in Hs as [_ Hs]. apply segmented_trim in Hs as [-> Hne].
      rewrite bool_decide_eq_false_2 by done. split; [by rewrite append_assoc|by right].
Qed.

Lemma sort_by_key_sorted es :
  StronglySorted (λ a b, String.leb (remote_key a) (remote_key b)) (sort_by_key es).
Proof.
  apply StronglySorted_merge_sort.
  - intros a b c. apply string_leb_trans.
  - intros a b. apply string_leb_total.
Qed.

Lemma StronglySorted_map {A B} (R : A → A → Prop) (R' : B → B → Prop) (f : A → B) l :
  (∀ a b, a ∈ l → b ∈ l → R a b → R' (f a) (f b)) → StronglySorted R l → StronglySorted R' (map f l).
Proof.
  intros Hf. induction 1 as [|a l Hl IH Ha]; constructor.
  - apply IH. intros x y Hx Hy. apply Hf; by constructor.
  - apply Forall_map. rewrite Forall_forall in *. intros b Hb. apply Hf; [constructor|by constructor|by apply Ha].
Qed.

(** The listed entries, object by object. *)
Definition lists (base combined : string) (objs : gmap string bytes) (entries : list RemoteMetadata) : Prop :=
  StronglySorted (λ a b, String.leb (remote_key a) (remote_key b)) entries ∧
  NoDup (map remote_key entries) ∧
  (∀ e, e ∈ entries → ∃ q c, path_text q = join_key base (remote_key e) ∧
    objs !! path_text q = Some c ∧ remote_size e = len c) ∧
  ∀ t, t ∈ map (λ e, join_key base (remote_key e)) entries ↔ is_Some (objs !! t) ∧ below combined t.

Lemma relative_lists base prefix objs ms :
  NoDup (map location ms) →
  (∀ m, m ∈ ms → ∃ q c, location m = path_text q ∧ objs !! location m = Some c ∧ meta_size m = len c) →
  (∀ t, t ∈ map location ms ↔ is_Some (objs !! t) ∧ below (join_key base prefix) t) →
  lists base (join_key base prefix) objs
    (map (relative_key (trim_slashes base)) (sort_by_key (map remote_metadata ms))).
Proof.
  intros Hnd Hin Hall. set (f := relative_key (trim_slashes base)).
  assert (sort_by_key (map remote_metadata ms) ≡ₚ map remote_metadata ms) as Hperm by apply merge_sort_Permutation.
  assert (∀ m, m ∈ ms → below (join_key base prefix) (location m)) as Hbelow.
  { intros m Hm. apply (Hall (location m)). apply list_elem_of_fmap. by exists m. }
  assert (∀ e, e ∈ sort_by_key (map remote_metadata ms) → ∃ m, m ∈ ms ∧ e = remote_metadata m) as Hof.
  { intros e He. rewrite Hperm in He. by apply list_elem_of_fmap in He as (m & -> & Hm); exists m. }
  assert (map (λ e, join_key base (remote_key e)) (map f (sort_by_key (map remote_metadata ms))) ≡ₚ map location ms)
    as Hnames.
  { rewrite Hperm.
    enough (map (λ e, join_key base (remote_key e)) (map f (map remote_metadata ms)) = map location ms) as -> by done.
    clear Hperm Hof Hnd Hall. induction ms as [|m ms IH]; [done|]. simpl. f_equal.
    - destruct (Hin m) as (q & c & Hq & _); [constructor|]. eapply relative_key_back; [exact Hq|]. apply Hbelow. constructor.
    - apply IH; intros ? ?; [apply Hin|apply Hbelow]; by constructor. }
  split; [|split; [|split]].
  - eapply StronglySorted_map; [|apply sort_by_key_sorted]. intros a b Ha Hb Hab.
    destruct (Hof a Ha) as (ma & Hma & ->), (Hof b Hb) as (mb & Hmb & ->).
    destruct (Hin ma Hma) as (qa & _ & Hqa & _), (Hin mb Hmb) as (qb & _ & Hqb & _).
    destruct (relative_key_back base prefix ma qa Hqa (Hbelow ma Hma)) as [_ Ka].
    destruct (relative_key_back base prefix mb qb Hqb (Hbelow mb Hmb)) as [_ Kb].
    fold f in Ka, Kb. destruct Ka as [[E Ka]|[E Ka]], Kb as [[E' Kb]|[E' Kb]]; try done.
    + by rewrite Ka, Kb.
    + simpl in Hab. rewrite Ka, Kb, leb_common in Hab. done.
  - eapply (NoDup_fmap_1 (join_key base)). rewrite <-list_fmap_compose. rewrite <-Hnames in Hnd. exact Hnd.
  - intros e He. apply list_elem_of_fmap in He as (e0 & -> & He). destruct (Hof e0 He) as (m & Hm & ->).
    destruct (Hin m Hm) as (q & c & Hq & Hc & Hs). exists q, c.
    destruct (relative_key_back base prefix m q Hq (Hbelow m Hm)) as [Hk _]. fold f in Hk. rewrite Hk. split; [done|]. split; [by rewrite <-Hq|].
    unfold f, relative_key. by case_bool_decide.
  - intros t. rewrite Hnames. apply Hall.
Qed.

End listing.

(** ** Counters *)

Section counters.
Context `{ObjectStore}.

Definition balance (s : RemoteState) : Z * Z := (active_requests s, active_multipart s).

(** An operation that leaves the balance alone. *)
Definition keeps {A} (m : networked A) : Prop := ∀ s, in_usize (active_requests s) → balance (m s).2 = balance s.

Lemma keeps_ret {A} (a : A) : keeps (mret a).
Proof. done. Qed.

Lemma keeps_settled {A} (r : result NativeFailure A) : keeps (settled r).
Proof. done. Qed.

Lemma keeps_bind {A B} (m : networked A) (f : A → networked B) : keeps m → (∀ a, keeps (f a)) → keeps (m ≫= f).
Proof.
  intros Hm Hf s Hs. unfold mbind, remote_bind. specialize (Hm s Hs). destruct (m s) as [[a|e] s1]; [|done].
  simpl in Hm. rewrite <-Hm. apply Hf. unfold balance in Hm. injection Hm as -> _. done.
Qed.

Lemma keeps_call {A} op (work : future Net A) : keeps (call op work).
Proof.
  intros s Hs. destruct (call op work s) as [r s'] eqn:Hc. unfold call in Hc.
  destruct (remote_call _ _ _ _) as [[r0 t0] s0] eqn:Hcall. injection Hc as _ <-.
  apply remote_call_ran in Hcall as [Ht _]; [|done]. injection Ht as Ha Hm _ _ _. unfold balance. simpl. by rewrite Ha, Hm.
Qed.

Lemma keeps_counted {A} (a : A) f : (∀ s, balance (f s) = balance s) → keeps (counted a f).
Proof. intros Hf s _. apply Hf. Qed.

Lemma keeps_if {A} (b : bool) (m n : networked A) : keeps m → keeps n → keeps (if b then m else n).
Proof. by destruct b. Qed.

Create HintDb keeps.
#[local] Hint Resolve keeps_ret keeps_settled keeps_bind keeps_call keeps_counted keeps_if : keeps.

Lemma keeps_head o cancelled op : keeps (remote_head o cancelled op).
Proof. unfold remote_head. eauto 8 with keeps. Qed.

Lemma keeps_read_range o offset length cancelled op : keeps (remote_read_range o offset length cancelled op).
Proof. unfold remote_read_range. eauto 12 with keeps. Qed.

Lemma keeps_list store prefix cancelled : keeps (remote_list store prefix cancelled).
Proof. unfold remote_list, object_list. eauto 14 with keeps. Qed.

Lemma keeps_delete o cancelled : keeps (remote_delete o cancelled).
Proof. unfold remote_delete. eauto 8 with keeps. Qed.

Lemma keeps_new config : keeps (RemoteStore_new config).
Proof.
  unfold RemoteStore_new, build_store. repeat (apply keeps_bind; [auto with keeps|intros]); [|apply keeps_ret].
  destruct a as [[env keys] session]. apply keeps_bind; [auto with keeps|intros]. by apply keeps_counted.
Qed.

(** What a call of a writer does to the balance. *)
Definition writer_balance (w w' : RemoteMultipartWriter) (s s' : RemoteState) : Prop :=
  active_requests s' = active_requests s ∧
  (multipart_active w' = multipart_active w ∧ active_multipart s' = active_multipart s ∨
   multipart_active w = true ∧ multipart_active w' = false ∧
     active_multipart s' = usize_wrap (active_multipart s - 1)).

(** A writer is counted exactly while it has an upload. *)
Definition well (w : RemoteMultipartWriter) : Prop :=
  multipart_active w = bool_decide (is_Some (multipart_upload w)).

Lemma remote_call_balance {A} op (work : future Net A) token s r t s' :
  in_usize (active_requests s) → remote_call op work token s = (r, t, s') → balance s' = balance s.
Proof. intros Hs Hc. apply remote_call_ran in Hc as [Ht _]; [|done]. injection Ht as Ha Hm _ _ _. unfold balance. congruence. Qed.

Lemma writer_call_balance {A} op (work : future Net A) w s r w' s' :
  in_usize (active_requests s) → writer_call op work w s = (r, w', s') →
  balance s' = balance s ∧ multipart_upload w' = multipart_upload w ∧ multipart_active w' = multipart_active w.
Proof.
  intros Hs. unfold writer_call. destruct (remote_call _ _ _ _) as [[r0 t] s0] eqn:Hc. intros [= <- <- <-].
  by rewrite (remote_call_balance _ _ _ _ _ _ _ Hs Hc).
Qed.

Lemma finish_active_balance w s w' s' : finish_active w s = (w', s') →
  multipart_upload w' = multipart_upload w ∧ multipart_active w' = false ∧ writer_balance w w' s s'.
Proof.
  unfold finish_active. destruct (multipart_active w) eqn:Ha; intros [= <- <-]; unfold writer_balance; simpl;
    rewrite ?Ha; split_and!; auto.
Qed.

Lemma write_balance data w s r w' s' :
  remote_write data w s = (r, w', s') → (well w → well w') ∧ writer_balance w w' s s'.
Proof.
  unfold remote_write. destruct (check _ _); [|intros [= <- <- <-]; split; [done|split; auto]].
  destruct (multipart_upload w) as [u|] eqn:Hu; [|intros [= <- <- <-]; split; [done|split; auto]].
  unfold runtime. destruct (default _ _); [|intros [= <- <- <-]; split; [done|split; auto]].
  destruct (select _ _ _) as [[r0 t] s0] eqn:Hsel. apply select_ran in Hsel as (Ht & _ & _).
  injection Ht as Ha Hm _ _ _. destruct r0 as [[]|]; intros [= <- <- <-]; unfold well, writer_balance; simpl;
    rewrite ?Ha, ?Hm; auto.
Qed.

Lemma publish_balance w s r w' s' : in_usize (active_requests s) →
  remote_publish w s = (r, w', s') → (well w → well w') ∧ writer_balance w w' s s'.
Proof.
  intros Hs. unfold remote_publish. destruct (check _ _); [|intros [= <- <- <-]; split; [done|split; auto]].
  destruct (multipart_upload w) as [u|] eqn:Hu; [|intros [= <- <- <-]; split; [done|split; auto]].
  destruct (writer_call _ _ _ _) as [[fin w1] s1] eqn:Hfin.
  apply writer_call_balance in Hfin as (Hb1 & Hu1 & Ha1); [|done]. injection Hb1 as Hr1 Hm1. simpl in Hu1, Ha1.
  destruct (finish_active _ s1) as [w2 s2] eqn:Hfa. apply finish_active_balance in Hfa as (Hu2 & Ha2 & Hr2 & Hm2).
  rewrite Ha1, Hr1, Hm1 in *.
  assert (in_usize (active_requests s2)) as Hs2 by (by rewrite Hr2).
  assert (∀ w3 s3, balance s3 = balance s2 → multipart_upload w3 = multipart_upload w2 →
    multipart_active w3 = multipart_active w2 → (well w → well w3) ∧ writer_balance w w3 s s3) as Hend.
  { intros w3 s3 Hb3 Hu3 Ha3. injection Hb3 as Hr3 Hm3. unfold well, writer_balance.
    rewrite Hr3, Hm3, Hu3, Ha3, Hu2, Hu1, Ha2, Hr2. split; [done|]. rewrite Ha2 in Hm2. by split. }
  destruct fin as [[]|e].
  - destruct (writer_call _ _ w2 s2) as [[md w3] s3] eqn:Hh. intros [= <- <- <-].
    apply writer_call_balance in Hh as (Hb3 & Hu3 & Ha3); [|done]. by apply Hend.
  - intros [= <- <- <-]. by apply Hend.
Qed.

Lemma abort_balance w s r w' s' : in_usize (active_requests s) →
  remote_abort w s = (r, w', s') → (well w → well w') ∧ writer_balance w w' s s' ∧ multipart_active w' = false.
Proof.
  intros Hs. unfold remote_abort. destruct (multipart_active w) eqn:Ha; cbn [negb];
    [|intros [= <- <- <-]; split; [done|split; [split; auto|done]]].
  destruct (match multipart_upload (set_token w true) with Some _ => _ | None => _ end) as [ab s1] eqn:Hab.
  assert (balance s1 = balance s) as Hb.
  { simpl in Hab. destruct (multipart_upload w) as [u|]; [|by injection Hab as _ <-].
    pose proof (keeps_call S3WriterAbort (upload_abort u) s Hs) as Hk. by rewrite Hab in Hk. }
  destruct (finish_active _ s1) as [w2 s2] eqn:Hfa. apply finish_active_balance in Hfa as (Hu2 & Ha2 & Hr2 & Hm2).
  injection Hb as Hr Hm. simpl in *. rewrite Hr, Hm, ?Ha in *. intros [= <- <- <-]. unfold well, writer_balance.
  rewrite Hu2, Ha2, Ha, Hr2. rewrite Ha2 in Hm2. split; [done|]. by split.
Qed.

(** One operation of the module, with the writers that exist. *)
Inductive s3_step : RemoteState * list RemoteMultipartWriter → RemoteState * list RemoteMultipartWriter → Prop :=
  | s3_new config s ws : s3_step (s, ws) ((RemoteStore_new config s).2, ws)
  | s3_head o op s ws : s3_step (s, ws) ((remote_head o false op s).2, ws)
  | s3_read o offset length op s ws : s3_step (s, ws) ((remote_read_range o offset length false op s).2, ws)
  | s3_list store prefix s ws : s3_step (s, ws) ((remote_list store prefix false s).2, ws)
  | s3_delete o s ws : s3_step (s, ws) ((remote_delete o false s).2, ws)
  | s3_open o cancelled s ws w s' : remote_open_multipart o cancelled s = (Ok w, s') → s3_step (s, ws) (s', w :: ws)
  | s3_open_failed o cancelled s ws e s' : remote_open_multipart o cancelled s = (Err e, s') → s3_step (s, ws) (s', ws)
  | s3_write data w s r w' s' l k : remote_write data w s = (r, w', s') → s3_step (s, l ++ w :: k) (s', l ++ w' :: k)
  | s3_publish w s r w' s' l k : remote_publish w s = (r, w', s') → s3_step (s, l ++ w :: k) (s', l ++ w' :: k)
  | s3_abort w s r w' s' l k : remote_abort w s = (r, w', s') → s3_step (s, l ++ w :: k) (s', l ++ w' :: k)
  | s3_cancel w s l k : s3_step (s, l ++ w :: k) (s, l ++ remote_cancel w :: k)
  | s3_drop w s l k : s3_step (s, l ++ w :: k) (remote_drop w s, l ++ k).

Definition open_writers (ws : list RemoteMultipartWriter) : Z :=
  foldr (λ w n, (if multipart_active w then 1 else 0) + n) 0 ws.

Record balanced (s : RemoteState) (ws : list RemoteMultipartWriter) : Prop := {
  balanced_requests : active_requests s = 0;
  balanced_multipart : active_multipart s = usize_wrap (open_writers ws);
  balanced_writers : Forall well ws;
}.

Lemma open_writers_app l k : open_writers (l ++ k) = open_writers l + open_writers k.
Proof. unfold open_writers. induction l as [|w l IH]; simpl; lia. Qed.

Lemma usize_wrap_sub z : usize_wrap (usize_wrap z - 1) = usize_wrap (z - 1).
Proof. unfold usize_wrap. by rewrite Zminus_mod_idemp_l. Qed.

Lemma usize_wrap_add z : usize_wrap (usize_wrap z + 1) = usize_wrap (z + 1).
Proof. unfold usize_wrap. by rewrite Zplus_mod_idemp_l. Qed.

Lemma balanced_replace s s' w w' l k :
  balanced s (l ++ w :: k) → (well w → well w') → writer_balance w w' s s' → balanced s' (l ++ w' :: k).
Proof.
  intros [Hr Hm Hw] Hwell [Hr' Hm']. rewrite Forall_app, Forall_cons in Hw. destruct Hw as (H1 & H2 & H3).
  rewrite open_writers_app in Hm. simpl in Hm. constructor.
  - by rewrite Hr'.
  - rewrite open_writers_app. simpl. destruct Hm' as [[-> ->]|(E1 & E2 & ->)]; [done|].
    rewrite Hm, E1, E2, usize_wrap_sub. f_equal. lia.
  - rewrite Forall_app, Forall_cons. auto.
Qed.

Lemma balanced_keeps {A} (m : networked A) s ws : keeps m → balanced s ws → balanced (m s).2 ws.
Proof.
  intros Hm [Hr Hc Hw]. specialize (Hm s). rewrite Hr in Hm.
  assert (balance (m s).2 = balance s) as Hb by (apply Hm; unfold in_usize; int_bounds; lia).
  injection Hb as Hb1 Hb2. constructor; congruence.
Qed.

Lemma s3_step_balanced x y : s3_step x y → balanced x.1 x.2 → balanced y.1 y.2.
Proof.
  intros Hstep Hx.
  assert (in_usize (active_requests x.1)) as Hreq by (destruct Hx as [-> _ _]; unfold in_usize; int_bounds; lia).
  destruct Hstep as [config s ws|o op s ws|o a b op s ws|store prefix s ws|o s ws|o c s ws w s' Ho|o c s ws e s' Ho
    |data w s r w' s' l k Hop|w s r w' s' l k Hop|w s r w' s' l k Hop|w s l k|w s l k]; simpl in *.
  - apply balanced_keeps, Hx. apply keeps_new.
  - apply balanced_keeps, Hx. apply keeps_head.
  - apply balanced_keeps, Hx. apply keeps_read_range.
  - apply balanced_keeps, Hx. apply keeps_list.
  - apply balanced_keeps, Hx. apply keeps_delete.
  - unfold remote_open_multipart in Ho. destruct (remote_call _ _ _ _) as [[r t] s1] eqn:Hc.
    apply remote_call_balance in Hc; [|done]. injection Hc as Hr Hm. destruct r; [|done]. injection Ho as <- <-.
    destruct Hx as [H1 H2 H3]. constructor; [simpl; congruence| |by constructor].
    simpl. rewrite Hm, H2, usize_wrap_add. f_equal. lia.
  - unfold remote_open_multipart in Ho. destruct (remote_call _ _ _ _) as [[r t] s1] eqn:Hc.
    apply remote_call_balance in Hc; [|done]. injection Hc as Hr Hm. destruct r; [done|]. injection Ho as _ <-.
    destruct Hx as [H1 H2 H3]. constructor; [congruence..|done].
  - apply write_balance in Hop as [H1 H2]. by eapply balanced_replace.
  - apply publish_balance in Hop as [H1 H2]; [|done]. by eapply balanced_replace.
  - apply abort_balance in Hop as (H1 & H2 & _); [|done]. by eapply balanced_replace.
  - eapply balanced_replace; [exact Hx|done|]. split; [done|by left].
  - unfold remote_drop. destruct (multipart_active w) eqn:Ha.
    + destruct (remote_abort w s) as [[r w'] s'] eqn:Hop. apply abort_balance in Hop as (H1 & H2 & H3); [|done].
      destruct (balanced_replace _ _ _ _ _ _ Hx H1 H2) as [B1 B2 B3]. simpl.
      rewrite open_writers_app in B2. simpl in B2. rewrite H3 in B2.
      rewrite Forall_app, Forall_cons in B3. destruct B3 as (? & _ & ?).
      constructor; [done|by rewrite B2, open_writers_app|by rewrite Forall_app].
    + destruct Hx as [B1 B2 B3]. rewrite open_writers_app in B2. simpl in B2. rewrite Ha in B2.
      rewrite Forall_app, Forall_cons in B3. destruct B3 as (? & _ & ?).
      constructor; [done|by rewrite B2, open_writers_app|by rewrite Forall_app].
Qed.

End counters.

(** ** Properties *)

Section properties.
Context `{ObjectStoreLaws}.

Lemma s3_read_honest store rs key o objs c :
  store_backend store = S3Backend rs → remote_object rs key = Ok o →
  objs !! path_text (object_path o) = Some c →
  honest (H := front_store) (mkChunkBackend (H := front_store) store key) c (objects_stay objs).
Proof.
  intros Hb Ho Hc offset length s [Hobj Hreq] Hoff Hlen.
  cbn [ChunkReader.store_read_range front_store ChunkReader.store ChunkReader.key].
  unfold store_read_range, mbind, front_bind, pure, remotely. rewrite Hb.
  destruct (validate_key key false); [|by split]. destruct (usize_try_from length) as [n|] eqn:Hn; [|by split].
  apply try_from_Some in Hn as [-> _]. cbn [ok_or Store.remote_object Store.remote_read_range ObjectStoreS3].
  rewrite Ho.
  destruct (remote_read_range o offset length false StoreReadRange (remote s)) as [r t] eqn:Hr.
  apply remote_read_range_spec in Hr as (Hobj' & Ha & Hdata); [|done|lia|done].
  split; [split; simpl; [by rewrite Hobj'|unfold requests_in_range; by rewrite Ha]|].
  destruct r as [data|e]; [|done]. apply (Hdata data c eq_refl). by rewrite Hobj.
Qed.

(** C21: the S3 backend keeps the promise the chunk reader relies on: while
    nobody replaces the object a key resolves to, a range of it is answered
    with exactly its bytes or with an error, whatever the network does. *)
Theorem s3_store_honest store rs key o objs c :
  store_backend store = S3Backend rs → remote_object rs key = Ok o →
  objs !! path_text (object_path o) = Some c →
  honest (H := front_store) (mkChunkBackend (H := front_store) store key) c (objects_stay objs).
Proof. apply s3_read_honest. Qed.

(** C19: a multipart writer makes its object visible at once and in full.
    Until it is published nothing is visible; publishing makes a content the
    object of its destination and reports its length, or fails, and then the
    destination is as it was or already has that content; the content is
    exactly the acknowledged bytes if no write failed, and no other object
    changes.  An aborted or dropped writer leaves
    every object as it is. *)
Theorem multipart_atomic o cancelled s0 w0 s1 w s acc :
  requests_in_range s0 → 0 < multipart_part_size (object_config o) →
  remote_open_multipart o cancelled s0 = (Ok w0, s1) →
  (∀ u, multipart_upload w0 = Some u → rtc (multipart_step u) (w0, s1, Some []) (w, s, acc)) →
  objects (net s1) = objects (net s0) ∧
  (∀ data r w' s', remote_write data w s = (r, w', s') → objects (net s') = objects (net s)) ∧
  (∀ r w' s', remote_publish w s = (r, w', s') →
    match r with
    | Ok md => ∃ c, replaced (path_text (object_path o)) acc (objects (net s)) (objects (net s')) c ∧
        remote_key md = path_text (object_path o) ∧ remote_size md = len c
    | Err _ => objects (net s') = objects (net s) ∨
        ∃ c, replaced (path_text (object_path o)) acc (objects (net s)) (objects (net s')) c
    end) ∧
  (∀ r w' s', remote_abort w s = (r, w', s') → objects (net s') = objects (net s) ∧ multipart_active w' = false) ∧
  objects (net (remote_drop w s)) = objects (net s).
Proof.
  intros Hreq Hk Hopen Hsteps. apply open_multipart_sending in Hopen as [Hobj [u Hu]]; [|done..].
  pose proof (multipart_steps_sending u _ _ _ (Hsteps u (sending_upload _ _ _ _ _ Hu)) Hu) as Hx. simpl in Hx.
  pose proof (sending_requests _ _ _ _ _ Hx) as Hr.
  split; [done|]. split; [|split; [|split]].
  - intros data r w' s' Hw. by destruct (remote_write_spec _ _ _ _ _ _ _ _ _ Hx Hw) as [? _].
  - intros r w' s' Hp. by destruct (remote_publish_spec _ _ _ _ _ _ _ _ Hx Hp) as [? _].
  - intros r w' s' Ha. by destruct (remote_abort_spec _ _ _ _ _ Hr Ha) as (? & ? & _).
  - unfold remote_drop. destruct (multipart_active w); [|done].
    destruct (remote_abort w s) as [[r w'] s'] eqn:Ha. by destruct (remote_abort_spec _ _ _ _ _ Hr Ha) as (? & _).
Qed.

(** C25: a listing of an S3 store changes no object and, when it succeeds, is
    exactly the objects below the base prefix and the given one, by whole
    segments, each once and sorted by key, with their sizes; and every listed
    key leads back to the object it was listed for. *)
Theorem s3_list_exact store prefix s r s' :
  requests_in_range s → remote_list store prefix false s = (r, s') →
  objects (net s') = objects (net s) ∧
  ∀ entries, r = Ok entries →
    lists (base_prefix store) (join_key (base_prefix store) prefix) (objects (net s)) entries ∧
    ∀ e, e ∈ entries → ∃ o c, remote_object store (remote_key e) = Ok o ∧
      objects (net s) !! path_text (object_path o) = Some c ∧ remote_size e = len c.
Proof.
  intros Hreq Hr. unfold remote_list in Hr.
  apply remote_bind_inv in Hr as [(e & [_ ->]%settled_inv & ->)|(o & s1 & [Ho ->]%settled_inv & Hr)]; [done|].
  symmetry in Ho. apply bind_Ok in Ho as (p & Hp & [= <-]).
  apply remote_bind_inv in Hr as [(e & Hl & ->)|(es & s1 & Hl & [= <- <-])];
    apply object_list_spec in Hl as (Hobj & _ & Hes); try done.
  split; [done|]. intros entries [= <-]. simpl in Hes. destruct (Hes es eq_refl) as (ms & -> & Hnd & Hin & Hall).
  change (config_key (store_config store)) with (base_prefix store) in Hall. rewrite join_key_join in Hall.
  pose proof (relative_lists (base_prefix store) prefix (objects (net s)) ms Hnd Hin Hall) as Hlists.
  split; [done|]. intros e He. destruct Hlists as (_ & _ & Hback & _).
  destruct (Hback e He) as (q & c & Hq & Hc & Hs). unfold remote_object. fold (base_prefix store).
  rewrite <-Hq, path_text_parse. eexists _, c. done.
Qed.

(** C26: the counters of the module balance over every sequence of operations
    on objects and writers, whatever request fails or is cancelled half-way:
    between operations no request is counted active, and the multipart counter
    is the number of writers that still hold an upload. *)
Theorem s3_counters_balanced s ws s' ws' :
  balanced s ws → rtc s3_step (s, ws) (s', ws') →
  active_requests s' = 0 ∧ active_multipart s' = usize_wrap (open_writers ws') ∧
  Forall (λ w, multipart_active w = true ↔ is_Some (multipart_upload w)) ws'.
Proof.
  intros Hb Hsteps.
  assert (∀ x y, rtc s3_step x y → balanced x.1 x.2 → balanced y.1 y.2) as Hall.
  { induction 1 as [|x y z Hxy _ IH]; [done|]. intros Hx. by eapply IH, s3_step_balanced. }
  destruct (Hall _ _ Hsteps Hb) as [H1 H2 H3]. split; [done|]. split; [done|].
  eapply Forall_impl; [exact H3|]. intros w ->. by rewrite bool_decide_eq_true.
Qed.

End properties.
