(* ===== verification/S3Memory.v ===== *)
(** * S3Memory: an object store in memory

    An instance of [ObjectStore] with faults to come, its laws, and concrete
    runs of the S3 backend over it. *)
From Stdlib Require Import Eqdep_dec.
From S2P Require Import Prelude Errors Object ChunkReader Fs Local Store S3 S3Store.

(** ** The instance *)

Definition valid_text (t : string) : bool := bool_decide (t = ""%string ∨ segmented t).

Record MemoryPath : Set := mkMemoryPath { memory_text : string; memory_valid : valid_text memory_text = true }.

Definition memory_parse (s : string) : option MemoryPath :=
  match Bool.bool_dec (valid_text s) true with left Hs => Some (mkMemoryPath s Hs) | right _ => None end.

(** Objects, open uploads, the next upload, and which requests fail. *)
Record MemoryNet : Set := mkMemoryNet {
  memory_objects : gmap string bytes;
  memory_uploads : gmap nat bytes;
  memory_next : nat;
  memory_faults : list bool;
}.

Definition later_faults (n : MemoryNet) : MemoryNet :=
  mkMemoryNet (memory_objects n) (memory_uploads n) (memory_next n) (tail (memory_faults n)).

(** A request: it fails when a fault is due, and dropped it never started. *)
Definition request {A} (run : MemoryNet → result object_store.Error A * MemoryNet) : future MemoryNet A :=
  mkFuture _ _ (λ n,
    match memory_faults n with
    | true :: _ => (Err (object_store.Unlisted 0), later_faults n)
    | _ => run (later_faults n)
    end) id.

Definition looking {A} (look : gmap string bytes → result object_store.Error A) : future MemoryNet A :=
  request (λ n, (look (memory_objects n), n)).

Definition memory_meta (t : string) (c : bytes) : ObjectMeta := mkObjectMeta t (len c) 5.

Definition below_path (p : option MemoryPath) (t : string) : bool :=
  match p with
  | Some p => bool_decide (is_Some (strip_text (memory_text p +:+ "/") t))
  | None => true
  end.

Definition set_uploads (n : MemoryNet) (us : gmap nat bytes) : MemoryNet :=
  mkMemoryNet (memory_objects n) us (memory_next n) (memory_faults n).
Definition set_objects (n : MemoryNet) (os : gmap string bytes) : MemoryNet :=
  mkMemoryNet os (memory_uploads n) (memory_next n) (memory_faults n).

Definition MemoryStore : ObjectStore := {|
  Net := MemoryNet;
  Path := MemoryPath;
  path_parse := memory_parse;
  path_text := memory_text;
  Client := ();
  client_build _ := Some tt;
  head_request _ p := looking (λ os,
    match os !! memory_text p with Some c => Ok (memory_meta (memory_text p) c) | None => Err object_store.NotFound end);
  get_range_request _ p a b := looking (λ os,
    match os !! memory_text p with
    | Some c => if len c <=? a then Err (object_store.Unlisted 1) else Ok (take_bytes (b - a) (skip_bytes a c))
    | None => Err object_store.NotFound
    end);
  list_request _ p := looking (λ os,
    if forallb (λ e, valid_text e.1) (map_to_list os)
    then Ok (map (λ e, memory_meta e.1 e.2) (filter (λ e, Is_true (below_path p e.1)) (map_to_list os)))
    else Err object_store.InvalidPath);
  delete_request _ p := request (λ n, (Ok (), set_objects n (delete (memory_text p) (memory_objects n))));
  MultipartUpload := (nat * string);
  put_multipart _ p := request (λ n,
    (Ok (memory_next n, memory_text p),
     mkMemoryNet (memory_objects n) (<[memory_next n := []]> (memory_uploads n)) (S (memory_next n)) (memory_faults n)));
  WriteMultipart := (nat * string);
  new_with_chunk_size u _ := u;
  wait_for_capacity _ _ := request (λ n, (Ok (), n));
  upload_write data u n := set_uploads n (alter (λ c, c ++ data) u.1 (memory_uploads n));
  upload_finish u := request (λ n,
    match memory_uploads n !! u.1 with
    | Some c => (Ok (), set_objects (set_uploads n (delete u.1 (memory_uploads n))) (<[u.2 := c]> (memory_objects n)))
    | None => (Err (object_store.Unlisted 2), n)
    end);
  upload_abort u := request (λ n, (Ok (), set_uploads n (delete u.1 (memory_uploads n))));
|}.

(** ** Its laws *)

Lemma strip_text_Some a t r : strip_text a t = Some r ↔ t = a +:+ r.
Proof.
  split; [|intros ->; apply strip_text_app]. revert t. induction a as [|c a IH]; intros [|d t]; simpl; try done.
  - by intros [= <-].
  - by intros [= <-].
  - destruct (Ascii.eqb_spec c d) as [->|]; [|done]. intros Ht. by rewrite (IH t Ht).
Qed.

Lemma memory_parse_text p : memory_parse (memory_text p) = Some p.
Proof.
  unfold memory_parse. destruct p as [t Ht]. simpl. destruct (Bool.bool_dec _ _) as [Ht'|]; [|done].
  by rewrite (UIP_dec Bool.bool_dec Ht' Ht).
Qed.

Lemma memory_parse_Some s p : memory_parse s = Some p → memory_text p = s.
Proof. unfold memory_parse. destruct (Bool.bool_dec _ _); [by intros [= <-]|done]. Qed.

Lemma request_completed {A} (run : MemoryNet → result object_store.Error A * MemoryNet) n r n' :
  completed (request run) n = (r, n') →
  ((∃ e, r = Err e) ∧ n' = later_faults n) ∨ run (later_faults n) = (r, n').
Proof.
  simpl. destruct (memory_faults n) as [|[] fs]; [by right| |by right]. intros [= <- <-]. left. by split; [eexists|].
Qed.

Lemma looking_completed {A} (look : gmap string bytes → result object_store.Error A) n r n' :
  completed (looking look) n = (r, n') →
  memory_objects n' = memory_objects n ∧ (∀ a, r = Ok a → look (memory_objects n) = Ok a).
Proof.
  intros [[[e ->] ->]|[= <- <-]]%request_completed; by split.
Qed.

Lemma memory_listed os p ms :
  (if forallb (λ e, valid_text e.1) (map_to_list os)
   then Ok (map (λ e, memory_meta e.1 e.2) (filter (λ e, Is_true (below_path p e.1)) (map_to_list os)))
   else Err object_store.InvalidPath) = Ok ms →
  NoDup (map location ms) ∧
  (∀ m, m ∈ ms → ∃ q c, location m = memory_text q ∧ os !! location m = Some c ∧ meta_size m = len c) ∧
  ∀ t, t ∈ map location ms ↔ is_Some (os !! t) ∧
    match p with Some p => ∃ rest, t = memory_text p +:+ "/" +:+ rest | None => True end.
Proof.
  destruct (forallb _ _) eqn:Hv; [|done]. intros [= <-].
  assert (map location (map (λ e, memory_meta e.1 e.2) (filter (λ e, Is_true (below_path p e.1)) (map_to_list os)))
    = (filter (λ e, Is_true (below_path p e.1)) (map_to_list os)).*1) as Hloc by (by rewrite map_map).
  assert (∀ t, match p with Some p => ∃ rest, t = memory_text p +:+ "/" +:+ rest | None => True end ↔
    Is_true (below_path p t)) as Hbelow.
  { intros t. destruct p as [p|]; [|by simpl]. simpl. rewrite bool_decide_spec. split.
    - intros [rest ->]. exists rest. apply strip_text_Some. by rewrite append_assoc.
    - intros [rest Hr%strip_text_Some]. exists rest. by rewrite Hr, append_assoc. }
  split; [|split].
  - rewrite Hloc. apply (sublist_NoDup _ (map_to_list os).*1); [apply NoDup_fst_map_to_list|apply fmap_sublist, sublist_filter].
  - intros m Hm. apply list_elem_of_fmap in Hm as ([t c] & -> & [_ Hin]%list_elem_of_filter).
    pose proof (proj1 (forallb_forall _ _) Hv (t, c)) as Ht. simpl in Ht.
    exists (mkMemoryPath t (Ht (proj1 (list_elem_of_In _ _) Hin))), c.
    by pose proof (proj1 (elem_of_map_to_list os t c) Hin).
  - intros t. rewrite Hloc, Hbelow, list_elem_of_fmap. split.
    + intros ([t' c] & -> & [Hb Hin]%list_elem_of_filter). apply (elem_of_map_to_list os) in Hin. simpl in *. split; [by eexists|done].
    + intros [[c Hc] Hb]. exists (t, c). split; [done|]. apply list_elem_of_filter. split; [done|]. by apply (elem_of_map_to_list os).
Qed.

Lemma MemoryStore_laws : ObjectStoreLaws MemoryStore.
Proof.
  refine {| objects := memory_objects : Net (ObjectStore := MemoryStore) → _;
            uploading := (λ (n : MemoryNet) (u : nat * string), memory_uploads n !! u.1)
              : Net (ObjectStore := MemoryStore) → WriteMultipart (ObjectStore := MemoryStore) → _;
            destination_of := (λ u : nat * string, u.2) : WriteMultipart (ObjectStore := MemoryStore) → _ |}.
  - apply memory_parse_text.
  - intros s p Hp _. by apply memory_parse_Some.
  - intros p. pose proof (memory_valid p) as Hv. by apply bool_decide_eq_true in Hv.
  - intros cl p n r n' [Ho Hl]%looking_completed. split; [done|]. intros m Hm%Hl. simpl in *.
    destruct (memory_objects n !! memory_text p) as [c|]; [|done]. injection Hm as <-. by exists c.
  - done.
  - intros cl p a b n r n' [Ho Hl]%looking_completed. split; [done|]. intros data Hd%Hl. simpl in *.
    destruct (memory_objects n !! memory_text p) as [c|]; [|done]. destruct (len c <=? a); [done|].
    injection Hd as <-. by exists c.
  - intros cl p n r n' [Ho Hl]%looking_completed. split; [done|]. intros ms Hms%Hl. by apply memory_listed in Hms.
  - intros cl p n r n' [[[e ->] ->]|[= <- <-]]%request_completed; [right|by left]. by split; [|eexists].
  - intros cl p n r n' [[[e ->] ->]|[= <- <-]]%request_completed; (split; [done|]); [done|].
    intros up k [= <-] _. simpl. by rewrite lookup_insert_eq.
  - done.
  - intros data u n. split; [done|]. intros c Hc. simpl. by rewrite lookup_alter_eq, Hc.
  - intros u k n r n' [[[e ->] ->]|[= <- <-]]%request_completed; by split.
  - done.
  - intros u n r n' [[[e ->] ->]|Hrun]%request_completed; [left; by split; [|eexists]|].
    simpl in Hrun. destruct (memory_uploads n !! u.1) as [c|] eqn:Hc; injection Hrun as <- <-.
    + right. exists c. split; [done|]. congruence.
    + left. by split; [|eexists].
  - by left.
  - intros u n r n' [[[e ->] ->]|[= <- <-]]%request_completed; done.
Defined.

(** ** Concrete runs *)

#[local] Existing Instances MemoryStore MemoryStore_laws.

Definition sample_config : S3Config :=
  mkS3Config "bucket" "prod/" None "eu" false true 1000 3 "standard" None None None 4 8 2.
Definition sample_remote : S3.RemoteStore := S3.mkRemoteStore tt sample_config.

Definition sample_bytes : bytes := ["h"; "e"; "l"; "l"; "o"]%byte.
Definition sample_objects : gmap string bytes :=
  {["prod/link/a"%string := sample_bytes; "prod/linked"%string := []; "other/link/a"%string := []]}.
Definition sample_net : MemoryNet := mkMemoryNet sample_objects ∅ 0 [].
Definition sample_state (interrupts : list bool) : S3.RemoteState :=
  mkRemoteState sample_net interrupts true None 0 0 0 0 0 0.

Lemma sample_range (interrupts : list bool) : requests_in_range (sample_state interrupts).
Proof. split; vm_compute; discriminate. Qed.

(** A listing by "link" finds the object below it, and not "linked". *)
Lemma s3_list_exact_witness :
  let '(r, s') := remote_list sample_remote "link" false (sample_state []) in
  r = Ok [mkRemoteMetadata "link/a" 5 (Some 5)] ∧
  memory_objects (net s') = sample_objects ∧
  lists "prod/" "prod/link" sample_objects [mkRemoteMetadata "link/a" 5 (Some 5)].
Proof.
  destruct (remote_list sample_remote "link" false (sample_state [])) as [r s'] eqn:Hr.
  assert (r = Ok [mkRemoteMetadata "link/a" 5 (Some 5)]) as ->.
  { transitivity (remote_list sample_remote "link" false (sample_state [])).1; [by rewrite Hr|vm_compute; reflexivity]. }
  destruct (s3_list_exact sample_remote "link" (sample_state []) _ s' (sample_range []) Hr) as [Ho Hl].
  split; [reflexivity|]. split; [exact Ho|]. exact (proj1 (Hl _ eq_refl)).
Defined.

(** The prefix of a local listing is any text; here it is whole segments. *)
Example s3_list_segments :
  (remote_list sample_remote "lin" false (sample_state [])).1 = Ok [] ∧
  (remote_list sample_remote "" false (sample_state [])).1 =
    Ok [mkRemoteMetadata "link/a" 5 (Some 5); mkRemoteMetadata "linked" 0 (Some 5)].
Proof. split; vm_compute; reflexivity. Qed.

Definition sample_front : Stores := mkStores sample_process (sample_state [] : Store.RemoteState) 1 1 1.
Definition sample_s3 : StoreResource := mkStoreResource 1 (S3Backend (sample_remote : Store.RemoteStore)).
(** The value of a result that is known to be one. *)
Definition is_ok {E A} (r : result E A) : bool := match r with Ok _ => true | Err _ => false end.
Definition ok_default {E A} (a : A) (r : result E A) : A := match r with Ok a => a | Err _ => a end.

Lemma ok_default_Ok {E A} (a : A) (r : result E A) : is_ok r = true → r = Ok (ok_default a r).
Proof. by destruct r. Qed.

Lemma triple_eq {A B C} (x : A * B * C) a : x.1.1 = a → x = (a, x.1.2, x.2).
Proof. by destruct x as [[? ?] ?]; intros <-. Qed.

Definition target_object (key : string) : S3.RemoteObject :=
  ok_default (S3.mkRemoteObject tt (mkMemoryPath "" eq_refl) sample_config) (S3.remote_object sample_remote key).
Definition sample_object : S3.RemoteObject := target_object "link/a".

Lemma s3_store_honest_witness :
  honest (H := front_store) (mkChunkBackend (H := front_store) sample_s3 "link/a") sample_bytes
    (objects_stay sample_objects) ∧
  (store_read_range sample_s3 "link/a" 1 3 sample_front).1 = Ok ["e"; "l"; "l"]%byte.
Proof.
  assert (S3.remote_object sample_remote "link/a" = Ok sample_object) as Ho
    by (apply ok_default_Ok; vm_compute; reflexivity).
  assert (sample_objects !! path_text (object_path sample_object) = Some sample_bytes) as Hc
    by (vm_compute; reflexivity).
  split; [|vm_compute; reflexivity].
  exact (s3_store_honest sample_s3 sample_remote "link/a" sample_object sample_objects sample_bytes eq_refl Ho Hc).
Defined.

(** An object is opened for writing, two bytes are written, and it is
    published. *)
Definition sample_target : S3.RemoteObject := target_object "out".

Definition sample_opened : result NativeFailure S3.RemoteMultipartWriter * S3.RemoteState :=
  S3.remote_open_multipart sample_target false (sample_state []).
Definition sample_w0 : S3.RemoteMultipartWriter :=
  ok_default (mkRemoteMultipartWriter tt (mkMemoryPath "" eq_refl) None false 0 false 0) sample_opened.1.
Definition sample_sent : result IoError Z * S3.RemoteMultipartWriter * S3.RemoteState :=
  S3.remote_write ["x"; "y"]%byte sample_w0 sample_opened.2.
Definition sample_published : result NativeFailure RemoteMetadata * S3.RemoteMultipartWriter * S3.RemoteState :=
  S3.remote_publish sample_sent.1.2 sample_sent.2.

Lemma sample_opened_eq : S3.remote_open_multipart sample_target false (sample_state []) = (Ok sample_w0, sample_opened.2).
Proof.
  assert (sample_opened.1 = Ok sample_w0) as <- by (apply ok_default_Ok; vm_compute; reflexivity).
  apply surjective_pairing.
Qed.

Lemma sample_sent_eq :
  S3.remote_write ["x"; "y"]%byte sample_w0 sample_opened.2 = (Ok 2, sample_sent.1.2, sample_sent.2).
Proof.
  unfold sample_sent. apply triple_eq. vm_compute. reflexivity.
Qed.

Lemma sample_published_eq :
  S3.remote_publish sample_sent.1.2 sample_sent.2 =
    (Ok (mkRemoteMetadata "prod/out" 2 (Some 5)), sample_published.1.2, sample_published.2).
Proof.
  unfold sample_published. apply triple_eq. vm_compute. reflexivity.
Qed.

#[local] Opaque sample_opened sample_w0 sample_sent sample_published.

Lemma sample_sent_objects : objects (net sample_sent.2) = sample_objects.
Proof. vm_compute. reflexivity. Qed.

Lemma sample_part_size : 0 < multipart_part_size (object_config sample_target).
Proof. vm_compute. reflexivity. Qed.

Lemma multipart_atomic_witness :
  objects (net sample_published.2) = <[path_text (object_path sample_target) := ["x"; "y"]%byte]> sample_objects ∧
  objects (net (S3.remote_drop sample_sent.1.2 sample_sent.2)) = sample_objects.
Proof.
  destruct (multipart_atomic sample_target false (sample_state []) sample_w0 sample_opened.2 sample_sent.1.2
    sample_sent.2 (Some ["x"; "y"]%byte) (sample_range []) sample_part_size sample_opened_eq)
    as (Hobj & Hwr & Hpub & _ & Hdrop).
  { intros u _. eapply rtc_once. exact (multipart_write u _ _ (Some []) _ _ _ _ sample_sent_eq). }
  rewrite sample_sent_objects in Hdrop. split; [|exact Hdrop].
  destruct (Hpub _ _ _ sample_published_eq) as (c & [Hrep Hc] & _ & _). rewrite (Hc _ eq_refl) in Hrep.
  rewrite sample_sent_objects in Hrep. exact Hrep.
Defined.

(** Opening, writing and publishing: the counters are back at zero. *)
Lemma s3_counters_balanced_witness :
  active_multipart sample_sent.2 = 1 ∧
  active_requests sample_published.2 = 0 ∧ active_multipart sample_published.2 = 0.
Proof.
  split; [vm_compute; reflexivity|].
  destruct (s3_counters_balanced (sample_state []) [] sample_published.2 [sample_published.1.2]) as (H1 & H2 & _).
  - constructor; [reflexivity|vm_compute; reflexivity|constructor].
  - eapply rtc_l; [exact (s3_open sample_target false (sample_state []) [] _ _ sample_opened_eq)|].
    eapply rtc_l; [exact (s3_write _ _ _ _ _ _ [] [] sample_sent_eq)|].
    eapply rtc_l; [exact (s3_publish _ _ _ _ _ [] [] sample_published_eq)|]. apply rtc_refl.
  - split; [exact H1|]. rewrite H2. vm_compute. reflexivity.
Defined.

(** A publication cancelled half-way: the upload is given up without an abort
    request, and the slot of the writer with it. *)
Example cancelled_publish_not_aborted :
  let '(r, w, s) := S3.remote_publish sample_sent.1.2
    (mkRemoteState (net sample_sent.2) [true] true None 0 0 1 0 0 0) in
  r = Err (NativeFailure_cancelled S3WriterPublish) ∧
  (S3.remote_abort w s).1.1 = Ok false ∧ active_multipart s = 0 ∧
  memory_uploads (net (S3.remote_drop w s)) = {[0%nat := ["x"; "y"]%byte]}.
Proof. vm_compute. split_and!; reflexivity. Qed.
