(* ===== verification/Listing.v ===== *)
(** * Listing: the objects below a prefix

    Models the listing of a local directory ([list], [validate_prefix] and
    [visit_directory] of [local.rs]) and of a store ([list] and [local_list] of
    [store.rs]).  The recursion over directories takes fuel, one unit per
    level; [listing_fuel] is enough of it.  Names are UTF-8, so that
    [to_string_lossy] changes none. *)
From S2P Require Import Prelude Errors Object ChunkReader Fs Local Store.

(** ** Operations that may run out of fuel *)

Definition bounded (A : Type) : Type := Process → option (result NativeFailure A * Process).

#[export] Instance bounded_ret : MRet bounded := λ A a p, Some (Ok a, p).
#[export] Instance bounded_bind : MBind bounded := λ A B f m p,
  match m p with
  | Some (Ok a, p) => f a p
  | Some (Err e, p) => Some (Err e, p)
  | None => None
  end.

Definition lift {A} (m : native A) : bounded A := λ p, Some (m p).

(** ** The local store *)

Definition validate_prefix (prefix : string) : result NativeFailure () :=
  if is_absolute prefix
     || existsb (λ c, negb (match c with Normal _ | CurDir => true | _ => false end)) (components prefix)
  then Err (NativeFailure_invalid List "list prefix must be relative and cannot traverse parents")
  else Ok ().

Section visit.
Context (listing_root : apath) (allowed : option apath) (prefix : string) (cancelled : bool).

Definition visit_symlink (raw_path : apath) : native () :=
  target ← io List (canonicalize (of_apath raw_path));
  match allowed with
  | Some root =>
      if negb (path_starts_with target root) then
        of_result (Err (NativeFailure_new PermissionDenied List
          "listed symlink escapes the configured allowed root"))
      else mret ()
  | None => mret ()
  end.

Definition visit_file (raw_path : apath) : native (list ObjectMetadata) :=
  relative ← of_result (ok_or (strip_prefix raw_path listing_root)
    (NativeFailure_invalid List "invalid listed path"));
  if starts_with prefix (join "/" relative) then
    metadata ← metadata_for raw_path List; mret [metadata]
  else mret [].

(** One turn of the loop over the entries of a directory; what it pushes to
    the output.  Fetching the entry can fail as well. *)
Definition visit_entry (visit_directory : apath → bounded (list ObjectMetadata)) (raw_path : apath) :
    bounded (list ObjectMetadata) :=
  _ ← lift (of_result (check cancelled List));
  _ ← lift (io List (looking (λ _, Ok ())));
  file_type ← lift (io List (fs_symlink_metadata raw_path));
  match file_type with
  | Symlink _ => _ ← lift (visit_symlink raw_path); mret []
  | Directory => visit_directory raw_path
  | RegularFile _ _ => lift (visit_file raw_path)
  | Special => mret []
  end.

Fixpoint visit_entries (visit : apath → bounded (list ObjectMetadata)) (entries : list apath) :
    bounded (list ObjectMetadata) :=
  match entries with
  | [] => mret []
  | entry :: entries =>
      pushed ← visit entry;
      rest ← visit_entries visit entries;
      mret (pushed ++ rest)
  end.

Fixpoint visit_directory (fuel : nat) (directory : apath) : bounded (list ObjectMetadata) :=
  match fuel with
  | O => λ _, None
  | S fuel =>
      _ ← lift (of_result (check cancelled List));
      entries ← lift (io List (fs_read_dir directory));
      visit_entries (visit_entry (visit_directory fuel)) entries
  end.

End visit.

(** [entries.sort_by(|left, right| left.path.cmp(&right.path))]. *)
Definition sort_by_path : list ObjectMetadata → list ObjectMetadata :=
  merge_sort (λ a b, String.leb (path a) (path b)).

Definition list_objects (fuel : nat) (location : ObjectLocation) (prefix : string) (cancelled : bool) :
    bounded (list ObjectMetadata) :=
  _ ← lift (of_result (check cancelled List));
  _ ← lift (of_result (validate_prefix prefix));
  root ← lift (resolve_existing location List);
  dir ← lift (is_dir root);
  if negb dir then lift (of_result (Err (NativeFailure_invalid List "listing requires a directory location")))
  else
    allowed ← lift (canonical_allowed_root location List);
    entries ← visit_directory root allowed prefix cancelled fuel root;
    mret (sort_by_path entries).

(** ** The store *)

(** [fs::metadata] of a path as it is written. *)
Definition fs_metadata_of (cs : list Component) : io_op Node := looking (λ w,
  q ← follow w cs; ok_or (node_at (files w) q) io.NotFound).

Definition is_dir_of (cs : list Component) : native bool :=
  r ← attempt (fs_metadata_of cs);
  mret (match r with Ok Directory => true | _ => false end).

(** The text of a relative path, without its redundant separators. *)
Definition path_text (p : list Component) : string := join "/" (map component_text p).

Definition local_list (fuel : nat) (root : apath) (prefix : string) : bounded (list ObjectMetadata) :=
  if bool_decide (prefix = ""%string) then list_objects fuel (local_location root "") "" false
  else
    found ← lift (attempt (fs_metadata_of (walked (path_join (to_string_lossy root) prefix))));
    match found with
    | Ok Directory => list_objects fuel (local_location root prefix) "" false
    | Ok (RegularFile _ _) => metadata ← lift (head (local_location root prefix) false); mret [metadata]
    | Ok _ => mret []
    | Err io.NotFound =>
        match parent (components prefix) with
        | None => mret []
        | Some parent =>
            let parent_key := path_text parent in
            dir ← lift (is_dir_of (walked (path_join (to_string_lossy root) parent_key)));
            if negb dir then mret []
            else
              list_objects fuel (local_location root parent_key)
                (default ""%string (file_name (components prefix))) false
        end
    | Err kind => lift (of_result (Err (from_io StoreList kind)))
    end.

Section store_list.
Context `{S3}.

Definition remote_entry (m : RemoteMetadata) : StoreMetadata :=
  mkStoreMetadata (remote_key m) (remote_size m) (remote_modified_unix_ns m).

Definition store_list (fuel : nat) (store : StoreResource) (prefix : string) (s : Stores) :
    option (result NativeFailure (list StoreMetadata) * Stores) :=
  match validate_key prefix true with
  | Err e => Some (Err e, s)
  | Ok _ =>
      match store_backend store with
      | LocalBackend root =>
          '(r, p) ← local_list fuel root prefix (process s);
          Some (entries ← r; collect (local_metadata root) entries, set_process s p)
      | S3Backend remote =>
          Some ((entries ← remotely (remote_list remote prefix false); mret (map remote_entry entries)) s)
      end
  end.

End store_list.

(** The fuel that is always enough: more than the depth of the files. *)
Definition depth (fs : gmap apath Node) : nat := max_list (map (λ x : apath * Node, length x.1) (map_to_list fs)).
Definition listing_fuel (p : Process) : nat := S (depth (files (world p))).

(** ** Specification *)

(** A regular file below [dir], through real directories, whose path from the
    listing's root starts with the prefix. *)
Definition listed (fs : gmap apath Node) (root : apath) (prefix : string) (dir q : apath) : Prop :=
  ∃ rest rel c m, q = dir ++ rest ∧ rest ≠ [] ∧ real_directory fs (dir ++ removelast rest) ∧
    fs !! q = Some (RegularFile c m) ∧ q = root ++ rel ∧ starts_with prefix (join "/" rel) = true.

(** A symbolic link that resolves, and not to the outside of the allowed root. *)
Definition link_inside (w : World) (allowed : option apath) (q : apath) : Prop :=
  ∃ target, follow w (of_apath q) = Ok target ∧ ∀ root, allowed = Some root → root `prefix_of` target.

Definition links_inside (w : World) (allowed : option apath) (dir : apath) : Prop :=
  ∀ rest target, rest ≠ [] → real_directory (files w) (dir ++ removelast rest) →
    files w !! (dir ++ rest) = Some (Symlink target) → link_inside w allowed (dir ++ rest).

Definition describe (fs : gmap apath Node) (q : apath) : ObjectMetadata :=
  match fs !! q with
  | Some (RegularFile c m) => mkObjectMetadata (to_string_lossy q) (len c) (m ≫= system_time_ns)
  | _ => mkObjectMetadata (to_string_lossy q) 0 None
  end.

(** ** Lemmas: looking around in an unchanging file system *)

Section look.
Context (p0 : Process).
Abbreviation fs := (files (world p0)).

(** A value an operation returns satisfies [P]; it does return one if [pre]
    holds and no system call fails. *)
Definition looks {A} (m : native A) (P : A → Prop) (pre : Prop) : Prop :=
  ∀ p, same p0 p → same p0 (m p).2 ∧ (∀ a, (m p).1 = Ok a → P a) ∧
    (faults (world p) = [] → faults (world (m p).2) = [] ∧ (pre → ∃ a, (m p).1 = Ok a)).

(** The same for the files a listing pushes: each of those in [Q], once. *)
Definition yields (m : bounded (list ObjectMetadata)) (Q : apath → Prop) (pre : Prop) : Prop :=
  ∀ p, same p0 p → ∃ r p', m p = Some (r, p') ∧ same p0 p' ∧
    (∀ es, r = Ok es → pre ∧ ∃ qs, NoDup qs ∧ es ≡ₚ map (describe fs) qs ∧ ∀ q, q ∈ qs ↔ Q q) ∧
    (faults (world p) = [] → faults (world p') = [] ∧ (pre → ∃ es, r = Ok es)).

Lemma looks_of_result {A} (r : result NativeFailure A) (P : A → Prop) (pre : Prop) :
  (∀ a, r = Ok a → P a) → (pre → ∃ a, r = Ok a) → looks (of_result r) P pre.
Proof. intros HP Hpre p Hs. simpl. by split_and!. Qed.

Lemma looks_io {A} o (look : World → result io.ErrorKind A) (P : A → Prop) (pre : Prop) :
  (∀ v w, files v = files w → cwd v = cwd w → look v = look w) →
  (∀ a, look (world p0) = Ok a → P a) → (pre → ∃ a, look (world p0) = Ok a) →
  looks (io o (looking look)) P pre.
Proof.
  intros Hlook HP Hpre p Hs. pose proof (quiet_looking o look p) as Hq.
  destruct (io o (looking look) p) as [r p'] eqn:Hio. simpl in *. split; [by etransitivity|].
  assert (look (world p) = look (world p0)) as Heq by (destruct Hs as (? & ? & _); by apply Hlook).
  split.
  - intros a ->. apply native_looking in Hio as [_ Hl]; [|done]. apply HP. congruence.
  - intros Hno. rewrite looking_nofault in Hio by done. simplify_eq. split; [done|].
    rewrite Heq. intros [a Ha]%Hpre. exists a. by rewrite Ha.
Qed.

Lemma looks_bind {A B} (m : native A) (k : A → native B) P P' (pre pre' : Prop) :
  looks m P pre → (∀ a, P a → looks (k a) P' pre') → (pre' → pre) → looks (m ≫= k) P' pre'.
Proof.
  intros Hm Hk Hpre p Hs. destruct (Hm p Hs) as (Hs1 & HP & Hno). unfold mbind, native_bind.
  destruct (m p) as [[a|e] q]; simpl in *.
  - destruct (Hk a (HP a eq_refl) q Hs1) as (Hs2 & HP' & Hno'). split_and!; [done..|].
    intros [Hq _]%Hno. by apply Hno'.
  - split_and!; [done..|]. intros [Hq Hok]%Hno. split; [done|]. intros [a Ha]%Hpre%Hok. done.
Qed.

Lemma looks_weaken {A} (m : native A) (P P' : A → Prop) (pre pre' : Prop) :
  looks m P pre → (∀ a, P a → P' a) → (pre' → pre) → looks m P' pre'.
Proof.
  intros Hm HP Hpre p Hs. destruct (Hm p Hs) as (? & Ha & Hno). split_and!; [done|by eauto|].
  intros [H1 H2]%Hno. tauto.
Qed.

Lemma yields_bind {A} (m : native A) (k : A → bounded (list ObjectMetadata)) P Q (pre pre' : Prop) :
  looks m P pre → (∀ a, P a → yields (k a) Q pre') → (pre' → pre) → yields (lift m ≫= k) Q pre'.
Proof.
  intros Hm Hk Hpre p Hs. destruct (Hm p Hs) as (Hs1 & HP & Hno). unfold mbind, bounded_bind, lift.
  destruct (m p) as [[a|e] q]; simpl in *.
  - destruct (Hk a (HP a eq_refl) q Hs1) as (r & p' & -> & Hs2 & HQ & Hno'). exists r, p'. split_and!; [done..|].
    intros [Hq _]%Hno. by apply Hno'.
  - exists (Err e), q. split_and!; [done..|]. intros [Hq Hok]%Hno. split; [done|].
    intros [a Ha]%Hpre%Hok. done.
Qed.

Lemma yields_ret qs (Q : apath → Prop) (pre : Prop) :
  pre → NoDup qs → (∀ q, q ∈ qs ↔ Q q) → yields (mret (map (describe fs) qs)) Q pre.
Proof.
  intros Hpre Hnd HQ p Hs. exists (Ok (map (describe fs) qs)), p. split_and!; [done..| |eauto].
  intros es [= <-]. split; [done|]. by exists qs.
Qed.

Lemma yields_nil (Q : apath → Prop) (pre : Prop) : pre → (∀ q, ¬ Q q) → yields (mret []) Q pre.
Proof.
  intros Hpre HQ. apply (yields_ret []); [done|by constructor|]. intros q. rewrite elem_of_nil. naive_solver.
Qed.

Lemma yields_ext m Q Q' (pre pre' : Prop) :
  yields m Q pre → (∀ q, Q q ↔ Q' q) → (pre ↔ pre') → yields m Q' pre'.
Proof.
  intros Hm HQ Hpre p Hs. destruct (Hm p Hs) as (r & p' & Heq & Hs' & Hes & Hno). exists r, p'.
  split_and!; [done..| |].
  - intros es [H1 (qs & H2 & H3 & H4)]%Hes. split; [tauto|]. exists qs. split_and!; [done..|]. intros q. by rewrite H4.
  - intros [H1 H2]%Hno. split; [done|]. tauto.
Qed.

Lemma yields_sorted m Q (pre : Prop) :
  yields m Q pre → yields (es ← m; mret (sort_by_path es)) Q pre.
Proof.
  intros Hm p Hs. destruct (Hm p Hs) as (r & p' & Heq & Hs' & Hes & Hno).
  unfold mbind, bounded_bind. rewrite Heq. destruct r as [es|e].
  - exists (Ok (sort_by_path es)), p'. split_and!; [done..| |].
    + intros es' [= <-]. destruct (Hes es eq_refl) as [Hpre (qs & Hnd & Hperm & HQ)]. split; [done|]. exists qs.
      split_and!; [done| |done]. unfold sort_by_path. by rewrite merge_sort_Permutation.
    + intros [Hq _]%Hno. split; [done|]. by eexists.
  - exists (Err e), p'. split_and!; [done..|]. intros [Hq Hok]%Hno. split; [done|]. by intros [? [=]]%Hok.
Qed.

(** Listing entry after entry, when no file can come from two of them. *)
Lemma yields_entries visit Q (pre : apath → Prop) entries :
  NoDup entries → (∀ e, e ∈ entries → yields (visit e) (Q e) (pre e)) →
  (∀ e e' q, e ∈ entries → e' ∈ entries → Q e q → Q e' q → e = e') →
  yields (visit_entries visit entries) (λ q, ∃ e, e ∈ entries ∧ Q e q) (∀ e, e ∈ entries → pre e).
Proof.
  intros Hnd Hv Hdisj. induction entries as [|e entries IH]; cbn [visit_entries].
  { apply yields_nil; [by intros e ?%elem_of_nil|]. by intros q (e & ?%elem_of_nil & _). }
  apply NoDup_cons in Hnd as [He Hnd]. intros p Hs.
  destruct (Hv e ltac:(by apply elem_of_cons; left) p Hs) as (r & q & Heq & Hs1 & Hes & Hno).
  unfold mbind at 1, bounded_bind at 1. rewrite Heq. destruct r as [es|err].
  2: { exists (Err err), q. split_and!; [done..|]. intros [Hq Hok]%Hno. split; [done|]. intros Hall.
       destruct Hok as [? [=]]. apply Hall, elem_of_cons. by left. }
  destruct (Hes es eq_refl) as [Hpre (qs & Hqs & Hperm & HQ)].
  destruct (IH Hnd ltac:(intros e' ?; apply Hv, elem_of_cons; by right)
    ltac:(intros e1 e2 x ??; apply Hdisj; apply elem_of_cons; by right) q Hs1) as (r' & q' & Heq' & Hs2 & Hes' & Hno').
  unfold mbind, bounded_bind. rewrite Heq'. destruct r' as [es'|err].
  - exists (Ok (es ++ es')), q'. split_and!; [done..| |].
    + intros es0 [= <-]. destruct (Hes' es' eq_refl) as [Hpre' (qs' & Hqs' & Hperm' & HQ')].
      split; [by intros e' [->|?]%elem_of_cons; auto|]. exists (qs ++ qs'). rewrite map_app. split_and!; [|by rewrite Hperm, Hperm'|].
      * apply NoDup_app. split_and!; [done| |done]. intros x Hx%HQ (e' & He' & Hx')%HQ'.
        assert (e = e') as ->; [|done].
        apply (Hdisj e e' x); [apply elem_of_cons; by left|apply elem_of_cons; by right|done..].
      * intros x. rewrite elem_of_app, HQ, HQ'. split.
        -- intros [?|(e' & ? & ?)]; [exists e|exists e']; rewrite elem_of_cons; auto.
        -- intros (e' & [->|?]%elem_of_cons & ?); eauto.
    + intros [Hq _]%Hno. destruct (Hno' Hq) as [Hq' _]. eauto.
  - exists (Err err), q'. split_and!; [done..|]. intros [Hq _]%Hno. destruct (Hno' Hq) as [Hq' Hok].
    split; [done|]. intros Hall. destruct Hok as [? [=]]. intros e' ?. apply Hall, elem_of_cons. by right.
Qed.

End look.

(** ** Lemmas: the tree below a directory *)

Lemma entry_node (f : gmap apath Node) dir name : node_at f (dir ++ [name]) = f !! (dir ++ [name]).
Proof. by destruct dir. Qed.

Lemma elem_of_entries (f : gmap apath Node) dir e :
  e ∈ entries_of f dir ↔ ∃ name, e = dir ++ [name] ∧ is_Some (f !! e).
Proof.
  unfold entries_of. rewrite list_elem_of_filter, list_elem_of_fmap. split.
  - intros [[<- Hne] ([q n] & -> & Hq%elem_of_map_to_list)]. simpl in *.
    destruct (exists_last Hne) as (l & x & ->). exists x. rewrite removelast_last. by split; [|eexists].
  - intros (name & -> & [n Hn]). rewrite removelast_last. split; [split; [done|by destruct dir]|].
    exists (dir ++ [name], n). by rewrite elem_of_map_to_list.
Qed.

Lemma entries_NoDup (f : gmap apath Node) dir : NoDup (entries_of f dir).
Proof. unfold entries_of. apply NoDup_filter, NoDup_fst_map_to_list. Qed.

Lemma depth_spec (f : gmap apath Node) q : is_Some (f !! q) → (length q ≤ depth f)%nat.
Proof.
  intros [n Hn%elem_of_map_to_list]. unfold depth.
  assert (length q ∈ map (λ x : apath * Node, length x.1) (map_to_list f)) as Hin.
  { apply list_elem_of_fmap. by exists (q, n). }
  induction (map _ _) as [|x l IH]; [by apply elem_of_nil in Hin|].
  simpl. apply elem_of_cons in Hin as [->|Hin]; [lia|]. specialize (IH Hin). lia.
Qed.

(** A non-empty path below a directory starts with an entry of it. *)
Lemma real_directory_below f dir name rest :
  real_directory f (dir ++ name :: rest) → f !! (dir ++ [name]) = Some Directory.
Proof.
  intros Hd. specialize (Hd (length dir) name). rewrite list_lookup_middle in Hd by done. specialize (Hd eq_refl).
  rewrite take_app_ge in Hd by lia. by replace (S (length dir) - length dir)%nat with 1%nat in Hd by lia.
Qed.

Section below.
Context (f : gmap apath Node) (root : apath) (prefix : string).

(** What one entry contributes. *)
Definition from_entry (e q : apath) : Prop :=
  match f !! e with
  | Some Directory => listed f root prefix e q
  | Some (RegularFile _ _) => q = e ∧ ∃ rel, e = root ++ rel ∧ starts_with prefix (join "/" rel) = true
  | _ => False
  end.

Lemma from_entry_prefix e q : from_entry e q → ∃ rest, q = e ++ rest.
Proof.
  unfold from_entry. destruct (f !! e) as [[]|]; try done.
  - intros [-> _]. exists []. by rewrite app_nil_r.
  - intros (rest & _ & _ & _ & -> & _). by exists rest.
Qed.

Lemma listed_entries dir q :
  real_directory f dir → (∃ e, e ∈ entries_of f dir ∧ from_entry e q) ↔ listed f root prefix dir q.
Proof.
  intros Hd. split.
  - intros (e & (name & -> & [n Hn])%elem_of_entries & He). unfold from_entry in He. rewrite Hn in He.
    destruct n as [c m| | |]; try done.
    + destruct He as [-> (rel & Hrel & Hp)]. exists [name], rel, c, m. simpl. by rewrite app_nil_r.
    + destruct He as (rest & rel & c & m & -> & Hne & Hr & Hq & Hrel & Hp). exists (name :: rest), rel, c, m.
      rewrite <-app_assoc in *. split_and!; try done. by destruct rest.
  - intros (rest & rel & c & m & -> & Hne & Hr & Hq & Hrel & Hp). destruct rest as [|name rest]; [done|].
    exists (dir ++ [name]). rewrite elem_of_entries. destruct rest as [|n2 rest].
    + split; [by exists name; split; [|eexists]|]. unfold from_entry. rewrite Hq. eauto.
    + change (removelast (name :: n2 :: rest)) with (name :: removelast (n2 :: rest)) in Hr.
      pose proof (real_directory_below _ _ _ _ Hr) as Hdir. split; [by exists name; split; [|eexists]|].
      unfold from_entry. rewrite Hdir. exists (n2 :: rest), rel, c, m. rewrite <-!app_assoc. by split_and!.
Qed.

End below.

Definition entry_inside (w : World) (allowed : option apath) (e : apath) : Prop :=
  match files w !! e with
  | Some Directory => links_inside w allowed e
  | Some (Symlink _) => link_inside w allowed e
  | _ => True
  end.

Lemma links_inside_entries w allowed dir :
  real_directory (files w) dir →
  (∀ e, e ∈ entries_of (files w) dir → entry_inside w allowed e) ↔ links_inside w allowed dir.
Proof.
  intros Hd. split.
  - intros He rest target Hne Hr Hl. destruct rest as [|name rest]; [done|]. destruct rest as [|n2 rest].
    + specialize (He (dir ++ [name])). rewrite elem_of_entries in He. unfold entry_inside in He.
      rewrite Hl in He. apply He. exists name. by split; [|eexists].
    + change (removelast (name :: n2 :: rest)) with (name :: removelast (n2 :: rest)) in Hr.
      pose proof (real_directory_below _ _ _ _ Hr) as Hdir.
      specialize (He (dir ++ [name])). rewrite elem_of_entries in He. unfold entry_inside in He.
      rewrite Hdir in He. specialize (He ltac:(exists name; by split; [|eexists]) (n2 :: rest) target).
      rewrite <-!app_assoc in He. by apply He.
  - intros Hl e (name & -> & [n Hn])%elem_of_entries. unfold entry_inside. rewrite Hn.
    destruct n as [| |target|]; try done.
    + intros rest target Hne Hr Hq. rewrite <-app_assoc in *. destruct rest as [|n2 rest]; [done|].
      by apply (Hl (name :: n2 :: rest) target).
    + apply (Hl [name] target); [done| |done]. simpl. by rewrite app_nil_r.
Qed.

(** ** Lemmas: visiting *)

Section visiting.
Context (p0 : Process) (root : apath) (allowed : option apath) (prefix : string) (cancelled : bool).
Abbreviation fs := (files (world p0)).

Lemma looks_symlink q :
  looks p0 (visit_symlink allowed q) (λ _, link_inside (world p0) allowed q) (link_inside (world p0) allowed q).
Proof.
  apply (looks_bind p0 _ _ (λ target, follow (world p0) (of_apath q) = Ok target) _ (∃ target, follow (world p0) (of_apath q) = Ok target)).
  - apply looks_io; [intros; by apply follow_ext|done|done].
  - intros target Ht. destruct allowed as [r|].
    + destruct (bool_decide_reflect (r `prefix_of` target)) as [Hp|Hp].
      * unfold path_starts_with. rewrite bool_decide_eq_true_2 by done. apply (looks_of_result p0 (Ok ())); [|by eexists].
        intros _ _. exists target. split; [done|]. by intros ? [= <-].
      * unfold path_starts_with. rewrite bool_decide_eq_false_2 by done. apply looks_of_result; [done|].
        intros (t & Ht' & Hr). destruct Hp. assert (t = target) as -> by congruence. by apply Hr.
    + apply (looks_of_result p0 (Ok ())); [|by eexists]. intros _ _. by exists target.
  - intros (target & Ht & _). eauto.
Qed.

(** An entry of a real directory. *)
Context (dir : apath) (name : string) (Hdir : real_directory fs dir).
Abbreviation e := (dir ++ [name]).

Lemma yields_file c m (pre : Prop) :
  pre → (∃ rel, e = root ++ rel) → fs !! e = Some (RegularFile c m) →
  yields p0 (lift (visit_file root prefix e)) (from_entry fs root prefix e) pre.
Proof.
  intros Hpre [rel Hrel] He.
  assert (∀ q, from_entry fs root prefix e q ↔ q = e ∧ starts_with prefix (join "/" rel) = true) as HQ.
  { intros q. unfold from_entry. rewrite He. split; [|by intros [-> ?]; eauto].
    intros [-> (rel' & Hrel' & Hp)]. assert (rel' = rel) as -> by (by eapply (app_inv_head root); congruence). done. }
  assert (follow (world p0) (of_apath e) = Ok e) as Hf.
  { apply follow_canonical. right. by exists dir, name, (RegularFile c m). }
  assert (looks p0 (visit_file root prefix e)
    (λ es, es = if starts_with prefix (join "/" rel) then map (describe fs) [e] else []) True) as Hl.
  { unfold visit_file. apply (looks_bind p0 _ _ (λ x, x = rel) _ True); [| |done].
    { apply looks_of_result; rewrite (proj2 (strip_prefix_Some e root rel) Hrel); [by intros a [= <-]|by eexists]. }
    intros ? ->. destruct (starts_with _ _).
    2: { apply (looks_of_result p0 (Ok [])); [by intros a [= <-]|by eexists]. }
    apply (looks_bind p0 _ _ (λ md, md = describe fs e) _ True); [| |done].
    - apply (looks_bind p0 _ _ (λ node, node = RegularFile c m) _ True); [| |done].
      + apply looks_io; [intros; by apply fs_metadata_ext| |]; rewrite Hf; cbn [mbind result_bind];
          rewrite entry_node, He; [by intros a [= <-]|by eexists].
      + intros node ->. apply (looks_of_result p0 (Ok _)); [|by eexists]. intros a [= <-]. unfold describe. by rewrite He.
    - intros md ->. apply (looks_of_result p0 (Ok [_])); [by intros a [= <-]|by eexists]. }
  intros p Hs. destruct (Hl p Hs) as (Hs1 & HP & Hno). unfold lift.
  destruct (visit_file root prefix e p) as [r q]. simpl in *. exists r, q. split_and!; [done..| |].
  - intros es Hes. split; [done|]. rewrite (HP es Hes). destruct (starts_with _ _) eqn:Hp.
    + exists [e]. split_and!; [by apply NoDup_singleton|done|]. intros x. rewrite list_elem_of_singleton, HQ. tauto.
    + exists []. split_and!; [by constructor|done|]. intros x. rewrite elem_of_nil, HQ. split; [done|by intros []].
  - intros [Hq Hok]%Hno. split; [done|]. intros _. by apply Hok.
Qed.

Lemma yields_entry visit n :
  fs !! e = Some n → (∃ rel, e = root ++ rel) → cancelled = false →
  (n = Directory → yields p0 (visit e) (listed fs root prefix e) (links_inside (world p0) allowed e)) →
  yields p0 (visit_entry root allowed prefix cancelled visit e) (from_entry fs root prefix e)
    (entry_inside (world p0) allowed e).
Proof.
  intros He Hrel -> Hrec. unfold visit_entry.
  apply (yields_bind p0 _ _ (λ _, True) _ True); [by apply looks_of_result; [|by eexists]| |done]. intros _ _.
  apply (yields_bind p0 _ _ (λ _, True) _ True); [by apply looks_io; [..|by eexists]| |done]. intros _ _.
  apply (yields_bind p0 _ _ (λ t, t = n) _ True); [| |done].
  { apply looks_io; [intros v w -> _; done| |]; rewrite entry_node, He; [by intros a [= <-]|by eexists]. }
  intros ? ->. unfold entry_inside. rewrite He. destruct n as [c m| |target|].
  - by eapply yields_file.
  - eapply yields_ext; [by apply Hrec| |done]. intros q. unfold from_entry. by rewrite He.
  - eapply yields_bind; [apply looks_symlink| |done]. intros ? Hin. apply yields_nil; [done|].
    intros q. unfold from_entry. rewrite He. by intros [].
  - apply yields_nil; [done|]. intros q. unfold from_entry. rewrite He. by intros [].
Qed.

End visiting.

Lemma yields_directory p0 root allowed prefix cancelled fuel : ∀ dir,
  real_directory (files (world p0)) dir → node_at (files (world p0)) dir = Some Directory →
  (∃ rel, dir = root ++ rel) → (depth (files (world p0)) < length dir + fuel)%nat →
  yields p0 (visit_directory root allowed prefix cancelled fuel dir) (listed (files (world p0)) root prefix dir)
    (cancelled = false ∧ links_inside (world p0) allowed dir).
Proof.
  induction fuel as [|fuel IH]; intros dir Hd Hn [rel Hrel] Hfuel; cbn [visit_directory].
  { exfalso. destruct dir as [|x dir]; [simpl in Hfuel; lia|]. cbn [node_at] in Hn.
    pose proof (depth_spec _ (x :: dir) ltac:(by eexists)). lia. }
  apply (yields_bind p0 _ _ (λ _, cancelled = false) _ (cancelled = false)); [| |by intros []].
  { apply looks_of_result; unfold check; destruct cancelled; try done. by eexists. }
  intros _ Hcan.
  apply (yields_bind p0 _ _ (λ es, es = entries_of (files (world p0)) dir) _ True); [| |done].
  { apply looks_io; [by intros v w -> _| |]; rewrite Hn; [by intros a [= <-]|by eexists]. }
  intros ? ->. eapply yields_ext.
  - apply (yields_entries p0 _ (from_entry (files (world p0)) root prefix) (entry_inside (world p0) allowed)).
    + apply entries_NoDup.
    + intros e He. apply elem_of_entries in He as (name & -> & [n He]).
      eapply (yields_entry p0 root allowed prefix cancelled dir name Hd); [exact He| |done|].
      * exists (rel ++ [name]). by rewrite Hrel, app_assoc.
      * intros ->. eapply yields_ext; [apply IH| done| tauto].
        -- by apply real_directory_snoc.
        -- by rewrite entry_node.
        -- exists (rel ++ [name]). by rewrite Hrel, app_assoc.
        -- rewrite length_app. simpl. lia.
    + intros e e' q (n & -> & _)%elem_of_entries (n' & -> & _)%elem_of_entries He He'.
      apply from_entry_prefix in He as [r ->], He' as [r' Heq]. rewrite <-!app_assoc in Heq.
      apply app_inv_head in Heq. by injection Heq as ->.
  - intros q. by apply listed_entries.
  - rewrite <-links_inside_entries by done. tauto.
Qed.

(** ** Lemmas: a whole listing *)

(** Where the allowed root of a location is. *)
Definition allowed_path (w : World) (l : ObjectLocation) : option apath :=
  root ← allowed_root l;
  match follow w (walked root) with Ok q => Some q | Err _ => None end.

(** What a listing needs of the files: the location is a directory, and the
    links below it stay inside the allowed root. *)
Definition listable (w : World) (l : ObjectLocation) (root : apath) : Prop :=
  located w l root ∧ node_at (files w) root = Some Directory ∧ links_inside w (allowed_path w l) root.

Lemma looks_canonical_allowed_root p0 l o :
  looks p0 (canonical_allowed_root l o)
    (λ a, a = allowed_path (world p0) l ∧
      ∀ root, allowed_root l = Some root → ∃ rq, follow (world p0) (walked root) = Ok rq ∧ a = Some rq)
    (∀ root, allowed_root l = Some root → ∃ rq, follow (world p0) (walked root) = Ok rq).
Proof.
  unfold canonical_allowed_root, allowed_path. destruct (allowed_root l) as [root|].
  2: { apply (looks_of_result p0 (Ok None)); [by intros a [= <-]|by eexists]. }
  apply (looks_bind p0 _ _ (λ x, follow (world p0) (walked root) = Ok x) _ (∃ x, follow (world p0) (walked root) = Ok x)).
  - apply looks_io; [intros; by apply follow_ext|done|done].
  - intros rq Hrq. apply (looks_of_result p0 (Ok _)); [|by eexists]. intros a [= <-]. cbn [mbind option_bind].
    rewrite Hrq. split; [done|]. intros ? [= <-]. by exists rq.
  - intros Hr. by apply Hr.
Qed.

Lemma looks_resolve_existing p0 l o :
  looks p0 (resolve_existing l o) (located (world p0) l) (∃ q, located (world p0) l q).
Proof.
  set (inside q := ∀ root, allowed_root l = Some root → ∃ rq, follow (world p0) (walked root) = Ok rq ∧ rq `prefix_of` q).
  apply (looks_bind p0 _ _ (λ q, follow (world p0) (walked (location_key l)) = Ok q) _
    (∃ q, follow (world p0) (walked (location_key l)) = Ok q)).
  - apply looks_io; [intros; by apply follow_ext|done|done].
  - intros q Hq. apply (looks_bind p0 _ _ (λ _, inside q) _ (inside q)).
    + eapply looks_bind; [apply looks_canonical_allowed_root| |].
      2: { intros Hin root Hroot. destruct (Hin root Hroot) as (rq & ? & _). by exists rq. }
      intros a [Ha Hroot]. destruct a as [r|].
      * unfold path_starts_with. destruct (bool_decide_reflect (r `prefix_of` q)) as [Hp|Hp].
        -- apply (looks_of_result p0 (Ok ())); [|by eexists]. intros _ _ root Hr.
           destruct (Hroot root Hr) as (rq & Hrq & [= ->]). by exists rq.
        -- apply looks_of_result; [done|]. intros Hin. destruct Hp. unfold allowed_path in Ha.
           destruct (allowed_root l) as [root|] eqn:Hr; [|done]. destruct (Hin root eq_refl) as (rq & Hrq & Hp).
           destruct (Hroot root eq_refl) as (rq' & Hrq' & [= ->]). congruence.
      * apply (looks_of_result p0 (Ok ())); [|by eexists]. intros _ _ root Hr. by destruct (Hroot root Hr) as (? & _ & [=]).
    + intros _ Hin. apply (looks_of_result p0 (Ok q)); [|by eexists]. intros ? [= <-]. by split.
    + intros (q' & Hq' & Hin). assert (q' = q) as -> by congruence. exact Hin.
  - intros (q & Hq & _). by exists q.
Qed.

(** [is_dir] forgets the error of its system call. *)
Lemma yields_is_dir p0 q e k Q (pre : Prop) :
  canonical (files (world p0)) q → (node_at (files (world p0)) q = Some Directory → yields p0 k Q pre) →
  (pre → node_at (files (world p0)) q = Some Directory) →
  yields p0 (dir ← lift (is_dir q); if negb dir then lift (of_result (Err e)) else k) Q pre.
Proof.
  intros Hcan Hk Hpre p Hs. unfold mbind at 1, bounded_bind at 1, lift at 1, is_dir, mbind, native_bind, fs_metadata.
  pose proof (quiet_attempt (λ w, q ← follow w (of_apath q); ok_or (node_at (files w) q) io.NotFound) p) as Hq.
  destruct (attempt _ p) as [r p1] eqn:Hat. simpl in Hq. assert (same p0 p1) as Hs1 by by etransitivity.
  assert (files (world p) = files (world p0)) as Hf by (by destruct Hs).
  assert (follow (world p) (of_apath q) = Ok q) as Hfol by (apply follow_canonical; by rewrite Hf).
  assert (∃ x, r = Ok x ∧ (x = Ok Directory → node_at (files (world p0)) q = Some Directory) ∧
    (faults (world p) = [] → p1 = p ∧ (node_at (files (world p0)) q = Some Directory → x = Ok Directory))) as (x & -> & Hx & Hno).
  { unfold attempt in Hat. destruct (looking _ (world p)) as [r0 w0] eqn:Hl. injection Hat as <- <-. exists r0.
    split_and!; [done| |].
    - intros ->. apply looking_Ok in Hl as (_ & _ & _ & v & Hv & Hc & _ & Hl).
      rewrite (fs_metadata_ext q v (world p) Hv Hc), Hfol in Hl. cbn [mbind result_bind] in Hl.
      apply ok_or_Ok in Hl. by rewrite <-Hf.
    - intros Hno. unfold looking, syscall in Hl. rewrite Hno, Hfol in Hl. injection Hl as <- <-. split; [by destruct p|].
      cbn [mbind result_bind]. rewrite Hf. by intros ->. }
  cbn [mret native_ret]. assert (x = Ok Directory ∨ x ≠ Ok Directory) as [->|Hne] by (destruct x as [[]|]; auto).
  - destruct (Hk (Hx eq_refl) p1 Hs1) as (r & p' & Heq & Hs' & Hes & Hno'). exists r, p'. split_and!; [done..|].
    intros Hnf. destruct (Hno Hnf) as [Heq1 _]. apply Hno'. by rewrite Heq1.
  - exists (Err e), p1. split_and!; [destruct x as [[]|]; first [done|congruence]|done|done|].
    intros Hnf. destruct (Hno Hnf) as [-> Hd]. split; [done|]. by intros []%Hpre%Hd%Hne.
Qed.

Lemma yields_list p0 l prefix cancelled fuel :
  real_directory (files (world p0)) (cwd (world p0)) → (depth (files (world p0)) < fuel)%nat →
  yields p0 (list_objects fuel l prefix cancelled)
    (λ q, ∃ root, located (world p0) l root ∧ listed (files (world p0)) root prefix root q)
    (cancelled = false ∧ validate_prefix prefix = Ok () ∧ ∃ root, listable (world p0) l root).
Proof.
  intros Hcwd Hfuel. unfold list_objects.
  apply (yields_bind p0 _ _ (λ _, cancelled = false) _ (cancelled = false)); [| |by intros []].
  { apply looks_of_result; unfold check; destruct cancelled; try done. by eexists. }
  intros _ Hcan.
  apply (yields_bind p0 _ _ (λ _, validate_prefix prefix = Ok ()) _ (validate_prefix prefix = Ok ())); [| |tauto].
  { apply looks_of_result; [by intros []|]. intros ->. by eexists. }
  intros _ Hval.
  apply (yields_bind p0 _ _ (located (world p0) l) _ (∃ q, located (world p0) l q)).
  { apply looks_resolve_existing. }
  2: { intros (_ & _ & root & Hl & _). by exists root. }
  intros root Hloc. assert (∀ root', located (world p0) l root' → root' = root) as Huniq.
  { intros root' Hl. by eapply located_unique. }
  assert (real_directory (files (world p0)) root ∨ node_at (files (world p0)) root ≠ Some Directory) as Hreal.
  { destruct (located_canonical _ _ _ Hcwd Hloc) as [|(d & name & n & -> & _ & Hn & Hnode)]; [by left|right].
    rewrite entry_node, Hn. intros [= ->]. done. }
  apply yields_is_dir; [by eapply located_canonical| |].
  2: { intros (_ & _ & root' & Hl & Hd & _). by rewrite <-(Huniq root' Hl). }
  intros Hdir. destruct Hreal as [Hreal|]; [|done].
  apply (yields_bind p0 _ _ (λ a, a = allowed_path (world p0) l) _ True); [| |done].
  { eapply looks_weaken; [apply looks_canonical_allowed_root|by intros ? []|].
    intros _ r Hr. destruct Hloc as [_ Hin]. destruct (Hin r Hr) as (rq & ? & _). by exists rq. }
  intros ? ->. apply yields_sorted. eapply yields_ext.
  - apply (yields_directory p0 root (allowed_path (world p0) l) prefix cancelled fuel root); try done; [|lia].
    exists []. by rewrite app_nil_r.
  - intros q. split; [by exists root|]. intros (root' & Hl & Hq). by rewrite <-(Huniq root' Hl).
  - split.
    + intros [_ Hl]. split_and!; [done..|]. by exists root.
    + intros (_ & _ & root' & Hl & _ & Hin). by rewrite <-(Huniq root' Hl).
Qed.

Lemma bounded_bind_inv {A B} (m : bounded A) (f : A → bounded B) p b p' :
  (m ≫= f) p = Some (Ok b, p') → ∃ a q, m p = Some (Ok a, q) ∧ f a q = Some (Ok b, p').
Proof. unfold mbind, bounded_bind. destruct (m p) as [[[a|e] q]|]; naive_solver. Qed.

Lemma list_objects_sorted fuel l prefix cancelled p es p' :
  list_objects fuel l prefix cancelled p = Some (Ok es, p') →
  StronglySorted (λ a b, String.leb (path a) (path b)) es.
Proof.
  unfold list_objects. intros (? & ? & _ & H)%bounded_bind_inv. apply bounded_bind_inv in H as (? & ? & _ & H).
  apply bounded_bind_inv in H as (? & ? & _ & H). apply bounded_bind_inv in H as (dir & ? & _ & H).
  destruct dir; [|done]. apply bounded_bind_inv in H as (? & ? & _ & H). apply bounded_bind_inv in H as (? & ? & _ & [= <- _]).
  apply StronglySorted_merge_sort.
  - intros a b c. apply string_leb_trans.
  - intros a b. apply string_leb_total.
Qed.

(** ** Properties *)

(** C13: a listing ends, within as many levels as the files are deep, and
    changes nothing.  It succeeds when no system call fails, the location is a
    directory and no symbolic link below it is broken or leads out of the
    allowed root, and only then; what it returns is exactly the regular files
    below the directory whose relative path starts with the prefix, each once,
    with its size and modification time, in the order of their paths. *)
Theorem list_exact l prefix cancelled p fuel :
  real_directory (files (world p)) (cwd (world p)) → (depth (files (world p)) < fuel)%nat →
  ∃ r p', list_objects fuel l prefix cancelled p = Some (r, p') ∧ same p p' ∧
    (∀ entries, r = Ok entries →
      cancelled = false ∧ validate_prefix prefix = Ok () ∧
      StronglySorted (λ a b, String.leb (path a) (path b)) entries ∧
      ∃ root qs, listable (world p) l root ∧ NoDup qs ∧
        entries ≡ₚ map (describe (files (world p))) qs ∧
        ∀ q, q ∈ qs ↔ listed (files (world p)) root prefix root q) ∧
    (∀ root, faults (world p) = [] → cancelled = false → validate_prefix prefix = Ok () →
      listable (world p) l root → ∃ entries, r = Ok entries).
Proof.
  intros Hcwd Hfuel.
  destruct (yields_list p l prefix cancelled fuel Hcwd Hfuel p (reflexivity p)) as (r & p' & Heq & Hs & Hes & Hno).
  exists r, p'. split_and!; [done..| |].
  - intros entries ->. destruct (Hes entries eq_refl) as [(Hc & Hv & root & Hl) (qs & Hnd & Hperm & HQ)].
    split_and!; [done..|by eapply list_objects_sorted|]. exists root, qs. split_and!; [done..|].
    intros q. rewrite HQ. split; [|intros Hq; by exists root; split; [destruct Hl|]].
    intros (root' & Hloc & Hq). destruct Hl as [Hl _]. by rewrite <-(located_unique _ _ _ _ Hloc Hl).
  - intros root Hnf Hc Hv Hl. apply (Hno Hnf). eauto.
Qed.

(** ** Witnesses *)

(** A writer's staging file is listed while it is being written. *)
Example list_shows_staging :
  option_map fst (list_objects (listing_fuel sample_written) (sample_location "/data") "" false sample_written) =
  Some (Ok [mkObjectMetadata "/data/.out.parquex-7-0.tmp" 2 (Some 9); mkObjectMetadata "/data/a" 5 (Some 5)]).
Proof. vm_compute. reflexivity. Qed.

(** An empty prefix, one that is a file, one that is neither. *)
Example list_samples :
  map (λ prefix, option_map fst (store_list (H := NoS3) 3 sample_store prefix sample_stores)) [""; "a"; "lin"; "../data"]%string =
  [Some (Ok [mkStoreMetadata "a" 5 (Some 5)]); Some (Ok [mkStoreMetadata "a" 5 (Some 5)]); Some (Ok []);
   Some (Err (NativeFailure_invalid StoreOpen "object key must be a normalized relative path"))].
Proof. vm_compute. reflexivity. Qed.

Lemma list_exact_witness :
  ∃ p', list_objects 3 (sample_location "/data") "a" false sample_process =
    Some (Ok [mkObjectMetadata "/data/a" 5 (Some 5)], p') ∧ same sample_process p' ∧
    ∃ root (qs : list apath), listable (world sample_process) (sample_location "/data") root ∧
      ∀ q, q ∈ qs ↔ listed sample_files root "a" root q.
Proof.
  destruct (list_exact (sample_location "/data") "a" false sample_process 3) as (r & p' & Heq & Hs & Hes & _);
    [apply real_directory_nil|vm_compute; lia|].
  assert (r = Ok [mkObjectMetadata "/data/a" 5 (Some 5)]) as ->.
  { assert (Some r = option_map fst (list_objects 3 (sample_location "/data") "a" false sample_process)) as Hr
      by by rewrite Heq.
    vm_compute in Hr. by injection Hr as ->. }
  exists p'. split; [exact Heq|]. split; [exact Hs|].
  destruct (Hes _ eq_refl) as (_ & _ & _ & root & qs & Hl & _ & _ & HQ). exists root, qs. split; [exact Hl|exact HQ].
Defined.
