(* ===== verification/Arrow.v ===== *)
(** * Arrow: arrays and record batches, as the reader uses them

    The reader calls the [arrow] crates to look at the values of a column, to
    filter a batch by a mask and to project its columns.  [Arrow] lists those
    calls, [ArrowLaws] states their documented behaviour through the rows a
    batch stands for, and [MemoryArrow] is a small instance for examples. *)
From S2P Require Import Prelude Floats Schema.

(** ** The interface *)

(** The array types the predicate code downcasts to, each with the type its
    iterator yields. *)
Inductive ArrayType : Set → Type :=
  | Int8Type : ArrayType Z
  | Int16Type : ArrayType Z
  | Int32Type : ArrayType Z
  | Int64Type : ArrayType Z
  | UInt8Type : ArrayType Z
  | UInt16Type : ArrayType Z
  | UInt32Type : ArrayType Z
  | UInt64Type : ArrayType Z
  | Float32Type : ArrayType f32
  | Float64Type : ArrayType f64
  | StringArray : ArrayType string
  | LargeStringArray : ArrayType string
  | BooleanArray : ArrayType bool.

(** A cell of a batch: of a float the number, whatever its format.  [Other] is
    a value of a type no predicate reads. *)
Inductive Value : Set :=
  | VNull
  | VInteger (z : Z)
  | VFloat (f : spec_float)
  | VUtf8 (s : string)
  | VBoolean (b : bool)
  | VOther (contents : string).

Definition to_value {T} (t : ArrayType T) : option T → Value :=
  match t in ArrayType T return option T → Value with
  | Int8Type | Int16Type | Int32Type | Int64Type
  | UInt8Type | UInt16Type | UInt32Type | UInt64Type => λ o, from_option VInteger VNull o
  | Float32Type => λ o, from_option (VFloat ∘ number) VNull o
  | Float64Type => λ o, from_option (VFloat ∘ number) VNull o
  | StringArray | LargeStringArray => λ o, from_option VUtf8 VNull o
  | BooleanArray => λ o, from_option VBoolean VNull o
  end.

Definition array_data_type {T} (t : ArrayType T) : arrow.DataType :=
  match t with
  | Int8Type => arrow.Int8 | Int16Type => arrow.Int16
  | Int32Type => arrow.Int32 | Int64Type => arrow.Int64
  | UInt8Type => arrow.UInt8 | UInt16Type => arrow.UInt16
  | UInt32Type => arrow.UInt32 | UInt64Type => arrow.UInt64
  | Float32Type => arrow.Float32 | Float64Type => arrow.Float64
  | StringArray => arrow.Utf8 | LargeStringArray => arrow.LargeUtf8
  | BooleanArray => arrow.Boolean
  end.

Class Arrow := {
  ArrayRef : Type;
  RecordBatch : Type;
  downcast_ref {T} : ArrayType T → ArrayRef → option (list (option T));
  num_rows : RecordBatch → nat;
  num_columns : RecordBatch → nat;
  column : RecordBatch → nat → run ArrayRef;
  filter_record_batch : RecordBatch → list (option bool) → option RecordBatch;
  project : RecordBatch → list nat → option RecordBatch;
  get_array_memory_size : RecordBatch → Z;
  (** [size_of::<RecordBatch>()]. *)
  record_batch_size : Z;
}.

(** ** The laws *)

Abbreviation row := (list Value).
Definition cell (r : row) (i : nat) : Value := nth i r VNull.
Definition cells (idx : list nat) (r : row) : row := map (cell r) idx.

(** The rows a mask keeps: those at [Some true]. *)
Fixpoint keep (mask : list (option bool)) (rs : list row) : list row :=
  match mask, rs with
  | m :: mask, r :: rs => if bool_decide (m = Some true) then r :: keep mask rs else keep mask rs
  | _, _ => []
  end.

Class ArrowLaws `(Arrow) := {
  data_type : ArrayRef → arrow.DataType;
  values : ArrayRef → list Value;
  batch_types : RecordBatch → list arrow.DataType;
  rows : RecordBatch → list row;
  num_rows_rows b : num_rows b = length (rows b);
  num_columns_types b : num_columns b = length (batch_types b);
  rows_width b : Forall (λ r, length r = num_columns b) (rows b);
  downcast_same {T} (t : ArrayType T) a :
    data_type a = array_data_type t →
    ∃ l, downcast_ref t a = Some l ∧ values a = map (to_value t) l;
  downcast_other {T} (t : ArrayType T) a :
    data_type a ≠ array_data_type t → downcast_ref t a = None;
  column_returns b i t : batch_types b !! i = Some t →
    ∃ a, column b i = Returned a ∧ data_type a = t ∧ values a = map (λ r, cell r i) (rows b);
  filter_keeps b mask : length mask = num_rows b →
    ∃ b', filter_record_batch b mask = Some b' ∧
      batch_types b' = batch_types b ∧ rows b' = keep mask (rows b);
  project_cells b idx : Forall (λ i, (i < num_columns b)%nat) idx →
    ∃ b', project b idx = Some b' ∧
      batch_types b' = map (λ i, nth i (batch_types b) arrow.Null) idx ∧
      rows b' = map (cells idx) (rows b);
  memory_size_nonneg b : 0 ≤ get_array_memory_size b;
}.

(** ** Lemmas on rows *)

Lemma keep_filter (p : row → bool) mask rs :
  Forall2 (λ m r, p r = bool_decide (m = Some true)) mask rs → keep mask rs = List.filter p rs.
Proof.
  induction 1 as [|m r mask rs Hp _ IH]; simpl; [done|].
  rewrite Hp, IH. by destruct (bool_decide _).
Qed.

Lemma cell_lookup r i v : r !! i = Some v → cell r i = v.
Proof.
  intros Hi. unfold cell. revert i Hi. induction r as [|w r IH]; intros [|i] Hi; simplify_eq/=; eauto.
Qed.

Lemma cells_seq r n : length r = n → cells (seq 0 n) r = r.
Proof.
  intros <-. apply list_eq. intros i. unfold cells. rewrite list_lookup_fmap.
  destruct (decide (i < length r)%nat) as [Hi|Hi].
  - rewrite lookup_seq_lt by done. simpl. destruct (lookup_lt_is_Some_2 r i Hi) as [v Hv].
    by rewrite Hv, (cell_lookup r i v Hv).
  - rewrite lookup_seq_ge, lookup_ge_None_2 by lia. done.
Qed.

Lemma cell_cells r idx k i : idx !! k = Some i → cell (cells idx r) k = cell r i.
Proof. intros Hk. apply cell_lookup. unfold cells. by rewrite list_lookup_fmap, Hk. Qed.

(** Projecting twice: positions into the first list of indices. *)
Lemma cells_cells r idx ks js :
  Forall2 (λ k j, idx !! k = Some j) ks js → cells ks (cells idx r) = cells js r.
Proof.
  induction 1 as [|k j ks js Hk _ IH]; [done|]. unfold cells in *. simpl. rewrite IH. f_equal.
  by apply cell_cells.
Qed.

Lemma filter_map {A B} (f : A → B) (p : B → bool) l :
  List.filter p (map f l) = map f (List.filter (λ x, p (f x)) l).
Proof. induction l as [|x l IH]; simpl; [done|]. rewrite IH. by destruct (p (f x)). Qed.

Lemma filter_ext_in {A} (p q : A → bool) l :
  Forall (λ x, p x = q x) l → List.filter p l = List.filter q l.
Proof. induction 1 as [|x l Hx _ IH]; simpl; [done|]. by rewrite Hx, IH. Qed.

Lemma filter_none {A} (p : A → bool) l : Forall (λ x, p x = false) l → List.filter p l = [].
Proof. induction 1 as [|x l Hx _ IH]; simpl; [done|]. by rewrite Hx. Qed.

(** ** An in-memory instance (whose reported sizes stop at one page) *)

Record MemoryArray : Set := mkMemoryArray { memory_type : arrow.DataType; memory_cells : list Value }.
Record MemoryBatch : Set := mkMemoryBatch { memory_types : list arrow.DataType; memory_table : list row }.

Definition from_value {T} (t : ArrayType T) : Value → option T :=
  match t in ArrayType T return Value → option T with
  | Int8Type | Int16Type | Int32Type | Int64Type
  | UInt8Type | UInt16Type | UInt32Type | UInt64Type =>
      λ v, match v with VInteger z => Some z | _ => None end
  | Float32Type => λ v, match v with VFloat f => float_of 24 128 f | _ => None end
  | Float64Type => λ v, match v with VFloat f => float_of 53 1024 f | _ => None end
  | StringArray | LargeStringArray => λ v, match v with VUtf8 s => Some s | _ => None end
  | BooleanArray => λ v, match v with VBoolean b => Some b | _ => None end
  end.

Definition has_type {T} (t : ArrayType T) (d : arrow.DataType) : bool :=
  match t, d with
  | Int8Type, arrow.Int8 | Int16Type, arrow.Int16 | Int32Type, arrow.Int32
  | Int64Type, arrow.Int64 | UInt8Type, arrow.UInt8 | UInt16Type, arrow.UInt16
  | UInt32Type, arrow.UInt32 | UInt64Type, arrow.UInt64
  | Float32Type, arrow.Float32 | Float64Type, arrow.Float64
  | StringArray, arrow.Utf8 | LargeStringArray, arrow.LargeUtf8
  | BooleanArray, arrow.Boolean => true
  | _, _ => false
  end.

(** A cell as a column of a type holds it: null where the type cannot. *)
Definition conform (d : arrow.DataType) (v : Value) : Value :=
  match d with
  | arrow.Int8 | arrow.Int16 | arrow.Int32 | arrow.Int64
  | arrow.UInt8 | arrow.UInt16 | arrow.UInt32 | arrow.UInt64 =>
      match v with VInteger _ => v | _ => VNull end
  | arrow.Float32 => match v with VFloat f => if valid_binary 24 128 f then v else VNull | _ => VNull end
  | arrow.Float64 => match v with VFloat f => if valid_binary 53 1024 f then v else VNull | _ => VNull end
  | arrow.Utf8 | arrow.LargeUtf8 => match v with VUtf8 _ => v | _ => VNull end
  | arrow.Boolean => match v with VBoolean _ => v | _ => VNull end
  | _ => match v with VOther _ => v | _ => VNull end
  end.

Definition conform_row (ds : list arrow.DataType) (r : row) : row :=
  imap (λ i d, conform d (cell r i)) ds.

Definition MemoryArrow : Arrow := {|
  ArrayRef := MemoryArray;
  RecordBatch := MemoryBatch;
  downcast_ref T t a :=
    if has_type t (memory_type a) then Some (map (from_value t) (memory_cells a)) else None;
  num_rows b := length (memory_table b);
  num_columns b := length (memory_types b);
  column b i :=
    d ← index (memory_types b) i;
    Returned (mkMemoryArray d (map (λ r, cell r i) (memory_table b)));
  filter_record_batch b mask :=
    if bool_decide (length mask = length (memory_table b))
    then Some (mkMemoryBatch (memory_types b) (keep mask (memory_table b))) else None;
  project b idx :=
    if forallb (λ i, (i <? length (memory_types b))%nat) idx
    then Some (mkMemoryBatch (map (λ i, nth i (memory_types b) arrow.Null) idx)
                (map (cells idx) (memory_table b)))
    else None;
  get_array_memory_size b := Z.min 4096 (8 * len (memory_table b) * len (memory_types b));
  record_batch_size := 40;
|}.

Lemma has_type_spec {T} (t : ArrayType T) d : has_type t d = true ↔ d = array_data_type t.
Proof. split; [destruct t, d; done|]. intros ->. by destruct t. Qed.

Lemma conform_to_value {T} (t : ArrayType T) v :
  conform (array_data_type t) v = to_value t (from_value t v).
Proof.
  destruct t, v; try done; symmetry.
  - apply (from_float_of 24 128).
  - apply (from_float_of 53 1024).
Qed.

Lemma keep_map (f : row → row) mask rs : keep mask (map f rs) = map f (keep mask rs).
Proof.
  revert rs. induction mask as [|m mask IH]; intros [|r rs]; simpl; try done.
  rewrite IH. by destruct (bool_decide _).
Qed.

Lemma conform_row_cell ds r i d :
  ds !! i = Some d → cell (conform_row ds r) i = conform d (cell r i).
Proof. intros Hi. apply cell_lookup. unfold conform_row. by rewrite list_lookup_imap, Hi. Qed.

Lemma conform_row_cells ds r idx :
  Forall (λ i, (i < length ds)%nat) idx →
  conform_row (map (λ i, nth i ds arrow.Null) idx) (cells idx r) = cells idx (conform_row ds r).
Proof.
  intros Hidx. apply list_eq. intros k. unfold conform_row at 1.
  rewrite list_lookup_imap, list_lookup_fmap. unfold cells at 2. rewrite list_lookup_fmap.
  destruct (idx !! k) as [i|] eqn:Hk; simpl; [|done].
  rewrite Forall_lookup in Hidx. specialize (Hidx k i Hk).
  destruct (lookup_lt_is_Some_2 ds i Hidx) as [d Hd].
  rewrite (conform_row_cell ds r i d Hd), (cell_cells r idx k i Hk). do 2 f_equal.
  apply nth_lookup_Some with (d := arrow.Null) in Hd. exact Hd.
Qed.

Lemma MemoryArrow_laws : ArrowLaws MemoryArrow.
Proof.
  refine {| data_type := λ a : ArrayRef (Arrow := MemoryArrow), memory_type a;
            values := λ a : ArrayRef (Arrow := MemoryArrow),
              map (conform (memory_type a)) (memory_cells a);
            batch_types := λ b : RecordBatch (Arrow := MemoryArrow), memory_types b;
            rows := λ b : RecordBatch (Arrow := MemoryArrow),
              map (conform_row (memory_types b)) (memory_table b) |}; simpl.
  - intros b. by rewrite length_map.
  - done.
  - intros b. rewrite Forall_map. apply Forall_true. intros r. apply length_imap.
  - intros T t a Ha. rewrite (proj2 (has_type_spec t _) Ha). eexists. split; [done|].
    rewrite map_map, Ha. apply map_ext. intros v. apply conform_to_value.
  - intros T t a Ha. destruct (has_type t (memory_type a)) eqn:Ht; [|done].
    by apply has_type_spec in Ht.
  - intros b i t Ht. unfold index. rewrite Ht. simpl. eexists. split_and!; [done..|].
    simpl. rewrite !map_map. apply map_ext. intros r. symmetry. by apply conform_row_cell.
  - intros b mask Hlen. rewrite bool_decide_eq_true_2 by done. eexists. split_and!; [done..|].
    simpl. by rewrite keep_map.
  - intros b idx Hidx.
    assert (forallb (λ i, (i <? length (memory_types b))%nat) idx = true) as ->.
    { apply forallb_forall. intros i Hi. apply Nat.ltb_lt. rewrite List.Forall_forall in Hidx. auto. }
    eexists. split_and!; [done..|]. simpl. rewrite !map_map. apply map_ext. intros r.
    by apply conform_row_cells.
  - intros b. pose proof (len_nonneg (memory_table b)). pose proof (len_nonneg (memory_types b)). lia.
Defined.
