(* ===== verification/Erlang.v ===== *)
(** * Erlang: the terms exchanged with the caller

    The native functions receive and return Erlang terms through the [rustler]
    crate.  [Rustler] lists the conversions the program uses, [RustlerLaws]
    their documented behaviour (a value that was encoded decodes to itself, and
    only an atom decodes as an atom), and [Terms] is an instance. *)
From S2P Require Import Prelude Errors Floats.

(** ** The interface *)

Class Rustler := {
  Term : Type;
  decode_atom : Term → option atom;
  decode_bool : Term → option bool;
  (** The integer type with bounds [lo..=hi]. *)
  decode_integer (lo hi : Z) : Term → option Z;
  decode_f32 : Term → option f32;
  decode_f64 : Term → option f64;
  decode_string : Term → option string;
  decode_binary : Term → option bytes;
  decode_list : Term → option (list Term);
  (** [(Atom, usize, Vec<(String, Term)>)]. *)
  decode_tagged_columns : Term → option (atom * Z * list (string * Term));
  map_get : Term → string → option Term;
  encode_atom : atom → Term;
  encode_bool : bool → Term;
  encode_integer : Z → Term;
  encode_f32 : f32 → Term;
  encode_f64 : f64 → Term;
  encode_string : string → Term;
  (** [OwnedBinary::new], filled and released. *)
  owned_binary : bytes → option Term;
  encode_list : list Term → Term;
  encode_tagged_columns : atom * Z * list (string * Term) → Term;
  map_new : Term;
  map_put : Term → string → Term → option Term;
}.

(** ** The laws *)

Class RustlerLaws `(Rustler) := {
  (** The key-value pairs of a map. *)
  map_of : Term → option (gmap string Term);
  decode_encode_atom a : decode_atom (encode_atom a) = Some a;
  decode_encode_bool b : decode_bool (encode_bool b) = Some b;
  decode_encode_integer lo hi z : lo ≤ z ≤ hi → decode_integer lo hi (encode_integer z) = Some z;
  decode_integer_range lo hi t z : decode_integer lo hi t = Some z → lo ≤ z ≤ hi;
  decode_encode_f32 f : is_finite (number f) = true → decode_f32 (encode_f32 f) = Some f;
  decode_encode_f64 f : is_finite (number f) = true → decode_f64 (encode_f64 f) = Some f;
  decode_encode_string s : decode_string (encode_string s) = Some s;
  decode_owned_binary b t : owned_binary b = Some t → decode_binary t = Some b;
  decode_encode_list ts : decode_list (encode_list ts) = Some ts;
  decode_encode_columns x : 0 ≤ x.1.2 ≤ usize_max → decode_tagged_columns (encode_tagged_columns x) = Some x;
  decode_columns_range t x : decode_tagged_columns t = Some x → 0 ≤ x.1.2 ≤ usize_max;
  atom_of_bool b : decode_atom (encode_bool b) = Some (if b then "true" else "false")%string;
  not_atom_integer z : decode_atom (encode_integer z) = None;
  not_atom_f32 f : is_finite (number f) = true → decode_atom (encode_f32 f) = None;
  not_atom_f64 f : is_finite (number f) = true → decode_atom (encode_f64 f) = None;
  not_atom_string s : decode_atom (encode_string s) = None;
  not_atom_binary b t : owned_binary b = Some t → decode_atom t = None;
  not_atom_list ts : decode_atom (encode_list ts) = None;
  not_atom_map t m : map_of t = Some m → decode_atom t = None;
  map_of_new : map_of map_new = Some ∅;
  map_of_put t m k v : map_of t = Some m →
    ∃ t', map_put t k v = Some t' ∧ map_of t' = Some (<[k := v]> m);
  map_get_of t m k : map_of t = Some m → map_get t k = m !! k;
}.

(** ** An instance: terms as trees *)

Inductive ErlTerm : Set :=
  | EAtom (a : atom)
  | EInteger (z : Z)
  | EFloat (f : f64)
  | EBinary (b : bytes)
  | EList (ts : list ErlTerm)
  | EColumns (tag : atom) (rows : Z) (columns : list (string * ErlTerm))
  | EMap (pairs : list (string * ErlTerm)).

Definition Terms : Rustler := {|
  Term := ErlTerm;
  decode_atom t := match t with EAtom a => Some a | _ => None end;
  decode_bool t :=
    match t with
    | EAtom a => if bool_decide (a = "true"%string) then Some true
                 else if bool_decide (a = "false"%string) then Some false else None
    | _ => None
    end;
  decode_integer lo hi t := match t with EInteger z => try_from lo hi z | _ => None end;
  decode_f32 t := match t with EFloat f => narrow f | _ => None end;
  decode_f64 t := match t with EFloat f => Some f | _ => None end;
  decode_string t := match t with EBinary b => Some (String.string_of_list_byte b) | _ => None end;
  decode_binary t := match t with EBinary b => Some b | _ => None end;
  decode_list t := match t with EList ts => Some ts | _ => None end;
  decode_tagged_columns t :=
    match t with
    | EColumns tag rows columns => if (0 <=? rows) && (rows <=? usize_max) then Some (tag, rows, columns) else None
    | _ => None
    end;
  map_get t k := match t with EMap ps => (list_to_map ps : gmap string ErlTerm) !! k | _ => None end;
  encode_atom := EAtom;
  encode_bool b := EAtom (if b then "true" else "false");
  encode_integer := EInteger;
  encode_f32 f := EFloat (f64_from f);
  encode_f64 := EFloat;
  encode_string s := EBinary (String.list_byte_of_string s);
  owned_binary b := Some (EBinary b);
  encode_list := EList;
  encode_tagged_columns x := let '(tag, rows, columns) := x in EColumns tag rows columns;
  map_new := EMap [];
  map_put t k v := match t with EMap ps => Some (EMap ((k, v) :: ps)) | _ => None end;
|}.

Lemma Terms_laws : RustlerLaws Terms.
Proof.
  refine {| map_of t := match (t : Term (Rustler := Terms)) with
                        | EMap ps => Some (list_to_map ps) | _ => None end |}; simpl; try done.
  - by intros [].
  - intros lo hi z Hz. by apply try_from_in.
  - intros lo hi t w Ht. destruct t; try done. by apply try_from_Some in Ht as [-> ?].
  - intros f _. apply narrow_f64_from.
  - intros s. by rewrite String.string_of_list_byte_of_string.
  - by intros b t [= <-].
  - intros [[tag rows] columns] [H0 H1]. simpl in *.
    by rewrite (proj2 (Z.leb_le _ _) H0), (proj2 (Z.leb_le _ _) H1).
  - intros [] x; try done. destruct (0 <=? rows) eqn:H0, (rows <=? usize_max) eqn:H1; try done.
    intros [= <-]. apply Z.leb_le in H0, H1. by split.
  - by intros b t [= <-].
  - by intros [].
  - intros [] m k v; try done. intros [= <-]. by eexists.
  - intros [] m k; try done. by intros [= <-].
Defined.
