(* ===== verification/ArrayData.v ===== *)
(** * ArrayData: Arrow's builders and arrays, value by value

    The writer fills Arrow array builders from Erlang terms and the reader
    looks the values of arrays up again.  [ArrowData] lists the calls both
    make, [ArrowDataLaws] states their documented behaviour: an array stands
    for a list of [Datum]s, and a builder is in the abstraction relation
    [builder_view] with a [view] of what was appended so far.  [DatumData] is an
    instance that stores the views themselves. *)
From S2P Require Import Prelude Floats Schema Arrow.

(** ** The kinds of arrays and builders *)

(** The concrete array types of the program ([Int8Array], [Int8Builder], ...):
    what [downcast_ref] and [downcast_mut] tell apart. *)
Module kind.
Inductive t : Set :=
  | Null | Boolean
  | Int8 | Int16 | Int32 | Int64 | UInt8 | UInt16 | UInt32 | UInt64
  | Float32 | Float64 | Date32 | Date64
  | Time32Second | Time32Millisecond | Time64Microsecond | Time64Nanosecond
  | TimestampSecond | TimestampMillisecond | TimestampMicrosecond | TimestampNanosecond
  | DurationSecond | DurationMillisecond | DurationMicrosecond | DurationNanosecond
  | Decimal32 | Decimal64 | Decimal128 | Decimal256
  | Utf8 | LargeUtf8 | Binary | LargeBinary | FixedSizeBinary
  | List | LargeList | FixedSizeList | Struct.
End kind.

#[export] Instance kind_eq_dec : EqDecision kind.t.
Proof. solve_decision. Defined.

(** The type of one value of such an array, if it holds values itself. *)
Definition native (k : kind.t) : Set :=
  match k with
  | kind.Null | kind.List | kind.LargeList | kind.FixedSizeList | kind.Struct => Empty_set
  | kind.Boolean => bool
  | kind.Float32 => f32 | kind.Float64 => f64
  | kind.Utf8 | kind.LargeUtf8 => string
  | kind.Binary | kind.LargeBinary | kind.FixedSizeBinary => bytes
  | _ => Z
  end.

(** The array type of a data type; the variants the program never names, and
    times in a unit Arrow does not have, have none. *)
Definition kind_of (d : arrow.DataType) : option kind.t :=
  match d with
  | arrow.Null => Some kind.Null | arrow.Boolean => Some kind.Boolean
  | arrow.Int8 => Some kind.Int8 | arrow.Int16 => Some kind.Int16
  | arrow.Int32 => Some kind.Int32 | arrow.Int64 => Some kind.Int64
  | arrow.UInt8 => Some kind.UInt8 | arrow.UInt16 => Some kind.UInt16
  | arrow.UInt32 => Some kind.UInt32 | arrow.UInt64 => Some kind.UInt64
  | arrow.Float32 => Some kind.Float32 | arrow.Float64 => Some kind.Float64
  | arrow.Utf8 => Some kind.Utf8 | arrow.LargeUtf8 => Some kind.LargeUtf8
  | arrow.Binary => Some kind.Binary | arrow.LargeBinary => Some kind.LargeBinary
  | arrow.FixedSizeBinary _ => Some kind.FixedSizeBinary
  | arrow.Date32 => Some kind.Date32 | arrow.Date64 => Some kind.Date64
  | arrow.Time32 Second => Some kind.Time32Second
  | arrow.Time32 Millisecond => Some kind.Time32Millisecond
  | arrow.Time64 Microsecond => Some kind.Time64Microsecond
  | arrow.Time64 Nanosecond => Some kind.Time64Nanosecond
  | arrow.Time32 _ | arrow.Time64 _ => None
  | arrow.Timestamp Second _ => Some kind.TimestampSecond
  | arrow.Timestamp Millisecond _ => Some kind.TimestampMillisecond
  | arrow.Timestamp Microsecond _ => Some kind.TimestampMicrosecond
  | arrow.Timestamp Nanosecond _ => Some kind.TimestampNanosecond
  | arrow.Duration Second => Some kind.DurationSecond
  | arrow.Duration Millisecond => Some kind.DurationMillisecond
  | arrow.Duration Microsecond => Some kind.DurationMicrosecond
  | arrow.Duration Nanosecond => Some kind.DurationNanosecond
  | arrow.Decimal32 _ _ => Some kind.Decimal32 | arrow.Decimal64 _ _ => Some kind.Decimal64
  | arrow.Decimal128 _ _ => Some kind.Decimal128 | arrow.Decimal256 _ _ => Some kind.Decimal256
  | arrow.List _ => Some kind.List | arrow.LargeList _ => Some kind.LargeList
  | arrow.FixedSizeList _ _ => Some kind.FixedSizeList
  | arrow.Struct _ => Some kind.Struct
  | arrow.Unlisted _ => None
  end.

(** ** Values *)

Inductive Datum : Set :=
  | DNull
  | DBoolean (b : bool)
  | DInteger (z : Z)
  | DFloat (f : spec_float)
  | DUtf8 (s : string)
  | DBytes (b : bytes)
  | DList (l : list Datum)
  | DStruct (l : list Datum).

Definition is_DNull (x : Datum) : bool := match x with DNull => true | _ => false end.

Definition datum (k : kind.t) : native k → Datum :=
  match k return native k → Datum with
  | kind.Null | kind.List | kind.LargeList | kind.FixedSizeList | kind.Struct => λ x, match x with end
  | kind.Boolean => DBoolean
  | kind.Float32 => λ x, DFloat (number x) | kind.Float64 => λ x, DFloat (number x)
  | kind.Utf8 | kind.LargeUtf8 => DUtf8
  | kind.Binary | kind.LargeBinary | kind.FixedSizeBinary => DBytes
  | _ => DInteger
  end.

Definition i8_bounds : Z * Z := (-128, 127).
Definition i16_bounds : Z * Z := (-32768, 32767).
Definition i32_bounds : Z * Z := (i32_min, i32_max).
Definition i64_bounds : Z * Z := (i64_min, i64_max).
Definition i128_bounds : Z * Z := (i128_min, i128_max).
Definition i256_bounds : Z * Z := (i256_min, i256_max).
Definition u8_bounds : Z * Z := (0, 255).
Definition u16_bounds : Z * Z := (0, 65535).
Definition u32_bounds : Z * Z := (0, u32_max).
Definition u64_bounds : Z * Z := (0, u64_max).

(** The bounds of the native integers. *)
Definition bounds (k : kind.t) : Z * Z :=
  match k with
  | kind.Int8 => i8_bounds | kind.Int16 => i16_bounds
  | kind.UInt8 => u8_bounds | kind.UInt16 => u16_bounds
  | kind.UInt32 => u32_bounds | kind.UInt64 => u64_bounds
  | kind.Int32 | kind.Date32 | kind.Time32Second | kind.Time32Millisecond | kind.Decimal32 => i32_bounds
  | kind.Decimal128 => i128_bounds
  | kind.Decimal256 => i256_bounds
  | _ => i64_bounds
  end.

(** The values other than null an array of a type holds itself. *)
Definition scalar (d : arrow.DataType) (x : Datum) : bool :=
  match d, kind_of d, x with
  | arrow.FixedSizeBinary n, _, DBytes b => len b =? n
  | _, Some kind.Float32, DFloat f => valid_binary 24 128 f
  | _, Some kind.Float64, DFloat f => valid_binary 53 1024 f
  | _, Some kind.Boolean, DBoolean _
  | _, Some (kind.Utf8 | kind.LargeUtf8), DUtf8 _
  | _, Some (kind.Binary | kind.LargeBinary), DBytes _ => true
  | _, Some (kind.Null | kind.Boolean | kind.Float32 | kind.Float64 | kind.Utf8 | kind.LargeUtf8
             | kind.Binary | kind.LargeBinary | kind.FixedSizeBinary
             | kind.List | kind.LargeList | kind.FixedSizeList | kind.Struct), _ => false
  | _, Some k, DInteger z => ((bounds k).1 <=? z) && (z <=? (bounds k).2)
  | _, _, _ => false
  end.

(** The values of a column of a type. *)
Fixpoint typed (d : arrow.DataType) (nullable : bool) (x : Datum) {struct d} : bool :=
  match x with
  | DNull => nullable
  | _ =>
      match d, x with
      | arrow.List (arrow.mkField _ d n), DList l
      | arrow.LargeList (arrow.mkField _ d n), DList l => forallb (typed d n) l
      | arrow.FixedSizeList (arrow.mkField _ d n) length, DList l => (len l =? length) && forallb (typed d n) l
      | arrow.Struct fields, DStruct l =>
          (fix go fields l {struct fields} : bool :=
             match fields, l with
             | [], [] => true
             | arrow.mkField _ d n :: fields, x :: l => typed d n x && go fields l
             | _, _ => false
             end) fields l
      | _, _ => scalar d x
      end
  end.

Definition typed_field (f : arrow.Field) (x : Datum) : bool :=
  typed (arrow.field_data_type f) (arrow.is_nullable f) x.

(** The types builders exist for; the length of a fixed list is an [i32]. *)
Fixpoint supported (d : arrow.DataType) : bool :=
  match d with
  | arrow.FixedSizeBinary n => 0 <? n
  | arrow.List (arrow.mkField _ d _) | arrow.LargeList (arrow.mkField _ d _) => supported d
  | arrow.FixedSizeList (arrow.mkField _ d _) n => (0 <? n) && (n <=? i32_max) && supported d
  | arrow.Struct fields => forallb (λ f, match f with arrow.mkField _ d _ => supported d end) fields
  | _ => bool_decide (is_Some (kind_of d))
  end.

(** ** Builders *)

(** What was appended to a builder: for a list the elements of its child not
    yet part of a list start at [start]; a structure's children are filled
    side by side. *)
Inductive view : Set :=
  | VLeaf (d : arrow.DataType) (items : list Datum)
  | VList (d : arrow.DataType) (items : list Datum) (start : nat) (child : view)
  | VStruct (fields : list arrow.Field) (items : list Datum) (children : list view).

Definition items (v : view) : list Datum :=
  match v with VLeaf _ l | VList _ l _ _ | VStruct _ l _ => l end.
Definition view_type (v : view) : arrow.DataType :=
  match v with VLeaf d _ | VList d _ _ _ => d | VStruct fields _ _ => arrow.Struct fields end.

Fixpoint empty_view (d : arrow.DataType) : view :=
  match d with
  | arrow.List (arrow.mkField _ e _) | arrow.LargeList (arrow.mkField _ e _)
  | arrow.FixedSizeList (arrow.mkField _ e _) _ => VList d [] 0 (empty_view e)
  | arrow.Struct fields =>
      VStruct fields [] (map (λ f, match f with arrow.mkField _ e _ => empty_view e end) fields)
  | _ => VLeaf d []
  end.

(** Offsets into bytes and children are [i32] or [i64]. *)
Definition offset_max (k : kind.t) : option Z :=
  match k with
  | kind.Utf8 | kind.Binary | kind.List => Some i32_max
  | kind.LargeUtf8 | kind.LargeBinary | kind.LargeList => Some i64_max
  | _ => None
  end.

Definition fits (d : arrow.DataType) (n : Z) : bool :=
  match kind_of d ≫= offset_max with Some m => n <=? m | None => true end.

Definition text_size (x : Datum) : Z :=
  match x with DUtf8 s => Z.of_nat (String.length s) | DBytes b => len b | _ => 0 end.
Definition text_sizes (l : list Datum) : Z := foldr (λ x n, text_size x + n) 0 l.

(** One more list, and one more structure. *)
Definition closed_list (items : list Datum) (start : nat) (child : view) (valid : bool) : Datum :=
  if valid then DList (drop start (ArrayData.items child)) else DNull.
Definition closed_struct (children : list view) (valid : bool) : Datum :=
  if valid then DStruct (map (λ c, default DNull (last (items c))) children) else DNull.

(** A builder between two rows: every element of a child belongs to a row. *)
Fixpoint complete (d : arrow.DataType) (v : view) {struct d} : Prop :=
  match d, v with
  | arrow.List (arrow.mkField _ e _), VList d' _ start child
  | arrow.LargeList (arrow.mkField _ e _), VList d' _ start child =>
      d' = d ∧ start = length (items child) ∧ complete e child
  | arrow.FixedSizeList (arrow.mkField _ e _) n, VList d' l start child =>
      d' = d ∧ start = length (items child) ∧ len (items child) = n * len l ∧ complete e child
  | arrow.Struct fields, VStruct fields' l children =>
      fields' = fields ∧
      (fix go fields children {struct fields} : Prop :=
         match fields, children with
         | [], [] => True
         | arrow.mkField _ e _ :: fields, c :: children =>
             length (items c) = length l ∧ complete e c ∧ go fields children
         | _, _ => False
         end) fields children
  | (arrow.List _ | arrow.LargeList _ | arrow.FixedSizeList _ _ | arrow.Struct _), _ => False
  | _, VLeaf d' _ => d' = d
  | _, _ => False
  end.

(** ** The interface *)

Class ArrowData `{Arrow} := {
  (** Builders.  A builder of the wrong kind is never asked: [builder_is] is
      the [downcast_mut] before each call.  [list_builder_values] and
      [field_builders] are mutable borrows, so that each comes with the update
      of the parent; an append panics when an offset overflows. *)
  ArrayBuilder : Type;
  make_builder : arrow.DataType → Z → run ArrayBuilder;
  builder_is : kind.t → ArrayBuilder → bool;
  builder_append_null : ArrayBuilder → run ArrayBuilder;
  builder_append_value (k : kind.t) : native k → ArrayBuilder → run ArrayBuilder;
  (** [FixedSizeBinaryBuilder::append_value]. *)
  fixed_append_value : bytes → ArrayBuilder → option ArrayBuilder;
  list_builder_values : ArrayBuilder → ArrayBuilder;
  with_list_builder_values : ArrayBuilder → ArrayBuilder → ArrayBuilder;
  (** [append(valid)] of the list and the structure builders. *)
  list_append : bool → ArrayBuilder → run ArrayBuilder;
  field_builders : ArrayBuilder → list ArrayBuilder;
  with_field_builders : ArrayBuilder → list ArrayBuilder → ArrayBuilder;
  struct_append : bool → ArrayBuilder → run ArrayBuilder;
  builder_finish : ArrayBuilder → run ArrayRef;
  (** Arrays and batches. *)
  array_data_type : ArrayRef → arrow.DataType;
  array_len : ArrayRef → nat;
  array_is_null : ArrayRef → nat → run bool;
  array_is : kind.t → ArrayRef → bool;
  array_value (k : kind.t) : ArrayRef → nat → run (native k);
  array_list_value : ArrayRef → nat → run ArrayRef;
  struct_columns : ArrayRef → list ArrayRef;
  batch_schema : RecordBatch → list arrow.Field;
  batch_columns : RecordBatch → list ArrayRef;
  batch_try_new : list arrow.Field → list ArrayRef → option RecordBatch;
  (** [arrow_buffer::i256]: its [FromStr] and [Display]. *)
  parse_i256 : string → option Z;
  display_i256 : Z → string;
}.

(** ** The laws *)

Definition element_type (d : arrow.DataType) : option arrow.DataType :=
  match d with
  | arrow.List f | arrow.LargeList f | arrow.FixedSizeList f _ => Some (arrow.field_data_type f)
  | _ => None
  end.

(** A column of a batch belongs to its field. *)
Definition column_of (t : arrow.DataType) (l : list Datum) (f : arrow.Field) : Prop :=
  t = arrow.field_data_type f ∧ Forall (λ x, typed_field f x = true) l.

Class ArrowDataLaws `(ArrowData) := {
  builder_view : ArrayBuilder → view → Prop;
  contents : ArrayRef → list Datum;
  make_builder_view d n : supported d = true →
    ∃ b, make_builder d n = Returned b ∧ builder_view b (empty_view d);
  builder_is_view b v k : builder_view b v → builder_is k b = bool_decide (kind_of (view_type v) = Some k);
  append_null_view b d l : builder_view b (VLeaf d l) →
    ∃ b', builder_append_null b = Returned b' ∧ builder_view b' (VLeaf d (l ++ [DNull]));
  append_value_view b d l k x : builder_view b (VLeaf d l) → kind_of d = Some k →
    if fits d (text_sizes (l ++ [datum k x]))
    then ∃ b', builder_append_value k x b = Returned b' ∧ builder_view b' (VLeaf d (l ++ [datum k x]))
    else builder_append_value k x b = Panicked;
  fixed_append_view b n l x : builder_view b (VLeaf (arrow.FixedSizeBinary n) l) →
    if len x =? n
    then ∃ b', fixed_append_value x b = Some b' ∧ builder_view b' (VLeaf (arrow.FixedSizeBinary n) (l ++ [DBytes x]))
    else fixed_append_value x b = None;
  list_values_view b d l start child : builder_view b (VList d l start child) →
    builder_view (list_builder_values b) child ∧
    ∀ b' child', builder_view b' child' →
      builder_view (with_list_builder_values b b') (VList d l start child');
  list_append_view b d l start child valid : builder_view b (VList d l start child) →
    if fits d (len (items child))
    then ∃ b', list_append valid b = Returned b' ∧
      builder_view b' (VList d (l ++ [closed_list l start child valid]) (length (items child)) child)
    else list_append valid b = Panicked;
  field_builders_view b fs l children : builder_view b (VStruct fs l children) →
    Forall2 builder_view (field_builders b) children ∧
    ∀ bs children', Forall2 builder_view bs children' → length children' = length children →
      builder_view (with_field_builders b bs) (VStruct fs l children');
  struct_append_view b fs l children valid : builder_view b (VStruct fs l children) →
    ∃ b', struct_append valid b = Returned b' ∧
      builder_view b' (VStruct fs (l ++ [closed_struct children valid]) children);
  finish_view b v d : builder_view b v → supported d = true → complete d v → Forall (λ x, typed d true x = true) (items v) →
    ∃ a, builder_finish b = Returned a ∧ array_data_type a = d ∧ contents a = items v;
  contents_len a : array_len a = length (contents a);
  contents_typed a : Forall (λ x, typed (array_data_type a) true x = true) (contents a);
  (** A null array has no null mask. *)
  is_null_contents a i x : contents a !! i = Some x →
    array_is_null a i = Returned (is_DNull x && negb (bool_decide (kind_of (array_data_type a) = Some kind.Null)));
  array_is_type a k : array_is k a = bool_decide (kind_of (array_data_type a) = Some k);
  array_value_contents a i x k : contents a !! i = Some x → x ≠ DNull → scalar (array_data_type a) x = true →
    kind_of (array_data_type a) = Some k → ∃ y, array_value k a i = Returned y ∧ datum k y = x;
  list_value_contents a i l e : contents a !! i = Some (DList l) → element_type (array_data_type a) = Some e →
    ∃ a', array_list_value a i = Returned a' ∧ array_data_type a' = e ∧ contents a' = l;
  struct_columns_contents a fs : array_data_type a = arrow.Struct fs →
    Forall2 (λ f c, array_data_type c = arrow.field_data_type f) fs (struct_columns a) ∧
    ∀ i l, contents a !! i = Some (DStruct l) → Forall2 (λ c x, contents c !! i = Some x) (struct_columns a) l;
  batch_columns_schema b :
    Forall2 (λ f c, array_data_type c = arrow.field_data_type f) (batch_schema b) (batch_columns b);
  batch_columns_len b : Forall (λ c, array_len c = num_rows b) (batch_columns b);
  try_new_columns fs arrays n : fs ≠ [] →
    Forall2 (λ f c, column_of (array_data_type c) (contents c) f ∧ array_len c = n) fs arrays →
    ∃ b, batch_try_new fs arrays = Some b ∧ batch_schema b = fs ∧ batch_columns b = arrays ∧ num_rows b = n;
  try_new_empty : batch_try_new [] [] = None;
  parse_i256_range s z : parse_i256 s = Some z → i256_min ≤ z ≤ i256_max;
  parse_display_i256 z : i256_min ≤ z ≤ i256_max → parse_i256 (display_i256 z) = Some z;
}.

(** ** An instance: builders that are their views, arrays that are lists *)

Record DatumArray : Set := mkDatumArray { datum_type : arrow.DataType; datum_list : list Datum }.
Record DatumBatch : Set := mkDatumBatch { datum_fields : list arrow.Field; datum_columns : list DatumArray }.

Definition datum_rows (b : DatumBatch) : nat :=
  match datum_columns b with [] => 0 | c :: _ => length (datum_list c) end.

Fixpoint keep_data (mask : list (option bool)) (l : list Datum) : list Datum :=
  match mask, l with
  | m :: mask, x :: l => if bool_decide (m = Some true) then x :: keep_data mask l else keep_data mask l
  | _, _ => []
  end.

Definition value_of_datum (x : Datum) : Value :=
  match x with
  | DNull => VNull | DBoolean b => VBoolean b | DInteger z => VInteger z
  | DFloat f => VFloat f | DUtf8 s => VUtf8 s | _ => VOther ""
  end.

Definition normalize (d : arrow.DataType) (x : Datum) : Datum := if typed d true x then x else DNull.
Definition datum_contents (a : DatumArray) : list Datum := map (normalize (datum_type a)) (datum_list a).

(** The columns of a batch, made to fit its fields and its number of rows. *)
Definition fitted_columns (b : DatumBatch) : list DatumArray :=
  imap (λ i f, mkDatumArray (arrow.field_data_type f)
    (resize (datum_rows b) DNull (from_option datum_list [] (datum_columns b !! i)))) (datum_fields b).

(** A batch of columns of one length, which keeps it without columns. *)
Definition with_rows (fields : list arrow.Field) (n : nat) (columns : list DatumArray) : DatumBatch :=
  mkDatumBatch fields (match columns with [] => [mkDatumArray arrow.Null (repeat DNull n)] | _ => columns end).

Definition DatumArrow : Arrow := {|
  ArrayRef := DatumArray;
  RecordBatch := DatumBatch;
  downcast_ref T t a :=
    if has_type t (datum_type a)
    then Some (map (λ x, from_value t (value_of_datum x)) (datum_contents a)) else None;
  num_rows := datum_rows;
  num_columns b := length (datum_fields b);
  column b i := index (fitted_columns b) i;
  filter_record_batch b mask :=
    if bool_decide (length mask = datum_rows b)
    then Some (with_rows (datum_fields b) (length (keep_data mask (repeat DNull (datum_rows b))))
      (map (λ c, mkDatumArray (datum_type c) (keep_data mask (datum_list c))) (fitted_columns b)))
    else None;
  project b idx :=
    fields ← mapM (λ i, datum_fields b !! i) idx;
    columns ← mapM (λ i, fitted_columns b !! i) idx;
    Some (with_rows fields (datum_rows b) columns);
  get_array_memory_size b := 8 * Z.of_nat (datum_rows b) * len (datum_columns b);
  record_batch_size := 40;
|}.

(** The native value of a datum, if it is one of the kind. *)
Definition native_of (k : kind.t) : Datum → option (native k) :=
  match k return Datum → option (native k) with
  | kind.Null | kind.List | kind.LargeList | kind.FixedSizeList | kind.Struct => λ _, None
  | kind.Boolean => λ x, match x with DBoolean b => Some b | _ => None end
  | kind.Float32 => λ x, match x with DFloat f => float_of 24 128 f | _ => None end
  | kind.Float64 => λ x, match x with DFloat f => float_of 53 1024 f | _ => None end
  | kind.Utf8 | kind.LargeUtf8 => λ x, match x with DUtf8 s => Some s | _ => None end
  | kind.Binary | kind.LargeBinary | kind.FixedSizeBinary => λ x, match x with DBytes b => Some b | _ => None end
  | _ => λ x, match x with DInteger z => Some z | _ => None end
  end.

Definition DatumData : ArrowData (H := DatumArrow) := {|
  ArrayBuilder := view;
  make_builder d _ := if supported d then Returned (empty_view d) else Panicked;
  builder_is k v := bool_decide (kind_of (view_type v) = Some k);
  builder_append_null v :=
    match v with VLeaf d l => Returned (VLeaf d (l ++ [DNull])) | _ => Panicked end;
  builder_append_value k x v :=
    match v with
    | VLeaf d l => if fits d (text_sizes (l ++ [datum k x])) then Returned (VLeaf d (l ++ [datum k x])) else Panicked
    | _ => Panicked
    end;
  fixed_append_value x v :=
    match v with
    | VLeaf (arrow.FixedSizeBinary n) l =>
        if len x =? n then Some (VLeaf (arrow.FixedSizeBinary n) (l ++ [DBytes x])) else None
    | _ => None
    end;
  list_builder_values v := match v with VList _ _ _ child => child | v => v end;
  with_list_builder_values v child := match v with VList d l start _ => VList d l start child | v => v end;
  list_append valid v :=
    match v with
    | VList d l start child =>
        if fits d (len (items child))
        then Returned (VList d (l ++ [closed_list l start child valid]) (length (items child)) child) else Panicked
    | _ => Panicked
    end;
  field_builders v := match v with VStruct _ _ children => children | _ => [] end;
  with_field_builders v children := match v with VStruct fs l _ => VStruct fs l children | v => v end;
  struct_append valid v :=
    match v with
    | VStruct fs l children => Returned (VStruct fs (l ++ [closed_struct children valid]) children)
    | _ => Panicked
    end;
  builder_finish v := Returned (mkDatumArray (view_type v) (items v) : ArrayRef (Arrow := DatumArrow));
  array_data_type := datum_type;
  array_len a := length (datum_list a);
  array_is_null a i :=
    x ← index (datum_contents a) i;
    Returned (is_DNull x && negb (bool_decide (kind_of (datum_type a) = Some kind.Null)));
  array_is k a := bool_decide (kind_of (datum_type a) = Some k);
  array_value k a i := x ← index (datum_contents a) i; expect (native_of k x);
  array_list_value a i :=
    x ← index (datum_contents a) i;
    match x, element_type (datum_type a) with
    | DList l, Some e => Returned (mkDatumArray e l : ArrayRef (Arrow := DatumArrow))
    | _, _ => Panicked
    end;
  struct_columns a :=
    match datum_type a with
    | arrow.Struct fs =>
        imap (λ j f, mkDatumArray (arrow.field_data_type f)
          (map (λ x, match x with DStruct l => nth j l DNull | _ => DNull end) (datum_contents a))) fs
    | _ => []
    end : list (ArrayRef (Arrow := DatumArrow));
  batch_schema := datum_fields;
  batch_columns := fitted_columns;
  batch_try_new fs arrays :=
    match fs with [] => None | _ => Some (mkDatumBatch fs arrays : RecordBatch (Arrow := DatumArrow)) end;
  parse_i256 := parse_signed i256_min i256_max;
  display_i256 := to_string;
|}.

(** ** Lemmas on types *)

Ltac by_type d := destruct d; try match goal with f : arrow.Field |- _ => destruct f end.

Lemma typed_nullable d n x : typed d n x = true → typed d true x = true.
Proof. destruct d, x; simpl; done. Qed.

Lemma typed_not_null d n n' x : x ≠ DNull → typed d n x = typed d n' x.
Proof. destruct d, x; simpl; done. Qed.

Fixpoint typed_fields (fields : list arrow.Field) (l : list Datum) : bool :=
  match fields, l with
  | [], [] => true
  | f :: fields, x :: l => typed_field f x && typed_fields fields l
  | _, _ => false
  end.

Lemma typed_struct fields n l : typed (arrow.Struct fields) n (DStruct l) = typed_fields fields l.
Proof.
  simpl. revert l. induction fields as [|[m d b] fields IH]; intros [|x l]; try done. simpl. by rewrite IH.
Qed.

Lemma typed_fields_Forall2 fields l :
  typed_fields fields l = true ↔ Forall2 (λ f x, typed_field f x = true) fields l.
Proof.
  revert l. induction fields as [|f fields IH]; intros [|x l]; simpl.
  - by split.
  - split; [done|by inversion 1].
  - split; [done|by inversion 1].
  - rewrite andb_true_iff, IH. split; [intros []; by constructor|by inversion 1].
Qed.

Lemma typed_elements d n l e :
  typed d n (DList l) = true → element_type d = Some e → ∃ b, forallb (typed e b) l = true.
Proof.
  by_type d; simpl; intros Ht; try done; intros [= <-]; eexists; try done.
  by apply andb_true_iff in Ht as [_ ?].
Qed.

Lemma complete_type d v : complete d v → view_type v = d.
Proof.
  by_type d; destruct v; simpl; try done; naive_solver.
Qed.

Lemma complete_struct fields fields' l children :
  complete (arrow.Struct fields) (VStruct fields' l children) ↔
  fields' = fields ∧
  Forall2 (λ f c, length (items c) = length l ∧ complete (arrow.field_data_type f) c) fields children.
Proof.
  simpl. apply and_iff_compat_l. clear fields'. revert children.
  induction fields as [|[m e b] fields IH]; intros [|c children]; simpl.
  - by split.
  - split; [done|by inversion 1].
  - split; [done|by inversion 1].
  - rewrite IH. split; [intros (? & ? & ?); by constructor|inversion 1; naive_solver].
Qed.

(** The types whose builder has no child. *)
Definition flat (d : arrow.DataType) : bool :=
  match d with
  | arrow.List _ | arrow.LargeList _ | arrow.FixedSizeList _ _ | arrow.Struct _ => false
  | _ => bool_decide (is_Some (kind_of d))
  end.

Lemma complete_flat d v : flat d = true → complete d v ↔ ∃ l, v = VLeaf d l.
Proof. destruct d; try done; destruct v; simpl; naive_solver. Qed.

(** ** Lemmas: the laws of the instance *)

Lemma normalize_typed d x : typed d true x = true → normalize d x = x.
Proof. unfold normalize. by intros ->. Qed.

Lemma normalize_all d l : Forall (λ x, typed d true x = true) l → map (normalize d) l = l.
Proof. induction 1 as [|x l Hx _ IH]; [done|]. simpl. by rewrite normalize_typed, IH. Qed.

Lemma datum_contents_typed a : Forall (λ x, typed (datum_type a) true x = true) (datum_contents a).
Proof.
  unfold datum_contents. apply Forall_map, Forall_true. intros x. unfold normalize.
  destruct (typed (datum_type a) true x) eqn:Hx; [done|]. by destruct (datum_type a).
Qed.

Lemma datum_contents_lookup a i x : datum_contents a !! i = Some x → typed (datum_type a) true x = true.
Proof. intros Hx. exact (proj1 (Forall_lookup _ _) (datum_contents_typed a) i x Hx). Qed.

Lemma scalar_native d k x : scalar d x = true → kind_of d = Some k → ∃ y, native_of k x = Some y ∧ datum k y = x.
Proof.
  intros Hs Hk. destruct d; simpl in Hk;
    repeat match type of Hk with context [match ?u with _ => _ end] => destruct u end; simplify_eq;
    destruct x; try done; try by eexists.
  all: destruct (float_of_valid _ _ _ Hs) as (y & Hy & <-); by exists y.
Qed.

Lemma datum_struct_columns a fs i l :
  datum_type a = arrow.Struct fs → datum_contents a !! i = Some (DStruct l) →
  Forall2 (λ c x, datum_contents c !! i = Some x) (struct_columns (ArrowData := DatumData) a) l.
Proof.
  intros Ht Hi. pose proof (datum_contents_lookup a i _ Hi) as Hty. rewrite Ht, typed_struct in Hty.
  apply typed_fields_Forall2 in Hty. simpl. rewrite Ht. apply Forall2_same_length_lookup_2.
  { rewrite length_imap. by apply Forall2_length in Hty. }
  intros j c x Hc Hx. rewrite list_lookup_imap in Hc. destruct (fs !! j) as [f|] eqn:Hf; [|done].
  injection Hc as <-. unfold datum_contents at 1. simpl. rewrite !list_lookup_fmap, Hi. simpl. f_equal.
  rewrite (nth_lookup_Some _ _ _ _ Hx). apply normalize_typed.
  eapply typed_nullable. exact (Forall2_lookup_lr _ _ _ _ _ _ Hty Hf Hx).
Qed.

Lemma fitted_columns_new fs arrays n :
  fs ≠ [] →
  Forall2 (λ f c, datum_type c = arrow.field_data_type f ∧ length (datum_list c) = n) fs arrays →
  datum_rows (mkDatumBatch fs arrays) = n ∧ fitted_columns (mkDatumBatch fs arrays) = arrays.
Proof.
  intros Hne Hall.
  assert (datum_rows (mkDatumBatch fs arrays) = n) as Hn.
  { destruct Hall as [|f c fs arrays [_ Hc] _]; [done|]. by unfold datum_rows. }
  split; [done|]. unfold fitted_columns. rewrite Hn. apply list_eq. intros i.
  rewrite list_lookup_imap. simpl. destruct (fs !! i) as [f|] eqn:Hf.
  - destruct (Forall2_lookup_l _ _ _ _ _ Hall Hf) as (c & Hc & Ht & Hl). rewrite Hc. simpl. f_equal.
    rewrite resize_all_alt by done. rewrite <-Ht. by destruct c.
  - simpl. symmetry. apply lookup_ge_None. apply lookup_ge_None in Hf. apply Forall2_length in Hall. lia.
Qed.

Lemma DatumData_laws : ArrowDataLaws DatumData.
Proof.
  refine {| builder_view := (λ (b : ArrayBuilder (ArrowData := DatumData)) v, @eq view b v); contents := datum_contents : ArrayRef (Arrow := DatumArrow) → _ |}; simpl.
  - intros d n ->. by eexists.
  - by intros b v k ->.
  - intros b d l ->. by eexists.
  - intros b d l k x -> _. destruct (fits d _); [by eexists|done].
  - intros b n l x ->. destruct (len x =? n); [by eexists|done].
  - intros b d l start child ->. split; [done|]. by intros b' child' ->.
  - intros b d l start child valid ->. destruct (fits d _); [by eexists|done].
  - intros b fs l children ->. split; [by apply list_eq_Forall2|].
    intros bs children' Hbs%list_eq_Forall2 _. by rewrite Hbs.
  - intros b fs l children valid ->. by eexists.
  - intros b v d -> Hs Hc Hty. eexists. split; [done|]. simpl. rewrite (complete_type d v Hc). split; [done|].
    by apply normalize_all.
  - intros a. unfold datum_contents. by rewrite length_map.
  - intros a. apply datum_contents_typed.
  - intros a i x Hx. unfold index. by rewrite Hx.
  - done.
  - intros a i x k Hx _ Hs Hk. unfold index. rewrite Hx. simpl.
    destruct (scalar_native _ _ _ Hs Hk) as (y & -> & Hy). by exists y.
  - intros a i l e Hx He. unfold index. rewrite Hx. simpl. rewrite He. eexists. split_and!; [done..|].
    unfold datum_contents. simpl. apply normalize_all.
    destruct (typed_elements _ _ _ _ (datum_contents_lookup _ _ _ Hx) He) as [b Hb].
    apply Forall_forall. intros x Hin. apply list_elem_of_In in Hin.
    eapply typed_nullable. exact (proj1 (forallb_forall _ _) Hb x Hin).
  - intros a fs Ht. split; [rewrite Ht|intros i l Hi; by apply (datum_struct_columns a fs)].
    apply Forall2_same_length_lookup_2; [by rewrite length_imap|]. intros j f c Hf Hc.
    rewrite list_lookup_imap, Hf in Hc. by injection Hc as <-.
  - intros b. unfold fitted_columns. apply Forall2_same_length_lookup_2; [by rewrite length_imap|].
    intros j f c Hf Hc. rewrite list_lookup_imap, Hf in Hc. by injection Hc as <-.
  - intros b. unfold fitted_columns. apply Forall_lookup. intros j c Hc.
    rewrite list_lookup_imap in Hc. destruct (datum_fields b !! j); [|done]. injection Hc as <-. simpl.
    by rewrite length_resize.
  - intros fs arrays n Hne Hall. destruct fs as [|f fs]; [done|]. eexists. split_and!; [done..| |].
    + eapply fitted_columns_new; [done|]. eapply Forall2_impl; [exact Hall|]. intros g c [[? _] ?]. by split.
    + eapply fitted_columns_new; [done|]. eapply Forall2_impl; [exact Hall|]. intros g c [[? _] ?]. by split.
  - done.
  - intros s z. apply parse_signed_range.
  - intros z Hz. by apply parse_signed_to_string.
Defined.
