(* ===== verification/DatumRows.v ===== *)
(** * DatumRows: the rows of the batches of [ArrayData]

    The instance of [ArrayData] satisfies the laws the reader relies on as
    well: its batches stand for rows, which masks and projections act on. *)
From S2P Require Import Prelude Floats Schema Arrow ArrayData.

(** ** Tables: columns read across *)

Definition across (n : nat) (columns : list (list Value)) : list row :=
  map (λ k, map (λ l, nth k l VNull) columns) (seq 0 n).

Fixpoint keep_values (mask : list (option bool)) (l : list Value) : list Value :=
  match mask, l with
  | m :: mask, x :: l => if bool_decide (m = Some true) then x :: keep_values mask l else keep_values mask l
  | _, _ => []
  end.

Fixpoint kept (mask : list (option bool)) : nat :=
  match mask with
  | [] => 0
  | m :: mask => (if bool_decide (m = Some true) then 1 else 0) + kept mask
  end.

Lemma across_S n columns :
  across (S n) columns = map (λ l, nth 0 l VNull) columns :: across n (map tail columns).
Proof.
  unfold across. cbn [seq map]. f_equal. rewrite <-seq_shift, map_map. apply map_ext. intros k.
  rewrite map_map. apply map_ext. intros [|v l]; [by destruct k|done].
Qed.

Lemma across_keep mask columns : Forall (λ l, length l = length mask) columns →
  across (kept mask) (map (keep_values mask) columns) = keep mask (across (length mask) columns).
Proof.
  revert columns. induction mask as [|m mask IH]; intros columns Hl; [done|].
  cbn [length]. rewrite across_S. cbn [keep kept].
  assert (Forall (λ l, length l = length mask) (map tail columns)) as Hl'.
  { apply Forall_map. eapply Forall_impl; [exact Hl|]. intros [|v l] Hlen; [done|]. by injection Hlen. }
  specialize (IH _ Hl'). rewrite map_map in IH. case_bool_decide as Hm; cbn [Nat.add].
  - rewrite across_S, <-IH, !map_map. f_equal.
    + apply map_ext_Forall. eapply Forall_impl; [exact Hl|]. intros [|v l] Hlen; [done|].
      simpl. by rewrite bool_decide_eq_true_2.
    + f_equal. apply map_ext_Forall. eapply Forall_impl; [exact Hl|]. intros [|v l] Hlen; [done|].
      simpl. by rewrite bool_decide_eq_true_2.
  - rewrite <-IH. f_equal. apply map_ext_Forall. eapply Forall_impl; [exact Hl|]. intros [|v l] Hlen; [done|].
    simpl. by rewrite bool_decide_eq_false_2.
Qed.

Lemma across_cells n columns idx : Forall (λ i, i < length columns)%nat idx →
  map (cells idx) (across n columns) = across n (map (λ i, nth i columns []) idx).
Proof.
  intros Hidx. unfold across. rewrite map_map. apply map_ext. intros k. unfold cells. rewrite map_map.
  apply map_ext_Forall. eapply Forall_impl; [exact Hidx|]. intros i Hi. unfold cell.
  rewrite (nth_indep _ VNull (nth k [] VNull)) by by rewrite length_map.
  by rewrite (map_nth (λ l, nth k l VNull)).
Qed.

Lemma across_column n columns i l : Forall (λ l, length l = n) columns → columns !! i = Some l →
  map (λ r, cell r i) (across n columns) = l.
Proof.
  intros Hl Hi. rewrite Forall_lookup in Hl. specialize (Hl i l Hi). unfold across. rewrite map_map.
  apply list_eq. intros k. rewrite list_lookup_fmap. destruct (decide (k < n)%nat).
  - rewrite lookup_seq_lt by done. simpl. erewrite (cell_lookup _ i) by by rewrite list_lookup_fmap, Hi.
    destruct (lookup_lt_is_Some_2 l k) as [v Hv]; [lia|]. rewrite Hv. f_equal. by apply nth_lookup_Some.
  - rewrite lookup_seq_ge, lookup_ge_None_2 by lia. done.
Qed.

(** ** The values of a column *)

Definition column_values (a : DatumArray) : list Value := map value_of_datum (datum_contents a).

Lemma length_column_values a : length (column_values a) = length (datum_list a).
Proof. unfold column_values, datum_contents. by rewrite !length_map. Qed.

(** A value of a type survives the look of its array. *)
Lemma to_from_value {T} (t : ArrayType T) x :
  typed (Arrow.array_data_type t) true x = true → to_value t (from_value t (value_of_datum x)) = value_of_datum x.
Proof.
  destruct t, x; simpl; try done; rewrite ?(from_float_of 24 128), ?(from_float_of 53 1024); by intros ->.
Qed.

Lemma keep_data_length mask l : length l = length mask → length (keep_data mask l) = kept mask.
Proof.
  revert l. induction mask as [|m mask IH]; intros [|x l] Hl; try done. simpl. injection Hl as Hl.
  case_bool_decide; simpl; by rewrite IH.
Qed.

Lemma column_values_keep mask t l :
  column_values (mkDatumArray t (keep_data mask l)) = keep_values mask (column_values (mkDatumArray t l)).
Proof.
  unfold column_values, datum_contents. cbn [datum_type datum_list]. revert l.
  induction mask as [|m mask IH]; intros [|x l]; try done. simpl. case_bool_decide; simpl; by rewrite IH.
Qed.

Lemma fitted_columns_shape b i c : fitted_columns b !! i = Some c →
  ∃ f, datum_fields b !! i = Some f ∧ datum_type c = arrow.field_data_type f ∧ length (datum_list c) = datum_rows b.
Proof.
  unfold fitted_columns. rewrite list_lookup_imap. destruct (datum_fields b !! i) as [f|]; [|done].
  intros [= <-]. exists f. split_and!; [done..|]. apply length_resize.
Qed.

Lemma length_fitted_columns b : length (fitted_columns b) = length (datum_fields b).
Proof. apply length_imap. Qed.

(** A batch of columns that fit. *)
Lemma with_rows_fitted fs n columns :
  Forall2 (λ f c, datum_type c = arrow.field_data_type f ∧ length (datum_list c) = n) fs columns →
  datum_rows (with_rows fs n columns) = n ∧ fitted_columns (with_rows fs n columns) = columns.
Proof.
  intros Hall. destruct Hall as [|f c fs columns Hc Hall].
  - split; [|done]. unfold datum_rows, with_rows. cbn [datum_columns datum_list]. apply repeat_length.
  - apply fitted_columns_new; [done|]. by constructor.
Qed.

Definition datum_table (b : DatumBatch) : list row := across (datum_rows b) (map column_values (fitted_columns b)).

Lemma datum_table_with_rows fs n columns :
  Forall2 (λ f c, datum_type c = arrow.field_data_type f ∧ length (datum_list c) = n) fs columns →
  datum_table (with_rows fs n columns) = across n (map column_values columns).
Proof. intros Hall. unfold datum_table. by destruct (with_rows_fitted fs n columns Hall) as [-> ->]. Qed.

Lemma fitted_columns_values b :
  Forall (λ l, length l = datum_rows b) (map column_values (fitted_columns b)).
Proof.
  apply Forall_map, Forall_lookup. intros i c Hc. rewrite length_column_values.
  by destruct (fitted_columns_shape b i c Hc) as (f & _ & _ & ?).
Qed.

(** ** The laws *)

Lemma datum_filter_keeps b mask : length mask = datum_rows b →
  ∃ b', filter_record_batch (Arrow := DatumArrow) b mask = Some b' ∧
    datum_fields b' = datum_fields b ∧ datum_table b' = keep mask (datum_table b).
Proof.
  intros Hlen. cbn [filter_record_batch DatumArrow]. rewrite bool_decide_eq_true_2 by done.
  eexists. split; [done|]. split; [done|].
  rewrite (keep_data_length mask) by by rewrite repeat_length.
  rewrite datum_table_with_rows.
  - rewrite map_map. unfold datum_table. rewrite <-Hlen, <-across_keep.
    + rewrite map_map. f_equal. apply map_ext. intros [t l]. apply column_values_keep.
    + rewrite Hlen. apply fitted_columns_values.
  - apply Forall2_same_length_lookup_2; [by rewrite length_map, length_fitted_columns|].
    intros i f c Hf Hc. apply list_lookup_fmap_Some in Hc as (c0 & -> & Hc0). destruct (fitted_columns_shape b i c0 Hc0) as (f' & Hf' & Ht & Hl). simplify_eq.
    split; [done|]. apply keep_data_length. congruence.
Qed.

Lemma mapM_lookups {A} (d : A) (l : list A) idx : Forall (λ i, i < length l)%nat idx →
  mapM (λ i, l !! i) idx = Some (map (λ i, nth i l d) idx).
Proof.
  intros Hidx. apply mapM_Some. induction Hidx as [|i idx Hi _ IH]; constructor; [|done].
  destruct (lookup_lt_is_Some_2 l i Hi) as [x Hx]. rewrite Hx. f_equal. symmetry. by apply nth_lookup_Some.
Qed.

Lemma datum_project_cells b idx : Forall (λ i, i < length (datum_fields b))%nat idx →
  ∃ b', project (Arrow := DatumArrow) b idx = Some b' ∧
    map arrow.field_data_type (datum_fields b') =
      map (λ i, nth i (map arrow.field_data_type (datum_fields b)) arrow.Null) idx ∧
    datum_table b' = map (cells idx) (datum_table b).
Proof.
  intros Hidx. cbn [project DatumArrow].
  set (f0 := arrow.mkField "" arrow.Null true). set (c0 := mkDatumArray arrow.Null []).
  rewrite (mapM_lookups f0) by done. cbn [mbind option_bind].
  rewrite (mapM_lookups c0) by by rewrite length_fitted_columns. cbn [mbind option_bind].
  eexists. split; [done|]. split.
  - unfold with_rows. cbn [datum_fields]. rewrite map_map. apply map_ext. intros i.
    by rewrite <-(map_nth arrow.field_data_type).
  - rewrite datum_table_with_rows.
    + unfold datum_table. rewrite across_cells by by rewrite length_map, length_fitted_columns.
      f_equal. rewrite map_map. apply map_ext. intros i. by rewrite <-(map_nth column_values).
    + apply Forall2_same_length_lookup_2; [by rewrite !length_map|].
      intros k f c Hf Hc. apply list_lookup_fmap_Some in Hf as (i & -> & Hk).
      apply list_lookup_fmap_Some in Hc as (i' & -> & Hk'). simplify_eq. rewrite Forall_lookup in Hidx. specialize (Hidx k i Hk).
      destruct (lookup_lt_is_Some_2 (fitted_columns b) i) as [c Hc]; [by rewrite length_fitted_columns|].
      destruct (fitted_columns_shape b i c Hc) as (f & Hf & Ht & Hl).
      by rewrite (nth_lookup_Some _ _ _ _ Hf), (nth_lookup_Some _ _ _ _ Hc).
Qed.

Lemma DatumArrow_laws : ArrowLaws DatumArrow.
Proof.
  refine {| data_type := datum_type : ArrayRef (Arrow := DatumArrow) → _;
            values := column_values : ArrayRef (Arrow := DatumArrow) → _;
            batch_types := (λ b, map arrow.field_data_type (datum_fields b)) : RecordBatch (Arrow := DatumArrow) → _;
            rows := datum_table : RecordBatch (Arrow := DatumArrow) → _ |}.
  - intros b. unfold datum_table, across. by rewrite length_map, length_seq.
  - intros b. by rewrite length_map.
  - intros b. unfold datum_table, across. apply Forall_map, Forall_true. intros k.
    by rewrite !length_map, length_fitted_columns.
  - intros T t a Ht. cbn [downcast_ref DatumArrow]. rewrite (proj2 (has_type_spec t _) Ht).
    eexists. split; [done|]. unfold column_values. rewrite map_map. apply map_ext_Forall.
    eapply Forall_impl; [apply datum_contents_typed|]. intros x Hx. rewrite Ht in Hx. symmetry. by apply to_from_value.
  - intros T t a Ht. cbn [downcast_ref DatumArrow]. destruct (has_type t (datum_type a)) eqn:Hh; [|done].
    by apply has_type_spec in Hh.
  - intros b i t Ht. rewrite list_lookup_fmap in Ht. destruct (datum_fields b !! i) as [f|] eqn:Hf; [|done].
    injection Ht as <-. destruct (lookup_lt_is_Some_2 (fitted_columns b) i) as [c Hc].
    { rewrite length_fitted_columns. by apply lookup_lt_Some in Hf. }
    destruct (fitted_columns_shape b i c Hc) as (f' & Hf' & Ht & Hl). simplify_eq.
    exists c. cbn [column DatumArrow]. unfold index. rewrite Hc. split_and!; [done..|].
    symmetry. apply across_column; [apply fitted_columns_values|]. by rewrite list_lookup_fmap, Hc.
  - intros b mask Hlen. destruct (datum_filter_keeps b mask Hlen) as (b' & Hb & Hf & Hr).
    exists b'. split; [done|]. by rewrite Hf.
  - apply datum_project_cells.
  - intros b. cbn [get_array_memory_size DatumArrow]. pose proof (len_nonneg (datum_columns b)). lia.
Defined.
