(* ===== verification/Values.v ===== *)
(** * Values: rows between Erlang terms and Arrow arrays

    Models the value halves of [writer.rs] ([decode_batch], [build_array],
    [append_value] and what they call: terms into array builders) and of
    [reader.rs] ([encode_batch], [encode_array], [encode_value]: arrays into
    terms), over the interfaces [Rustler] and [ArrowData].
    What they do is shown in [BatchDecode] and [BatchEncode]. *)
From S2P Require Import Prelude Errors Floats Schema Arrow Erlang ArrayData.

Definition invalid_batch (message : string) : NativeFailure :=
  NativeFailure_invalid ParquetWriterWrite message.

Section values.
Context `{Rustler} `{ArrowData}.

(** ** From terms to arrays *)

Definition is_nil (term : Term) : bool :=
  match decode_atom term with Some a => bool_decide (a = "nil"%string) | None => false end.

Definition downcast_builder (k : kind.t) (builder : ArrayBuilder) : run (result NativeFailure ()) :=
  Returned (if builder_is k builder then Ok ()
            else Err (NativeFailure_expected ParquetWriterWrite "Arrow builder mismatch")).

(** A call that cannot fail, inside a function that can. *)
Definition infallible {A} (m : run A) : run (result NativeFailure A) := a ← m; Returned (Ok a).

(** The macros [primitive!] and [decimal!]. *)
Definition primitive (k : kind.t) (decode : Term → option (native k)) (builder : ArrayBuilder) (term : Term) :
    run (result NativeFailure ArrayBuilder) :=
  _ ←? downcast_builder k builder;
  if is_nil term then infallible (builder_append_null builder)
  else
    value ←? Returned (ok_or (decode term) (invalid_batch "batch value has the wrong type"));
    infallible (builder_append_value k value builder).

Definition decimal (k : kind.t) (parse : string → option (native k)) (builder : ArrayBuilder) (term : Term) :
    run (result NativeFailure ArrayBuilder) :=
  _ ←? downcast_builder k builder;
  if is_nil term then infallible (builder_append_null builder)
  else
    text ←? Returned (ok_or (decode_string term)
      (invalid_batch "decimal values must be unscaled integer strings"));
    value ←? Returned (ok_or (parse text) (invalid_batch "decimal value is outside its declared width"));
    infallible (builder_append_value k value builder).

(** [string_value] and [binary_value]: a primitive with another message. *)
Definition text_value (k : kind.t) (decode : Term → option (native k)) (message : string)
    (builder : ArrayBuilder) (term : Term) : run (result NativeFailure ArrayBuilder) :=
  _ ←? downcast_builder k builder;
  if is_nil term then infallible (builder_append_null builder)
  else
    value ←? Returned (ok_or (decode term) (invalid_batch message));
    infallible (builder_append_value k value builder).

Definition string_value (k : kind.t) (decode : Term → option (native k)) :=
  text_value k decode "expected a string".
Definition binary_value (k : kind.t) (decode : Term → option (native k)) :=
  text_value k decode "expected a binary".

Definition fixed_binary_value (builder : ArrayBuilder) (term : Term) : run (result NativeFailure ArrayBuilder) :=
  _ ←? downcast_builder kind.FixedSizeBinary builder;
  if is_nil term then infallible (builder_append_null builder)
  else
    value ←? Returned (ok_or (decode_binary term) (invalid_batch "expected a binary"));
    Returned (ok_or (fixed_append_value value builder) (invalid_batch "fixed binary has the wrong length")).

(** [for value in values { append_value(builder.values_mut(), .., value)? }]. *)
Fixpoint append_all {A} (append : ArrayBuilder → A → run (result NativeFailure ArrayBuilder))
    (builder : ArrayBuilder) (values : list A) : run (result NativeFailure ArrayBuilder) :=
  match values with
  | [] => Returned (Ok builder)
  | value :: values =>
      child ←? append (list_builder_values builder) value;
      append_all append (with_list_builder_values builder child) values
  end.

(** [for (child, field) in builder.field_builders_mut().iter_mut().zip(fields)]. *)
Definition append_fields (append : ArrayBuilder → arrow.Field → run (result NativeFailure ArrayBuilder)) :
    list ArrayBuilder → list arrow.Field → run (result NativeFailure (list ArrayBuilder)) :=
  fix go children fields {struct fields} :=
    match children, fields with
    | child :: children, field :: fields =>
        child ←? append child field;
        children ←? go children fields;
        Returned (Ok (child :: children))
    | children, _ => Returned (Ok children)
    end.

(** A null, and for the types whose children keep step, nulls in them. *)
Fixpoint append_null (builder : ArrayBuilder) (data_type : arrow.DataType) {struct data_type} :
    run (result NativeFailure ArrayBuilder) :=
  let flat k := _ ←? downcast_builder k builder; infallible (builder_append_null builder) in
  match data_type with
  | arrow.Null => flat kind.Null
  | arrow.Boolean => flat kind.Boolean
  | arrow.Int8 => flat kind.Int8
  | arrow.Int16 => flat kind.Int16
  | arrow.Int32 => flat kind.Int32
  | arrow.Int64 => flat kind.Int64
  | arrow.UInt8 => flat kind.UInt8
  | arrow.UInt16 => flat kind.UInt16
  | arrow.UInt32 => flat kind.UInt32
  | arrow.UInt64 => flat kind.UInt64
  | arrow.Float32 => flat kind.Float32
  | arrow.Float64 => flat kind.Float64
  | arrow.Utf8 => flat kind.Utf8
  | arrow.LargeUtf8 => flat kind.LargeUtf8
  | arrow.Binary => flat kind.Binary
  | arrow.LargeBinary => flat kind.LargeBinary
  | arrow.FixedSizeBinary _ => flat kind.FixedSizeBinary
  | arrow.Date32 => flat kind.Date32
  | arrow.Date64 => flat kind.Date64
  | arrow.Time32 Second => flat kind.Time32Second
  | arrow.Time32 Millisecond => flat kind.Time32Millisecond
  | arrow.Time64 Microsecond => flat kind.Time64Microsecond
  | arrow.Time64 Nanosecond => flat kind.Time64Nanosecond
  | arrow.Timestamp Second _ => flat kind.TimestampSecond
  | arrow.Timestamp Millisecond _ => flat kind.TimestampMillisecond
  | arrow.Timestamp Microsecond _ => flat kind.TimestampMicrosecond
  | arrow.Timestamp Nanosecond _ => flat kind.TimestampNanosecond
  | arrow.Duration Second => flat kind.DurationSecond
  | arrow.Duration Millisecond => flat kind.DurationMillisecond
  | arrow.Duration Microsecond => flat kind.DurationMicrosecond
  | arrow.Duration Nanosecond => flat kind.DurationNanosecond
  | arrow.Decimal32 _ _ => flat kind.Decimal32
  | arrow.Decimal64 _ _ => flat kind.Decimal64
  | arrow.Decimal128 _ _ => flat kind.Decimal128
  | arrow.Decimal256 _ _ => flat kind.Decimal256
  | arrow.List _ => _ ←? downcast_builder kind.List builder; infallible (list_append false builder)
  | arrow.LargeList _ => _ ←? downcast_builder kind.LargeList builder; infallible (list_append false builder)
  | arrow.FixedSizeList (arrow.mkField _ d _) length =>
      _ ←? downcast_builder kind.FixedSizeList builder;
      builder ←? append_all (λ child _, append_null child d) builder (seq 0 (Z.to_nat length));
      infallible (list_append false builder)
  | arrow.Struct fields =>
      _ ←? downcast_builder kind.Struct builder;
      children ←? append_fields (λ child '(arrow.mkField _ d _), append_null child d) (field_builders builder) fields;
      infallible (struct_append false (with_field_builders builder children))
  | _ => Returned (Err (invalid_batch "nested null padding is unsupported for this type"))
  end.

(** [list_value], given how to append to the child. *)
Definition list_value (k : kind.t) (append : ArrayBuilder → Term → run (result NativeFailure ArrayBuilder))
    (builder : ArrayBuilder) (term : Term) : run (result NativeFailure ArrayBuilder) :=
  _ ←? downcast_builder k builder;
  if is_nil term then infallible (list_append false builder)
  else
    values ←? Returned (ok_or (decode_list term) (invalid_batch "expected a list"));
    builder ←? append_all append builder values;
    infallible (list_append true builder).

Definition fixed_list_value (null : ArrayBuilder → run (result NativeFailure ArrayBuilder))
    (append : ArrayBuilder → Term → run (result NativeFailure ArrayBuilder)) (length : Z)
    (builder : ArrayBuilder) (term : Term) : run (result NativeFailure ArrayBuilder) :=
  _ ←? downcast_builder kind.FixedSizeList builder;
  if is_nil term then
    builder ←? append_all (λ child _, null child) builder (seq 0 (Z.to_nat length));
    infallible (list_append false builder)
  else
    values ←? Returned (ok_or (decode_list term) (invalid_batch "expected a list"));
    if negb (len values =? usize_wrap length) then
      Returned (Err (invalid_batch "fixed list has the wrong length"))
    else
      builder ←? append_all append builder values;
      infallible (list_append true builder).

Definition struct_value (null : ArrayBuilder → arrow.Field → run (result NativeFailure ArrayBuilder))
    (append : ArrayBuilder → arrow.Field → Term → run (result NativeFailure ArrayBuilder))
    (fields : list arrow.Field) (builder : ArrayBuilder) (term : Term) : run (result NativeFailure ArrayBuilder) :=
  _ ←? downcast_builder kind.Struct builder;
  if is_nil term then
    children ←? append_fields null (field_builders builder) fields;
    infallible (struct_append false (with_field_builders builder children))
  else
    children ←? append_fields (λ child field,
      value ←? Returned (ok_or (map_get term (arrow.field_name field)) (invalid_batch "struct field is missing"));
      append child field value) (field_builders builder) fields;
    infallible (struct_append true (with_field_builders builder children)).

Fixpoint append_value (builder : ArrayBuilder) (data_type : arrow.DataType) (nullable : bool) (term : Term)
    {struct data_type} : run (result NativeFailure ArrayBuilder) :=
  if is_nil term && negb nullable then
    Returned (Err (invalid_batch "null value violates a non-nullable field"))
  else
  let integer '(lo, hi) := decode_integer lo hi in
  let parse '(lo, hi) := parse_signed lo hi in
  match data_type with
  | arrow.Null =>
      if negb (is_nil term) then Returned (Err (invalid_batch "null column contains a value"))
      else _ ←? downcast_builder kind.Null builder; infallible (builder_append_null builder)
  | arrow.Boolean => primitive kind.Boolean decode_bool builder term
  | arrow.Int8 => primitive kind.Int8 (integer i8_bounds) builder term
  | arrow.Int16 => primitive kind.Int16 (integer i16_bounds) builder term
  | arrow.Int32 => primitive kind.Int32 (integer i32_bounds) builder term
  | arrow.Int64 => primitive kind.Int64 (integer i64_bounds) builder term
  | arrow.UInt8 => primitive kind.UInt8 (integer u8_bounds) builder term
  | arrow.UInt16 => primitive kind.UInt16 (integer u16_bounds) builder term
  | arrow.UInt32 => primitive kind.UInt32 (integer u32_bounds) builder term
  | arrow.UInt64 => primitive kind.UInt64 (integer u64_bounds) builder term
  | arrow.Float32 => primitive kind.Float32 decode_f32 builder term
  | arrow.Float64 => primitive kind.Float64 decode_f64 builder term
  | arrow.Date32 => primitive kind.Date32 (integer i32_bounds) builder term
  | arrow.Date64 => primitive kind.Date64 (integer i64_bounds) builder term
  | arrow.Time32 Second => primitive kind.Time32Second (integer i32_bounds) builder term
  | arrow.Time32 Millisecond => primitive kind.Time32Millisecond (integer i32_bounds) builder term
  | arrow.Time64 Microsecond => primitive kind.Time64Microsecond (integer i64_bounds) builder term
  | arrow.Time64 Nanosecond => primitive kind.Time64Nanosecond (integer i64_bounds) builder term
  | arrow.Timestamp Second _ => primitive kind.TimestampSecond (integer i64_bounds) builder term
  | arrow.Timestamp Millisecond _ => primitive kind.TimestampMillisecond (integer i64_bounds) builder term
  | arrow.Timestamp Microsecond _ => primitive kind.TimestampMicrosecond (integer i64_bounds) builder term
  | arrow.Timestamp Nanosecond _ => primitive kind.TimestampNanosecond (integer i64_bounds) builder term
  | arrow.Duration Second => primitive kind.DurationSecond (integer i64_bounds) builder term
  | arrow.Duration Millisecond => primitive kind.DurationMillisecond (integer i64_bounds) builder term
  | arrow.Duration Microsecond => primitive kind.DurationMicrosecond (integer i64_bounds) builder term
  | arrow.Duration Nanosecond => primitive kind.DurationNanosecond (integer i64_bounds) builder term
  | arrow.Decimal32 _ _ => decimal kind.Decimal32 (parse i32_bounds) builder term
  | arrow.Decimal64 _ _ => decimal kind.Decimal64 (parse i64_bounds) builder term
  | arrow.Decimal128 _ _ => decimal kind.Decimal128 (parse i128_bounds) builder term
  | arrow.Decimal256 _ _ => decimal kind.Decimal256 parse_i256 builder term
  | arrow.Utf8 => string_value kind.Utf8 decode_string builder term
  | arrow.LargeUtf8 => string_value kind.LargeUtf8 decode_string builder term
  | arrow.Binary => binary_value kind.Binary decode_binary builder term
  | arrow.LargeBinary => binary_value kind.LargeBinary decode_binary builder term
  | arrow.FixedSizeBinary _ => fixed_binary_value builder term
  | arrow.List (arrow.mkField _ d n) =>
      list_value kind.List (λ child value, append_value child d n value) builder term
  | arrow.LargeList (arrow.mkField _ d n) =>
      list_value kind.LargeList (λ child value, append_value child d n value) builder term
  | arrow.FixedSizeList (arrow.mkField _ d n) length =>
      fixed_list_value (λ child, append_null child d) (λ child value, append_value child d n value) length builder term
  | arrow.Struct fields =>
      struct_value (λ child '(arrow.mkField _ d _), append_null child d)
        (λ child '(arrow.mkField _ d n) value, append_value child d n value) fields builder term
  | _ => Returned (Err (invalid_batch "batch type is unsupported for writing"))
  end.

Fixpoint append_terms (field : arrow.Field) (builder : ArrayBuilder) (terms : list Term) :
    run (result NativeFailure ArrayBuilder) :=
  match terms with
  | [] => Returned (Ok builder)
  | term :: terms =>
      builder ←? append_value builder (arrow.field_data_type field) (arrow.is_nullable field) term;
      append_terms field builder terms
  end.

Definition build_array (field : arrow.Field) (terms : list Term) : run (result NativeFailure ArrayRef) :=
  builder ←? infallible (make_builder (arrow.field_data_type field) (len terms));
  builder ←? append_terms field builder terms;
  infallible (builder_finish builder).

(** The columns of the term, each with its field ([zip] stops at the shorter). *)
Fixpoint decode_columns (columns : list (string * Term)) (fields : list arrow.Field) (row_count : Z) :
    run (result NativeFailure (list ArrayRef)) :=
  match columns, fields with
  | (name, values) :: columns, field :: fields =>
      if negb (bool_decide (name = arrow.field_name field)) then
        Returned (Err (invalid_batch "batch schema does not match writer schema"))
      else
        terms ←? Returned (ok_or (decode_list values) (invalid_batch "batch column is not a list"));
        if negb (len terms =? row_count) then
          Returned (Err (invalid_batch "batch column lengths do not match"))
        else
          array ←? build_array field terms;
          arrays ←? decode_columns columns fields row_count;
          Returned (Ok (array :: arrays))
  | _, _ => Returned (Ok [])
  end.

Definition decode_batch (term : Term) (schema : list arrow.Field) (max_rows : Z) :
    run (result NativeFailure RecordBatch) :=
  x ←? Returned (ok_or (decode_tagged_columns term) (invalid_batch "invalid batch boundary"));
  let '(tag, row_count, columns) := x in
  if negb (bool_decide (tag = "batch"%string)) || (max_rows <? row_count) || negb (len columns =? len schema) then
    Returned (Err (invalid_batch "batch shape or row bound is invalid"))
  else
    arrays ←? decode_columns columns schema row_count;
    Returned (ok_or (batch_try_new schema arrays) (invalid_batch "batch arrays are invalid")).

(** ** From arrays to terms *)

Definition downcast (k : kind.t) (array : ArrayRef) : run (result NativeFailure ()) :=
  Returned (if array_is k array then Ok ()
            else Err (NativeFailure_expected ReaderNext "Arrow array did not match its declared type")).

Definition encode_boolean (array : ArrayRef) (index : nat) : run (result NativeFailure Term) :=
  _ ←? downcast kind.Boolean array;
  value ←? infallible (array_value kind.Boolean array index);
  Returned (Ok (encode_bool value)).

Definition encode_primitive (k : kind.t) (encode : native k → Term) (array : ArrayRef) (index : nat) :
    run (result NativeFailure Term) :=
  _ ←? downcast k array;
  value ←? infallible (array_value k array index);
  Returned (Ok (encode value)).

Definition encode_decimal (k : kind.t) (display : native k → string) (array : ArrayRef) (index : nat) :
    run (result NativeFailure Term) :=
  _ ←? downcast k array;
  value ←? infallible (array_value k array index);
  Returned (Ok (encode_string (display value))).

(** [encode_string]. *)
Definition encode_text (k : kind.t) (value : native k → string) (array : ArrayRef) (index : nat) :
    run (result NativeFailure Term) :=
  _ ←? downcast k array;
  text ←? infallible (array_value k array index);
  Returned (Ok (encode_string (value text))).

Definition encode_bytes (b : bytes) : run (result NativeFailure Term) :=
  Returned (ok_or (owned_binary b) (NativeFailure_expected ReaderNext "binary allocation failed")).

Definition encode_binary (k : kind.t) (slice : native k → bytes) (array : ArrayRef) (index : nat) :
    run (result NativeFailure Term) :=
  _ ←? downcast k array;
  value ←? infallible (array_value k array index);
  encode_bytes (slice value).

(** [encode_array], given how to encode the values at a data type. *)
Definition encode_elements (encode_value : ArrayRef → nat → run (result NativeFailure Term)) (array : ArrayRef) :
    run (result NativeFailure Term) :=
  values ←? try_collect (encode_value array) (seq 0 (array_len array));
  Returned (Ok (encode_list values)).

(** [encode_list], given [encode_array]; a list of fixed size is encoded
    likewise. *)
Definition encode_list_at (k : kind.t) (encode_array : ArrayRef → run (result NativeFailure Term))
    (array : ArrayRef) (index : nat) : run (result NativeFailure Term) :=
  _ ←? downcast k array;
  child ←? infallible (array_list_value array index);
  encode_array child.

(** [for (field, child) in fields.iter().zip(array.columns())]. *)
Definition put_fields (encode : arrow.Field → ArrayRef → run (result NativeFailure Term)) :
    Term → list arrow.Field → list ArrayRef → run (result NativeFailure Term) :=
  fix go map fields columns {struct fields} :=
    match fields, columns with
    | field :: fields, child :: columns =>
        value ←? encode field child;
        map ←? Returned (ok_or (map_put map (arrow.field_name field) value)
          (NativeFailure_expected ReaderNext "map encoding failed"));
        go map fields columns
    | _, _ => Returned (Ok map)
    end.

(** Recursion is on the data type of the array: [data_type] is
    [array.data_type()]. *)
Fixpoint encode_value_at (data_type : arrow.DataType) (array : ArrayRef) (index : nat) {struct data_type} :
    run (result NativeFailure Term) :=
  null ←? infallible (array_is_null array index);
  if null : bool then Returned (Ok (encode_atom "nil"))
  else
  match data_type with
  | arrow.Null => _ ←? downcast kind.Null array; Returned (Ok (encode_atom "nil"))
  | arrow.Boolean => encode_boolean array index
  | arrow.Int8 => encode_primitive kind.Int8 encode_integer array index
  | arrow.Int16 => encode_primitive kind.Int16 encode_integer array index
  | arrow.Int32 => encode_primitive kind.Int32 encode_integer array index
  | arrow.Int64 => encode_primitive kind.Int64 encode_integer array index
  | arrow.UInt8 => encode_primitive kind.UInt8 encode_integer array index
  | arrow.UInt16 => encode_primitive kind.UInt16 encode_integer array index
  | arrow.UInt32 => encode_primitive kind.UInt32 encode_integer array index
  | arrow.UInt64 => encode_primitive kind.UInt64 encode_integer array index
  | arrow.Float32 => encode_primitive kind.Float32 encode_f32 array index
  | arrow.Float64 => encode_primitive kind.Float64 encode_f64 array index
  | arrow.Date32 => encode_primitive kind.Date32 encode_integer array index
  | arrow.Date64 => encode_primitive kind.Date64 encode_integer array index
  | arrow.Time32 Second => encode_primitive kind.Time32Second encode_integer array index
  | arrow.Time32 Millisecond => encode_primitive kind.Time32Millisecond encode_integer array index
  | arrow.Time64 Microsecond => encode_primitive kind.Time64Microsecond encode_integer array index
  | arrow.Time64 Nanosecond => encode_primitive kind.Time64Nanosecond encode_integer array index
  | arrow.Timestamp Second _ => encode_primitive kind.TimestampSecond encode_integer array index
  | arrow.Timestamp Millisecond _ => encode_primitive kind.TimestampMillisecond encode_integer array index
  | arrow.Timestamp Microsecond _ => encode_primitive kind.TimestampMicrosecond encode_integer array index
  | arrow.Timestamp Nanosecond _ => encode_primitive kind.TimestampNanosecond encode_integer array index
  | arrow.Duration Second => encode_primitive kind.DurationSecond encode_integer array index
  | arrow.Duration Millisecond => encode_primitive kind.DurationMillisecond encode_integer array index
  | arrow.Duration Microsecond => encode_primitive kind.DurationMicrosecond encode_integer array index
  | arrow.Duration Nanosecond => encode_primitive kind.DurationNanosecond encode_integer array index
  | arrow.Decimal32 _ _ => encode_decimal kind.Decimal32 to_string array index
  | arrow.Decimal64 _ _ => encode_decimal kind.Decimal64 to_string array index
  | arrow.Decimal128 _ _ => encode_decimal kind.Decimal128 to_string array index
  | arrow.Decimal256 _ _ => encode_decimal kind.Decimal256 display_i256 array index
  | arrow.Utf8 => encode_text kind.Utf8 id array index
  | arrow.LargeUtf8 => encode_text kind.LargeUtf8 id array index
  | arrow.Binary => encode_binary kind.Binary id array index
  | arrow.LargeBinary => encode_binary kind.LargeBinary id array index
  | arrow.FixedSizeBinary _ => encode_binary kind.FixedSizeBinary id array index
  | arrow.List (arrow.mkField _ d _) =>
      encode_list_at kind.List (encode_elements (λ a i, encode_value_at d a i)) array index
  | arrow.LargeList (arrow.mkField _ d _) =>
      encode_list_at kind.LargeList (encode_elements (λ a i, encode_value_at d a i)) array index
  | arrow.FixedSizeList (arrow.mkField _ d _) _ =>
      encode_list_at kind.FixedSizeList (encode_elements (λ a i, encode_value_at d a i)) array index
  | arrow.Struct fields =>
      _ ←? downcast kind.Struct array;
      put_fields (λ '(arrow.mkField _ d _) child, encode_value_at d child index) map_new fields (struct_columns array)
  | _ => Returned (Err (NativeFailure_new Unsupported ReaderNext
           "Parquet batch contains an unsupported logical type"))
  end.

Definition encode_value (array : ArrayRef) (index : nat) : run (result NativeFailure Term) :=
  encode_value_at (array_data_type array) array index.

Definition encode_array (array : ArrayRef) : run (result NativeFailure Term) :=
  encode_elements encode_value array.

Definition encode_batch (batch : RecordBatch) : run (result NativeFailure Term) :=
  columns ←? try_collect (λ '(field, array),
      values ←? encode_array array;
      Returned (Ok (arrow.field_name field, values)))
    (zip (batch_schema batch) (batch_columns batch));
  Returned (Ok (encode_tagged_columns ("batch"%string, Z.of_nat (num_rows batch), columns))).
End values.
