(* ===== verification/BatchDecode.v ===== *)
(** * BatchDecode: what a batch term becomes

    [value_of] and [batch_of] convert terms of a type without builders: the
    reference for [append_value], [build_array] and [decode_batch] of
    [writer.rs].  [appends] relates one append to one converted value, on every
    path; it is shown by induction on the type. *)
From S2P Require Import Prelude Errors Floats Schema Arrow Erlang ArrayData Values.

Section decode.
Context {RU : Rustler} {AR : Arrow} {AD : ArrowData}.

(** ** Specification: converting terms without builders *)

Definition wrong_type : NativeFailure := invalid_batch "batch value has the wrong type".

(** A term as a value of a type without children. *)
Definition scalar_of (d : arrow.DataType) (t : Term) : result NativeFailure Datum :=
  let parsed lo hi :=
    text ← ok_or (decode_string t) (invalid_batch "decimal values must be unscaled integer strings");
    ok_or (DInteger <$> parse_signed lo hi text) (invalid_batch "decimal value is outside its declared width") in
  match kind_of d with
  | None => Err (invalid_batch "batch type is unsupported for writing")
  | Some kind.Null => Err (invalid_batch "null column contains a value")
  | Some kind.Boolean => ok_or (DBoolean <$> decode_bool t) wrong_type
  | Some kind.Float32 => ok_or (DFloat ∘ number <$> decode_f32 t) wrong_type
  | Some kind.Float64 => ok_or (DFloat ∘ number <$> decode_f64 t) wrong_type
  | Some kind.Decimal32 => parsed i32_min i32_max
  | Some kind.Decimal64 => parsed i64_min i64_max
  | Some kind.Decimal128 => parsed i128_min i128_max
  | Some kind.Decimal256 =>
      text ← ok_or (decode_string t) (invalid_batch "decimal values must be unscaled integer strings");
      ok_or (DInteger <$> parse_i256 text) (invalid_batch "decimal value is outside its declared width")
  | Some (kind.Utf8 | kind.LargeUtf8) => ok_or (DUtf8 <$> decode_string t) (invalid_batch "expected a string")
  | Some (kind.Binary | kind.LargeBinary) => ok_or (DBytes <$> decode_binary t) (invalid_batch "expected a binary")
  | Some kind.FixedSizeBinary =>
      b ← ok_or (decode_binary t) (invalid_batch "expected a binary");
      if scalar d (DBytes b) then Ok (DBytes b) else Err (invalid_batch "fixed binary has the wrong length")
  | Some k => ok_or (DInteger <$> decode_integer (bounds k).1 (bounds k).2 t) wrong_type
  end.

(** A term as a value of a type, or the first error in it. *)
Fixpoint value_of (d : arrow.DataType) (nullable : bool) (t : Term) {struct d} : result NativeFailure Datum :=
  if is_nil t then
    if nullable then Ok DNull else Err (invalid_batch "null value violates a non-nullable field")
  else
  match d with
  | arrow.List (arrow.mkField _ e n) | arrow.LargeList (arrow.mkField _ e n) =>
      ts ← ok_or (decode_list t) (invalid_batch "expected a list");
      l ← collect (value_of e n) ts; Ok (DList l)
  | arrow.FixedSizeList (arrow.mkField _ e n) length =>
      ts ← ok_or (decode_list t) (invalid_batch "expected a list");
      if len ts =? length then l ← collect (value_of e n) ts; Ok (DList l)
      else Err (invalid_batch "fixed list has the wrong length")
  | arrow.Struct fields =>
      l ← collect (λ f, match f with arrow.mkField name e n =>
            v ← ok_or (map_get t name) (invalid_batch "struct field is missing"); value_of e n v end) fields;
      Ok (DStruct l)
  | _ => scalar_of d t
  end.

Definition field_value (f : arrow.Field) (t : Term) : result NativeFailure Datum :=
  value_of (arrow.field_data_type f) (arrow.is_nullable f) t.

(** The columns of a batch term. *)
Definition columns_of (columns : list (string * Term)) (fields : list arrow.Field) (rows : Z) :
    result NativeFailure (list (list Datum)) :=
  collect (λ '((name, values), f),
    if negb (bool_decide (name = arrow.field_name f)) then
      Err (invalid_batch "batch schema does not match writer schema")
    else
      ts ← ok_or (decode_list values) (invalid_batch "batch column is not a list");
      if negb (len ts =? rows) then Err (invalid_batch "batch column lengths do not match")
      else collect (field_value f) ts) (zip columns fields).

(** The rows and columns of a term that is a batch of a schema. *)
Definition batch_of (t : Term) (schema : list arrow.Field) (max_rows : Z) :
    result NativeFailure (Z * list (list Datum)) :=
  '(tag, rows, columns) ← ok_or (decode_tagged_columns t) (invalid_batch "invalid batch boundary");
  if negb (bool_decide (tag = "batch"%string)) || (max_rows <? rows) || negb (len columns =? len schema) then
    Err (invalid_batch "batch shape or row bound is invalid")
  else
    data ← columns_of columns schema rows;
    if bool_decide (schema = []) then Err (invalid_batch "batch arrays are invalid") else Ok (rows, data).

(** What counts towards the offsets of an array: bytes, and elements of
    lists. *)
Fixpoint weight (x : Datum) : Z :=
  match x with
  | DList l => len l + foldr (λ y n, weight y + n) 0 l
  | DStruct l => foldr (λ y n, weight y + n) 0 l
  | x => text_size x
  end.
Definition weights (l : list Datum) : Z := foldr (λ y n, weight y + n) 0 l.

(** The same, summed over a list. *)
Definition sum_of {A} (g : A → Z) (l : list A) : Z := foldr (λ x n, g x + n) 0 l.

Definition scalar_size (r : result NativeFailure Datum) : Z :=
  match r with Ok x => text_size x | Err _ => 0 end.

(** What a term read as a value of a type adds to the offsets, whether or not
    all of it converts. *)
Fixpoint term_size (d : arrow.DataType) (t : Term) {struct d} : Z :=
  if is_nil t then 0 else
  match d with
  | arrow.List (arrow.mkField _ e _) | arrow.LargeList (arrow.mkField _ e _)
  | arrow.FixedSizeList (arrow.mkField _ e _) _ =>
      match decode_list t with Some ts => len ts + sum_of (term_size e) ts | None => 0 end
  | arrow.Struct fields =>
      sum_of (λ f, match f with arrow.mkField name e _ =>
        match map_get t name with Some v => term_size e v | None => 0 end end) fields
  | _ => scalar_size (scalar_of d t)
  end.

Definition column_size (f : arrow.Field) (values : Term) : Z :=
  match decode_list values with Some ts => sum_of (term_size (arrow.field_data_type f)) ts | None => 0 end.

(** No column of the term overflows an offset. *)
Definition within_offsets (t : Term) (schema : list arrow.Field) : Prop :=
  match decode_tagged_columns t with
  | Some (_, _, columns) =>
      Forall (λ '((_, values), f), column_size f values ≤ i32_max) (zip columns schema)
  | None => True
  end.

Fixpoint load (v : view) : Z :=
  match v with
  | VLeaf _ l => text_sizes l
  | VList d _ _ child =>
      (match d with arrow.FixedSizeList _ _ => 0 | _ => len (items child) end) + load child
  | VStruct _ _ children => foldr (λ c n, load c + n) 0 children
  end.
Definition loads (vs : list view) : Z := foldr (λ c n, load c + n) 0 vs.

(** ** Lemmas: weights *)

Lemma text_size_nonneg x : 0 ≤ text_size x.
Proof. destruct x; simpl; try lia. unfold len. lia. Qed.

Lemma text_sizes_app l x : text_sizes (l ++ [x]) = text_sizes l + text_size x.
Proof. unfold text_sizes. induction l as [|y l IH]; simpl; lia. Qed.

Lemma text_sizes_nonneg l : 0 ≤ text_sizes l.
Proof. unfold text_sizes. induction l as [|y l IH]; simpl; [lia|]. pose proof (text_size_nonneg y). lia. Qed.

Lemma weights_cons x l : weights (x :: l) = weight x + weights l.
Proof. done. Qed.

Lemma sum_of_nonneg {A} (g : A → Z) l : Forall (λ x, 0 ≤ g x) l → 0 ≤ sum_of g l.
Proof. unfold sum_of. induction 1; simpl; lia. Qed.

Lemma sum_of_cons {A} (g : A → Z) x l : sum_of g (x :: l) = g x + sum_of g l.
Proof. done. Qed.

Lemma scalar_size_nonneg r : 0 ≤ scalar_size r.
Proof. destruct r; simpl; [apply text_size_nonneg|done]. Qed.

Lemma term_size_nonneg d t : 0 ≤ term_size d t.
Proof.
  revert t.
  induction d as [d Hd|f IH|f IH|f n IH|fs IH|name d nl IH] using arrow.DataType_nested_ind
    with (Q := λ f, ∀ t, 0 ≤ term_size (arrow.field_data_type f) t); [| | | | |done]; intros t.
  - destruct d; try done; cbn [term_size]; destruct (is_nil t); try done; apply scalar_size_nonneg.
  - destruct f as [name e nl]. cbn [term_size]. destruct (is_nil t); [done|]. destruct (decode_list t) as [ts|]; [|done].
    pose proof (len_nonneg ts). pose proof (sum_of_nonneg (term_size e) ts (Forall_true _ _ IH)). lia.
  - destruct f as [name e nl]. cbn [term_size]. destruct (is_nil t); [done|]. destruct (decode_list t) as [ts|]; [|done].
    pose proof (len_nonneg ts). pose proof (sum_of_nonneg (term_size e) ts (Forall_true _ _ IH)). lia.
  - destruct f as [name e nl]. cbn [term_size]. destruct (is_nil t); [done|]. destruct (decode_list t) as [ts|]; [|done].
    pose proof (len_nonneg ts). pose proof (sum_of_nonneg (term_size e) ts (Forall_true _ _ IH)). lia.
  - cbn [term_size]. destruct (is_nil t); [done|]. apply sum_of_nonneg. eapply Forall_impl; [exact IH|].
    intros [name e nl] Hf. destruct (map_get t name); [apply Hf|done].
Qed.

Lemma load_nonneg : ∀ v, 0 ≤ load v.
Proof.
  fix IH 1. intros [d l|d l s c|fs l cs]; simpl.
  - apply text_sizes_nonneg.
  - pose proof (IH c). pose proof (len_nonneg (items c)). destruct d; lia.
  - induction cs as [|c cs IHcs]; simpl; [lia|]. pose proof (IH c). lia.
Qed.

(** ** Lemmas: appending *)

Context {RL : RustlerLaws RU} {DL : ArrowDataLaws AD}.

(** One more value [r] of size [s] in a complete builder, or the error [r], or
    an offset that overflowed. *)
Definition appends (v : view) (d : arrow.DataType) (m : run (result NativeFailure ArrayBuilder))
    (r : result NativeFailure Datum) (s : Z) : Prop :=
  match m with
  | Returned (Ok b') => ∃ x v', r = Ok x ∧ builder_view b' v' ∧ complete d v' ∧
      items v' = items v ++ [x] ∧ load v' ≤ load v + s
  | Returned (Err e) => r = Err e
  | Panicked => i32_max < load v + s
  end.

Lemma downcast_builder_view b v k :
  builder_view b v → kind_of (view_type v) = Some k → downcast_builder k b = Returned (Ok ()).
Proof.
  intros Hb Hk. unfold downcast_builder. by rewrite (builder_is_view b v k Hb), bool_decide_eq_true_2.
Qed.

Lemma fits_bound d n : fits d n = false → i32_max < n.
Proof.
  unfold fits. destruct (kind_of d) as [k|]; [|done]. cbn [mbind option_bind].
  destruct k; cbn [offset_max]; try done; intros Hn%Z.leb_gt; int_bounds; lia.
Qed.

Lemma appends_leaf d l x b' :
  flat d = true → builder_view b' (VLeaf d (l ++ [x])) →
  appends (VLeaf d l) d (Returned (Ok b')) (Ok x) (text_size x).
Proof.
  intros Hd Hb'. exists x, (VLeaf d (l ++ [x])). split; [done|]. split; [done|].
  split; [by apply complete_flat; eauto|]. split; [done|]. simpl. rewrite text_sizes_app. lia.
Qed.

Lemma appends_null d k b v :
  flat d = true → kind_of d = Some k → builder_view b v → complete d v →
  appends v d (_ ←? downcast_builder k b; infallible (builder_append_null b)) (Ok DNull) 0.
Proof.
  intros Hd Hk Hb Hc. rewrite (downcast_builder_view b v k Hb) by (by rewrite (complete_type d v Hc)).
  apply (complete_flat d v Hd) in Hc as [l ->]. cbn [try_bind].
  destruct (append_null_view b d l Hb) as (b' & -> & Hb'). unfold appends, infallible. cbn [mbind run_bind].
  by apply (appends_leaf d l DNull).
Qed.

Lemma appends_native d k b v y :
  flat d = true → kind_of d = Some k → builder_view b v → complete d v →
  appends v d (infallible (builder_append_value k y b)) (Ok (datum k y)) (text_size (datum k y)).
Proof.
  intros Hd Hk Hb Hc. apply (complete_flat d v Hd) in Hc as [l ->].
  pose proof (append_value_view b d l k y Hb Hk) as Hv.
  destruct (fits d _) eqn:Hfits.
  - destruct Hv as (b' & -> & Hb'). by apply appends_leaf.
  - rewrite Hv. apply fits_bound in Hfits. rewrite text_sizes_app in Hfits. done.
Qed.

Lemma appends_text d k decode message b v t :
  flat d = true → kind_of d = Some k → builder_view b v → complete d v →
  appends v d (text_value k decode message b t)
    (if is_nil t then Ok DNull else ok_or (datum k <$> decode t) (invalid_batch message))
    (if is_nil t then 0 else scalar_size (ok_or (datum k <$> decode t) (invalid_batch message))).
Proof.
  intros Hd Hk Hb Hc. pose proof (appends_null d k b v Hd Hk Hb Hc) as Hnull. unfold text_value.
  rewrite (downcast_builder_view b v k Hb) in * by (by rewrite (complete_type d v Hc)). cbn [try_bind] in *.
  destruct (is_nil t); [done|]. destruct (decode t) as [y|]; [|done]. cbn [ok_or try_bind fmap option_fmap option_map].
  by apply appends_native.
Qed.

Lemma appends_decimal d k parse b v t :
  flat d = true → kind_of d = Some k → builder_view b v → complete d v →
  appends v d (decimal k parse b t)
    (if is_nil t then Ok DNull else
       text ← ok_or (decode_string t) (invalid_batch "decimal values must be unscaled integer strings");
       ok_or (datum k <$> parse text) (invalid_batch "decimal value is outside its declared width"))
    (if is_nil t then 0 else scalar_size (
       text ← ok_or (decode_string t) (invalid_batch "decimal values must be unscaled integer strings");
       ok_or (datum k <$> parse text) (invalid_batch "decimal value is outside its declared width"))).
Proof.
  intros Hd Hk Hb Hc. pose proof (appends_null d k b v Hd Hk Hb Hc) as Hnull. unfold decimal.
  rewrite (downcast_builder_view b v k Hb) in * by (by rewrite (complete_type d v Hc)). cbn [try_bind] in *.
  destruct (is_nil t); [done|]. destruct (decode_string t) as [text|]; [|done]. cbn [ok_or try_bind mbind result_bind].
  destruct (parse text) as [y|]; [|done]. cbn [ok_or try_bind fmap option_fmap option_map]. by apply appends_native.
Qed.

Lemma appends_fixed n b v t :
  builder_view b v → complete (arrow.FixedSizeBinary n) v →
  appends v (arrow.FixedSizeBinary n) (fixed_binary_value b t)
    (if is_nil t then Ok DNull else scalar_of (arrow.FixedSizeBinary n) t)
    (if is_nil t then 0 else scalar_size (scalar_of (arrow.FixedSizeBinary n) t)).
Proof.
  intros Hb Hc. pose proof (appends_null (arrow.FixedSizeBinary n) _ b v eq_refl eq_refl Hb Hc) as Hnull.
  unfold fixed_binary_value.
  rewrite (downcast_builder_view b v kind.FixedSizeBinary Hb) in * by (by rewrite (complete_type _ v Hc)).
  cbn [try_bind] in *. destruct (is_nil t); [done|]. unfold scalar_of. cbn [kind_of].
  destruct (decode_binary t) as [x|]; [|done]. cbn [ok_or try_bind mbind result_bind scalar kind_of].
  apply (complete_flat (arrow.FixedSizeBinary n) v eq_refl) in Hc as [l ->].
  pose proof (fixed_append_view b n l x Hb) as Hx. destruct (len x =? n); [|by rewrite Hx].
  destruct Hx as (b' & -> & Hb'). cbn [ok_or].
  by apply appends_leaf.
Qed.

(** *** Children of lists *)

Lemma append_all_view {A} (f : ArrayBuilder → A → run (result NativeFailure ArrayBuilder))
    (g : A → result NativeFailure Datum) (sz : A → Z) d l start e xs : (∀ x, 0 ≤ sz x) →
  (∀ b v x, builder_view b v → complete e v → appends v e (f b x) (g x) (sz x)) →
  ∀ b child, builder_view b (VList d l start child) → complete e child →
  match append_all f b xs with
  | Returned (Ok b') => ∃ ys child', collect g xs = Ok ys ∧ builder_view b' (VList d l start child') ∧
      complete e child' ∧ items child' = items child ++ ys ∧ load child' ≤ load child + sum_of sz xs
  | Returned (Err err) => collect g xs = Err err
  | Panicked => i32_max < load child + sum_of sz xs
  end.
Proof.
  intros Hsz Hf. induction xs as [|x xs IH]; intros b child Hb Hc; cbn [append_all collect].
  { exists [], child. rewrite app_nil_r. split_and!; try done. unfold sum_of. simpl. lia. }
  rewrite sum_of_cons. destruct (list_values_view b d l start child Hb) as [Hv Hset].
  specialize (Hf (list_builder_values b) child x Hv Hc). unfold appends in Hf.
  destruct (f (list_builder_values b) x) as [[b1|err]|]; cbn [try_bind].
  - destruct Hf as (y & child1 & -> & Hb1 & Hc1 & Hi1 & Hl1). cbn [mbind result_bind].
    specialize (IH _ child1 (Hset b1 child1 Hb1) Hc1).
    destruct (append_all f _ xs) as [[b'|err]|].
    + destruct IH as (ys & child' & -> & Hb' & Hc' & Hi' & Hl'). exists (y :: ys), child'.
      split_and!; try done; [by rewrite Hi', Hi1, <-app_assoc|lia].
    + by rewrite IH.
    + lia.
  - by rewrite Hf.
  - pose proof (sum_of_nonneg sz xs (Forall_true _ _ Hsz)). lia.
Qed.

(** What a list adds to the offsets of its own builder. *)
Definition list_weight (d : arrow.DataType) (n : Z) : Z :=
  match d with arrow.FixedSizeList _ _ => 0 | _ => n end.

Lemma load_list d l start child : load (VList d l start child) = list_weight d (len (items child)) + load child.
Proof. by destruct d. Qed.

Lemma complete_list d e l child :
  element_type d = Some e →
  complete d (VList d l (length (items child)) child) ↔
  complete e child ∧ match d with arrow.FixedSizeList _ n => len (items child) = n * len l | _ => True end.
Proof. by_type d; intros [= <-]; simpl; naive_solver. Qed.

Lemma complete_list_inv d e v :
  element_type d = Some e → complete d v → ∃ l child, v = VList d l (length (items child)) child.
Proof. by_type d; intros [= <-]; destruct v; simpl; naive_solver. Qed.

(** Closing a list whose child has grown by [ys]. *)
Lemma appends_close d e l child child' b' ys (valid : bool) x w s :
  element_type d = Some e → builder_view b' (VList d l (length (items child)) child') → complete e child' →
  match d with arrow.FixedSizeList _ n => len (items child') = n * (len l + 1) | _ => True end →
  items child' = items child ++ ys → load child' ≤ load child + w → 0 ≤ w →
  x = (if valid then DList ys else DNull) → list_weight d (len ys) + w ≤ s →
  appends (VList d l (length (items child)) child) d (infallible (list_append valid b')) (Ok x) s.
Proof.
  intros He Hb' Hc' Hn Hi Hl Hw0 Hx Hw. pose proof (list_append_view b' d l _ child' valid Hb') as Happ.
  assert (closed_list l (length (items child)) child' valid = x) as Hclosed.
  { unfold closed_list. rewrite Hx. destruct valid; [|done]. by rewrite Hi, drop_app_length. }
  assert (len (items child') = len (items child) + len ys) as Hlen by (rewrite Hi; apply len_app).
  pose proof (load_nonneg child'). pose proof (load_nonneg child). unfold appends, infallible.
  destruct (fits d (len (items child'))) eqn:Hfits.
  - destruct Happ as (b2 & -> & Hb2). rewrite Hclosed in Hb2. eexists x, _. split; [done|]. split; [exact Hb2|].
    split; [|split; [done|]].
    + apply (complete_list d e); [done|]. split; [done|]. destruct d; try done.
      rewrite len_app, len_cons, len_nil. lia.
    + rewrite !load_list, Hlen. destruct d; simpl in *; try done; lia.
  - rewrite Happ. cbn [mbind run_bind]. rewrite load_list. apply fits_bound in Hfits as Hover.
    destruct d; try done; simpl in *; lia.
Qed.

(** *** Children of structures *)

Definition child_of (n : nat) (f : arrow.Field) (c : view) : Prop :=
  length (items c) = n ∧ complete (arrow.field_data_type f) c.

Lemma append_fields_view f (g : arrow.Field → result NativeFailure Datum) (sz : arrow.Field → Z) n fields :
  (∀ fd, 0 ≤ sz fd) →
  Forall (λ fd, ∀ b v, builder_view b v → complete (arrow.field_data_type fd) v →
    appends v (arrow.field_data_type fd) (f b fd) (g fd) (sz fd)) fields →
  ∀ bs children, Forall2 builder_view bs children → Forall2 (child_of n) fields children →
  match append_fields f bs fields with
  | Returned (Ok bs') => ∃ ys children', collect g fields = Ok ys ∧ Forall2 builder_view bs' children' ∧
      Forall2 (child_of (S n)) fields children' ∧
      map (λ c, default DNull (last (items c))) children' = ys ∧ loads children' ≤ loads children + sum_of sz fields
  | Returned (Err e) => collect g fields = Err e
  | Panicked => i32_max < loads children + sum_of sz fields
  end.
Proof.
  intros Hsz. induction 1 as [|fd fields Hf _ IH]; intros bs children Hbs Hcs.
  { inversion Hcs; subst. inversion Hbs; subst. exists [], []. by split_and!; try constructor. }
  inversion Hcs as [|? c ? cs [Hlen Hc] Hcs']; subst. inversion Hbs as [|b ? bs' ? Hb Hbs']; subst.
  rewrite sum_of_cons. cbn [append_fields collect]. specialize (Hf b c Hb Hc). unfold appends in Hf.
  destruct (f b fd) as [[b1|err]|]; cbn [try_bind].
  - destruct Hf as (y & c1 & -> & Hb1 & Hc1 & Hi1 & Hl1). cbn [mbind result_bind].
    specialize (IH _ _ Hbs' Hcs'). destruct (append_fields f bs' fields) as [[bs1|err]|]; cbn [try_bind].
    + destruct IH as (ys & cs1 & -> & Hbs1 & Hcs1 & Hlast & Hl). exists (y :: ys), (c1 :: cs1).
      split_and!; try done.
      * by constructor.
      * constructor; [|done]. split; [rewrite Hi1, length_app; simpl; lia|done].
      * simpl. by rewrite Hlast, Hi1, last_snoc.
      * unfold loads in *. simpl. lia.
    + by rewrite IH.
    + pose proof (load_nonneg c1). pose proof (load_nonneg c). pose proof (Hsz fd).
      unfold loads in *. simpl. lia.
  - by rewrite Hf.
  - pose proof (sum_of_nonneg sz fields (Forall_true _ _ Hsz)). pose proof (load_nonneg (VStruct [] [] cs)). unfold loads. simpl in *. lia.
Qed.

(** *** One value *)

Lemma collect_const {A} (x : Datum) (l : list A) :
  collect (E := NativeFailure) (λ _, Ok x) l = Ok (replicate (length l) x).
Proof. induction l as [|a l IH]; simpl; [done|]. by rewrite IH. Qed.

Lemma sum_of_zero {A} (l : list A) : sum_of (λ _, 0) l = 0.
Proof. unfold sum_of. induction l as [|a l IH]; simpl; lia. Qed.

(** An append to the child, element by element, and the list closed. *)
Lemma appends_list {A} (f : ArrayBuilder → A → run (result NativeFailure ArrayBuilder))
    (g : A → result NativeFailure Datum) (sz : A → Z) d e b v xs (valid : bool) (mk : list Datum → Datum) s :
  (∀ x, 0 ≤ sz x) → element_type d = Some e → builder_view b v → complete d v →
  (∀ b v x, builder_view b v → complete e v → appends v e (f b x) (g x) (sz x)) →
  match d with arrow.FixedSizeList _ n => len xs = n | _ => True end →
  (∀ ys, mk ys = (if valid then DList ys else DNull)) → list_weight d (len xs) + sum_of sz xs ≤ s →
  appends v d (builder ←? append_all f b xs; infallible (list_append valid builder))
    (ys ← collect g xs; Ok (mk ys)) s.
Proof.
  intros Hsz He Hb Hc Hf Hn Hmk Hs. destruct (complete_list_inv d e v He Hc) as (l & child & ->).
  apply (complete_list d e) in Hc as [Hc Hl]; [|done].
  pose proof (append_all_view f g sz d l _ e xs Hsz Hf b child Hb Hc) as Hall.
  pose proof (sum_of_nonneg sz xs (Forall_true _ _ Hsz)) as Hsum.
  destruct (append_all f b xs) as [[b'|err]|]; cbn [try_bind].
  - destruct Hall as (ys & child' & Hys & Hb' & Hc' & Hi & Hload).
    rewrite Hys. cbn [mbind result_bind]. apply collect_Ok, Forall2_length in Hys.
    assert (len ys = len xs) as Hlen by (unfold len; congruence).
    apply (appends_close d e l child child' b' ys valid (mk ys) (sum_of sz xs)); try done.
    + destruct d; try done. rewrite Hi, len_app. lia.
    + by rewrite Hlen.
  - by rewrite Hall.
  - unfold appends. rewrite load_list. pose proof (len_nonneg (items child)). pose proof (len_nonneg xs).
    destruct d; simpl in *; try done; lia.
Qed.

(** The same of a structure. *)
Lemma appends_struct f (g : arrow.Field → result NativeFailure Datum) (sz : arrow.Field → Z) b v fields
    (valid : bool) (mk : list Datum → Datum) :
  (∀ fd, 0 ≤ sz fd) → builder_view b v → complete (arrow.Struct fields) v →
  Forall (λ fd, ∀ b v, builder_view b v → complete (arrow.field_data_type fd) v →
    appends v (arrow.field_data_type fd) (f b fd) (g fd) (sz fd)) fields →
  (∀ ys, mk ys = (if valid then DStruct ys else DNull)) →
  appends v (arrow.Struct fields)
    (children ←? append_fields f (field_builders b) fields;
     infallible (struct_append valid (with_field_builders b children)))
    (ys ← collect g fields; Ok (mk ys)) (sum_of sz fields).
Proof.
  intros Hsz Hb Hc Hf Hmk. destruct v as [|d l|fs l children]; try done. apply complete_struct in Hc as [-> Hcs].
  destruct (field_builders_view b _ l children Hb) as [Hbs Hset].
  pose proof (append_fields_view f g sz (length l) fields Hsz Hf _ _ Hbs Hcs) as Hall.
  destruct (append_fields f (field_builders b) fields) as [[bs'|err]|]; cbn [try_bind].
  - destruct Hall as (ys & children' & Hys & Hbs' & Hcs' & Hlast & Hload). rewrite Hys. cbn [mbind result_bind].
    assert (length children' = length children) as Hlen.
    { apply Forall2_length in Hcs, Hcs'. lia. }
    destruct (struct_append_view _ fields l children' valid (Hset bs' children' Hbs' Hlen)) as (b2 & -> & Hb2).
    unfold closed_struct in Hb2. rewrite Hlast, <-Hmk in Hb2. eexists (mk ys), _.
    split; [done|]. split; [exact Hb2|]. split; [|split; [done|]].
    + apply complete_struct. split; [done|]. eapply Forall2_impl; [exact Hcs'|]. intros fd c [Hl ?].
      split; [|done]. rewrite Hl, length_app. simpl. lia.
    + simpl. unfold loads in Hload. lia.
  - by rewrite Hall.
  - done.
Qed.

Lemma downcast_of {A} d k b v (m : run (result NativeFailure A)) :
  builder_view b v → complete d v → kind_of d = Some k → (_ ←? downcast_builder k b; m) = m.
Proof. intros Hb Hc Hk. by rewrite (downcast_builder_view b v k Hb) by (by rewrite (complete_type d v Hc)). Qed.

(** A null list: its child is left alone. *)
Lemma appends_null_list d e b v :
  element_type d = Some e → match d with arrow.FixedSizeList _ _ => False | _ => True end →
  builder_view b v → complete d v → appends v d (infallible (list_append false b)) (Ok DNull) 0.
Proof.
  intros He Hd Hb Hc.
  apply (appends_list (A := ()) (λ _ _, Returned (Err wrong_type)) (λ _, Err wrong_type) (λ _, 0) d e b v [] false
    (λ _, DNull)); try done; by destruct d.
Qed.

(** A null list of a fixed length: as many nulls in the child. *)
Lemma appends_null_fixed f n d b v (append : ArrayBuilder → run (result NativeFailure ArrayBuilder)) :
  d = arrow.field_data_type f → 0 < n → builder_view b v → complete (arrow.FixedSizeList f n) v →
  (∀ b v, builder_view b v → complete d v → appends v d (append b) (Ok DNull) 0) →
  appends v (arrow.FixedSizeList f n)
    (builder ←? append_all (λ child _, append child) b (seq 0 (Z.to_nat n)); infallible (list_append false builder))
    (Ok DNull) 0.
Proof.
  intros -> Hn Hb Hc Happ.
  pose proof (appends_list (λ child _, append child) (λ _, Ok DNull) (λ _, 0) (arrow.FixedSizeList f n) _ b v
    (seq 0 (Z.to_nat n)) false (λ _, DNull) 0 (λ _, Z.le_refl 0) eq_refl Hb Hc (λ b v _, Happ b v)) as Hlist.
  rewrite collect_const in Hlist. apply Hlist.
  - unfold len. rewrite length_seq. lia.
  - done.
  - by rewrite sum_of_zero.
Qed.

Lemma appends_null_struct b v fields :
  builder_view b v → complete (arrow.Struct fields) v →
  Forall (λ f, ∀ b v, builder_view b v → complete (arrow.field_data_type f) v →
    appends v (arrow.field_data_type f) (append_null b (arrow.field_data_type f)) (Ok DNull) 0) fields →
  appends v (arrow.Struct fields)
    (children ←? append_fields (λ child '(arrow.mkField _ d _), append_null child d) (field_builders b) fields;
     infallible (struct_append false (with_field_builders b children))) (Ok DNull) 0.
Proof.
  intros Hb Hc Hall.
  pose proof (appends_struct (λ child '(arrow.mkField _ d _), append_null child d) (λ _, Ok DNull) (λ _, 0) b v fields false
    (λ _, DNull) (λ _, Z.le_refl 0) Hb Hc) as Hstruct.
  rewrite collect_const, sum_of_zero in Hstruct. apply Hstruct; [|done].
  eapply Forall_impl; [exact Hall|]. by intros [].
Qed.

Definition supported_field (f : arrow.Field) : bool := supported (arrow.field_data_type f).

Lemma supported_struct fields :
  supported (arrow.Struct fields) = true → Forall (λ f, supported_field f = true) fields.
Proof.
  simpl. intros Hs. apply Forall_forall. intros [name d n] Hin. apply list_elem_of_In in Hin.
  exact (proj1 (forallb_forall _ _) Hs _ Hin).
Qed.

Lemma append_null_appends d b v :
  supported d = true → builder_view b v → complete d v → appends v d (append_null b d) (Ok DNull) 0.
Proof.
  revert b v.
  induction d as [d Hd|f IH|f IH|f n IH|fs IH|name d nl IH] using arrow.DataType_nested_ind
    with (Q := λ f, ∀ b v, supported_field f = true → builder_view b v →
      complete (arrow.field_data_type f) v →
      appends v (arrow.field_data_type f) (append_null b (arrow.field_data_type f)) (Ok DNull) 0);
    try (intros b v Hs Hb Hc).
  - destruct d as [| | | | | | | | | | | | | | | | | | |[]|[]|[]|[]| | | | | | | | |]; try done;
      by apply appends_null.
  - cbn [append_null]. rewrite (downcast_of _ _ _ _ _ Hb Hc eq_refl). by eapply appends_null_list.
  - cbn [append_null]. rewrite (downcast_of _ _ _ _ _ Hb Hc eq_refl). by eapply appends_null_list.
  - cbn [append_null]. destruct f as [name e nl]. apply andb_true_iff in Hs as [[Hn%Z.ltb_lt _]%andb_true_iff Hs].
    rewrite (downcast_of _ _ _ _ _ Hb Hc eq_refl). apply (appends_null_fixed (arrow.mkField name e nl) n e); try done.
    intros b' v'. by apply IH.
  - cbn [append_null]. rewrite (downcast_of _ _ _ _ _ Hb Hc eq_refl). apply appends_null_struct; [done..|].
    apply supported_struct in Hs. rewrite Forall_forall in *. intros f Hin b' v'. by apply IH, Hs.
  - by apply IH.
Qed.

Lemma appends_nil d nullable v t (m : run (result NativeFailure ArrayBuilder)) r s :
  appends v d m (if is_nil t then Ok DNull else r) s →
  appends v d (if is_nil t && negb nullable then
                 Returned (Err (invalid_batch "null value violates a non-nullable field")) else m)
    (if is_nil t then if nullable then Ok DNull else Err (invalid_batch "null value violates a non-nullable field")
     else r) s.
Proof. by destruct (is_nil t), nullable. Qed.

Lemma append_flat_appends d nullable b v t :
  flat d = true → supported d = true → builder_view b v → complete d v →
  appends v d (append_value b d nullable t) (value_of d nullable t) (term_size d t).
Proof.
  intros Hd Hs Hb Hc.
  destruct d as [| | | | | | | | | | | | | | | |n| | |[]|[]|[]|[]| | | | | | | | |]; try done;
    apply appends_nil;
    first [ by apply (appends_decimal _ _ _ b v t Hd eq_refl Hb Hc)
          | by apply (appends_text _ _ _ _ b v t Hd eq_refl Hb Hc)
          | by apply appends_fixed | idtac ].
  pose proof (appends_null arrow.Null _ b v Hd eq_refl Hb Hc) as Hnull. cbn [term_size]. by destruct (is_nil t) eqn:?.
Qed.

(** A list of values: [null_list] is what a null does. *)
Lemma appends_values f d n e b v t (valid_length : list Term → bool) message null_list
    (append : ArrayBuilder → arrow.DataType → bool → Term → run (result NativeFailure ArrayBuilder)) :
  element_type d = Some e → builder_view b v → complete d v → e = arrow.field_data_type f → n = arrow.is_nullable f →
  (∀ b v t, builder_view b v → complete e v → appends v e (append b e n t) (value_of e n t) (term_size e t)) →
  (∀ ts, valid_length ts = true → match d with arrow.FixedSizeList _ n => len ts = n | _ => True end) →
  appends v d null_list (Ok DNull) 0 →
  appends v d
    (if is_nil t then null_list else
       values ←? Returned (ok_or (decode_list t) (invalid_batch "expected a list"));
       if negb (valid_length values) then Returned (Err (invalid_batch message)) else
         builder ←? append_all (λ child value, append child e n value) b values;
         infallible (list_append true builder))
    (if is_nil t then Ok DNull else
       ts ← ok_or (decode_list t) (invalid_batch "expected a list");
       if valid_length ts then l ← collect (value_of e n) ts; Ok (DList l) else Err (invalid_batch message))
    (if is_nil t then 0 else match decode_list t with Some ts => len ts + sum_of (term_size e) ts | None => 0 end).
Proof.
  intros He Hb Hc _ _ Happ Hlen Hnull. destruct (is_nil t); [done|].
  destruct (decode_list t) as [ts|]; [|done]. cbn [ok_or try_bind mbind result_bind].
  destruct (valid_length ts) eqn:Hv; [|done]. cbn [negb].
  apply (appends_list _ _ (term_size e) d e); try done; [apply term_size_nonneg|by apply Hlen|].
  pose proof (len_nonneg ts). unfold list_weight. destruct d; lia.
Qed.

Lemma append_value_appends d nullable b v t :
  supported d = true → builder_view b v → complete d v →
  appends v d (append_value b d nullable t) (value_of d nullable t) (term_size d t).
Proof.
  revert nullable b v t.
  induction d as [d Hd|f IH|f IH|f n IH|fs IH|name d nl IH] using arrow.DataType_nested_ind
    with (Q := λ f, ∀ nullable b v t, supported_field f = true → builder_view b v →
      complete (arrow.field_data_type f) v →
      appends v (arrow.field_data_type f) (append_value b (arrow.field_data_type f) nullable t)
        (value_of (arrow.field_data_type f) nullable t) (term_size (arrow.field_data_type f) t));
    try (intros nullable b v t Hs Hb Hc).
  - destruct (flat d) eqn:Hf; [by apply append_flat_appends|].
    destruct d as [| | | | | | | | | | | | | | | |n| | |[]|[]|[]|[]| | | | | | | | |]; done.
  - destruct f as [name e nl]. cbn [append_value value_of term_size]. apply appends_nil. unfold list_value.
    rewrite (downcast_of _ _ _ _ _ Hb Hc eq_refl).
    apply (appends_values (arrow.mkField name e nl) _ nl e b v t (λ _, true) "" _ append_value); try done.
    + intros b' v' t'. by apply IH.
    + by eapply appends_null_list.
  - destruct f as [name e nl]. cbn [append_value value_of term_size]. apply appends_nil. unfold list_value.
    rewrite (downcast_of _ _ _ _ _ Hb Hc eq_refl).
    apply (appends_values (arrow.mkField name e nl) _ nl e b v t (λ _, true) "" _ append_value); try done.
    + intros b' v' t'. by apply IH.
    + by eapply appends_null_list.
  - destruct f as [name e nl]. apply andb_true_iff in Hs as [[Hn%Z.ltb_lt Hmax%Z.leb_le]%andb_true_iff Hs].
    cbn [append_value value_of term_size]. apply appends_nil. unfold fixed_list_value.
    rewrite (downcast_of _ _ _ _ _ Hb Hc eq_refl). rewrite usize_wrap_in by (int_bounds; lia).
    apply (appends_values (arrow.mkField name e nl) _ nl e b v t (λ ts, len ts =? n) _ _ append_value); try done.
    + intros b' v' t'. by apply IH.
    + intros ts Hts. by apply Z.eqb_eq.
    + apply (appends_null_fixed (arrow.mkField name e nl) n e); try done. intros b' v'. by apply append_null_appends.
  - cbn [append_value value_of term_size]. apply appends_nil. unfold struct_value. rewrite (downcast_of _ _ _ _ _ Hb Hc eq_refl).
    apply supported_struct in Hs. rewrite Forall_forall in *. destruct (is_nil t).
    + apply appends_null_struct; [done..|]. apply Forall_forall. intros f Hin b' v'.
      apply append_null_appends. by apply Hs.
    + eapply appends_struct; [ |done..| |].
      * intros [name e nl]. destruct (map_get t name); [apply term_size_nonneg|done].
      * apply Forall_forall. intros [name e nl] Hin b' v' Hb' Hc'. cbn [arrow.field_name]. destruct (map_get t name); [|done].
        cbn [ok_or try_bind mbind result_bind]. apply (IH _ Hin nl b' v'); [by apply Hs|done..].
      * done.
  - by apply IH.
Qed.

(** *** Converted values are of their type *)

Lemma scalar_typed d nullable x : flat d = true → scalar d x = true → typed d nullable x = true.
Proof.
  intros Hd Hx.
  destruct d as [| | | | | | | | | | | | | | | |n| | |[]|[]|[]|[]| | | | | | | | |]; try done; by destruct x.
Qed.

Lemma in_bounds lo hi z : lo ≤ z ≤ hi → (lo <=? z) && (z <=? hi) = true.
Proof. intros [Hlo Hhi]. by rewrite (proj2 (Z.leb_le _ _) Hlo), (proj2 (Z.leb_le _ _) Hhi). Qed.

Lemma scalar_of_scalar d t x : flat d = true → scalar_of d t = Ok x → scalar d x = true.
Proof.
  intros Hd Hx.
  destruct d as [| | | | | | | | | | | | | | | |n| | |[]|[]|[]|[]| | | | | | | | |]; try done;
    unfold scalar_of in Hx; cbn [kind_of] in Hx; inv_result;
    try match goal with H : _ <$> _ = Some _ |- _ => apply fmap_Some in H as (? & H & ->) end; try done;
    try match goal with f : float _ _ |- _ => exact (number_valid f) end;
    try (apply in_bounds; first [by eapply decode_integer_range | by eapply parse_signed_range
                                |by eapply parse_i256_range]).
  destruct (scalar _ _) eqn:Hs; by inv_result; subst.
Qed.

Definition or_null (nullable : bool) (t : Term) (r : result NativeFailure Datum) : result NativeFailure Datum :=
  if is_nil t then
    if nullable then Ok DNull else Err (invalid_batch "null value violates a non-nullable field")
  else r.

Lemma value_of_flat d nullable t : flat d = true → value_of d nullable t = or_null nullable t (scalar_of d t).
Proof. by destruct d. Qed.

Lemma or_null_typed d nullable t r x :
  or_null nullable t r = Ok x → (∀ y, r = Ok y → typed d nullable y = true) → typed d nullable x = true.
Proof.
  unfold or_null. intros Hx Hr. destruct (is_nil t); [|by apply Hr].
  destruct nullable; [|done]. injection Hx as <-. by destruct d.
Qed.

Lemma collect_forallb {A B} (f : A → result NativeFailure B) (p : B → bool) l k :
  (∀ x y, f x = Ok y → p y = true) → collect f l = Ok k → forallb p k = true.
Proof.
  intros Hf Hk%collect_Ok. apply forallb_forall. intros y Hy%list_elem_of_In.
  apply list_elem_of_lookup in Hy as [i Hy]. destruct (Forall2_lookup_r _ _ _ _ _ Hk Hy) as (x & _ & Hx). by eapply Hf.
Qed.

Lemma value_of_typed d nullable t x : supported d = true → value_of d nullable t = Ok x → typed d nullable x = true.
Proof.
  revert nullable t x.
  induction d as [d Hd|f IH|f IH|f n IH|fs IH|name d nl IH] using arrow.DataType_nested_ind
    with (Q := λ f, ∀ t x, supported_field f = true → field_value f t = Ok x → typed_field f x = true);
    [| | | | |intros t x Hs Hx; by apply (IH nl t)]; intros nullable t x Hs Hx.
  1: { assert (flat d = true) as Hf by by destruct d.
    rewrite value_of_flat in Hx by done. eapply or_null_typed; [exact Hx|]. intros y Hy.
    apply scalar_typed; [done|]. by eapply scalar_of_scalar. }
  all: try destruct f as [name e nl]; apply (or_null_typed _ _ _ _ _ Hx); intros y Hy.
  1-3: apply bind_Ok in Hy as (ts & _ & Hy).
  1-2: apply bind_Ok in Hy as (l & Hl & [= <-]).
  - simpl. eapply collect_forallb; [|done]. intros u w. by apply IH.
  - simpl. eapply collect_forallb; [|done]. intros u w. by apply IH.
  - apply andb_true_iff in Hs as [_ Hs]. destruct (_ =? _) eqn:Hlen; [|done].
    apply bind_Ok in Hy as (l & Hl & [= <-]). simpl. apply andb_true_iff. split.
    + apply collect_Ok, Forall2_length in Hl. unfold len in *. by rewrite <-Hl.
    + eapply collect_forallb; [|done]. intros u w. by apply IH.
  - apply bind_Ok in Hy as (l & Hl%collect_Ok & [= <-]). rewrite typed_struct. apply typed_fields_Forall2.
    apply supported_struct in Hs. rewrite Forall_forall in *.
    apply Forall2_same_length_lookup_2; [by apply Forall2_length in Hl|]. intros i f y Hf Hy.
    pose proof (Forall2_lookup_lr _ _ _ _ _ _ Hl Hf Hy) as Hv. destruct f as [name e nl]. inv_result; subst.
    apply list_elem_of_lookup_2 in Hf. by eapply IH; [|by apply Hs|].
Qed.

(** *** Converted values weigh what their terms do *)

Lemma collect_weights {A} (f : A → result NativeFailure Datum) (sz : A → Z) l k :
  Forall (λ x, ∀ y, f x = Ok y → weight y = sz x) l → collect f l = Ok k → weights k = sum_of sz l.
Proof.
  intros Hf Hk%collect_Ok. induction Hk as [|x y l k Hx _ IH]; [done|]. inversion Hf as [|? ? Hw Hf']; subst.
  rewrite weights_cons, sum_of_cons, (Hw y Hx). by rewrite IH.
Qed.

Lemma flat_weight d nullable t x : flat d = true → supported d = true → value_of d nullable t = Ok x → weight x = term_size d t.
Proof.
  intros Hd Hs. rewrite value_of_flat by done.
  replace (term_size d t) with (if is_nil t then 0 else scalar_size (scalar_of d t)) by by destruct d.
  unfold or_null. destruct (is_nil t); [destruct nullable; by intros [= <-]|]. intros Hx. rewrite Hx.
  apply scalar_of_scalar in Hx; [|done].
  destruct x as [| | | | | |l|l]; try done;
    destruct d as [| | | | | | | | | | | | | | | |n| | |[]|[]|[]|[]| | | | | | | | |]; done.
Qed.

Lemma elements_weight e nullable ts l :
  (∀ t x, value_of e nullable t = Ok x → weight x = term_size e t) →
  collect (value_of e nullable) ts = Ok l → weight (DList l) = len ts + sum_of (term_size e) ts.
Proof.
  intros He Hl. rewrite <-(collect_weights _ _ ts l (Forall_true _ _ He) Hl).
  apply collect_Ok, Forall2_length in Hl. unfold len. by rewrite Hl.
Qed.

Lemma value_of_weight d nullable t x : supported d = true → value_of d nullable t = Ok x → weight x = term_size d t.
Proof.
  revert nullable t x.
  induction d as [d Hd|f IH|f IH|f n IH|fs IH|name d nl IH] using arrow.DataType_nested_ind
    with (Q := λ f, ∀ nullable t x, supported_field f = true →
      value_of (arrow.field_data_type f) nullable t = Ok x → weight x = term_size (arrow.field_data_type f) t);
    [| | | | |done]; intros nullable t x Hs Hx.
  1: { apply (flat_weight d nullable); [by destruct d|done..]. }
  all: try destruct f as [name e nl]; cbn [value_of term_size] in *; destruct (is_nil t);
    [destruct nullable; by inversion Hx|].
  1-3: destruct (decode_list t) as [ts|]; [|done]; cbn [ok_or mbind result_bind] in Hx.
  3: apply andb_true_iff in Hs as [_ Hs]; destruct (len ts =? n); [|done].
  1-3: apply bind_Ok in Hx as (l & Hl & [= <-]); apply (elements_weight e nl); [|done]; intros u y; by apply IH.
  apply bind_Ok in Hx as (l & Hl & [= <-]). apply supported_struct in Hs.
  eapply collect_weights; [|exact Hl]. rewrite Forall_forall in *. intros [name e nl] Hin y Hy.
  destruct (map_get t name) as [u|]; [|done]. apply (IH _ Hin nl u); [by apply Hs|exact Hy].
Qed.

(** *** Arrays *)

Lemma empty_view_items d : items (empty_view d) = [].
Proof. by_type d; done. Qed.

Lemma empty_view_load d : load (empty_view d) = 0.
Proof.
  induction d as [d Hd|f IH|f IH|f n IH|fs IH|name d nl IH] using arrow.DataType_nested_ind
    with (Q := λ f, load (empty_view (arrow.field_data_type f)) = 0); [by destruct d|..|done];
    try destruct f as [name e nl].
  - simpl in *. by rewrite empty_view_items.
  - simpl in *. by rewrite empty_view_items.
  - done.
  - simpl. induction IH as [|[name e nl] fs Hf _ IHfs]; [done|]. simpl in *. by rewrite Hf.
Qed.

Lemma empty_view_complete d : supported d = true → complete d (empty_view d).
Proof.
  induction d as [d Hd|f IH|f IH|f n IH|fs IH|name d nl IH] using arrow.DataType_nested_ind
    with (Q := λ f, supported_field f = true →
      complete (arrow.field_data_type f) (empty_view (arrow.field_data_type f))); [by destruct d|..|done];
    intros Hs; try destruct f as [name e nl].
  - simpl. rewrite empty_view_items. split; [done|]. split; [done|by apply IH].
  - simpl. rewrite empty_view_items. split; [done|]. split; [done|by apply IH].
  - apply andb_true_iff in Hs as [_ Hs]. simpl. rewrite empty_view_items.
    split; [done|]. split; [done|]. split; [rewrite !len_nil; lia|by apply IH].
  - apply supported_struct in Hs. apply complete_struct. split; [done|].
    induction IH as [|[name e nl] fs Hf _ IHfs]; [done|]. inversion Hs; subst. constructor; [|by apply IHfs].
    split; [by rewrite empty_view_items|by apply Hf].
Qed.

Lemma append_terms_view f ts : supported_field f = true → ∀ b v,
  builder_view b v → complete (arrow.field_data_type f) v →
  match append_terms f b ts with
  | Returned (Ok b') => ∃ l v', collect (field_value f) ts = Ok l ∧ builder_view b' v' ∧
      complete (arrow.field_data_type f) v' ∧ items v' = items v ++ l
  | Returned (Err e) => collect (field_value f) ts = Err e
  | Panicked => i32_max < load v + sum_of (term_size (arrow.field_data_type f)) ts
  end.
Proof.
  intros Hs. induction ts as [|t ts IH]; intros b v Hb Hc; cbn [append_terms collect].
  { exists [], v. by rewrite app_nil_r. }
  rewrite sum_of_cons. pose proof (sum_of_nonneg _ ts (Forall_true _ _ (term_size_nonneg (arrow.field_data_type f)))) as Hsum.
  pose proof (append_value_appends _ (arrow.is_nullable f) b v t Hs Hb Hc) as Happ. unfold appends in Happ.
  fold (field_value f t) in Happ. destruct (append_value b _ _ t) as [[b1|e]|]; cbn [try_bind].
  - destruct Happ as (x & v1 & -> & Hb1 & Hc1 & Hi1 & Hl1). cbn [mbind result_bind].
    specialize (IH b1 v1 Hb1 Hc1). destruct (append_terms f b1 ts) as [[b'|e]|].
    + destruct IH as (l & v' & -> & Hb' & Hc' & Hi'). exists (x :: l), v'.
      split_and!; try done. by rewrite Hi', Hi1, <-app_assoc.
    + by rewrite IH.
    + lia.
  - by rewrite Happ.
  - lia.
Qed.

Lemma build_array_view f ts : supported_field f = true →
  match build_array f ts with
  | Returned (Ok a) => collect (field_value f) ts = Ok (contents a) ∧
      column_of (array_data_type a) (contents a) f
  | Returned (Err e) => collect (field_value f) ts = Err e
  | Panicked => i32_max < sum_of (term_size (arrow.field_data_type f)) ts
  end.
Proof.
  intros Hs. unfold build_array, infallible.
  destruct (make_builder_view (arrow.field_data_type f) (len ts) Hs) as (b & -> & Hb). cbn [mbind run_bind try_bind].
  pose proof (append_terms_view f ts Hs b _ Hb (empty_view_complete _ Hs)) as Happ.
  rewrite empty_view_load, empty_view_items in Happ.
  destruct (append_terms f b ts) as [[b'|e]|]; cbn [try_bind]; try done.
  destruct Happ as (l & v' & Hl & Hb' & Hc' & Hi'). simpl in Hi'.
  assert (Forall (λ x, typed_field f x = true) l) as Hty.
  { apply collect_Ok in Hl. apply Forall_lookup. intros i x Hx.
    destruct (Forall2_lookup_r _ _ _ _ _ Hl Hx) as (t & _ & Ht). by eapply value_of_typed. }
  destruct (finish_view b' v' _ Hb' Hs Hc') as (a & -> & Ha & Hcon).
  { rewrite Hi'. eapply Forall_impl; [exact Hty|]. intros x. apply typed_nullable. }
  cbn [mbind run_bind]. rewrite Hcon, Hi'. by split; [|split].
Qed.

(** *** Batches *)

Lemma decode_columns_view columns fields rows : Forall (λ f, supported_field f = true) fields →
  length columns = length fields →
  match decode_columns columns fields rows with
  | Returned (Ok arrays) => columns_of columns fields rows = Ok (map contents arrays) ∧
      Forall2 (λ f a, column_of (array_data_type a) (contents a) f ∧ array_len a = Z.to_nat rows) fields arrays
  | Returned (Err e) => columns_of columns fields rows = Err e
  | Panicked => Exists (λ '((_, values), f), i32_max < column_size f values) (zip columns fields)
  end.
Proof.
  intros Hs. revert columns. induction Hs as [|f fields Hf _ IH]; intros [|[name values] columns] Hlen; try done.
  injection Hlen as Hlen. specialize (IH columns Hlen). unfold columns_of in *. cbn [decode_columns zip zip_with collect].
  destruct (bool_decide (name = _)); [|done]. cbn [negb].
  destruct (decode_list values) as [ts|] eqn:Hts; [|done]. cbn [ok_or try_bind mbind result_bind].
  destruct (len ts =? rows) eqn:Hrows; [|done]. cbn [negb]. apply Z.eqb_eq in Hrows.
  pose proof (build_array_view f ts Hf) as Hbuild. destruct (build_array f ts) as [[a|e]|]; cbn [try_bind].
  - destruct Hbuild as [Hl Hcol]. rewrite Hl. cbn [mbind result_bind].
    destruct (decode_columns columns fields rows) as [[arrays|e]|]; cbn [try_bind].
    + destruct IH as [-> Hall]. split; [done|]. constructor; [|done]. split; [done|].
      rewrite contents_len. apply collect_Ok, Forall2_length in Hl. rewrite <-Hl. unfold len in Hrows. lia.
    + by rewrite IH.
    + by right.
  - by rewrite Hbuild.
  - left. unfold column_size. by rewrite Hts.
Qed.

(** What [decode_batch] made of a term: the batch with the converted columns,
    the error of the conversion, or an offset that overflowed. *)
Definition batch_decoded (t : Term) (schema : list arrow.Field) (max_rows : Z)
    (r : run (result NativeFailure RecordBatch)) : Prop :=
  match r with
  | Returned (Ok batch) => batch_schema batch = schema ∧
      Forall2 (λ f a, array_data_type a = arrow.field_data_type f) schema (batch_columns batch) ∧
      batch_of t schema max_rows = Ok (Z.of_nat (num_rows batch), map contents (batch_columns batch))
  | Returned (Err e) => batch_of t schema max_rows = Err e
  | Panicked => ¬ within_offsets t schema
  end.

Lemma decode_batch_decoded t schema max_rows :
  Forall (λ f, supported_field f = true) schema → batch_decoded t schema max_rows (decode_batch t schema max_rows).
Proof.
  intros Hs. unfold decode_batch, batch_decoded, batch_of.
  destruct (decode_tagged_columns t) as [[[tag rows] columns]|] eqn:Ht; [|done]. cbn [ok_or try_bind mbind result_bind].
  destruct (_ || _ || negb (len columns =? len schema)) eqn:Hguard; [done|].
  apply orb_false_iff in Hguard as [_ Hlen%negb_false_iff%Z.eqb_eq].
  assert (length columns = length schema) as Hlen' by (unfold len in Hlen; lia).
  pose proof (decode_columns_view columns schema rows Hs Hlen') as Hcols.
  destruct (decode_columns columns schema rows) as [[arrays|e]|]; cbn [try_bind].
  - destruct Hcols as [-> Hall]. cbn [mbind result_bind]. destruct schema as [|f schema].
    { inversion Hall; subst. rewrite try_new_empty. done. }
    destruct (try_new_columns (f :: schema) arrays (Z.to_nat rows)) as (batch & -> & Hsch & Hcol & Hn); [done..|].
    cbn [ok_or]. rewrite bool_decide_eq_false_2 by done. rewrite Hcol, Hn.
    split; [done|]. split; [eapply Forall2_impl; [exact Hall|]; by intros ? ? [[? _] _]|].
    apply decode_columns_range in Ht. simpl in Ht. by rewrite Z2Nat.id by lia.
  - by rewrite Hcols.
  - unfold within_offsets. rewrite Ht, Forall_forall. intros Hall.
    apply Exists_exists in Hcols as ([[name values] f] & Hin & Hlt). specialize (Hall _ Hin). simpl in Hall. lia.
Qed.

Lemma columns_of_typed columns fields rows data :
  Forall (λ f, supported_field f = true) fields → length columns = length fields →
  columns_of columns fields rows = Ok data → Forall2 (λ f l, Forall (λ x, typed_field f x = true) l) fields data.
Proof.
  intros Hs Hlen Hdata%collect_Ok. apply Forall2_same_length_lookup_2.
  { apply Forall2_length in Hdata. rewrite <-Hdata, length_zip_with. lia. }
  intros i f l Hf Hl. destruct (Forall2_lookup_r _ _ _ _ _ Hdata Hl) as ([[name values] f'] & Hz & Hx).
  apply lookup_zip_with_Some in Hz as ([name' values'] & f'' & [= <- <- <-] & _ & Hf').
  rewrite Hf in Hf'. injection Hf' as <-. destruct (negb _); [done|]. apply bind_Ok in Hx as (ts & _ & Hx).
  destruct (negb _); [done|]. apply collect_Ok in Hx. apply Forall_lookup. intros j x Hxj.
  destruct (Forall2_lookup_r _ _ _ _ _ Hx Hxj) as (u & _ & Hu). rewrite Forall_lookup in Hs.
  eapply value_of_typed; [by apply (Hs i)|done].
Qed.

Lemma batch_of_typed t schema max_rows rows data :
  Forall (λ f, supported_field f = true) schema → batch_of t schema max_rows = Ok (rows, data) →
  Forall2 (λ f l, Forall (λ x, typed_field f x = true) l) schema data.
Proof.
  unfold batch_of. intros Hs ([[tag r] columns] & _ & Hof)%bind_Ok.
  destruct (_ || _ || negb (len columns =? len schema)) eqn:Hguard; [done|].
  apply orb_false_iff in Hguard as [_ Hlen%negb_false_iff%Z.eqb_eq].
  apply bind_Ok in Hof as (data' & Hdata & Hof). destruct (bool_decide _); [done|]. injection Hof as <- <-.
  eapply columns_of_typed; [done| |done]. unfold len in Hlen. lia.
Qed.

Lemma batch_of_rows t schema max_rows rows data :
  batch_of t schema max_rows = Ok (rows, data) → rows ≤ max_rows.
Proof.
  unfold batch_of. intros ([[tag r] columns] & _ & Hof)%bind_Ok.
  destruct (_ || (max_rows <? r) || _) eqn:Hguard; [done|].
  apply orb_false_iff in Hguard as [[_ Hle]%orb_false_iff _].
  apply bind_Ok in Hof as (data' & _ & Hof). destruct (bool_decide _); [done|]. injection Hof as <- <-. lia.
Qed.

(** A batch weighs what its term does. *)
Lemma columns_of_weights columns fields rows data : Forall (λ f, supported_field f = true) fields →
  columns_of columns fields rows = Ok data →
  Forall2 (λ '((_, values), f) l, weights l = column_size f values) (zip columns fields) data.
Proof.
  intros Hs Hdata%collect_Ok. apply Forall2_same_length_lookup_2; [by eapply Forall2_length|].
  intros i [[name values] f] l Hz Hl. pose proof (Forall2_lookup_lr _ _ _ _ _ _ Hdata Hz Hl) as Hx. simpl in Hx.
  apply lookup_zip_with_Some in Hz as ([name' values'] & f' & [= <- <- <-] & _ & Hf).
  destruct (negb _); [done|]. unfold column_size. destruct (decode_list values) as [ts|]; [|done].
  cbn [ok_or mbind result_bind] in Hx. destruct (negb _); [done|]. eapply collect_weights; [|exact Hx].
  apply Forall_true. intros t x. apply value_of_weight. rewrite Forall_lookup in Hs. by apply (Hs i).
Qed.

Lemma batch_of_offsets t schema max_rows rows data :
  Forall (λ f, supported_field f = true) schema → batch_of t schema max_rows = Ok (rows, data) →
  within_offsets t schema ↔ Forall (λ l, weights l ≤ i32_max) data.
Proof.
  unfold batch_of, within_offsets. intros Hs Hof.
  destruct (decode_tagged_columns t) as [[[tag r] columns]|]; [|done]. cbn [ok_or mbind result_bind] in Hof.
  destruct (_ || _ || _); [done|]. apply bind_Ok in Hof as (data' & Hdata & Hof).
  destruct (bool_decide _); [done|]. injection Hof as _ <-.
  pose proof (columns_of_weights columns schema r data' Hs Hdata) as Hw. rewrite !Forall_lookup. split.
  - intros Hall i l Hl. destruct (Forall2_lookup_r _ _ _ _ _ Hw Hl) as ([[name values] f] & Hz & ->).
    exact (Hall i _ Hz).
  - intros Hall i [[name values] f] Hz. destruct (Forall2_lookup_l _ _ _ _ _ Hw Hz) as (l & Hl & Hx).
    simpl in Hx. rewrite <-Hx. by apply (Hall i).
Qed.

(** ** Theorems *)

(** C14: [decode_batch] implements the conversion of terms.  A term that is a
    batch of the schema, with no column so large that an offset overflows,
    becomes a record batch of that schema holding the converted values, all of
    them of their field's type; a batch returned is the conversion of its term;
    an error returned is the first error of the conversion; and a malformed
    term whose columns are within the offsets is answered with that error, not
    with a panic. *)
Theorem decode_batch_exact t schema max_rows :
  Forall (λ f, supported_field f = true) schema →
  (∀ rows data, batch_of t schema max_rows = Ok (rows, data) → Forall (λ l, weights l ≤ i32_max) data →
    ∃ batch, decode_batch t schema max_rows = Returned (Ok batch) ∧ batch_schema batch = schema ∧
      Z.of_nat (num_rows batch) = rows ∧ map contents (batch_columns batch) = data ∧
      Forall2 (λ f l, Forall (λ x, typed_field f x = true) l) schema data) ∧
  (∀ batch, decode_batch t schema max_rows = Returned (Ok batch) →
    batch_schema batch = schema ∧
    batch_of t schema max_rows = Ok (Z.of_nat (num_rows batch), map contents (batch_columns batch))) ∧
  (∀ e, decode_batch t schema max_rows = Returned (Err e) → batch_of t schema max_rows = Err e) ∧
  (∀ e, batch_of t schema max_rows = Err e → within_offsets t schema →
    decode_batch t schema max_rows = Returned (Err e)).
Proof.
  intros Hs. pose proof (decode_batch_decoded t schema max_rows Hs) as Hdec. unfold batch_decoded in Hdec.
  split; [|split; [|split]].
  - intros rows data Hof Hfit. apply (batch_of_offsets t schema max_rows rows data Hs Hof) in Hfit.
    destruct (decode_batch t schema max_rows) as [[batch|e]|]; [|congruence|done].
    destruct Hdec as (Hsch & _ & Hof'). pose proof Hof as Hof2. rewrite Hof' in Hof2. injection Hof2 as Hrows Hdata.
    exists batch. split_and!; try done. by eapply batch_of_typed.
  - intros batch Hb. rewrite Hb in Hdec. by destruct Hdec as (? & _ & ?).
  - intros e He. by rewrite He in Hdec.
  - intros e He Hfit. destruct (decode_batch t schema max_rows) as [[batch|e']|]; [|congruence|done].
    destruct Hdec as (_ & _ & Hof). congruence.
Qed.

(** C15: What [decode_batch] returns is typed: a batch of the schema and of at
    most [max_rows] rows, each of whose columns has the type of its field, as
    many values as the batch has rows, all of them of that type (integers in
    its width, lists and binaries of its length), and a null only where the
    field, or the field of a component, admits it. *)
Theorem decoded_batch_typed t schema max_rows batch :
  Forall (λ f, supported_field f = true) schema → decode_batch t schema max_rows = Returned (Ok batch) →
  batch_schema batch = schema ∧ Z.of_nat (num_rows batch) ≤ max_rows ∧
  Forall2 (λ f c, array_data_type c = arrow.field_data_type f ∧ array_len c = num_rows batch ∧
    Forall (λ x, typed_field f x = true) (contents c)) schema (batch_columns batch).
Proof.
  intros Hs Hb. pose proof (decode_batch_decoded t schema max_rows Hs) as Hdec. rewrite Hb in Hdec.
  destruct Hdec as (Hsch & _ & Hof). split_and!; [done|by eapply batch_of_rows|].
  pose proof (batch_of_typed _ _ _ _ _ Hs Hof) as Ht. pose proof (batch_columns_schema batch) as Hc.
  pose proof (batch_columns_len batch) as Hl. rewrite Hsch in Hc. rewrite Forall_lookup in Hl.
  apply Forall2_same_length_lookup_2; [by eapply Forall2_length|]. intros i f c Hf Hci.
  split_and!; [by apply (Forall2_lookup_lr _ _ _ _ _ _ Hc Hf Hci)|by eapply Hl|].
  eapply (Forall2_lookup_lr _ _ _ _ _ _ Ht Hf). by rewrite list_lookup_fmap, Hci.
Qed.

End decode.

(** ** Witnesses *)

#[local] Existing Instances Terms Terms_laws DatumArrow DatumData DatumData_laws.

(** Rows of an identifier, a list of tags and a point of fixed length. *)
Definition sample_schema : list arrow.Field :=
  [arrow.mkField "id" arrow.Int64 false;
   arrow.mkField "tags" (arrow.List (arrow.mkField "item" arrow.Utf8 true)) true;
   arrow.mkField "place" (arrow.Struct
     [arrow.mkField "point" (arrow.FixedSizeList (arrow.mkField "item" arrow.Int32 false) 2) true;
      arrow.mkField "price" (arrow.Decimal128 10 2) false]) true].

Definition text (s : string) : ErlTerm := EBinary (String.list_byte_of_string s).

Definition sample_term : ErlTerm :=
  EColumns "batch" 2
    [("id"%string, EList [EInteger 7; EInteger (-1)]);
     ("tags"%string, EList [EList [text "a"; EAtom "nil"]; EAtom "nil"]);
     ("place"%string, EList [EAtom "nil";
        EMap [("price"%string, text "-1250"); ("point"%string, EList [EInteger 1; EInteger 2])]])].

Definition sample_data : list (list Datum) :=
  [[DInteger 7; DInteger (-1)]; [DList [DUtf8 "a"; DNull]; DNull];
   [DNull; DStruct [DList [DInteger 1; DInteger 2]; DInteger (-1250)]]].

(** The same with another second structure. *)
Definition malformed_term (place : ErlTerm) : ErlTerm :=
  EColumns "batch" 2
    [("id"%string, EList [EInteger 7; EInteger (-1)]);
     ("tags"%string, EList [EList [text "a"; EAtom "nil"]; EAtom "nil"]);
     ("place"%string, EList [EAtom "nil"; place])].

(** A structure without a price, and one with a point of strings. *)
Definition unpriced_term : ErlTerm := malformed_term (EMap [("point"%string, EList [EInteger 1; EInteger 2])]).
Definition misplaced_term : ErlTerm :=
  malformed_term (EMap [("price"%string, text "-1250"); ("point"%string, EList [text "1"; text "2"])]).

Lemma decode_batch_exact_witness :
  batch_of sample_term sample_schema 100 = Ok (2, sample_data) ∧
  (∃ batch, decode_batch sample_term sample_schema 100 = Returned (Ok batch) ∧
    map contents (batch_columns batch) = sample_data) ∧
  decode_batch unpriced_term sample_schema 100 = Returned (Err (invalid_batch "struct field is missing")) ∧
  decode_batch misplaced_term sample_schema 100 = Returned (Err wrong_type).
Proof.
  assert (batch_of sample_term sample_schema 100 = Ok (2, sample_data)) as Hof
    by by vm_compute.
  split; [exact Hof|]. split; [|split].
  2: { apply (decode_batch_exact (RU := Terms) unpriced_term sample_schema 100);
         [by repeat constructor|by vm_compute|by repeat constructor; vm_compute]. }
  2: { apply (decode_batch_exact (RU := Terms) misplaced_term sample_schema 100);
         [by repeat constructor|by vm_compute|by repeat constructor; vm_compute]. }
  destruct (decode_batch_exact (RU := Terms) sample_term sample_schema 100) as [Hex _];
    [by repeat constructor|].
  destruct (Hex _ _ Hof) as (batch & Hb & _ & _ & Hdata & _); [by repeat constructor; vm_compute|].
  by exists batch.
Defined.

Definition decoded_sample : RecordBatch (Arrow := DatumArrow) :=
  match decode_batch sample_term sample_schema 100 with Returned (Ok b) => b | _ => mkDatumBatch [] [] end.

Lemma decoded_batch_typed_witness :
  Z.of_nat (datum_rows decoded_sample) ≤ 100 ∧
  Forall2 (λ f c, datum_type c = arrow.field_data_type f ∧ length (datum_list c) = 2%nat ∧
    Forall (λ x, typed_field f x = true) (datum_contents c)) sample_schema (fitted_columns decoded_sample).
Proof.
  destruct (decoded_batch_typed (RU := Terms) (AD := DatumData) sample_term sample_schema 100 decoded_sample) as (_ & Hn & Hc);
    [by repeat constructor|vm_compute; reflexivity|].
  split; [exact Hn|exact Hc].
Defined.
