(* ===== verification/BatchEncode.v ===== *)
(** * BatchEncode: rows handed out, and taken back

    [encode_batch] of [reader.rs] turns the columns of a batch into a term; it
    is shown to return for every batch of the types the writer knows, and the
    term it makes to be one that [decode_batch] of [writer.rs] turns into the
    same rows: what a reader returned can be written again. *)
From S2P Require Import Prelude Errors Floats Schema Arrow Erlang ArrayData Values BatchDecode.

(** ** Values terms can carry *)

(** Every float is a number: Erlang has neither infinities nor NaN. *)
Fixpoint finite (d : arrow.DataType) (x : Datum) {struct d} : bool :=
  match d, x with
  | arrow.Float32, DFloat f => finite_in 24 128 f
  | arrow.Float64, DFloat f => finite_in 53 1024 f
  | arrow.List (arrow.mkField _ e _), DList l
  | arrow.LargeList (arrow.mkField _ e _), DList l
  | arrow.FixedSizeList (arrow.mkField _ e _) _, DList l => forallb (finite e) l
  | arrow.Struct fields, DStruct l =>
      (fix go fields l {struct fields} : bool :=
         match fields, l with
         | arrow.mkField _ e _ :: fields, x :: l => finite e x && go fields l
         | _, _ => true
         end) fields l
  | _, _ => true
  end.

(** The fields of every structure have different names: they are the keys of
    a map. *)
Fixpoint distinct_names (d : arrow.DataType) : bool :=
  match d with
  | arrow.List (arrow.mkField _ e _) | arrow.LargeList (arrow.mkField _ e _)
  | arrow.FixedSizeList (arrow.mkField _ e _) _ => distinct_names e
  | arrow.Struct fields =>
      bool_decide (NoDup (map arrow.field_name fields)) &&
      forallb (λ f, match f with arrow.mkField _ e _ => distinct_names e end) fields
  | _ => true
  end.

Definition allocation_failure : NativeFailure := NativeFailure_expected ReaderNext "binary allocation failed".

(** A field that can be read and written back. *)
Definition exchangeable (f : arrow.Field) : bool :=
  supported_field f && distinct_names (arrow.field_data_type f).

Section encode.
Context {RU : Rustler} {AR : Arrow} {AD : ArrowData} {RL : RustlerLaws RU} {DL : ArrowDataLaws AD}.

(** The term of a value: converted back it is the value. *)
Definition encodes (d : arrow.DataType) (nullable : bool) (x : Datum) (m : run (result NativeFailure Term)) : Prop :=
  match m with
  | Returned (Ok t) => value_of d nullable t = Ok x
  | Returned (Err e) => e = allocation_failure
  | Panicked => False
  end.

Lemma is_nil_nil : is_nil (encode_atom "nil") = true.
Proof. unfold is_nil. by rewrite decode_encode_atom. Qed.

Lemma is_nil_none t : decode_atom t = None → is_nil t = false.
Proof. unfold is_nil. by intros ->. Qed.

Lemma encodes_null d : value_of d true (encode_atom "nil") = Ok DNull.
Proof. destruct d; try destruct field; simpl; by rewrite is_nil_nil. Qed.

Lemma downcast_view a k : kind_of (array_data_type a) = Some k → downcast k a = Returned (Ok ()).
Proof. intros Hk. unfold downcast. by rewrite array_is_type, bool_decide_eq_true_2. Qed.

(** The native value of an array, downcast to its type. *)
Lemma encode_native a i x k (f : native k → run (result NativeFailure Term)) :
  contents a !! i = Some x → x ≠ DNull → scalar (array_data_type a) x = true →
  kind_of (array_data_type a) = Some k →
  ∃ y, datum k y = x ∧ (_ ←? downcast k a; v ←? infallible (array_value k a i); f v) = f y.
Proof.
  intros Hx Hnull Hs Hk. rewrite (downcast_view a k Hk).
  destruct (array_value_contents a i x k Hx Hnull Hs Hk) as (y & -> & Hy). by exists y.
Qed.

Lemma encodes_scalar d nullable x t :
  flat d = true → is_nil t = false → scalar_of d t = Ok x → encodes d nullable x (Returned (Ok t)).
Proof. intros Hd Ht Hx. unfold encodes. rewrite value_of_flat by done. unfold or_null. by rewrite Ht. Qed.

Lemma bounded_integer (d : arrow.DataType) k z :
  scalar d (DInteger z) = true → kind_of d = Some k → (bounds k).1 ≤ z ≤ (bounds k).2.
Proof.
  intros Hs Hk.
  destruct d as [| | | | | | | | | | | | | | | |n| | |[]|[]|[]|[]| | | | | | | | |]; try done; injection Hk as <-;
    apply andb_true_iff in Hs as [?%Z.leb_le ?%Z.leb_le]; done.
Qed.

Lemma encodes_integer d nullable k z :
  flat d = true → kind_of d = Some k → scalar d (DInteger z) = true →
  scalar_of d (encode_integer z) =
    ok_or (DInteger <$> decode_integer (bounds k).1 (bounds k).2 (encode_integer z)) wrong_type →
  encodes d nullable (DInteger z) (Returned (Ok (encode_integer z))).
Proof.
  intros Hd Hk Hs Hof. apply encodes_scalar; [done|by apply is_nil_none, not_atom_integer|].
  rewrite Hof, decode_encode_integer; [done|]. by eapply bounded_integer.
Qed.

Lemma encodes_decimal d nullable k z :
  flat d = true → kind_of d = Some k → scalar d (DInteger z) = true →
  scalar_of d (encode_string (to_string z)) =
    (text ← ok_or (decode_string (encode_string (to_string z)))
       (invalid_batch "decimal values must be unscaled integer strings");
     ok_or (DInteger <$> parse_signed (bounds k).1 (bounds k).2 text)
       (invalid_batch "decimal value is outside its declared width")) →
  encodes d nullable (DInteger z) (Returned (Ok (encode_string (to_string z)))).
Proof.
  intros Hd Hk Hs Hof. apply encodes_scalar; [done|by apply is_nil_none, not_atom_string|].
  rewrite Hof, decode_encode_string. cbn [ok_or mbind result_bind]. rewrite parse_signed_to_string; [done|].
  by eapply bounded_integer.
Qed.

Lemma encodes_text d nullable (y : string) :
  flat d = true → scalar_of d (encode_string y) =
    ok_or (DUtf8 <$> decode_string (encode_string y)) (invalid_batch "expected a string") →
  encodes d nullable (DUtf8 y) (Returned (Ok (encode_string y))).
Proof.
  intros Hd Hof. apply encodes_scalar; [done|by apply is_nil_none, not_atom_string|].
  by rewrite Hof, decode_encode_string.
Qed.

Lemma encodes_bytes d nullable (y : bytes) :
  flat d = true → scalar d (DBytes y) = true →
  encodes d nullable (DBytes y) (encode_bytes y).
Proof.
  intros Hd Hs. unfold encode_bytes. destruct (owned_binary y) as [t|] eqn:Ht; [|done]. cbn [ok_or].
  apply encodes_scalar; [done|by eapply is_nil_none, not_atom_binary|]. apply decode_owned_binary in Ht.
  destruct d as [| | | | | | | | | | | | | | | |n| | |[]|[]|[]|[]| | | | | | | | |]; try done;
    unfold scalar_of; cbn [kind_of]; rewrite Ht; [done..|]. cbn [ok_or mbind result_bind]. by rewrite Hs.
Qed.

Lemma encode_flat d a i nullable x : array_data_type a = d → flat d = true →
  contents a !! i = Some x → x ≠ DNull → scalar d x = true → finite d x = true →
  encodes d nullable x (encode_value_at d a i).
Proof.
  intros Ha Hd Hx Hnull Hs Hfin. unfold encode_value_at.
  assert (array_is_null a i = Returned false) as Hn by (rewrite (is_null_contents a i x Hx); by destruct x).
  rewrite <-Ha in Hs.
  destruct d as [| | | | | | | | | | | | | | | |n| | |[]|[]|[]|[]| | | | | | | | |]; try done;
    try (by rewrite Ha in Hs; destruct x);
    rewrite Hn; cbn [infallible mbind run_bind try_bind];
    unfold encode_boolean, encode_primitive, encode_decimal, encode_text, encode_binary;
    lazymatch goal with |- encodes _ _ _ (try_bind (λ _, try_bind ?f (infallible (array_value ?k a i))) _) =>
      destruct (encode_native a i x k f Hx Hnull Hs) as (y & <- & Heq); [by rewrite Ha|];
      rewrite Ha in Hs; refine (eq_ind_r (encodes _ _ _) _ Heq);
      try (by apply (encodes_integer _ _ k)); try (by apply (encodes_decimal _ _ k))
    end.
  - apply encodes_scalar; [done| |unfold scalar_of; cbn [kind_of]; by rewrite decode_encode_bool].
    unfold is_nil. rewrite atom_of_bool. by destruct y.
  - cbn [finite datum] in Hfin. rewrite finite_in_number in Hfin.
    apply encodes_scalar; [done|by apply is_nil_none, not_atom_f32|].
    unfold scalar_of. cbn [kind_of]. by rewrite decode_encode_f32.
  - cbn [finite datum] in Hfin. rewrite finite_in_number in Hfin.
    apply encodes_scalar; [done|by apply is_nil_none, not_atom_f64|].
    unfold scalar_of. cbn [kind_of]. by rewrite decode_encode_f64.
  - by apply encodes_text.
  - by apply encodes_text.
  - by apply encodes_bytes.
  - by apply encodes_bytes.
  - by apply encodes_bytes.
  - apply encodes_scalar; [done|by apply is_nil_none, not_atom_string|].
    unfold scalar_of. cbn [kind_of]. rewrite decode_encode_string. cbn [ok_or mbind result_bind].
    rewrite parse_display_i256; [done|]. by apply (bounded_integer _ kind.Decimal256) in Hs.
Qed.

(** *** Lists *)

Lemma encode_elements_list e nullable f : ∀ l k,
  (∀ i x, l !! i = Some x → encodes e nullable x (f (k + i)%nat)) →
  match try_collect f (seq k (length l)) with
  | Returned (Ok ts) => collect (value_of e nullable) ts = Ok l
  | Returned (Err err) => err = allocation_failure
  | Panicked => False
  end.
Proof.
  induction l as [|x l IH]; intros k Hf; [done|]. cbn [length seq]. rewrite try_collect_cons.
  pose proof (Hf 0%nat x eq_refl) as Hx. rewrite Nat.add_0_r in Hx. unfold encodes in Hx.
  destruct (f k) as [[t|err]|]; cbn [try_bind]; [|done|done].
  assert (∀ i y, l !! i = Some y → encodes e nullable y (f (S k + i)%nat)) as Hl.
  { intros i y Hy. specialize (Hf (S i) y Hy). by rewrite <-Nat.add_succ_comm in Hf. }
  specialize (IH (S k) Hl). destruct (try_collect f _) as [[ts|err]|]; cbn [try_bind]; [|done|done].
  cbn [collect]. by rewrite Hx, IH.
Qed.

Lemma encode_elements_encodes e nullable f a l :
  contents a = l → (∀ i x, l !! i = Some x → encodes e nullable x (f a i)) →
  match encode_elements f a with
  | Returned (Ok t) => is_nil t = false ∧
      ∃ ts, decode_list t = Some ts ∧ collect (value_of e nullable) ts = Ok l
  | Returned (Err err) => err = allocation_failure
  | Panicked => False
  end.
Proof.
  intros Hl Hf. unfold encode_elements. rewrite contents_len, Hl.
  pose proof (encode_elements_list e nullable (f a) l 0 Hf) as Hall.
  destruct (try_collect _ _) as [[ts|err]|]; cbn [try_bind]; try done.
  split; [by apply is_nil_none, not_atom_list|]. exists ts. by rewrite decode_encode_list.
Qed.

(** *** Structures *)

Lemma put_fields_map (enc : arrow.Field → ArrayRef → run (result NativeFailure Term))
    (P : arrow.Field → Term → Prop) fields columns :
  NoDup (map arrow.field_name fields) →
  Forall2 (λ f c, match enc f c with
                  | Returned (Ok t) => P f t | Returned (Err e) => e = allocation_failure | Panicked => False end)
    fields columns →
  ∀ t m, map_of t = Some m →
  match put_fields enc t fields columns with
  | Returned (Ok t') => ∃ m', map_of t' = Some m' ∧
      (∀ k, k ∉ map arrow.field_name fields → m' !! k = m !! k) ∧
      Forall (λ f, ∃ v, m' !! arrow.field_name f = Some v ∧ P f v) fields
  | Returned (Err e) => e = allocation_failure
  | Panicked => False
  end.
Proof.
  intros Hnd Hall. revert Hnd. induction Hall as [|f c fields columns Hf _ IH]; intros Hnd t m Ht.
  { exists m. split_and!; try done. }
  cbn [put_fields]. destruct (enc f c) as [[v|e]|]; cbn [try_bind]; [|done|done].
  destruct (map_of_put t m (arrow.field_name f) v Ht) as (t1 & -> & Ht1). cbn [ok_or try_bind].
  cbn [map fmap list_fmap] in Hnd. apply NoDup_cons in Hnd as [Hnot Hnd]. specialize (IH Hnd t1 _ Ht1).
  fold (put_fields enc) in *. destruct (put_fields enc t1 fields columns) as [[t'|e]|]; [|done|done].
  destruct IH as (m' & Ht' & Hother & Hfields). exists m'. split; [done|]. split.
  - intros k Hk. apply not_elem_of_cons in Hk as [Hne Hk]. rewrite Hother by done. by rewrite lookup_insert_ne.
  - constructor; [|done]. exists v. rewrite Hother by done. by rewrite lookup_insert_eq.
Qed.

(** *** One value *)

Lemma encode_null_encodes d a i :
  array_data_type a = d → supported d = true → contents a !! i = Some DNull →
  encodes d true DNull (encode_value_at d a i).
Proof.
  intros Ha Hs Hx. pose proof (is_null_contents a i DNull Hx) as Hn. rewrite Ha in Hn.
  assert (encodes d true DNull (Returned (Ok (encode_atom "nil")))) as Hnil by apply encodes_null.
  by_type d; try (cbn [encode_value_at]; rewrite Hn; exact Hnil).
  2-5: cbn [encode_value_at]; rewrite Hn; by destruct unit.
  cbn [encode_value_at]. rewrite Hn. cbn -[downcast encodes]. by rewrite downcast_view by (by rewrite Ha).
Qed.

Lemma encodes_list d e nullable n l (m : run (result NativeFailure Term)) :
  element_type d = Some e → typed d nullable (DList l) = true →
  (∀ t, is_nil t = false → value_of d nullable t =
     (ts ← ok_or (decode_list t) (invalid_batch "expected a list");
      if match d with arrow.FixedSizeList _ n => len ts =? n | _ => true end
      then l ← collect (value_of e n) ts; Ok (DList l) else Err (invalid_batch "fixed list has the wrong length"))) →
  match m with
  | Returned (Ok t) => is_nil t = false ∧ ∃ ts, decode_list t = Some ts ∧ collect (value_of e n) ts = Ok l
  | Returned (Err err) => err = allocation_failure
  | Panicked => False
  end → encodes d nullable (DList l) m.
Proof.
  intros He Hty Hv Hm. unfold encodes. destruct m as [[t|err]|]; [|done|done].
  destruct Hm as (Hnil & ts & Hts & Hl). rewrite (Hv t Hnil), Hts. cbn [ok_or mbind result_bind]. rewrite Hl.
  apply collect_Ok, Forall2_length in Hl. destruct d; try done. destruct field as [? ? ?]. simpl in Hty.
  apply andb_true_iff in Hty as [Hlen _]. unfold len in *. by rewrite Hl, Hlen.
Qed.

Lemma forallb_lookup {A} (p : A → bool) l i x : forallb p l = true → l !! i = Some x → p x = true.
Proof. intros Hp Hx. apply (proj1 (forallb_forall _ _) Hp), list_elem_of_In. by eapply list_elem_of_lookup_2. Qed.

Definition encodable (d : arrow.DataType) : bool := supported d && distinct_names d.

(** What the induction on types shows of every type. *)
Definition value_encodes (d : arrow.DataType) : Prop := ∀ a i nullable x,
  array_data_type a = d → contents a !! i = Some x → typed d nullable x = true → finite d x = true →
  encodes d nullable x (encode_value_at d a i).

(** The elements of a list, all of them encoded. *)
Lemma list_encodes d e nullable n a i l k : value_encodes e →
  array_data_type a = d → contents a !! i = Some (DList l) → typed d nullable (DList l) = true →
  element_type d = Some e → kind_of d = Some k →
  forallb (finite e) l = true → forallb (typed e n) l = true →
  (∀ t, is_nil t = false → value_of d nullable t =
     (ts ← ok_or (decode_list t) (invalid_batch "expected a list");
      if match d with arrow.FixedSizeList _ n => len ts =? n | _ => true end
      then l ← collect (value_of e n) ts; Ok (DList l) else Err (invalid_batch "fixed list has the wrong length"))) →
  encodes d nullable (DList l)
    (null ←? infallible (array_is_null a i);
     if null : bool then Returned (Ok (encode_atom "nil"))
     else
       encode_list_at k (encode_elements (λ a i, encode_value_at e a i)) a i).
Proof.
  intros IH Ha Hx Hty He Hk Hfin Hel Hv. rewrite (is_null_contents a i _ Hx). cbn [is_DNull andb].
  unfold encode_list_at. cbn [infallible mbind run_bind try_bind]. rewrite downcast_view by (by rewrite Ha). cbn [try_bind].
  destruct (list_value_contents a i l e Hx) as (child & -> & Hc & Hl); [by rewrite Ha|].
  cbn [mbind run_bind try_bind]. apply (encodes_list d e nullable n l); [done..|].
  apply encode_elements_encodes; [done|]. intros j y Hy. apply IH; [done|by rewrite Hl|..].
  - by eapply (forallb_lookup _ _ _ _ Hel).
  - by eapply (forallb_lookup _ _ _ _ Hfin).
Qed.

Lemma DNull_or x : x = DNull ∨ x ≠ DNull.
Proof. destruct x; by (left + right). Qed.

Lemma typed_DNull d nullable : typed d nullable DNull = nullable.
Proof. by destruct d. Qed.

Lemma typed_list d nullable x :
  typed d nullable x = true → is_Some (element_type d) → x ≠ DNull → ∃ l, x = DList l.
Proof. intros Hty [e He]. revert Hty. destruct d; try done; destruct field as [? ? ?], x; try done; eauto. Qed.

Lemma typed_flat d nullable x : flat d = true → typed d nullable x = true → x ≠ DNull → scalar d x = true.
Proof.
  intros Hd Hty Hnull.
  destruct d as [| | | | | | | | | | | | | | | |n| | |[]|[]|[]|[]| | | | | | | | |]; try done; by destruct x.
Qed.

Lemma finite_struct fields l : length fields = length l →
  finite (arrow.Struct fields) (DStruct l) = true →
  Forall2 (λ f x, finite (arrow.field_data_type f) x = true) fields l.
Proof.
  simpl. revert l. induction fields as [|[name e n] fields IH]; intros [|x l]; try done. intros [= Hlen] Hfin.
  apply andb_true_iff in Hfin as [Hx Hfin]. constructor; [done|by apply IH].
Qed.

Lemma exchangeable_fields fields :
  encodable (arrow.Struct fields) = true →
  NoDup (map arrow.field_name fields) ∧ Forall (λ f, exchangeable f = true) fields.
Proof.
  intros [Hs [Hnd%bool_decide_eq_true Hnames]%andb_true_iff]%andb_true_iff. split; [done|].
  apply supported_struct in Hs. rewrite Forall_forall in *. intros [name e n] Hin. apply andb_true_iff.
  split; [by apply Hs|]. apply list_elem_of_In in Hin. exact (proj1 (forallb_forall _ _) Hnames _ Hin).
Qed.

(** The fields of a structure, all of them encoded. *)
Lemma struct_encodes fs a i nullable l :
  encodable (arrow.Struct fs) = true →
  Forall (λ f, exchangeable f = true → value_encodes (arrow.field_data_type f)) fs →
  array_data_type a = arrow.Struct fs → contents a !! i = Some (DStruct l) →
  typed (arrow.Struct fs) nullable (DStruct l) = true → finite (arrow.Struct fs) (DStruct l) = true →
  encodes (arrow.Struct fs) nullable (DStruct l) (encode_value_at (arrow.Struct fs) a i).
Proof.
  intros Henc IH Ha Hx Hty Hfin. destruct (exchangeable_fields fs Henc) as [Hnd Hex].
  rewrite typed_struct in Hty. apply typed_fields_Forall2 in Hty.
  apply finite_struct in Hfin; [|by apply Forall2_length in Hty].
  destruct (struct_columns_contents a fs Ha) as [Htypes Hcols]. specialize (Hcols i l Hx).
  cbn [encode_value_at]. rewrite (is_null_contents a i _ Hx). cbn [is_DNull andb infallible mbind run_bind try_bind].
  rewrite downcast_view by (by rewrite Ha). cbn [try_bind].
  pose (P f v := ∃ j x, fs !! j = Some f ∧ l !! j = Some x ∧ field_value f v = Ok x).
  assert (Forall2 (λ f c, match (λ '(arrow.mkField _ d _) child, encode_value_at d child i) f c with
    | Returned (Ok t) => P f t | Returned (Err e) => e = allocation_failure | Panicked => False end)
    fs (struct_columns a)) as Hall.
  { apply Forall2_same_length_lookup_2; [by apply Forall2_length in Htypes|]. intros j f c Hf Hc.
    destruct (Forall2_lookup_l _ _ _ _ _ Hty Hf) as (x & Hl & Htx).
    pose proof (Forall2_lookup_lr _ _ _ _ _ _ Htypes Hf Hc) as Hct.
    pose proof (Forall2_lookup_lr _ _ _ _ _ _ Hcols Hc Hl) as Hcx.
    pose proof (Forall2_lookup_lr _ _ _ _ _ _ Hfin Hf Hl) as Hfx.
    rewrite Forall_lookup in IH, Hex.
    pose proof (IH j f Hf (Hex j f Hf) c i (arrow.is_nullable f) x Hct Hcx Htx Hfx) as Hv.
    destruct f as [name e n]. unfold encodes in Hv. simpl in Hv.
    destruct (encode_value_at e c i) as [[t|err]|]; try done. by exists j, x. }
  pose proof (put_fields_map _ P fs (struct_columns a) Hnd Hall map_new ∅ map_of_new) as Hput.
  unfold encodes. destruct (put_fields _ _ _ _) as [[t|err]|]; [|done|done].
  destruct Hput as (m & Hm & _ & Hfields). cbn [value_of].
  rewrite is_nil_none by (by eapply not_atom_map). rewrite Forall_lookup in Hfields.
  assert (collect (λ f, match f with arrow.mkField name e n =>
    v ← ok_or (map_get t name) (invalid_batch "struct field is missing"); value_of e n v end) fs = Ok l) as ->; [|done].
  apply collect_Ok. apply Forall2_same_length_lookup_2; [by apply Forall2_length in Hty|]. intros j f x Hf Hl.
  destruct (Hfields j f Hf) as (v & Hv & j' & x' & Hf' & Hl' & Hval).
  assert (j' = j) as -> by (apply NoDup_fmap_1 in Hnd; by eapply NoDup_lookup). simplify_eq.
  destruct f as [name e n]. rewrite (map_get_of t m name Hm). simpl in Hv. rewrite Hv. exact Hval.
Qed.

Lemma encode_value_encodes d : encodable d = true → value_encodes d.
Proof.
  induction d as [d Hd|f IH|f IH|f n IH|fs IH|name d nl IH] using arrow.DataType_nested_ind
    with (Q := λ f, exchangeable f = true → value_encodes (arrow.field_data_type f));
    [| | | | |done]; intros Henc a i nullable x Ha Hx Hty Hfin; apply andb_true_iff in Henc as [Hs Hnames];
    (destruct (DNull_or x) as [->|Hnull]; [rewrite typed_DNull in Hty; subst nullable; by apply encode_null_encodes|]).
  - assert (flat d = true) as Hf by by destruct d.
    apply encode_flat; try done. by eapply typed_flat.
  - destruct (typed_list _ nullable x Hty (mk_is_Some _ _ eq_refl) Hnull) as [l ->]. destruct f as [name e n].
    apply (list_encodes _ e nullable n a i l kind.List); try done; [by apply IH, andb_true_iff|].
    intros t Ht. simpl. by rewrite Ht.
  - destruct (typed_list _ nullable x Hty (mk_is_Some _ _ eq_refl) Hnull) as [l ->]. destruct f as [name e n].
    apply (list_encodes _ e nullable n a i l kind.LargeList); try done; [by apply IH, andb_true_iff|].
    intros t Ht. simpl. by rewrite Ht.
  - destruct (typed_list _ nullable x Hty (mk_is_Some _ _ eq_refl) Hnull) as [l ->]. destruct f as [name e nl].
    apply andb_true_iff in Hs as [_ Hs]. pose proof Hty as [_ Hel]%andb_true_iff.
    apply (list_encodes _ e nullable nl a i l kind.FixedSizeList); try done; [by apply IH, andb_true_iff|].
    intros t Ht. simpl. by rewrite Ht.
  - destruct x; try done. apply struct_encodes; try done. by apply andb_true_iff.
Qed.

(** *** Batches *)

(** A column whose rows can be handed out: they keep the promise of its field,
    and its floats are numbers. *)
Definition column_encodable (f : arrow.Field) (a : ArrayRef) : Prop :=
  exchangeable f = true ∧ array_data_type a = arrow.field_data_type f ∧
  Forall (λ x, typed_field f x = true ∧ finite (arrow.field_data_type f) x = true) (contents a).

Lemma encode_array_encodes f a : column_encodable f a →
  match encode_array a with
  | Returned (Ok t) => ∃ ts, decode_list t = Some ts ∧ collect (field_value f) ts = Ok (contents a)
  | Returned (Err e) => e = allocation_failure
  | Panicked => False
  end.
Proof.
  intros (Hex & Ha & Hall). unfold encode_array. rewrite Forall_lookup in Hall.
  pose proof (encode_elements_encodes (arrow.field_data_type f) (arrow.is_nullable f) encode_value a (contents a)
    eq_refl) as Hel.
  destruct (encode_elements encode_value a) as [[t|err]|]; apply Hel; intros i x Hx; unfold encode_value; rewrite Ha;
    apply encode_value_encodes; try done; by apply (Hall i x).
Qed.

Lemma encode_columns_of rows fields arrays :
  Forall2 column_encodable fields arrays → Forall (λ a, array_len a = rows) arrays →
  match try_collect (λ '(field, array), values ←? encode_array array; Returned (Ok (arrow.field_name field, values)))
          (zip fields arrays) with
  | Returned (Ok columns) => length columns = length fields ∧
      columns_of columns fields (Z.of_nat rows) = Ok (map contents arrays)
  | Returned (Err e) => e = allocation_failure
  | Panicked => False
  end.
Proof.
  induction 1 as [|f a fields arrays Ha _ IH]; intros Hrows; [done|].
  inversion Hrows as [|? ? Hlen Hrows']; subst. specialize (IH Hrows').
  cbn [zip zip_with]. rewrite try_collect_cons.
  pose proof (encode_array_encodes f a Ha) as Henc. destruct (encode_array a) as [[t|e]|]; cbn [try_bind]; [|done|done].
  destruct Henc as (ts & Hts & Hcol). destruct (try_collect _ _) as [[columns|e]|]; cbn [try_bind]; [|done|done].
  destruct IH as [Hn IH]. split; [simpl; by rewrite Hn|]. unfold columns_of in *. cbn [zip zip_with collect].
  rewrite bool_decide_eq_true_2 by done. cbn [negb]. rewrite Hts. cbn [ok_or mbind result_bind].
  assert ((len ts =? Z.of_nat (array_len a)) = true) as ->.
  { apply Z.eqb_eq. rewrite contents_len. apply collect_Ok, Forall2_length in Hcol. by rewrite <-Hcol. }
  cbn [negb]. rewrite Hcol. cbn [mbind result_bind]. by rewrite IH.
Qed.

Lemma encode_batch_of batch max_rows :
  batch_schema batch ≠ [] → Forall2 column_encodable (batch_schema batch) (batch_columns batch) →
  Z.of_nat (num_rows batch) ≤ max_rows ≤ usize_max →
  match encode_batch batch with
  | Returned (Ok t) => batch_of t (batch_schema batch) max_rows =
      Ok (Z.of_nat (num_rows batch), map contents (batch_columns batch))
  | Returned (Err e) => e = allocation_failure
  | Panicked => False
  end.
Proof.
  intros Hne Hall [Hrows Hmax]. unfold encode_batch, batch_of.
  pose proof (encode_columns_of (num_rows batch) _ _ Hall (batch_columns_len batch)) as Hcols.
  destruct (try_collect _ _) as [[columns|e]|]; cbn [try_bind]; [|done|done]. destruct Hcols as [Hlen Hcols].
  rewrite decode_encode_columns by (simpl; lia). cbn [ok_or mbind result_bind].
  assert ((len columns =? len (batch_schema batch)) = true) as -> by (apply Z.eqb_eq; unfold len; by rewrite Hlen).
  assert ((max_rows <? Z.of_nat (num_rows batch)) = false) as -> by (apply Z.ltb_ge; lia).
  rewrite Hcols. simpl. by rewrite bool_decide_eq_false_2.
Qed.

(** ** Theorems *)

(** C16: what the reader hands out, the writer takes back.  For every batch
    whose columns are of types that can be exchanged, keep the promises of
    their fields and have no float outside Erlang's numbers, [encode_batch]
    returns: either the one allocation failed, or with a term that
    [decode_batch], given the batch's schema and a bound that admits its rows,
    turns into a batch of the same schema, number of rows and contents. *)
Theorem batch_roundtrip batch max_rows :
  batch_schema batch ≠ [] → Forall2 column_encodable (batch_schema batch) (batch_columns batch) →
  Z.of_nat (num_rows batch) ≤ max_rows ≤ usize_max →
  Forall (λ a, weights (contents a) ≤ i32_max) (batch_columns batch) →
  encode_batch batch = Returned (Err allocation_failure) ∨
  ∃ t, encode_batch batch = Returned (Ok t) ∧
    ∃ batch', decode_batch t (batch_schema batch) max_rows = Returned (Ok batch') ∧
      batch_schema batch' = batch_schema batch ∧ num_rows batch' = num_rows batch ∧
      map contents (batch_columns batch') = map contents (batch_columns batch).
Proof.
  intros Hne Hall Hrows Hfit. pose proof (encode_batch_of batch max_rows Hne Hall Hrows) as Henc.
  destruct (encode_batch batch) as [[t|e]|]; [right|left; by rewrite Henc|done]. exists t. split; [done|].
  assert (Forall (λ f, supported_field f = true) (batch_schema batch)) as Hs.
  { apply Forall_lookup. intros i f Hf. destruct (Forall2_lookup_l _ _ _ _ _ Hall Hf) as (a & _ & Hex & _).
    by apply andb_true_iff in Hex as []. }
  pose proof (decode_batch_decoded t (batch_schema batch) max_rows Hs) as Hdec. unfold batch_decoded in Hdec.
  rewrite Henc in Hdec. destruct (decode_batch t _ max_rows) as [[batch'|e]|]; [|done|].
  - destruct Hdec as (Hsch & _ & [= Hn Hdata]). exists batch'. split_and!; try done. by apply Nat2Z.inj.
  - exfalso. apply Hdec. apply (batch_of_offsets t _ max_rows _ _ Hs Henc).
    by apply Forall_map.
Qed.

End encode.

(** ** Witness *)

#[local] Existing Instances Terms Terms_laws DatumArrow DatumData DatumData_laws.

Definition sample_batch : DatumBatch :=
  mkDatumBatch sample_schema
    (zip_with (λ f l, mkDatumArray (arrow.field_data_type f) l) sample_schema sample_data).

Lemma batch_roundtrip_witness :
  ∃ batch', decode_batch sample_term sample_schema 2 = Returned (Ok batch') ∧
    map contents (batch_columns batch') = sample_data.
Proof.
  destruct (batch_roundtrip (RU := Terms) (AR := DatumArrow) sample_batch 2) as [Hno|(t & Ht & batch' & Hb & _ & _ & Hdata)].
  - done.
  - repeat constructor.
  - vm_compute. by split.
  - by repeat constructor; vm_compute.
  - by vm_compute in Hno.
  - assert (encode_batch sample_batch = Returned (Ok sample_term)) as Hs by by vm_compute.
    rewrite Ht in Hs. injection Hs as ->. by exists batch'.
Defined.
