(* ===== verification/Predicate.v ===== *)
(** * Predicate: the pushed-down comparison of a reader

    Models the predicate half of [reader.rs]: [compile_predicate] and its
    literals, row-group pruning from column statistics, and the mask and
    filter applied to every batch.  The properties say that a compiled
    predicate keeps exactly the matching rows, and that pruning skips only
    row groups without any. *)
From S2P Require Import Prelude Errors Floats Schema Arrow.

(** ** Data *)

Module op.
Inductive PredicateOperator : Set := Gt | Gte | Lt | Lte | Eq.
End op.

#[export] Instance PredicateOperator_eq_dec : EqDecision op.PredicateOperator.
Proof. solve_decision. Defined.

Inductive PredicateLiteral : Set :=
  | IntegerLiteral (literal : Z)
  | FloatLiteral (literal : f64)
  | Utf8Literal (literal : string)
  | BooleanLiteral (literal : bool).

Inductive PruneKind : Set := PruneInt32 | PruneInt64.

Record NativeLiteral : Set := mkNativeLiteral {
  literal_kind : atom;
  literal_integer : option Z;
  literal_float : option f64;
  literal_string : option string;
  literal_boolean : option bool;
}.

Record NativePredicate : Set := mkNativePredicate {
  predicate_column : string;
  predicate_operator : atom;
  predicate_literal : NativeLiteral;
}.

Record CompiledPredicate : Set := mkCompiledPredicate {
  compiled_column : string;
  column_index : nat;
  root_index : nat;
  operator : op.PredicateOperator;
  literal : PredicateLiteral;
  prune_kind : option PruneKind;
}.

(** ** Compilation *)

Definition predicate_literal_error : NativeFailure :=
  NativeFailure_invalid ReaderOpen "predicate literal does not match the column type".

Definition integer_literal (l : NativeLiteral) : result NativeFailure Z :=
  if bool_decide (literal_kind l = "integer")
  then ok_or (literal_integer l) predicate_literal_error
  else Err predicate_literal_error.

Definition float_literal (l : NativeLiteral) : result NativeFailure f64 :=
  if bool_decide (literal_kind l = "float")
  then ok_or (f ← literal_float l; if is_finite (number f) then Some f else None) predicate_literal_error
  else Err predicate_literal_error.

Definition string_literal (l : NativeLiteral) : result NativeFailure string :=
  if bool_decide (literal_kind l = "utf8")
  then ok_or (literal_string l) predicate_literal_error
  else Err predicate_literal_error.

Definition boolean_literal (l : NativeLiteral) : result NativeFailure bool :=
  if bool_decide (literal_kind l = "boolean")
  then ok_or (literal_boolean l) predicate_literal_error
  else Err predicate_literal_error.

Definition compile_operator (a : atom) : result NativeFailure op.PredicateOperator :=
  if bool_decide (a = "gt") then Ok op.Gt
  else if bool_decide (a = "gte") then Ok op.Gte
  else if bool_decide (a = "lt") then Ok op.Lt
  else if bool_decide (a = "lte") then Ok op.Lte
  else if bool_decide (a = "eq") then Ok op.Eq
  else Err (NativeFailure_invalid ReaderOpen "predicate operator is unsupported").

Definition unsupported_predicate : NativeFailure :=
  NativeFailure_new Unsupported ReaderOpen "predicate column type or operator is unsupported".

Definition compile_literal (d : arrow.DataType) (o : op.PredicateOperator) (l : NativeLiteral) :
    result NativeFailure (PredicateLiteral * option PruneKind) :=
  match d with
  | arrow.Int8 | arrow.Int16 | arrow.UInt8 | arrow.UInt16 | arrow.UInt32 | arrow.UInt64 =>
      z ← integer_literal l; Ok (IntegerLiteral z, None)
  | arrow.Int32 => z ← integer_literal l; Ok (IntegerLiteral z, Some PruneInt32)
  | arrow.Int64 => z ← integer_literal l; Ok (IntegerLiteral z, Some PruneInt64)
  | arrow.Float32 | arrow.Float64 => f ← float_literal l; Ok (FloatLiteral f, None)
  | arrow.Utf8 | arrow.LargeUtf8 => s ← string_literal l; Ok (Utf8Literal s, None)
  | arrow.Boolean =>
      if bool_decide (o = op.Eq)
      then b ← boolean_literal l; Ok (BooleanLiteral b, None)
      else Err unsupported_predicate
  | _ => Err unsupported_predicate
  end.

Definition compile_predicate (p : NativePredicate) (fields : list arrow.Field) :
    run (result NativeFailure CompiledPredicate) :=
  match position (λ field, bool_decide (arrow.field_name field = predicate_column p)) fields with
  | None => Returned (Err (NativeFailure_invalid ReaderOpen "predicate column does not exist"))
  | Some root_index =>
      match compile_operator (predicate_operator p) with
      | Err e => Returned (Err e)
      | Ok o =>
          field ← index fields root_index;
          Returned ('(l, k) ← compile_literal (arrow.field_data_type field) o (predicate_literal p);
                    Ok (mkCompiledPredicate (predicate_column p) 0 root_index o l k))
      end
  end.

(** ** Comparison *)

Definition compare_i128 (value literal : Z) (o : op.PredicateOperator) : bool :=
  match o with
  | op.Gt => literal <? value
  | op.Gte => literal <=? value
  | op.Lt => value <? literal
  | op.Lte => value <=? literal
  | op.Eq => value =? literal
  end.

(** IEEE comparison: every one of them is [false] on a NaN. *)
Definition compare_f64 (value literal : f64) (o : op.PredicateOperator) : bool :=
  match o with
  | op.Gt => SFltb (number literal) (number value)
  | op.Gte => SFleb (number literal) (number value)
  | op.Lt => SFltb (number value) (number literal)
  | op.Lte => SFleb (number value) (number literal)
  | op.Eq => SFeqb (number value) (number literal)
  end.

(** [str] is ordered by its bytes. *)
Definition compare_str (value literal : string) (o : op.PredicateOperator) : bool :=
  match o with
  | op.Gt => String.ltb literal value
  | op.Gte => String.leb literal value
  | op.Lt => String.ltb value literal
  | op.Lte => String.leb value literal
  | op.Eq => String.eqb value literal
  end.

(** ** Row groups *)

(** [parquet::file::statistics::Statistics] through the accessors used. *)
Inductive StatisticsValues : Set :=
  | StatisticsInt32 (min_opt max_opt : option Z)
  | StatisticsInt64 (min_opt max_opt : option Z)
  | StatisticsOther.

Record Statistics : Set := mkStatistics {
  statistics_values : StatisticsValues;
  null_count_opt : option Z;
  min_is_exact : bool;
  max_is_exact : bool;
}.

Inductive Compression : Set :=
  | UNCOMPRESSED | SNAPPY | GZIP (level : Z) | LZO | BROTLI (level : Z) | LZ4
  | ZSTD (level : Z) | LZ4_RAW.

Record ColumnChunkMetaData : Set := mkColumnChunk {
  chunk_compression : Compression;
  chunk_statistics : option Statistics;
}.

(** A row group: its row count (an [i64]) and its leaf column chunks. *)
Record RowGroupMetaData : Set := mkRowGroup {
  group_num_rows : Z;
  group_columns : list ColumnChunkMetaData;
}.

Definition is_some_and {A} (o : option A) (p : A → bool) : bool :=
  match o with Some a => p a | None => false end.

Definition integer_statistics_skip (min max : option Z) (min_exact max_exact : bool)
    (literal : Z) (o : op.PredicateOperator) : bool :=
  match o with
  | op.Gt => max_exact && is_some_and max (λ max, max <=? literal)
  | op.Gte => max_exact && is_some_and max (λ max, max <? literal)
  | op.Lt => min_exact && is_some_and min (λ min, literal <=? min)
  | op.Lte => min_exact && is_some_and min (λ min, literal <? min)
  | op.Eq =>
      (min_exact && is_some_and min (λ min, literal <? min))
      || (max_exact && is_some_and max (λ max, max <? literal))
  end.

Definition skip_statistics (p : CompiledPredicate) (kind : PruneKind) (num_rows : Z)
    (s : Statistics) : bool :=
  if bool_decide (null_count_opt s = u64_try_from num_rows) then true
  else
    match kind, statistics_values s, literal p with
    | PruneInt32, StatisticsInt32 min max, IntegerLiteral lit
    | PruneInt64, StatisticsInt64 min max, IntegerLiteral lit =>
        integer_statistics_skip min max (min_is_exact s) (max_is_exact s) lit (operator p)
    | _, _, _ => false
    end.

(** [row_groups().iter().enumerate().filter_map(...)]; [row_group.column(i)]
    panics out of range. *)
Fixpoint select_from (p : CompiledPredicate) (kind : PruneKind) (column_index index : nat)
    (groups : list RowGroupMetaData) : run (list nat) :=
  match groups with
  | [] => Returned []
  | g :: groups =>
      column ← Prelude.index (group_columns g) column_index;
      let skip := is_some_and (chunk_statistics column) (skip_statistics p kind (group_num_rows g)) in
      rest ← select_from p kind column_index (S index) groups;
      Returned (if skip then rest else index :: rest)
  end.

(** [leaves] gives for each leaf column of the Parquet schema the parts of its
    path; the first one names its root. *)
Definition select_row_groups (groups : list RowGroupMetaData) (leaves : list (list string))
    (predicate : option CompiledPredicate) : run (list nat) :=
  match predicate with
  | None => Returned (seq 0 (length groups))
  | Some p =>
      match prune_kind p with
      | None => Returned (seq 0 (length groups))
      | Some kind =>
          match position (λ parts, bool_decide (head parts = Some (compiled_column p))) leaves with
          | None => Returned (seq 0 (length groups))
          | Some column_index => select_from p kind column_index 0 groups
          end
      end
  end.

(** ** Masks and filtering *)

Section batches.
Context `{Arrow}.

(** What the [*_array_mask!] macros, the string and the boolean masks share:
    downcast, then compare what is not null. *)
Definition array_mask {T} (t : ArrayType T) (compare : T → bool) (array : ArrayRef) :
    option (list (option bool)) :=
  map (option_map compare) <$> downcast_ref t array.

(** [Option::or_else]. *)
Definition or_else {A} (o o' : option A) : option A :=
  match o with Some a => Some a | None => o' end.

(** [integer_array_mask!]: [i128::from] of an integer is the integer. *)
Definition integer_array_mask (t : ArrayType Z) (literal : Z) (o : op.PredicateOperator)
    (array : ArrayRef) : option (list (option bool)) :=
  array_mask t (λ value, compare_i128 value literal o) array.

Definition integer_predicate_mask (array : ArrayRef) (literal : Z) (o : op.PredicateOperator) :
    option (list (option bool)) :=
  let mask t := integer_array_mask t literal o array in
  or_else (or_else (or_else (or_else (or_else (or_else (or_else
    (mask Int8Type) (mask Int16Type)) (mask Int32Type)) (mask Int64Type))
    (mask UInt8Type)) (mask UInt16Type)) (mask UInt32Type)) (mask UInt64Type).

(** [float_array_mask!]: the value is widened before it is compared. *)
Definition float_array_mask {T : Set} `{IntoF64 T} (t : ArrayType T) (literal : f64)
    (o : op.PredicateOperator) (array : ArrayRef) : option (list (option bool)) :=
  array_mask t (λ value, compare_f64 (f64_from value) literal o) array.

Definition float_predicate_mask (array : ArrayRef) (literal : f64)
    (o : op.PredicateOperator) : option (list (option bool)) :=
  or_else (float_array_mask Float32Type literal o array) (float_array_mask Float64Type literal o array).

Definition string_predicate_mask (array : ArrayRef) (literal : string)
    (o : op.PredicateOperator) : option (list (option bool)) :=
  let mask t := array_mask t (λ value, compare_str value literal o) array in
  or_else (mask StringArray) (mask LargeStringArray).

Definition boolean_predicate_mask (array : ArrayRef) (literal : bool) :
    option (list (option bool)) :=
  array_mask BooleanArray (λ value, Bool.eqb value literal) array.

Definition malformed_next (message : string) : NativeFailure :=
  NativeFailure_new MalformedData ReaderNext message.

Definition predicate_mask (batch : RecordBatch) (p : CompiledPredicate) :
    run (result NativeFailure (list (option bool))) :=
  array ← column batch (column_index p);
  let mask :=
    match literal p with
    | IntegerLiteral l => integer_predicate_mask array l (operator p)
    | FloatLiteral l => float_predicate_mask array l (operator p)
    | Utf8Literal l => string_predicate_mask array l (operator p)
    | BooleanLiteral l => boolean_predicate_mask array l
    end in
  Returned (ok_or mask (malformed_next "predicate column data is incompatible")).

Definition apply_predicate (batch : RecordBatch) (predicate : option CompiledPredicate) :
    run (result NativeFailure RecordBatch) :=
  match predicate with
  | Some p =>
      mask ← predicate_mask batch p;
      Returned (mask ← mask;
                ok_or (filter_record_batch batch mask)
                  (malformed_next "predicate batch filtering failed"))
  | None => Returned (Ok batch)
  end.

Definition apply_projection (batch : RecordBatch) (output_indices : list nat) :
    result NativeFailure RecordBatch :=
  if bool_decide (output_indices = seq 0 (num_columns batch)) then Ok batch
  else ok_or (project batch output_indices) (malformed_next "predicate projection failed").

Definition apply_predicate_and_projection (batch : RecordBatch)
    (predicate : option CompiledPredicate) (output_indices : list nat) :
    run (result NativeFailure RecordBatch) :=
  batch ← apply_predicate batch predicate;
  Returned (batch ← batch; apply_projection batch output_indices).

End batches.

(** ** Specification *)

(** Does the comparison hold when the value is so ordered relative to the
    literal?  When they are unordered, none does. *)
Definition holds (o : op.PredicateOperator) (value_to_literal : option comparison) : bool :=
  match value_to_literal with
  | Some Lt => bool_decide (o = op.Lt ∨ o = op.Lte)
  | Some Eq => bool_decide (o = op.Gte ∨ o = op.Lte ∨ o = op.Eq)
  | Some Gt => bool_decide (o = op.Gt ∨ o = op.Gte)
  | None => false
  end.

(** Does a value satisfy the comparison?  Integers are ordered as integers,
    floats as the exact numbers they are, strings by their bytes; nulls and
    values of another type do not satisfy it, and for a boolean it is
    equality. *)
Definition value_matches (o : op.PredicateOperator) (l : PredicateLiteral) (v : Value) : bool :=
  match l, v with
  | IntegerLiteral l, VInteger z => holds o (Some (z ?= l))
  | FloatLiteral l, VFloat f => holds o (number_compare f (number l))
  | Utf8Literal l, VUtf8 s => holds o (Some (String.compare s l))
  | BooleanLiteral l, VBoolean b => Bool.eqb b l
  | _, _ => false
  end.

Definition row_matches (p : CompiledPredicate) (column : nat) (r : row) : bool :=
  value_matches (operator p) (literal p) (cell r column).

(** The column types a literal is compiled for. *)
Definition literal_fits (l : PredicateLiteral) (d : arrow.DataType) : bool :=
  match l, d with
  | IntegerLiteral _, (arrow.Int8 | arrow.Int16 | arrow.Int32 | arrow.Int64
      | arrow.UInt8 | arrow.UInt16 | arrow.UInt32 | arrow.UInt64)
  | FloatLiteral _, (arrow.Float32 | arrow.Float64)
  | Utf8Literal _, (arrow.Utf8 | arrow.LargeUtf8)
  | BooleanLiteral _, arrow.Boolean => true
  | _, _ => false
  end.

Definition is_null (v : Value) : bool := match v with VNull => true | _ => false end.

(** Statistics that are true of the values of a column. *)
Definition describes (s : Statistics) (num_rows : Z) (vs : list Value) : Prop :=
  num_rows = len vs ∧ num_rows ≤ i64_max ∧
  (∀ n, null_count_opt s = Some n → n = len (List.filter is_null vs)) ∧
  match statistics_values s with
  | StatisticsInt32 min max | StatisticsInt64 min max =>
      (∀ m z, min = Some m → min_is_exact s = true → VInteger z ∈ vs → m ≤ z) ∧
      (∀ m z, max = Some m → max_is_exact s = true → VInteger z ∈ vs → z ≤ m)
  | StatisticsOther => True
  end.

(** ** Lemmas *)

Lemma compile_literal_fits d o l lit k :
  compile_literal d o l = Ok (lit, k) → literal_fits lit d = true.
Proof.
  unfold compile_literal. intros H. destruct d; try discriminate H; try case_bool_decide;
    try discriminate H; apply bind_Ok in H as (x & _ & [= <- <-]); done.
Qed.

Lemma SFcompare_antisym f g : SFcompare f g = CompOpp <$> SFcompare g f.
Proof.
  destruct f as [[]|[]| |[] m e], g as [[]|[]| |[] m' e']; try done; simpl.
  all: rewrite (Z.compare_antisym e' e); destruct (e' ?= e); simpl; try done.
  all: change (Pos.compare_cont Eq m m') with (m ?= m')%positive;
    change (Pos.compare_cont Eq m' m) with (m' ?= m)%positive;
    rewrite (Pos.compare_antisym m' m); by destruct (m' ?= m)%positive.
Qed.

Lemma string_eqb_compare s t : String.eqb s t = match String.compare s t with Eq => true | _ => false end.
Proof.
  destruct (String.compare s t) eqn:Hc.
  1: by apply String.compare_eq_iff in Hc as ->; apply String.eqb_refl.
  all: apply String.eqb_neq; intros ->; pose proof (String.compare_antisym t t) as Ha;
    rewrite Hc in Ha; discriminate.
Qed.

(** The comparisons of the program are what they should be. *)
Lemma compare_i128_holds z l o : compare_i128 z l o = holds o (Some (z ?= l)).
Proof. destruct o; simpl; destruct (Z.compare_spec z l); simpl; lia. Qed.

Lemma compare_f64_holds (f l : f64) o :
  compare_f64 f l o = holds o (number_compare (number f) (number l)).
Proof.
  rewrite <-SFcompare_number by done. unfold compare_f64, SFltb, SFleb, SFeqb.
  rewrite (SFcompare_antisym (number l) (number f)).
  by destruct o, (SFcompare (number f) (number l)) as [[]|].
Qed.

Lemma compare_str_holds s l o : compare_str s l o = holds o (Some (String.compare s l)).
Proof.
  unfold compare_str, String.ltb, String.leb. rewrite string_eqb_compare, (String.compare_antisym l s).
  by destruct o, (String.compare s l).
Qed.

Lemma literal_Err {A} (b : bool) (o : option A) e :
  (if b then ok_or o predicate_literal_error else Err predicate_literal_error) = Err e →
  e = predicate_literal_error.
Proof. destruct b; [by intros [_ <-]%ok_or_Err|by intros [= <-]]. Qed.

Lemma compile_literal_Err d o l e :
  compile_literal d o l = Err e → e = predicate_literal_error ∨ e = unsupported_predicate.
Proof.
  unfold compile_literal, integer_literal, float_literal, string_literal, boolean_literal.
  destruct d; try (intros [= <-]; by right); try (case_bool_decide; [|intros [= <-]; by right]);
    (intros [Hl|(x & _ & Hl)]%bind_Err; [left; by eapply literal_Err|discriminate Hl]).
Qed.

(** A compiled predicate is the one asked for, on the first column of its name,
    with a literal of the column's type. *)
Definition compiled_for (p : NativePredicate) (fields : list arrow.Field) (c : CompiledPredicate) : Prop :=
  compiled_column c = predicate_column p ∧
  compile_operator (predicate_operator p) = Ok (operator c) ∧
  ∃ field, fields !! root_index c = Some field ∧
    arrow.field_name field = predicate_column p ∧
    (∀ j g, (j < root_index c)%nat → fields !! j = Some g → arrow.field_name g ≠ predicate_column p) ∧
    literal_fits (literal c) (arrow.field_data_type field) = true ∧
    match prune_kind c with
    | Some PruneInt32 => arrow.field_data_type field = arrow.Int32
    | Some PruneInt64 => arrow.field_data_type field = arrow.Int64
    | None => True
    end.

Lemma compile_predicate_cases p fields :
  ∃ res, compile_predicate p fields = Returned res ∧
  match res with
  | Err e => operation e = ReaderOpen ∧ retryable e = false ∧
      (category e = InvalidArgument ∨ category e = Unsupported)
  | Ok c => compiled_for p fields c
  end.
Proof.
  unfold compile_predicate. destruct (position _ fields) as [i|] eqn:Hi.
  2: { eexists. split; [done|]. simpl. auto. }
  apply position_Some in Hi as (field & Hf & Hname & Hfirst).
  destruct (compile_operator (predicate_operator p)) as [o|e] eqn:Ho.
  2: { eexists. split; [done|]. simpl. unfold compile_operator in Ho.
       repeat case_bool_decide; simplify_eq. simpl. auto. }
  unfold index. rewrite Hf. cbn [mbind run_bind]. eexists. split; [done|].
  destruct (compile_literal _ o _) as [[l k]|e] eqn:Hl; cbn [mbind result_bind].
  - split_and!; [done..|]. exists field. split_and!; [done| | | |].
    + by apply bool_decide_eq_true in Hname.
    + intros j g Hj Hg. specialize (Hfirst j g Hj Hg). by apply bool_decide_eq_false in Hfirst.
    + by eapply compile_literal_fits.
    + unfold compile_literal in Hl. simpl. destruct (arrow.field_data_type field); try discriminate Hl;
        try case_bool_decide; try discriminate Hl; by apply bind_Ok in Hl as (x & _ & [= <- <-]).
  - destruct (compile_literal_Err _ _ _ _ Hl) as [->| ->]; simpl; auto.
Qed.

Lemma is_some_and_true {A} (o : option A) p : is_some_and o p = true ↔ ∃ a, o = Some a ∧ p a = true.
Proof. destruct o; simpl; naive_solver. Qed.

Lemma all_null vs v : len (List.filter is_null vs) = len vs → v ∈ vs → is_null v = true.
Proof.
  unfold len. intros Hl%Nat2Z.inj Hv. revert Hl.
  induction Hv as [v vs|v w vs Hv IH]; simpl; pose proof (List.filter_length_le is_null vs);
    [destruct (is_null v)|destruct (is_null w)]; simpl; intros; (done || lia || (apply IH; lia)).
Qed.

Lemma integer_statistics_skip_sound min max min_exact max_exact l o z :
  (∀ m, min = Some m → min_exact = true → m ≤ z) →
  (∀ m, max = Some m → max_exact = true → z ≤ m) →
  integer_statistics_skip min max min_exact max_exact l o = true →
  holds o (Some (z ?= l)) = false.
Proof.
  intros Hmin Hmax Hskip. rewrite <-compare_i128_holds.
  destruct min as [mn|], max as [mx|], min_exact, max_exact;
    try specialize (Hmin _ eq_refl eq_refl); try specialize (Hmax _ eq_refl eq_refl);
    destruct o; simpl in *; lia.
Qed.

Lemma skip_statistics_sound p kind n s vs v :
  describes s n vs → skip_statistics p kind n s = true → v ∈ vs →
  value_matches (operator p) (literal p) v = false.
Proof.
  intros (Hn & Hmax & Hnull & Hstats) Hskip Hv. unfold skip_statistics in Hskip.
  case_bool_decide as Hc.
  - assert (u64_try_from n = Some n) as Hu.
    { apply try_from_in. pose proof (len_nonneg vs). int_bounds. lia. }
    rewrite Hu in Hc. apply Hnull in Hc. rewrite Hn in Hc. symmetry in Hc.
    apply (all_null vs v Hc) in Hv. by destruct v, (literal p).
  - destruct kind, (statistics_values s), (literal p); try done; destruct v; try done; simpl;
      eapply integer_statistics_skip_sound; naive_solver.
Qed.

(** A row group that is skipped has no matching row. *)
Definition group_sound (p : CompiledPredicate) (kind : PruneKind) (column_index : nat)
    (g : RowGroupMetaData) (rs : list row) : Prop :=
  ∃ c, group_columns g !! column_index = Some c ∧
    (is_some_and (chunk_statistics c) (skip_statistics p kind (group_num_rows g)) = true →
     Forall (λ r, row_matches p (root_index p) r = false) rs).

Lemma select_from_sound p kind ci groups rowss pre :
  Forall2 (group_sound p kind ci) groups rowss →
  ∃ sel, select_from p kind ci (length pre) groups = Returned sel ∧
    StronglySorted lt sel ∧
    Forall (λ i, length pre ≤ i < length pre + length groups)%nat sel ∧
    List.filter (row_matches p (root_index p)) (concat (map (λ i, nth i (pre ++ rowss) []) sel)) =
    List.filter (row_matches p (root_index p)) (concat rowss).
Proof.
  intros Hg. revert pre. induction Hg as [|g rs groups rowss (c & Hc & Hs) Hg IH]; intros pre; simpl.
  { exists []. split_and!; [done|constructor..|done]. }
  destruct (IH (pre ++ [rs])) as (sel & Hsel & Hsort & Hin & Hf).
  rewrite length_app, Nat.add_1_r in Hsel, Hin.
  replace ((pre ++ [rs]) ++ rowss) with (pre ++ rs :: rowss) in Hf by (by rewrite <-app_assoc).
  unfold index. rewrite Hc. cbn [mbind run_bind]. rewrite Hsel. cbn [mbind run_bind].
  rewrite List.filter_app, <-Hf.
  destruct (is_some_and (chunk_statistics c) _) eqn:Hskip; (eexists; split; [done|]).
  - split_and!; [done| |].
    + eapply Forall_impl; [exact Hin|]. simpl. lia.
    + by rewrite (filter_none _ rs) by auto.
  - split_and!.
    + constructor; [done|]. eapply Forall_impl; [exact Hin|]. simpl. lia.
    + constructor; [lia|]. eapply Forall_impl; [exact Hin|]. simpl. lia.
    + cbn [map concat]. by rewrite List.filter_app, nth_middle.
Qed.

(** Selecting every group. *)
Lemma select_all (rowss : list (list row)) :
  concat (map (λ i, nth i rowss []) (seq 0 (length rowss))) = concat rowss.
Proof.
  f_equal. apply list_eq. intros i. rewrite list_lookup_fmap.
  destruct (decide (i < length rowss)%nat) as [Hi|Hi].
  - rewrite lookup_seq_lt by done. simpl. destruct (lookup_lt_is_Some_2 rowss i Hi) as [rs Hrs].
    by rewrite (nth_lookup_Some rowss i [] rs Hrs).
  - by rewrite lookup_seq_ge, lookup_ge_None_2 by lia.
Qed.

Lemma seq_sorted k n : StronglySorted lt (seq k n).
Proof.
  revert k. induction n as [|n IH]; intros k; simpl; constructor; [done|].
  apply Forall_forall. intros i Hi%elem_of_seq. lia.
Qed.

(** What [select_row_groups] needs of a file: as many statistics per row group
    as there are leaf columns, and the predicate's ones true of the rows. *)
Definition groups_described (leaves : list (list string)) (p : CompiledPredicate)
    (groups : list RowGroupMetaData) (rowss : list (list row)) : Prop :=
  Forall2 (λ g rs,
    length (group_columns g) = length leaves ∧
    ∀ ci c s, position (λ parts, bool_decide (head parts = Some (compiled_column p))) leaves = Some ci →
      group_columns g !! ci = Some c → chunk_statistics c = Some s →
      describes s (group_num_rows g) (map (λ r, cell r (root_index p)) rs)) groups rowss.

Lemma select_row_groups_selects groups leaves p rowss :
  groups_described leaves p groups rowss →
  ∃ sel, select_row_groups groups leaves (Some p) = Returned sel ∧
    StronglySorted lt sel ∧ Forall (λ i, i < length groups)%nat sel ∧
    List.filter (row_matches p (root_index p)) (concat (map (λ i, nth i rowss []) sel)) =
    List.filter (row_matches p (root_index p)) (concat rowss).
Proof.
  intros Hd. pose proof (Forall2_length _ _ _ Hd) as Hlen.
  assert (∃ sel, Returned (seq 0 (length groups)) = Returned sel ∧
    StronglySorted lt sel ∧ Forall (λ i, i < length groups)%nat sel ∧
    List.filter (row_matches p (root_index p)) (concat (map (λ i, nth i rowss []) sel)) =
    List.filter (row_matches p (root_index p)) (concat rowss)) as Hall.
  { eexists. split; [done|]. split_and!; [apply seq_sorted| |by rewrite Hlen, select_all].
    apply Forall_forall. intros i Hi%elem_of_seq. lia. }
  unfold select_row_groups. destruct (prune_kind p) as [kind|]; [|done].
  destruct (position _ leaves) as [ci|] eqn:Hci; [|done].
  destruct (select_from_sound p kind ci groups rowss []) as (sel & Hsel & Hsort & Hin & Hf).
  - eapply Forall2_impl; [exact Hd|]. intros g rs [Hl Hs].
    apply position_Some in Hci as Hci'. destruct Hci' as (x & Hx & _ & _).
    apply lookup_lt_Some in Hx. rewrite <-Hl in Hx.
    destruct (lookup_lt_is_Some_2 _ _ Hx) as [c Hc]. exists c. split; [done|].
    intros (s & Hcs & Hskip)%is_some_and_true. specialize (Hs ci c s Hci Hc Hcs).
    apply Forall_forall. intros r Hr. unfold row_matches.
    eapply skip_statistics_sound; [done..|]. apply list_elem_of_fmap. by exists r.
  - exists sel. split_and!; [done..| |done]. eapply Forall_impl; [exact Hin|]. simpl. lia.
Qed.

(** Row groups of the right shape are always selected from without a panic. *)
Lemma select_row_groups_returns groups leaves p :
  Forall (λ g, length (group_columns g) = length leaves) groups →
  ∃ sel, select_row_groups groups leaves p = Returned sel ∧
    Forall (λ i, i < length groups)%nat sel ∧ StronglySorted lt sel.
Proof.
  intros Hg.
  assert (∃ sel, Returned (seq 0 (length groups)) = Returned sel ∧
    Forall (λ i, i < length groups)%nat sel ∧ StronglySorted lt sel) as Hall.
  { eexists. split_and!; [done| |apply seq_sorted]. apply Forall_forall. intros i Hi%elem_of_seq. lia. }
  unfold select_row_groups. destruct p as [p|]; [|done]. destruct (prune_kind p) as [kind|]; [|done].
  destruct (position _ leaves) as [ci|] eqn:Hci; [|done].
  apply position_Some in Hci as (x & Hx%lookup_lt_Some & _).
  destruct (select_from_sound p kind ci groups (map (λ _, []) groups) []) as (sel & Hsel & Hs & Hin & _).
  { apply Forall2_fmap_r, Forall_Forall2_diag. eapply Forall_impl; [exact Hg|]. intros g Hl.
    rewrite <-Hl in Hx. destruct (lookup_lt_is_Some_2 _ _ Hx) as [c Hc]. by exists c. }
  exists sel. split_and!; [done| |done]. eapply Forall_impl; [exact Hin|]. simpl. lia.
Qed.

Section filtering.
Context `{ArrowLaws}.

Lemma array_mask_other {T} (t : ArrayType T) c a :
  data_type a ≠ array_data_type t → array_mask t c a = None.
Proof. intros Ht. unfold array_mask. by rewrite (downcast_other t a Ht). Qed.

Lemma array_mask_same {T} (t : ArrayType T) c a :
  data_type a = array_data_type t →
  ∃ l, array_mask t c a = Some (map (option_map c) l) ∧ values a = map (to_value t) l.
Proof.
  intros Ht. unfold array_mask. destruct (downcast_same t a Ht) as (l & -> & Hl). by exists l.
Qed.

(** The mask of an array of a type [t] is that of its values. *)
Ltac mask_of t :=
  match goal with
  | Hd : data_type ?a = _ |- context [array_mask t ?c ?a] =>
      let l := fresh "l" in let Hm := fresh "Hm" in let Hv := fresh "Hv" in
      destruct (array_mask_same t c a Hd) as (l & Hm & Hv);
      rewrite ?Hm, Hv;
      rewrite ?(array_mask_other Int8Type), ?(array_mask_other Int16Type),
        ?(array_mask_other Int32Type), ?(array_mask_other Int64Type),
        ?(array_mask_other UInt8Type), ?(array_mask_other UInt16Type),
        ?(array_mask_other UInt32Type), ?(array_mask_other Float32Type),
        ?(array_mask_other StringArray) by (rewrite Hd; discriminate);
      rewrite ?Hm; cbn [or_else]; eexists; split; [reflexivity|];
      rewrite Forall2_fmap; apply Forall_Forall2_diag, Forall_true; intros [x|]; [|done];
      cbn [option_map to_value from_option value_matches compose];
      rewrite ?compare_i128_holds, ?compare_f64_holds, ?compare_str_holds,
        ?number_compare_f64_from, ?number_compare_f64;
      by match goal with |- ?b = _ => destruct b end
  end.

Definition literal_mask (a : ArrayRef) (l : PredicateLiteral) (o : op.PredicateOperator) :
    option (list (option bool)) :=
  match l with
  | IntegerLiteral l => integer_predicate_mask a l o
  | FloatLiteral l => float_predicate_mask a l o
  | Utf8Literal l => string_predicate_mask a l o
  | BooleanLiteral l => boolean_predicate_mask a l
  end.

Lemma literal_mask_spec a l o :
  literal_fits l (data_type a) = true →
  ∃ mask, literal_mask a l o = Some mask ∧
    Forall2 (λ m v, value_matches o l v = bool_decide (m = Some true)) mask (values a).
Proof.
  intros Hfit. unfold literal_mask, integer_predicate_mask, integer_array_mask, float_predicate_mask,
    float_array_mask, string_predicate_mask, boolean_predicate_mask.
  destruct l, (data_type a) eqn:Hd; try discriminate Hfit.
  - mask_of Int8Type. - mask_of Int16Type. - mask_of Int32Type. - mask_of Int64Type.
  - mask_of UInt8Type. - mask_of UInt16Type. - mask_of UInt32Type. - mask_of UInt64Type.
  - mask_of Float32Type. - mask_of Float64Type.
  - mask_of StringArray. - mask_of LargeStringArray.
  - mask_of BooleanArray.
Qed.

Lemma predicate_mask_spec b p d :
  batch_types b !! column_index p = Some d → literal_fits (literal p) d = true →
  ∃ mask, predicate_mask b p = Returned (Ok mask) ∧ length mask = num_rows b ∧
    keep mask (rows b) = List.filter (row_matches p (column_index p)) (rows b).
Proof.
  intros Hd Hfit. destruct (column_returns b _ _ Hd) as (a & Hcol & <- & Hvals).
  destruct (literal_mask_spec a (literal p) (operator p) Hfit) as (mask & Hm & Hall).
  exists mask. rewrite Hvals in Hall. split_and!.
  - unfold predicate_mask. rewrite Hcol. cbn [mbind run_bind]. fold (literal_mask a (literal p) (operator p)).
    by rewrite Hm.
  - apply Forall2_length in Hall. by rewrite length_map, <-num_rows_rows in Hall.
  - apply keep_filter. by rewrite Forall2_fmap_r in Hall.
Qed.

(** The types of the columns at some indices. *)
Definition types_at (idx : list nat) (ts : list arrow.DataType) : list arrow.DataType :=
  map (λ i, nth i ts arrow.Null) idx.

Lemma types_at_seq ts : types_at (seq 0 (length ts)) ts = ts.
Proof.
  unfold types_at. apply list_eq. intros i. rewrite list_lookup_fmap.
  destruct (decide (i < length ts)%nat) as [Hi|Hi].
  - rewrite lookup_seq_lt by done. destruct (lookup_lt_is_Some_2 ts i Hi) as [t Ht]. rewrite Ht. cbn.
    f_equal. by apply nth_lookup_Some.
  - rewrite lookup_seq_ge, lookup_ge_None_2 by lia. done.
Qed.

Lemma apply_projection_spec b outs :
  Forall (λ i, (i < num_columns b)%nat) outs →
  ∃ b', apply_projection b outs = Ok b' ∧ batch_types b' = types_at outs (batch_types b) ∧
    rows b' = map (cells outs) (rows b).
Proof.
  intros Houts. unfold apply_projection. case_bool_decide as Heq.
  - exists b. split; [done|]. rewrite Heq, num_columns_types, types_at_seq. split; [done|].
    rewrite <-num_columns_types. pose proof (rows_width b) as Hw.
    induction Hw as [|r rs Hr _ IH]; [done|]. simpl. by rewrite <-IH, cells_seq.
  - destruct (project_cells b outs Houts) as (b' & -> & Ht & Hrows). by exists b'.
Qed.

(** What a batch becomes, given the predicate and the output columns. *)
Definition filtered (p : option CompiledPredicate) (column : nat) (rs : list row) : list row :=
  match p with Some p => List.filter (row_matches p column) rs | None => rs end.

Definition predicate_typed (b : RecordBatch) (p : option CompiledPredicate) : Prop :=
  match p with
  | Some p => ∃ d, batch_types b !! column_index p = Some d ∧ literal_fits (literal p) d = true
  | None => True
  end.

Definition index_of (p : option CompiledPredicate) : nat :=
  match p with Some p => column_index p | None => 0%nat end.

Lemma apply_spec b p outs :
  predicate_typed b p → Forall (λ i, (i < num_columns b)%nat) outs →
  ∃ b', apply_predicate_and_projection b p outs = Returned (Ok b') ∧
    batch_types b' = types_at outs (batch_types b) ∧
    rows b' = map (cells outs) (filtered p (index_of p) (rows b)).
Proof.
  intros Hp Houts. unfold apply_predicate_and_projection, apply_predicate. destruct p as [p|].
  - destruct Hp as (d & Hd & Hfit).
    destruct (predicate_mask_spec b p d Hd Hfit) as (mask & -> & Hlen & Hkeep).
    cbn [mbind run_bind result_bind].
    destruct (filter_keeps b mask Hlen) as (b1 & -> & Ht & Hrows).
    cbn [ok_or mbind result_bind]. destruct (apply_projection_spec b1 outs) as (b' & -> & Ht' & Hb').
    + by rewrite num_columns_types, Ht, <-num_columns_types.
    + exists b'. split; [done|]. by rewrite Ht', Ht, Hb', Hrows, Hkeep.
  - cbn [mbind run_bind result_bind].
    destruct (apply_projection_spec b outs Houts) as (b' & -> & Ht' & Hb'). by exists b'.
Qed.

(** ** Properties *)

(** C9: filtering a batch never fails or panics when the predicate fits the
    type of its column: the result has exactly the rows whose value satisfies
    the comparison (never a null), in order, restricted to the output
    columns, which keep their types.  A float satisfies it when the exact
    number it is does, so that a [Float32] value equals the [f64] literal of
    the same number, and a NaN satisfies none. *)
Theorem apply_predicate_and_projection_rows b p d outs :
  batch_types b !! column_index p = Some d → literal_fits (literal p) d = true →
  Forall (λ i, (i < num_columns b)%nat) outs →
  ∃ b', apply_predicate_and_projection b (Some p) outs = Returned (Ok b') ∧
    batch_types b' = types_at outs (batch_types b) ∧
    rows b' = map (cells outs) (List.filter (row_matches p (column_index p)) (rows b)).
Proof. intros Hd Hfit Houts. apply (apply_spec b (Some p) outs); [by exists d|done]. Qed.

End filtering.

(** A predicate that compiles is the one asked for, on the first column of
    that name: its literal fits the column's type, row groups are only pruned
    by statistics of that integer type, and compilation never panics. *)
Theorem compile_predicate_sound p fields :
  ∃ res, compile_predicate p fields = Returned res ∧
  match res with
  | Err e => operation e = ReaderOpen ∧ retryable e = false ∧
      (category e = InvalidArgument ∨ category e = Unsupported)
  | Ok c => compiled_for p fields c
  end.
Proof. apply compile_predicate_cases. Qed.

(** Pruning by statistics is as sharp as exact bounds allow: with an exact
    minimum and maximum a row group is skipped exactly when no integer between
    them satisfies the comparison. *)
Theorem integer_statistics_skip_exact min max l o :
  min ≤ max →
  integer_statistics_skip (Some min) (Some max) true true l o = true ↔
  ∀ z, min ≤ z ≤ max → value_matches o (IntegerLiteral l) (VInteger z) = false.
Proof.
  intros Hle. unfold value_matches. split.
  - intros Hs z [Hz Hz']. eapply integer_statistics_skip_sound; [| |exact Hs]; naive_solver.
  - intros Hz. assert (∀ z, min ≤ z ≤ max → compare_i128 z l o = false) as Hz'.
    { intros z Hm. rewrite compare_i128_holds. by apply Hz. }
    pose proof (Hz' min ltac:(lia)). pose proof (Hz' max ltac:(lia)). pose proof (Hz' l).
    destruct o; simpl in *; lia.
Qed.

(** C8: row-group pruning loses nothing: the selected groups are listed once,
    in file order and in range, and filtering their rows gives exactly the
    matching rows of the whole file. *)
Theorem select_row_groups_sound groups leaves p rowss :
  groups_described leaves p groups rowss →
  ∃ sel, select_row_groups groups leaves (Some p) = Returned sel ∧
    StronglySorted lt sel ∧ Forall (λ i, i < length groups)%nat sel ∧
    List.filter (row_matches p (root_index p)) (concat (map (λ i, nth i rowss []) sel)) =
    List.filter (row_matches p (root_index p)) (concat rowss).
Proof. apply select_row_groups_selects. Qed.

(** The comparison operators are consistent with each other on every value
    and literal, NaN included: a non-strict comparison is the strict one or
    equality, and at most one of less, equal and greater holds.  (A boolean
    literal only compiles with equality.) *)
Theorem operators_consistent l v :
  (∀ b, l ≠ BooleanLiteral b) →
  value_matches op.Gte l v = value_matches op.Gt l v || value_matches op.Eq l v ∧
  value_matches op.Lte l v = value_matches op.Lt l v || value_matches op.Eq l v ∧
  value_matches op.Lt l v && value_matches op.Eq l v = false ∧
  value_matches op.Gt l v && value_matches op.Eq l v = false ∧
  value_matches op.Lt l v && value_matches op.Gt l v = false.
Proof.
  intros Hb. destruct l as [l|l|l|b], v as [|z|f|s|b'|c]; simpl; try done.
  - by destruct (z ?= l).
  - by destruct (number_compare f (number l)) as [[]|].
  - by destruct (String.compare s l).
  - by destruct (Hb b).
Qed.

(** ** Witnesses *)

Definition people_fields : list arrow.Field :=
  [arrow.mkField "name" arrow.Utf8 true; arrow.mkField "age" arrow.Int64 true].

Definition people_types : list arrow.DataType := map arrow.field_data_type people_fields.

Definition person (name : string) (age : Value) : row := [VUtf8 name; age].

Definition young_people : list row := [person "ada" (VInteger 12); person "bob" VNull].
Definition old_people : list row := [person "cyd" (VInteger 70); person "dee" (VInteger 41)].

Definition people_batch : MemoryBatch := mkMemoryBatch people_types (young_people ++ old_people).

Definition over_forty : NativePredicate :=
  mkNativePredicate "age" "gt" (mkNativeLiteral "integer" (Some 40) None None None).

Definition over_forty_compiled : CompiledPredicate :=
  mkCompiledPredicate "age" 1 1 op.Gt (IntegerLiteral 40) (Some PruneInt64).

Example over_forty_compiles :
  compile_predicate over_forty people_fields =
  Returned (Ok (mkCompiledPredicate "age" 0 1 op.Gt (IntegerLiteral 40) (Some PruneInt64))).
Proof. reflexivity. Qed.

(** 1.0 and the next number, as [f32]s; 1.0 as an [f64]. *)
Definition f32_one : f32 := mkFloat (prec := 24) (emax := 128) (S754_finite false 8388608 (-23)) eq_refl.
Definition f32_above : f32 := mkFloat (prec := 24) (emax := 128) (S754_finite false 8388609 (-23)) eq_refl.
Definition f64_one : f64 := mkFloat (prec := 53) (emax := 1024) (S754_finite false 4503599627370496 (-52)) eq_refl.

Definition ones_batch : MemoryBatch :=
  mkMemoryBatch [arrow.Float32]
    [[VFloat (number f32_above)]; [VFloat (number f32_one)]; [VNull]; [VFloat S754_nan]].

Definition equals_one : CompiledPredicate :=
  mkCompiledPredicate "x" 0 0 op.Eq (FloatLiteral f64_one) None.

(** The literal 1.0 matches the 1.0 of a [Float32] column, whose mantissa has
    fewer bits, and nothing else. *)
Example equals_one_mask :
  array_mask (H := MemoryArrow) Float32Type (λ value, compare_f64 (f64_from value) f64_one op.Eq)
    (mkMemoryArray arrow.Float32 (map (λ r, cell r 0) (memory_table ones_batch))) =
  Some [Some false; Some true; None; Some false].
Proof. reflexivity. Qed.

Lemma apply_predicate_and_projection_rows_witness :
  (∃ b', apply_predicate_and_projection (H := MemoryArrow) people_batch (Some over_forty_compiled) [0%nat]
      = Returned (Ok b') ∧
    batch_types (ArrowLaws := MemoryArrow_laws) b' = [arrow.Utf8] ∧
    rows (ArrowLaws := MemoryArrow_laws) b' = [[VUtf8 "cyd"]; [VUtf8 "dee"]]) ∧
  (∃ b', apply_predicate_and_projection (H := MemoryArrow) ones_batch (Some equals_one) [0%nat]
      = Returned (Ok b') ∧
    batch_types (ArrowLaws := MemoryArrow_laws) b' = [arrow.Float32] ∧
    rows (ArrowLaws := MemoryArrow_laws) b' = [[VFloat (number f32_one)]]).
Proof.
  split.
  - apply (@apply_predicate_and_projection_rows MemoryArrow MemoryArrow_laws
      people_batch over_forty_compiled arrow.Int64 [0%nat]); [reflexivity..|].
    constructor; [simpl; lia|constructor].
  - apply (@apply_predicate_and_projection_rows MemoryArrow MemoryArrow_laws
      ones_batch equals_one arrow.Float32 [0%nat]); [reflexivity..|].
    constructor; [simpl; lia|constructor].
Defined.

Lemma integer_statistics_skip_exact_witness :
  integer_statistics_skip (Some 3) (Some 9) true true 9 op.Gt = true ↔
  ∀ z, 3 ≤ z ≤ 9 → value_matches op.Gt (IntegerLiteral 9) (VInteger z) = false.
Proof. apply (integer_statistics_skip_exact 3 9 9 op.Gt). lia. Defined.

(** Two row groups: the statistics of the first rule out an age over forty. *)
Definition people_groups : list RowGroupMetaData :=
  [mkRowGroup 2 [mkColumnChunk SNAPPY None; mkColumnChunk SNAPPY (Some (mkStatistics (StatisticsInt64 (Some 12) (Some 12)) (Some 1) true true))];
   mkRowGroup 2 [mkColumnChunk SNAPPY None; mkColumnChunk SNAPPY (Some (mkStatistics (StatisticsInt64 (Some 41) (Some 70)) (Some 0) true true))]].

Lemma people_described :
  groups_described [["name"]; ["age"]] over_forty_compiled people_groups [young_people; old_people].
Proof.
  constructor; [|constructor; [|apply List.Forall2_nil]];
    (split; [done|]); intros ci c s [= <-] [= <-] [= <-];
    (split; [done|split; [by vm_compute|split; [by intros n [= <-]|split]]]);
    intros m z [= <-] _ Hz; cbn in Hz; rewrite !elem_of_cons, elem_of_nil in Hz;
    destruct_or? Hz; simplify_eq/=; lia.
Qed.

Lemma select_row_groups_sound_witness :
  (∃ sel, select_row_groups people_groups [["name"]; ["age"]] (Some over_forty_compiled) = Returned sel ∧
    StronglySorted lt sel ∧ Forall (λ i, i < length people_groups)%nat sel ∧
    List.filter (row_matches over_forty_compiled (root_index over_forty_compiled))
      (concat (map (λ i, nth i [young_people; old_people] []) sel)) = old_people) ∧
  select_row_groups people_groups [["name"]; ["age"]] (Some over_forty_compiled) = Returned [1%nat].
Proof.
  split; [|reflexivity].
  apply (select_row_groups_sound people_groups [["name"]; ["age"]] over_forty_compiled
    [young_people; old_people] people_described).
Defined.

Lemma operators_consistent_witness :
  value_matches op.Gte (FloatLiteral f64_one) (VFloat S754_nan) =
    value_matches op.Gt (FloatLiteral f64_one) (VFloat S754_nan)
    || value_matches op.Eq (FloatLiteral f64_one) (VFloat S754_nan).
Proof. apply (operators_consistent (FloatLiteral f64_one) (VFloat S754_nan)). discriminate. Defined.
