(* ===== verification/ReaderState.v ===== *)
(** * ReaderState: the prefetching batch queue of a reader

    Models [ReaderState] of [reader.rs] ([next_batch], [close], [stats], [Drop])
    and the resource around it: the mutex, poisoned by a panic while it is
    held, and the monitor callback [down].  The Parquet decoder is an
    interface whose iteration is an interaction tree over its chunk reader
    ([Decoder]), so that fetching a batch reads the store, moves the range
    counters and sees the token.  The while loop of [next_batch] takes fuel,
    one unit per turn; [next_batch_refines] shows it ends. *)
From S2P Require Import Prelude Errors Schema Arrow Predicate Object ChunkReader Decoder.

(** ** The decoder *)

Class ParquetReader `(Arrow) := {
  Reader : Type;
  (** [Iterator::next]: [None] at the end, [Some None] for an error. *)
  next : Reader → reading (run (option (option RecordBatch) * Reader));
}.

(** An iteration that yields no error, and no panic. *)
Definition yielded {A B} (r : run (option (option A) * B)) : bool :=
  match r with Returned (Some None, _) | Panicked => false | Returned _ => true end.

(** An error of the chunk reader is yielded. *)
Class ParquetReaderLaws `(ParquetReader) := {
  next_reports r : reports_read yielded (next r);
}.

(** What the decoder yields on the bytes of an object from a state on, up to
    its end. *)
Inductive decodes `{ParquetReader} (contents : bytes) (max : Z) :
    Reader → list Z → list (option RecordBatch) → Prop :=
  | decodes_end r ps r' ps' : view contents max ps (next r) = Some (Returned (None, r'), ps') →
      decodes contents max r ps []
  | decodes_item r ps x r' ps' l : view contents max ps (next r) = Some (Returned (Some x, r'), ps') →
      decodes contents max r' ps' l → decodes contents max r ps (x :: l).

(** ** State *)

Record ReaderStats : Set := mkReaderStats {
  stats_active : bool;
  stats_buffered_batches : Z;
  stats_buffered_bytes : Z;
  stats_peak_buffered_batches : Z;
  stats_peak_buffered_bytes : Z;
  stats_range_requests : Z;
  stats_range_bytes : Z;
  stats_max_range_bytes : Z;
  stats_row_groups : Z;
  stats_row_groups_read : Z;
  stats_row_groups_skipped : Z;
  stats_compressions : list string;
  stats_writer_options : gmap string string;
}.

Section reader.
Context {RS : RangeStore} `{ParquetReader}.

(** [ParquetRecordBatchReader]: the decoder, the chunk reader it owns and its
    open cursors. *)
Record ParquetRecordBatchReader : Type := mkParquetRecordBatchReader {
  decoder : Reader;
  chunks : ObjectChunkReader;
  cursors : list ObjectCursor;
}.

(** The cancellation flag and the range counters are shared ([Arc]) with the
    resource and the chunk reader; a state holds their current values. *)
Record ReaderState : Type := mkReaderState {
  reader : option ParquetRecordBatchReader;
  queue : list RecordBatch;
  cancellation : bool;
  range_metrics : RangeMetrics;
  prefetch_depth : Z;
  current_buffered_bytes : Z;
  peak_buffered_bytes : Z;
  peak_buffered_batches : Z;
  active : bool;
  eof : bool;
  row_groups : Z;
  compressions : list string;
  writer_options : gmap string string;
  predicate : option CompiledPredicate;
  output_indices : list nat;
  row_groups_read : Z;
  row_groups_skipped : Z;
}.

(** Assignments to the fields the operations change. *)
Definition set_reader (s : ReaderState) (r : option ParquetRecordBatchReader) : ReaderState :=
  mkReaderState r (queue s) (cancellation s) (range_metrics s) (prefetch_depth s)
    (current_buffered_bytes s) (peak_buffered_bytes s) (peak_buffered_batches s) (active s) (eof s)
    (row_groups s) (compressions s) (writer_options s) (predicate s) (output_indices s)
    (row_groups_read s) (row_groups_skipped s).
Definition set_buffers (s : ReaderState) (q : list RecordBatch) (bytes peak_bytes peak_batches : Z) :
    ReaderState :=
  mkReaderState (reader s) q (cancellation s) (range_metrics s) (prefetch_depth s)
    bytes peak_bytes peak_batches (active s) (eof s)
    (row_groups s) (compressions s) (writer_options s) (predicate s) (output_indices s)
    (row_groups_read s) (row_groups_skipped s).
Definition set_eof (s : ReaderState) : ReaderState :=
  mkReaderState (reader s) (queue s) (cancellation s) (range_metrics s) (prefetch_depth s)
    (current_buffered_bytes s) (peak_buffered_bytes s) (peak_buffered_batches s) (active s) true
    (row_groups s) (compressions s) (writer_options s) (predicate s) (output_indices s)
    (row_groups_read s) (row_groups_skipped s).
Definition set_cancelled (s : ReaderState) : ReaderState :=
  mkReaderState (reader s) (queue s) true (range_metrics s) (prefetch_depth s)
    (current_buffered_bytes s) (peak_buffered_bytes s) (peak_buffered_batches s) (active s) (eof s)
    (row_groups s) (compressions s) (writer_options s) (predicate s) (output_indices s)
    (row_groups_read s) (row_groups_skipped s).
Definition set_shared (s : ReaderState) (e : shared) : ReaderState :=
  mkReaderState (reader s) (queue s) (shared_cancelled e) (shared_metrics e) (prefetch_depth s)
    (current_buffered_bytes s) (peak_buffered_bytes s) (peak_buffered_batches s) (active s) (eof s)
    (row_groups s) (compressions s) (writer_options s) (predicate s) (output_indices s)
    (row_groups_read s) (row_groups_skipped s).
Definition set_inactive (s : ReaderState) : ReaderState :=
  mkReaderState (reader s) (queue s) (cancellation s) (range_metrics s) (prefetch_depth s)
    (current_buffered_bytes s) (peak_buffered_bytes s) (peak_buffered_batches s) false (eof s)
    (row_groups s) (compressions s) (writer_options s) (predicate s) (output_indices s)
    (row_groups_read s) (row_groups_skipped s).

(** ** Operations *)

Definition decoding_failed : NativeFailure :=
  malformed_next "Parquet batch decoding failed".

Definition push_batch (s : ReaderState) (batch : RecordBatch) : ReaderState :=
  let bytes := usize_wrap (current_buffered_bytes s + get_array_memory_size batch) in
  let q := queue s ++ [batch] in
  set_buffers s q bytes (Z.max (peak_buffered_bytes s) bytes)
    (Z.max (peak_buffered_batches s) (len q)).

(** [ParquetRecordBatchReader::next]. *)
Definition iterator_next (r : ParquetRecordBatchReader) (cancels : list bool) (e : shared) :
    run (option (option RecordBatch)) * ParquetRecordBatchReader * shared :=
  let '(res, cursors, e) := play_reads (next (decoder r)) (chunks r) cancels (cursors r) e in
  match res with
  | Returned (item, d) => (Returned item, mkParquetRecordBatchReader d (chunks r) cursors, e)
  | Panicked => (Panicked, mkParquetRecordBatchReader (decoder r) (chunks r) cursors, e)
  end.

(** The [while] loop: it ends normally, with an early return, or in a panic of
    the decoder or of [apply_predicate_and_projection]; [None] is out of fuel.
    [cancels] has, for each turn, when the token is cancelled during it. *)
Fixpoint fill (fuel : nat) (cancels : list (list bool)) (s : ReaderState) (st : StoreState) :
    option (run (result NativeFailure ()) * ReaderState * StoreState) :=
  match fuel with
  | O => None
  | S fuel =>
      if (len (queue s) <? prefetch_depth s) && negb (eof s) then
        match reader s with
        | None => Some (Returned (Err (NativeFailure_cancelled ReaderNext)), s, st)
        | Some r =>
            let '(item, r, e) :=
              iterator_next r (default [] (head cancels)) (mkShared (cancellation s) (range_metrics s) st) in
            let s := set_shared (set_reader s (Some r)) e in
            let st := shared_store e in
            match item with
            | Panicked => Some (Panicked, s, st)
            | Returned (Some (Some batch)) =>
                match apply_predicate_and_projection batch (predicate s) (output_indices s) with
                | Panicked => Some (Panicked, s, st)
                | Returned (Err e) => Some (Returned (Err e), s, st)
                | Returned (Ok batch) =>
                    if (num_rows batch =? 0)%nat then fill fuel (tail cancels) s st
                    else fill fuel (tail cancels) (push_batch s batch) st
                end
            | Returned (Some None) => Some (Returned (Err decoding_failed), s, st)
            | Returned None => fill fuel (tail cancels) (set_eof s) st
            end
        end
      else Some (Returned (Ok ()), s, st)
  end.

(** [pop_front] and the accounting after it. *)
Definition pop_batch (s : ReaderState) : option RecordBatch * ReaderState :=
  match queue s with
  | [] => (None, s)
  | batch :: q =>
      (Some batch,
       set_buffers s q
         (usize_saturating_sub (current_buffered_bytes s) (get_array_memory_size batch))
         (peak_buffered_bytes s) (peak_buffered_batches s))
  end.

Definition next_batch (fuel : nat) (cancels : list (list bool)) (s : ReaderState) (st : StoreState) :
    option (run (result NativeFailure (option RecordBatch)) * ReaderState * StoreState) :=
  match check (cancellation s) ReaderNext with
  | Err e => Some (Returned (Err e), s, st)
  | Ok _ =>
      if negb (active s) then Some (Returned (Err (NativeFailure_cancelled ReaderNext)), s, st)
      else
        '(res, s, st) ← fill fuel cancels s st;
        match res with
        | Panicked => Some (Panicked, s, st)
        | Returned (Err e) => Some (Returned (Err e), s, st)
        | Returned (Ok _) => let '(batch, s) := pop_batch s in Some (Returned (Ok batch), s, st)
        end
  end.

(** [close], on the state and the global [ACTIVE_READERS]. *)
Definition close (s : ReaderState) (active_readers : Z) : bool * ReaderState * Z :=
  if negb (active s) then (false, s, active_readers)
  else
    let s := set_cancelled s in
    let s := set_reader s None in
    let s := set_buffers s [] 0 (peak_buffered_bytes s) (peak_buffered_batches s) in
    let s := set_inactive s in
    (true, s, usize_wrap (active_readers - 1)).

Definition stats (s : ReaderState) : ReaderStats :=
  mkReaderStats (active s) (len (queue s)) (current_buffered_bytes s)
    (peak_buffered_batches s) (peak_buffered_bytes s)
    (requests (range_metrics s)) (range_bytes (range_metrics s)) (max_request_bytes (range_metrics s))
    (row_groups s) (row_groups_read s) (row_groups_skipped s) (compressions s) (writer_options s).

(** [Drop for ReaderState]. *)
Definition drop_state (s : ReaderState) (active_readers : Z) : Z := (close s active_readers).2.

(** ** The resource *)

(** [ReaderResource]: the mutex around the state remembers whether a panic
    unwound while it was held. *)
Record ReaderResource : Type := mkReaderResource {
  state : ReaderState;
  poisoned : bool;
}.

Definition lock (r : ReaderResource) (operation : Operation) : result NativeFailure ReaderState :=
  if poisoned r then Err (NativeFailure_expected operation "native reader state is unavailable")
  else Ok (state r).

Definition resource_next_batch (fuel : nat) (cancels : list (list bool)) (r : ReaderResource) (st : StoreState) :
    option (run (result NativeFailure (option RecordBatch)) * ReaderResource * StoreState) :=
  match lock r ReaderNext with
  | Err e => Some (Returned (Err e), r, st)
  | Ok s =>
      '(res, s, st) ← next_batch fuel cancels s st;
      Some (res, mkReaderResource s (match res with Panicked => true | _ => false end), st)
  end.

Definition resource_close (r : ReaderResource) (active_readers : Z) :
    result NativeFailure bool * ReaderResource * Z :=
  match lock r ReaderClose with
  | Err e => (Err e, r, active_readers)
  | Ok s => let '(b, s, n) := close s active_readers in (Ok b, mkReaderResource s false, n)
  end.

Definition resource_stats (r : ReaderResource) : result NativeFailure ReaderStats :=
  s ← lock r Errors.ReaderStats; Ok (stats s).

(** The monitored process went down. *)
Definition down (r : ReaderResource) (active_readers : Z) : ReaderResource * Z :=
  let r := mkReaderResource (set_cancelled (state r)) (poisoned r) in
  match lock r ReaderClose with
  | Err _ => (r, active_readers)
  | Ok s => let '(_, s, n) := close s active_readers in (mkReaderResource s false, n)
  end.

(** ** Specification *)

(** The bytes of the batches of a queue. *)
Definition buffered (q : list RecordBatch) : Z := foldr (λ b n, get_array_memory_size b + n) 0 q.

(** A decoder whose ranges are at most [bound] long, and the counters so far. *)
Definition ranges_bounded (bound : Z) (s : ReaderState) : Prop :=
  max_request_bytes (range_metrics s) ≤ bound ∧
  ∀ r, reader s = Some r → max_range_bytes (chunks r) = bound ∧ frugal_chunks (chunks r) ∧
    Forall (cursor_of (chunks r)) (cursors r).

(** What holds of every state of an opened reader, when no batch is larger
    than [max] and a full queue fits in memory. *)
Record reader_invariant (max bound : Z) (s : ReaderState) : Prop := {
  inv_ranges : ranges_bounded bound s;
  inv_depth : 0 ≤ prefetch_depth s ∧ prefetch_depth s * max ≤ usize_max;
  inv_queue : len (queue s) ≤ prefetch_depth s;
  inv_sizes : Forall (λ b, get_array_memory_size b ≤ max) (queue s);
  inv_bytes : current_buffered_bytes s = buffered (queue s);
  inv_peak_bytes : current_buffered_bytes s ≤ peak_buffered_bytes s;
  inv_peak_batches : len (queue s) ≤ peak_buffered_batches s ≤ prefetch_depth s;
  inv_active : active s = true → reader s ≠ None;
  inv_inactive : active s = false → queue s = [] ∧ reader s = None ∧ cancellation s = true;
}.

(** What can happen to an opened reader, the store and the count of active
    readers: [next_batch] with any outcome, [close], a cancellation by the
    holder of the token, or anything others do to the store. *)
Inductive reader_step : ReaderState * StoreState * Z → ReaderState * StoreState * Z → Prop :=
  | step_next_batch fuel cancels s st n res s' st' :
      next_batch fuel cancels s st = Some (res, s', st') → reader_step (s, st, n) (s', st', n)
  | step_close s st n b s' n' :
      close s n = (b, s', n') → reader_step (s, st, n) (s', st, n')
  | step_token s st n : reader_step (s, st, n) (set_cancelled s, st, n)
  | step_store s st st' n : reader_step (s, st, n) (s, st', n).

(** The state [open_backend] builds. *)
Definition opened (s : ReaderState) : Prop :=
  active s = true ∧ eof s = false ∧ cancellation s = false ∧ queue s = [] ∧ reader s ≠ None ∧
  current_buffered_bytes s = 0 ∧ peak_buffered_bytes s = 0 ∧ peak_buffered_batches s = 0.

(** ** Lemmas: the invariant *)

Lemma buffered_app q k : buffered (q ++ k) = buffered q + buffered k.
Proof. induction q as [|b q IH]; simpl; lia. Qed.

Section invariant.
Context (L : ArrowLaws _) (max bound : Z).
Hypothesis batch_max : ∀ b, get_array_memory_size b ≤ max.

Lemma buffered_bound q :
  Forall (λ b, get_array_memory_size b ≤ max) q → 0 ≤ buffered q ≤ len q * max.
Proof.
  induction 1 as [|b q Hb _ IH]; simpl; [unfold len; simpl; lia|].
  rewrite len_cons. pose proof (memory_size_nonneg b). lia.
Qed.

Lemma max_nonneg : RecordBatch → 0 ≤ max.
Proof. intros b. specialize (batch_max b). pose proof (memory_size_nonneg b). lia. Qed.

Lemma invariant_push s b :
  reader_invariant max bound s → len (queue s) < prefetch_depth s → active s = true →
  reader_invariant max bound (push_batch s b).
Proof.
  intros [Hr Hd Hq Hs Hb Hpb Hpq Ha Hi] Hlt Hact.
  assert (Forall (λ b, get_array_memory_size b ≤ max) (queue s ++ [b])) as Hs'.
  { apply Forall_app. split; [done|]. by repeat constructor. }
  pose proof (buffered_bound _ Hs') as Hbound. rewrite buffered_app in Hbound.
  pose proof (max_nonneg b).
  assert (len (queue s ++ [b]) = len (queue s) + 1) as Hl by (rewrite len_app; done).
  assert (usize_wrap (current_buffered_bytes s + get_array_memory_size b)
    = current_buffered_bytes s + get_array_memory_size b) as Hw.
  { rewrite Hb. apply usize_wrap_in. simpl in Hbound. rewrite Hl in Hbound. nia. }
  constructor; simpl; rewrite ?Hw, ?Hl; try done; try lia; try congruence.
  rewrite buffered_app, Hb. simpl. lia.
Qed.

(** An iteration of the decoder keeps its ranges bounded. *)
Lemma iterator_next_bounded s r cancels st item r' e :
  ranges_bounded bound s → reader s = Some r →
  iterator_next r cancels (mkShared (cancellation s) (range_metrics s) st) = (item, r', e) →
  ranges_bounded bound (set_shared (set_reader s (Some r')) e).
Proof.
  intros [Hm Hr] Hs Hn. destruct (Hr r Hs) as (Hb & Hf & Hc). unfold iterator_next in Hn.
  pose proof (play_range (next (decoder r)) (chunks r) cancels (cursors r) (mkShared (cancellation s) (range_metrics s) st)
    Hf Hc) as Hp.
  destruct (play_reads _ _ _ _ _) as [[res cs] e1]. destruct Hp as [Hcs He]; [unfold in_range; simpl; lia|].
  unfold in_range in He. rewrite Hb in He.
  destruct res as [[x d]|]; injection Hn as <- <- <-; (split; [done|]); by intros ? [= <-].
Qed.

Lemma invariant_fetched s r cancels st item r' e :
  reader_invariant max bound s → active s = true → reader s = Some r →
  iterator_next r cancels (mkShared (cancellation s) (range_metrics s) st) = (item, r', e) →
  reader_invariant max bound (set_shared (set_reader s (Some r')) e).
Proof.
  intros Hinv Hact Hr Hn. pose proof (iterator_next_bounded s r cancels st item r' e (inv_ranges _ _ _ Hinv) Hr Hn).
  destruct Hinv. constructor; simpl; try done; try congruence.
Qed.

Lemma invariant_eof s : reader_invariant max bound s → reader_invariant max bound (set_eof s).
Proof. intros []. by constructor. Qed.

Lemma invariant_cancelled s : reader_invariant max bound s → reader_invariant max bound (set_cancelled s).
Proof. intros [? ? ? ? ? ? ? ? Hi]. constructor; simpl; try done. intros Ha. naive_solver. Qed.

Lemma fill_invariant fuel cancels s st res s' st' :
  fill fuel cancels s st = Some (res, s', st') → reader_invariant max bound s → active s = true →
  reader_invariant max bound s' ∧ active s' = true.
Proof.
  revert cancels s st. induction fuel as [|fuel IH]; intros cancels s st; cbn [fill]; [done|].
  destruct (_ && _) eqn:Hc; [|by intros [= <- <- <-]].
  apply andb_true_iff in Hc as [Hlt%Z.ltb_lt _].
  destruct (reader s) as [r|] eqn:Hr; [|by intros [= <- <- <-]].
  destruct (iterator_next _ _ _) as [[item r'] e] eqn:Hn. intros Hf Hinv Hact.
  pose proof (invariant_fetched s r _ st item r' e Hinv Hact Hr Hn) as Hinv'.
  destruct item as [[[batch|]|]|]; [|by simplify_eq|by eapply IH; [done|apply invariant_eof|]|by simplify_eq].
  destruct (apply_predicate_and_projection _ _ _) as [[b|x]|]; [|by simplify_eq..].
  destruct (num_rows b =? 0)%nat; [by eapply IH|].
  eapply IH; [exact Hf|by apply invariant_push|done].
Qed.

Lemma invariant_pop s : reader_invariant max bound s → active s = true →
  reader_invariant max bound (pop_batch s).2 ∧ active (pop_batch s).2 = true.
Proof.
  intros Hinv Hact. unfold pop_batch. destruct (queue s) as [|b q] eqn:Hq; [done|].
  destruct Hinv as [Hr Hd Hlen Hs Hb Hpb Hpq Ha Hi]. rewrite Hq in *.
  inversion Hs as [|? ? Hsb Hsq]; subst. pose proof (buffered_bound q Hsq).
  pose proof (memory_size_nonneg b). rewrite len_cons in *. simpl in Hb.
  split; [|done]. constructor; simpl; try done; try lia; try congruence.
  all: int_bounds; lia.
Qed.

Lemma next_batch_invariant fuel cancels s st res s' st' :
  next_batch fuel cancels s st = Some (res, s', st') → reader_invariant max bound s →
  reader_invariant max bound s' ∧ active s' = active s.
Proof.
  unfold next_batch. destruct (check _ _) as [u|e]; [|by intros [= <- <- <-]].
  destruct (active s) eqn:Hact; simpl; [|by intros [= <- <- <-]].
  destruct (fill fuel cancels s st) as [[[r s1] st1]|] eqn:Hf; simpl; [|done]. intros Hr Hinv.
  destruct (fill_invariant _ _ _ _ _ _ _ Hf Hinv Hact) as [Hinv1 Hact1].
  pose proof (invariant_pop s1 Hinv1 Hact1).
  destruct r as [[[]|e]|]; simplify_eq; [|done..].
  destruct (pop_batch s1) as [b s2]. by simplify_eq/=.
Qed.

Lemma close_invariant s n b s' n' :
  close s n = (b, s', n') → reader_invariant max bound s →
  reader_invariant max bound s' ∧ active s' = false ∧ n' = if active s then usize_wrap (n - 1) else n.
Proof.
  unfold close. destruct (active s) eqn:Hact; simpl; [|by intros [= <- <- <-]].
  intros [= <- <- <-] [[Hm _] Hd Hq Hs Hb Hpb Hpq Ha Hi]. split; [|done].
  pose proof (len_nonneg (queue s)). pose proof (buffered_bound _ Hs).
  constructor; simpl; try done; unfold len in *; simpl; try lia.
Qed.

(** The count of active readers, of which [others] are not this one. *)
Definition counted (others : Z) (s : ReaderState) (n : Z) : Prop :=
  n = others + if active s then 1 else 0.

Lemma step_invariant others x y :
  0 ≤ others < usize_max → reader_step x y →
  reader_invariant max bound x.1.1 ∧ counted others x.1.1 x.2 →
  reader_invariant max bound y.1.1 ∧ counted others y.1.1 y.2.
Proof.
  unfold counted. intros Ho [fuel cancels s st n res s' st' Hn|s st n b s' n' Hc|s st n|s st st' n] [Hinv Hcount];
    simpl in *; [| | |done].
  - by destruct (next_batch_invariant _ _ _ _ _ _ _ Hn Hinv) as [? ->].
  - destruct (close_invariant _ _ _ _ _ Hc Hinv) as (? & -> & ->). split; [done|].
    destruct (active s); [|done]. rewrite usize_wrap_in; lia.
  - split; [by apply invariant_cancelled|done].
Qed.

Lemma opened_invariant s :
  opened s → ranges_bounded bound s → 0 ≤ prefetch_depth s → prefetch_depth s * max ≤ usize_max →
  reader_invariant max bound s.
Proof.
  intros (Ha & He & Hc & Hq & Hr & Hb & Hpb & Hpq) Hranges Hd Hm.
  constructor; rewrite ?Hq, ?Hb, ?Hpb, ?Hpq; try done; unfold len; simpl; try lia. by rewrite Ha.
Qed.

Lemma steps_invariant others x y :
  0 ≤ others < usize_max → rtc reader_step x y →
  reader_invariant max bound x.1.1 ∧ counted others x.1.1 x.2 →
  reader_invariant max bound y.1.1 ∧ counted others y.1.1 y.2.
Proof. induction 2; eauto using step_invariant. Qed.

End invariant.

(** ** Lemmas: what a reader delivers *)

(** The rows a batch of the decoder is turned into, and what it has to be: the
    predicate fits, and the output columns have the types of the reader's. *)
Definition deliverable `{!ArrowLaws _} (p : option CompiledPredicate) (outs : list nat)
    (b : RecordBatch) : list row :=
  map (cells outs) (filtered p (index_of p) (rows b)).

Definition well_typed `{!ArrowLaws _} (types : list arrow.DataType) (p : option CompiledPredicate) (outs : list nat)
    (b : RecordBatch) : Prop :=
  predicate_typed b p ∧ Forall (λ i, (i < num_columns b)%nat) outs ∧ types_at outs (batch_types b) = types.

Definition nonempty {A} (l : list A) : bool := match l with [] => false | _ => true end.

(** Nobody cancels the token during a call. *)
Definition undisturbed (cancels : list (list bool)) : Prop := Forall (Forall (λ b, b = false)) cancels.

Section delivery.
Context {L : ArrowLaws _} {PL : ParquetReaderLaws _} (contents : bytes) (stable : StoreState → Prop).
Context (types : list arrow.DataType).

(** [owes s n out]: an active reader of the object, whose decoder has [n]
    batches left, still owes the caller batches with the rows [out], their
    columns of the types [types]. *)
Definition owes (s : ReaderState) (n : nat) (out : list (list row)) : Prop :=
  active s = true ∧ 1 ≤ prefetch_depth s ∧
  ∃ r ps l, reader s = Some r ∧ reads_object (chunks r) contents stable ∧
    at_positions (chunks r) contents (cursors r) ps ∧ length l = n ∧
    (if eof s then l = []
     else decodes contents (max_range_bytes (chunks r)) (decoder r) ps (map Some l)) ∧
    Forall (well_typed types (predicate s) (output_indices s)) l ∧
    Forall (λ b, batch_types b = types) (queue s) ∧
    out = map rows (queue s)
      ++ List.filter nonempty (map (deliverable (predicate s) (output_indices s)) l).

(** Nothing stands in its way: the token is not cancelled, and the store
    answers every read. *)
Definition unhindered (s : ReaderState) : Prop :=
  cancellation s = false ∧ ∀ r, reader s = Some r → reliable (backend (chunks r)) contents stable.

Lemma num_rows_nonempty b : (num_rows b =? 0)%nat = negb (nonempty (rows b)).
Proof. rewrite num_rows_rows. by destruct (rows b). Qed.

Lemma iterator_next_decodes r cancels e ps l item r' e' :
  reads_object (chunks r) contents stable → at_positions (chunks r) contents (cursors r) ps →
  stable (shared_store e) → decodes contents (max_range_bytes (chunks r)) (decoder r) ps l →
  iterator_next r cancels e = (item, r', e') →
  let faithful := item = Returned (head l) ∧ ∃ ps', at_positions (chunks r) contents (cursors r') ps' ∧
    (l ≠ [] → decodes contents (max_range_bytes (chunks r)) (decoder r') ps' (tail l)) in
  stable (shared_store e') ∧ chunks r' = chunks r ∧
  (faithful ∨ item = Returned (Some None) ∨ item = Panicked) ∧
  (reliable (backend (chunks r)) contents stable → shared_cancelled e = false → Forall (λ b, b = false) cancels →
   faithful ∧ shared_cancelled e' = false).
Proof.
  intros Hr Hps Hst Hd. unfold iterator_next.
  assert (∃ d ps', view contents (max_range_bytes (chunks r)) ps (next (decoder r)) = Some (Returned (head l, d), ps') ∧
    (l ≠ [] → decodes contents (max_range_bytes (chunks r)) d ps' (tail l))) as (d & ps' & Hview & Htail).
  { destruct Hd as [d ps d' ps' Hv|d ps x d' ps' l Hv Hd]; eexists _, _; (split; [exact Hv|done]). }
  pose proof (play_stable (next (decoder r)) (chunks r) contents stable cancels (cursors r) e Hr
    (at_positions_inside _ _ _ _ _ Hr Hps) Hst) as [Hst' _].
  pose proof (play_faithful _ _ _ _ cancels _ _ e _ _ Hr Hps Hst Hview) as Hplay.
  destruct (play_reads _ _ _ _ _) as [[res cs] e1]. destruct Hplay as [Hor Hrel]. simpl in Hst'.
  assert (res = Returned (head l, d) ∧ at_positions (chunks r) contents cs ps' →
    ∀ item r' e', match res with
      | Returned (item, d) => (Returned item, mkParquetRecordBatchReader d (chunks r) cs, e1)
      | Panicked => (Panicked, mkParquetRecordBatchReader (decoder r) (chunks r) cs, e1)
      end = (item, r', e') → item = Returned (head l) ∧ ∃ ps', at_positions (chunks r) contents (cursors r') ps' ∧
    (l ≠ [] → decodes contents (max_range_bytes (chunks r)) (decoder r') ps' (tail l))) as Hgood.
  { intros [-> Hcs] ? ? ? [= <- <- <-]. split; [done|]. by exists ps'. }
  intros Hn. specialize (λ H, Hgood H _ _ _ Hn). split_and!.
  - by destruct res as [[]|]; injection Hn as <- <- <-.
  - by destruct res as [[]|]; injection Hn as <- <- <-.
  - destruct Hor as [Hok|Hfail]; [left; by apply Hgood|right].
    specialize (Hfail yielded eq_refl (next_reports _)).
    destruct res as [[[[x|]|] d1]|]; try done; injection Hn as <- <- <-; auto.
  - intros Hre Hc Hq. destruct (Hrel (conj Hre (conj Hc Hq))) as (-> & Hcs & Hc'). split; [by apply Hgood|].
    by injection Hn as <- <- <-.
Qed.

(** Fetching a batch keeps what is owed. *)
Lemma owes_fetched s n out r r' e b l ps' :
  owes s n out → reader s = Some r → chunks r' = chunks r →
  n = S (length l) → Forall (well_typed types (predicate s) (output_indices s)) (b :: l) → eof s = false →
  out = map rows (queue s) ++ List.filter nonempty (map (deliverable (predicate s) (output_indices s)) (b :: l)) →
  Forall (λ b, batch_types b = types) (queue s) → at_positions (chunks r) contents (cursors r') ps' →
  decodes contents (max_range_bytes (chunks r)) (decoder r') ps' (map Some l) →
  let s1 := set_shared (set_reader s (Some r')) e in
  ∃ b', apply_predicate_and_projection b (predicate s) (output_indices s) = Returned (Ok b') ∧
    owes (if (num_rows b' =? 0)%nat then s1 else push_batch s1 b') (length l) out.
Proof.
  intros (Ha & Hd & r0 & _ & _ & Hr0 & Hro & _) Hr Hch -> Ht He -> Htq Hps Hdec s1.
  assert (r0 = r) as -> by congruence.
  inversion Ht as [|? ? (Hp & Ho & Hbt) Ht']; subst.
  destruct (apply_spec b (predicate s) (output_indices s) Hp Ho) as (b' & Happ & Hbt' & Hrows).
  exists b'. split; [done|]. rewrite num_rows_nonempty.
  fold (deliverable (predicate s) (output_indices s) b) in Hrows.
  destruct (nonempty (rows b')) eqn:Hne; simpl;
    (split; [done|split; [done|]]); exists r', ps', l; simpl; rewrite He, Hch;
    (split_and!; try done);
    rewrite Hrows in Hne; rewrite ?map_app, ?Hne; simpl; try done.
  - apply Forall_app. split; [done|]. constructor; [congruence|done].
  - by rewrite <-app_assoc, Hrows.
Qed.

Lemma fill_owes fuel cancels s st n out :
  owes s n out → stable st → (n + 2 ≤ fuel)%nat →
  ∃ res s' st', fill fuel cancels s st = Some (res, s', st') ∧ stable st' ∧
  match res with
  | Returned (Ok _) => ∃ n', owes s' n' out ∧ (n' ≤ n)%nat ∧
      (prefetch_depth s' ≤ len (queue s') ∨ eof s' = true)
  | Returned (Err e) => e = decoding_failed
  | Panicked => True
  end ∧ (unhindered s → undisturbed cancels → res = Returned (Ok ()) ∧ unhindered s').
Proof.
  revert cancels s st n. induction fuel as [|fuel IH]; intros cancels s st n Ho Hst Hfuel; [lia|]. cbn [fill].
  destruct (Z.ltb_spec (len (queue s)) (prefetch_depth s)); cbn [andb].
  2: { eexists _, _, _. split_and!; [done..| |done]. exists n. split_and!; [done..|by left]. }
  destruct (eof s) eqn:He; cbn [negb].
  { eexists _, _, _. split_and!; [done..| |done]. exists n. split_and!; [done..|by right]. }
  pose proof Ho as (Ha & Hd & r & ps & l & Hr & Hro & Hps & Hn & Hy & Ht & Htq & Hout). rewrite He in Hy. rewrite Hr.
  destruct (iterator_next _ _ _) as [[item r'] e] eqn:Hnext.
  destruct (iterator_next_decodes r _ (mkShared (cancellation s) (range_metrics s) st) _ _ _ _ _ Hro Hps Hst Hy Hnext) as (Hst' & Hch & Hor & Hrel).
  cbn [shared_cancelled] in Hrel.
  assert (unhindered s → undisturbed cancels → item = Returned (head (map Some l)) ∧
    unhindered (set_shared (set_reader s (Some r')) e) ∧ undisturbed (tail cancels)) as Hclear.
  { intros [Hc Hdep] Hq.
    assert (Forall (λ b, b = false) (default [] (head cancels))) as Hq' by (by destruct Hq; [constructor|]).
    destruct (Hrel (Hdep r Hr) Hc Hq') as [[Hi _] Hc']. split_and!; [done| |by destruct Hq; [constructor|]].
    split; [done|]. intros ? [= <-]. rewrite Hch. by apply Hdep. }
  destruct Hor as [(-> & ps' & Hps' & Htail)|Hbad].
  2: { destruct Hbad as [-> | ->]; eexists _, _, _; (split; [done|split; [exact Hst'|split; [done|]]]);
       intros Hu Hq; destruct (Hclear Hu Hq) as [Hi _]; destruct l; discriminate. }
  destruct l as [|b l]; cbn [map head] in *.
  - cbn [length] in Hn. subst n.
    assert (owes (set_eof (set_shared (set_reader s (Some r')) e)) 0 out) as Ho'.
    { split; [done|split; [done|]]. exists r', ps', []. simpl. by rewrite Hch. }
    destruct fuel as [|fuel]; [lia|]. cbn [fill eof set_eof negb]. rewrite andb_false_r.
    eexists _, _, _. split_and!; [done|exact Hst'| |intros Hu Hq; by destruct (Hclear Hu Hq) as (_ & ? & _)].
    exists 0%nat. split_and!; [exact Ho'|done|by right].
  - destruct (owes_fetched s n out r r' e b l ps' Ho Hr Hch) as (b' & Happ & Ho'); try done.
    { by apply Htail. }
    cbn [predicate output_indices set_shared set_reader]. rewrite Happ. cbn [length] in Hn.
    destruct (num_rows b' =? 0)%nat;
      (destruct (IH (tail cancels) _ _ _ Ho' Hst' ltac:(lia)) as (res & s' & st' & Hf & Hst2 & Hres & Hu2);
       exists res, s', st'; split_and!; [done..| |];
       [destruct res as [[[]|x]|]; [|done..]; destruct Hres as (n' & ? & ? & ?); exists n'; split_and!; [done|lia|done]
       |intros Hu Hq; destruct (Hclear Hu Hq) as (_ & Hu' & Hq'); by apply Hu2]).
Qed.

Lemma next_batch_owes fuel cancels s st n out :
  owes s n out → stable st → (n + 2 ≤ fuel)%nat →
  ∃ res s' st', next_batch fuel cancels s st = Some (res, s', st') ∧ stable st' ∧
  match res with
  | Returned (Ok None) => out = [] ∧ ∃ n', owes s' n' [] ∧ (n' ≤ n)%nat
  | Returned (Ok (Some b)) => batch_types b = types ∧ ∃ n' out', out = rows b :: out' ∧ owes s' n' out' ∧ (n' ≤ n)%nat
  | Returned (Err e) => e = decoding_failed ∨ e = NativeFailure_cancelled ReaderNext ∧ cancellation s = true
  | Panicked => True
  end ∧ (unhindered s → undisturbed cancels → (∃ b, res = Returned (Ok b)) ∧ unhindered s').
Proof.
  intros Ho Hst Hfuel. unfold next_batch. destruct (cancellation s) eqn:Hc; cbn [check].
  { eexists _, _, _. split_and!; [done..|by right|]. intros [Hc' _]. congruence. }
  pose proof Ho as (Ha & _). rewrite Ha. cbn [negb].
  destruct (fill_owes fuel cancels s st n out Ho Hst Hfuel) as (res & s1 & st1 & Hf & Hst1 & Hres & Hu).
  rewrite Hf. cbn [mbind option_bind].
  destruct res as [[[]|e]|].
  2: { eexists _, _, _. split_and!; [done..|by left|]. intros Hun Hq. by destruct (Hu Hun Hq). }
  2: { eexists _, _, _. split_and!; [done..|]. intros Hun Hq. by destruct (Hu Hun Hq). }
  destruct Hres as (n1 & (Ha1 & Hd1 & r & ps & l & Hr & Hro & Hps & Hn & Hy & Ht & Htq & ->) & Hle & Hor).
  unfold pop_batch. destruct (queue s1) as [|b q] eqn:Hq; simpl.
  - assert (eof s1 = true) as He by (destruct Hor; [unfold len in *; simpl in *; lia|done]).
    rewrite He in Hy. subst l. eexists _, s1, st1. split_and!; [done..| |].
    + split; [done|]. exists n1. split; [|done]. split; [done|split; [done|]]. exists r, ps, []. by rewrite He, Hq.
    + intros Hun Hqu. destruct (Hu Hun Hqu) as [_ ?]. split; [by eexists|done].
  - eexists _, _, st1. split_and!; [done..| |].
    + inversion Htq as [|? ? Hbt Htq']; subst. split; [done|].
      exists (length l). eexists. split; [done|]. split; [|done]. split; [done|split; [done|]]. by exists r, ps, l.
    + intros Hun Hqu. destruct (Hu Hun Hqu) as [_ ?]. split; [by eexists|done].
Qed.

End delivery.

Lemma fill_active fuel cancels s st res s' st' : fill fuel cancels s st = Some (res, s', st') → active s' = active s.
Proof.
  revert cancels s st. induction fuel as [|fuel IH]; intros cancels s st; cbn [fill]; [done|].
  destruct (_ && _); [|by intros [= <- <- <-]]. destruct (reader s) as [r|]; [|by intros [= <- <- <-]].
  destruct (iterator_next _ _ _) as [[[[[b|]|]|] r'] e];
    [|by intros [= <- <- <-]|by intros ->%IH|by intros [= <- <- <-]].
  destruct (apply_predicate_and_projection _ _ _) as [[b'|x]|]; [|by intros [= <- <- <-]..].
  destruct (num_rows b' =? 0)%nat; by intros ->%IH.
Qed.

(** ** Properties *)

(** C7: [next_batch] implements the reader's contract.  A reader that owes
    the caller a list of batches of an object the store keeps, whenever it is
    called, ends: it returns the first of them and owes the rest, or the end
    when it owes none; or it reports a read that failed or the cancelled token,
    and does neither when nothing stands in its way.  The loop needs at most
    two turns more than the decoder has batches. *)
Theorem next_batch_refines {L : ArrowLaws _} {PL : ParquetReaderLaws _} contents stable types fuel cancels s st n out :
  owes contents stable types s n out → stable st → (n + 2 ≤ fuel)%nat →
  ∃ res s' st', next_batch fuel cancels s st = Some (res, s', st') ∧ stable st' ∧
  match res with
  | Returned (Ok None) => out = [] ∧ ∃ n', owes contents stable types s' n' [] ∧ (n' ≤ n)%nat
  | Returned (Ok (Some b)) => batch_types b = types ∧
      ∃ n' out', out = rows b :: out' ∧ owes contents stable types s' n' out' ∧ (n' ≤ n)%nat
  | Returned (Err e) => e = decoding_failed ∨ e = NativeFailure_cancelled ReaderNext ∧ cancellation s = true
  | Panicked => True
  end ∧
  (unhindered contents stable s → undisturbed cancels →
    (∃ b, res = Returned (Ok b)) ∧ unhindered contents stable s').
Proof. apply next_batch_owes. Qed.

(** Closing is final and idempotent: it succeeds once, gives up its slot
    in the count of active readers once (a later [close] or [Drop] does not),
    and from then on [next_batch] is refused as cancelled and leaves the store
    alone. *)
Theorem close_final s n b s' n' :
  close s n = (b, s', n') →
  b = active s ∧ active s' = false ∧ close s' n' = (false, s', n') ∧ drop_state s' n' = n' ∧
  ∀ fuel cancels st, next_batch fuel cancels s' st = Some (Returned (Err (NativeFailure_cancelled ReaderNext)), s', st).
Proof.
  unfold drop_state, close. destruct (active s) eqn:Ha; simpl; intros [= <- <- <-]; simpl.
  - done.
  - rewrite Ha. split_and!; try done. intros fuel cancels st. unfold next_batch. rewrite Ha.
    by destruct (cancellation s).
Qed.

(** A panic while the state is locked, of the decoder as well, poisons
    the reader: every later call is refused, the owner's death still cancels
    but no longer closes it, and only dropping the resource gives its slot
    back. *)
Theorem poisoned_reader fuel cancels r st r' st' n :
  resource_next_batch fuel cancels r st = Some (Panicked, r', st') →
  (∀ fuel' cancels' st1, resource_next_batch fuel' cancels' r' st1 =
    Some (Returned (Err (NativeFailure_expected ReaderNext "native reader state is unavailable")), r', st1)) ∧
  resource_close r' n =
    (Err (NativeFailure_expected ReaderClose "native reader state is unavailable"), r', n) ∧
  cancellation (state (down r' n).1) = true ∧ (down r' n).2 = n ∧
  drop_state (state r') n = usize_wrap (n - 1).
Proof.
  unfold resource_next_batch, lock at 1. destruct (poisoned r) eqn:Hp; [by intros [= ]|].
  destruct (next_batch fuel cancels (state r) st) as [[[res s] st1]|] eqn:Hn; simpl; [|done].
  intros [= -> <- <-]. unfold resource_close, down, lock. simpl. split_and!; [done..|].
  unfold next_batch in Hn. destruct (check _ _); [|by simplify_eq].
  destruct (active (state r)) eqn:Ha; simpl in Hn; [|by simplify_eq].
  destruct (fill fuel cancels (state r) st) as [[[res s1] st2]|] eqn:Hf; simpl in Hn; [|done].
  apply fill_active in Hf. destruct res as [[[]|e]|]; simplify_eq.
  - by destruct (pop_batch s1).
  - unfold drop_state, close. by rewrite Hf, Ha.
Qed.

End reader.

(** ** A decoder that yields the items of a list *)

(** Before each it reads a byte of the object. *)
Definition ListReader (A : Arrow) : ParquetReader A := {|
  Reader := list (option RecordBatch);
  next l :=
    match l with
    | [] => Got (Returned (None, []))
    | x :: l => GetBytes 0 1 (λ r, Got (Returned (Some (match r with Ok _ => x | Err _ => None end), l)))
    end;
|}.

Lemma ListReader_laws (A : Arrow) : ParquetReaderLaws (ListReader A).
Proof. constructor. intros [|x l]; [done|]. split; [by intros e|done]. Qed.

#[local] Existing Instances MemoryArrow MemoryArrow_laws ListReader ListReader_laws.

Lemma list_decodes (A : Arrow) contents max ps (l : list (option RecordBatch)) :
  1 ≤ max → contents ≠ [] → decodes (H0 := ListReader A) contents max l ps l.
Proof.
  intros Hm Hc. induction l as [|x l IH].
  - by apply (decodes_end (H0 := ListReader A) contents max [] ps [] ps).
  - apply (decodes_item (H0 := ListReader A) contents max (x :: l) ps x l ps l); [|done]. cbn [next ListReader view].
    destruct (Z.leb_spec (Z.of_N 1) max); [|lia].
    destruct (Z.leb_spec (Z.of_N 0 + Z.of_N 1) (len contents)) as [|Hlt]; [done|].
    destruct contents; [done|]. rewrite len_cons in Hlt. pose proof (len_nonneg contents).
    lia.
Qed.

#[local] Existing Instance OneObject.

Definition sample_reader (l : list (option MemoryBatch)) (p : option CompiledPredicate)
    (outs : list nat) : ReaderState (RS := OneObject sample_object) (H0 := ListReader MemoryArrow) :=
  mkReaderState (Some (mkParquetRecordBatchReader (H0 := ListReader MemoryArrow) l (sample_chunks 4) []))
    [] false RangeMetrics_default 2 0 0 0 true false 2 [] ∅ p outs 2 0.

Definition young_batch : MemoryBatch := mkMemoryBatch people_types young_people.
Definition old_batch : MemoryBatch := mkMemoryBatch people_types old_people.

Lemma sample_owes :
  owes (RS := OneObject sample_object) (H0 := ListReader MemoryArrow) sample_object (λ _, True) [arrow.Utf8]
    (sample_reader [Some young_batch; Some old_batch] (Some over_forty_compiled) [0%nat]) 2
    [[[VUtf8 "cyd"]; [VUtf8 "dee"]]].
Proof.
  split; [done|]. split; [simpl; lia|].
  eexists _, [], [young_batch; old_batch]. split_and!; [done|apply sample_reads; int_bounds; lia|done|done| | |done|done].
  - apply list_decodes; [simpl; lia|done].
  - repeat constructor; try (simpl; lia). all: by exists arrow.Int64.
Qed.

(** With two reads, each counted. *)
Lemma next_batch_refines_witness :
  let s := sample_reader [Some young_batch; Some old_batch] (Some over_forty_compiled) [0%nat] in
  (∃ s', next_batch 4 [] s 0%nat
    = Some (Returned (Ok (Some (mkMemoryBatch [arrow.Utf8] [[VUtf8 "cyd"]; [VUtf8 "dee"]]))), s', 2%nat) ∧
    range_metrics s' = mkRangeMetrics 2 2 1) ∧
  ∃ b s' st', next_batch 4 [] s 0%nat = Some (Returned (Ok b), s', st') ∧
    unhindered (H0 := ListReader MemoryArrow) sample_object (λ _, True) s'.
Proof.
  intros s. split; [eexists; split; vm_compute; reflexivity|].
  destruct (next_batch_refines sample_object (λ _, True) [arrow.Utf8] 4 [] s 0%nat 2 _ sample_owes I ltac:(lia))
    as (res & s' & st' & Hn & _ & _ & Hu).
  destruct Hu as [[b ->] Hu].
  - split; [done|]. intros r [= <-] offset length st _ Ho _. simpl.
    destruct (Z.ltb_spec (len sample_object) offset); [lia|done].
  - constructor.
  - by exists b, s', st'.
Defined.

Lemma close_final_witness :
  ∃ s', close (sample_reader [] None []) 3 = (true, s', 2) ∧ true = true ∧ active s' = false ∧
    close s' 2 = (false, s', 2) ∧ drop_state s' 2 = 2 ∧
    ∀ fuel cancels st, next_batch fuel cancels s' st =
      Some (Returned (Err (NativeFailure_cancelled ReaderNext)), s', st).
Proof.
  eexists. split; [reflexivity|].
  apply (close_final (sample_reader [] None []) 3 true _ 2). reflexivity.
Defined.

(** A batch without the predicate's column makes [RecordBatch::column] panic. *)
Lemma poisoned_reader_witness :
  let r := mkReaderResource (sample_reader [Some (mkMemoryBatch [] [[]])] (Some over_forty_compiled) [0%nat]) false in
  ∃ r', resource_next_batch 3 [] r 0%nat = Some (Panicked, r', 1%nat) ∧
    (down r' 1).2 = 1 ∧ drop_state (state r') 1 = usize_wrap (1 - 1).
Proof.
  intros r. eexists. split; [reflexivity|].
  destruct (poisoned_reader 3 [] r 0%nat _ 1%nat 1 eq_refl) as (_ & _ & _ & Hd & Hdrop). split; [exact Hd|exact Hdrop].
Defined.
