(* ===== verification/ReaderOpen.v ===== *)
(** * ReaderOpen: opening a file for reading

    Models [open_backend] of [reader.rs] with [projection_indices] and
    [compression_label]: which columns are decoded, where the requested ones
    and the predicate's one are found in a decoded batch, which row groups are
    read, and the state the reader starts in.  What such a reader delivers is
    shown in [ReaderQuery]. *)
From S2P Require Import Prelude Errors Schema Arrow Predicate Object ChunkReader Decoder ReaderState.

(** ** The Parquet file *)

(** [ProjectionMask]. *)
Inductive ProjectionMask : Set :=
  | MaskAll
  | MaskRoots (indices : list nat).

(** What the builder knows once it has read the footer. *)
Record ParquetMetaData : Set := mkParquetMetaData {
  schema_fields : list arrow.Field;
  parquet_columns : list (list string);
  meta_row_groups : list RowGroupMetaData;
  key_value_metadata : option (list (string * option string));
}.

(** [ParquetRecordBatchReaderBuilder] over a chunk reader of some length. *)
Class ParquetFile `(ParquetReader) := {
  Builder : Type;
  try_new : N → reading (run (option (ParquetMetaData * Builder)));
  build : Builder → Z → ProjectionMask → list nat → reading (run (option Reader));
}.

Definition is_done {A} (r : run (option A)) : bool := match r with Returned (Some _) => true | _ => false end.

(** An error of the chunk reader is returned. *)
Class ParquetFileLaws `(ParquetFile) := {
  try_new_reports n : reports_read is_done (try_new n);
  build_reports b n mask groups : reports_read is_done (build b n mask groups);
}.

(** ** The code *)

Definition compression_label (c : Compression) : string :=
  match c with
  | UNCOMPRESSED => "uncompressed"
  | SNAPPY => "snappy"
  | GZIP _ => "gzip"
  | ZSTD _ => "zstd"
  | LZ4_RAW => "lz4_raw"
  | LZO => "lzo"
  | BROTLI _ => "brotli"
  | LZ4 => "lz4"
  end.

Definition malformed_open : NativeFailure :=
  NativeFailure_new MalformedData ReaderOpen "Parquet metadata is malformed".

Definition column_missing : NativeFailure :=
  NativeFailure_invalid ReaderOpen "projected column does not exist".

Definition column_position (fields : list arrow.Field) (column : string) : option nat :=
  position (λ field, bool_decide (arrow.field_name field = column)) fields.

Definition projection_indices (fields : list arrow.Field) (columns : list string) :
    result NativeFailure (list nat) :=
  if bool_decide (columns = []) then Ok (seq 0 (length fields))
  else
    indices ← collect (λ column, ok_or (column_position fields column) column_missing) columns;
    Ok (sort_unstable indices).

(** The labels of all column chunks, sorted and without repetitions. *)
Definition file_compressions (groups : list RowGroupMetaData) : list string :=
  dedup (sort_strings
    (map (λ c, compression_label (chunk_compression c)) (concat (map group_columns groups)))).

(** Collecting into a [HashMap] keeps the last value of a key. *)
Definition file_writer_options (entries : option (list (string * option string))) : gmap string string :=
  foldl (λ m e,
    match e with
    | (key, Some value) => if starts_with "parquex." key then <[key := value]> m else m
    | (_, None) => m
    end) ∅ (default [] entries).

(** [Option::map(...).transpose()]. *)
Definition compile_optional (p : option NativePredicate) (fields : list arrow.Field) :
    run (result NativeFailure (option CompiledPredicate)) :=
  match p with
  | None => Returned (Ok None)
  | Some p => c ←? compile_predicate p fields; Returned (Ok (Some c))
  end.

(** The columns to decode: the requested ones and the predicate's. *)
Definition read_columns (requested : list nat) (p : option CompiledPredicate) : list nat :=
  match p with
  | Some p =>
      if bool_decide (root_index p ∈ requested) then requested
      else sort_unstable (requested ++ [root_index p])
  | None => requested
  end.

Definition index_position (i : nat) (indices : list nat) : option nat :=
  position (λ j, bool_decide (j = i)) indices.

(** Where the requested columns are in a decoded batch. *)
Definition output_positions (columns : list string) (fields : list arrow.Field)
    (requested read : list nat) : run (list nat) :=
  if bool_decide (columns = []) then Returned (seq 0 (length fields))
  else mapM (λ i, expect (index_position i read)) requested.

(** ... and where the predicate's column is. *)
Definition place_predicate (columns : list string) (read : list nat) (p : option CompiledPredicate) :
    run (option CompiledPredicate) :=
  match p with
  | None => Returned None
  | Some p =>
      i ← (if bool_decide (columns = []) then Returned (root_index p)
           else expect (index_position (root_index p) read));
      Returned (Some (mkCompiledPredicate (compiled_column p) i (root_index p) (operator p)
                        (literal p) (prune_kind p)))
  end.

Definition projected (columns : list string) (fields : list arrow.Field)
    (all : list NativeField) (requested : list nat) : run (result NativeFailure (list NativeField)) :=
  if bool_decide (columns = []) then Returned (Ok all)
  else try_collect (λ i, field ← index fields i; Returned (native_field field)) requested.

Record ReaderOpenSettings : Set := mkReaderOpenSettings {
  settings_max_range_bytes : Z;
  batch_size : Z;
  settings_prefetch_depth : Z;
  columns : list string;
  settings_predicate : option NativePredicate;
}.

Section open.
Context {RS : RangeStore} `{PF : ParquetFile}.

(** Everything computed from the metadata before the decoder is built. *)
Record ReadPlan : Type := mkReadPlan {
  plan_fields : list NativeField;
  plan_mask : ProjectionMask;
  plan_outputs : list nat;
  plan_predicate : option CompiledPredicate;
  plan_groups : list nat;
}.

Definition plan_read (meta : ParquetMetaData) (settings : ReaderOpenSettings) :
    run (result NativeFailure ReadPlan) :=
  let all_fields := schema_fields meta in
  native_all_fields ←? Returned (collect native_field all_fields);
  requested_indices ←? Returned (projection_indices all_fields (columns settings));
  predicate ←? compile_optional (settings_predicate settings) all_fields;
  let read_indices := read_columns requested_indices predicate in
  let projection :=
    if bool_decide (columns settings = []) then MaskAll else MaskRoots read_indices in
  projected_fields ←? projected (columns settings) all_fields native_all_fields requested_indices;
  output_indices ← output_positions (columns settings) all_fields requested_indices read_indices;
  predicate ← place_predicate (columns settings) read_indices predicate;
  selected ← select_row_groups (meta_row_groups meta) (parquet_columns meta) predicate;
  Returned (Ok (mkReadPlan projected_fields projection output_indices predicate selected)).

(** The token is the reader's own until it is returned: nobody cancels it. *)
Definition open_backend (backend : ChunkBackend) (object_size : Z) (settings : ReaderOpenSettings)
    (st : StoreState) (active_readers : Z) :
    run (result NativeFailure (ReaderResource * list NativeField)) * StoreState * Z :=
  let chunk_reader := mkObjectChunkReader backend object_size (settings_max_range_bytes settings) in
  let '(builder, cursors, e) :=
    play_reads (try_new (Z.to_N (chunk_len chunk_reader))) chunk_reader [] []
      (mkShared false RangeMetrics_default st) in
  match
    builder ← builder;
    opened ←? Returned (ok_or builder malformed_open);
    plan ←? plan_read opened.1 settings;
    Returned (Ok (opened, plan))
  with
  | Panicked => (Panicked, shared_store e, active_readers)
  | Returned (Err failure) => (Returned (Err failure), shared_store e, active_readers)
  | Returned (Ok (meta, builder, plan)) =>
      let row_groups := len (meta_row_groups meta) in
      let row_groups_read := len (plan_groups plan) in
      let '(reader, cursors, e) :=
        play_reads (build builder (batch_size settings) (plan_mask plan) (plan_groups plan)) chunk_reader [] cursors e in
      match reader with
      | Panicked => (Panicked, shared_store e, active_readers)
      | Returned None => (Returned (Err malformed_open), shared_store e, active_readers)
      | Returned (Some reader) =>
          (queue ← with_capacity (settings_prefetch_depth settings) record_batch_size;
           Returned (Ok (
             mkReaderResource
               (mkReaderState (Some (mkParquetRecordBatchReader reader chunk_reader cursors)) queue
                  (shared_cancelled e) (shared_metrics e) (settings_prefetch_depth settings) 0 0 0
                  true false row_groups (file_compressions (meta_row_groups meta))
                  (file_writer_options (key_value_metadata meta)) (plan_predicate plan) (plan_outputs plan)
                  row_groups_read (usize_saturating_sub row_groups row_groups_read))
               false,
             plan_fields plan)),
           shared_store e, usize_wrap (active_readers + 1))
      end
  end.

(** [open_store], with the state of the store after [head]. *)
Definition open_store (store : StoreResource) (key : string) (settings : ReaderOpenSettings)
    (s : StoreState) (active_readers : Z) :
    run (result NativeFailure (ReaderResource * list NativeField)) * StoreState * Z :=
  let '(metadata, s) := store_head store key s in
  match map_err (with_operation ReaderOpen) metadata with
  | Err e => (Returned (Err e), s, active_readers)
  | Ok metadata => open_backend (mkChunkBackend store key) (size metadata) settings s active_readers
  end.

End open.

(** ** Lemmas: indices *)

Lemma index_position_in i l : i ∈ l → ∃ k, index_position i l = Some k ∧ l !! k = Some i.
Proof.
  intros Hi. unfold index_position. destruct (position _ l) as [k|] eqn:Hk.
  - apply position_Some in Hk as (j & Hj & ->%bool_decide_eq_true & _). by exists k.
  - apply position_None in Hk. rewrite Forall_forall in Hk. apply Hk in Hi.
    by apply bool_decide_eq_false in Hi.
Qed.

Lemma column_position_Some fields column i :
  column_position fields column = Some i →
  ∃ field, fields !! i = Some field ∧ arrow.field_name field = column.
Proof.
  intros (field & Hf & Hn%bool_decide_eq_true & _)%position_Some. by exists field.
Qed.

Lemma sorted_lt l : StronglySorted Nat.le l → NoDup l → StronglySorted lt l.
Proof.
  induction 1 as [|i l Hs IH Hi]; intros Hn; inversion Hn as [|? ? Hni Hn']; subst; constructor; [auto|].
  rewrite Forall_forall in Hi |- *. intros j Hj. specialize (Hi j Hj).
  assert (j ≠ i) by (by intros ->). unfold Nat.le in *. lia.
Qed.

Lemma sort_unstable_lt l : NoDup l → StronglySorted lt (sort_unstable l).
Proof.
  intros Hl. apply sorted_lt; [apply sort_unstable_Sorted|]. by rewrite sort_unstable_Permutation.
Qed.

Lemma sorted_lt_seq l n :
  StronglySorted lt l → Forall (λ i, i < n)%nat l → (∀ i, (i < n)%nat → i ∈ l) → l = seq 0 n.
Proof.
  intros Hs Hlt Hall.
  assert (∀ k l, StronglySorted lt l → (∀ i, i ∈ l ↔ k ≤ i < n)%nat → l = seq k (n - k)) as Hgen.
  { intros k. remember (n - k)%nat as m eqn:Hm. revert k Hm.
    induction m as [|m IH]; intros k Hm l0 Hs0 Hin.
    - destruct l0 as [|i l0]; [done|]. assert (i ∈ i :: l0) as Hi by constructor. apply Hin in Hi. lia.
    - assert (k ∈ l0) as Hk by (apply Hin; lia). destruct l0 as [|i l0]; [by apply not_elem_of_nil in Hk|].
      inversion Hs0 as [|? ? Hs1 Hi]; subst. rewrite Forall_forall in Hi.
      assert (i = k) as ->.
      { apply elem_of_cons in Hk as [->|Hk]; [done|]. specialize (Hi k Hk).
        assert (k ≤ i)%nat by (apply (Hin i); constructor). lia. }
      simpl. f_equal. apply IH; [lia|done|]. intros j. specialize (Hin j).
      rewrite elem_of_cons in Hin. split; [|naive_solver lia].
      intros Hj. specialize (Hi j Hj). naive_solver lia. }
  rewrite (Hgen 0%nat l Hs); [by rewrite Nat.sub_0_r|].
  intros i. split; [|naive_solver lia]. rewrite Forall_forall in Hlt. intros Hi. split; [lia|auto].
Qed.

(** The requested indices: in range, as many as the columns, in file order. *)
Lemma projection_indices_Ok fields cols idx :
  projection_indices fields cols = Ok idx → cols ≠ [] →
  StronglySorted Nat.le idx ∧ Forall (λ i, i < length fields)%nat idx ∧
  Permutation (map Some idx) (map (column_position fields) cols).
Proof.
  unfold projection_indices. intros Hi Hne. rewrite bool_decide_eq_false_2 in Hi by done.
  apply bind_Ok in Hi as (l & Hl%collect_Ok & [= <-]).
  assert (map Some l = map (column_position fields) cols) as Heq.
  { clear Hne. induction Hl as [|c i cols l Hci%ok_or_Ok _ IH]; simpl; congruence. }
  split_and!; [apply sort_unstable_Sorted| |by rewrite sort_unstable_Permutation, Heq].
  rewrite sort_unstable_Permutation. clear Hne Heq. induction Hl as [|c i cols l Hci%ok_or_Ok _ IH]; constructor; [|done].
  apply column_position_Some in Hci as (f & Hf & _). by apply lookup_lt_Some in Hf.
Qed.

Lemma projection_indices_all fields : projection_indices fields [] = Ok (seq 0 (length fields)).
Proof. done. Qed.

Lemma projection_indices_lt fields cols idx :
  projection_indices fields cols = Ok idx → NoDup cols →
  StronglySorted lt idx ∧ Forall (λ i, i < length fields)%nat idx.
Proof.
  intros Hi Hn. destruct (decide (cols = [])) as [->|Hne].
  { injection Hi as <-. split; [apply seq_sorted|]. apply Forall_forall. intros i Hi%elem_of_seq. lia. }
  destruct (projection_indices_Ok fields cols idx Hi Hne) as (Hs & Hlt & Hp). split; [|done].
  apply sorted_lt; [done|].
  assert (NoDup (map Some idx)) as Hnd; [|by apply NoDup_fmap_1 in Hnd].
  rewrite Hp. apply NoDup_fmap_2_strong; [|done].
  intros x y Hx Hy Hxy. assert (column_position fields x ∈ map Some idx) as Hin.
  { rewrite Hp. apply list_elem_of_fmap. by exists x. }
  apply list_elem_of_fmap in Hin as (i & Hxi & _). rewrite Hxi in Hxy.
  apply column_position_Some in Hxi as (f & Hf & <-).
  symmetry in Hxy. apply column_position_Some in Hxy as (g & Hg & <-). congruence.
Qed.

Lemma read_columns_in requested p i :
  i ∈ read_columns requested p ↔ i ∈ requested ∨ ∃ q, p = Some q ∧ i = root_index q.
Proof.
  unfold read_columns. destruct p as [q|]; [|naive_solver].
  case_bool_decide; [naive_solver|]. rewrite sort_unstable_Permutation, elem_of_app, list_elem_of_singleton.
  naive_solver.
Qed.

Lemma read_columns_lt requested p :
  StronglySorted lt requested → StronglySorted lt (read_columns requested p).
Proof.
  intros Hs. unfold read_columns. destruct p as [q|]; [|done]. case_bool_decide; [done|].
  apply sort_unstable_lt. apply NoDup_app. split_and!; [|set_solver|apply NoDup_singleton].
  clear -Hs. induction Hs as [|i l Hs IH Hi]; constructor; [|done].
  intros Hin. rewrite Forall_forall in Hi. specialize (Hi i Hin). lia.
Qed.

Lemma mapM_positions requested read :
  (∀ i, i ∈ requested → i ∈ read) →
  ∃ outs, mapM (λ i, expect (index_position i read)) requested = Returned outs ∧
    Forall2 (λ k j, read !! k = Some j) outs requested.
Proof.
  induction requested as [|i requested IH]; intros Hin; simpl; [by exists []|].
  destruct (index_position_in i read) as (k & -> & Hk); [apply Hin; constructor|].
  destruct IH as (outs & -> & Houts); [intros j Hj; apply Hin; by constructor|].
  exists (k :: outs). split; [done|]. by constructor.
Qed.

(** With no columns named, every column is decoded, at its own position. *)
Lemma read_columns_all n p :
  (∀ q, p = Some q → (root_index q < n)%nat) → read_columns (seq 0 n) p = seq 0 n.
Proof.
  intros Hp. unfold read_columns. destruct p as [q|]; [|done].
  rewrite bool_decide_eq_true_2; [done|]. apply elem_of_seq. specialize (Hp q eq_refl). lia.
Qed.

Lemma output_positions_spec cols fields requested p :
  projection_indices fields cols = Ok requested →
  (∀ q, p = Some q → (root_index q < length fields)%nat) →
  let read := read_columns requested p in
  ∃ outs, output_positions cols fields requested read = Returned outs ∧
    Forall2 (λ k j, read !! k = Some j) outs requested.
Proof.
  intros Hr Hp read. unfold output_positions. case_bool_decide as Hc.
  - subst cols. injection Hr as <-. eexists. split; [done|]. unfold read.
    rewrite read_columns_all by done. apply Forall_Forall2_diag, Forall_forall.
    intros i Hi%elem_of_seq. rewrite lookup_seq_lt by lia. done.
  - apply mapM_positions. intros i Hi. apply read_columns_in. by left.
Qed.

Lemma place_predicate_spec cols fields requested p :
  projection_indices fields cols = Ok requested →
  (∀ q, p = Some q → (root_index q < length fields)%nat) →
  let read := read_columns requested p in
  ∃ p', place_predicate cols read p = Returned p' ∧
    match p, p' with
    | Some q, Some q' => read !! column_index q' = Some (root_index q) ∧
        q' = mkCompiledPredicate (compiled_column q) (column_index q') (root_index q) (operator q)
               (literal q) (prune_kind q)
    | None, None => True
    | _, _ => False
    end.
Proof.
  intros Hr Hp read. unfold place_predicate. destruct p as [q|]; [|by exists None].
  case_bool_decide as Hc.
  - eexists. split; [done|]. simpl. split; [|done]. subst cols. injection Hr as <-.
    unfold read. rewrite read_columns_all by done. rewrite lookup_seq_lt by auto. done.
  - destruct (index_position_in (root_index q) read) as (k & -> & Hk).
    { apply read_columns_in. right. by exists q. }
    eexists. split; [done|]. done.
Qed.

(** ** Lemmas: the plan *)

Lemma compile_optional_returns p fields :
  ∃ res, compile_optional p fields = Returned res ∧
  match res with
  | Ok (Some c) => ∃ p', p = Some p' ∧ compiled_for p' fields c
  | Ok None => p = None
  | Err _ => True
  end.
Proof.
  unfold compile_optional. destruct p as [p|]; [|by eexists].
  destruct (compile_predicate_cases p fields) as ([c|e] & -> & Hc); eexists; (split; [done|]); simpl.
  - by exists p.
  - done.
Qed.

Lemma compiled_root p fields c : compiled_for p fields c → (root_index c < length fields)%nat.
Proof. intros (_ & _ & f & Hf & _). by apply lookup_lt_Some in Hf. Qed.

(** The predicate a plan applies: the compiled one, at its column's place. *)
Definition placed (read : list nat) (p p' : option CompiledPredicate) : Prop :=
  match p, p' with
  | Some q, Some q' => read !! column_index q' = Some (root_index q) ∧
      q' = mkCompiledPredicate (compiled_column q) (column_index q') (root_index q) (operator q)
             (literal q) (prune_kind q)
  | None, None => True
  | _, _ => False
  end.

Definition well_shaped (meta : ParquetMetaData) : Prop :=
  Forall (λ g, length (group_columns g) = length (parquet_columns meta)) (meta_row_groups meta).

(** The descriptors of some columns. *)
Definition described_columns (fields : list arrow.Field) (idx : list nat) (ns : list NativeField) : Prop :=
  Forall2 (λ i n, ∃ f, fields !! i = Some f ∧ native_field f = Ok n) idx ns.

(** A plan's fields, given the requested columns and the compiled predicate. *)
Definition plan_of (meta : ParquetMetaData) (cols : list string) (requested : list nat)
    (p : option CompiledPredicate) (plan : ReadPlan) : Prop :=
  let read := read_columns requested p in
  described_columns (schema_fields meta) requested (plan_fields plan) ∧
  plan_mask plan = (if bool_decide (cols = []) then MaskAll else MaskRoots read) ∧
  Forall2 (λ k j, read !! k = Some j) (plan_outputs plan) requested ∧
  placed read p (plan_predicate plan) ∧
  select_row_groups (meta_row_groups meta) (parquet_columns meta) (plan_predicate plan)
    = Returned (plan_groups plan).

Lemma projected_returns cols fields all requested :
  projection_indices fields cols = Ok requested → collect native_field fields = Ok all →
  Forall (λ i, i < length fields)%nat requested →
  ∃ ns, projected cols fields all requested = Returned (Ok ns) ∧ described_columns fields requested ns.
Proof.
  intros Hi Hall%collect_Ok Hr. unfold projected. case_bool_decide as Hc.
  - subst cols. rewrite projection_indices_all in Hi. injection Hi as <-. exists all. split; [done|].
    apply Forall2_same_length_lookup_2; [rewrite length_seq; by eapply Forall2_length|].
    intros k i n Hk Hn. apply lookup_seq in Hk as [-> _].
    destruct (Forall2_lookup_r _ _ _ _ _ Hall Hn) as (f & Hf & Hfn). by exists f.
  - clear Hi Hc. induction Hr as [|i requested Hi _ (ns & IH & IHd)]; [exists []; by repeat constructor|].
    destruct (lookup_lt_is_Some_2 _ _ Hi) as [f Hf].
    destruct (Forall2_lookup_l _ _ _ _ _ Hall Hf) as (n & _ & Hn).
    exists (n :: ns). rewrite try_collect_cons, IH. unfold index. rewrite Hf. simpl. rewrite Hn.
    split; [done|]. constructor; [by exists f|done].
Qed.

Lemma projection_in_range fields cols idx :
  projection_indices fields cols = Ok idx → Forall (λ i, i < length fields)%nat idx.
Proof.
  intros Hi. destruct (decide (cols = [])) as [->|Hne].
  - injection Hi as <-. apply Forall_forall. intros i Hi%elem_of_seq. lia.
  - by apply projection_indices_Ok in Hi as (_ & ? & _).
Qed.

Lemma plan_read_Ok meta settings all requested p :
  well_shaped meta →
  collect native_field (schema_fields meta) = Ok all →
  projection_indices (schema_fields meta) (columns settings) = Ok requested →
  compile_optional (settings_predicate settings) (schema_fields meta) = Returned (Ok p) →
  ∃ plan, plan_read meta settings = Returned (Ok plan) ∧ plan_of meta (columns settings) requested p plan.
Proof.
  intros Hg Hall Hr Hp. unfold plan_read. rewrite Hall, Hr. cbn [try_bind]. rewrite Hp. cbn [try_bind].
  destruct (projected_returns (columns settings) _ all requested Hr Hall) as (ns & -> & Hns).
  { by eapply projection_in_range. }
  cbn [try_bind].
  assert (∀ q, p = Some q → (root_index q < length (schema_fields meta))%nat) as Hroot.
  { intros q ->. destruct (compile_optional_returns (settings_predicate settings) (schema_fields meta))
      as (res & Hres & Hc). rewrite Hp in Hres. injection Hres as <-. destruct Hc as (p' & _ & Hc).
    by eapply compiled_root. }
  destruct (output_positions_spec _ _ _ p Hr Hroot) as (outs & -> & Houts).
  cbn [mbind run_bind].
  destruct (place_predicate_spec _ _ _ p Hr Hroot) as (p' & -> & Hp').
  cbn [mbind run_bind].
  destruct (select_row_groups_returns (meta_row_groups meta) (parquet_columns meta) p' Hg)
    as (sel & Hsel & _).
  rewrite Hsel. cbn [mbind run_bind]. eexists. split; [done|]. unfold plan_of. simpl.
  by split_and!.
Qed.

Lemma plan_read_returns meta settings :
  well_shaped meta → ∃ res, plan_read meta settings = Returned res.
Proof.
  intros Hg. destruct (collect native_field (schema_fields meta)) as [all|e] eqn:Hall.
  2: { unfold plan_read. rewrite Hall. by eexists. }
  destruct (projection_indices (schema_fields meta) (columns settings)) as [requested|e] eqn:Hr.
  2: { unfold plan_read. rewrite Hall, Hr. by eexists. }
  destruct (compile_optional_returns (settings_predicate settings) (schema_fields meta))
    as ([p|e] & Hp & _).
  2: { unfold plan_read. rewrite Hall, Hr. cbn [try_bind]. rewrite Hp. by eexists. }
  destruct (plan_read_Ok meta settings all requested p Hg Hall Hr Hp) as (plan & -> & _). by eexists.
Qed.

(** ** Lemmas: compression labels *)

Lemma dedup_cons2 x y l :
  dedup (x :: y :: l) = if bool_decide (x = y) then dedup (y :: l) else x :: dedup (y :: l).
Proof. done. Qed.

Lemma dedup_elem_of l x : x ∈ dedup l ↔ x ∈ l.
Proof.
  induction l as [|y [|z l] IH]; [done..|]. rewrite dedup_cons2, (elem_of_cons (z :: l)), <-IH.
  case_bool_decide as Hy; [|by rewrite elem_of_cons].
  split; [by right|]. intros [->|Hx]; [|done]. apply IH. subst z. constructor.
Qed.

Lemma string_leb_antisym a b : String.leb a b → String.leb b a → a = b.
Proof.
  unfold String.leb. rewrite (String.compare_antisym b a).
  destruct (String.compare a b) eqn:Hc; simpl; try done.
  intros _ _. by apply String.compare_eq_iff.
Qed.

Lemma dedup_sorted l :
  StronglySorted (λ a b, String.leb a b) l → StronglySorted (λ a b, String.leb a b ∧ a ≠ b) (dedup l).
Proof.
  induction 1 as [|x l Hs IH Hx]; [constructor|]. destruct l as [|y l]; [by repeat constructor|].
  rewrite dedup_cons2. case_bool_decide as Hxy; [done|]. constructor; [done|].
  apply Forall_forall. intros z Hz. rewrite dedup_elem_of in Hz. rewrite Forall_forall in Hx.
  split; [exact (Hx z Hz)|]. intros ->. apply Hxy.
  assert (String.leb z y) by (apply Hx; constructor).
  inversion Hs as [|? ? _ Hy]; subst. rewrite Forall_forall in Hy.
  apply elem_of_cons in Hz as [->|Hz]; [done|]. apply string_leb_antisym; auto.
Qed.

(** ** Properties *)

Section opening.
Context {RS : RangeStore} `{PF : ParquetFile}.

(** What an opened reader is made of. *)
Lemma open_store_Ok store key settings s n r fields s' n' :
  open_store store key settings s n = (Returned (Ok (r, fields)), s', n') →
  ∃ md s1 meta b cs1 e1 plan rd cs e,
    let chunk_reader := mkObjectChunkReader (mkChunkBackend store key) (size md) (settings_max_range_bytes settings) in
    store_head store key s = (Ok md, s1) ∧
    play_reads (try_new (Z.to_N (size md))) chunk_reader [] [] (mkShared false RangeMetrics_default s1) =
      (Returned (Some (meta, b)), cs1, e1) ∧
    plan_read meta settings = Returned (Ok plan) ∧
    play_reads (build b (batch_size settings) (plan_mask plan) (plan_groups plan)) chunk_reader [] cs1 e1 =
      (Returned (Some rd), cs, e) ∧
    reader (state r) = Some (mkParquetRecordBatchReader rd chunk_reader cs) ∧
    range_metrics (state r) = shared_metrics e ∧ s' = shared_store e ∧
    opened (state r) ∧ poisoned r = false ∧ prefetch_depth (state r) = settings_prefetch_depth settings ∧
    writer_options (state r) = file_writer_options (key_value_metadata meta) ∧
    predicate (state r) = plan_predicate plan ∧ output_indices (state r) = plan_outputs plan ∧
    n' = usize_wrap (n + 1).
Proof.
  unfold open_store. destruct (store_head store key s) as [[md|e] s1]; [|done]. cbn [map_err]. unfold open_backend.
  cbn [chunk_len object_size]. set (chunk_reader := mkObjectChunkReader _ _ _).
  pose proof (play_token (try_new (Z.to_N (size md))) chunk_reader [] [] (mkShared false RangeMetrics_default s1)) as Ht.
  destruct (play_reads (try_new _) _ _ _ _) as [[[[[meta b]|]|] cs1] e1] eqn:Hnew; cbn [mbind run_bind ok_or try_bind fst]; try done.
  destruct (plan_read meta settings) as [[plan|x]|] eqn:Hplan; cbn [try_bind]; try done.
  pose proof (play_token (build b (batch_size settings) (plan_mask plan) (plan_groups plan)) chunk_reader [] cs1 e1) as Ht'.
  destruct (play_reads (build _ _ _ _) _ _ _ _) as [[[[rd|]|] cs] e] eqn:Hbuild; try done.
  unfold with_capacity. destruct (_ <? _); [done|]. cbn [mbind run_bind]. intros [= <- <- <- <-].
  exists md, s1, meta, b, cs1, e1, plan, rd, cs, e. split_and!; try done.
  split_and!; try done. cbn [cancellation state]. simpl in Ht, Ht'. by rewrite Ht', Ht.
Qed.

(** C24: a reader that was opened keeps its bounds, whatever the store holds
    and the decoder asks for, and however [next_batch], [close], cancellation
    and changes of the store are interleaved: no range longer than the
    configured bound is read, the queue never exceeds the prefetch depth, the
    byte count is exactly that of the queued batches and below its peak, an
    inactive reader holds nothing, and the reader is counted active exactly as
    long as it is. *)
Theorem reader_steps_invariant (L : ArrowLaws _) max others store key settings s r fields s1 n1 s' st' n :
  (∀ b, get_array_memory_size b ≤ max) → frugal (mkChunkBackend store key) →
  (∀ md s1, store_head store key s = (Ok md, s1) → size md ≤ u64_max) →
  0 ≤ settings_max_range_bytes settings ≤ usize_max →
  0 ≤ settings_prefetch_depth settings → settings_prefetch_depth settings * max ≤ usize_max →
  0 ≤ others < usize_max →
  open_store store key settings s others = (Returned (Ok (r, fields)), s1, n1) →
  rtc reader_step (state r, s1, n1) (s', st', n) →
  reader_invariant max (settings_max_range_bytes settings) s' ∧ n = others + if active s' then 1 else 0.
Proof.
  intros Hmax Hf Hsize Hbound Hd Hm Hothers Hopen Hsteps.
  apply open_store_Ok in Hopen as (md & s2 & meta & b & cs1 & e1 & plan & rd & cs & e & Hhead & Hnew & _ & Hbuild &
    Hreader & Hranges & -> & Hop & _ & Hdepth & _ & _ & _ & ->).
  set (chunk_reader := mkObjectChunkReader _ _ _) in *.
  assert (frugal_chunks chunk_reader) as Hfc by (constructor; [done|by eapply Hsize|done]).
  pose proof (play_range (try_new (Z.to_N (size md))) chunk_reader [] [] (mkShared false RangeMetrics_default s2) Hfc) as H1.
  rewrite Hnew in H1. destruct H1 as [Hcs1 Hr1]; [done|unfold in_range; simpl; lia|].
  pose proof (play_range (build b (batch_size settings) (plan_mask plan) (plan_groups plan)) chunk_reader [] cs1 e1 Hfc Hcs1 Hr1) as H2.
  rewrite Hbuild in H2. destruct H2 as [Hcs Hr].
  apply (steps_invariant L max _ Hmax others _ _ Hothers Hsteps). cbn [fst snd]. split.
  - apply opened_invariant; rewrite ?Hdepth; try done. split; [by rewrite Hranges|].
    intros ? Hrd. rewrite Hreader in Hrd. by injection Hrd as <-.
  - destruct Hop as [Ha _]. unfold counted. rewrite Ha. apply usize_wrap_in. lia.
Qed.

(** What a Parquet crate that never panics promises of opening. *)
Definition file_returns : Prop := ∃ owns : nat → Builder → Prop,
  (∀ n, ensures (λ k r, ∃ x, r = Returned x ∧ ∀ meta b, x = Some (meta, b) → well_shaped meta ∧ owns k b)
    0 (try_new n)) ∧
  ∀ k b n mask groups, owns k b → ensures (λ _ r, ∃ x, r = Returned x) k (build b n mask groups).

(** C33: when the Parquet crate does not panic, opening never does, whatever
    the object holds and whatever columns and predicate are asked for (unknown
    and repeated ones included), if the prefetch queue fits in memory: the two
    [expect]s and the indexing of the read projection always succeed, and so
    does the copy of a cursor.  The reader is counted exactly when opening
    succeeds. *)
Theorem open_store_returns store key settings s n :
  file_returns → frugal (mkChunkBackend store key) →
  (∀ md s1, store_head store key s = (Ok md, s1) → size md ≤ u64_max) →
  0 ≤ settings_max_range_bytes settings ≤ usize_max →
  settings_prefetch_depth settings * record_batch_size ≤ isize_max →
  ∃ res s', open_store store key settings s n =
    (Returned res, s', match res with Ok _ => usize_wrap (n + 1) | Err _ => n end).
Proof.
  intros (owns & Hnew & Hbuild) Hf Hsize Hbound Hcap. unfold open_store.
  destruct (store_head store key s) as [[md|e] s'] eqn:Hhead; [|by eexists (Err _), _].
  cbn [map_err]. unfold open_backend. cbn [chunk_len object_size]. set (chunk_reader := mkObjectChunkReader _ _ _).
  assert (frugal_chunks chunk_reader) as Hfc by (constructor; [done|by eapply Hsize|done]).
  set (e0 := mkShared false RangeMetrics_default s').
  assert (in_range chunk_reader (shared_metrics e0)) as Hr0 by (unfold in_range; simpl; lia).
  pose proof (play_range (try_new (Z.to_N (size md))) chunk_reader [] [] e0 Hfc (List.Forall_nil _) Hr0) as Hr1.
  pose proof (play_ensures (try_new (Z.to_N (size md))) _ chunk_reader [] [] e0 Hfc (Hnew _) (List.Forall_nil _) Hr0) as Hp.
  destruct (play_reads (try_new _) _ _ _ _) as [[builder cs1] e1]. destruct Hr1 as [Hcs1 Hr1].
  destruct Hp as ([[meta b]|] & -> & Hmeta); cbn [mbind run_bind ok_or try_bind fst]; [|by eexists (Err _), _].
  destruct (Hmeta meta b eq_refl) as [Hshape Hown].
  destruct (plan_read_returns meta settings Hshape) as [[plan|x] ->]; cbn [try_bind]; [|by eexists (Err _), _].
  pose proof (play_ensures _ _ chunk_reader [] cs1 e1 Hfc
    (Hbuild _ b (batch_size settings) (plan_mask plan) (plan_groups plan) Hown) Hcs1 Hr1) as Hp.
  destruct (play_reads (build _ _ _ _) _ _ _ _) as [[reader cs] e]. destruct Hp as ([rd|] & ->); [|by eexists (Err _), _].
  unfold with_capacity. destruct (Z.ltb_spec isize_max (settings_prefetch_depth settings * record_batch_size));
    [lia|by eexists (Ok _), _].
Qed.

End opening.

(** The projection is the requested columns, whatever order they are named
    in: it fails exactly when one of them does not exist, and otherwise lists
    the position of each once, in file order. *)
Theorem projection_indices_spec fields cols :
  cols ≠ [] →
  match projection_indices fields cols with
  | Ok idx => StronglySorted Nat.le idx ∧ Permutation (map Some idx) (map (column_position fields) cols)
  | Err e => e = column_missing ∧ ∃ c, c ∈ cols ∧ column_position fields c = None
  end.
Proof.
  intros Hne. destruct (projection_indices fields cols) as [idx|e] eqn:Hi.
  - by apply projection_indices_Ok in Hi as (? & _ & ?).
  - unfold projection_indices in Hi. rewrite bool_decide_eq_false_2 in Hi by done. clear Hne.
    apply bind_Err in Hi as [Hi|(l & _ & Hi)]; [|done].
    induction cols as [|c cols IH]; [done|]. cbn [collect] in Hi.
    apply bind_Err in Hi as [[Hc <-]%ok_or_Err|(i & _ & Hi)].
    + split; [done|]. exists c. split; [constructor|done].
    + apply bind_Err in Hi as [Hi|(l & _ & Hi)]; [|done].
      destruct (IH Hi) as (-> & c' & Hc' & Hn). split; [done|]. exists c'. by split; [constructor|].
Qed.

(** The compressions reported for a file are the labels of its column
    chunks, each once, in increasing order. *)
Theorem file_compressions_spec groups :
  StronglySorted (λ a b, String.leb a b ∧ a ≠ b) (file_compressions groups) ∧
  ∀ label, label ∈ file_compressions groups ↔
    ∃ g c, g ∈ groups ∧ c ∈ group_columns g ∧ label = compression_label (chunk_compression c).
Proof.
  unfold file_compressions, sort_strings. split.
  - apply dedup_sorted, StronglySorted_merge_sort; apply _.
  - intros label. rewrite dedup_elem_of, merge_sort_Permutation, list_elem_of_fmap. split.
    + intros (c & -> & Hc). apply list_elem_of_In, in_concat in Hc as (cs & (g & <- & Hg)%in_map_iff & Hc).
      exists g, c. split_and!; [by apply list_elem_of_In|by apply list_elem_of_In|done].
    + intros (g & c & Hg & Hc & ->). exists c. split; [done|]. apply list_elem_of_In, in_concat.
      exists (group_columns g). split; apply list_elem_of_In; [|done].
      apply list_elem_of_fmap. by exists g.
Qed.

Lemma projection_indices_spec_witness :
  match projection_indices people_fields ["age"; "name"] with
  | Ok idx => StronglySorted Nat.le idx ∧
      Permutation (map Some idx) (map (column_position people_fields) ["age"; "name"])
  | Err e => e = column_missing ∧ ∃ c, c ∈ ["age"; "name"] ∧ column_position people_fields c = None
  end.
Proof. apply (projection_indices_spec people_fields ["age"; "name"]). discriminate. Defined.
