(* ===== verification/ReaderQuery.v ===== *)
(** * ReaderQuery: what an opened reader delivers

    The end-to-end contract of a reader: the batches it returns, one call of
    [next_batch] after another, are the query over the rows of the file.  A
    file is described by [healthy], which speaks of the decoder on the bytes of
    the object alone; the theorems are about any store that keeps them. *)
From S2P Require Import Prelude Errors Schema Arrow Predicate Object ChunkReader Decoder ReaderState ReaderOpen.

Section query.
Context {RS : RangeStore} `{PF : ParquetFile} {L : ArrowLaws _}.

(** ** Healthy files *)

Definition field_type (fields : list arrow.Field) (i : nat) : arrow.DataType :=
  nth i (map arrow.field_data_type fields) arrow.Null.

(** The types of some columns. *)
Definition column_types (fields : list arrow.Field) (idx : list nat) : list arrow.DataType := map (field_type fields) idx.

(** The root columns a mask selects. *)
Definition mask_selects (n : nat) (mask : ProjectionMask) (idx : list nat) : Prop :=
  match mask with MaskAll => idx = seq 0 n | MaskRoots roots => idx = roots end.

(** What the Parquet crate promises of a well-formed file with the rows
    [rowss] (one list per row group), read in ranges of at most [max]: the
    footer is read, statistics tell the truth, and a decoder built for some
    root columns and row groups yields exactly their cells. *)
Record healthy (contents : bytes) (max : Z) (meta : ParquetMetaData) (rowss : list (list row)) : Prop := {
  healthy_groups : Forall2 (λ g rs,
    length (group_columns g) = length (parquet_columns meta) ∧
    ∀ name i t ci c s,
      column_position (schema_fields meta) name = Some i →
      field_type (schema_fields meta) i = t → t = arrow.Int32 ∨ t = arrow.Int64 →
      position (λ parts, bool_decide (head parts = Some name)) (parquet_columns meta) = Some ci →
      group_columns g !! ci = Some c → chunk_statistics c = Some s →
      describes s (group_num_rows g) (map (λ r, cell r i) rs)) (meta_row_groups meta) rowss;
  healthy_open : ∃ b ps,
    view contents max [] (try_new (Z.to_N (len contents))) = Some (Returned (Some (meta, b)), ps) ∧
    ∀ batch_size mask idx groups,
      1 ≤ batch_size → mask_selects (length (schema_fields meta)) mask idx →
      StronglySorted lt idx → Forall (λ i, i < length (schema_fields meta))%nat idx →
      StronglySorted lt groups → Forall (λ i, i < length rowss)%nat groups →
      ∃ r ps' batches, view contents max ps (build b batch_size mask groups) = Some (Returned (Some r), ps') ∧
        decodes contents max r ps' (map Some batches) ∧
        Forall (λ b, batch_types b = column_types (schema_fields meta) idx) batches ∧
        concat (map rows batches) = map (cells idx) (concat (map (λ i, nth i rowss []) groups));
}.

(** The rows a caller asks for: the matching ones, restricted to the requested
    columns. *)
Definition query (requested : list nat) (p : option CompiledPredicate) (rs : list row) : list row :=
  map (cells requested)
    (match p with Some p => List.filter (row_matches p (root_index p)) rs | None => rs end).

(** Call [next_batch] until it returns the end ([true]) or fails. *)
Fixpoint read_all (calls fuel : nat) (cancels : list (list (list bool))) (s : ReaderState) (st : StoreState) :
    option (list RecordBatch * bool) :=
  match calls with
  | O => None
  | S calls =>
      match next_batch fuel (default [] (head cancels)) s st with
      | Some (Returned (Ok (Some b)), s, st) =>
          '(bs, complete) ← read_all calls fuel (tail cancels) s st; Some (b :: bs, complete)
      | Some (Returned (Ok None), _, _) => Some ([], true)
      | Some _ => Some ([], false)
      | None => None
      end
  end.

(** ** Lemmas *)

(** A reader that owes batches delivers a prefix of them, and all of them
    when it ends without a failure or nothing stands in its way. *)
Lemma read_all_owes {PL : ParquetReaderLaws _} contents stable types fuel cancels s st n out :
  owes contents stable types s n out → stable st → (n + 2 ≤ fuel)%nat →
  ∃ bs complete, read_all (S (length out)) fuel cancels s st = Some (bs, complete) ∧
    Forall (λ b, batch_types b = types) bs ∧ map rows bs `prefix_of` out ∧ (complete = true → map rows bs = out) ∧
    (unhindered contents stable s → Forall undisturbed cancels → complete = true).
Proof.
  revert cancels s st n. induction out as [|rs out IH]; intros cancels s st n Ho Hst Hfuel; cbn [length];
    destruct (next_batch_owes contents stable types fuel (default [] (head cancels)) s st n _ Ho Hst Hfuel)
      as (res & s' & st' & Hn & Hst' & Hres & Hu);
    (assert (unhindered contents stable s → Forall undisturbed cancels →
      (∃ b, res = Returned (Ok b)) ∧ unhindered contents stable s' ∧ Forall undisturbed (tail cancels)) as Hu';
    [intros Hun Hq; destruct (Hu Hun) as [Hb Hun']; [by destruct Hq; [constructor|]|];
     split_and!; [done..|by destruct Hq; [constructor|]]|]).
  - cbn [read_all]. rewrite Hn. destruct res as [[[b|]|e]|].
    + by destruct Hres as (_ & ? & ? & ? & _).
    + exists [], true. by split_and!.
    + exists [], false. split_and!; try done. intros Hun Hq. by destruct (Hu' Hun Hq) as [[? ?] _].
    + exists [], false. split_and!; try done. intros Hun Hq. by destruct (Hu' Hun Hq) as [[? ?] _].
  - remember (S (length out)) as calls eqn:Hcalls. cbn [read_all]. rewrite Hn. destruct res as [[[b|]|e]|].
    + destruct Hres as (Ht & n' & out' & [= -> <-] & Ho' & Hle).
      destruct (IH (tail cancels) s' st' n' Ho' Hst' ltac:(lia)) as (bs & complete & -> & Hts & Hp & Hc & Hr).
      exists (b :: bs), complete. cbn [mbind option_bind map]. split_and!; [done|by constructor|by apply prefix_cons|..].
      * intros Hcomp. by rewrite Hc.
      * intros Hun Hq. destruct (Hu' Hun Hq) as (_ & ? & ?). by apply Hr.
    + by destruct Hres as [? _].
    + exists [], false. split_and!; [done|constructor|apply prefix_nil|done|]. intros Hun Hq. by destruct (Hu' Hun Hq) as [[? ?] _].
    + exists [], false. split_and!; [done|constructor|apply prefix_nil|done|]. intros Hun Hq. by destruct (Hu' Hun Hq) as [[? ?] _].
Qed.

Lemma concat_nonempty {A} (ls : list (list A)) : concat (List.filter nonempty ls) = concat ls.
Proof. induction ls as [|[|x l] ls IH]; simpl; [done|done|]. by rewrite IH. Qed.

(** Filtering and projecting the decoded cells is the query on the rows. *)
Lemma deliverable_query read outs requested p p' rs batches :
  Forall2 (λ k j, read !! k = Some j) outs requested → placed read p p' →
  concat (map rows batches) = map (cells read) rs →
  concat (map (deliverable p' outs) batches) = query requested p rs.
Proof.
  intros Houts Hp Hrows.
  assert (concat (map (deliverable p' outs) batches) =
    map (cells outs) (filtered p' (index_of p') (concat (map rows batches)))) as ->.
  { clear. induction batches as [|b batches IH]; simpl; [by destruct p'|].
    rewrite IH. unfold deliverable. rewrite <-map_app. f_equal.
    destruct p'; simpl; [|done]. by rewrite List.filter_app. }
  rewrite Hrows. unfold query. destruct p as [q|], p' as [q'|]; simpl in Hp; try done.
  - destruct Hp as [Hi Hq]. rewrite Hq. simpl. rewrite filter_map, map_map.
    erewrite (filter_ext_in _ (row_matches q (root_index q))).
    + apply map_ext. intros r. by apply cells_cells.
    + apply Forall_true. intros r. unfold row_matches. simpl. by rewrite (cell_cells r read _ _ Hi).
  - simpl. rewrite map_map. apply map_ext. intros r. by apply cells_cells.
Qed.

Lemma query_selected requested p p' meta rowss sel :
  placed (read_columns requested p) p p' →
  (∀ q, p = Some q → prune_kind q ≠ None →
    groups_described (parquet_columns meta) q (meta_row_groups meta) rowss) →
  length (meta_row_groups meta) = length rowss →
  select_row_groups (meta_row_groups meta) (parquet_columns meta) p' = Returned sel →
  query requested p (concat (map (λ i, nth i rowss []) sel)) = query requested p (concat rowss).
Proof.
  intros Hp Hd Hlen Hsel. unfold query. f_equal. destruct p as [q|], p' as [q'|]; simpl in Hp; try done.
  - destruct Hp as [_ Hq].
    assert (select_row_groups (meta_row_groups meta) (parquet_columns meta) (Some q) = Returned sel) as Hsel'.
    { rewrite <-Hsel, Hq. clear. unfold select_row_groups. simpl. destruct (prune_kind q) as [k|]; [|done].
      destruct (position _ _) as [ci|]; [|done]. generalize 0%nat.
      induction (meta_row_groups meta) as [|g groups IH]; intros i; simpl; [done|].
      by rewrite IH. }
    destruct (prune_kind q) as [k|] eqn:Hk.
    + destruct (select_row_groups_selects _ _ q _ (Hd q eq_refl ltac:(congruence)))
        as (sel' & Hs & _ & _ & Hf). congruence.
    + unfold select_row_groups in Hsel'. rewrite Hk in Hsel'. injection Hsel' as <-.
      by rewrite Hlen, select_all.
  - simpl in Hsel. injection Hsel as <-. by rewrite Hlen, select_all.
Qed.

Lemma compiled_described contents max meta rowss p c :
  healthy contents max meta rowss → compiled_for p (schema_fields meta) c →
  prune_kind c ≠ None →
  groups_described (parquet_columns meta) c (meta_row_groups meta) rowss.
Proof.
  intros Hh (Hc & _ & field & Hf & Hname & Hfirst & _ & Hk) Hprune.
  eapply Forall2_impl; [apply (healthy_groups _ _ _ _ Hh)|]. intros g rs [Hl Hs]. split; [done|].
  intros ci col s Hci Hcol Hst. eapply (Hs (compiled_column c) _ _ ci col s); try done.
  - apply position_Some. exists field. split_and!; [done|by apply bool_decide_eq_true; congruence|].
    intros j g' Hj Hg'. apply bool_decide_eq_false. rewrite Hc. by eapply Hfirst.
  - unfold field_type. rewrite (nth_lookup_Some _ _ _ (arrow.field_data_type field)).
    + destruct (prune_kind c) as [[]|]; [by left|by right|done].
    + by rewrite list_lookup_fmap, Hf.
Qed.

Lemma types_at_positions fields read outs idx :
  Forall2 (λ k j, read !! k = Some j) outs idx → types_at outs (column_types fields read) = column_types fields idx.
Proof.
  unfold types_at, column_types. induction 1 as [|k j outs idx Hk _ IH]; [done|]. cbn [map]. rewrite IH. f_equal.
  apply nth_lookup_Some. by rewrite list_lookup_fmap, Hk.
Qed.

(** The types of the columns of a decoded batch, at the places of a plan. *)
Lemma plan_well_typed meta requested p plan np cols b :
  projection_indices (schema_fields meta) cols = Ok requested →
  compile_optional np (schema_fields meta) = Returned (Ok p) →
  plan_of meta cols requested p plan →
  batch_types b = column_types (schema_fields meta) (read_columns requested p) →
  well_typed (column_types (schema_fields meta) requested) (plan_predicate plan) (plan_outputs plan) b.
Proof.
  intros Hr Hp (_ & _ & Houts & Hplaced & _) Hb. split; [|split].
  - destruct (plan_predicate plan) as [q'|]; [|done]. destruct p as [q|]; [|done].
    destruct Hplaced as [Hi Hq]. simpl.
    destruct (compile_optional_returns np (schema_fields meta)) as (res & Hres & Hc).
    rewrite Hp in Hres. injection Hres as <-. destruct Hc as (np' & _ & _ & _ & field & Hf & _ & _ & Hfit & _).
    exists (arrow.field_data_type field). rewrite Hq. simpl. split; [|done].
    rewrite Hb. unfold column_types. rewrite list_lookup_fmap, Hi. simpl. f_equal. unfold field_type.
    apply nth_lookup_Some. by rewrite list_lookup_fmap, Hf.
  - rewrite num_columns_types, Hb. unfold column_types. rewrite length_map. eapply Forall2_Forall_l; [exact Houts|].
    apply Forall_true. intros j k Hk. by apply lookup_lt_Some in Hk.
  - rewrite Hb. by apply types_at_positions.
Qed.

Lemma read_columns_range fields cols requested np p :
  projection_indices fields cols = Ok requested →
  compile_optional np fields = Returned (Ok p) →
  Forall (λ i, i < length fields)%nat (read_columns requested p).
Proof.
  intros Hr Hp. apply Forall_forall. intros i [Hi|(q & -> & ->)]%read_columns_in.
  - apply projection_in_range in Hr. rewrite Forall_forall in Hr. auto.
  - destruct (compile_optional_returns np fields) as (res & Hres & Hc).
    rewrite Hp in Hres. injection Hres as <-. destruct Hc as (np' & _ & Hc). by eapply compiled_root.
Qed.

Lemma plan_selects meta cols requested p plan :
  projection_indices (schema_fields meta) cols = Ok requested →
  (∀ q, p = Some q → (root_index q < length (schema_fields meta))%nat) →
  plan_of meta cols requested p plan →
  mask_selects (length (schema_fields meta)) (plan_mask plan) (read_columns requested p).
Proof.
  intros Hr Hroot (_ & -> & _). case_bool_decide as Hc; simpl; [|done].
  subst cols. injection Hr as <-. by apply read_columns_all.
Qed.

Lemma healthy_shaped contents max meta rowss : healthy contents max meta rowss → well_shaped meta.
Proof.
  intros Hh. unfold well_shaped. pose proof (healthy_groups _ _ _ _ Hh) as Hg.
  eapply Forall2_Forall_l; [exact Hg|]. apply Forall_true. by intros rs g [Hl _].
Qed.

Lemma concat_prefix {A} (ls ms : list (list A)) : ls `prefix_of` ms → concat ls `prefix_of` concat ms.
Proof. intros [k ->]. rewrite concat_app. by apply prefix_app_r. Qed.

(** *** Opening a healthy file *)

Section healthy_file.
Context {PL : ParquetReaderLaws _} {FL : ParquetFileLaws _}.
Context (store : StoreResource) (key : string) (md : ObjectMetadata) (s s1 : StoreState).
Context (contents : bytes) (stable : StoreState → Prop) (meta : ParquetMetaData) (rowss : list (list row)).
Context (settings : ReaderOpenSettings) (all : list NativeField) (requested : list nat) (p : option CompiledPredicate).

Let chunk_reader : ObjectChunkReader :=
  mkObjectChunkReader (mkChunkBackend store key) (size md) (settings_max_range_bytes settings).

(** A healthy file on a store that keeps it, and a request for distinct
    existing columns with a predicate that compiles. *)
Record readable : Prop := {
  readable_head : store_head store key s = (Ok md, s1);
  readable_stable : stable s1;
  readable_object : reads_object chunk_reader contents stable;
  readable_file : healthy contents (settings_max_range_bytes settings) meta rowss;
  readable_columns : NoDup (columns settings);
  readable_batch : 1 ≤ batch_size settings;
  readable_depth : 1 ≤ settings_prefetch_depth settings;
  readable_capacity : settings_prefetch_depth settings * record_batch_size ≤ isize_max;
  readable_fields : collect native_field (schema_fields meta) = Ok all;
  readable_requested : projection_indices (schema_fields meta) (columns settings) = Ok requested;
  readable_predicate : compile_optional (settings_predicate settings) (schema_fields meta) = Returned (Ok p);
}.

(** The decoder such a request builds, on the bytes of the file. *)
Lemma readable_plan : readable → ∃ b ps plan rd ps' batches,
  view contents (settings_max_range_bytes settings) [] (try_new (Z.to_N (size md))) =
    Some (Returned (Some (meta, b)), ps) ∧
  plan_read meta settings = Returned (Ok plan) ∧
  view contents (settings_max_range_bytes settings) ps (build b (batch_size settings) (plan_mask plan) (plan_groups plan)) =
    Some (Returned (Some rd), ps') ∧
  decodes contents (settings_max_range_bytes settings) rd ps' (map Some batches) ∧
  described_columns (schema_fields meta) requested (plan_fields plan) ∧
  Forall (well_typed (column_types (schema_fields meta) requested) (plan_predicate plan) (plan_outputs plan)) batches ∧
  concat (List.filter nonempty (map (deliverable (plan_predicate plan) (plan_outputs plan)) batches)) =
    query requested p (concat rowss).
Proof.
  intros [Hhead Hst Hro Hh Hnd Hbs Hpd Hcap Hall Hr Hp].
  pose proof (reads_size _ _ _ Hro) as Hsize. cbn in Hsize. rewrite Hsize.
  destruct (plan_read_Ok meta settings all requested p (healthy_shaped _ _ _ _ Hh) Hall Hr Hp) as (plan & Hplan & Hof).
  destruct (compile_optional_returns (settings_predicate settings) (schema_fields meta)) as (res & Hres & Hc).
  rewrite Hp in Hres. injection Hres as <-.
  assert (∀ q, p = Some q → ∃ np, compiled_for np (schema_fields meta) q) as Hcomp.
  { intros q ->. destruct Hc as (np & _ & Hc). by exists np. }
  pose proof (Forall2_length _ _ _ (healthy_groups _ _ _ _ Hh)) as Hlen.
  pose proof Hof as (Hdesc & _ & Houts & Hplaced & Hsel).
  destruct (select_row_groups_returns (meta_row_groups meta) (parquet_columns meta) (plan_predicate plan)
    (healthy_shaped _ _ _ _ Hh)) as (sel & Hsel' & Hin & Hsorted).
  assert (sel = plan_groups plan) as -> by congruence. rewrite Hlen in Hin.
  destruct (healthy_open _ _ _ _ Hh) as (b & ps & Hnew & Hbuilds).
  destruct (Hbuilds (batch_size settings) (plan_mask plan) (read_columns requested p) (plan_groups plan))
    as (rd & ps' & batches & Hbuild & Hdec & Htypes & Hrows); try done.
  { eapply plan_selects; [exact Hr| |exact Hof]. intros q Hq. destruct (Hcomp q Hq) as [np Hq'].
    by eapply compiled_root. }
  { by apply read_columns_lt, (projection_indices_lt _ _ _ Hr Hnd). }
  { by eapply read_columns_range. }
  exists b, ps, plan, rd, ps', batches. split_and!; try done.
  { eapply Forall_impl; [exact Htypes|]. simpl. intros x Hx. by eapply plan_well_typed. }
  rewrite concat_nonempty. erewrite deliverable_query by done.
  eapply query_selected; [done| |done|done]. intros q Hq Hprune.
  destruct (Hcomp q Hq) as [np Hq']. by eapply compiled_described.
Qed.

(** Opening such a file succeeds, with a reader that owes the query, or
    reports a read that failed. *)
Lemma open_store_owes n : readable →
  ∃ res s2 n', open_store store key settings s n = (res, s2, n') ∧ stable s2 ∧
  match res with
  | Returned (Ok (r, fields)) => n' = usize_wrap (n + 1) ∧ opened (state r) ∧
      writer_options (state r) = file_writer_options (key_value_metadata meta) ∧
      described_columns (schema_fields meta) requested fields ∧
      ∃ k out, owes contents stable (column_types (schema_fields meta) requested) (state r) k out ∧ Forall (λ rs, rs ≠ []) out ∧
        concat out = query requested p (concat rowss)
  | Returned (Err e) => e = malformed_open ∧ n' = n
  | Panicked => n' = n
  end ∧
  (reliable (mkChunkBackend store key) contents stable →
    ∃ r fields, res = Returned (Ok (r, fields)) ∧ unhindered contents stable (state r)).
Proof.
  intros Hr. destruct (readable_plan Hr) as (b & ps & plan & rd & ps' & batches & Hnew & Hplan & Hbuild & Hdec & Hdesc & Htyped & Hq).
  destruct Hr as [Hhead Hst Hro Hh _ _ Hpd Hcap _ _ _].
  unfold open_store. rewrite Hhead. cbn [map_err]. unfold open_backend. cbn [chunk_len object_size]. fold chunk_reader.
  set (e0 := mkShared false RangeMetrics_default s1).
  pose proof (play_stable (try_new (Z.to_N (size md))) chunk_reader contents stable [] [] e0 Hro (List.Forall_nil _) Hst) as [Hst1 _].
  pose proof (play_faithful _ chunk_reader contents stable [] [] [] e0 _ _ Hro (conj eq_refl (List.Forall_nil _)) Hst Hnew) as H1.
  pose proof (play_token (try_new (Z.to_N (size md))) chunk_reader [] [] e0 (List.Forall_nil _)) as Hc1.
  destruct (play_reads (try_new _) _ _ _ _) as [[builder cs1] e1]. simpl in Hst1, Hc1. destruct H1 as [Hor1 Hrel1].
  destruct Hor1 as [[-> Hcs1]|Hbad].
  2: { specialize (Hbad is_done eq_refl (try_new_reports _)).
       destruct builder as [[[]|]|]; [done|..]; eexists _, _, _; split_and!; try done;
         intros Hre; by destruct (Hrel1 (conj Hre (conj eq_refl (List.Forall_nil _)))) as [? _]. }
  cbn [mbind run_bind ok_or try_bind fst]. rewrite Hplan. cbn [try_bind].
  pose proof (play_stable (build b (batch_size settings) (plan_mask plan) (plan_groups plan)) chunk_reader contents stable [] cs1 e1
    Hro (at_positions_inside _ _ _ _ _ Hro Hcs1) Hst1) as [Hst2 _].
  pose proof (play_faithful _ chunk_reader contents stable [] _ _ e1 _ _ Hro Hcs1 Hst1 Hbuild) as H2.
  pose proof (play_token (build b (batch_size settings) (plan_mask plan) (plan_groups plan)) chunk_reader [] cs1 e1
    (List.Forall_nil _)) as Hc2.
  destruct (play_reads (build _ _ _ _) _ _ _ _) as [[reader cs] e]. simpl in Hst2, Hc2. destruct H2 as [Hor2 Hrel2].
  destruct Hor2 as [[-> Hcs]|Hbad].
  2: { specialize (Hbad is_done eq_refl (build_reports _ _ _ _)).
       destruct reader as [[]|]; [done|..]; eexists _, _, _; split_and!; try done;
         intros Hre; by destruct (Hrel2 (conj Hre (conj Hc1 (List.Forall_nil _)))) as [? _]. }
  unfold with_capacity. destruct (Z.ltb_spec isize_max (settings_prefetch_depth settings * record_batch_size)); [lia|].
  cbn [mbind run_bind].
  rewrite Hc1 in Hc2.
  eexists _, _, _. split; [done|]. split; [done|]. split.
  - split; [done|]. split; [by repeat split|]. split; [done|]. split; [done|].
    eexists (length batches), _. split; [|split; [|exact Hq]].
    + split; [done|]. split; [done|]. eexists _, ps', batches. by split_and!.
    + apply Forall_forall. intros rs Hrs.
      apply list_elem_of_In, List.filter_In in Hrs as [_ Hrs]. by destruct rs.
  - intros Hre. eexists _, _. split; [done|]. split; [done|]. by intros ? [= <-].
Qed.

(** ** Properties *)

Lemma open_read_all n : readable → reliable (mkChunkBackend store key) contents stable →
  ∃ r fields s2, open_store store key settings s n = (Returned (Ok (r, fields)), s2, usize_wrap (n + 1)) ∧
    opened (state r) ∧ writer_options (state r) = file_writer_options (key_value_metadata meta) ∧
    described_columns (schema_fields meta) requested fields ∧
    ∃ calls fuel bs, read_all calls fuel [] (state r) s2 = Some (bs, true) ∧
      Forall (λ b, batch_types b = column_types (schema_fields meta) requested ∧ rows b ≠ []) bs ∧
      concat (map rows bs) = query requested p (concat rowss).
Proof.
  intros Hr Hrel. destruct (open_store_owes n Hr) as (res & s2 & n' & Hopen & Hst & Hres & Hok).
  destruct (Hok Hrel) as (r & fields & -> & Hu). destruct Hres as (-> & Hop & Hw & Hdesc & k & out & Ho & Hne & Hq).
  exists r, fields, s2. split_and!; [done..|].
  destruct (read_all_owes contents stable (column_types (schema_fields meta) requested) (k + 2) [] (state r) s2 k out Ho Hst ltac:(lia))
    as (bs & complete & Hread & Hts & _ & Heq & Hcomp).
  rewrite (Hcomp Hu (List.Forall_nil _)) in Hread. specialize (Heq (Hcomp Hu (List.Forall_nil _))).
  eexists _, _, bs. split; [exact Hread|]. rewrite Heq. split; [|done].
  rewrite <-Heq, Forall_map in Hne. apply Forall_and. by split.
Qed.

(** C3: the end-to-end contract of a reader.  On a well-formed file of a store
    that answers every read, with distinct requested columns and a predicate
    that compiles, opening succeeds and describes the requested columns, and
    calling [next_batch] to the end yields, in non-empty batches of columns of
    the described types, exactly the rows of the file that match the predicate,
    in file order, restricted to the requested columns: pruning, the extra
    predicate column, prefetching, ranges and batch boundaries leave no trace. *)
Theorem open_then_read_all n : readable → reliable (mkChunkBackend store key) contents stable →
  ∃ r fields s2, open_store store key settings s n = (Returned (Ok (r, fields)), s2, usize_wrap (n + 1)) ∧
    opened (state r) ∧ writer_options (state r) = file_writer_options (key_value_metadata meta) ∧
    described_columns (schema_fields meta) requested fields ∧
    ∃ calls fuel bs, read_all calls fuel [] (state r) s2 = Some (bs, true) ∧
      Forall (λ b, batch_types b = column_types (schema_fields meta) requested ∧ rows b ≠ []) bs ∧
      concat (map rows bs) = query requested p (concat rowss).
Proof. apply open_read_all. Qed.

Lemma open_read_prefix n r fields s2 n' : readable →
  open_store store key settings s n = (Returned (Ok (r, fields)), s2, n') →
  described_columns (schema_fields meta) requested fields ∧ ∃ calls fuel, ∀ cancels, ∃ bs complete,
    read_all calls fuel cancels (state r) s2 = Some (bs, complete) ∧ Forall (λ b, batch_types b = column_types (schema_fields meta) requested) bs ∧
    concat (map rows bs) `prefix_of` query requested p (concat rowss) ∧
    (complete = true → concat (map rows bs) = query requested p (concat rowss)).
Proof.
  intros Hr Hopen. destruct (open_store_owes n Hr) as (res & s3 & n3 & Hopen' & Hst & Hres & _).
  rewrite Hopen in Hopen'. injection Hopen' as <- <- <-. destruct Hres as (_ & _ & _ & Hdesc & k & out & Ho & _ & <-).
  split; [done|]. exists (S (length out)), (k + 2)%nat. intros cancels.
  destruct (read_all_owes contents stable (column_types (schema_fields meta) requested) (k + 2) cancels (state r) s2 k out Ho Hst ltac:(lia))
    as (bs & complete & Hread & Hts & Hp & Heq & _).
  exists bs, complete. split_and!; [done..|by apply concat_prefix|]. intros Hc. by rewrite Heq.
Qed.

(** C4: a reader never returns wrong rows.  On a store that may fail any
    read, and whenever the token is cancelled, the calls of [next_batch] up to
    the first failure end, their batches have the types of the columns that
    were described, and the rows they return are a prefix of the query; they
    are all of it when the end is reported. *)
Theorem reads_are_prefix n r fields s2 n' : readable →
  open_store store key settings s n = (Returned (Ok (r, fields)), s2, n') →
  described_columns (schema_fields meta) requested fields ∧ ∃ calls fuel, ∀ cancels, ∃ bs complete,
    read_all calls fuel cancels (state r) s2 = Some (bs, complete) ∧ Forall (λ b, batch_types b = column_types (schema_fields meta) requested) bs ∧
    concat (map rows bs) `prefix_of` query requested p (concat rowss) ∧
    (complete = true → concat (map rows bs) = query requested p (concat rowss)).
Proof. apply open_read_prefix. Qed.

End healthy_file.

End query.
