(* ===== verification/ReaderMemory.v ===== *)
(** * ReaderMemory: the reader on a decoder in memory

    A decoder of tables: it looks at the first bytes of the object through a
    cursor, reads the rest as one range and parses it.  Its files are healthy,
    and the witnesses of [ReaderOpen] and [ReaderQuery] read one. *)
From S2P Require Import Prelude Errors Schema Arrow Predicate Object ChunkReader Decoder.
From S2P Require Import ReaderState ReaderOpen ReaderQuery.

(** ** The decoder *)

#[local] Instance byte_eq_decision : EqDecision byte := Byte.byte_eq_dec.

Definition magic : bytes := ["P"; "A"; "R"; "1"]%byte.

(** A file's metadata and the rows of its row groups. *)
Definition table : Type := ParquetMetaData * list (list row).

Definition shaped (meta : ParquetMetaData) : bool :=
  forallb (λ g, (length (group_columns g) =? length (parquet_columns meta))%nat) (meta_row_groups meta).

Lemma shaped_spec meta : shaped meta = true ↔ well_shaped meta.
Proof.
  unfold shaped, well_shaped. rewrite forallb_forall, List.Forall_forall.
  split; intros Hs g Hg; by apply Nat.eqb_eq, Hs.
Qed.

Definition mask_roots (n : nat) (mask : ProjectionMask) : list nat :=
  match mask with MaskAll => seq 0 n | MaskRoots roots => roots end.

Definition field_at (fields : list arrow.Field) (i : nat) : arrow.Field :=
  nth i fields (arrow.mkField "" arrow.Null true).

Section tables.
Context (A : Arrow) (parse : bytes → option table) (make : list arrow.Field → list row → RecordBatch).

(** The batch of some root columns of a row group. *)
Definition table_batch (t : table) (idx : list nat) (i : nat) : RecordBatch :=
  make (map (field_at (schema_fields t.1)) idx) (map (cells idx) (nth i t.2 [])).

Definition refused {B} : reading (run (option B)) := Got (Returned None).

Definition TableFile : ParquetFile (ListReader A) := {|
  Builder := table;
  try_new n :=
    GetRead 0 (λ r, match r with Err _ => refused | Ok c =>
      ReadCursor c 4 (λ r, match r with Err _ => refused | Ok head =>
        if bool_decide (head = magic) then
          GetBytes 0 n (λ r, match r with Err _ => refused | Ok data =>
            match parse data with
            | Some t => if shaped t.1 then Got (Returned (Some (t.1, t))) else refused
            | None => refused
            end end)
        else refused end) end);
  build t _ mask groups :=
    Got (Returned (Some
      (map (λ i, Some (table_batch t (mask_roots (length (schema_fields t.1)) mask) i)) groups
        : Reader (ParquetReader := ListReader A))));
|}.

Lemma TableFile_laws : ParquetFileLaws TableFile.
Proof.
  constructor; [|done]. intros n. split; [done|]. intros c. split; [done|]. intros head.
  case_bool_decide; [|done]. split; [done|]. intros data. destruct (parse data) as [t|]; [|done]. by destruct (shaped _).
Qed.

Lemma TableFile_returns : file_returns (PF := TableFile).
Proof.
  exists (λ _ _, True). split.
  - intros n. split; [|intros e; by eexists]. split; [lia|]. intros [head|]; [|by eexists].
    case_bool_decide; [|by eexists]. intros [data|]; [|by eexists].
    destruct (parse data) as [t|]; [|by eexists]. destruct (shaped t.1) eqn:Hs; [|by eexists].
    eexists. split; [done|]. intros meta b [= <- <-]. split; [by apply shaped_spec|done].
  - intros k b n mask groups _. by eexists.
Qed.

Context {L : ArrowLaws A}.

(** Its files are healthy when what is parsed is described truly. *)
Lemma table_healthy contents max meta rowss :
  parse contents = Some (meta, rowss) → take 4 contents = magic → 4 ≤ max → len contents ≤ max →
  (∀ idx i, Forall (λ i, i < length (schema_fields meta))%nat idx →
    batch_types (table_batch (meta, rowss) idx i) = map (field_type (schema_fields meta)) idx ∧
    rows (table_batch (meta, rowss) idx i) = map (cells idx) (nth i rowss [])) →
  Forall2 (λ g rs,
    length (group_columns g) = length (parquet_columns meta) ∧
    ∀ name i t ci c s,
      column_position (schema_fields meta) name = Some i →
      field_type (schema_fields meta) i = t → t = arrow.Int32 ∨ t = arrow.Int64 →
      position (λ parts, bool_decide (head parts = Some name)) (parquet_columns meta) = Some ci →
      group_columns g !! ci = Some c → chunk_statistics c = Some s →
      describes s (group_num_rows g) (map (λ r, cell r i) rs)) (meta_row_groups meta) rowss →
  healthy (PF := TableFile) contents max meta rowss.
Proof.
  intros Hparse Hmagic Hmax Hlen Hmake Hg. constructor; [exact Hg|].
  assert (4 ≤ len contents) as H4.
  { apply (f_equal length) in Hmagic. rewrite length_take in Hmagic. change (length magic) with 4%nat in Hmagic.
    unfold len. lia. }
  assert (shaped meta = true) as Hs.
  { apply shaped_spec. unfold well_shaped. eapply Forall2_Forall_l; [exact Hg|].
    apply Forall_true. by intros rs g [Hl _]. }
  exists (meta, rowss), [4]. split.
  - cbn [try_new TableFile view]. destruct (Z.leb_spec (Z.of_N 0) (len contents)); [|lia].
    cbn [app length lookup list_lookup mbind option_bind]. rewrite Z.min_l by lia.
    assert (take_bytes (Z.of_N 4) (skip_bytes (Z.of_N 0) contents) = magic) as -> by done.
    rewrite bool_decide_eq_true_2 by done. cbn [view]. rewrite Z2N.id by apply len_nonneg.
    destruct (Z.leb_spec (len contents) max); [|lia].
    destruct (Z.leb_spec (Z.of_N 0 + len contents) (len contents)); [|lia]. cbn [andb].
    assert (take_bytes (len contents) (skip_bytes (Z.of_N 0) contents) = contents) as ->
      by (apply take_bytes_ge; done).
    rewrite Hparse. cbn [fst]. by rewrite Hs.
  - intros bs mask idx groups _ Hmask _ Hidx _ Hgroups.
    assert (mask_roots (length (schema_fields meta)) mask = idx) as Hroots by by destruct mask.
    eexists _, [4], (map (table_batch (meta, rowss) idx) groups).
    cbn [build TableFile view fst]. split; [done|]. rewrite Hroots. split_and!.
    + rewrite <-map_map with (g := Some). apply list_decodes; [lia|]. intros ->. by rewrite len_nil in H4.
    + apply Forall_map, Forall_true. intros i. by apply Hmake.
    + clear -Hmake Hidx. induction groups as [|i groups IH]; [done|].
      cbn [map concat]. rewrite IH, map_app. f_equal. by apply Hmake.
Qed.

End tables.

(** ** Reading a table of people *)

Definition people_meta : ParquetMetaData :=
  mkParquetMetaData people_fields [["name"]; ["age"]] people_groups
    (Some [("parquex.codec", Some "zstd"); ("ARROW:schema", Some "x"); ("parquex.empty", None)]).

Definition people_bytes : bytes := magic ++ ["p"; "e"; "o"; "p"; "l"; "e"]%byte ++ magic.

Definition parse_people (data : bytes) : option table :=
  if bool_decide (data = people_bytes) then Some (people_meta, [young_people; old_people]) else None.

Definition memory_make (fields : list arrow.Field) (rs : list row) : MemoryBatch :=
  mkMemoryBatch (map arrow.field_data_type fields) rs.

#[local] Instance PeopleStore : RangeStore := OneObject people_bytes.
#[local] Existing Instances MemoryArrow MemoryArrow_laws.
#[local] Instance PeopleReader : ParquetReader MemoryArrow := ListReader MemoryArrow.
#[local] Instance PeopleReader_laws : ParquetReaderLaws PeopleReader := ListReader_laws MemoryArrow.
#[local] Instance PeopleFile : ParquetFile PeopleReader := TableFile MemoryArrow parse_people memory_make.
#[local] Instance PeopleFile_laws : ParquetFileLaws PeopleFile := TableFile_laws MemoryArrow parse_people memory_make.

Lemma people_types_at idx :
  map arrow.field_data_type (map (field_at people_fields) idx) = map (field_type people_fields) idx.
Proof. rewrite map_map. apply map_ext. intros [|[|[|i]]]; done. Qed.

Lemma people_healthy max : 14 ≤ max → healthy (PF := PeopleFile) people_bytes max people_meta [young_people; old_people].
Proof.
  intros Hmax. apply table_healthy; [by vm_compute|done|lia|simpl; unfold len; simpl; lia| |].
  - intros idx i Hidx. unfold table_batch, memory_make. cbn [batch_types rows MemoryArrow_laws memory_types memory_table].
    change (schema_fields (people_meta, [young_people; old_people]).1) with people_fields.
    rewrite people_types_at. split; [done|].
    assert (Forall (λ r, conform_row people_types r = r) (nth i [young_people; old_people] [])) as Hconf.
    { destruct i as [|[|[|i]]]; repeat constructor. }
    cbn [snd]. induction Hconf as [|r rs Hr _ IH]; [done|]. cbn [map]. rewrite IH. f_equal.
    unfold field_type. rewrite conform_row_cells; [unfold people_types in Hr; by rewrite Hr|done].
  - eapply Forall2_impl; [exact people_described|]. intros g rs [Hl Hs]. split; [done|].
    intros name i t ci c s Hpos Ht Hty Hci Hc Hst.
    destruct (column_position_Some _ _ _ Hpos) as (field & Hf & <-).
    destruct i as [|[|i]]; simplify_eq/=; [by destruct Hty|]. by eapply Hs.
Qed.

Definition people_settings : ReaderOpenSettings :=
  mkReaderOpenSettings 64 1024 2 ["name"] (Some over_forty).

Definition people_compiled : CompiledPredicate :=
  mkCompiledPredicate "age" 0 1 op.Gt (IntegerLiteral 40) (Some PruneInt64).

Definition people_metadata : ObjectMetadata := mkObjectMetadata "people.parquet" 14 None.

Lemma people_readable :
  readable (RS := PeopleStore) (PF := PeopleFile) () "people.parquet" people_metadata 0%nat 0%nat people_bytes (λ _, True)
    people_meta [young_people; old_people] people_settings
    [mkNativeField "name" true (NativeDataType_simple "utf8"); mkNativeField "age" true (integer_type 64 true)]
    [0%nat] (Some people_compiled).
Proof.
  constructor; try reflexivity; [|apply people_healthy; simpl; lia|apply NoDup_singleton|simpl; lia..|].
  - constructor; [|done|simpl; int_bounds; unfold len; simpl; lia|simpl; int_bounds; lia].
    intros offset length st _ Ho Hl. split; [done|]. simpl. by destruct (_ <? _).
  - vm_compute. discriminate.
Qed.

Lemma people_reliable : reliable (H := PeopleStore) (mkChunkBackend (H := PeopleStore) () "people.parquet") people_bytes (λ _, True).
Proof. intros offset length st _ Ho _. simpl. destruct (Z.ltb_spec (len people_bytes) offset); [lia|done]. Qed.

Lemma open_then_read_all_witness :
  ∃ r fields s, open_store (RS := PeopleStore) (PF := PeopleFile) () "people.parquet" people_settings 0%nat 3 =
      (Returned (Ok (r, fields)), s, 4) ∧
    writer_options (state r) !! "parquex.codec" = Some "zstd" ∧
    described_columns people_fields [0%nat] fields ∧
    ∃ calls fuel bs, read_all calls fuel [] (state r) s = Some (bs, true) ∧
      concat (map (rows (ArrowLaws := MemoryArrow_laws)) bs) = [[VUtf8 "cyd"]; [VUtf8 "dee"]].
Proof.
  destruct (open_then_read_all (RS := PeopleStore) (PF := PeopleFile) () "people.parquet" _ 0%nat 0%nat people_bytes _ _ _ _ _ _ _ 3 people_readable people_reliable)
    as (r & fields & s & Ho & _ & Hw & Hd & calls & fuel & bs & Hr & _ & Hrows).
  exists r, fields, s. split; [exact Ho|]. split; [rewrite Hw; reflexivity|]. split; [exact Hd|].
  exists calls, fuel, bs. split; [exact Hr|exact Hrows].
Defined.

(** The first row group is pruned, and the predicate's column is read but not
    returned. *)
Example people_plan :
  (plan ←? plan_read people_meta people_settings;
   Returned (Ok (plan_mask plan, plan_outputs plan, plan_groups plan))) =
  Returned (Ok (MaskRoots [0; 1], [0], [1]))%nat.
Proof. reflexivity. Qed.

Definition people_opened :=
  open_store (RS := PeopleStore) (PF := PeopleFile) () "people.parquet" people_settings 0%nat 3.

Definition people_state : ReaderState (RS := PeopleStore) (H0 := PeopleReader) :=
  match people_opened.1.1 with
  | Returned (Ok (r, _)) => state r
  | _ => mkReaderState None [] true RangeMetrics_default 0 0 0 0 false true 0 [] ∅ None [] 0 0
  end.

Lemma people_opened_Ok : ∃ r fields, people_opened = (Returned (Ok (r, fields)), 2%nat, 4) ∧ state r = people_state.
Proof. eexists _, _. split; vm_compute; reflexivity. Qed.

(** The token is cancelled while the batch is fetched: no rows. *)
Lemma reads_are_prefix_witness :
  ∃ calls fuel, ∀ cancels, ∃ bs complete,
    read_all calls fuel cancels people_state 2%nat = Some (bs, complete) ∧
    Forall (λ b, batch_types (ArrowLaws := MemoryArrow_laws) b = [arrow.Utf8]) bs ∧
    concat (map (rows (ArrowLaws := MemoryArrow_laws)) bs) `prefix_of` [[VUtf8 "cyd"]; [VUtf8 "dee"]] ∧
    (complete = true → concat (map (rows (ArrowLaws := MemoryArrow_laws)) bs) = [[VUtf8 "cyd"]; [VUtf8 "dee"]]).
Proof.
  destruct people_opened_Ok as (r & fields & Ho & <-).
  refine (proj2 (reads_are_prefix (RS := PeopleStore) (PF := PeopleFile) () "people.parquet" _ 0%nat 0%nat people_bytes _ _ _ _ _ _ _ 3 r fields 2%nat 4 people_readable Ho)).
Defined.

Example cancelled_read :
  read_all 3 4 [[[true]]] people_state 2%nat = Some ([], false) ∧
  (bs ← read_all 3 4 [] people_state 2%nat; Some (map memory_table bs.1)) = Some [[[VUtf8 "cyd"]; [VUtf8 "dee"]]].
Proof. split; vm_compute; reflexivity. Qed.

Lemma people_frugal : frugal (H := PeopleStore) (mkChunkBackend (H := PeopleStore) () "people.parquet").
Proof.
  intros offset length st data st' Hl. cbn [store_read_range PeopleStore OneObject].
  destruct (_ <? _); [done|]. intros [= <- <-]. rewrite len_take_bytes by done. lia.
Qed.

(** Read one batch, then close, with three other readers open. *)
Lemma reader_steps_invariant_witness :
  ∃ s' st', rtc reader_step (people_state, 2%nat, 3 + 1) (s', st', 3) ∧ reader_invariant 4096 64 s' ∧
    max_request_bytes (range_metrics s') = 14 ∧ peak_buffered_batches s' = 1 ∧ 3 = 3 + if active s' then 1 else 0.
Proof.
  assert (∃ s' st', rtc reader_step (people_state, 2%nat, 3 + 1) (s', st', 3) ∧
    max_request_bytes (range_metrics s') = 14 ∧ peak_buffered_batches s' = 1) as (s' & st' & Hs & Hm & Hp).
  { eexists _, _. split; [eapply rtc_l; [eapply (step_next_batch (RS := PeopleStore) (H0 := PeopleReader) 4 []); vm_compute; reflexivity|]|].
    - apply rtc_once. eapply (step_close (RS := PeopleStore) (H0 := PeopleReader)). vm_compute. reflexivity.
    - split; reflexivity. }
  destruct people_opened_Ok as (r & fields & Ho & Hr). rewrite <-Hr in Hs.
  destruct (reader_steps_invariant (RS := PeopleStore) (PF := PeopleFile) MemoryArrow_laws 4096 3 () "people.parquet" people_settings 0%nat r fields 2%nat 4 s' st' 3)
    as [Hi Hn]; try done.
  - intros b. simpl. lia.
  - exact people_frugal.
  - intros md s1 [= <- _]. simpl. int_bounds. unfold len. simpl. lia.
  - exists s', st'. rewrite <-Hr. by split_and!.
Defined.

Lemma open_store_returns_witness :
  ∃ res s', open_store (RS := PeopleStore) (PF := PeopleFile) () "people.parquet"
    (mkReaderOpenSettings 64 1024 2 ["age"; "age"; "name"] None) 0%nat 3 =
    (Returned res, s', match res with Ok _ => 4 | Err _ => 3 end).
Proof.
  apply (open_store_returns (RS := PeopleStore) (PF := PeopleFile) () "people.parquet" (mkReaderOpenSettings 64 1024 2 ["age"; "age"; "name"] None) 0%nat 3);
    [apply TableFile_returns|exact people_frugal| |simpl; int_bounds; lia|by vm_compute].
  intros md s1 [= <- _]. simpl. int_bounds. unfold len. simpl. lia.
Defined.
