(* ===== verification/Sink.v ===== *)
(** * Sink: what a store promises to the Parquet writer

    The Parquet writer stages its file through a [StoreWriter] and publishes it
    at the end.  [Sink] is the contract of that use, for one object of one
    store: nothing is seen of the object until it is published, publishing is
    all or nothing, what is published can be read back, and a dropped writer
    leaves no trace.  [local_sink] and [s3_sink] discharge it for the two
    backends. *)
From S2P Require Import Prelude Errors Object ChunkReader Fs Local Store S3 S3Store.

(** ** The contract *)

(** A writer that is published or aborted: it refuses everything and holds
    nothing, whether its token is cancelled later or not. *)
Definition store_refuses {RS : S3} (w : StoreWriter) : Prop := ∀ s,
  (∃ e, store_publish w s = (Err e, w, s)) ∧ (∀ data, ∃ e, store_write data w s = (Err e, w, s)) ∧
  store_abort w s = (Ok false, w, s) ∧ store_drop w s = s.

Definition store_finished {RS : S3} (w : StoreWriter) : Prop := store_refuses w ∧ store_refuses (store_cancel w) ∧
  store_cancel (store_cancel w) = store_cancel w.

Lemma store_finished_cancel {RS : S3} (w : StoreWriter) : store_finished w → store_finished (store_cancel w).
Proof. intros (H1 & H2 & H3). split; [done|]. by rewrite H3. Qed.

#[local] Existing Instance front_store.

(** [holds s0 w s acc]: [w] was opened in the state [s0] and is still open in
    [s], having acknowledged the bytes [acc] (unknown once a write failed). *)
Class Sink {RS : S3} (store : StoreResource) (key : string) := {
  ready : Stores → Prop;
  holds : Stores → StoreWriter → Stores → option bytes → Prop;
  (** The content of the object, if there is one. *)
  object : Stores → option bytes;
  (** Nothing in the way of cleaning up, and the outcome of it. *)
  calm : Stores → Prop;
  restored : Stores → Stores → Prop;
  (** The object is these bytes, and is read as them. *)
  kept : bytes → Stores → Prop;
  kept_object c s : kept c s → object s = Some c;
  kept_honest c : len c ≤ u64_max → honest (mkChunkBackend store key) c (kept c);
  kept_head c s md s' : kept c s → ChunkReader.store_head store key s = (Ok md, s') → size md = len c ∧ kept c s';
  open_holds s0 flush sync w s : ready s0 →
    open_writer store key flush sync false s0 = (Ok w, s) → holds s0 w s (Some []);
  holds_object s0 w s acc : holds s0 w s acc → object s = object s0;
  write_holds s0 data w s acc r w' s' : holds s0 w s acc → store_write_io data w s = (r, w', s') →
    holds s0 w' s' (match r with Ok _ => (λ c, c ++ data) <$> acc | Err _ => None end) ∧
    (∀ n, r = Ok n → n = len data) ∧ (calm s → calm s');
  flush_holds s0 w s acc r w' s' : holds s0 w s acc → store_flush_io w s = (r, w', s') →
    holds s0 w' s' acc ∧ (calm s → calm s');
  cancel_holds s0 w s acc : holds s0 w s acc → holds s0 (store_cancel w) s acc ∧ store_token (store_cancel w) = true;
  publish_holds s0 w s acc r w' s' : holds s0 w s acc → store_publish w s = (r, w', s') →
    match r with
    | Ok md => ∃ c, (∀ a, acc = Some a → c = a) ∧ object s' = Some c ∧
        store_path md = key ∧ store_size md = len c ∧ (calm s' → kept c s')
    | Err _ => object s' = object s0 ∨ ∃ c, (∀ a, acc = Some a → c = a) ∧ object s' = Some c
    end ∧ object (store_drop w' s') = object s' ∧ (∀ md, r = Ok md → store_drop w' s' = s') ∧
    (store_finished w' ∨ w' = w ∧ s' = s ∧ ∃ e, r = Err e);
  abort_holds s0 w s acc r w' s' : holds s0 w s acc → store_abort w s = (r, w', s') →
    object s' = object s0 ∧ store_finished w' ∧ (calm s → restored s0 s');
  drop_object s0 w s acc : holds s0 w s acc → object (store_drop w s) = object s0;
  drop_restores s0 w s acc : holds s0 w s acc → calm s → restored s0 (store_drop w s);
  (** A store may promise what is published after a failed write, too: the
      staged bytes, to which that write added at most a prefix of its data. *)
  keeps_staged : bool;
  staged_bytes : StoreWriter → Stores → bytes → Prop;
  keeps_open s0 flush sync w s : keeps_staged = true → ready s0 →
    open_writer store key flush sync false s0 = (Ok w, s) → staged_bytes w s [];
  keeps_write s0 data w s acc c r w' s' : holds s0 w s acc → staged_bytes w s c →
    store_write_io data w s = (r, w', s') →
    ∃ added, added `prefix_of` data ∧ (∀ n, r = Ok n → added = data) ∧ staged_bytes w' s' (c ++ added);
  keeps_publish s0 w s acc c r w' s' : holds s0 w s acc → staged_bytes w s c → store_publish w s = (r, w', s') →
    match r with Ok _ => object s' = Some c | Err _ => object s' = object s0 ∨ object s' = Some c end;
}.

(** ** The local store *)

Definition file_content (q : apath) (fs : gmap apath Node) : option bytes :=
  match fs !! q with Some (RegularFile c _) => Some c | _ => None end.

Lemma grown_content root names q before after :
  grown root names before after → file_content q after = file_content q before.
Proof.
  intros Hg. unfold file_content. destruct (Hg q) as [->|(-> & -> & _)]; done.
Qed.

Lemma insert_content stage n q fs : stage ≠ q → file_content q (<[stage := n]> fs) = file_content q fs.
Proof. intros Hq. unfold file_content. by rewrite lookup_insert_ne. Qed.

Lemma unpublished_content w before after :
  stage_path w ≠ destination w → unpublished w before after →
  file_content (destination w) after = file_content (destination w) before.
Proof.
  intros Hne [->| ->]; [done|]. unfold file_content. by rewrite lookup_delete_ne.
Qed.

Lemma published_content w c before after : published w c before after → file_content (destination w) after = Some c.
Proof. intros [[m Hm] _]. unfold file_content. by rewrite Hm. Qed.

Section local_sink.
Context {RS : S3} (store : StoreResource) (root : apath) (key : string) (names : list string).
Context (Hbackend : store_backend store = LocalBackend root) (Hroot : Forall name_ok root)
  (Hkey : plain_key key names).

Definition local_ready (s : Stores) : Prop :=
  real_directory (files (world (process s))) root ∧ 0 ≤ active_writers (process s) < usize_max.

Definition local_holds (s0 : Stores) (w : StoreWriter) (s : Stores) (acc : option bytes) : Prop :=
  local_ready s0 ∧
  ∃ flush sync w0 s1 lw, open_writer store key flush sync false s0 = (Ok (LocalStoreWriter w0 root), s1) ∧
    rtc own_step (w0, process s1, Some []) (lw, process s, acc) ∧
    w = LocalStoreWriter lw root ∧ s = set_process s1 (process s).

Definition local_object (s : Stores) : option bytes := file_content (root ++ names) (files (world (process s))).

Definition local_calm (s : Stores) : Prop := faults (world (process s)) = [].

Definition local_restored (s0 s : Stores) : Prop :=
  grown root (removelast names) (files (world (process s0))) (files (world (process s))) ∧
  active_writers (process s) = active_writers (process s0).

(** The files while a writer is open: those it found, with the directories of
    the key and the staging file. *)
Lemma local_holds_files s0 w s acc : local_holds s0 w s acc →
  ∃ lw c m before, w = LocalStoreWriter lw root ∧ staged lw (process s) c ∧ (∀ a, acc = Some a → c = a) ∧
    destination lw = root ++ names ∧
    grown root (removelast names) (files (world (process s0))) before ∧ before !! stage_path lw = None ∧
    files (world (process s)) = <[stage_path lw := RegularFile c m]> before ∧
    active_writers (process s) = usize_wrap (active_writers (process s0) + 1).
Proof.
  intros [[Hreal Hn] (flush & sync & w0 & s1 & lw & Hopen & Hsteps & -> & _)].
  apply (open_writer_local _ root) in Hopen as (p1 & p2 & dest & Hens & Hres & Hopen); [|done].
  unfold ensure_local_parent in Hens. rewrite (plain_parent key names Hkey) in Hens.
  apply ensure_directories_spec in Hens as (_ & Haw & Hg & Hpar). specialize (Hpar eq_refl Hreal).
  apply (resolve_destination_plain root key names) in Hres as [Hs ->]; [|done..].
  pose proof Hs as (Hf2 & _ & _ & Ha2 & _).
  apply LocalWriter_open_Ok in Hopen as (Hst0 & Hd0 & _ & _ & _ & Hnone & Hfs & Hact).
  destruct (own_steps_alone w0 (files (world p2)) (active_writers (process s1)) _ _ Hsteps)
    as [(c & Hst & Hacc & Hsp & Hd & _) [(c' & m' & Hf) Hcount]].
  { split; [|split; [by eexists _, _|done]]. exists []. split; [done|]. split; [by intros d [= <-]|done]. }
  exists lw, c, m', (files (world p2)). split_and!; try done; [congruence|by rewrite Hf2|by rewrite Hsp| |congruence].
  rewrite Hf, Hsp. f_equal. pose proof (staged_contents _ _ _ Hst) as [m Hm].
  rewrite Hf, Hsp, lookup_insert_eq in Hm. by injection Hm as ->.
Qed.

Lemma local_open_holds s0 flush sync w s :
  local_ready s0 → open_writer store key flush sync false s0 = (Ok w, s) → local_holds s0 w s (Some []).
Proof.
  intros Hr Hopen. split; [done|]. assert (∃ w0, w = LocalStoreWriter w0 root ∧ s = set_process s0 (process s)) as (w0 & -> & Hs).
  { revert Hopen. unfold open_writer, mbind, front_bind, pure, locally. rewrite Hbackend.
    destruct (validate_key key false); [|done].
    destruct (ensure_local_parent root key (process s0)) as [[[]|e] p1]; [|done]. cbn [process set_process].
    destruct (Local.stage _ _ _ p1) as [[w0|e] p2]; [|done]. intros [= <- <-]. eauto. }
  exists flush, sync, w0, s, w0. split_and!; [done|done|done|]. by destruct s.
Qed.

Lemma local_holds_object s0 w s acc : local_holds s0 w s acc → local_object s = local_object s0.
Proof.
  intros (lw & c & m & before & _ & Hst & _ & Hd & Hg & _ & Hf & _)%local_holds_files.
  unfold local_object. rewrite Hf, insert_content by (rewrite <-Hd; apply Hst). by eapply grown_content.
Qed.

(** A step of the local writer is a step of the store writer. *)
Lemma local_holds_step s0 lw s acc lw' p' acc' :
  local_holds s0 (LocalStoreWriter lw root) s acc → own_step (lw, process s, acc) (lw', p', acc') →
  local_holds s0 (LocalStoreWriter lw' root) (set_process s p') acc'.
Proof.
  intros [Hr (flush & sync & w0 & s1 & lw1 & Hopen & Hsteps & [= <-] & Hs)] Hstep. split; [done|].
  exists flush, sync, w0, s1, lw'. split_and!; [done| |done|by rewrite Hs]. by eapply rtc_r.
Qed.

Lemma local_write_calm data lw p : faults (world p) = [] → faults (world (Local.write data lw p).2) = [].
Proof.
  intros Hno. unfold Local.write, mbind, native_bind, of_result.
  destruct (ensure_open lw WriterWrite); [|done]. destruct (file lw); [|done]. simpl.
  unfold file_write_all, io, syscall. rewrite Hno. simpl.
  by destruct (bool_decide _).
Qed.

Lemma local_write_holds s0 data w s acc r w' s' :
  local_holds s0 w s acc → store_write_io data w s = (r, w', s') →
  local_holds s0 w' s' (match r with Ok _ => (λ c, c ++ data) <$> acc | Err _ => None end) ∧
  (∀ n, r = Ok n → n = len data) ∧ (local_calm s → local_calm s').
Proof.
  intros Hh. destruct (local_holds_files _ _ _ _ Hh) as (lw & c & m & before & -> & Hst & _).
  unfold store_write_io, store_write. pose proof (local_write_calm data lw (process s)) as Hcalm.
  destruct (Local.write data lw (process s)) as [[r1 lw'] p'] eqn:Hw. intros [= <- <- <-].
  split; [|split; [|exact Hcalm]].
  - apply (step_write _ _ _ acc) in Hw as Hstep. pose proof (local_holds_step _ _ _ _ _ _ _ Hh Hstep) as Hh'.
    by destruct r1.
  - intros n Hn. destruct (write_cases _ _ _ _ _ _ _ Hst Hw) as (_ & _ & wr & m' & _ & Hr).
    destruct r1 as [n'|e]; simplify_eq/=. by destruct Hr.
Qed.

Lemma local_flush_holds s0 w s acc r w' s' :
  local_holds s0 w s acc → store_flush_io w s = (r, w', s') →
  local_holds s0 w' s' acc ∧ (local_calm s → local_calm s').
Proof.
  intros Hh. destruct (local_holds_files _ _ _ _ Hh) as (lw & _ & _ & _ & -> & _).
  unfold store_flush_io. destruct (Local.flush_io lw (process s)) as [[r1 lw'] p'] eqn:Hw.
  intros [= <- <- <-]. apply (step_flush _ _ acc) in Hw as Hstep. split; [by eapply local_holds_step|].
  unfold Local.flush_io in Hw. by simplify_eq.
Qed.

Lemma local_cancel_holds s0 w s acc :
  local_holds s0 w s acc → local_holds s0 (store_cancel w) s acc ∧ store_token (store_cancel w) = true.
Proof.
  intros Hh. destruct (local_holds_files _ _ _ _ Hh) as (lw & _ & _ & _ & -> & _).
  pose proof (local_holds_step _ _ _ _ _ _ _ Hh (step_cancel lw (process s) acc)) as Hh'.
  split; [by destruct s|done].
Qed.

(** Dropping an open writer removes at most its staging file. *)
Lemma local_drop_files s0 lw s acc : local_holds s0 (LocalStoreWriter lw root) s acc →
  let p' := drop_writer lw (process s) in
  unpublished lw (files (world (process s))) (files (world p')) ∧
  (local_calm s → files (world p') = delete (stage_path lw) (files (world (process s)))) ∧
  active_writers p' = usize_wrap (active_writers (process s) - 1).
Proof.
  intros Hh. destruct (local_holds_files _ _ _ _ Hh) as (? & c & m & before & [= <-] & Hst & _).
  pose proof Hst as [Ha _ [m' Hc] _ Hne]. unfold drop_writer. rewrite Ha.
  destruct (cleanup_stage (cancel_writer lw) (process s)) as [w2 p2] eqn:Hcl.
  apply cleanup_stage_spec in Hcl as (_ & _ & Hn & Hu & Hdel); [|done]. simpl in *. rewrite Ha in Hn.
  split_and!; [done| |done]. intros Hcalm. apply Hdel; [done|]. by rewrite Hc.
Qed.

Lemma local_drop_object s0 w s acc : local_holds s0 w s acc → local_object (store_drop w s) = local_object s0.
Proof.
  intros Hh. rewrite <-(local_holds_object _ _ _ _ Hh).
  destruct (local_holds_files _ _ _ _ Hh) as (lw & c & m & before & -> & Hst & _ & Hd & _).
  destruct (local_drop_files _ _ _ _ Hh) as (Hu & _). unfold local_object. rewrite <-Hd.
  eapply unpublished_content; [apply Hst|exact Hu].
Qed.

Lemma local_drop_restores s0 w s acc : local_holds s0 w s acc → local_calm s → local_restored s0 (store_drop w s).
Proof.
  intros Hh Hcalm. destruct (local_holds_files _ _ _ _ Hh) as (lw & c & m & before & -> & Hst & _ & _ & Hg & Hnone & Hf & Hn).
  destruct (local_drop_files _ _ _ _ Hh) as (_ & Hdel & Hact). split; cbn [store_drop process set_process].
  - rewrite (Hdel Hcalm), Hf, delete_restores; done.
  - destruct Hh as [[_ Hb] _]. rewrite Hact, Hn, (usize_wrap_in (_ + 1)) by lia. rewrite usize_wrap_in; lia.
Qed.

Lemma local_refuses lw : active lw = false → store_refuses (LocalStoreWriter lw root).
Proof.
  intros Ha s.
  assert (∀ o, ∃ e, ensure_open lw o = Err e) as Hopen.
  { intros o. unfold ensure_open. destruct (check _ _); cbn [mbind result_bind]; rewrite ?Ha; by eexists. }
  split; [|split; [|split]].
  - destruct (Hopen WriterPublish) as [e He]. exists e. cbn [store_publish]. unfold publish, publish_by. rewrite He. by destruct s.
  - intros data. destruct (Hopen WriterWrite) as [e He]. exists e. cbn [store_write]. unfold Local.write, of_result.
    rewrite He. by destruct s.
  - cbn [store_abort]. unfold Local.abort. rewrite Ha. by destruct s.
  - cbn [store_drop]. unfold drop_writer. rewrite Ha. by destruct s.
Qed.

Lemma local_finished lw : active lw = false → store_finished (LocalStoreWriter lw root).
Proof. intros Ha. split; [by apply local_refuses|]. split; [by apply local_refuses|done]. Qed.

(** Aborting removes the staging file as dropping does. *)
Lemma local_abort_files s0 lw s acc r lw' p' : local_holds s0 (LocalStoreWriter lw root) s acc →
  Local.abort lw (process s) = (r, lw', p') →
  active lw' = false ∧ unpublished lw (files (world (process s))) (files (world p')) ∧
  (local_calm s → files (world p') = delete (stage_path lw) (files (world (process s)))) ∧
  active_writers p' = usize_wrap (active_writers (process s) - 1).
Proof.
  intros Hh. destruct (local_holds_files _ _ _ _ Hh) as (? & c & m & before & [= <-] & Hst & _).
  pose proof Hst as [Ha _ [m' Hc] _ Hne]. unfold Local.abort. rewrite Ha. cbn [negb].
  change (stage_path (close_file (cancel_writer lw))) with (stage_path lw).
  destruct (fs_remove_file (stage_path lw) (world (process s))) as [r1 wd] eqn:Hr.
  apply remove_cases in Hr as [Hr Hno]; [|done]. rewrite Local.finish_active by done. intros [= _ <- <-].
  split; [done|]. split; [destruct r1; [right|left]; done|]. split; [|done].
  intros Hcalm. apply Hno; [done|]. by rewrite Hc.
Qed.

Lemma local_abort_holds s0 w s acc r w' s' : local_holds s0 w s acc → store_abort w s = (r, w', s') →
  local_object s' = local_object s0 ∧ store_finished w' ∧ (local_calm s → local_restored s0 s').
Proof.
  intros Hh. destruct (local_holds_files _ _ _ _ Hh) as (lw & c & m & before & -> & Hst & _ & Hd & Hg & Hnone & Hf & Hn).
  cbn [store_abort]. destruct (Local.abort lw (process s)) as [[r1 lw'] p'] eqn:Ha. intros [= <- <- <-].
  destruct (local_abort_files _ _ _ _ _ _ _ Hh Ha) as (Hact & Hu & Hdel & Hcount).
  split; [|split; [by apply local_finished|]].
  - rewrite <-(local_holds_object _ _ _ _ Hh). unfold local_object. rewrite <-Hd.
    eapply unpublished_content; [apply Hst|exact Hu].
  - intros Hcalm. split; cbn [process set_process].
    + rewrite (Hdel Hcalm), Hf, delete_restores; done.
    + destruct Hh as [[_ Hb] _]. rewrite Hcount, Hn, (usize_wrap_in (_ + 1)) by lia. rewrite usize_wrap_in; lia.
Qed.

(** A cancelled writer refuses to publish. *)
Lemma local_publish_cancelled lw p : Local.cancellation lw = true → ∃ e, publish lw p = (Err e, lw, p).
Proof. intros Hc. unfold publish, publish_by, ensure_open. rewrite Hc. by eexists. Qed.

Lemma local_publish_files s0 lw s acc r lw' p' :
  local_holds s0 (LocalStoreWriter lw root) s acc → Local.cancellation lw = false →
  publish lw (process s) = (r, lw', p') →
  active lw' = false ∧
  match r with
  | Ok md => ∃ c, (∀ a, acc = Some a → c = a) ∧ path md = to_string_lossy (root ++ names) ∧
      described (root ++ names) c md (files (world p')) ∧
      real_directory (files (world p')) (root ++ removelast names)
  | Err _ => local_object (set_process s p') = local_object s0 ∨
      ∃ c, (∀ a, acc = Some a → c = a) ∧ local_object (set_process s p') = Some c
  end.
Proof.
  intros Hh Hcan Hp. destruct (local_holds_files _ _ _ _ Hh) as (? & c & m & before & [= <-] & Hst & Hacc & Hd & _).
  destruct (publish_cases _ _ _ _ _ _ Hst Hcan Hp) as (Ha & _ & Hr). split; [done|]. destruct r as [md|e].
  - destruct Hh as [[Hreal _] (flush & sync & w0 & s1 & ? & Hopen & Hsteps & [= <-] & _)].
    apply (open_writer_local _ root) in Hopen as (p1 & p2 & dest & Hens & Hres & Hopen); [|done].
    by apply (local_publication root key names flush sync _ _ _ _ _ _ _ _ _ _ _ _
      Hroot Hkey Hreal Hens Hres Hopen Hsteps Hcan Hp).
  - unfold local_object. cbn [process set_process]. rewrite <-Hd. destruct Hr as [Hu|[_ Hpub]].
    + left. rewrite (unpublished_content lw _ _ (staged_apart _ _ _ Hst) Hu), Hd.
      by apply local_holds_object in Hh.
    + right. exists c. split; [done|]. by eapply published_content.
Qed.

(** The object is a regular file, below real directories, and no system call
    is about to fail. *)
Definition local_kept (c : bytes) (s : Stores) : Prop :=
  real_directory (files (world (process s))) (root ++ removelast names) ∧
  (∃ m, files (world (process s)) !! (root ++ names) = Some (RegularFile c m)) ∧ local_calm s.

Lemma local_kept_object c s : local_kept c s → local_object s = Some c.
Proof. intros (_ & [m Hm] & _). unfold local_object, file_content. by rewrite Hm. Qed.

Lemma local_kept_tree c s p : local_kept c s → same_tree (process s) p → local_kept c (set_process s p).
Proof.
  intros (Hd & Hm & Hc) (Hf & _ & Hno). unfold local_kept, local_calm in *. cbn [process set_process].
  rewrite Hf. by split_and!; [..|apply Hno].
Qed.

(** Reads and [head] succeed. *)
Lemma local_kept_reads c s : local_kept c s → len c ≤ u64_max →
  (∃ t, (store_head store key s).1 = Ok (mkStoreMetadata key (len c) t)) ∧
  ∀ offset length, 0 ≤ offset ≤ len c → 0 ≤ length →
    (store_read_range store key offset length s).1 = Ok (take_bytes length (skip_bytes offset c)).
Proof.
  intros (Hd & [m Hm] & Hc) Hu.
  destruct (local_published_reads store root key names
    (mkObjectMetadata (to_string_lossy (root ++ names)) (len c) (m ≫= system_time_ns)) c s) as [Hh Hr]; try done.
  { split; [done|]. by exists m. }
  split; [by eexists|auto].
Qed.

Lemma local_kept_honest c : len c ≤ u64_max → honest (mkChunkBackend store key) c (local_kept c).
Proof.
  intros Hu offset length s Hk Ho Hl. cbn [ChunkReader.store_read_range front_store ChunkReader.store ChunkReader.key].
  destruct (local_kept_reads c s Hk Hu) as [_ Hr]. specialize (Hr offset length Ho Hl).
  rewrite (local_read_range store root) in Hr |- * by done. rewrite (plain_valid key names Hkey) in Hr |- *.
  pose proof (read_range_tree (local_location root key) (mkByteRange offset length) false (process s)) as Ht.
  destruct (read_range _ _ _ _) as [r p]. simpl in Hr, Ht. subst r. split; [|done]. by apply local_kept_tree.
Qed.

Lemma local_kept_reliable c : len c ≤ u64_max → reliable (mkChunkBackend store key) c (local_kept c).
Proof. intros Hu offset length s Hk Ho Hl. by apply local_kept_reads. Qed.

Lemma local_kept_head c s md s' : local_kept c s →
  ChunkReader.store_head store key s = (Ok md, s') → size md = len c ∧ local_kept c s'.
Proof.
  intros Hk. cbn [ChunkReader.store_head front_store]. unfold store_head, mbind, front_bind, pure, locally.
  rewrite Hbackend, (plain_valid key names Hkey).
  assert (same (process s) (head (local_location root key) false (process s)).2) as Hs.
  { apply quiet_bind; [auto with quiet|]. intros _. apply quiet_bind; [apply quiet_resolve_existing|]. intros q.
    apply quiet_metadata_for. }
  destruct (head _ _ _) as [r p] eqn:Hh. simpl in Hs. apply same_same_tree in Hs.
  destruct r as [omd|e]; [|done]. destruct (local_metadata root omd) as [m|e] eqn:Hm; [|done].
  cbn [mbind result_bind]. intros [= <- <-]. split; [|by apply local_kept_tree].
  destruct Hk as (Hd & [x Hx] & Hc).
  destruct (local_file_located root key names c x s) as (Hcan & Hloc & Hnode); [done..|].
  pose proof (head_nofault _ (process s) _ _ _ Hcan Hc Hloc Hnode) as Hh'. rewrite Hh in Hh'. injection Hh' as ->.
  apply bind_Ok in Hm as (rest & _ & [= <-]). done.
Qed.

Lemma local_publish_holds s0 w s acc r w' s' :
  local_holds s0 w s acc → store_publish w s = (r, w', s') →
  match r with
  | Ok md => ∃ c, (∀ a, acc = Some a → c = a) ∧ local_object s' = Some c ∧
      store_path md = key ∧ store_size md = len c ∧ (local_calm s' → local_kept c s')
  | Err _ => local_object s' = local_object s0 ∨ ∃ c, (∀ a, acc = Some a → c = a) ∧ local_object s' = Some c
  end ∧ local_object (store_drop w' s') = local_object s' ∧ (∀ md, r = Ok md → store_drop w' s' = s') ∧
  (store_finished w' ∨ w' = w ∧ s' = s ∧ ∃ e, r = Err e).
Proof.
  intros Hh. destruct (local_holds_files _ _ _ _ Hh) as (lw & _ & _ & _ & -> & _). cbn [store_publish].
  destruct (Local.cancellation lw) eqn:Hcan.
  { destruct (local_publish_cancelled lw (process s) Hcan) as [e ->]. intros [= <- <- <-].
    assert (set_process s (process s) = s) as -> by by destruct s. cbn [mbind result_bind].
    split; [left; by eapply local_holds_object|]. split; [|split; [done|right; split_and!; [done..|by eexists]]].
    by rewrite (local_drop_object _ _ _ _ Hh), (local_holds_object _ _ _ _ Hh). }
  destruct (publish lw (process s)) as [[r1 lw'] p'] eqn:Hp. intros [= <- <- <-].
  destruct (local_publish_files _ _ _ _ _ _ _ Hh Hcan Hp) as [Ha Hr].
  assert (store_drop (LocalStoreWriter lw' root) (set_process s p') = set_process s p') as Hdrop.
  { cbn [store_drop process set_process]. unfold drop_writer. rewrite Ha. by destruct s. }
  rewrite Hdrop. split; [|split; [done|split; [done|left; by apply local_finished]]]. destruct r1 as [omd|e]; [|done]. cbn [mbind result_bind].
  destruct Hr as (c & Hc & Hpath & Hdesc & Hdir).
  rewrite (local_metadata_plain root key names) by done. pose proof Hdesc as [Hsize (m & Hm & _)].
  exists c. split; [done|]. split; [unfold local_object, file_content; cbn [process set_process]; by rewrite Hm|].
  split_and!; [done..|]. intros Hcalm. split; [done|]. split; [by exists m|done].
Qed.

(** The bytes in the staging file of a writer. *)
Definition local_staged (w : StoreWriter) (s : Stores) (c : bytes) : Prop :=
  ∃ lw, w = LocalStoreWriter lw root ∧ staged lw (process s) c.

Lemma staged_unique lw p c d : staged lw p c → staged lw p d → c = d.
Proof. intros [m Hc]%staged_contents [n Hd]%staged_contents. rewrite Hc in Hd. by injection Hd. Qed.

Lemma local_staged_open s0 flush sync w s :
  true = true → local_ready s0 → open_writer store key flush sync false s0 = (Ok w, s) → local_staged w s [].
Proof.
  intros _ Hr Hopen. apply local_open_holds in Hopen; [|done].
  destruct (local_holds_files _ _ _ _ Hopen) as (lw & c & m & before & -> & Hst & Hacc & _).
  exists lw. split; [done|]. by rewrite <-(Hacc [] eq_refl).
Qed.

Lemma local_staged_write s0 data w s acc c r w' s' :
  local_holds s0 w s acc → local_staged w s c → store_write_io data w s = (r, w', s') →
  ∃ added, added `prefix_of` data ∧ (∀ n, r = Ok n → added = data) ∧ local_staged w' s' (c ++ added).
Proof.
  intros _ (lw & -> & Hst). unfold store_write_io, store_write.
  destruct (Local.write data lw (process s)) as [[r1 lw'] p'] eqn:Hw. intros [= <- <- <-].
  destruct (write_cases _ _ _ _ _ _ _ Hst Hw) as (-> & _ & added & m & Hf & Hr).
  exists added. split_and!.
  - destruct r1 as [n|e]; [by destruct Hr as [-> _]|done].
  - intros n Hn. destruct r1 as [n'|e]; [|done]. by destruct Hr.
  - exists lw. split; [done|]. destruct Hst as [Ha Hfile _ Happ Hsp]. constructor; try done.
    exists m. cbn [process set_process]. rewrite Hf. apply lookup_insert_eq.
Qed.

Lemma local_staged_publish s0 w s acc c r w' s' :
  local_holds s0 w s acc → local_staged w s c → store_publish w s = (r, w', s') →
  match r with
  | Ok _ => local_object s' = Some c
  | Err _ => local_object s' = local_object s0 ∨ local_object s' = Some c
  end.
Proof.
  intros Hh (lw & -> & Hst) Hp. destruct (local_holds_files _ _ _ _ Hh) as (? & d & m & before & [= <-] & _ & _ & Hd & _).
  cbn [store_publish] in Hp. destruct (Local.cancellation lw) eqn:Hcan.
  { destruct (local_publish_cancelled lw (process s) Hcan) as [e E]. rewrite E in Hp. injection Hp as <- _ <-. left.
    replace (set_process s (process s)) with s by by destruct s. by eapply local_holds_object. }
  destruct (publish lw (process s)) as [[r1 lw'] p'] eqn:Hpub. injection Hp as <- _ <-.
  destruct (publish_cases _ _ _ _ _ _ Hst Hcan Hpub) as (_ & _ & Hr).
  assert (∀ b a, published lw c b a → file_content (root ++ names) a = Some c) as Hcon.
  { intros b a Hb. rewrite <-Hd. by eapply published_content. }
  destruct r1 as [md|e]; cbn [mbind result_bind].
  - assert (local_object (set_process s p') = Some c) as Ho by (destruct Hr as [Hr _]; by apply (Hcon _ _ Hr)).
    destruct (local_metadata root md); [done|by right].
  - destruct Hr as [Hu|[_ Hr]]; [left|right; by apply (Hcon _ _ Hr)].
    rewrite <-(local_holds_object _ _ _ _ Hh). unfold local_object. rewrite <-Hd.
    eapply unpublished_content; [apply Hst|exact Hu].
Qed.

Definition local_sink : Sink store key := {|
  ready := local_ready; holds := local_holds; object := local_object; calm := local_calm;
  restored := local_restored; kept := local_kept;
  kept_object := local_kept_object; kept_honest := local_kept_honest; kept_head := local_kept_head;
  open_holds := local_open_holds; holds_object := local_holds_object; write_holds := local_write_holds;
  flush_holds := local_flush_holds; cancel_holds := local_cancel_holds; publish_holds := local_publish_holds;
  abort_holds := local_abort_holds;
  drop_object := local_drop_object; drop_restores := local_drop_restores;
  keeps_staged := true; staged_bytes := local_staged; keeps_open := local_staged_open;
  keeps_write := local_staged_write; keeps_publish := local_staged_publish;
|}.

End local_sink.

(** ** The S3 store *)

Section s3_sink.
Context `{ObjectStoreLaws} (store : StoreResource) (rs : RemoteStore) (key : string) (o : RemoteObject).
Context (Hbackend : store_backend store = S3Backend rs) (Hobject : remote_object rs key = Ok o)
  (Hpart : 0 < multipart_part_size (object_config o)).

Definition s3_ready (s : Stores) : Prop := requests_in_range (remote s).

Definition s3_holds (s0 : Stores) (w : StoreWriter) (s : Stores) (acc : option bytes) : Prop :=
  objects (net (remote s)) = objects (net (remote s0)) ∧
  ∃ rw u, w = S3StoreWriter rw key ∧ sending u (path_text (object_path o)) rw (remote s) acc.

Definition s3_object (s : Stores) : option bytes := objects (net (remote s)) !! path_text (object_path o).

Definition s3_restored (s0 s : Stores) : Prop := objects (net (remote s)) = objects (net (remote s0)).

Lemma s3_open_holds s0 flush sync w s :
  s3_ready s0 → open_writer store key flush sync false s0 = (Ok w, s) → s3_holds s0 w s (Some []).
Proof.
  intros Hr. unfold open_writer, mbind, front_bind, pure, remotely. rewrite Hbackend.
  destruct (validate_key key false); [|done]. cbn [Store.remote_object Store.remote_open_multipart ObjectStoreS3].
  rewrite Hobject. destruct (remote_open_multipart o false (remote s0)) as [[rw|e] t] eqn:Hopen; [|done].
  intros [= <- <-]. apply open_multipart_sending in Hopen as [Hobj [u Hu]]; [|done..].
  split; [exact Hobj|]. by exists rw, u.
Qed.

Lemma s3_holds_object s0 w s acc : s3_holds s0 w s acc → s3_object s = s3_object s0.
Proof. intros [Hobj _]. unfold s3_object. by rewrite Hobj. Qed.

Lemma s3_write_holds s0 data w s acc r w' s' :
  s3_holds s0 w s acc → store_write_io data w s = (r, w', s') →
  s3_holds s0 w' s' (match r with Ok _ => (λ c, c ++ data) <$> acc | Err _ => None end) ∧
  (∀ n, r = Ok n → n = len data) ∧ (True → True).
Proof.
  intros [Hobj (rw & u & -> & Hu)]. unfold store_write_io, store_write. cbn [Store.remote_write ObjectStoreS3].
  destruct (remote_write data rw (remote s)) as [[r1 rw'] t] eqn:Hw. intros [= <- <- <-].
  destruct (remote_write_spec _ _ _ _ _ _ _ _ _ Hu Hw) as (Hobj' & Hu' & Hn).
  split; [split; [by rewrite <-Hobj|]|split; [|done]].
  - exists rw', u. split; [done|]. by destruct r1.
  - intros n Hr. destruct r1 as [n'|e]; [|done]. injection Hr as <-. by apply Hn.
Qed.

Lemma s3_flush_holds s0 w s acc r w' s' :
  s3_holds s0 w s acc → store_flush_io w s = (r, w', s') → s3_holds s0 w' s' acc ∧ (True → True).
Proof.
  intros [Hobj (rw & u & -> & Hu)]. unfold store_flush_io. cbn [Store.remote_flush ObjectStoreS3].
  unfold remote_flush. intros [= _ <- <-]. split; [|done]. split; [done|]. by exists rw, u.
Qed.

Lemma s3_cancel_holds s0 w s acc :
  s3_holds s0 w s acc → s3_holds s0 (store_cancel w) s acc ∧ store_token (store_cancel w) = true.
Proof.
  intros [Hobj (rw & u & -> & [])]. split; [|done]. split; [done|]. by exists (set_token rw true), u.
Qed.

Lemma s3_drop_objects rw t : requests_in_range t → objects (net (remote_drop rw t)) = objects (net t).
Proof.
  intros Ht. unfold remote_drop. destruct (multipart_active rw); [|done].
  destruct (remote_abort rw t) as [[r rw'] t'] eqn:Ha. by destruct (remote_abort_spec _ _ _ _ _ Ht Ha).
Qed.

Lemma s3_drop_restores s0 w s acc : s3_holds s0 w s acc → s3_restored s0 (store_drop w s).
Proof.
  intros [Hobj (rw & u & -> & Hu)]. unfold s3_restored. cbn [store_drop Store.remote_drop ObjectStoreS3 remote set_remote].
  by rewrite s3_drop_objects by apply Hu.
Qed.

Lemma s3_drop_object s0 w s acc : s3_holds s0 w s acc → s3_object (store_drop w s) = s3_object s0.
Proof. intros Hh. unfold s3_object. by rewrite (s3_drop_restores _ _ _ _ Hh). Qed.

Definition s3_kept (c : bytes) (s : Stores) : Prop := s3_object s = Some c ∧ requests_in_range (remote s).

Lemma s3_kept_honest c : honest (mkChunkBackend store key) c (s3_kept c).
Proof.
  intros offset length s [Hobj Hreq] Hoff Hlen.
  pose proof (s3_read_honest store rs key o _ c Hbackend Hobject Hobj offset length s (conj eq_refl Hreq) Hoff Hlen) as Hh.
  cbn [ChunkReader.store_read_range front_store ChunkReader.store ChunkReader.key] in *.
  destruct (store_read_range _ _ _ _ _) as [r s']. destruct Hh as [[Hobj' Hreq'] Hr]. split; [|done].
  split; [|done]. unfold s3_object. by rewrite Hobj'.
Qed.

Lemma s3_kept_head c s md s' : s3_kept c s →
  ChunkReader.store_head store key s = (Ok md, s') → size md = len c ∧ s3_kept c s'.
Proof.
  intros [Hobj Hreq]. cbn [ChunkReader.store_head front_store]. unfold store_head, mbind, front_bind, pure, remotely.
  rewrite Hbackend. destruct (validate_key key false); [|done]. cbn [Store.remote_object Store.remote_head ObjectStoreS3].
  rewrite Hobject. destruct (remote_head o false StoreHead (remote s)) as [r t] eqn:Hh.
  apply remote_head_spec in Hh as (Hobj' & Ha & Hsize); [|done]. destruct r as [m|e]; [|done].
  intros [= <- <-]. split; [by apply (Hsize m c)|]. split; cbn [remote set_remote].
  - unfold s3_object. cbn [remote set_remote]. by rewrite Hobj'.
  - unfold requests_in_range. by rewrite Ha.
Qed.

Lemma s3_refuses rw : multipart_active rw = false → multipart_upload rw = None → store_refuses (S3StoreWriter rw key).
Proof.
  intros Ha Hu s.
  split; [|split; [|split]].
  - cbn [store_publish Store.remote_publish ObjectStoreS3]. unfold remote_publish. rewrite Hu.
    destruct (check _ _); eexists; by destruct s.
  - intros data. cbn [store_write Store.remote_write ObjectStoreS3]. unfold remote_write. rewrite Hu.
    destruct (check _ _); eexists; by destruct s.
  - cbn [store_abort Store.remote_abort ObjectStoreS3]. unfold remote_abort. rewrite Ha. by destruct s.
  - cbn [store_drop Store.remote_drop ObjectStoreS3]. unfold remote_drop. rewrite Ha. by destruct s.
Qed.

Lemma s3_finished rw : multipart_active rw = false → multipart_upload rw = None → store_finished (S3StoreWriter rw key).
Proof. intros Ha Hu. split; [by apply s3_refuses|]. split; [by apply s3_refuses|done]. Qed.

Lemma s3_publish_holds s0 w s acc r w' s' :
  s3_holds s0 w s acc → store_publish w s = (r, w', s') →
  match r with
  | Ok md => ∃ c, (∀ a, acc = Some a → c = a) ∧ s3_object s' = Some c ∧
      store_path md = key ∧ store_size md = len c ∧ (True → s3_kept c s')
  | Err _ => s3_object s' = s3_object s0 ∨ ∃ c, (∀ a, acc = Some a → c = a) ∧ s3_object s' = Some c
  end ∧ s3_object (store_drop w' s') = s3_object s' ∧ (∀ md, r = Ok md → store_drop w' s' = s') ∧
  (store_finished w' ∨ w' = w ∧ s' = s ∧ ∃ e, r = Err e).
Proof.
  intros [Hobj (rw & u & -> & Hu)]. cbn [store_publish Store.remote_publish ObjectStoreS3].
  destruct (remote_publish rw (remote s)) as [[r1 rw'] t] eqn:Hp. intros [= <- <- <-].
  pose proof (sending_requests _ _ _ _ _ Hu) as Hreq.
  destruct (publish_balance _ _ _ _ _ Hreq Hp) as [_ [Hact _]].
  assert (requests_in_range t) as Ht by by unfold requests_in_range; rewrite Hact.
  destruct (remote_publish_spec _ _ _ _ _ _ _ _ Hu Hp) as [Hr Hdone].
  split; [|split; [|split]].
  - unfold s3_object. cbn [remote set_remote]. rewrite <-Hobj. destruct r1 as [md|e]; cbn [mbind result_bind].
    + destruct Hr as (c & [E Hc] & Hk & Hs). rewrite E, lookup_insert_eq. exists c. split_and!; [done..|].
      intros _. split; [|done]. unfold s3_object. cbn [remote set_remote]. by rewrite E, lookup_insert_eq.
    + destruct Hr as [->|(c & [-> Hc])]; [by left|right]. exists c. by rewrite lookup_insert_eq.
  - unfold s3_object. cbn [store_drop Store.remote_drop ObjectStoreS3 remote set_remote]. by rewrite s3_drop_objects.
  - intros md Hmd. cbn [store_drop Store.remote_drop ObjectStoreS3 remote set_remote].
    assert (multipart_cancellation rw = false) as Hcan.
    { destruct (multipart_cancellation rw) eqn:Hc; [|done]. unfold remote_publish in Hp. rewrite Hc in Hp.
      injection Hp as <- _ _. done. }
    destruct (Hdone Hcan) as [_ Ha]. unfold remote_drop. rewrite Ha. by destruct s.
  - destruct (multipart_cancellation rw) eqn:Hcan.
    + right. unfold remote_publish in Hp. rewrite Hcan in Hp. injection Hp as <- <- <-. cbn [mbind result_bind].
      split_and!; [done|by destruct s|by eexists].
    + left. destruct (Hdone eq_refl) as [Hup Ha]. by apply s3_finished.
Qed.

Lemma s3_abort_holds s0 w s acc r w' s' : s3_holds s0 w s acc → store_abort w s = (r, w', s') →
  s3_object s' = s3_object s0 ∧ store_finished w' ∧ (True → s3_restored s0 s').
Proof.
  intros [Hobj (rw & u & -> & Hu)]. cbn [store_abort Store.remote_abort ObjectStoreS3].
  destruct (remote_abort rw (remote s)) as [[r1 rw'] t] eqn:Ha. intros [= <- <- <-].
  destruct (remote_abort_spec _ _ _ _ _ (sending_requests _ _ _ _ _ Hu) Ha) as (Hobj' & Hact & _ & Hup).
  assert (s3_restored s0 (set_remote s t)) as Hres by (unfold s3_restored; cbn [remote set_remote]; congruence).
  split; [unfold s3_object; by rewrite Hres|]. split; [|done].
  apply s3_finished; [done|]. apply Hup. apply Hu.
Qed.

(** What an upload holds once a part of it failed is up to the service. *)
Definition s3_sink : Sink store key := {|
  ready := s3_ready; holds := s3_holds; object := s3_object; calm := λ _, True; restored := s3_restored;
  kept := s3_kept; kept_object c s Hk := proj1 Hk; kept_honest c _ := s3_kept_honest c; kept_head := s3_kept_head;
  open_holds := s3_open_holds; holds_object := s3_holds_object; write_holds := s3_write_holds;
  flush_holds := s3_flush_holds; cancel_holds := s3_cancel_holds; publish_holds := s3_publish_holds; abort_holds := s3_abort_holds;
  drop_object := s3_drop_object; drop_restores := λ s0 w s acc Hh _, s3_drop_restores s0 w s acc Hh;
  keeps_staged := false; staged_bytes := λ _ _ _, False; keeps_open := λ _ _ _ _ _ H _ _, Bool.diff_false_true H;
  keeps_write := λ _ _ _ _ _ _ _ _ _ _ H _, match H with end;
  keeps_publish := λ _ _ _ _ _ _ _ _ _ H _, match H with end;
|}.

End s3_sink.
