(* ===== verification/Writer.v ===== *)
(** * Writer: the state of a Parquet writer

    Models [writer.rs] but for the conversion of values ([Values]) and of
    schemas ([Schema]): the writer options, opening, [write_batch], [close],
    [abort], [stats] and [Drop] of [WriterState], and the resource around it
    with its mutex and its monitor callback.  The Parquet encoder is the
    interface [ArrowWriter]; what it does to the output it was given is an
    interaction tree ([emitting]) run against the store writer by [play].
    What a writer guarantees is shown in [ParquetWriter]. *)
From S2P Require Import Prelude Errors Schema Object ChunkReader Arrow Predicate Erlang ArrayData Values Store.

(** ** The encoder *)

(** What a function generic over [Write] may do to its output before it
    returns: write some bytes, or flush, and go on with the answer. *)
Inductive emitting (A : Type) : Type :=
  | Done (a : A)
  | Emit (data : bytes) (continue : result IoError Z → emitting A)
  | Flush (continue : result IoError () → emitting A).
Arguments Done {A} a.
Arguments Emit {A} data continue.
Arguments Flush {A} continue.

Inductive EnabledStatistics : Set := StatisticsNone | StatisticsChunk | StatisticsPage.

(** [parquet::arrow::ArrowWriter] and [WriterProperties].  A writer owns its
    output, so that an operation of the encoder is a tree of writes; a panic
    inside one is an outcome. *)
Class ArrowWriter `(Arrow) := {
  ZstdLevel_default : Z;
  GzipLevel_default : Z;
  WriterPropertiesBuilder : Type;
  WriterProperties : Type;
  properties_builder : WriterPropertiesBuilder;
  set_compression : Compression → WriterPropertiesBuilder → WriterPropertiesBuilder;
  (** Panics for [Some(0)]. *)
  set_max_row_group_row_count : option Z → WriterPropertiesBuilder → run WriterPropertiesBuilder;
  set_data_page_size_limit : Z → WriterPropertiesBuilder → WriterPropertiesBuilder;
  set_write_batch_size : Z → WriterPropertiesBuilder → WriterPropertiesBuilder;
  set_statistics_enabled : EnabledStatistics → WriterPropertiesBuilder → WriterPropertiesBuilder;
  set_key_value_metadata :
    option (list (string * option string)) → WriterPropertiesBuilder → WriterPropertiesBuilder;
  properties_build : WriterPropertiesBuilder → WriterProperties;
  Encoder : Type;
  encoder_try_new : list arrow.Field → WriterProperties → emitting (run (option Encoder));
  encoder_write : RecordBatch → Encoder → emitting (run (option ()) * Encoder);
  encoder_into_inner : Encoder → emitting (run (option ()));
  (** [Drop]: buffered bytes are written out, errors ignored. *)
  encoder_drop : Encoder → emitting ();
  in_progress_size : Encoder → Z;
}.

(** ** The laws of the encoder *)

(** A run in which every call succeeds, and the bytes it writes. *)
Inductive plays {A} : emitting A → bytes → A → Prop :=
  | plays_done a : plays (Done a) [] a
  | plays_emit data k out a : plays (k (Ok (len data))) out a → plays (Emit data k) (data ++ out) a
  | plays_flush k out a : plays (k (Ok ())) out a → plays (Flush k) out a.

(** No run ends well; and: a run that meets an error does not end well. *)
Fixpoint never {A} (good : A → bool) (t : emitting A) : Prop :=
  match t with
  | Done a => good a = false
  | Emit _ k => ∀ r, never good (k r)
  | Flush k => ∀ r, never good (k r)
  end.

Fixpoint reports {A} (good : A → bool) (t : emitting A) : Prop :=
  match t with
  | Done _ => True
  | Emit _ k => (∀ e, never good (k (Err e))) ∧ ∀ n, reports good (k (Ok n))
  | Flush k => (∀ e, never good (k (Err e))) ∧ reports good (k (Ok ()))
  end.

Definition succeeds {A} (r : run (option A)) : bool := match r with Returned (Some _) => true | _ => false end.

(** [encoded fields p e bs out]: an encoder that was given the batches [bs]
    has written [out] so far.  [parquet_file fields p bs c]: [c] is a Parquet
    file of them, with the properties [p]. *)
Class ArrowWriterLaws `(ArrowWriter) := {
  parquet_file : list arrow.Field → WriterProperties → list RecordBatch → bytes → Prop;
  encoded : list arrow.Field → WriterProperties → Encoder → list RecordBatch → bytes → Prop;
  try_new_encoded fields p out e :
    plays (encoder_try_new fields p) out (Returned (Some e)) → encoded fields p e [] out;
  write_encoded fields p e bs out b out' e' : encoded fields p e bs out →
    plays (encoder_write b e) out' (Returned (Some ()), e') → encoded fields p e' (bs ++ [b]) (out ++ out');
  into_inner_encoded fields p e bs out out' : encoded fields p e bs out →
    plays (encoder_into_inner e) out' (Returned (Some ())) → parquet_file fields p bs (out ++ out');
  (** An error of the output is returned. *)
  try_new_reports fields p : reports succeeds (encoder_try_new fields p);
  write_reports b e : reports (λ x, succeeds x.1) (encoder_write b e);
  into_inner_reports e : reports succeeds (encoder_into_inner e);
}.

(** ** Data *)

Record NativeWriterOptions : Set := mkNativeWriterOptions {
  option_compression : atom;
  option_max_batch_rows : Z;
  option_max_row_group_rows : Z;
  option_data_page_size_limit : Z;
  option_flush : atom;
  option_sync : atom;
  option_statistics : atom;
}.

Record WriterStats : Set := mkWriterStats {
  stats_active : bool;
  stats_batches : Z;
  stats_rows : Z;
  stats_peak_batch_bytes : Z;
  stats_peak_encoder_bytes : Z;
  stats_multipart_buffer_limit_bytes : Z;
}.

Definition encode_failure (operation : Operation) : NativeFailure :=
  NativeFailure_new MalformedData operation "Parquet batch encoding failed".

(** ** The options *)

Definition compression_name (value : atom) : result NativeFailure string :=
  if bool_decide (value = "uncompressed") then Ok "uncompressed"%string
  else if bool_decide (value = "snappy") then Ok "snappy"%string
  else if bool_decide (value = "zstd") then Ok "zstd"%string
  else if bool_decide (value = "gzip") then Ok "gzip"%string
  else if bool_decide (value = "lz4_raw") then Ok "lz4_raw"%string
  else Err (NativeFailure_invalid ParquetWriterOpen "unsupported compression").

Definition flush_policy (value : atom) : result NativeFailure FlushPolicy :=
  if bool_decide (value = "none") then Ok FlushNone
  else if bool_decide (value = "each_chunk") then Ok EachChunk
  else if bool_decide (value = "before_publish") then Ok BeforePublish
  else Err (NativeFailure_invalid ParquetWriterOpen "invalid flush policy").

Definition sync_policy (value : atom) : result NativeFailure SyncPolicy :=
  if bool_decide (value = "none") then Ok SyncNone
  else if bool_decide (value = "data") then Ok SyncData
  else if bool_decide (value = "all") then Ok SyncAll
  else Err (NativeFailure_invalid ParquetWriterOpen "invalid sync policy").

Definition statistics_policy (value : atom) : result NativeFailure EnabledStatistics :=
  if bool_decide (value = "chunk") then Ok StatisticsChunk
  else if bool_decide (value = "none") then Ok StatisticsNone
  else Err (NativeFailure_invalid ParquetWriterOpen "invalid statistics policy").

(** The key-value metadata a writer puts into its file. *)
Definition writer_metadata (compression_name : string) (options : NativeWriterOptions) :
    list (string * option string) :=
  [("parquex.compression"%string, Some compression_name);
   ("parquex.max_row_group_rows"%string, Some (to_string (option_max_row_group_rows options)));
   ("parquex.data_page_size_limit"%string, Some (to_string (option_data_page_size_limit options)))].

Section writer.
Context {RS : S3} {RU : Rustler} {AR : Arrow} {AD : ArrowData} {AW : ArrowWriter AR}.

Definition compression (value : atom) : result NativeFailure Compression :=
  if bool_decide (value = "uncompressed") then Ok UNCOMPRESSED
  else if bool_decide (value = "snappy") then Ok SNAPPY
  else if bool_decide (value = "zstd") then Ok (ZSTD ZstdLevel_default)
  else if bool_decide (value = "gzip") then Ok (GZIP GzipLevel_default)
  else if bool_decide (value = "lz4_raw") then Ok LZ4_RAW
  else Err (NativeFailure_invalid ParquetWriterOpen "unsupported compression").

(** The builder chain of [open_output]. *)
Definition writer_properties (compression : Compression) (compression_name : string)
    (options : NativeWriterOptions) : run (result NativeFailure WriterProperties) :=
  let builder := set_compression compression properties_builder in
  builder ← set_max_row_group_row_count (Some (option_max_row_group_rows options)) builder;
  let builder := set_data_page_size_limit (option_data_page_size_limit options) builder in
  let builder :=
    set_write_batch_size (Z.min (option_max_batch_rows options) (option_max_row_group_rows options)) builder in
  statistics ←? Returned (statistics_policy (option_statistics options));
  let builder := set_statistics_enabled statistics builder in
  let builder := set_key_value_metadata (Some (writer_metadata compression_name options)) builder in
  Returned (Ok (properties_build builder)).

(** ** The output of the encoder *)

(** [Write for StagedOutput]. *)
Definition staged_write (data : bytes) (w : StoreWriter) (s : Stores) : result IoError Z * StoreWriter * Stores :=
  store_write_io data w s.

Definition staged_flush (w : StoreWriter) (s : Stores) : result IoError () * StoreWriter * Stores :=
  store_flush_io w s.

(** Run a tree against the staged output.  Another holder of the token may
    cancel it at any time: [cancels] says before which calls it does. *)
Fixpoint play {A} (t : emitting A) (cancels : list bool) (w : StoreWriter) (s : Stores) {struct t} :
    A * StoreWriter * Stores :=
  let w' := if default false (head cancels) then store_cancel w else w in
  match t with
  | Done a => (a, w, s)
  | Emit data continue =>
      let '(r, w, s) := staged_write data w' s in play (continue r) (tail cancels) w s
  | Flush continue =>
      let '(r, w, s) := staged_flush w' s in play (continue r) (tail cancels) w s
  end.

(** [StagedOutput::publish]. *)
Definition staged_publish (w : StoreWriter) (s : Stores) : result NativeFailure ObjectMetadata * StoreWriter * Stores :=
  let '(r, w, s) := store_publish w s in
  (metadata ← r;
   Ok (mkObjectMetadata (store_path metadata) (store_size metadata) (store_modified_unix_ns metadata)), w, s).

(** An encoder and its output are dropped. *)
Definition writer_drop (e : Encoder) (w : StoreWriter) (s : Stores) : Stores :=
  let '(_, w, s) := play (encoder_drop e) [] w s in store_drop w s.

(** ** State *)

(** The token is one flag the resource, the state and the staged output share;
    [cancellation] is its value. *)
Record WriterState : Type := mkWriterState {
  writer : option (Encoder * StoreWriter);
  schema : list arrow.Field;
  cancellation : bool;
  max_batch_rows : Z;
  stats : WriterStats;
}.

(** [ParquetWriterResource]: the mutex around the state remembers whether a
    panic unwound while it was held. *)
Record ParquetWriterResource : Type := mkParquetWriterResource {
  state : WriterState;
  poisoned : bool;
}.

(** The writer keeps its output, with the token as the output left it. *)
Definition put_writer (s : WriterState) (e : Encoder) (w : StoreWriter) : WriterState :=
  mkWriterState (Some (e, w)) (schema s) (store_token w) (max_batch_rows s) (stats s).

(** [self.writer.take()], once the taken writer left the token at a value. *)
Definition take_writer (s : WriterState) (token : bool) : WriterState :=
  mkWriterState None (schema s) token (max_batch_rows s) (stats s).

Definition set_stats (s : WriterState) (st : WriterStats) : WriterState :=
  mkWriterState (writer s) (schema s) (cancellation s) (max_batch_rows s) st.

Definition set_inactive (s : WriterState) : WriterState :=
  let st := stats s in
  set_stats s (mkWriterStats false (stats_batches st) (stats_rows st) (stats_peak_batch_bytes st)
    (stats_peak_encoder_bytes st) (stats_multipart_buffer_limit_bytes st)).

(** [CancellationToken::cancel]. *)
Definition cancel (s : WriterState) : WriterState :=
  mkWriterState ((λ '(e, w), (e, store_cancel w)) <$> writer s) (schema s) true (max_batch_rows s) (stats s).

(** ** Operations *)

Definition count_batch (s : WriterState) (batch : RecordBatch) (batch_bytes encoder_bytes : Z) : WriterState :=
  let st := stats s in
  set_stats s (mkWriterStats (stats_active st) (usize_wrap (stats_batches st + 1))
    (usize_wrap (stats_rows st + Z.of_nat (num_rows batch)))
    (Z.max (stats_peak_batch_bytes st) batch_bytes) (Z.max (stats_peak_encoder_bytes st) encoder_bytes)
    (stats_multipart_buffer_limit_bytes st)).

Definition write_batch (batch : Term) (cancels : list bool) (s : WriterState) (st : Stores) :
    run (result NativeFailure WriterStats) * WriterState * Stores :=
  match check (cancellation s) ParquetWriterWrite with
  | Err e => (Returned (Err e), s, st)
  | Ok _ =>
      if negb (stats_active (stats s)) then (Returned (Err (NativeFailure_cancelled ParquetWriterWrite)), s, st)
      else
        match decode_batch batch (schema s) (max_batch_rows s) with
        | Panicked => (Panicked, s, st)
        | Returned (Err e) => (Returned (Err e), s, st)
        | Returned (Ok record_batch) =>
            let batch_bytes := get_array_memory_size record_batch in
            match writer s with
            | None => (Returned (Err (NativeFailure_cancelled ParquetWriterWrite)), s, st)
            | Some (e, w) =>
                let '(r, e, w, st) := play (encoder_write record_batch e) cancels w st in
                let s := put_writer s e w in
                match r with
                | Panicked => (Panicked, s, st)
                | Returned None => (Returned (Err (encode_failure ParquetWriterWrite)), s, st)
                | Returned (Some _) =>
                    let s := count_batch s record_batch batch_bytes (in_progress_size e) in
                    (Returned (Ok (stats s)), s, st)
                end
            end
        end
  end.

(** [late]: the token is cancelled between the footer and the publication. *)
Definition close (cancels : list bool) (late : bool) (s : WriterState) (st : Stores) :
    run (result NativeFailure ObjectMetadata) * WriterState * Stores :=
  match check (cancellation s) ParquetWriterClose with
  | Err e => (Returned (Err e), s, st)
  | Ok _ =>
      match writer s with
      | None => (Returned (Err (NativeFailure_cancelled ParquetWriterClose)), s, st)
      | Some (e, w) =>
          let '(r, w, st) := play (encoder_into_inner e) cancels w st in
          match r with
          | Panicked => (Panicked, take_writer s (store_token w), store_drop w st)
          | Returned None =>
              (Returned (Err (encode_failure ParquetWriterClose)),
               set_inactive (take_writer s (store_token w)), store_drop w st)
          | Returned (Some _) =>
              let w := if late then store_cancel w else w in
              let '(r, w, st) := staged_publish w st in
              (Returned (map_err (with_operation ParquetWriterClose) r),
               set_inactive (take_writer s (store_token w)), store_drop w st)
          end
      end
  end.

Definition abort (s : WriterState) (st : Stores) : bool * WriterState * Stores :=
  if negb (stats_active (stats s)) then (false, s, st)
  else
    let s := cancel s in
    let st := match writer s with Some (e, w) => writer_drop e w st | None => st end in
    (true, set_inactive (take_writer s true), st).

(** [Drop for WriterState], then the drop of its fields. *)
Definition drop_state (s : WriterState) (st : Stores) : Stores :=
  let '(_, s, st) := abort s st in
  match writer s with Some (e, w) => writer_drop e w st | None => st end.

(** ** The resource *)

Definition lock (r : ParquetWriterResource) (operation : Operation) : result NativeFailure WriterState :=
  if poisoned r then Err (NativeFailure_expected operation "native Parquet writer is unavailable")
  else Ok (state r).

(** A method that may panic while it holds the mutex. *)
Definition locked {A} (operation : Operation) (r : ParquetWriterResource) (st : Stores)
    (method : WriterState → Stores → run (result NativeFailure A) * WriterState * Stores) :
    run (result NativeFailure A) * ParquetWriterResource * Stores :=
  match lock r operation with
  | Err e => (Returned (Err e), r, st)
  | Ok s =>
      let '(res, s, st) := method s st in
      (res, mkParquetWriterResource s (match res with Panicked => true | _ => false end), st)
  end.

Definition resource_write_batch (batch : Term) (cancels : list bool) (r : ParquetWriterResource) (st : Stores) :=
  locked ParquetWriterWrite r st (write_batch batch cancels).

Definition resource_close (cancels : list bool) (late : bool) (r : ParquetWriterResource) (st : Stores) :=
  locked ParquetWriterClose r st (close cancels late).

Definition resource_abort (r : ParquetWriterResource) (st : Stores) :
    run (result NativeFailure bool) * ParquetWriterResource * Stores :=
  locked ParquetWriterAbort r st (λ s st, let '(b, s, st) := abort s st in (Returned (Ok b), s, st)).

Definition resource_stats (r : ParquetWriterResource) : result NativeFailure WriterStats :=
  s ← lock r ParquetWriterStats; Ok (stats s).

(** The token is cancelled through the resource, without the mutex. *)
Definition resource_cancel (r : ParquetWriterResource) : ParquetWriterResource :=
  mkParquetWriterResource (cancel (state r)) (poisoned r).

(** The monitored process went down. *)
Definition down (r : ParquetWriterResource) (st : Stores) : ParquetWriterResource * Stores :=
  let r := resource_cancel r in
  match lock r ParquetWriterAbort with
  | Err _ => (r, st)
  | Ok s => let '(_, s, st) := abort s st in (mkParquetWriterResource s false, st)
  end.

(** ** Opening *)

Definition open_output (staged : StoreWriter) (fields : list InputField) (options : NativeWriterOptions)
    (multipart_buffer_limit_bytes : Z) (st : Stores) :
    run (result NativeFailure ParquetWriterResource) * Stores :=
  match
    schema ←? Returned (collect arrow_field fields);
    compression ←? Returned (compression (option_compression options));
    name ←? Returned (compression_name (option_compression options));
    properties ←? writer_properties compression name options;
    Returned (Ok (schema, properties))
  with
  | Panicked => (Panicked, store_drop staged st)
  | Returned (Err e) => (Returned (Err e), store_drop staged st)
  | Returned (Ok (schema, properties)) =>
      let '(r, staged, st) := play (encoder_try_new schema properties) [] staged st in
      match r with
      | Panicked => (Panicked, store_drop staged st)
      | Returned None => (Returned (Err (encode_failure ParquetWriterOpen)), store_drop staged st)
      | Returned (Some e) =>
          (Returned (Ok (mkParquetWriterResource
             (mkWriterState (Some (e, staged)) schema (store_token staged) (option_max_batch_rows options)
                (mkWriterStats true 0 0 0 0 multipart_buffer_limit_bytes)) false)), st)
      end
  end.

Definition open_store (store : StoreResource) (key : string) (fields : list InputField)
    (options : NativeWriterOptions) (st : Stores) :
    run (result NativeFailure ParquetWriterResource) * Stores :=
  match
    flush ← flush_policy (option_flush options);
    sync ← sync_policy (option_sync options);
    Ok (flush, sync)
  with
  | Err e => (Returned (Err e), st)
  | Ok (flush, sync) =>
      let multipart_buffer_limit_bytes := multipart_buffer_limit_bytes store in
      match open_writer store key flush sync false st with
      | (Err e, st) => (Returned (Err e), st)
      | (Ok staged, st) => open_output staged fields options multipart_buffer_limit_bytes st
      end
  end.

End writer.
