(* ===== verification/ParquetWriter.v ===== *)
(** * ParquetWriter: what a Parquet writer guarantees

    The properties of [Writer], proved against the contract [Sink] of the
    store it stages into: over every sequence of operations, with the token
    cancelled at any time and panics included, the object is as it was or a
    whole Parquet file of the accepted batches; a successful [close] has made
    it such a file; a writer that is aborted, dropped or fails to open leaves no
    trace; and an ended writer stays ended. *)
From S2P Require Import Prelude Errors Schema Object ChunkReader Arrow Erlang ArrayData Values Store Sink Writer.

Section writer.
Context {RS : S3} {RU : Rustler} {AR : Arrow} {AD : ArrowData} {AW : ArrowWriter AR}.

(** ** Histories *)

(** The batches a writer accepted, unknown once the encoder failed. *)
Definition history : Type := option (list RecordBatch).

Definition accepted (batch : Term) (s : WriterState) (res : run (result NativeFailure WriterStats)) (h : history) :
    history :=
  match res with
  | Returned (Ok _) =>
      match decode_batch batch (schema s) (max_batch_rows s) with
      | Returned (Ok b) => (λ bs, bs ++ [b]) <$> h
      | _ => None
      end
  | Returned (Err e) => if bool_decide (e = encode_failure ParquetWriterWrite) then None else h
  | Panicked => None
  end.

(** Everything that can happen to an opened writer. *)
Inductive resource_step :
    ParquetWriterResource * Stores * history → ParquetWriterResource * Stores * history → Prop :=
  | step_write_batch batch cancels r st h res r' st' :
      resource_write_batch batch cancels r st = (res, r', st') →
      resource_step (r, st, h) (r', st', accepted batch (state r) res h)
  | step_close cancels late r st h res r' st' :
      resource_close cancels late r st = (res, r', st') → resource_step (r, st, h) (r', st', h)
  | step_abort r st h res r' st' :
      resource_abort r st = (res, r', st') → resource_step (r, st, h) (r', st', h)
  | step_cancel r st h : resource_step (r, st, h) (resource_cancel r, st, h)
  | step_down r st h r' st' : down r st = (r', st') → resource_step (r, st, h) (r', st', h).

(** ** Counters *)

Definition row_total (bs : list RecordBatch) : Z := foldr (λ b n, Z.of_nat (num_rows b) + n) 0 bs.
Definition peak_bytes (bs : list RecordBatch) : Z := foldr (λ b n, Z.max (get_array_memory_size b) n) 0 bs.

Lemma row_total_snoc bs b : row_total (bs ++ [b]) = row_total bs + Z.of_nat (num_rows b).
Proof. unfold row_total. induction bs as [|b' bs IH]; simpl; [|rewrite IH]; lia. Qed.

Lemma peak_bytes_snoc bs b : peak_bytes (bs ++ [b]) = Z.max (peak_bytes bs) (get_array_memory_size b).
Proof. unfold peak_bytes. induction bs as [|b' bs IH]; simpl; [|rewrite IH]; lia. Qed.

(** The counters say what was accepted. *)
Definition counted (s : WriterState) (h : history) : Prop :=
  ∀ bs, h = Some bs →
    stats_batches (stats s) = usize_wrap (len bs) ∧ stats_rows (stats s) = usize_wrap (row_total bs) ∧
    stats_peak_batch_bytes (stats s) = peak_bytes bs.

(** ** Lemmas: the mutex *)

(** A poisoned resource answers every call with this error. *)
Definition unavailable (operation : Operation) : NativeFailure :=
  NativeFailure_expected operation "native Parquet writer is unavailable".

Definition panicked {A} (res : run A) : bool := match res with Panicked => true | _ => false end.

Lemma locked_inv {A} operation r st (method : WriterState → Stores → run (result NativeFailure A) * WriterState * Stores)
    res r' st' :
  locked operation r st method = (res, r', st') →
  (poisoned r = true ∧ res = Returned (Err (unavailable operation)) ∧ r' = r ∧ st' = st) ∨
  (poisoned r = false ∧ method (state r) st = (res, state r', st') ∧ poisoned r' = panicked res).
Proof.
  unfold locked, lock. destruct r as [s []]; cbn [poisoned state].
  - intros [= <- <- <-]. by left.
  - destruct (method s st) as [[res1 s'] st1]. intros [= <- <- <-]. by right.
Qed.

Lemma resource_abort_inv r st res r' st' : resource_abort r st = (res, r', st') →
  (poisoned r = true ∧ res = Returned (Err (unavailable ParquetWriterAbort)) ∧ r' = r ∧ st' = st) ∨
  (poisoned r = false ∧ poisoned r' = false ∧ ∃ b, abort (state r) st = (b, state r', st') ∧ res = Returned (Ok b)).
Proof.
  intros [?|(Hp & Ha & Hp')]%locked_inv; [by left|right]. destruct (abort (state r) st) as [[b s'] st1].
  injection Ha as <- -> ->. split_and!; [done..|]. by exists b.
Qed.

Lemma down_inv r st r' st' : down r st = (r', st') →
  (poisoned r = true ∧ r' = resource_cancel r ∧ st' = st) ∨
  (poisoned r = false ∧ poisoned r' = false ∧ ∃ b, abort (cancel (state r)) st = (b, state r', st')).
Proof.
  unfold down, lock. destruct r as [s []]; cbn [resource_cancel poisoned state].
  - intros [= <- <-]. by left.
  - destruct (abort (cancel s) st) as [[b s'] st1]. intros [= <- <-]. right. split_and!; [done..|]. by exists b.
Qed.

(** ** Lemmas: running an encoder against a sink *)

Section sink.
Context {store : StoreResource} {key : string} {SK : Sink store key}.

(** The object is as it was, and so is the store when nothing is in the way
    of cleaning up after the state [s]. *)
Definition traceless (s0 s s' : Stores) : Prop := object s' = object s0 ∧ (calm s → restored s0 s').

Lemma interrupt_holds (c : bool) s0 w s acc :
  holds s0 w s acc → holds s0 (if c then store_cancel w else w) s acc.
Proof. destruct c; [|done]. intros Hh. by apply cancel_holds in Hh as [? _]. Qed.

Lemma play_never {A} (good : A → bool) (t : emitting A) : ∀ cancels w s a w' s',
  never good t → play t cancels w s = (a, w', s') → good a = false.
Proof.
  induction t as [a|data k IH|k IH]; intros cancels w s a0 w' s'; cbn [play never].
  - by intros ? [= <- _ _].
  - intros Hn. destruct (staged_write _ _ _) as [[r w1] s1]. by apply IH.
  - intros Hn. destruct (staged_flush _ _) as [[r w1] s1]. by apply IH.
Qed.

(** Running a tree keeps the writer open; and when it reports a success, all
    it wrote was acknowledged. *)
Lemma play_holds {A} (t : emitting A) s0 : ∀ cancels w s acc a w' s',
  holds s0 w s acc → play t cancels w s = (a, w', s') →
  (∃ acc', holds s0 w' s' acc' ∧ ∀ good, reports good t → good a = true →
    ∃ out, plays t out a ∧ acc' = (λ c, c ++ out) <$> acc) ∧
  (calm s → calm s').
Proof.
  induction t as [a|data k IH|k IH]; intros cancels w s acc a0 w' s' Hh; cbn [play].
  - intros [= <- <- <-]. split; [|done]. exists acc. split; [done|]. intros good _ _. exists []. split; [constructor|].
    destruct acc as [c|]; simpl; [by rewrite app_nil_r|done].
  - destruct (staged_write _ _ _) as [[r w1] s1] eqn:Hw. intros Hplay.
    eapply write_holds in Hw as (Hh1 & Hn & Hc); [|by apply interrupt_holds].
    destruct (IH _ _ _ _ _ _ _ _ Hh1 Hplay) as [(acc' & Hh' & Hgood) Hc']. split; [|auto].
    exists acc'. split; [done|]. intros good [Herr Hok] Ha. destruct r as [n|e].
    + destruct (Hgood good (Hok n) Ha) as (out & Hout & ->). rewrite (Hn n eq_refl) in Hout.
      exists (data ++ out). split; [by constructor|]. destruct acc as [c|]; simpl; [by rewrite app_assoc|done].
    + by rewrite (play_never _ _ _ _ _ _ _ _ (Herr e) Hplay) in Ha.
  - destruct (staged_flush _ _) as [[r w1] s1] eqn:Hw. intros Hplay.
    eapply flush_holds in Hw as (Hh1 & Hc); [|by apply interrupt_holds].
    destruct (IH _ _ _ _ _ _ _ _ Hh1 Hplay) as [(acc' & Hh' & Hgood) Hc']. split; [|auto].
    exists acc'. split; [done|]. intros good [Herr Hok] Ha. destruct r as [[]|e].
    + destruct (Hgood good Hok Ha) as (out & Hout & ->). exists out. split; [by constructor|done].
    + by rewrite (play_never _ _ _ _ _ _ _ _ (Herr e) Hplay) in Ha.
Qed.

Lemma writer_drop_spec s0 e w s acc : holds s0 w s acc →
  object (writer_drop e w s) = object s0 ∧ (calm s → restored s0 (writer_drop e w s)).
Proof.
  intros Hh. unfold writer_drop. destruct (play (encoder_drop e) [] w s) as [[u w1] s1] eqn:Hp.
  destruct (play_holds _ _ _ _ _ _ _ _ _ Hh Hp) as [(acc' & Hh' & _) Hc].
  split; [by eapply drop_object|]. intros Hcalm. eapply drop_restores; [done|auto].
Qed.

(** ** The invariant *)

Context {AWL : ArrowWriterLaws AW}.
Context (s0 : Stores) (fields : list arrow.Field) (properties : WriterProperties).

(** What the encoder was given is what its output acknowledged. *)
Definition fed (e : Encoder) (h : history) (acc : option bytes) : Prop :=
  ∀ bs, h = Some bs → ∃ out, acc = Some out ∧ encoded fields properties e bs out.

(** The object is untouched or a whole file of the accepted batches. *)
Definition whole (st : Stores) (h : history) : Prop :=
  object st = object s0 ∨
  ∃ c, object st = Some c ∧ ∀ bs, h = Some bs → parquet_file fields properties bs c.

Definition staging (s : WriterState) (st : Stores) (h : history) : Prop :=
  ∃ e w acc, writer s = Some (e, w) ∧ stats_active (stats s) = true ∧ store_token w = cancellation s ∧
    holds s0 w st acc ∧ fed e h acc.

Definition invariant (s : WriterState) (unusable : bool) (st : Stores) (h : history) : Prop :=
  schema s = fields ∧
  (staging s st h ∨
   (writer s = None ∧ (unusable = true ∨ stats_active (stats s) = false) ∧ whole st h)).

Lemma staging_whole s st h : staging s st h → object st = object s0.
Proof. intros (e & w & acc & _ & _ & _ & Hh & _). by eapply holds_object. Qed.

Lemma invariant_poisoned s st h : invariant s false st h → invariant s true st h.
Proof. intros [? [?|(? & _ & ?)]]; split; auto. Qed.

(** [write_batch]: refused with no effect, refused by the encoder, or accepted. *)
Lemma write_batch_invariant batch cancels s st h res s' st' :
  invariant s false st h → write_batch batch cancels s st = (res, s', st') →
  invariant s' (panicked res) st' (accepted batch s res h).
Proof.
  intros [Hsch Hinv]. unfold write_batch.
  assert (∀ e, e ≠ encode_failure ParquetWriterWrite →
    invariant s false st (accepted batch s (Returned (Err e)) h)) as Hrefused.
  { intros e He. unfold accepted. rewrite bool_decide_eq_false_2 by done. done. }
  destruct (cancellation s); cbn [check]; [intros [= <- <- <-]; by apply Hrefused|].
  destruct (stats_active (stats s)) eqn:Hact; cbn [negb]; [|intros [= <- <- <-]; by apply Hrefused].
  destruct Hinv as [Hst|(_ & [?|?] & _)]; [|done|congruence].
  pose proof Hst as (e & w & acc & Hw & _ & Htok & Hh & Hfed).
  destruct (decode_batch batch (schema s) (max_batch_rows s)) as [[b|err]|] eqn:Hdec.
  2: { intros [= <- <- <-]. split; [done|]. left. exists e, w, acc. split_and!; try done.
       unfold accepted. by case_bool_decide. }
  2: { intros [= <- <- <-]. split; [done|]. left. exists e, w, acc. by split_and!. }
  rewrite Hw. destruct (play (encoder_write b e) cancels w st) as [[[r e'] w'] st1] eqn:Hplay.
  destruct (play_holds _ _ _ _ _ _ _ _ _ Hh Hplay) as [(acc' & Hh' & Hgood) _].
  specialize (Hgood _ (write_reports b e)). cbn [fst] in Hgood.
  assert (∀ s1, schema s1 = schema s → writer s1 = Some (e', w') → cancellation s1 = store_token w' →
    stats_active (stats s1) = true → invariant s1 false st1 None) as Hunknown.
  { intros s1 H1 H2 H3 H4. split; [congruence|]. left. exists e', w', acc'. by split_and!. }
  destruct r as [[[]|]|]; intros [= <- <- <-].
  - cbn [accepted]. rewrite Hdec. split; [done|]. left. exists e', w', acc'. split_and!; try done.
    destruct (Hgood eq_refl) as (out' & Hplays & Hacc). intros bs' Hbs'. destruct h as [bs|]; [|done].
    injection Hbs' as <-. destruct (Hfed bs eq_refl) as (out & -> & Henc). simpl in Hacc. exists (out ++ out').
    split; [done|]. by eapply write_encoded.
  - unfold accepted. rewrite bool_decide_eq_true_2 by done. by apply Hunknown.
  - by apply invariant_poisoned, Hunknown.
Qed.

(** The outcome of a [close] that took the writer. *)
Definition closed (h : history) (st : Stores) (md : ObjectMetadata) : Prop :=
  ∃ c, object st = Some c ∧ (∀ bs, h = Some bs → parquet_file fields properties bs c) ∧
    path md = key ∧ size md = len c ∧ (calm st → kept c st).

Lemma staged_publish_spec w st acc r w' st' : holds s0 w st acc → staged_publish w st = (r, w', st') →
  match r with
  | Ok md => ∃ c, (∀ a, acc = Some a → c = a) ∧ object st' = Some c ∧ path md = key ∧ size md = len c ∧ (calm st' → kept c st')
  | Err _ => object st' = object s0 ∨ ∃ c, (∀ a, acc = Some a → c = a) ∧ object st' = Some c
  end ∧ object (store_drop w' st') = object st' ∧ (∀ md, r = Ok md → store_drop w' st' = st').
Proof.
  intros Hh. unfold staged_publish. destruct (store_publish w st) as [[r1 w1] st1] eqn:Hp. intros [= <- <- <-].
  destruct (publish_holds _ _ _ _ _ _ _ Hh Hp) as (Hr & Hdrop & Hsame). split; [|split; [done|]].
  - by destruct r1.
  - intros md Hmd. destruct r1 as [md1|]; [|done]. by eapply Hsame.
Qed.

Lemma writer_close_invariant cancels late s st h res s' st' :
  invariant s false st h → close cancels late s st = (res, s', st') →
  invariant s' (panicked res) st' h ∧
  (∀ md, res = Returned (Ok md) → closed h st' md ∧ stats_active (stats s') = false).
Proof.
  intros [Hsch Hinv]. unfold close.
  destruct (cancellation s); cbn [check]; [by intros [= <- <- <-]|].
  destruct Hinv as [Hst|(Hnone & Hend)]; [|rewrite Hnone; intros [= <- <- <-]; split; [|done]; by split; [|right]].
  pose proof Hst as (e & w & acc & -> & Hact & _ & Hh & Hfed).
  destruct (play (encoder_into_inner e) cancels w st) as [[r w1] st1] eqn:Hplay.
  destruct (play_holds _ _ _ _ _ _ _ _ _ Hh Hplay) as [(acc' & Hh' & Hgood) _].
  specialize (Hgood _ (into_inner_reports e)).
  assert (∀ s1 b, schema s1 = schema s → writer s1 = None → b = true ∨ stats_active (stats s1) = false →
    invariant s1 b (store_drop w1 st1) h) as Hdropped.
  { intros s1 b H1 H2 H3. split; [congruence|]. right. split_and!; [done..|]. left. by eapply drop_object. }
  destruct r as [[[]|]|]; [|intros [= <- <- <-]; split; [|done]; apply Hdropped; auto..].
  destruct (Hgood eq_refl) as (out' & Hplays & Hacc).
  destruct (staged_publish _ st1) as [[r w2] st2] eqn:Hpub. intros [= <- <- <-].
  eapply staged_publish_spec in Hpub as (Hr & Hdrop & Hsame); [|by apply interrupt_holds].
  assert (∀ c, (∀ a, acc' = Some a → c = a) → ∀ bs, h = Some bs → parquet_file fields properties bs c) as Hfile.
  { intros c Hc bs Hbs. destruct (Hfed bs Hbs) as (out & -> & Henc). simpl in Hacc.
    rewrite (Hc _ Hacc). by eapply into_inner_encoded. }
  split.
  - split; [done|]. right. split_and!; [done|by right|]. unfold whole. rewrite Hdrop.
    destruct r as [md|err].
    + destruct Hr as (c & Hc & Hobj & _). right. exists c. split; [done|]. by apply Hfile.
    + destruct Hr as [Hr|(c & Hc & Hobj)]; [by left|right]. exists c. split; [done|]. by apply Hfile.
  - intros md Hmd. split; [|done]. destruct r as [md'|err]; [|done]. injection Hmd as ->.
    rewrite (Hsame md eq_refl). destruct Hr as (c & Hc & Hobj & Hpath & Hsize & Hread).
    exists c. split_and!; try done. by apply Hfile.
Qed.

Lemma cancel_staging s st h : staging s st h → staging (cancel s) st h.
Proof.
  intros (e & w & acc & Hw & Hact & _ & Hh & Hfed). apply cancel_holds in Hh as [Hh Htok].
  exists e, (store_cancel w), acc. unfold cancel. simpl. rewrite Hw. by split_and!.
Qed.

Lemma cancel_invariant s b st h : invariant s b st h → invariant (cancel s) b st h.
Proof.
  intros [Hsch [Hst|(Hw & Hend)]]; split; try done; [left; by apply cancel_staging|right].
  unfold cancel. simpl. by rewrite Hw.
Qed.

(** [abort]: an active writer is dropped, an inactive one left alone. *)
Lemma abort_spec s b st h r s' st' : invariant s b st h → abort s st = (r, s', st') →
  invariant s' b st' h ∧ r = stats_active (stats s) ∧ stats_active (stats s') = false ∧ writer s' = None ∧
  (staging s st h → traceless s0 st st') ∧ (¬ staging s st h → st' = st).
Proof.
  intros Hinv. unfold abort. destruct (stats_active (stats s)) eqn:Hact; cbn [negb]; intros [= <- <- <-].
  - destruct (cancel_invariant _ _ _ _ Hinv) as [Hsch Hc]. destruct Hinv as [_ Hinv].
    assert (∀ w, whole w h → invariant (set_inactive (take_writer (cancel s) true)) b w h) as Hend.
    { intros w Hw. split; [done|]. right. split_and!; [done|by right|done]. }
    destruct Hinv as [Hst|(Hw & _ & Hwh)].
    + destruct (cancel_staging _ _ _ Hst) as (e & w & acc & Hw & _ & _ & Hh & _). unfold cancel in Hw. simpl in Hw.
      rewrite Hw. destruct (writer_drop_spec s0 e w st acc Hh) as [Hobj Hres].
      split; [apply Hend; by left|]. by split_and!.
    + rewrite Hw. split; [by apply Hend|]. split_and!; try done. intros (e & w & acc & Hw' & _). congruence.
  - split; [done|]. destruct Hinv as [_ [(e & w & acc & _ & Hact' & _)|(Hw & _ & Hwh)]]; [congruence|].
    split_and!; try done. intros (e & w & acc & _ & Hact' & _). congruence.
Qed.

(** ... of a resource, and through all steps. *)
Definition resource_invariant (x : ParquetWriterResource * Stores * history) : Prop :=
  let '(r, st, h) := x in invariant (state r) (poisoned r) st h.

Lemma resource_step_invariant x y : resource_step x y → resource_invariant x → resource_invariant y.
Proof.
  intros [batch cancels r st h res r' st' Hop|cancels late r st h res r' st' Hop|r st h res r' st' Hop|r st h|r st h r' st' Hop];
    unfold resource_invariant; intros Hinv.
  - apply locked_inv in Hop as [(_ & -> & -> & ->)|(Hp & Hop & ->)].
    + cbn [accepted]. by rewrite bool_decide_eq_false_2.
    + rewrite Hp in Hinv. by eapply write_batch_invariant.
  - apply locked_inv in Hop as [(_ & _ & -> & ->)|(Hp & Hop & ->)]; [done|].
    rewrite Hp in Hinv. by eapply writer_close_invariant.
  - apply resource_abort_inv in Hop as [(_ & _ & -> & ->)|(Hp & -> & b & Hop & _)]; [done|].
    rewrite Hp in Hinv. by eapply abort_spec.
  - by apply cancel_invariant.
  - apply cancel_invariant in Hinv. apply down_inv in Hop as [(_ & -> & ->)|(Hp & -> & b & Hop)]; [done|].
    rewrite Hp in Hinv. by eapply abort_spec.
Qed.

Lemma resource_steps_invariant x y : rtc resource_step x y → resource_invariant x → resource_invariant y.
Proof. induction 1; eauto using resource_step_invariant. Qed.

(** ** Opening *)

Definition opened_with (input : list InputField) (options : NativeWriterOptions) : Prop :=
  collect arrow_field input = Ok fields ∧
  ∃ c name, compression (option_compression options) = Ok c ∧
    compression_name (option_compression options) = Ok name ∧
    writer_properties c name options = Returned (Ok properties).

End sink.

Section opening.
Context {store : StoreResource} {key : string} {SK : Sink store key} {AWL : ArrowWriterLaws AW}.

Lemma open_output_spec s0 w st input options limit res st' :
  holds s0 w st (Some []) → open_output w input options limit st = (res, st') →
  match res with
  | Returned (Ok r) => poisoned r = false ∧ stats_active (stats (state r)) = true ∧
      max_batch_rows (state r) = option_max_batch_rows options ∧
      counted (state r) (Some []) ∧
      ∃ fields properties, opened_with fields properties input options ∧
        staging s0 fields properties (state r) st' (Some []) ∧ schema (state r) = fields
  | _ => traceless s0 st st'
  end.
Proof.
  intros Hh. unfold open_output.
  assert (∀ w1 st1 acc, holds s0 w1 st1 acc → (calm st → calm st1) →
    object (store_drop w1 st1) = object s0 ∧ (calm st → restored s0 (store_drop w1 st1))) as Hdrop.
  { intros w1 st1 acc Hh1 Hc1. split; [by eapply drop_object|]. intros Hc. eapply drop_restores; [done|auto]. }
  destruct (collect arrow_field input) as [fields|e] eqn:Hf; cbn [try_bind]; [|intros [= <- <-]; by eapply Hdrop].
  destruct (compression _) as [c|e] eqn:Hc; cbn [try_bind]; [|intros [= <- <-]; by eapply Hdrop].
  destruct (compression_name _) as [name|e] eqn:Hn; cbn [try_bind]; [|intros [= <- <-]; by eapply Hdrop].
  destruct (writer_properties c name options) as [[p|e]|] eqn:Hp; cbn [try_bind];
    [|intros [= <- <-]; by eapply Hdrop..].
  destruct (play _ [] w st) as [[r w1] st1] eqn:Hplay.
  destruct (play_holds _ _ _ _ _ _ _ _ _ Hh Hplay) as [(acc' & Hh' & Hgood) Hcalm].
  destruct r as [[e|]|]; intros [= <- <-]; [|by eapply Hdrop..]. simpl. split_and!; try done.
  { by intros bs [= <-]. }
  exists fields, p. split; [split; [done|by exists c, name]|]. split; [|done].
  destruct (Hgood _ (try_new_reports fields p) eq_refl) as (out & Hout & ->).
  exists e, w1, (Some ([] ++ out)). split_and!; try done. intros bs [= <-]. exists out. split; [done|].
  by eapply try_new_encoded.
Qed.

Lemma open_store_spec s0 input options res st' :
  ready s0 → open_store store key input options s0 = (res, st') →
  match res with
  | Returned (Ok r) => poisoned r = false ∧ stats_active (stats (state r)) = true ∧
      max_batch_rows (state r) = option_max_batch_rows options ∧
      counted (state r) (Some []) ∧
      ∃ fields properties, opened_with fields properties input options ∧
        staging s0 fields properties (state r) st' (Some []) ∧ schema (state r) = fields
  | _ => ∀ w st flush sync, flush_policy (option_flush options) = Ok flush → sync_policy (option_sync options) = Ok sync →
      open_writer store key flush sync false s0 = (Ok w, st) →
      traceless s0 st st'
  end.
Proof.
  intros Hr. unfold open_store. destruct (flush_policy _) as [flush|e]; [|by intros [= <- <-]].
  destruct (sync_policy _) as [sync|e]; [|by intros [= <- <-]]. cbn [mbind result_bind].
  destruct (open_writer store key flush sync false s0) as [[w|e] st] eqn:Hopen.
  - intros Ho. apply open_output_spec with (s0 := s0) in Ho; [|by eapply open_holds].
    destruct res as [[r|e]|]; [done|..]; intros w1 st1 f1 y1 [= <-] [= <-]; rewrite Hopen; by intros [= <- <-].
  - intros [= <- <-]. intros w1 st1 f1 y1 [= <-] [= <-]. by rewrite Hopen.
Qed.

(** ** Reachable states *)

(** The states of a writer of the store, from a successful open on. *)
Definition reachable (s0 : Stores) (input : list InputField) (options : NativeWriterOptions)
    (r : ParquetWriterResource) (st : Stores) (h : history) : Prop :=
  ready s0 ∧ ∃ r0 s1, open_store store key input options s0 = (Returned (Ok r0), s1) ∧
    rtc resource_step (r0, s1, Some []) (r, st, h).

Lemma writer_reachable_invariant s0 input options r st h : reachable s0 input options r st h →
  ∃ fields properties, opened_with fields properties input options ∧
    resource_invariant s0 fields properties (r, st, h).
Proof.
  intros [Hr (r0 & s1 & Hopen & Hsteps)]. apply open_store_spec in Hopen as (Hp & _ & _ & _ & Hopen); [|done].
  destruct Hopen as (fields & properties & Ho & Hst & Hsch). exists fields, properties. split; [done|].
  eapply resource_steps_invariant; [done|]. unfold resource_invariant. rewrite Hp. split; [done|by left].
Qed.

Lemma usize_wrap_plus a b : usize_wrap (usize_wrap a + b) = usize_wrap (a + b).
Proof. unfold usize_wrap. apply Zplus_mod_idemp_l. Qed.

Lemma counted_batch s b bytes h :
  counted s h → counted (count_batch s b (get_array_memory_size b) bytes) ((λ bs, bs ++ [b]) <$> h).
Proof.
  intros Hc bs' Hbs. destruct h as [bs|]; [|done]. injection Hbs as <-.
  destruct (Hc bs eq_refl) as (H1 & H2 & H3). simpl. rewrite H1, H2, H3, row_total_snoc, peak_bytes_snoc.
  by rewrite !usize_wrap_plus, len_app.
Qed.

(** Operations other than [write_batch] leave the counters alone. *)
Definition same_counters (s s' : WriterState) : Prop :=
  stats_batches (stats s') = stats_batches (stats s) ∧ stats_rows (stats s') = stats_rows (stats s) ∧
  stats_peak_batch_bytes (stats s') = stats_peak_batch_bytes (stats s).

Lemma counted_same s s' h : same_counters s s' → counted s h → counted s' h.
Proof. intros (H1 & H2 & H3) Hc. unfold counted. rewrite H1, H2, H3. exact Hc. Qed.

Lemma write_batch_counted batch cancels s st h res s' st' :
  counted s h → write_batch batch cancels s st = (res, s', st') → counted s' (accepted batch s res h).
Proof.
  intros Hc. unfold write_batch.
  assert (∀ e, counted s (accepted batch s (Returned (Err e)) h)) as Herr.
  { intros e. unfold accepted. by case_bool_decide. }
  destruct (check _ _); [|by intros [= <- <- <-]]. destruct (negb _); [by intros [= <- <- <-]|].
  destruct (decode_batch batch _ _) as [[b|e]|] eqn:Hdec; [|by intros [= <- <- <-]..].
  destruct (writer s) as [[e w]|]; [|by intros [= <- <- <-]].
  destruct (play _ _ _ _) as [[[r e'] w'] st1]. destruct r as [[[]|]|]; intros [= <- <- <-].
  - cbn [accepted]. rewrite Hdec. by apply (counted_batch (put_writer s e' w')).
  - unfold accepted. by rewrite bool_decide_eq_true_2.
  - done.
Qed.

Lemma close_counters cancels late s st res s' st' : close cancels late s st = (res, s', st') → same_counters s s'.
Proof.
  unfold close. destruct (check _ _); [|by intros [= _ <- _]]. destruct (writer s) as [[e w]|]; [|by intros [= _ <- _]].
  destruct (play _ _ _ _) as [[r w1] st1]. destruct r as [[[]|]|]; [|by intros [= _ <- _]..].
  destruct (staged_publish _ _) as [[r w2] st2]. by intros [= _ <- _].
Qed.

Lemma abort_counters s st r s' st' : abort s st = (r, s', st') → same_counters s s'.
Proof. unfold abort. by destruct (negb _); intros [= _ <- _]. Qed.

Lemma resource_step_counted x y :
  resource_step x y → counted (state x.1.1) x.2 → counted (state y.1.1) y.2.
Proof.
  intros [batch cancels r st h res r' st' Hop|cancels late r st h res r' st' Hop|r st h res r' st' Hop|r st h|r st h r' st' Hop];
    simpl; intros Hc; [| | |done|].
  - apply locked_inv in Hop as [(_ & -> & -> & _)|(_ & Hop & _)]; [|by eapply write_batch_counted].
    cbn [accepted]. by rewrite bool_decide_eq_false_2.
  - apply locked_inv in Hop as [(_ & _ & -> & _)|(_ & Hop & _)]; [done|]. by eapply counted_same; [eapply close_counters|].
  - apply resource_abort_inv in Hop as [(_ & _ & -> & _)|(_ & _ & b & Hop & _)]; [done|].
    by eapply counted_same; [eapply abort_counters|].
  - apply down_inv in Hop as [(_ & -> & _)|(_ & _ & b & Hop)]; [done|]. apply abort_counters in Hop.
    by eapply counted_same.
Qed.

(** What an ended writer answers: nothing happens any more. *)
Definition ended (s : WriterState) : Prop := writer s = None ∧ stats_active (stats s) = false.

Lemma reachable_ended s0 input options r st h :
  reachable s0 input options r st h → poisoned r = false →
  stats_active (stats (state r)) = false → ended (state r).
Proof.
  intros (fields & properties & _ & [_ Hinv])%writer_reachable_invariant Hp Hact. split; [|done]. rewrite Hp in Hinv.
  destruct Hinv as [(e & w & acc & _ & Hact' & _)|(Hw & _)]; [congruence|done].
Qed.

(** ** Properties *)

Lemma close_published s0 input options r st bs cancels late md r' st' :
  reachable s0 input options r st (Some bs) →
  resource_close cancels late r st = (Returned (Ok md), r', st') →
  ∃ fields properties file, opened_with fields properties input options ∧
    object st' = Some file ∧ parquet_file fields properties bs file ∧
    path md = key ∧ size md = len file ∧ ended (state r') ∧ (calm st' → kept file st').
Proof.
  intros (fields & properties & Ho & Hinv)%writer_reachable_invariant Hclose.
  apply locked_inv in Hclose as [(_ & [=] & _)|(Hp & Hclose & Hp')]. unfold resource_invariant in Hinv. rewrite Hp in Hinv.
  apply writer_close_invariant with (s0 := s0) (fields := fields) (properties := properties) (h := Some bs) in Hclose
    as [[_ Hinv'] Hok]; [|done].
  destruct (Hok md eq_refl) as [(c & Hobj & Hfile & Hpath & Hsize & Hread) Hact].
  exists fields, properties, c. split_and!; auto.
  destruct Hinv' as [(e & w & acc & _ & Hact' & _)|(Hw & _)]; [congruence|done].
Qed.

(** C17: A successful [close] publishes the accepted batches.  Whatever happened
    to the writer before, short of an encoder failure, the object of its key
    is afterwards a Parquet file of exactly the batches [write_batch]
    accepted, in their order, with the schema and the properties the caller
    asked for; the metadata returned is its key and length, and the store keeps
    the object, so that reading it back returns its bytes. *)
Theorem close_publishes s0 input options r st bs cancels late md r' st' :
  reachable s0 input options r st (Some bs) →
  resource_close cancels late r st = (Returned (Ok md), r', st') →
  ∃ fields properties file, opened_with fields properties input options ∧
    object st' = Some file ∧ parquet_file fields properties bs file ∧
    path md = key ∧ size md = len file ∧ ended (state r') ∧ (calm st' → kept file st').
Proof. apply close_published. Qed.

(** C18: The object is all or nothing.  In every reachable state, after failed
    writes, panics, cancellations and failed publications too, the object is
    as it was before the writer was opened or, once the writer has given up
    its output, a whole Parquet file of the accepted batches (when the encoder
    never failed). *)
Theorem parquet_writer_whole s0 input options r st h :
  reachable s0 input options r st h →
  ∃ fields properties, opened_with fields properties input options ∧
    schema (state r) = fields ∧
    (writer (state r) ≠ None → object st = object s0 ∧ stats_active (stats (state r)) = true) ∧
    (writer (state r) = None → (poisoned r = true ∨ stats_active (stats (state r)) = false) ∧
      (object st = object s0 ∨
       ∃ c, object st = Some c ∧ ∀ bs, h = Some bs → parquet_file fields properties bs c)).
Proof.
  intros (fields & properties & Ho & [Hsch Hinv])%writer_reachable_invariant. exists fields, properties.
  split_and!; [done..| |]; destruct Hinv as [Hst|(Hw & Hend)]; [| | |done].
  - intros _. split; [by eapply staging_whole|]. by destruct Hst as (e & w & acc & _ & ? & _).
  - intros Hn. by rewrite Hw in Hn.
  - intros Hn. destruct Hst as (e & w & acc & Hw & _). congruence.
Qed.

(** C22: A writer that is abandoned while it holds its output leaves no trace:
    when nothing is in the way of cleaning up, aborting it, the exit of its
    owner and dropping it (after a panic too) restore the store. *)
Theorem abandoned_parquet_writer s0 input options r st h :
  reachable s0 input options r st h → writer (state r) ≠ None → calm st →
  restored s0 (drop_state (state r) st) ∧
  (poisoned r = false →
    restored s0 (down r st).2 ∧
    ∃ r' st', resource_abort r st = (Returned (Ok true), r', st') ∧ restored s0 st' ∧ ended (state r')).
Proof.
  intros (fields & properties & _ & Hinv)%writer_reachable_invariant Hw Hcalm. unfold resource_invariant in Hinv.
  assert (∀ s b, invariant s0 fields properties s b st h → writer s ≠ None → ∃ s' st',
    abort s st = (true, s', st') ∧ ended s' ∧ restored s0 st') as Habort.
  { intros s b Hs Hws. destruct (abort s st) as [[x s'] st'] eqn:Ha.
    apply (abort_spec s0 fields properties _ _ _ _ _ _ _ Hs) in Ha as (_ & -> & Hact & Hw' & Hdrop & _).
    destruct Hs as [_ [Hst|(Hn & _)]]; [|done]. pose proof Hst as (e & w & acc & _ & Hact' & _). rewrite Hact'.
    exists s', st'. split_and!; try done. by apply Hdrop. }
  destruct (Habort _ _ Hinv Hw) as (s' & st' & Ha & Hend & Hres). split.
  - unfold drop_state. rewrite Ha. by destruct Hend as [-> _].
  - intros Hp. split.
    + unfold down, lock. cbn [resource_cancel poisoned state]. rewrite Hp.
      destruct (Habort _ _ (cancel_invariant _ _ _ _ _ _ _ Hinv)) as (s1 & st1 & -> & _ & Hres1); [|done].
      unfold cancel. simpl. by destruct (writer (state r)) as [[e w]|].
    + unfold resource_abort, locked, lock. rewrite Hp, Ha. by eexists _, _.
Qed.

(** C23: An ended writer stays ended.  Once a close has gone past the token or
    an abort has succeeded, every further operation is refused or does
    nothing, whatever its arguments, and the store is left alone; and after a
    panic every call is refused. *)
Theorem ended_parquet_writer s0 input options r st h :
  reachable s0 input options r st h →
  (poisoned r = true →
    (∀ batch cancels, resource_write_batch batch cancels r st = (Returned (Err (unavailable ParquetWriterWrite)), r, st)) ∧
    (∀ cancels late, resource_close cancels late r st = (Returned (Err (unavailable ParquetWriterClose)), r, st)) ∧
    resource_abort r st = (Returned (Err (unavailable ParquetWriterAbort)), r, st) ∧
    resource_stats r = Err (unavailable ParquetWriterStats)) ∧
  (poisoned r = false → stats_active (stats (state r)) = false →
    (∀ batch cancels, resource_write_batch batch cancels r st =
      (Returned (Err (NativeFailure_cancelled ParquetWriterWrite)), r, st)) ∧
    (∀ cancels late, resource_close cancels late r st =
      (Returned (Err (NativeFailure_cancelled ParquetWriterClose)), r, st)) ∧
    resource_abort r st = (Returned (Ok false), r, st) ∧ resource_stats r = Ok (stats (state r)) ∧
    (down r st).2 = st ∧ drop_state (state r) st = st).
Proof.
  intros Hr. split.
  - intros Hp. unfold resource_write_batch, resource_close, resource_abort, resource_stats, locked, lock.
    by rewrite Hp.
  - intros Hp Hact. destruct (reachable_ended _ _ _ _ _ _ Hr Hp Hact) as [Hw _]. destruct r as [s []]; [done|].
    cbn [state] in *. unfold resource_write_batch, resource_close, resource_abort, resource_stats, down, drop_state,
      locked, lock, write_batch, close, abort. cbn [poisoned state resource_cancel].
    rewrite Hact, Hw. split_and!; try done; intros.
    1, 2: by destruct (cancellation s).
    + change (stats (cancel s)) with (stats s). by rewrite Hact.
    + cbn [negb]. by rewrite Hw.
Qed.

(** C35: The statistics are exact: the batches and rows accepted (modulo the
    width of a [usize]) and the largest batch, over every history in which
    the encoder never failed. *)
Theorem parquet_writer_counts s0 input options r st bs :
  reachable s0 input options r st (Some bs) →
  stats_batches (stats (state r)) = usize_wrap (len bs) ∧
  stats_rows (stats (state r)) = usize_wrap (row_total bs) ∧
  stats_peak_batch_bytes (stats (state r)) = peak_bytes bs.
Proof.
  intros [Hr (r0 & s1 & Hopen & Hsteps)].
  assert (∀ x y, rtc resource_step x y → counted (state x.1.1) x.2 → counted (state y.1.1) y.2) as Hall.
  { induction 1; eauto using resource_step_counted. }
  apply open_store_spec in Hopen as (_ & _ & _ & Hc & _); [|done]. by apply (Hall _ _ Hsteps).
Qed.

(** C36: A writer that could not be opened leaves no trace: once the staged
    output exists, whatever fails afterwards (the schema, the options, the
    encoder, a panic) restores the store. *)
Theorem open_failure_restores s0 input options res st' w st flush sync :
  ready s0 → flush_policy (option_flush options) = Ok flush → sync_policy (option_sync options) = Ok sync →
  open_writer store key flush sync false s0 = (Ok w, st) →
  open_store store key input options s0 = (res, st') →
  (∀ r, res ≠ Returned (Ok r)) →
  traceless s0 st st'.
Proof.
  intros Hr Hf Hs Hw Hopen Hres. apply open_store_spec in Hopen; [|done].
  destruct res as [[r|e]|]; [by destruct (Hres r)|by eapply Hopen..].
Qed.

End opening.
End writer.
