(* ===== verification/RoundTrip.v ===== *)
(** * RoundTrip: what is written is read

    The composition of the library: a file written through a store, published
    and opened again on the same store yields the rows that were written.  The
    writer's half is [ParquetWriter], the reader's [ReaderQuery], the store's
    [Sink]; that the Parquet crate reads what it wrote is [ParquetInterop]. *)
From S2P Require Import Prelude Errors Schema Object ChunkReader Decoder Arrow Predicate.
From S2P Require Import Erlang ArrayData Values ReaderState ReaderOpen ReaderQuery.
From S2P Require Import Store Sink Writer ParquetWriter.

#[local] Existing Instance front_store.

(** ** The Parquet crate *)

(** A file of the crate's writer is a file of its reader, when no range is
    refused: it has the schema and the rows it was given, and its key-value
    metadata, next to entries of the crate. *)
Class ParquetInterop {AR : Arrow} {L : ArrowLaws AR} {AW : ArrowWriter AR} (AWL : ArrowWriterLaws AW)
    {PR : ParquetReader AR} (PF : ParquetFile PR) := {
  interop fields builder kvs bs c max :
    parquet_file fields (properties_build (set_key_value_metadata (Some kvs) builder)) bs c → len c ≤ max →
    ∃ meta rowss rest, healthy (PF := PF) c max meta rowss ∧ schema_fields meta = fields ∧
      concat rowss = concat (map rows bs) ∧ key_value_metadata meta = Some (kvs ++ rest) ∧
      Forall (λ e, starts_with "parquex." e.1 = false) rest;
}.

(** A store that finds what it keeps, and answers every read of it. *)
Class Dependable {RS : S3} {store key} (SK : Sink store key) := {
  found c s : kept c s → len c ≤ u64_max → ∃ md s', ChunkReader.store_head store key s = (Ok md, s');
  answered c : len c ≤ u64_max → reliable (mkChunkBackend store key) c (kept c);
}.

(** ** The options *)

(** What a reader reports of the options of the writer. *)
Definition reported_options (name : string) (options : NativeWriterOptions) : gmap string string :=
  <["parquex.data_page_size_limit" := to_string (option_data_page_size_limit options)]>
    (<["parquex.max_row_group_rows" := to_string (option_max_row_group_rows options)]>
      {["parquex.compression" := name]}).

Lemma file_writer_options_written name options rest :
  Forall (λ e, starts_with "parquex." e.1 = false) rest →
  file_writer_options (Some (writer_metadata name options ++ rest)) = reported_options name options.
Proof.
  intros Hrest. unfold file_writer_options. cbn [from_option id]. rewrite foldl_app.
  change (foldl _ ∅ (writer_metadata name options)) with (reported_options name options).
  induction Hrest as [|[k [v|]] rest Hk _ IH]; cbn [foldl]; [done| |done]. cbn [fst] in Hk. by rewrite Hk.
Qed.

Section roundtrip.
Context {RS : S3} {RU : Rustler} {AR : Arrow} {L : ArrowLaws AR} {AD : ArrowData}.
Context {AW : ArrowWriter AR} {AWL : ArrowWriterLaws AW}.
Context {PR : ParquetReader AR} {PRL : ParquetReaderLaws PR} {PF : ParquetFile PR} {PFL : ParquetFileLaws PF}.
Context {IO : ParquetInterop AWL PF}.
Context {store : StoreResource} {key : string} {SK : Sink store key}.

(** A request for the rows of a file the size of which is known. *)
Record request (file_size : Z) (fields : list arrow.Field) (settings : ReaderOpenSettings)
    (requested : list nat) (p : option CompiledPredicate) : Prop := {
  request_bound : 1 ≤ settings_max_range_bytes settings ≤ usize_max;
  request_size : file_size ≤ settings_max_range_bytes settings;
  request_columns : NoDup (columns settings);
  request_batch : 1 ≤ batch_size settings;
  request_depth : 1 ≤ settings_prefetch_depth settings;
  request_capacity : settings_prefetch_depth settings * record_batch_size ≤ isize_max;
  request_fields : ∃ all, collect native_field fields = Ok all;
  request_requested : projection_indices fields (columns settings) = Ok requested;
  request_predicate : compile_optional (settings_predicate settings) fields = Returned (Ok p);
}.

(** The file a writer published, as the reader of a request finds it. *)
Lemma published_readable s0 input options r st bs cancels late md r' st' fields settings requested p :
  reachable s0 input options r st (Some bs) →
  resource_close cancels late r st = (Returned (Ok md), r', st') → calm st' →
  collect arrow_field input = Ok fields → request (size md) fields settings requested p →
  ∃ name file meta rowss all, compression_name (option_compression options) = Ok name ∧
    size md = len file ∧ len file ≤ u64_max ∧ kept file st' ∧ schema_fields meta = fields ∧
    concat rowss = concat (map rows bs) ∧
    file_writer_options (key_value_metadata meta) = reported_options name options ∧
    ∀ md1 s1, ChunkReader.store_head store key st' = (Ok md1, s1) →
      readable store key md1 st' s1 file (kept file) meta rowss settings all requested p.
Proof.
  intros Hr Hclose Hcalm Hfields Hq.
  apply close_published with (1 := Hr) in Hclose
    as (fs & properties & file & (Hfs & c & name & _ & Hname & Hp) & _ & Hfile & _ & Hsize & _ & Hkept).
  rewrite Hfields in Hfs. injection Hfs as <-. destruct Hq as [[Hb1 Hb2] Hle Hnd Hbs Hpd Hcap [all Hall] Hreq Hpred].
  assert (∃ builder, properties = properties_build (set_key_value_metadata (Some (writer_metadata name options)) builder))
    as [builder ->].
  { unfold writer_properties in Hp. destruct (set_max_row_group_row_count _ _) as [b|]; [|done]. cbn [mbind run_bind] in Hp.
    destruct (statistics_policy _) as [x|e]; [|done]. cbn [try_bind] in Hp. injection Hp as <-. by eexists. }
  destruct (interop fields builder _ bs file (settings_max_range_bytes settings) Hfile) as
    (meta & rowss & rest & Hh & Hsch & Hrows & Hkv & Hrest); [lia|].
  assert (len file ≤ u64_max) as Hu by (revert Hb2; int_bounds; lia).
  exists name, file, meta, rowss, all. split_and!; auto.
  { rewrite Hkv. by apply file_writer_options_written. }
  intros md1 s1 Hhead. destruct (kept_head _ _ _ _ (Hkept Hcalm) Hhead) as [Hmd Hk1].
  constructor; rewrite ?Hsch; try done. constructor; cbn; try done. by apply kept_honest.
Qed.

(** ** Properties *)

(** C1: What is written is read.  After a successful [close], a reader opened
    on the same store, for distinct columns of the schema and a predicate that
    compiles, describes these columns as the schema had them, reports the
    options the file was written with, and returns in order, in columns of these
    types, exactly the matching rows of the batches [write_batch] accepted; on a
    store that answers every read and with ranges that admit the file. *)
Theorem written_then_read {DK : Dependable SK} s0 input options r st bs cancels late md r' st' fields settings requested p n :
  reachable s0 input options r st (Some bs) →
  resource_close cancels late r st = (Returned (Ok md), r', st') → calm st' →
  collect arrow_field input = Ok fields → request (size md) fields settings requested p →
  ∃ reader described s2 name,
    ReaderOpen.open_store store key settings st' n = (Returned (Ok (reader, described)), s2, usize_wrap (n + 1)) ∧
    compression_name (option_compression options) = Ok name ∧
    ReaderState.writer_options (ReaderState.state reader) = reported_options name options ∧
    described_columns fields requested described ∧
    ∃ calls fuel bs', read_all calls fuel [] (ReaderState.state reader) s2 = Some (bs', true) ∧
      Forall (λ b, batch_types b = column_types fields requested) bs' ∧
      concat (map rows bs') = query requested p (concat (map rows bs)).
Proof.
  intros Hr Hclose Hcalm Hfields Hq.
  destruct (published_readable _ _ _ _ _ _ _ _ _ _ _ _ _ _ _ Hr Hclose Hcalm Hfields Hq)
    as (name & file & meta & rowss & all & Hname & Hsize & Hu & Hk & Hsch & Hrows & Hopt & Hread).
  destruct (found _ _ Hk Hu) as (md1 & s1 & Hhead).
  destruct (open_read_all _ _ _ _ _ _ _ _ _ _ _ _ _ n (Hread md1 s1 Hhead) (answered file Hu))
    as (reader & described & s2 & Hopen & _ & Hw & Hd & calls & fuel & bs' & Hall & Ht & Hres).
  rewrite Hsch in Hd, Ht. exists reader, described, s2, name. split_and!; [done..|congruence|done|].
  exists calls, fuel, bs'. split_and!; [done| |by rewrite Hres, Hrows].
  eapply Forall_impl; [exact Ht|]. by intros b [? _].
Qed.

(** C2: What is read was written, whatever fails.  On any store, and whenever
    the reader's token is cancelled, the rows a reader of a published file
    returns up to the first failure are a prefix of the matching rows that
    were written, and all of them when it reports the end. *)
Theorem read_was_written s0 input options r st bs cancels late md r' st' fields settings requested p n reader described s2 n' :
  reachable s0 input options r st (Some bs) →
  resource_close cancels late r st = (Returned (Ok md), r', st') → calm st' →
  collect arrow_field input = Ok fields → request (size md) fields settings requested p →
  ReaderOpen.open_store store key settings st' n = (Returned (Ok (reader, described)), s2, n') →
  described_columns fields requested described ∧ ∃ calls fuel, ∀ tokens, ∃ bs' complete,
    read_all calls fuel tokens (ReaderState.state reader) s2 = Some (bs', complete) ∧
    Forall (λ b, batch_types b = column_types fields requested) bs' ∧
    concat (map rows bs') `prefix_of` query requested p (concat (map rows bs)) ∧
    (complete = true → concat (map rows bs') = query requested p (concat (map rows bs))).
Proof.
  intros Hr Hclose Hcalm Hfields Hq Hopen.
  destruct (published_readable _ _ _ _ _ _ _ _ _ _ _ _ _ _ _ Hr Hclose Hcalm Hfields Hq)
    as (name & file & meta & rowss & all & Hname & Hsize & Hu & Hk & Hsch & Hrows & Hopt & Hread).
  rewrite <-Hrows, <-Hsch. destruct (ChunkReader.store_head (RangeStore := front_store) store key st') as [[md1|e] s1] eqn:Hhead.
  - eapply open_read_prefix; [by apply Hread|done].
  - unfold ReaderOpen.open_store in Hopen. by rewrite Hhead in Hopen.
Qed.

End roundtrip.

(** ** Local stores *)

(** When no system call fails, a local store is dependable. *)
Lemma local_dependable {RS : S3} store root key names Hb Hroot Hk :
  Dependable (local_sink store root key names Hb Hroot Hk).
Proof.
  constructor.
  - intros c s Hkept Hu. destruct (local_kept_reads store root key names Hb Hroot Hk c s Hkept Hu) as [[t Hh] _].
    cbn [ChunkReader.store_head front_store]. destruct (store_head store key s) as [r s1]. simpl in Hh. subst r.
    by eexists _, _.
  - intros c. by apply local_kept_reliable.
Qed.
