(* ===== verification/WriterMemory.v ===== *)
(** * WriterMemory: the Parquet writer on an encoder in memory

    An encoder of tables with one column of integers: a line for the name of the
    column and the key-value metadata, and a line per batch, each written one
    call late.  It satisfies the laws of the encoder, and the witnesses of
    [ParquetWriter] run on it: a writer of a local store that is opened, written
    to and closed, and one that is given up. *)
From stdpp Require Import countable.
From S2P Require Import Prelude Errors Schema Object ChunkReader Arrow Predicate Erlang ArrayData DatumRows Values BatchDecode.
From S2P Require Import Fs Local Store Sink Writer ParquetWriter.

(** ** Lines *)

Definition magic : bytes := ["P"; "A"; "R"; "1"]%byte.

Fixpoint digits (p : positive) : bytes :=
  match p with
  | xH => ["."%byte]
  | xO p => "0"%byte :: digits p
  | xI p => "1"%byte :: digits p
  end.

Fixpoint scan (data : bytes) : option (positive * bytes) :=
  match data with
  | "."%byte :: data => Some (xH, data)
  | "0"%byte :: data => '(p, data) ← scan data; Some (xO p, data)
  | "1"%byte :: data => '(p, data) ← scan data; Some (xI p, data)
  | _ => None
  end.

Lemma scan_digits p data : scan (digits p ++ data) = Some (p, data).
Proof. induction p as [p IH|p IH|]; cbn; [by rewrite IH..|done]. Qed.

Section lines.
Context `{Countable A}.

Definition line (x : A) : bytes := digits (encode x).

Definition read_line (data : bytes) : option (A * bytes) :=
  '(p, data) ← scan data; x ← decode p; Some (x, data).

Lemma read_line_app x data : read_line (line x ++ data) = Some (x, data).
Proof. unfold read_line, line. rewrite scan_digits. cbn. by rewrite decode_encode. Qed.

Lemma line_head x : ∃ b l, line x = b :: l ∧ b ≠ "P"%byte.
Proof. unfold line. by destruct (encode x); eexists _, _. Qed.

(** The lines before the end mark. *)
Fixpoint read_lines (fuel : nat) (data : bytes) : option (list A) :=
  match data, fuel with
  | "P"%byte :: _, _ => Some []
  | _, O => None
  | _, S fuel => '(x, data) ← read_line data; l ← read_lines fuel data; Some (x :: l)
  end.

Lemma read_lines_app l : ∀ fuel, (length l ≤ fuel)%nat → read_lines fuel (concat (map line l) ++ magic) = Some l.
Proof.
  induction l as [|x l IH]; intros [|fuel] Hf; try done; [cbn in Hf; lia|]. cbn [map concat]. rewrite <-app_assoc.
  pose proof (read_line_app x (concat (map line l) ++ magic)) as Hr.
  destruct (line_head x) as (b & t & Ht & Hb). rewrite Ht in Hr |- *. cbn [app] in Hr |- *.
  assert (read_lines (S fuel) (b :: t ++ concat (map line l) ++ magic) =
    ('(x, data) ← read_line (b :: t ++ concat (map line l) ++ magic); l ← read_lines fuel data; Some (x :: l))) as ->
    by by destruct b.
  rewrite Hr. cbn [mbind option_bind]. rewrite IH by (cbn in Hf; lia). done.
Qed.

Lemma length_lines l : (length l ≤ length (concat (map line l)))%nat.
Proof.
  induction l as [|x l IH]; [done|]. cbn [map concat length]. rewrite length_app.
  destruct (line_head x) as (b & t & -> & _). cbn [length]. lia.
Qed.

End lines.

(** ** Tables of integers *)

Definition int_cell (r : row) : option Z :=
  match r with
  | [VInteger z] => if (i64_min <=? z) && (z <=? i64_max) then Some z else None
  | _ => None
  end.

Definition int_row (z : Z) : row := [VInteger z].

(** The rows of a batch, and the name of its column. *)
Definition ints (b : RecordBatch (Arrow := DatumArrow)) : option (list Z) := mapM int_cell (datum_table b).

Definition single (fields : list arrow.Field) : option string :=
  match fields with [arrow.mkField name arrow.Int64 false] => Some name | _ => None end.

Lemma int_cells rs l : mapM int_cell rs = Some l → rs = map int_row l ∧ Forall (λ z, i64_min ≤ z ≤ i64_max) l.
Proof.
  rewrite mapM_Some. induction 1 as [|r z rs l Hz _ [-> IH]]; [done|].
  unfold int_cell in Hz. destruct r as [|[| z'| | | |] [|]]; try done.
  destruct (Z.leb_spec i64_min z'), (Z.leb_spec z' i64_max); cbn [andb] in Hz; try done. injection Hz as <-.
  split; [done|]. by constructor.
Qed.

Definition metadata : Type := list (string * option string).

(** All of a file but the mark at its end. *)
Definition body (name : string) (kvs : metadata) (ls : list (list Z)) : bytes :=
  magic ++ line (name, kvs) ++ concat (map line ls).

Lemma body_snoc name kvs ls l : body name kvs (ls ++ [l]) = body name kvs ls ++ line l.
Proof. unfold body. rewrite map_app, concat_app. cbn [map concat]. by rewrite app_nil_r, !app_assoc. Qed.

(** ** The encoder *)

Record MemoryProperties : Type := mkMemoryProperties {
  memory_compression : Compression;
  memory_row_group_rows : option Z;
  memory_page_size : Z;
  memory_batch_size : Z;
  memory_statistics : EnabledStatistics;
  memory_key_values : option metadata;
}.

(** Write all the bytes, or report the failure. *)
Definition emit_all {A} (data : bytes) (done failed : A) : emitting A :=
  Emit data (λ r, match r with
    | Ok n => if n =? len data then Done done else Done failed
    | Err _ => Done failed
    end).

Definition MemoryWriter : ArrowWriter DatumArrow := {|
  ZstdLevel_default := 1;
  GzipLevel_default := 6;
  WriterPropertiesBuilder := MemoryProperties;
  WriterProperties := MemoryProperties;
  properties_builder := mkMemoryProperties UNCOMPRESSED None 0 0 StatisticsPage None;
  set_compression c p := mkMemoryProperties c (memory_row_group_rows p) (memory_page_size p)
    (memory_batch_size p) (memory_statistics p) (memory_key_values p);
  set_max_row_group_row_count n p :=
    if bool_decide (n = Some 0) then Panicked
    else Returned (mkMemoryProperties (memory_compression p) n (memory_page_size p)
      (memory_batch_size p) (memory_statistics p) (memory_key_values p));
  set_data_page_size_limit n p := mkMemoryProperties (memory_compression p) (memory_row_group_rows p) n
    (memory_batch_size p) (memory_statistics p) (memory_key_values p);
  set_write_batch_size n p := mkMemoryProperties (memory_compression p) (memory_row_group_rows p) (memory_page_size p)
    n (memory_statistics p) (memory_key_values p);
  set_statistics_enabled x p := mkMemoryProperties (memory_compression p) (memory_row_group_rows p) (memory_page_size p)
    (memory_batch_size p) x (memory_key_values p);
  set_key_value_metadata kvs p := mkMemoryProperties (memory_compression p) (memory_row_group_rows p)
    (memory_page_size p) (memory_batch_size p) (memory_statistics p) kvs;
  properties_build p := p;
  Encoder := bytes;
  encoder_try_new fields p :=
    match single fields with
    | Some name => emit_all magic (Returned (Some (line (name, default [] (memory_key_values p))))) (Returned None)
    | None => Done (Returned None)
    end;
  encoder_write b e :=
    match ints b with
    | Some l => emit_all e (Returned (Some ()), line l) (Returned None, e)
    | None => Done (Returned None, e)
    end;
  encoder_into_inner e := emit_all (e ++ magic) (Returned (Some ())) (Returned None);
  encoder_drop e := emit_all e () ();
  in_progress_size e := len e;
|}.

Lemma plays_emit_all {A} data (done failed : A) out a :
  plays (emit_all data done failed) out a → out = data ∧ a = done.
Proof.
  unfold emit_all. intros Hp. inversion Hp as [|? ? out' ? Hk|]; subst. rewrite Z.eqb_refl in Hk.
  inversion Hk; subst. by rewrite app_nil_r.
Qed.

Lemma reports_emit_all {A} (good : A → bool) data done failed :
  good failed = false → reports good (emit_all data done failed).
Proof. intros Hf. split; [done|]. intros n. by destruct (n =? len data). Qed.

Lemma plays_Done {A} (a : A) out a' : plays (Done a) out a' → out = [] ∧ a' = a.
Proof. intros Hp. by inversion Hp. Qed.

(** What a file of the batches has in front of the mark at its end. *)
Definition writes (fields : list arrow.Field) (p : MemoryProperties) (bs : list (RecordBatch (Arrow := DatumArrow))) (c : bytes) : Prop :=
  ∃ name ls, single fields = Some name ∧ Forall2 (λ b l, ints b = Some l) bs ls ∧
    c = body name (default [] (memory_key_values p)) ls.

Lemma MemoryWriter_laws : ArrowWriterLaws MemoryWriter.
Proof.
  refine {| parquet_file (fields : list arrow.Field) (p : WriterProperties (ArrowWriter := MemoryWriter)) bs c :=
              ∃ c', writes fields p bs c' ∧ c = c' ++ magic;
            encoded (fields : list arrow.Field) (p : WriterProperties (ArrowWriter := MemoryWriter))
              (e : Encoder (ArrowWriter := MemoryWriter)) bs out := writes fields p bs (out ++ e) |}.
  - intros fields p out e. cbn [encoder_try_new MemoryWriter]. destruct (single fields) as [name|] eqn:Hs.
    + intros [-> [= ->]]%plays_emit_all. exists name, []. split_and!; [done..|]. unfold body. by rewrite app_nil_r.
    + by intros [_ ?]%plays_Done.
  - intros fields p e bs out b out' e' (name & ls & Hs & Hls & He). cbn [encoder_write MemoryWriter].
    destruct (ints b) as [l|] eqn:Hb; [|by intros [_ ?]%plays_Done].
    intros [-> [= ->]]%plays_emit_all. exists name, (ls ++ [l]). split_and!; [done| |].
    + apply Forall2_app; [done|]. by repeat constructor.
    + by rewrite He, body_snoc.
  - intros fields p e bs out out' He [-> _]%plays_emit_all. exists (out ++ e). split; [exact He|apply app_assoc].
  - intros fields p. cbn [encoder_try_new MemoryWriter]. destruct (single fields); [|done]. by apply reports_emit_all.
  - intros b e. cbn [encoder_write MemoryWriter]. destruct (ints b); [|done]. by apply reports_emit_all.
  - intros e. by apply reports_emit_all.
Defined.

(** ** A writer of a local store *)

#[local] Existing Instances NoS3 Terms DatumArrow DatumData MemoryWriter.

Definition ids_schema : list InputField := [mkNativeField "id" false (integer_type 64 true)].

Definition ids_options : NativeWriterOptions :=
  mkNativeWriterOptions "zstd" 10 5 1024 "before_publish" "all" "chunk".

Definition ids_term (ids : list Z) : ErlTerm :=
  EColumns "batch" (len ids) [("id"%string, EList (map EInteger ids))].

Definition ids_opened := Writer.open_store sample_store "sub/out" ids_schema ids_options sample_stores.

Definition ids_fields : list arrow.Field := [arrow.mkField "id" arrow.Int64 false].

Definition ids_resource : ParquetWriterResource (RS := NoS3) (AW := MemoryWriter) :=
  match ids_opened.1 with
  | Returned (Ok r) => r
  | _ => mkParquetWriterResource (mkWriterState None [] true 0 (mkWriterStats false 0 0 0 0 0)) true
  end.

Definition succeeded {A B} (res : run (result A B)) : bool :=
  match res with Returned (Ok _) => true | _ => false end.

Definition failure {A B} (res : run (result A B)) : option A :=
  match res with Returned (Err e) => Some e | _ => None end.

Lemma ids_open : ids_opened.1 = Returned (Ok ids_resource).
Proof.
  unfold ids_resource. assert (succeeded ids_opened.1 = true) as Hs by (vm_compute; reflexivity).
  by destruct ids_opened.1 as [[r|e]|].
Qed.

Definition ids_written := resource_write_batch (ids_term [1; 2; 3]) [] ids_resource ids_opened.2.

Definition ids_batch : RecordBatch (Arrow := DatumArrow) :=
  mkDatumBatch ids_fields [mkDatumArray arrow.Int64 [DInteger 1; DInteger 2; DInteger 3]].

Definition ids_file : bytes := body "id" (writer_metadata "zstd" ids_options) [[1; 2; 3]] ++ magic.

Definition ids_closed := resource_close [] false ids_written.1.2 ids_written.2.

Example ids_outcome :
  (match ids_written.1.1 with Returned (Ok st) => (stats_batches st, stats_rows st) | _ => (0, 0) end,
   match ids_closed.1.1 with Returned (Ok md) => (path md, size md) | _ => (""%string, 0) end) =
  ((1, 3), ("sub/out"%string, 4711)).
Proof. vm_compute. reflexivity. Qed.

Definition ids_sink : Sink sample_store "sub/out" :=
  local_sink (RS := NoS3) sample_store ["data"] "sub/out" ["sub"; "out"] eq_refl sample_root sample_plain.

#[local] Existing Instances ids_sink MemoryWriter_laws.

Lemma triple_eta {A B C} (x : A * B * C) : x = (x.1.1, x.1.2, x.2).
Proof. by destruct x as [[? ?] ?]. Qed.

Lemma ids_ready : ready (Sink := ids_sink) sample_stores.
Proof. split; [exact sample_real|by vm_compute]. Qed.

Lemma ids_opened_eq : ids_opened = (Returned (Ok ids_resource), ids_opened.2).
Proof. rewrite <-ids_open. by destruct ids_opened. Qed.

Lemma ids_reachable_opened :
  reachable sample_stores ids_schema ids_options ids_resource ids_opened.2 (Some []).
Proof. split; [exact ids_ready|]. exists ids_resource, ids_opened.2. split; [exact ids_opened_eq|done]. Qed.

Lemma ids_accepted :
  accepted (ids_term [1; 2; 3]) (state ids_resource) ids_written.1.1 (Some []) = Some [ids_batch].
Proof. vm_compute. reflexivity. Qed.

Lemma ids_reachable :
  reachable sample_stores ids_schema ids_options ids_written.1.2 ids_written.2 (Some [ids_batch]).
Proof.
  split; [exact ids_ready|]. exists ids_resource, ids_opened.2. split; [exact ids_opened_eq|].
  rewrite <-ids_accepted. apply rtc_once, step_write_batch with (cancels := []). apply triple_eta.
Qed.

Lemma ids_reachable_closed :
  reachable sample_stores ids_schema ids_options ids_closed.1.2 ids_closed.2 (Some [ids_batch]).
Proof.
  destruct ids_reachable as [Hr (r0 & s1 & Ho & Hs)]. split; [exact Hr|]. exists r0, s1. split; [exact Ho|].
  eapply rtc_r; [exact Hs|]. exact (step_close [] false _ _ _ _ _ _ (triple_eta ids_closed)).
Qed.

(** The encoder leaves no choice about the file. *)
Lemma ids_file_only fields properties file :
  opened_with fields properties ids_schema ids_options → parquet_file fields properties [ids_batch] file →
  file = ids_file.
Proof.
  intros (Hf & c & name & _ & [= <-] & Hp) (c' & (id & ls & Hs & Hls & ->) & ->).
  injection Hf as <-. injection Hs as <-.
  assert (memory_key_values properties = Some (writer_metadata "zstd" ids_options)) as ->.
  { unfold writer_properties in Hp. destruct (set_max_row_group_row_count _ _) as [b|]; [|done].
    by injection Hp as <-. }
  destruct ls as [|l [|]]; [by inversion Hls| |by inversion Hls; match goal with H : Forall2 _ [] (_ :: _) |- _ => inversion H end].
  apply Forall2_cons_1 in Hls as [Hl _].
  assert (ints ids_batch = Some [1; 2; 3]) as Hi by (vm_compute; reflexivity). by simplify_eq.
Qed.

Lemma close_publishes_witness :
  match ids_closed.1.1 with
  | Returned (Ok md) => path md = "sub/out"%string ∧
      object (Sink := ids_sink) ids_closed.2 = Some ids_file ∧ ended (state ids_closed.1.2)
  | _ => False
  end.
Proof.
  destruct ids_closed.1.1 as [[md|e]|] eqn:Hres;
    [|exfalso; revert Hres; vm_compute; discriminate..].
  pose proof (triple_eta ids_closed) as Hc. rewrite Hres in Hc.
  destruct (close_publishes sample_stores ids_schema ids_options _ _ _ [] false md _ _ ids_reachable Hc)
    as (fields & properties & file & Hopened & Hobj & Hfile & Hpath & _ & Hend & _).
  split; [exact Hpath|]. split; [|exact Hend]. rewrite Hobj. f_equal. exact (ids_file_only _ _ _ Hopened Hfile).
Defined.

Lemma parquet_writer_whole_witness :
  object (Sink := ids_sink) ids_written.2 = None ∧ stats_active (stats (state ids_written.1.2)) = true.
Proof.
  destruct (parquet_writer_whole _ _ _ _ _ _ ids_reachable) as (fields & properties & _ & _ & Hopen & _).
  destruct Hopen as [Hobj Hact]; [by vm_compute|]. split; [|exact Hact].
  rewrite Hobj. vm_compute. reflexivity.
Defined.

Lemma abandoned_parquet_writer_witness :
  files (world (process (drop_state (state ids_written.1.2) ids_written.2))) !! ["data"; "sub"; "out"] = None ∧
  restored (Sink := ids_sink) sample_stores (drop_state (state ids_written.1.2) ids_written.2) ∧
  restored (Sink := ids_sink) sample_stores (down ids_written.1.2 ids_written.2).2.
Proof.
  split; [vm_compute; reflexivity|].
  destruct (abandoned_parquet_writer _ _ _ _ _ _ ids_reachable) as [Hdrop Hdown];
    [by vm_compute|vm_compute; reflexivity|].
  split; [exact Hdrop|]. destruct Hdown as [Hd _]; [vm_compute; reflexivity|exact Hd].
Defined.

Lemma ended_parquet_writer_witness :
  resource_write_batch (ids_term [4]) [] ids_closed.1.2 ids_closed.2 =
    (Returned (Err (NativeFailure_cancelled ParquetWriterWrite)), ids_closed.1.2, ids_closed.2).
Proof.
  destruct (ended_parquet_writer _ _ _ _ _ _ ids_reachable_closed) as [_ Hend].
  destruct Hend as [Hw _]; [vm_compute; reflexivity|vm_compute; reflexivity|]. apply Hw.
Defined.

Lemma parquet_writer_counts_witness :
  stats_rows (stats (state ids_written.1.2)) = 3 ∧ stats_batches (stats (state ids_written.1.2)) = 1.
Proof.
  destruct (parquet_writer_counts _ _ _ _ _ _ ids_reachable) as (-> & -> & _). split; vm_compute; reflexivity.
Defined.

(** The statistics policy is only looked at once the output is staged. *)
Definition bad_options : NativeWriterOptions :=
  mkNativeWriterOptions "zstd" 10 5 1024 "before_publish" "all" "page".

Lemma open_failure_restores_witness :
  let '(res, st) := Writer.open_store sample_store "sub/out" ids_schema bad_options sample_stores in
  res = Returned (Err (NativeFailure_invalid ParquetWriterOpen "invalid statistics policy")) ∧
  object (Sink := ids_sink) st = None.
Proof.
  destruct (Writer.open_store sample_store "sub/out" ids_schema bad_options sample_stores) as [res st] eqn:Ho.
  assert (res = Returned (Err (NativeFailure_invalid ParquetWriterOpen "invalid statistics policy"))) as ->.
  { assert (failure (Writer.open_store sample_store "sub/out" ids_schema bad_options sample_stores).1 =
      Some (NativeFailure_invalid ParquetWriterOpen "invalid statistics policy")) as Hf by (vm_compute; reflexivity).
    rewrite Ho in Hf. destruct res as [[r|e]|]; cbn [fst failure] in Hf; [discriminate| |discriminate].
    injection Hf as ->. reflexivity. }
  split; [reflexivity|].
  destruct (open_writer sample_store "sub/out" BeforePublish SyncAll false sample_stores) as [[w|e] st1] eqn:Hw.
  - destruct (open_failure_restores (SK := ids_sink) sample_stores ids_schema bad_options _ st w st1
      BeforePublish SyncAll ids_ready eq_refl eq_refl Hw Ho) as [Hobj _]; [discriminate|].
    rewrite Hobj. vm_compute. reflexivity.
  - exfalso. assert ((open_writer sample_store "sub/out" BeforePublish SyncAll false sample_stores).1 = Err e) as He
      by by rewrite Hw. revert He. vm_compute. discriminate.
Defined.
