(* ===== verification/RoundTripMemory.v ===== *)
(** * RoundTripMemory: tables of integers, written and read

    The reader's side of the files [WriterMemory] writes: the decoder of
    [ReaderMemory] over a parser of their lines, with a row group for every
    batch.  The two are an instance of [ParquetInterop], and the witnesses of
    [RoundTrip] write a batch into a local store and read it back. *)
From S2P Require Import Prelude Errors Schema Object ChunkReader Decoder Arrow Predicate Erlang ArrayData DatumRows Values.
From S2P Require Import ReaderState ReaderOpen ReaderQuery ReaderMemory.
From S2P Require Import Fs Local Store Sink Writer ParquetWriter RoundTrip WriterMemory.

(** ** Batches of given rows *)

Definition datum_of_value (v : Value) : Datum :=
  match v with
  | VNull | VOther _ => DNull
  | VBoolean b => DBoolean b | VInteger z => DInteger z
  | VFloat f => DFloat f | VUtf8 s => DUtf8 s
  end.

Definition made_column (rs : list row) (i : nat) (f : arrow.Field) : DatumArray :=
  mkDatumArray (arrow.field_data_type f) (map (λ r, datum_of_value (cell r i)) rs).

Definition make_batch (fields : list arrow.Field) (rs : list row) : RecordBatch (Arrow := DatumArrow) :=
  with_rows fields (length rs) (imap (made_column rs) fields).

(** A cell that a column of the field keeps. *)
Definition keeps (f : arrow.Field) (v : Value) : Prop :=
  value_of_datum (normalize (arrow.field_data_type f) (datum_of_value v)) = v.

Lemma made_column_values fields rs i f : Forall (Forall2 keeps fields) rs → fields !! i = Some f →
  column_values (made_column rs i f) = map (λ r, cell r i) rs.
Proof.
  intros Hk Hf. unfold column_values, datum_contents. cbn [datum_type datum_list made_column].
  rewrite !map_map. apply map_ext_Forall. eapply Forall_impl; [exact Hk|]. intros r Hr.
  destruct (Forall2_lookup_l _ _ _ _ _ Hr Hf) as (v & Hv & Hfv). by rewrite (cell_lookup r i v Hv).
Qed.

Lemma across_cells_seq w rs : Forall (λ r, length r = w) rs →
  across (length rs) (map (λ i, map (λ r, cell r i) rs) (seq 0 w)) = rs.
Proof.
  intros Hw. apply list_eq. intros k. unfold across. rewrite list_lookup_fmap.
  destruct (decide (k < length rs)%nat) as [Hk|Hk].
  - rewrite lookup_seq_lt by done. cbn [fmap option_fmap option_map Nat.add].
    destruct (lookup_lt_is_Some_2 rs k Hk) as [r Hr]. rewrite Hr. f_equal.
    rewrite map_map. transitivity (cells (seq 0 w) r); [|apply cells_seq; by eapply (Forall_lookup_1 _ _ _ _ Hw)].
    apply map_ext. intros i. apply nth_lookup_Some. by rewrite list_lookup_fmap, Hr.
  - rewrite lookup_seq_ge, lookup_ge_None_2 by lia. done.
Qed.

Lemma make_batch_rows fields rs : Forall (Forall2 keeps fields) rs → datum_table (make_batch fields rs) = rs.
Proof.
  intros Hk. unfold make_batch. rewrite datum_table_with_rows.
  - transitivity (across (length rs) (map (λ i, map (λ r, cell r i) rs) (seq 0 (length fields)))).
    + f_equal. apply list_eq. intros i. rewrite !list_lookup_fmap, list_lookup_imap.
      destruct (fields !! i) as [f|] eqn:Hf; cbn [fmap option_fmap option_map].
      * rewrite lookup_seq_lt by by apply lookup_lt_Some in Hf. cbn. f_equal. by eapply made_column_values.
      * rewrite lookup_seq_ge by by apply lookup_ge_None_1. done.
    + apply across_cells_seq. eapply Forall_impl; [exact Hk|]. intros r Hr. symmetry. by apply Forall2_length in Hr.
  - apply Forall2_same_length_lookup_2; [by rewrite length_imap|]. intros i f c Hf Hc.
    rewrite list_lookup_imap, Hf in Hc. injection Hc as <-. split; [done|apply length_map].
Qed.

Lemma keeps_cells fields idx r : Forall (λ i, i < length fields)%nat idx → Forall2 keeps fields r →
  Forall2 keeps (map (field_at fields) idx) (cells idx r).
Proof.
  intros Hidx Hr. unfold cells. induction Hidx as [|i idx Hi _ IH]; [done|]. cbn [map]. constructor; [|done].
  destruct (lookup_lt_is_Some_2 fields i Hi) as [f Hf]. destruct (Forall2_lookup_l _ _ _ _ _ Hr Hf) as (v & Hv & Hfv).
  unfold field_at. by rewrite (nth_lookup_Some _ _ _ _ Hf), (cell_lookup r i v Hv).
Qed.

(** ** The parser *)

Definition ints_fields (name : string) : list arrow.Field := [arrow.mkField name arrow.Int64 false].

(** The writer's metadata, and an entry of the crate. *)
Definition ints_meta (name : string) (kvs : metadata) (ls : list (list Z)) : ParquetMetaData :=
  mkParquetMetaData (ints_fields name) [[name]] (map (λ l, mkRowGroup (len l) [mkColumnChunk UNCOMPRESSED None]) ls)
    (Some (kvs ++ [("ARROW:schema"%string, Some "int64"%string)])).

Definition parse_ints (data : bytes) : option table :=
  '((name, kvs), data) ← read_line (A := string * metadata) (drop 4 data);
  ls ← read_lines (A := list Z) (length data) data;
  Some (ints_meta name kvs ls, map (map int_row) ls).

Lemma parse_body name kvs ls : parse_ints (body name kvs ls ++ magic) = Some (ints_meta name kvs ls, map (map int_row) ls).
Proof.
  unfold parse_ints, body. rewrite <-!app_assoc. change (drop 4 (magic ++ ?l)) with l.
  rewrite read_line_app. cbn [mbind option_bind]. rewrite read_lines_app; [done|].
  rewrite length_app. pose proof (length_lines ls). lia.
Qed.

(** ** The interface *)

#[local] Existing Instances DatumArrow DatumArrow_laws MemoryWriter MemoryWriter_laws.
#[local] Instance IntsReader : ParquetReader DatumArrow := ListReader DatumArrow.
#[local] Instance IntsReader_laws : ParquetReaderLaws IntsReader := ListReader_laws DatumArrow.
#[local] Instance IntsFile : ParquetFile IntsReader := TableFile DatumArrow parse_ints make_batch.
#[local] Instance IntsFile_laws : ParquetFileLaws IntsFile := TableFile_laws DatumArrow parse_ints make_batch.

Lemma int_row_keeps name z : i64_min ≤ z ≤ i64_max → Forall2 keeps (ints_fields name) (int_row z).
Proof.
  intros Hz. constructor; [|done]. unfold keeps, normalize, datum_of_value.
  assert (typed arrow.Int64 true (DInteger z) = true) as Ht.
  { cbn. apply andb_true_iff. split; lia. }
  cbn [arrow.field_data_type]. by rewrite Ht.
Qed.

Lemma ints_healthy name kvs ls max : Forall (Forall (λ z, i64_min ≤ z ≤ i64_max)) ls →
  len (body name kvs ls ++ magic) ≤ max →
  healthy (PF := IntsFile) (body name kvs ls ++ magic) max (ints_meta name kvs ls) (map (map int_row) ls).
Proof.
  intros Hls Hmax. apply table_healthy; [apply parse_body|done| |done| |].
  - unfold body in Hmax. rewrite !len_app in Hmax. change (len magic) with 4 in Hmax.
    pose proof (len_nonneg (line (name, kvs))). pose proof (len_nonneg (concat (map line ls))). lia.
  - intros idx i Hidx. unfold table_batch. cbn [fst snd]. split.
    + cbn [batch_types DatumArrow_laws]. unfold make_batch, with_rows. cbn [datum_fields].
      rewrite map_map. apply map_ext. intros k. unfold field_at, field_type.
      by rewrite <-(map_nth arrow.field_data_type).
    + cbn [rows DatumArrow_laws]. apply make_batch_rows, Forall_map.
      assert (Forall (Forall2 keeps (ints_fields name)) (nth i (map (map int_row) ls) [])) as Hk.
      { destruct (nth_in_or_default i (map (map int_row) ls) []) as [Hin| ->]; [|done].
        apply in_map_iff in Hin as (l & <- & Hl). apply Forall_map. rewrite List.Forall_forall in Hls.
        eapply Forall_impl; [exact (Hls l Hl)|]. intros z. apply int_row_keeps. }
      eapply Forall_impl; [exact Hk|]. intros r. by apply keeps_cells.
  - cbn [meta_row_groups ints_meta]. clear. induction ls as [|l ls IH]; [done|]. constructor; [|exact IH].
    split; [done|]. intros n i t [|ci] c s _ _ _ _; cbn; [by intros [= <-]|done].
Qed.

#[local] Instance ints_interop : ParquetInterop MemoryWriter_laws IntsFile.
Proof.
  constructor. intros fields builder kvs bs c max (c' & (name & ls & Hs & Hls & ->) & ->) Hmax.
  assert (fields = ints_fields name) as ->.
  { destruct fields as [|[n [] []] [|]]; try done. by injection Hs as ->. }
  assert (Forall (Forall (λ z, i64_min ≤ z ≤ i64_max)) ls ∧ map (map int_row) ls = map rows bs) as [Hb Hrows].
  { clear Hmax. induction Hls as [|b l bs ls Hl _ [IHb IHr]]; [done|]. apply int_cells in Hl as [Hr Hl].
    split; [by constructor|]. cbn [map]. rewrite IHr. f_equal. by rewrite <-Hr. }
  exists (ints_meta name kvs ls), (map (map int_row) ls), [("ARROW:schema"%string, Some "int64"%string)].
  split_and!; [by apply ints_healthy|done|by rewrite Hrows|done|by repeat constructor].
Qed.

(** ** A batch of a local store *)

#[local] Existing Instances NoS3 Terms DatumData ids_sink.
#[local] Existing Instance front_store.

#[local] Instance ids_dependable : Dependable ids_sink :=
  local_dependable (RS := NoS3) sample_store ["data"] "sub/out" ["sub"; "out"] eq_refl sample_root sample_plain.

Definition above_one : NativePredicate := mkNativePredicate "id" "gt" (mkNativeLiteral "integer" (Some 1) None None None).

Definition ids_settings : ReaderOpenSettings := mkReaderOpenSettings 8192 2 2 ["id"] (Some above_one).

Definition ids_compiled : CompiledPredicate :=
  mkCompiledPredicate "id" 0 0 op.Gt (IntegerLiteral 1) (Some PruneInt64).

Lemma ids_request : request 4711 ids_fields ids_settings [0%nat] (Some ids_compiled).
Proof.
  constructor; try (cbn; int_bounds; lia); try reflexivity; [apply NoDup_singleton|by vm_compute|].
  eexists. vm_compute. reflexivity.
Qed.

Lemma ids_metadata : ∃ md, ids_closed.1.1 = Returned (Ok md) ∧ size md = 4711.
Proof.
  assert ((match ids_closed.1.1 with Returned (Ok md) => size md | _ => 0 end) = 4711) as Hs by (vm_compute; reflexivity).
  destruct ids_closed.1.1 as [[md|e]|]; [by exists md|discriminate..].
Qed.

Lemma ids_calm : calm (Sink := ids_sink) ids_closed.2.
Proof. vm_compute. reflexivity. Qed.

Lemma written_then_read_witness :
  ∃ reader described s2 n,
    ReaderOpen.open_store (RS := front_store) (PF := IntsFile) sample_store "sub/out" ids_settings ids_closed.2 7 =
      (Returned (Ok (reader, described)), s2, n) ∧
    ReaderState.writer_options (ReaderState.state reader) !! "parquex.max_row_group_rows"%string = Some "5"%string ∧
    described_columns ids_fields [0%nat] described ∧
    ∃ calls fuel bs, read_all calls fuel [] (ReaderState.state reader) s2 = Some (bs, true) ∧
      Forall (λ b, batch_types b = [arrow.Int64]) bs ∧
      concat (map rows bs) = [[VInteger 2]; [VInteger 3]].
Proof.
  destruct ids_metadata as (md & Hmd & Hsize). pose proof (triple_eta ids_closed) as Hc. rewrite Hmd in Hc.
  pose proof ids_request as Hq. rewrite <-Hsize in Hq.
  destruct (written_then_read (PF := IntsFile) (SK := ids_sink) sample_stores ids_schema ids_options
    _ _ [ids_batch] [] false md _ _ ids_fields ids_settings [0%nat] (Some ids_compiled) 7
    ids_reachable Hc ids_calm eq_refl Hq) as (reader & described & s2 & name & Ho & Hn & Hw & Hd & calls & fuel & bs & Hr & Ht & Hrows).
  exists reader, described, s2, 8. split; [exact Ho|]. split; [|split; [exact Hd|exists calls, fuel, bs; split; [exact Hr|split; [exact Ht|]]]].
  - rewrite Hw. reflexivity.
  - rewrite Hrows. vm_compute. reflexivity.
Defined.

Definition ids_reopened :=
  ReaderOpen.open_store (RS := front_store) (PF := IntsFile) sample_store "sub/out" ids_settings ids_closed.2 7.

(** The token is cancelled at any time: never a row that was not written. *)
Lemma read_was_written_witness :
  ∃ reader described s2, ids_reopened = (Returned (Ok (reader, described)), s2, 8) ∧
    ∃ calls fuel, ∀ tokens, ∃ bs complete,
      read_all calls fuel tokens (ReaderState.state reader) s2 = Some (bs, complete) ∧
      Forall (λ b, batch_types b = [arrow.Int64]) bs ∧
      concat (map rows bs) `prefix_of` [[VInteger 2]; [VInteger 3]] ∧
      (complete = true → concat (map rows bs) = [[VInteger 2]; [VInteger 3]]).
Proof.
  destruct ids_metadata as (md & Hmd & Hsize). pose proof (triple_eta ids_closed) as Hc. rewrite Hmd in Hc.
  pose proof ids_request as Hq. rewrite <-Hsize in Hq.
  assert (succeeded ids_reopened.1.1 = true) as Hs by (vm_compute; reflexivity).
  assert (ids_reopened.2 = 8) as Hn by (vm_compute; reflexivity).
  destruct ids_reopened as [[[[[reader described]|e]|] s2] n] eqn:Ho; [|discriminate..].
  cbn [snd] in Hn. subst n. exists reader, described, s2. split; [reflexivity|].
  refine (proj2 (read_was_written (PF := IntsFile) (SK := ids_sink) sample_stores ids_schema ids_options
    _ _ [ids_batch] [] false md _ _ ids_fields ids_settings [0%nat] (Some ids_compiled) 7 reader described s2 8
    ids_reachable Hc ids_calm eq_refl Hq Ho)).
Defined.

Example ids_cancelled :
  match ids_reopened.1.1 with
  | Returned (Ok (reader, _)) =>
      (bs ← read_all 3 4 [[[true]]] (ReaderState.state reader) ids_reopened.1.2; Some (map datum_table bs.1, bs.2)) = Some ([], false) ∧
      (bs ← read_all 3 4 [] (ReaderState.state reader) ids_reopened.1.2; Some (map datum_table bs.1, bs.2)) =
        Some ([[[VInteger 2]; [VInteger 3]]], true)
  | _ => False
  end.
Proof. vm_compute. split; reflexivity. Qed.
