(* ===== verification/Nif.v ===== *)
(** * Nif: the native functions

    Models the entry points of [lib.rs], each over the component it calls:
    what is decoded is an argument, what is encoded is the [reply], and the
    work runs inside [guarded].  Whether the caller could be monitored, and
    which sizes can be allocated, are arguments.  The resource of a store writer
    is modelled here as well, with its mutex and its monitor callback. *)
From S2P Require Import Prelude Errors Chrono TimePartition Zstd Schema Object ChunkReader Decoder Fs Local Store S3 Listing.
From S2P Require Import Arrow Predicate ReaderState ReaderOpen Erlang ArrayData Values Sink Writer ParquetWriter.
From S2P Require Import WriterMemory.

(** ** Data *)

Record NativeMetadata : Set := mkNativeMetadata {
  native_path : string;
  native_size : Z;
  native_modified_unix_ns : option Z;
}.

(** [From<ObjectMetadata>]. *)
Definition NativeMetadata_from (metadata : ObjectMetadata) : NativeMetadata :=
  mkNativeMetadata (path metadata) (size metadata) (modified_unix_ns metadata).

(** [From<s3::RemoteMetadata>]. *)
Definition NativeMetadata_from_remote (metadata : RemoteMetadata) : NativeMetadata :=
  mkNativeMetadata (remote_key metadata) (remote_size metadata) (remote_modified_unix_ns metadata).

Record ResourceSnapshot : Set := mkResourceSnapshot {
  snapshot_active_writers : Z;
  snapshot_active_readers : Z;
  snapshot_bytes_read : Z;
  snapshot_active_s3_requests : Z;
  snapshot_peak_s3_requests : Z;
  snapshot_active_multipart_uploads : Z;
  snapshot_s3_range_requests : Z;
  snapshot_s3_range_bytes : Z;
  snapshot_active_stores : Z;
  snapshot_stores_created : Z;
  snapshot_s3_clients_created : Z;
}.

Record NativeReaderOptions : Set := mkNativeReaderOptions {
  options_max_range_bytes : Z;
  options_batch_size : Z;
  options_prefetch_depth : Z;
  options_columns : list string;
  options_predicate : option NativePredicate;
}.

Definition write_policies (flush sync : atom) (operation : Operation) :
    result NativeFailure (FlushPolicy * SyncPolicy) :=
  flush ← (if bool_decide (flush = "none"%string) then Ok FlushNone
           else if bool_decide (flush = "each_chunk"%string) then Ok EachChunk
           else if bool_decide (flush = "before_publish"%string) then Ok BeforePublish
           else Err (NativeFailure_invalid operation "invalid flush policy"));
  sync ← (if bool_decide (sync = "none"%string) then Ok SyncNone
          else if bool_decide (sync = "data"%string) then Ok SyncData
          else if bool_decide (sync = "all"%string) then Ok SyncAll
          else Err (NativeFailure_invalid operation "invalid sync policy"));
  Ok (flush, sync).

(** ** Entry points without state *)

Definition smoke : reply Z := encode_guarded Smoke (Returned (Ok 2)).

Definition smoke_error : reply Z :=
  encode_guarded SmokeError (Returned (Err (NativeFailure_expected SmokeError "native smoke error"))).

Section compression.
Context `{ZstdCrate} (alloc : nat → bool).

Definition zstd_compress (data : bytes) (level : Z) : reply bytes :=
  encode_binary_guarded alloc ZstdCompress (Returned (Zstd.compress data level)).

Definition zstd_decompress (data : bytes) (max_output_size : Z) : reply bytes :=
  encode_binary_guarded alloc ZstdDecompress (Returned (Zstd.decompress data max_output_size)).
End compression.

Section partitions.
Context `{Chrono}.

Definition time_partition_for (timestamp : Z) (unit granularity : atom) : reply NativePartition :=
  encode_guarded TimePartition (Returned (TimePartition.partition_for timestamp unit granularity)).

Definition time_partition_parse (path : string) (granularity : atom) : reply NativePartition :=
  encode_guarded TimePartition (Returned (TimePartition.parse path granularity)).

Definition time_partition_plan (from until : Z) (unit granularity : atom) (limit : Z) :
    option (reply (list NativePartition)) :=
  planned ← TimePartition.plan from until unit granularity limit;
  Some (encode_guarded TimePartition (Returned planned)).
End partitions.

(** ** Stores *)

Section stores.
Context {RS : S3}.

(** The work of an entry point on the stores, contained and encoded. *)
Definition serve {A} (operation : Operation) (work : front A) (s : Stores) : reply A * Stores :=
  let '(r, s) := work s in (encode_guarded operation (Returned r), s).

Definition store_open_local (root : string) : Stores → reply StoreResource * Stores :=
  serve StoreOpen (open_local root).

Definition store_identity (store : StoreResource) : reply Z :=
  encode_guarded StoreIdentity (Returned (Ok (identity store))).

Definition store_head (store : StoreResource) (key : string) : Stores → reply StoreMetadata * Stores :=
  serve StoreHead (Store.store_head store key).

Definition store_read_range (alloc : nat → bool) (store : StoreResource) (key : string) (offset length : Z)
    (s : Stores) : reply bytes * Stores :=
  let '(r, s) := Store.store_read_range store key offset length s in
  (encode_binary_guarded alloc StoreReadRange (Returned r), s).

Definition store_list (fuel : nat) (store : StoreResource) (prefix : string) (s : Stores) :
    option (reply (list StoreMetadata) * Stores) :=
  '(r, s) ← Listing.store_list fuel store prefix s;
  Some (encode_guarded StoreList (Returned r), s).

Definition store_delete (store : StoreResource) (key : string) : Stores → reply atom * Stores :=
  serve StoreDelete (_ ← Store.store_delete store key; mret "deleted"%string).

(** ** The writers of a store *)

(** The token is shared with the writer, which holds its value. *)
Record StoreWriterResource : Type := mkStoreWriterResource {
  store_writer : StoreWriter;
  store_writer_poisoned : bool;
}.

Definition lock_store_writer (r : StoreWriterResource) (operation : Operation) : result NativeFailure StoreWriter :=
  if store_writer_poisoned r then Err (NativeFailure_expected operation "native store writer is unavailable")
  else Ok (store_writer r).

(** A call of the writer under its mutex; none of them panics. *)
Definition with_store_writer {A} (operation : Operation) (r : StoreWriterResource) (s : Stores)
    (method : StoreWriter → Stores → result NativeFailure A * StoreWriter * Stores) :
    result NativeFailure A * StoreWriterResource * Stores :=
  match lock_store_writer r operation with
  | Err e => (Err e, r, s)
  | Ok w => let '(a, w, s) := method w s in (a, mkStoreWriterResource w false, s)
  end.

(** The monitored process went down. *)
Definition store_writer_down (r : StoreWriterResource) (s : Stores) : StoreWriterResource * Stores :=
  let r := mkStoreWriterResource (store_cancel (store_writer r)) (store_writer_poisoned r) in
  let '(_, r, s) := with_store_writer StoreWriterAbort r s store_abort in (r, s).

(** When the owner cannot be monitored, the writer is aborted, and the
    resource dropped. *)
Definition store_writer_open (monitored : bool) (store : StoreResource) (key : string) (flush sync : atom)
    (s : Stores) : reply StoreWriterResource * Stores :=
  match write_policies flush sync StoreWriterOpen with
  | Err e => (encode_guarded StoreWriterOpen (Returned (Err e)), s)
  | Ok (flush, sync) =>
      match open_writer store key flush sync false s with
      | (Err e, s) => (encode_guarded StoreWriterOpen (Returned (Err e)), s)
      | (Ok writer, s) =>
          let resource := mkStoreWriterResource writer false in
          if monitored then (encode_guarded StoreWriterOpen (Returned (Ok resource)), s)
          else
            let '(aborted, resource, s) := with_store_writer StoreWriterOpen resource s store_abort in
            (encode_guarded StoreWriterOpen
               (Returned (_ ← aborted;
                  Err (NativeFailure_expected StoreWriterOpen "could not monitor store writer owner"))),
             store_drop (store_writer resource) s)
      end
  end.

Definition store_writer_write (data : bytes) (r : StoreWriterResource) (s : Stores) :
    reply Z * StoreWriterResource * Stores :=
  let '(a, r, s) := with_store_writer StoreWriterWrite r s (store_write data) in
  (encode_guarded StoreWriterWrite (Returned a), r, s).

Definition store_writer_publish (r : StoreWriterResource) (s : Stores) :
    reply StoreMetadata * StoreWriterResource * Stores :=
  let '(a, r, s) := with_store_writer StoreWriterPublish r s store_publish in
  (encode_guarded StoreWriterPublish (Returned a), r, s).

Definition store_writer_abort (r : StoreWriterResource) (s : Stores) :
    reply atom * StoreWriterResource * Stores :=
  let '(a, r, s) := with_store_writer StoreWriterAbort r s store_abort in
  (encode_guarded StoreWriterAbort
     (Returned (aborted ← a; Ok (if aborted : bool then "aborted" else "closed")%string)), r, s).

(** ** The resources of the process *)

Definition resource_snapshot (active_readers : Z) (s : Stores) : reply ResourceSnapshot :=
  let '(active_writers, bytes_read) := Local.resource_snapshot (process s) in
  let '(active_s3_requests, peak_s3_requests, active_multipart_uploads, s3_range_requests, s3_range_bytes,
        s3_clients_created) := remote_snapshot (remote s) in
  let '(active_stores, stores_created) := stores_snapshot s in
  encode_guarded Errors.ResourceSnapshot
    (Returned (Ok (mkResourceSnapshot active_writers active_readers bytes_read active_s3_requests
       peak_s3_requests active_multipart_uploads s3_range_requests s3_range_bytes active_stores stores_created
       s3_clients_created))).

End stores.

Definition store_open_s3 `{ObjectStore} (config : S3Config) : Stores → reply StoreResource * Stores :=
  serve StoreOpen (open_s3 config).

(** ** Readers *)

Section readers.
Context {RS : S3} {RU : Rustler} {AR : Arrow} {AD : ArrowData} {PR : ParquetReader AR} {PF : ParquetFile PR}.

#[local] Existing Instance front_store.

Definition reader_open_store (monitored : bool) (store : StoreResource) (key : string) (options : NativeReaderOptions)
    (s : Stores) (active_readers : Z) : reply (ReaderResource * list NativeField) * Stores * Z :=
  let '(opened, s, active_readers) :=
    ReaderOpen.open_store (RS := front_store) store key
      (mkReaderOpenSettings (options_max_range_bytes options) (options_batch_size options)
         (options_prefetch_depth options) (options_columns options) (options_predicate options)) s active_readers in
  match opened with
  | Returned (Ok (resource, fields)) =>
      if monitored then (encode_guarded ReaderOpen (Returned (Ok (resource, fields))), s, active_readers)
      else
        let '(closed, resource, active_readers) := ReaderState.resource_close resource active_readers in
        (encode_guarded ReaderOpen
           (Returned (_ ← closed; Err (NativeFailure_expected ReaderOpen "could not monitor reader owner"))),
         s, ReaderState.drop_state (ReaderState.state resource) active_readers)
  | opened => (encode_guarded ReaderOpen opened, s, active_readers)
  end.

Definition reader_next (fuel : nat) (cancels : list (list bool)) (resource : ReaderResource) (s : Stores) :
    option (reply Term * ReaderResource * Stores) :=
  '(next, resource, s) ← ReaderState.resource_next_batch (RS := front_store) fuel cancels resource s;
  Some (match guarded ReaderNext next with
        | Ok (Some batch) => encode_guarded ReaderNext (encode_batch batch)
        | Ok None => reply_ok (encode_atom "eof")
        | Err failure => reply_error (payload failure)
        end, resource, s).

Definition reader_close (resource : ReaderResource) (active_readers : Z) : reply atom * ReaderResource * Z :=
  let '(closed, resource, active_readers) := ReaderState.resource_close resource active_readers in
  (encode_guarded ReaderClose (Returned (_ ← closed; Ok "closed"%string)), resource, active_readers).

Definition reader_stats (resource : ReaderResource) : reply ReaderStats :=
  encode_guarded Errors.ReaderStats (Returned (ReaderState.resource_stats resource)).

End readers.

(** ** Parquet writers *)

Section writers.
Context {RS : S3} {RU : Rustler} {AR : Arrow} {AD : ArrowData} {AW : ArrowWriter AR}.

Definition parquet_writer_open_store (monitored : bool) (store : StoreResource) (key : string)
    (schema : list InputField) (options : NativeWriterOptions) (s : Stores) :
    reply ParquetWriterResource * Stores :=
  let '(opened, s) := Writer.open_store store key schema options s in
  match opened with
  | Returned (Ok resource) =>
      if monitored then (encode_guarded ParquetWriterOpen (Returned (Ok resource)), s)
      else
        let '(aborted, resource, s) := Writer.resource_abort resource s in
        (encode_guarded ParquetWriterOpen
           (_ ←? aborted;
            Returned (Err (NativeFailure_expected ParquetWriterOpen "could not monitor Parquet writer owner"))),
         Writer.drop_state (Writer.state resource) s)
  | opened => (encode_guarded ParquetWriterOpen opened, s)
  end.

Definition parquet_writer_write (cancels : list bool) (resource : ParquetWriterResource) (batch : Term) (s : Stores) :
    reply WriterStats * ParquetWriterResource * Stores :=
  let '(r, resource, s) := Writer.resource_write_batch batch cancels resource s in
  (encode_guarded ParquetWriterWrite r, resource, s).

Definition parquet_writer_close (cancels : list bool) (late : bool) (resource : ParquetWriterResource) (s : Stores) :
    reply NativeMetadata * ParquetWriterResource * Stores :=
  let '(r, resource, s) := Writer.resource_close cancels late resource s in
  (encode_guarded ParquetWriterClose (metadata ←? r; Returned (Ok (NativeMetadata_from metadata))), resource, s).

Definition parquet_writer_abort (resource : ParquetWriterResource) (s : Stores) :
    reply atom * ParquetWriterResource * Stores :=
  let '(r, resource, s) := Writer.resource_abort resource s in
  (encode_guarded ParquetWriterAbort
     (aborted ←? r; Returned (Ok (if aborted : bool then "aborted" else "closed")%string)), resource, s).

Definition parquet_writer_stats (resource : ParquetWriterResource) : reply WriterStats :=
  encode_guarded ParquetWriterStats (Returned (Writer.resource_stats resource)).

End writers.

(** ** The life of a store writer *)

Section store_writer.
Context {RS : S3} {store : StoreResource} {key : string} {SK : Sink store key}.

(** The writes a caller asked for, each with whether it was acknowledged, and
    whether the writer was finished: by a publication reported to the caller,
    an abort, or the caller's exit.  Later writes do not count. *)
Record history : Set := mkHistory {
  calls : list (bytes * bool);
  closed : bool;
}.

Definition record_write (data : bytes) (acknowledged : bool) (h : history) : history :=
  if closed h then h else mkHistory (calls h ++ [(data, acknowledged)]) false.

Definition close_history (h : history) : history := mkHistory (calls h) true.

Definition is_ok {A} (a : reply A) : bool := match a with reply_ok _ => true | reply_error _ => false end.

(** The data of the writes, when all of them were acknowledged. *)
Definition acknowledged (l : list (bytes * bool)) : option bytes :=
  if forallb snd l then Some (concat (map fst l)) else None.

(** Acknowledged writes added their data, a failed one at most a prefix. *)
Inductive torn : list (bytes * bool) → bytes → Prop :=
  | torn_nil : torn [] []
  | torn_acknowledged l c data : torn l c → torn (l ++ [(data, true)]) (c ++ data)
  | torn_failed l c data added : torn l c → added `prefix_of` data → torn (l ++ [(data, false)]) (c ++ added).

(** What the writes make of the object once it is published: all of the data
    and nothing else if none failed; and in a store that keeps what it staged,
    the torn data if some did. *)
Definition delivers (l : list (bytes * bool)) (c : bytes) : Prop :=
  (∀ a, acknowledged l = Some a → c = a) ∧ (keeps_staged = true → torn l c).

(** What a caller can do to a store writer, and what can happen to it. *)
Inductive store_writer_step :
    StoreWriterResource * Stores * history → StoreWriterResource * Stores * history → Prop :=
  | store_step_write data r s h a r' s' : store_writer_write data r s = (a, r', s') →
      store_writer_step (r, s, h) (r', s', record_write data (is_ok a) h)
  | store_step_publish r s h a r' s' : store_writer_publish r s = (a, r', s') →
      store_writer_step (r, s, h) (r', s', if is_ok a then close_history h else h)
  | store_step_abort r s h a r' s' : store_writer_abort r s = (a, r', s') →
      store_writer_step (r, s, h) (r', s', close_history h)
  | store_step_down r s h r' s' : store_writer_down r s = (r', s') →
      store_writer_step (r, s, h) (r', s', close_history h).

(** The object is as it was, or what the writes delivered. *)
Definition settled (s0 s : Stores) (h : history) : Prop :=
  object s = object s0 ∨ ∃ c, object s = Some c ∧ delivers (calls h) c.

(** An open writer holds what was written; a finished one is past that. *)
Definition writes (s0 : Stores) (w : StoreWriter) (s : Stores) (h : history) : Prop :=
  closed h = false ∧ holds s0 w s (acknowledged (calls h)) ∧
  (keeps_staged = true → ∃ c, staged_bytes w s c ∧ torn (calls h) c).

Definition store_writer_invariant (s0 : Stores) (x : StoreWriterResource * Stores * history) : Prop :=
  let '(r, s, h) := x in store_writer_poisoned r = false ∧
  (writes s0 (store_writer r) s h ∨ (store_finished (store_writer r) ∧ settled s0 s h)).

Lemma acknowledged_snoc l data (ok : bool) :
  acknowledged (l ++ [(data, ok)]) = if ok then (λ c, c ++ data) <$> acknowledged l else None.
Proof.
  unfold acknowledged. rewrite forallb_app, map_app, concat_app. cbn [forallb snd map fst concat].
  rewrite app_nil_r, andb_true_r. destruct ok; [|by rewrite andb_false_r]. rewrite andb_true_r.
  by destruct (forallb snd l).
Qed.

(** A write that is refused adds nothing. *)
Lemma delivers_refused l c data : delivers l c → delivers (l ++ [(data, false)]) c.
Proof.
  intros [_ Ht]. split; [intros a; by rewrite acknowledged_snoc|]. intros Hk. rewrite <-(app_nil_r c).
  apply torn_failed; [by apply Ht|apply prefix_nil].
Qed.

Lemma settled_refused s0 s h data : settled s0 s h → settled s0 s (record_write data false h).
Proof.
  unfold settled, record_write. intros [?|(c & Hc & Hd)]; [by left|right]. exists c. split; [done|].
  destruct (closed h); [done|]. by apply delivers_refused.
Qed.

(** The reply of a call is its result. *)
Lemma with_store_writer_inv {A} operation (r : StoreWriterResource) s
    (method : StoreWriter → Stores → result NativeFailure A * StoreWriter * Stores) a r' s' :
  store_writer_poisoned r = false → with_store_writer operation r s method = (a, r', s') →
  store_writer_poisoned r' = false ∧ method (store_writer r) s = (a, store_writer r', s').
Proof.
  unfold with_store_writer, lock_store_writer. intros ->. destruct (method (store_writer r) s) as [[a0 w] s1].
  by intros [= <- <- <-].
Qed.

Lemma store_write_writes s0 data w s h (r : result NativeFailure Z) w' s' :
  writes s0 w s h → store_write data w s = (r, w', s') →
  writes s0 w' s' (record_write data (match r with Ok _ => true | Err _ => false end) h).
Proof.
  intros (Hcl & Hh & Hst) Hw.
  assert (store_write_io data w s = (map_err (λ _, IoOther "staged store write failed") r, w', s')) as Hio
    by (unfold store_write_io; by rewrite Hw).
  destruct (write_holds _ _ _ _ _ _ _ _ Hh Hio) as [Hh' _]. unfold writes, record_write. rewrite Hcl.
  cbn [calls closed]. rewrite acknowledged_snoc. split_and!; [done|by destruct r|]. intros Hk.
  destruct (Hst Hk) as (c & Hc & Ht). destruct (keeps_write _ _ _ _ _ _ _ _ _ Hh Hc Hio) as (added & Hp & Hok & Hc').
  exists (c ++ added). split; [done|]. destruct r as [n|e].
  - rewrite (Hok n eq_refl). by apply torn_acknowledged.
  - by apply torn_failed.
Qed.

(** A publication of an open writer. *)
Lemma publish_delivers s0 w s h r w' s' : writes s0 w s h → store_publish w s = (r, w', s') →
  match r with
  | Ok md => store_finished w' ∧ ∃ c, object s' = Some c ∧ delivers (calls h) c ∧
      store_path md = key ∧ store_size md = len c
  | Err _ => writes s0 w' s' h ∨ (store_finished w' ∧ settled s0 s' h)
  end.
Proof.
  intros Hw Hp. pose proof Hw as (_ & Hh & Hst). destruct (publish_holds _ _ _ _ _ _ _ Hh Hp) as (Hr & _ & _ & Hend).
  assert (keeps_staged = true → ∃ d, torn (calls h) d ∧
    match r with Ok _ => object s' = Some d | Err _ => object s' = object s0 ∨ object s' = Some d end) as Hkeep.
  { intros Hk. destruct (Hst Hk) as (d & Hd & Ht). exists d. split; [done|]. by eapply keeps_publish. }
  destruct r as [md|e].
  - destruct Hr as (c & Hc & Hobj & Hk & Hs & _). destruct Hend as [Hfin|(_ & _ & ? & [=])]. split; [done|].
    exists c. split_and!; try done. split; [done|]. intros (d & Ht & Ho)%Hkeep. congruence.
  - destruct Hend as [Hfin|(-> & -> & _)]; [right|by left]. split; [done|].
    destruct Hr as [Hr|(c & Hc & Hobj)]; [by left|]. destruct keeps_staged eqn:Hk.
    + destruct (Hkeep eq_refl) as (d & Ht & [Ho|Ho]); [by left|right]. exists c. split_and!; [done|].
      split; [done|]. intros _. congruence.
    + right. exists c. split; [done|]. split; [done|]. by rewrite Hk.
Qed.

Lemma abort_settled s0 w s h r w' s' :
  writes s0 w s h ∨ (store_finished w ∧ settled s0 s h) → store_abort w s = (r, w', s') →
  store_finished w' ∧ settled s0 s' h.
Proof.
  intros [(_ & Hh & _)|[Hf He]] Ha.
  - destruct (abort_holds _ _ _ _ _ _ _ Hh Ha) as (Hobj & Hfin & _). by split; [|left].
  - assert (store_abort w s = (Ok false, w, s)) as E by (destruct Hf as [Hf _]; by destruct (Hf s) as (_ & _ & ? & _)).
    rewrite E in Ha. by injection Ha as _ <- <-.
Qed.

Lemma cancel_writes s0 w s h :
  writes s0 w s h ∨ (store_finished w ∧ settled s0 s h) →
  store_finished (store_cancel w) ∧ settled s0 s h ∨ ∃ acc, holds s0 (store_cancel w) s acc.
Proof.
  intros [(_ & Hh & _)|[Hf He]]; [right; apply cancel_holds in Hh as [? _]; by eexists|left].
  split; [by apply store_finished_cancel|done].
Qed.

Lemma store_writer_step_invariant s0 x y :
  store_writer_step x y → store_writer_invariant s0 x → store_writer_invariant s0 y.
Proof.
  intros [data r s h a r' s' Hop|r s h a r' s' Hop|r s h a r' s' Hop|r s h r' s' Hop] [Hp Hinv].
  - unfold store_writer_write in Hop. destruct (with_store_writer _ _ _ _) as [[a1 r1] s1] eqn:Hw. injection Hop as <- <- <-.
    apply with_store_writer_inv in Hw as [Hp' Hw]; [|done]. split; [done|]. destruct Hinv as [Hh|[Hf He]].
    + left. apply store_write_writes with (1 := Hh) in Hw. by destruct a1.
    + pose proof Hf as [Hr _]. destruct (Hr s) as (_ & Hwr & _). destruct (Hwr data) as [e E]. rewrite E in Hw. injection Hw as <- <- <-.
      right. split; [done|]. by apply settled_refused.
  - unfold store_writer_publish in Hop. destruct (with_store_writer _ _ _ _) as [[a1 r1] s1] eqn:Hw. injection Hop as <- <- <-.
    apply with_store_writer_inv in Hw as [Hp' Hw]; [|done]. split; [done|]. destruct Hinv as [Hh|[Hf He]].
    + apply publish_delivers with (1 := Hh) in Hw. destruct a1 as [md|e]; [|done].
      destruct Hw as (Hfin & c & Hobj & Hd & _). right. split; [done|]. right. by exists c.
    + pose proof Hf as [Hr _]. destruct (Hr s) as ([e E] & _). rewrite E in Hw. injection Hw as <- <- <-. by right.
  - unfold store_writer_abort in Hop. destruct (with_store_writer _ _ _ _) as [[a1 r1] s1] eqn:Hw. injection Hop as <- <- <-.
    apply with_store_writer_inv in Hw as [Hp' Hw]; [|done]. split; [done|]. right.
    by apply (abort_settled _ _ _ _ _ _ _ Hinv Hw).
  - unfold store_writer_down in Hop. destruct (with_store_writer _ _ _ _) as [[a1 r1] s1] eqn:Hw. injection Hop as <- <-.
    apply with_store_writer_inv in Hw as [Hp' Hw]; [|done]. split; [done|]. right. cbn [store_writer] in Hw.
    apply cancel_writes in Hinv as [Hinv|[acc Hh]].
    + by apply (abort_settled _ _ _ _ _ _ _ (or_intror Hinv) Hw).
    + destruct (abort_holds _ _ _ _ _ _ _ Hh Hw) as (Hobj & Hfin & _). by split; [|left].
Qed.

(** The states of a writer a caller opened. *)
Definition store_writer_reachable (s0 : Stores) (r : StoreWriterResource) (s : Stores) (h : history) : Prop :=
  ready s0 ∧ ∃ flush sync r0 s1, store_writer_open true store key flush sync s0 = (reply_ok r0, s1) ∧
    rtc store_writer_step (r0, s1, mkHistory [] false) (r, s, h).

Lemma store_writer_open_inv monitored flush sync s0 a s1 :
  ready s0 → store_writer_open monitored store key flush sync s0 = (a, s1) →
  (∃ e s2, a = reply_error (payload e) ∧ s1 = s2 ∧ (∀ f y w s3, write_policies flush sync StoreWriterOpen = Ok (f, y) →
     open_writer store key f y false s0 ≠ (Ok w, s3))) ∨
  (∃ f y w s2, write_policies flush sync StoreWriterOpen = Ok (f, y) ∧ holds s0 w s2 (Some []) ∧
     open_writer store key f y false s0 = (Ok w, s2) ∧
     if monitored : bool then a = reply_ok (mkStoreWriterResource w false) ∧ s1 = s2
     else ∃ p r w', a = reply_error p ∧ store_abort w s2 = (r, w', s1)).
Proof.
  intros Hr. unfold store_writer_open. destruct (write_policies _ _ _) as [[f y]|e]; [|intros [= <- <-]; left; by eexists _, _].
  destruct (open_writer _ _ _ _ _ _) as [[w|e] s2] eqn:Hopen.
  2: { intros [= <- <-]. left. exists e, s2. split_and!; [done..|]. intros ? ? ? ? [= <- <-]. by rewrite Hopen. }
  pose proof (open_holds _ _ _ _ _ Hr Hopen) as Hh. intros Ha. right. exists f, y, w, s2. split_and!; [done..|].
  destruct monitored; [by injection Ha as <- <-|].
  unfold with_store_writer, lock_store_writer in Ha. cbn [store_writer_poisoned store_writer] in Ha.
  destruct (store_abort w s2) as [[r w'] s3] eqn:Hab. injection Ha as <- <-. cbn [store_writer].
  destruct (abort_holds _ _ _ _ _ _ _ Hh Hab) as (_ & [Hf _] & _). destruct (Hf s3) as (_ & _ & _ & ->).
  by destruct r; eexists _, _, _.
Qed.

Lemma store_writer_reachable_invariant s0 r s h :
  store_writer_reachable s0 r s h → store_writer_invariant s0 (r, s, h).
Proof.
  intros [Hr (flush & sync & r0 & s1 & Hopen & Hsteps)].
  assert (∀ x y, rtc store_writer_step x y → store_writer_invariant s0 x → store_writer_invariant s0 y) as Hall.
  { induction 1; eauto using store_writer_step_invariant. }
  apply (Hall _ _ Hsteps). apply store_writer_open_inv in Hopen as [(e & s2 & [=] & _)|Hopen]; [|done].
  destruct Hopen as (f & y & w & s2 & _ & Hh & Ho & [= ->] & ->). split; [done|left]. split; [done|]. split; [done|].
  intros Hk. exists []. split; [by eapply keeps_open|constructor].
Qed.

(** C20: A store writer makes nothing visible but what its writes delivered.
    Whatever its caller does with it and whatever fails, the object is as it
    was until the writer is finished, and then still so or what the writes
    before that delivered: if all of them were acknowledged exactly their data,
    whole and in order; if some failed, in the local store, the data of the
    acknowledged ones whole and of each failed one at most a prefix, all in
    order (what a multipart upload makes of a failed part is not known).  A
    publication that is reported has made it so, under its key and with its
    length; and when the caller exits, the object stays as it is, the writer is
    finished and an unfinished one is cleaned up. *)
Theorem store_writer_whole s0 r s h :
  store_writer_reachable s0 r s h →
  (object s = object s0 ∨
   store_finished (store_writer r) ∧ ∃ c, object s = Some c ∧ delivers (calls h) c) ∧
  (∀ md r' s', store_writer_publish r s = (reply_ok md, r', s') →
    store_finished (store_writer r') ∧
    ∃ c, object s' = Some c ∧ delivers (calls h) c ∧ store_path md = key ∧ store_size md = len c) ∧
  (∀ r' s', store_writer_down r s = (r', s') →
    object s' = object s ∧ store_finished (store_writer r') ∧
    (¬ store_finished (store_writer r) → calm s → restored s0 s')).
Proof.
  intros [Hp Hinv]%store_writer_reachable_invariant. split; [|split].
  - destruct Hinv as [(_ & Hh & _)|[Hf [He|He]]]; [left; by eapply holds_object|by left|by right].
  - intros md r' s' Hpub. unfold store_writer_publish in Hpub.
    destruct (with_store_writer _ _ _ _) as [[a1 r1] s1] eqn:Hw. destruct a1 as [md1|e]; [|done].
    injection Hpub as <- <- <-. apply with_store_writer_inv in Hw as [_ Hw]; [|done]. destruct Hinv as [Hh|[[Hf _] _]].
    + by apply publish_delivers with (1 := Hh) in Hw.
    + destruct (Hf s) as ([e E] & _). by rewrite E in Hw.
  - intros r' s' Hd. unfold store_writer_down in Hd.
    destruct (with_store_writer _ _ _ _) as [[a1 r1] s1] eqn:Hw. injection Hd as <- <-.
    apply with_store_writer_inv in Hw as [_ Hw]; [|done]. cbn [store_writer] in Hw.
    destruct Hinv as [(_ & Hh & _)|[Hf He]].
    + destruct (cancel_holds _ _ _ _ Hh) as [Hc _].
      destruct (abort_holds _ _ _ _ _ _ _ Hc Hw) as (Hobj & Hfin & Hres).
      split; [by rewrite Hobj, (holds_object _ _ _ _ Hh)|]. split; [done|]. by intros _.
    + pose proof (store_finished_cancel _ Hf) as [Hr _]. destruct (Hr s) as (_ & _ & E & _).
      rewrite E in Hw. injection Hw as _ <- <-. split; [done|]. split; [by apply store_finished_cancel|done].
Qed.

End store_writer.

Section unmonitored.
Context {RS : S3} {RU : Rustler} {AR : Arrow} {AD : ArrowData} {AW : ArrowWriter AR}.
Context {store : StoreResource} {key : string} {SK : Sink store key} {AWL : ArrowWriterLaws AW}.

Lemma parquet_writer_open_monitored schema options s r s1 :
  Writer.open_store store key schema options s = (Returned (Ok r), s1) →
  parquet_writer_open_store true store key schema options s = (reply_ok r, s1).
Proof. intros Ho. unfold parquet_writer_open_store. by rewrite Ho. Qed.

(** C34: A writer whose owner cannot be monitored is not left behind: where
    opening would have succeeded, the caller gets an error, the object is as
    it was, and unless cleaning up fails the store is restored; for the
    writers of bytes and of Parquet files alike. *)
Theorem unmonitored_writer_restored s0 :
  ready s0 →
  (∀ flush sync r s1, store_writer_open true store key flush sync s0 = (reply_ok r, s1) →
    ∃ p s', store_writer_open false store key flush sync s0 = (reply_error p, s') ∧
      object s' = object s0 ∧ (calm s1 → restored s0 s')) ∧
  (∀ schema options r s1, parquet_writer_open_store true store key schema options s0 = (reply_ok r, s1) →
    ∃ p s', parquet_writer_open_store false store key schema options s0 = (reply_error p, s') ∧
      object s' = object s0 ∧ (calm s1 → restored s0 s')).
Proof.
  intros Hr. split.
  - intros flush sync r s1 Htrue.
    apply store_writer_open_inv in Htrue as [(e & s2 & [=] & _)|(f & y & w & s2 & Hpol & Hh & Ho & [= ->] & ->)]; [|done].
    destruct (store_writer_open false store key flush sync s0) as [a s'] eqn:Hfalse.
    apply store_writer_open_inv in Hfalse as [(e & s3 & _ & _ & Hn)|Hfalse]; [by destruct (Hn _ _ _ _ Hpol Ho)| |done].
    destruct Hfalse as (f' & y' & w' & s3 & Hpol' & Hh' & Ho' & p & r' & w2 & -> & Hab).
    assert (w' = w ∧ s3 = s2) as [-> ->] by (rewrite Hpol in Hpol'; injection Hpol' as <- <-; rewrite Ho in Ho'; by injection Ho').
    destruct (abort_holds _ _ _ _ _ _ _ Hh Hab) as (Hobj & _ & Hres). by eexists _, _.
  - intros schema options r s1. unfold parquet_writer_open_store.
    destruct (Writer.open_store store key schema options s0) as [opened s2] eqn:Hopen.
    apply open_store_spec in Hopen; [|done]. destruct opened as [[r0|e]|]; [|done..]. intros [= -> ->].
    destruct Hopen as (Hp & Hact & _ & _ & fields & properties & _ & Hst & Hsch).
    unfold Writer.resource_abort, locked, lock. rewrite Hp.
    destruct (Writer.abort (state r) s1) as [[b s] s'] eqn:Hab.
    assert (ParquetWriter.invariant s0 fields properties (state r) false s1 (Some [])) as Hinv by (split; [done|by left]).
    destruct (abort_spec s0 fields properties _ _ _ _ _ _ _ Hinv Hab) as (_ & _ & Hend & Hnone & Hdrop & _).
    destruct (Hdrop Hst) as [Hobj Hres]. cbn [Writer.state].
    assert (Writer.drop_state s s' = s') as Hd.
    { unfold Writer.drop_state, Writer.abort. rewrite Hend. cbn [negb]. by rewrite Hnone. }
    rewrite Hd. by eexists _, _.
Qed.

End unmonitored.

(** ** Witnesses *)

#[local] Existing Instances NoS3 Terms DatumArrow DatumData MemoryWriter ids_sink MemoryWriter_laws.

Definition bytes_opened := store_writer_open true sample_store "sub/out" "before_publish" "all" sample_stores.

Definition bytes_resource : StoreWriterResource (RS := NoS3) :=
  match bytes_opened.1 with
  | reply_ok r => r
  | reply_error _ => mkStoreWriterResource (LocalStoreWriter sample_writer ["data"]) true
  end.

Definition bytes_written := store_writer_write ["x"; "y"]%byte bytes_resource bytes_opened.2.

Definition bytes_published := store_writer_publish bytes_written.1.2 bytes_written.2.

Lemma bytes_reachable :
  store_writer_reachable (SK := ids_sink) sample_stores bytes_written.1.2 bytes_written.2
    (mkHistory [(["x"; "y"]%byte, true)] false).
Proof.
  split; [exact ids_ready|]. exists "before_publish"%string, "all"%string, bytes_resource, bytes_opened.2. split.
  - assert (bytes_opened.1 = reply_ok bytes_resource) as <- by by vm_compute. apply surjective_pairing.
  - assert (mkHistory [(["x"; "y"]%byte, true)] false =
      record_write ["x"; "y"]%byte (is_ok bytes_written.1.1) (mkHistory [] false)) as -> by by vm_compute.
    apply rtc_once, store_step_write. apply triple_eta.
Qed.

(** The same store, whose seventh system call from now on fails after a byte. *)
Definition full_stores : Stores (H := NoS3) :=
  mkStores (H := NoS3) (set_world sample_process
    (mkWorld sample_files [] (Some 9) (replicate 6 None ++ [Some (io.Uncategorized 28, 1%nat)]))) () 2 1 1.

Definition full_opened := store_writer_open true sample_store "sub/out" "before_publish" "all" full_stores.

Definition full_resource : StoreWriterResource (RS := NoS3) :=
  match full_opened.1 with
  | reply_ok r => r
  | reply_error _ => mkStoreWriterResource (LocalStoreWriter sample_writer ["data"]) true
  end.

(** A write that succeeds, and one that fails half-way. *)
Definition full_written := store_writer_write ["a"]%byte full_resource full_opened.2.
Definition full_failed := store_writer_write ["x"; "y"]%byte full_written.1.2 full_written.2.
Definition full_published := store_writer_publish full_failed.1.2 full_failed.2.

Definition full_calls : list (bytes * bool) := [(["a"]%byte, true); (["x"; "y"]%byte, false)].

Lemma full_ready : ready (Sink := ids_sink) full_stores.
Proof. split; [exact sample_real|by vm_compute]. Qed.

(** A write as a step. *)
Lemma write_step data r s h :
  let w := store_writer_write data r s in
  store_writer_step (RS := NoS3) (r, s, h)
    (w.1.2, w.2, record_write data (is_ok w.1.1) h).
Proof. apply store_step_write, triple_eta. Qed.

Lemma full_acknowledged : is_ok full_written.1.1 = true ∧ is_ok full_failed.1.1 = false.
Proof. split; vm_compute; reflexivity. Qed.

Lemma full_reachable :
  store_writer_reachable (SK := ids_sink) full_stores full_failed.1.2 full_failed.2 (mkHistory full_calls false).
Proof.
  split; [exact full_ready|]. exists "before_publish"%string, "all"%string, full_resource, full_opened.2. split.
  - assert (full_opened.1 = reply_ok full_resource) as <- by by vm_compute. apply surjective_pairing.
  - pose proof (write_step ["a"]%byte full_resource full_opened.2 (mkHistory [] false)) as H1.
    pose proof (write_step ["x"; "y"]%byte full_written.1.2 full_written.2 (mkHistory [(["a"]%byte, true)] false)) as H2.
    fold full_written in H1. fold full_failed in H2. cbn zeta in H1, H2. destruct full_acknowledged as [E1 E2].
    rewrite E1 in H1. rewrite E2 in H2. exact (rtc_l _ _ _ _ H1 (rtc_once _ _ H2)).
Qed.

(** The whole of the data of an acknowledged write; and, when the second of
    two writes failed, the first one's data and the part of the second's that
    was staged. *)
Lemma store_writer_whole_witness :
  match bytes_published.1.1 with
  | reply_ok md => store_size md = 2 ∧ object (Sink := ids_sink) bytes_published.2 = Some ["x"; "y"]%byte
  | reply_error _ => False
  end ∧
  match full_published.1.1 with
  | reply_ok md => store_size md = 2 ∧ object (Sink := ids_sink) full_published.2 = Some ["a"; "x"]%byte ∧
      torn full_calls ["a"; "x"]%byte
  | reply_error _ => False
  end.
Proof.
  split.
  - destruct (store_writer_whole _ _ _ _ bytes_reachable) as (_ & Hpub & _).
    pose proof (triple_eta bytes_published) as Hp. destruct (bytes_published.1.1) as [md|e] eqn:Hres.
    + destruct (Hpub md _ _ Hp) as (_ & c & Hobj & [Hc _] & _ & Hsize). rewrite Hobj, Hsize, (Hc _ eq_refl).
      split; vm_compute; reflexivity.
    + revert Hres. vm_compute. discriminate.
  - destruct (store_writer_whole _ _ _ _ full_reachable) as (_ & Hpub & _).
    pose proof (triple_eta full_published) as Hp. destruct (full_published.1.1) as [md|e] eqn:Hres.
    + destruct (Hpub md _ _ Hp) as (_ & c & Hobj & [_ Ht] & _ & Hsize).
      assert (object (Sink := ids_sink) full_published.2 = Some ["a"; "x"]%byte) as Hax by by vm_compute.
      rewrite Hax in Hobj. injection Hobj as <-. split; [rewrite Hsize; reflexivity|]. split; [exact Hax|].
      exact (Ht eq_refl).
    + revert Hres. vm_compute. discriminate.
Defined.

Lemma unmonitored_writer_restored_witness :
  ∃ p s', parquet_writer_open_store false sample_store "sub/out" ids_schema ids_options sample_stores = (reply_error p, s') ∧
    object (Sink := ids_sink) s' = None ∧ restored (Sink := ids_sink) sample_stores s'.
Proof.
  destruct (unmonitored_writer_restored (SK := ids_sink) sample_stores ids_ready) as [_ Hpq].
  destruct (Hpq ids_schema ids_options ids_resource ids_opened.2) as (p & s' & Ho & Hobj & Hres).
  - apply parquet_writer_open_monitored. exact ids_opened_eq.
  - exists p, s'. split; [exact Ho|]. split; [rewrite Hobj; vm_compute; reflexivity|].
    apply Hres. vm_compute. reflexivity.
Defined.
